(* ===== verification/_CoqProject ===== *)
-Q . S2P
Prelude.v
Core.v
Metrics.v
Spsc.v
SpscConcurrent.v
ZeroCopy.v
ZeroCopyConcurrent.v
TwoThreads.v
Broker.v
BrokerThreads.v
WalFormat.v
Posix.v
MmapFile.v
Wal.v
WalRecovery.v
PersistentBroker.v
PersistentConcurrent.v
CliArgs.v
Histogram.v
Apps.v
PubSub.v
Utils.v
Platform.v
StressSpsc.v
AetherBench.v
Console.v
Benchmarks.v
MicroBenchmarks.v
Examples.v
ExpectedResults.v
UnitTests.v
