(* ===== verification/Prelude.v ===== *)
(** * A verification of Aether-Stream

    Aether-Stream is a single-host messaging library in C++20: a lock-free
    single-producer single-consumer (SPSC) queue, brokers over it, a write-ahead
    log (WAL) in a memory-mapped file that a broker can publish through and that a
    reader can replay, and command-line tools around them.  This library models
    that code as executable functions and proves what makes it correct.

    ** The program and the files that model it

    [Broker] and [BatchBroker] wrap an SPSC ring buffer; [PersistentBroker] owns a
    [Broker] and a [WalWriter], appends every value to the log before it queues it,
    and replays logs through a [WalReader]; writer and reader work on a [MmapFile],
    the only code that talks to the operating system.  The tools parse their
    arguments and drive these classes.

    - Prelude.v: 64-bit arithmetic with wrap-around ([wrap], [⊞], [⊟], [in_width]),
      bytes as integers, [slice] and [splice] of byte lists, bit-level lemmas,
      the result type [outcome] of loops run with fuel, tactics and hint databases.
    - Core.v: core/types.hpp, core/status.hpp and .cpp, core/expected.hpp,
      core/config.hpp, message.hpp and broker.cpp: statuses, [Expected], the
      configuration structs and their validators, message views.
    - Metrics.v: metrics/counters.hpp and snapshot.hpp, the twelve atomic counters.
    - Spsc.v: spsc_ring_buffer.hpp as one thread runs it.  A slot is [Raw] or holds
      an object, and an access outside the lifetime of the object is undefined
      behaviour ([None]).  The class [SpscQueue] with [SpscQueueLaws] is the
      interface the brokers are verified against; the ring buffer is its instance.
    - SpscConcurrent.v: the same operations run by a producer and a consumer thread
      on a release/acquire memory in which loads may be arbitrarily stale and
      unordered accesses to a slot are data races.
    - ZeroCopy.v: zero_copy_spsc.hpp, queue and movable reservation objects.
    - ZeroCopyConcurrent.v: the same queue run by any number of producer threads and
      one consumer thread on a release/acquire memory, the reservation flag included.
    - TwoThreads.v: programs that drive a ring buffer from a producer and a consumer
      thread, and the class [CountingLoops] of those that can always still finish.
    - Broker.v: broker.hpp and batch_broker.hpp (modules [Broker], [BatchBroker]).
    - BrokerThreads.v: the calls of both as the code of a publishing and a consuming
      thread on the queue machine of SpscConcurrent.v, the counters as atomics, and a third
      thread that takes metrics snapshots.  The class [Calls] states what a call promises to
      a client thread.
    - WalFormat.v: wal/record.hpp and wal/checksum.cpp, header layout and CRC-32.
    - Posix.v: the system calls as a class [Posix] of operations on an abstract
      world and their documented behaviour as the class [PosixLaws]; [ToyOs] is a
      concrete system with scripted failures that satisfies the laws.
    - MmapFile.v: io/mmap_file.cpp, the POSIX branch.
    - Wal.v: wal/wal_writer.cpp, wal/wal_reader.cpp and WalReader::replay.
    - WalRecovery.v: what replay makes of whole, cut and corrupted files.
    - PersistentBroker.v: persistent_broker.hpp, typed replay included.
    - PersistentConcurrent.v: the same broker with one thread that publishes and
      flushes and one that consumes, on the queue machine of SpscConcurrent.v; the
      log, the members and the counters are part of the state.
    - CliArgs.v: cli/args.hpp and cli/args.cpp, the five option parsers and
      the help texts.
    - Histogram.v: metrics/latency_histogram.cpp on binary64 arithmetic.
    - Apps.v: the [main] functions of apps/aether_replay.cpp and
      apps/aether_inspect_wal.cpp, console output kept as data.
    - PubSub.v: the [main] functions of apps/aether_pub.cpp and apps/aether_sub.cpp,
      with the byte layout of the events they exchange.
    - Utils.v: utils/ (spin-wait backoff, thread names, stopwatch, CPU affinity).
    - Platform.v: what depends on the platform: detail/platform.hpp and the branches of
      utils/ and io/mmap_file.cpp as functions of the predefined macros, and the layout
      that detail/cache_line.hpp gives the queues.
    - StressSpsc.v: tools/stress_spsc.cpp, both threads and [main].
    - AetherBench.v: apps/aether_bench.cpp, the two threads of [run] and its report.
    - Console.v: the text of what the five tools print, and the name of the result file of
      [aether_bench].
    - Benchmarks.v: benchmarks/, the two-thread transfers (module [Transfer]) and the
      iterations of the end-to-end benchmarks (module [EndToEnd]).
    - MicroBenchmarks.v: benchmarks/, the single-threaded benchmarks.
    - Examples.v: the [main] functions of examples/ on the models above.
    - ExpectedResults.v: what the operations that return an [Expected] may put in it.
    - UnitTests.v: the programs of tests/ run on the models above.

    State is passed explicitly; a C++ object is a record of its members, an
    operation that changes it returns the new record.  Operations that may have
    undefined behaviour return an [option], loops that are not structural take fuel
    and return an [outcome], fallible operations return the [Status] or [Expected]
    of the source.  Names are those of the source; an overloaded or clashing name
    carries a prefix ([mmap_], [writer_], [reader_], [ring_]) or lives in a module.

    ** What is proved

    - Queues: every sequence of calls on the ring buffer refines a bounded FIFO at
      any counter position, wrap-around included, and the destructor ends exactly
      the remaining lifetimes; concurrent executions are free of data races,
      linearize to a FIFO in which a call succeeds or fails by exactly what its thread has
      observed of the other (everything, after a load of the latest store), and are
      wait-free; [size_approx] is conservative
      in the two threads and can underflow in a third one.  Clients of the
      zero-copy queue that keep to the reservation contract see a FIFO with one
      reservation at a time and no undefined behaviour; with concurrent producers and
      a consumer its slots are free of data races, at most one producer holds a
      reservation, values arrive in the order in which they were committed, and the queue
      is full, busy or empty only by what the caller has observed.
    - Brokers: each refines a FIFO with statuses and counters, for any queue that
      satisfies the interface; counters and snapshots are exact; batches equal sequences of single
      calls; a broker with a rejected configuration is inert.  Used by a publishing and a
      consuming thread, single calls or batches, they have no undefined behaviour, deliver
      a prefix of the published values, and count exactly; a third thread sees counters that never
      decrease and, after joining the two, exact ones, while a snapshot
      taken in between need not be of one instant.
    - Log format: headers round trip, and the CRC detects every change confined to
      four consecutive bytes.
    - Files: creation, closing and resizing of a mapped file own and release their
      resources on every error path.
    - Log: every branch of [append]; replay terminates on any bytes; written records
      are read back unless a flush has failed; a cut file gives the complete records and a clean stop;
      corruption is reported within the header fields before the payload size, between the
      reserved bytes and the checksum, inside the checksum, and behind it.  The exact limits of these promises
      (reserved bytes, torn headers in preallocated files, failed flushes) are
      theorems too.
    - Persistent broker: every branch of a publish; the log holds exactly the
      published values in order, which are the consumed ones followed by the queue;
      replay after a restart recovers exactly them; a second [open] disables it.  With a
      publishing and a consuming thread the same order holds in every interleaving:
      the value being published is the only one in the log that its caller does not
      know about, nothing is consumed that is not logged, every call is wait-free, and
      a replay after a crash at any instant begins with all acknowledged values.
    - Tools: numbers are parsed exactly, the parsers terminate and read back what
      is printed; percentiles are order statistics whose rank is the documented ceiling up
      to a rounding of at most [N * 2^-52], and exactly it for the 50th, 95th and 99th; the replay and inspection tools report exactly the records
      of the file and modify nothing.
      What [aether_pub] writes [aether_sub] reads: an exit code of 0 means that the
      file holds every event, and the subscriber then prints and counts them all;
      without a log it publishes and consumes within the chosen capacity.  The printed
      line of a record determines its fields, and result files of different seconds have
      different names.  The two
      spin-wait classes follow the schedules stated in Utils.v.
    - Two-thread programs: in every interleaving the stress tool has no undefined
      behaviour, can always still finish, and when it does its validation passes;
      the benchmark tool reports exactly the messages it sent and the retries it
      made, and is terminated without a report where its output directory cannot be created; the transfer benchmarks always validate, with exact checksums, and the
      single-threaded ones skip only where a log cannot be opened.  The example
      programs print and return what they set out to show.
    - Platforms: the members of a queue that different threads write share no cache
      line; the two [cpu_relax] are the same hint only on x86 and on 64-bit ARM with
      GCC or Clang; on Windows no file object ever becomes valid.
    - Results: what each operation that returns an [Expected] may return on any operating
      system and memory: which values (a record only with its constant fields, its
      bounds and its checksum verified), and which error when.
    - Tests: every test program of the repository exits with 0 on the models, the ones with
      threads in every interleaving.

    ** Fuel and bounds

    [replay] and the loops of the tools take fuel [S (length c / 40)] for a file of
    content [c]: each iteration but the last consumes a record of at least 40 bytes.
    The destructors take one unit per queued element.  An argument loop takes one
    unit per argument.  The loops of [aether_pub] and of the local [aether_sub] take
    65537, one more than the largest queue; the examples ([wal_fuel],
    [persistent_fuel]) one unit per 40 bytes of the files they create.  The theorems on these loops state that
    this fuel gives a result, never only what a result would be.  Threads have no
    fuel: their executions are sequences of steps of any length, and termination is
    that a completing continuation exists from every reachable state.  [std::size_t] is 64 bits wide.
    Files are shorter than 2^63 bytes, as [off_t] demands.  Percentile ranks are
    treated for fewer than 2^53 samples, the integers a [double] represents, and are exact for
    [p50], [p95] and [p99] up to 2^45.

    ** What is not modelled

    Exceptions thrown by allocation or by element types; the clock beyond its being
    a 64-bit value ([aether_bench] may measure any duration) and the conversion to local
    time; the textual form of what the examples, the stress tool and the tests print, kept as
    data; the harness of the benchmark library and the counters it prints; the checks of the
    tests on the size of types and on objects that were moved from.  The rest of the
    implementation is declarations: forward declarations, deleted copies and type aliases.
    A crash is one of the process: what a power failure leaves of unflushed pages is
    not described.  The directory functions of
    std::filesystem are parameters of the tools and of the examples.  The payload of an [OrderEvent]
    is laid out for a little-endian machine, with arbitrary padding bytes. *)

From stdpp Require Export base list strings numbers option.
From Stdlib Require Export ZArith Lia.
From Stdlib Require Import Btauto.
From Stdlib Require Strings.Byte.

#[global] Open Scope Z_scope.

(** ** Machine integers *)

(** [wrap w z] is the value a [w]-bit unsigned C++ integer holds after an
    operation whose mathematical result is [z]. *)
Definition wrap (w z : Z) : Z := z mod 2 ^ w.

Declare Scope aether_scope.
Delimit Scope aether_scope with aether.
(** Arithmetic of [std::size_t] and [std::uint64_t] (both 64 bits wide). *)
Notation "x ⊞ y" := (wrap 64 (x + y)) (at level 50, left associativity) : aether_scope.
Notation "x ⊟ y" := (wrap 64 (x - y)) (at level 50, left associativity) : aether_scope.
#[global] Open Scope aether_scope.

Definition u64_max : Z := 2 ^ 64 - 1.
Definition u32_max : Z := 2 ^ 32 - 1.

(** [in_width w z]: [z] is representable in [w] bits. *)
Definition in_width (w z : Z) : Prop := 0 <= z < 2 ^ w.
#[global] Instance in_width_dec w z : Decision (in_width w z).
Proof. unfold in_width. apply _. Defined.

Create HintDb aether.
Create Rewrite HintDb aether.
Create Rewrite HintDb zbits.

Lemma wrap_width w z : 0 <= w -> in_width w (wrap w z).
Proof. intros. apply Z.mod_pos_bound. apply Z.pow_pos_nonneg; lia. Qed.

Lemma wrap_id w z : in_width w z -> wrap w z = z.
Proof. apply Z.mod_small. Qed.

Lemma wrap_wrap_add_l w a b : wrap w (wrap w a + b) = wrap w (a + b).
Proof. unfold wrap. apply Zplus_mod_idemp_l. Qed.

Lemma wrap_wrap_sub_r w a b : wrap w (a - wrap w b) = wrap w (a - b).
Proof. unfold wrap. apply Zminus_mod_idemp_r. Qed.

Lemma wrap_wrap_sub_l w a b : wrap w (wrap w a - b) = wrap w (a - b).
Proof. unfold wrap. apply Zminus_mod_idemp_l. Qed.

#[export] Hint Resolve wrap_width : aether.
#[export] Hint Rewrite wrap_wrap_add_l wrap_wrap_sub_l wrap_wrap_sub_r : aether.

(** The distance between two wrapped counters is exact as long as the true
    distance fits the width. *)
Lemma wrap_distance w a b :
  in_width w (a - b) -> wrap w (wrap w a - wrap w b) = a - b.
Proof. intros. rewrite wrap_wrap_sub_l, wrap_wrap_sub_r. by apply wrap_id. Qed.

(** Two wrapped counters are equal exactly when the true counters are, as long
    as they are less than one full turn apart. *)
Lemma wrap_eq_iff w a b :
  0 <= w -> in_width w (a - b) -> wrap w a = wrap w b <-> a = b.
Proof.
  intros ? Hd. split; [|by intros ->]. intros E.
  pose proof (wrap_distance w a b Hd) as D. rewrite E, Z.sub_diag in D.
  unfold wrap in D. rewrite Z.mod_0_l in D by (apply Z.pow_nonzero; lia). lia.
Qed.

(** ** Bits *)

Lemma testbit_out_of_width w z i :
  in_width w z -> 0 <= w <= i -> Z.testbit z i = false.
Proof.
  intros Hz Hi. rewrite <- (Z.mod_small z (2 ^ w)) by exact Hz.
  apply Z.mod_pow2_bits_high. lia.
Qed.

(** A value whose bits from position [w] on are all clear fits [w] bits. *)
Lemma in_width_bits w z :
  0 <= w -> 0 <= z -> (forall i, w <= i -> Z.testbit z i = false) -> in_width w z.
Proof.
  intros Hw Hz Hb. replace z with (z mod 2 ^ w).
  { apply Z.mod_pos_bound. apply Z.pow_pos_nonneg; lia. }
  apply Z.bits_inj'. intros i Hi. destruct (decide (i < w)).
  - rewrite Z.mod_pow2_bits_low by lia. done.
  - rewrite Z.mod_pow2_bits_high by lia. rewrite Hb by lia. done.
Qed.

#[export] Hint Rewrite Z.lxor_spec Z.land_spec Z.lor_spec Z.testbit_0_l : zbits.
#[export] Hint Rewrite Z.shiftr_spec Z.shiftl_spec using lia : zbits.

Ltac zbits :=
  apply Z.bits_inj'; let i := fresh "i" in intros i ?; autorewrite with zbits.

Lemma lxor_width w a b :
  0 <= w -> in_width w a -> in_width w b -> in_width w (Z.lxor a b).
Proof.
  intros Hw Ha Hb. apply in_width_bits; [done| |].
  - apply Z.lxor_nonneg. unfold in_width in *. lia.
  - intros i Hi. rewrite Z.lxor_spec.
    rewrite !(testbit_out_of_width w) by (done || lia). done.
Qed.

Lemma shiftr_width w a n :
  0 <= w -> 0 <= n -> in_width w a -> in_width w (Z.shiftr a n).
Proof.
  intros Hw Hn Ha. apply in_width_bits; [done| |].
  - apply Z.shiftr_nonneg. unfold in_width in *. lia.
  - intros i Hi. rewrite Z.shiftr_spec by lia.
    apply (testbit_out_of_width w); [done|lia].
Qed.

Lemma land_width w a b : 0 <= w -> 0 <= a -> in_width w b -> in_width w (Z.land a b).
Proof.
  intros Hw Ha Hb. apply in_width_bits; [done| |].
  - apply Z.land_nonneg. by left.
  - intros i Hi. rewrite Z.land_spec.
    rewrite (testbit_out_of_width w b) by (done || lia). btauto.
Qed.

#[export] Hint Resolve lxor_width shiftr_width land_width : aether.

(** A positive number with no bit in common with its predecessor is a power of
    two: the test of the static assertions and of [is_power_of_two]. *)
Lemma land_pred_pow2 c : 0 < c -> Z.land c (c - 1) = 0 -> c = 2 ^ Z.log2 c.
Proof.
  intros Hc Hl. pose proof (Z.log2_spec c Hc) as [Hlo Hhi].
  destruct (decide (c = 2 ^ Z.log2 c)) as [|Hne]; [done|exfalso].
  assert (Hb : Z.testbit (Z.land c (c - 1)) (Z.log2 c) = true).
  { rewrite Z.land_spec, Z.bit_log2 by lia. simpl.
    rewrite <- (Z.log2_unique (c - 1) (Z.log2 c)) at 1; [|apply Z.log2_nonneg|lia].
    apply Z.bit_log2. pose proof (Z.pow_pos_nonneg 2 (Z.log2 c)).
    pose proof (Z.log2_nonneg c). lia. }
  rewrite Hl, Z.testbit_0_l in Hb. done.
Qed.

Lemma pow2_land_pred k : 0 <= k -> Z.land (2 ^ k) (2 ^ k - 1) = 0.
Proof.
  intros. rewrite Z.sub_1_r, <- Z.ones_equiv, Z.land_ones by done.
  apply Z.mod_same. apply Z.pow_nonzero; lia.
Qed.

(** Masking with a power of two minus one is the remainder. *)
Lemma land_mask_mod c x :
  0 < c -> Z.land c (c - 1) = 0 -> Z.land x (c - 1) = x mod c.
Proof.
  intros Hc Hl. rewrite (land_pred_pow2 c Hc Hl) at 1 2.
  rewrite Z.sub_1_r, <- Z.ones_equiv. apply Z.land_ones, Z.log2_nonneg.
Qed.

(** ** Bytes *)

Abbreviation byte := Byte.byte.

(** [std::to_integer] of a byte. *)
Definition b2z (b : byte) : Z := Z.of_N (Byte.to_N b).
(** [static_cast<std::byte>]: the low eight bits. *)
Definition z2b (z : Z) : byte :=
  match Byte.of_N (Z.to_N (z mod 256)) with Some b => b | None => Byte.x00 end.

Lemma b2z_width b : in_width 8 (b2z b).
Proof.
  unfold b2z, in_width. pose proof (Byte.to_N_bounded b) as H.
  change (2 ^ 8) with 256. lia.
Qed.

Lemma b2z_z2b z : b2z (z2b z) = z mod 256.
Proof.
  unfold z2b, b2z. pose proof (Z.mod_pos_bound z 256 ltac:(lia)).
  destruct (Byte.of_N _) as [b|] eqn:E.
  - apply Byte.to_of_N in E. rewrite E. apply Z2N.id. lia.
  - apply Byte.of_N_None_iff in E. lia.
Qed.

Lemma b2z_inj b1 b2 : b2z b1 = b2z b2 -> b1 = b2.
Proof.
  unfold b2z. intros H%N2Z.inj.
  assert (E : Some b1 = Some b2) by (by rewrite <- !Byte.of_to_N, H).
  congruence.
Qed.

Lemma z2b_b2z b : z2b (b2z b) = b.
Proof.
  apply b2z_inj. rewrite b2z_z2b. apply Z.mod_small. apply (b2z_width b).
Qed.

#[global] Instance byte_eq_dec : EqDecision byte := Byte.byte_eq_dec.
#[export] Hint Resolve b2z_width : aether.

(** ** Regions of bytes: spans and copies *)

(** [span.subspan(off, n)]. *)
Definition slice {A} (off n : nat) (l : list A) : list A := take n (drop off l).

(** [std::memcpy(dst + off, src)] on a region. *)
Definition splice {A} (off : nat) (src dst : list A) : list A :=
  take off dst ++ src ++ drop (off + length src) dst.

Section Regions.
Context {A : Type}.
Implicit Types (l src dst : list A) (off n : nat).

Lemma length_slice off n l :
  (off + n <= length l)%nat -> length (slice off n l) = n.
Proof. intros. unfold slice. rewrite length_take, length_drop. lia. Qed.

Lemma length_splice off src dst :
  (off + length src <= length dst)%nat -> length (splice off src dst) = length dst.
Proof.
  intros. unfold splice. rewrite !length_app, length_take, length_drop. lia.
Qed.

Lemma splice_take off src dst :
  (off <= length dst)%nat -> take off (splice off src dst) = take off dst.
Proof.
  intros. unfold splice. rewrite take_app_le by (rewrite length_take; lia).
  by rewrite take_take, Nat.min_id.
Qed.

Lemma splice_drop off src dst :
  (off <= length dst)%nat ->
  drop off (splice off src dst) = src ++ drop (off + length src) dst.
Proof.
  intros. unfold splice. rewrite drop_app_length'; [done|].
  rewrite length_take. lia.
Qed.

(** Two adjacent copies are one copy of the concatenation. *)
Lemma splice_splice_adjacent off s1 s2 dst :
  (off + length s1 + length s2 <= length dst)%nat ->
  splice (off + length s1) s2 (splice off s1 dst) = splice off (s1 ++ s2) dst.
Proof.
  intros. unfold splice at 1.
  replace (take (off + length s1) (splice off s1 dst)) with (take off dst ++ s1).
  - rewrite <- Nat.add_assoc, <- (drop_drop _ _ off), splice_drop by lia.
    unfold splice. rewrite drop_app_ge, drop_drop, length_app, <- !app_assoc by lia.
    do 4 f_equal. lia.
  - unfold splice. rewrite app_assoc. rewrite take_app_length'; [done|].
    rewrite length_app, length_take. lia.
Qed.
Lemma lookup_splice off src dst i :
  (off + length src <= length dst)%nat ->
  splice off src dst !! i =
    if decide (off <= i < off + length src)%nat then src !! (i - off)%nat else dst !! i.
Proof.
  intros. unfold splice. case_decide.
  - rewrite lookup_app_r, lookup_app_l; rewrite length_take; [f_equal; lia|lia..].
  - destruct (decide (i < off)%nat).
    + rewrite lookup_app_l by (rewrite length_take; lia). by rewrite lookup_take_lt.
    + rewrite !lookup_app_r; rewrite ?length_take; [|lia..]. rewrite lookup_drop. f_equal. lia.
Qed.

(** Copies to disjoint windows commute. *)
Lemma splice_comm i j x y dst :
  (i + length x <= j \/ j + length y <= i)%nat ->
  (i + length x <= length dst)%nat -> (j + length y <= length dst)%nat ->
  splice i x (splice j y dst) = splice j y (splice i x dst).
Proof.
  intros. apply list_eq. intros n.
  rewrite !lookup_splice by (rewrite ?length_splice; lia). repeat case_decide; (done || lia).
Qed.

(** Only the last copy to a window counts. *)
Lemma splice_inside i j x y dst :
  (j <= i)%nat -> (i + length x <= j + length y)%nat -> (j + length y <= length dst)%nat ->
  splice j y (splice i x dst) = splice j y dst.
Proof.
  intros. apply list_eq. intros n.
  rewrite !lookup_splice by (rewrite ?length_splice; lia). repeat case_decide; (done || lia).
Qed.

Lemma splice_slice i n dst : (i + n <= length dst)%nat -> splice i (slice i n dst) dst = dst.
Proof.
  intros. apply list_eq. intros m. rewrite lookup_splice by (rewrite length_slice; lia).
  rewrite length_slice by lia. case_decide; [|done]. unfold slice.
  rewrite lookup_take_lt, lookup_drop by lia. f_equal. lia.
Qed.

(** A window outside the one written is not changed. *)
Lemma slice_splice_disjoint i n j x dst :
  (i + n <= j \/ j + length x <= i)%nat -> (j + length x <= length dst)%nat ->
  slice i n (splice j x dst) = slice i n dst.
Proof.
  intros. apply list_eq. intros m. unfold slice. rewrite !lookup_take, !lookup_drop.
  case_decide; [|done]. rewrite lookup_splice by lia. case_decide; (done || lia).
Qed.
Lemma lookup_slice i n l m : (m < n)%nat -> slice i n l !! m = l !! (i + m)%nat.
Proof. intros. unfold slice. by rewrite lookup_take_lt, lookup_drop. Qed.

Lemma slice_split i n m l : slice i (n + m) l = slice i n l ++ slice (i + n) m l.
Proof. unfold slice. by rewrite <- (drop_drop l n i), take_take_drop. Qed.

(** A copy that leaves a window around it as it was changes nothing. *)
Lemma splice_window_eq i n k x dst :
  (i <= k)%nat -> (k + length x <= i + n)%nat -> (k + length x <= length dst)%nat ->
  slice i n (splice k x dst) = slice i n dst -> splice k x dst = dst.
Proof.
  intros Hi Hn Hl E. apply list_eq. intros j.
  destruct (decide (i <= j < i + n)%nat) as [[Hj Hj']|Hj].
  - apply (f_equal (fun l => l !! (j - i)%nat)) in E. rewrite !lookup_slice in E by lia.
    by replace (i + (j - i))%nat with j in E by lia.
  - rewrite lookup_splice by done. case_decide; [lia|done].
Qed.
End Regions.

(** ** Partial computations *)

(** The outcome of a loop run with fuel: a result, undefined behaviour of the
    C++ abstract machine, or fuel exhausted before the loop ended. *)
Inductive outcome (A : Type) : Type :=
  | Done (a : A)
  | Undefined
  | OutOfFuel.
Arguments Done {A} a.
Arguments Undefined {A}.
Arguments OutOfFuel {A}.

(** Offsets below the modulus select distinct residues. *)
Lemma mod_offset_inj c t i j :
  0 <= i < c -> 0 <= j < c -> (t + i) mod c = (t + j) mod c -> i = j.
Proof.
  intros Hi Hj E.
  assert (H : (i - j) mod c = 0).
  { assert (Eq : i - j = (t + i) - (t + j)) by lia. rewrite Eq.
    rewrite Zminus_mod, E, Z.sub_diag. apply Zmod_0_l. }
  apply Z.mod_divide in H; [|lia]. destruct H as [k Hk].
  assert (k = 0) by nia. lia.
Qed.
