(* ===== verification/Core.v ===== *)
(** * Core vocabulary

    The types every other component shares: status codes and statuses
    (core/status.hpp, core/status.cpp), [Expected] (core/expected.hpp), the
    integer constants (core/types.hpp), the configuration structs with their
    validators (core/config.hpp, broker.cpp) and message views (message.hpp). *)

From S2P Require Import Prelude.

(** ** core/types.hpp *)

Definition invalid_sequence : Z := u64_max.
Definition max_payload_size : Z := u32_max.
Definition default_queue_capacity : Z := 1024.
Definition default_wal_size_bytes : Z := 64 * 1024 * 1024.

Definition is_power_of_two (value : Z) : bool :=
  negb (value =? 0) && (Z.land value (value ⊟ 1) =? 0).

(** ** core/status.hpp and core/status.cpp *)

Module StatusCode.
Inductive t : Set :=
  | ok | unknown | full | empty | invalid_argument | io_error | corrupted_record
  | out_of_space.
End StatusCode.

#[global] Instance StatusCode_eq_dec : EqDecision StatusCode.t.
Proof. solve_decision. Defined.

Definition status_code_name (code : StatusCode.t) : string :=
  match code with
  | StatusCode.ok => "ok"
  | StatusCode.unknown => "unknown"
  | StatusCode.full => "full"
  | StatusCode.empty => "empty"
  | StatusCode.invalid_argument => "invalid_argument"
  | StatusCode.io_error => "io_error"
  | StatusCode.corrupted_record => "corrupted_record"
  | StatusCode.out_of_space => "out_of_space"
  end.

Definition status_code_message (code : StatusCode.t) : string :=
  match code with
  | StatusCode.ok => "operation completed successfully"
  | StatusCode.unknown => "unknown error"
  | StatusCode.full => "resource is full"
  | StatusCode.empty => "resource is empty"
  | StatusCode.invalid_argument => "invalid argument"
  | StatusCode.io_error => "I/O error"
  | StatusCode.corrupted_record => "corrupted record"
  | StatusCode.out_of_space => "not enough space"
  end.

(** [class Status]: the accessors [code()] and [detail()] are the fields. *)
Record Status : Set := mkStatus { code : StatusCode.t; detail : string }.

#[global] Instance Status_eq_dec : EqDecision Status.
Proof. solve_decision. Defined.

Definition Status_ok : Status := mkStatus StatusCode.ok "".
Definition Status_error (code : StatusCode.t) (detail : string) : Status :=
  mkStatus code detail.
Definition is_ok (s : Status) : bool := bool_decide (code s = StatusCode.ok).
Definition message (s : Status) : string :=
  if decide (detail s = ""%string) then status_code_message (code s) else detail s.
(** [operator==]. *)
Definition Status_eqb (lhs rhs : Status) : bool :=
  bool_decide (code lhs = code rhs) && bool_decide (detail lhs = detail rhs).

(** The early-return idiom [if (!s.is_ok()) return s; k]. *)
Notation "'check' s ';;' k" := (let st := s in if is_ok st then k else st)
  (at level 60, s at next level, right associativity) : aether_scope.

Lemma is_ok_true s : is_ok s = true <-> code s = StatusCode.ok.
Proof. unfold is_ok. apply bool_decide_eq_true. Qed.

Lemma is_ok_false s : is_ok s = false <-> code s <> StatusCode.ok.
Proof. unfold is_ok. apply bool_decide_eq_false. Qed.

Lemma Status_eqb_eq s1 s2 : Status_eqb s1 s2 = true <-> s1 = s2.
Proof.
  unfold Status_eqb. rewrite andb_true_iff, !bool_decide_eq_true.
  destruct s1, s2; simpl. split; [by intros [-> ->]|by intros [= -> ->]].
Qed.

Lemma status_code_message_nonempty c : status_code_message c <> ""%string.
Proof. by destruct c. Qed.

Lemma status_code_name_inj c1 c2 :
  status_code_name c1 = status_code_name c2 -> c1 = c2.
Proof. by destruct c1, c2. Qed.

(** ** core/expected.hpp *)

Definition normalize_expected_error (status : Status) : Status :=
  if is_ok status
  then mkStatus StatusCode.invalid_argument "Expected error status must not be ok"
  else status.

(** The variant a [Expected<T>] stores. *)
Inductive Expected (T : Type) : Type :=
  | Value (value : T)
  | Error (status : Status).
Arguments Value {T} value.
Arguments Error {T} status.

(** The converting constructor from [Status]. *)
Definition Expected_of_status {T} (status : Status) : Expected T :=
  Error (normalize_expected_error status).
Definition has_value {T} (e : Expected T) : bool :=
  match e with Value _ => true | Error _ => false end.
(** [value()]: [None] when the assertion of the accessor fails. *)
Definition value {T} (e : Expected T) : option T :=
  match e with Value v => Some v | Error _ => None end.
Definition status {T} (e : Expected T) : Status :=
  match e with Value _ => Status_ok | Error s => s end.

(** [Expected<void>]: the stored status after the constructor's two steps. *)
Definition ExpectedVoid_of_status (s : Status) : Status :=
  let status_ := normalize_expected_error s in
  if is_ok s then Status_ok else status_.
Definition ExpectedVoid_has_value (status_ : Status) : bool := is_ok status_.

(** Every [Expected] the constructors can build: an error is never [ok]. *)
Definition Expected_wf {T} (e : Expected T) : Prop :=
  match e with Value _ => True | Error s => is_ok s = false end.

Lemma normalize_not_ok s : is_ok (normalize_expected_error s) = false.
Proof. unfold normalize_expected_error. by destruct (is_ok s) eqn:E. Qed.

Lemma normalize_id s : is_ok s = false -> normalize_expected_error s = s.
Proof. unfold normalize_expected_error. by intros ->. Qed.

Lemma Expected_of_status_wf {T} s : Expected_wf (T:=T) (Expected_of_status s).
Proof. apply normalize_not_ok. Qed.

Lemma Expected_wf_has_value {T} (e : Expected T) :
  Expected_wf e -> has_value e = is_ok (status e).
Proof. by destruct e; simpl. Qed.

#[export] Hint Resolve Expected_of_status_wf normalize_not_ok : aether.
#[export] Hint Rewrite @normalize_id using done : aether.

(** ** core/config.hpp *)

Record QueueConfig : Set := mkQueueConfig {
  qc_capacity : Z;
  qc_spin_pause_iterations : Z;
  qc_yield_after_spin : bool }.
Definition QueueConfig_default : QueueConfig :=
  mkQueueConfig default_queue_capacity 64 true.

Definition QueueConfig_validate (c : QueueConfig) : Status :=
  if qc_capacity c =? 0
  then mkStatus StatusCode.invalid_argument "queue capacity must be nonzero"
  else if negb (is_power_of_two (qc_capacity c))
  then mkStatus StatusCode.invalid_argument "queue capacity must be a power of two"
  else Status_ok.

Record WalConfig : Set := mkWalConfig {
  wc_path : string;
  wc_file_size_bytes : Z;
  wc_flush_on_commit : bool }.
Definition WalConfig_default : WalConfig :=
  mkWalConfig "aether.wal" default_wal_size_bytes false.

Definition path_empty (p : string) : bool := bool_decide (p = ""%string).

Definition WalConfig_validate (c : WalConfig) : Status :=
  if path_empty (wc_path c)
  then mkStatus StatusCode.invalid_argument "wal path must not be empty"
  else if wc_file_size_bytes c =? 0
  then mkStatus StatusCode.invalid_argument "wal file size must be nonzero"
  else Status_ok.

Record BrokerConfig : Set := mkBrokerConfig {
  bc_queue : QueueConfig;
  bc_wal : WalConfig;
  bc_enable_wal : bool }.
Definition BrokerConfig_default : BrokerConfig :=
  mkBrokerConfig QueueConfig_default WalConfig_default false.

Definition BrokerConfig_validate (c : BrokerConfig) : Status :=
  check QueueConfig_validate (bc_queue c) ;;
  if bc_enable_wal c then WalConfig_validate (bc_wal c) else Status_ok.

(** ** broker.cpp: validators of the brokers *)

(** [wal::wal_record_header_size] (wal/record.hpp). *)
Definition wal_record_header_size : Z := 40.

Definition validate_queue_config_for_capacity (config : QueueConfig)
    (static_capacity : Z) : Status :=
  check QueueConfig_validate config ;;
  if negb (qc_capacity config =? static_capacity)
  then mkStatus StatusCode.invalid_argument
         "queue config capacity does not match broker template capacity"
  else Status_ok.

Definition validate_wal_config_for_payload (config : WalConfig)
    (payload_size : Z) : Status :=
  check WalConfig_validate config ;;
  if payload_size >? max_payload_size
  then mkStatus StatusCode.invalid_argument "broker payload too large for WAL record"
  else if wc_file_size_bytes config <? wal_record_header_size ⊞ payload_size
  then mkStatus StatusCode.invalid_argument
         "wal file size must fit at least one broker record"
  else Status_ok.

Module BrokerDurabilityMode.
Inductive t : Set := in_memory | wal_before_queue.
End BrokerDurabilityMode.

Definition broker_durability_mode_name (mode : BrokerDurabilityMode.t) : string :=
  match mode with
  | BrokerDurabilityMode.in_memory => "in_memory"
  | BrokerDurabilityMode.wal_before_queue => "wal_before_queue"
  end.

(** ** message.hpp *)

Record MessageHeader : Set := mkMessageHeader {
  mh_sequence : Z;
  mh_timestamp_ns : Z;
  mh_payload_size : Z;
  mh_flags : Z }.

Record MessageView : Set := mkMessageView {
  mv_header : MessageHeader;
  mv_payload : list byte }.

(** [span.size()] as an unsigned integer. *)
Definition span_size (l : list byte) : Z := Z.of_nat (length l).

Definition payload_size_fits (sz : Z) : bool := sz <=? max_payload_size.

Definition make_message_view (sequence timestamp_ns : Z) (payload : list byte)
    (flags : Z) : Expected MessageView :=
  if negb (payload_size_fits (span_size payload))
  then Expected_of_status (mkStatus StatusCode.invalid_argument "payload too large")
  else Value (mkMessageView
    (mkMessageHeader sequence timestamp_ns (wrap 32 (span_size payload)) flags) payload).

Definition validate_message_view (m : MessageView) : Status :=
  if negb (mh_payload_size (mv_header m) =? span_size (mv_payload m))
  then mkStatus StatusCode.invalid_argument "payload size mismatch"
  else Status_ok.

(** ** Properties *)

Lemma is_power_of_two_spec v :
  in_width 64 v -> is_power_of_two v = true <-> exists k, 0 <= k < 64 /\ v = 2 ^ k.
Proof.
  intros Hv. unfold is_power_of_two. rewrite andb_true_iff, negb_true_iff, Z.eqb_neq, Z.eqb_eq.
  split.
  - intros [Hz Hl]. rewrite wrap_id in Hl by (unfold in_width in *; lia).
    assert (Hpos : 0 < v) by (unfold in_width in *; lia).
    exists (Z.log2 v). split; [|by apply land_pred_pow2].
    split; [apply Z.log2_nonneg|]. apply Z.log2_lt_pow2; [done|]. apply Hv.
  - intros (k & Hk & ->). assert (0 < 2 ^ k) by (apply Z.pow_pos_nonneg; lia).
    split; [lia|]. rewrite wrap_id by (unfold in_width in *; lia).
    apply pow2_land_pred; lia.
Qed.

Lemma validate_queue_config_ok config cap :
  is_ok (validate_queue_config_for_capacity config cap) = true <->
  qc_capacity config = cap /\ is_power_of_two cap = true.
Proof.
  unfold validate_queue_config_for_capacity, QueueConfig_validate.
  destruct (Z.eqb_spec (qc_capacity config) 0) as [E|E].
  { simpl. split; [done|]. intros [<- H]. rewrite E in H. done. }
  destruct (is_power_of_two (qc_capacity config)) eqn:P; simpl.
  - destruct (Z.eqb_spec (qc_capacity config) cap) as [<-|]; simpl.
    + rewrite P. done.
    + split; [done|]. by intros [? _].
  - split; [done|]. intros [<- ?]. congruence.
Qed.

Lemma validate_wal_config_ok config n :
  in_width 64 n -> in_width 64 (wc_file_size_bytes config) ->
  is_ok (validate_wal_config_for_payload config n) = true <->
  wc_path config <> ""%string /\ n <= max_payload_size /\
  wal_record_header_size + n <= wc_file_size_bytes config.
Proof.
  intros Hn Hf. unfold validate_wal_config_for_payload, WalConfig_validate, path_empty.
  unfold in_width in *. case_bool_decide; simpl; [by split; [|intros [? _]]|].
  destruct (Z.eqb_spec (wc_file_size_bytes config) 0); simpl.
  { split; [done|]. unfold wal_record_header_size. lia. }
  rewrite Z.gtb_ltb. destruct (Z.ltb_spec max_payload_size n); simpl.
  { split; [done|]. lia. }
  rewrite wrap_id by (unfold in_width, wal_record_header_size, max_payload_size, u32_max in *; lia).
  destruct (Z.ltb_spec (wc_file_size_bytes config) (wal_record_header_size + n)); simpl.
  - split; [done|]. lia.
  - split; [|done]. intros _. repeat split; [done|lia..].
Qed.
