(* ===== verification/Metrics.v ===== *)
(** * Broker metrics

    The relaxed atomic counters of metrics/counters.hpp and the value snapshot
    of metrics/snapshot.hpp.  Each counter is a [std::atomic<std::uint64_t>], so
    an increment is an atomic addition modulo 2^64. *)

From S2P Require Import Prelude.

(** [struct BrokerMetricsSnapshot]. *)
Record BrokerMetricsSnapshot : Set := mkSnapshot {
  published : Z; consumed : Z;
  publish_failed_full : Z; consume_failed_empty : Z;
  publish_failed_invalid : Z; consume_failed_invalid : Z;
  wal_bytes_written : Z; wal_records_written : Z;
  wal_flushes : Z; wal_failures : Z;
  recovered_records : Z; recovery_failures : Z }.

(** [class BrokerCounters]: the twelve atomics, in declaration order. *)
Record BrokerCounters : Set := mkCounters {
  published_ : Z; consumed_ : Z;
  publish_failed_full_ : Z; consume_failed_empty_ : Z;
  publish_failed_invalid_ : Z; consume_failed_invalid_ : Z;
  wal_bytes_written_ : Z; wal_records_written_ : Z;
  wal_flushes_ : Z; wal_failures_ : Z;
  recovered_records_ : Z; recovery_failures_ : Z }.

Definition BrokerCounters_init : BrokerCounters :=
  mkCounters 0 0 0 0 0 0 0 0 0 0 0 0.

(** [fetch_add(1, relaxed)]. *)
Definition increment (counter : Z) : Z := counter ⊞ 1.

Definition record_published '(mkCounters p c pf ce pi ci wb wr wl wx rr rf) :=
  mkCounters (increment p) c pf ce pi ci wb wr wl wx rr rf.
Definition record_consumed '(mkCounters p c pf ce pi ci wb wr wl wx rr rf) :=
  mkCounters p (increment c) pf ce pi ci wb wr wl wx rr rf.
Definition record_publish_failed_full '(mkCounters p c pf ce pi ci wb wr wl wx rr rf) :=
  mkCounters p c (increment pf) ce pi ci wb wr wl wx rr rf.
Definition record_consume_failed_empty '(mkCounters p c pf ce pi ci wb wr wl wx rr rf) :=
  mkCounters p c pf (increment ce) pi ci wb wr wl wx rr rf.
Definition record_publish_failed_invalid '(mkCounters p c pf ce pi ci wb wr wl wx rr rf) :=
  mkCounters p c pf ce (increment pi) ci wb wr wl wx rr rf.
Definition record_consume_failed_invalid '(mkCounters p c pf ce pi ci wb wr wl wx rr rf) :=
  mkCounters p c pf ce pi (increment ci) wb wr wl wx rr rf.
Definition record_wal_write (bytes : Z) '(mkCounters p c pf ce pi ci wb wr wl wx rr rf) :=
  mkCounters p c pf ce pi ci (wb ⊞ bytes) (increment wr) wl wx rr rf.
Definition record_wal_flush '(mkCounters p c pf ce pi ci wb wr wl wx rr rf) :=
  mkCounters p c pf ce pi ci wb wr (increment wl) wx rr rf.
Definition record_wal_failure '(mkCounters p c pf ce pi ci wb wr wl wx rr rf) :=
  mkCounters p c pf ce pi ci wb wr wl (increment wx) rr rf.
Definition record_recovered_record '(mkCounters p c pf ce pi ci wb wr wl wx rr rf) :=
  mkCounters p c pf ce pi ci wb wr wl wx (increment rr) rf.
Definition record_recovery_failure '(mkCounters p c pf ce pi ci wb wr wl wx rr rf) :=
  mkCounters p c pf ce pi ci wb wr wl wx rr (increment rf).

(** [snapshot()]: twelve loads, in the order of the aggregate initialiser. *)
Definition snapshot (c : BrokerCounters) : BrokerMetricsSnapshot :=
  mkSnapshot (published_ c) (consumed_ c) (publish_failed_full_ c)
    (consume_failed_empty_ c) (publish_failed_invalid_ c) (consume_failed_invalid_ c)
    (wal_bytes_written_ c) (wal_records_written_ c) (wal_flushes_ c) (wal_failures_ c)
    (recovered_records_ c) (recovery_failures_ c).

(** [reset()]: twelve stores of zero. *)
Definition counters_reset (c : BrokerCounters) : BrokerCounters :=
  mkCounters 0 0 0 0 0 0 0 0 0 0 0 0.
