(* ===== verification/Spsc.v ===== *)
(** * The single-producer single-consumer ring buffer, run by one thread

    spsc_ring_buffer.hpp.  The storage is an array of slots whose C++ object
    lifetime is explicit; every access to a slot outside the lifetime of its
    object is undefined behaviour ([None]).  The counters are [std::size_t] and
    wrap at 2^64.  The buffer refines a bounded FIFO ([SpscQueue]), the interface
    the brokers are verified against.  SpscConcurrent.v treats the two-thread
    executions of the same operations. *)

From S2P Require Import Prelude.

(** ** Slots and object lifetime *)

(** A slot is raw storage, holds a live object, or holds an object that has been
    moved from and not yet destroyed. *)
Inductive slot (T : Type) : Type :=
  | Raw
  | Live (v : T)
  | MovedFrom.
Arguments Raw {T}.
Arguments Live {T} v.
Arguments MovedFrom {T}.

Section Lifetime.
Context {T : Type}.
Implicit Types (buf : list (slot T)) (i : nat).

(** [std::construct_at] on raw storage. *)
Definition construct_at buf i (v : T) : option (list (slot T)) :=
  match buf !! i with Some Raw => Some (<[i := Live v]> buf) | _ => None end.

(** [out = std::move( *slot)]. *)
Definition move_out buf i : option (T * list (slot T)) :=
  match buf !! i with Some (Live v) => Some (v, <[i := MovedFrom]> buf) | _ => None end.

(** [std::destroy_at]. *)
Definition destroy_at buf i : option (list (slot T)) :=
  match buf !! i with
  | Some (Live _) | Some MovedFrom => Some (<[i := Raw]> buf)
  | _ => None
  end.
End Lifetime.

(** ** The bounded FIFO the buffer promises *)

Module Fifo.
Section Fifo.
Context {T : Type} (cap : Z).

Definition push (v : T) (l : list T) : bool * list T :=
  if Z.of_nat (length l) <? cap then (true, l ++ [v]) else (false, l).
Definition pop (l : list T) : option T * list T :=
  match l with [] => (None, []) | v :: l' => (Some v, l') end.
End Fifo.
End Fifo.

(** The interface of a bounded queue whose operations may be undefined, with the
    promise that on a represented state they are defined and act as [Fifo]. *)
Class SpscQueue (Q T : Type) (cap : Z) := {
  q_empty_queue : Q;
  q_try_push : T -> Q -> option (bool * Q);
  q_try_pop : Q -> option (option T * Q);
  q_size_approx : Q -> Z;
  q_empty : Q -> bool;
  q_full : Q -> bool;
  q_represents : Q -> list T -> Prop }.

Class SpscQueueLaws (Q T : Type) (cap : Z) `{SpscQueue Q T cap} : Prop := {
  q_law_init : q_represents q_empty_queue [];
  q_law_push q l v : q_represents q l ->
    exists q', q_try_push v q = Some ((Fifo.push cap v l).1, q') /\
               q_represents q' (Fifo.push cap v l).2;
  q_law_pop q l : q_represents q l ->
    exists q', q_try_pop q = Some ((Fifo.pop l).1, q') /\ q_represents q' (Fifo.pop l).2;
  q_law_size q l : q_represents q l -> q_size_approx q = Z.of_nat (length l);
  q_law_empty q l : q_represents q l -> q_empty q = bool_decide (length l = 0%nat);
  q_law_full q l : q_represents q l -> q_full q = bool_decide (Z.of_nat (length l) = cap);
  q_law_bound q l : q_represents q l -> Z.of_nat (length l) <= cap }.

(** ** Capacity: the two static assertions *)

Class CapacityOk (Capacity : Z) : Prop := {
  capacity_pow2 : Z.land Capacity (Capacity ⊟ 1) = 0;
  capacity_ge2 : 2 <= Capacity;
  capacity_width : in_width 64 Capacity }.

#[export] Instance CapacityOk_2 : CapacityOk 2.
Proof. by split; vm_compute. Qed.
#[export] Instance CapacityOk_64 : CapacityOk 64.
Proof. by split; vm_compute. Qed.
#[export] Instance CapacityOk_256 : CapacityOk 256.
Proof. by split; vm_compute. Qed.
#[export] Instance CapacityOk_1024 : CapacityOk 1024.
Proof. by split; vm_compute. Qed.
#[export] Instance CapacityOk_4096 : CapacityOk 4096.
Proof. by split; vm_compute. Qed.
#[export] Instance CapacityOk_65536 : CapacityOk 65536.
Proof. by split; vm_compute. Qed.

(** ** The ring buffer *)

Record SpscRingBuffer (T : Type) : Type := mkRing {
  buffer_ : list (slot T);
  head_ : Z;
  tail_ : Z }.
Arguments mkRing {T} _ _ _.
Arguments buffer_ {T} _.
Arguments head_ {T} _.
Arguments tail_ {T} _.

(** [mask_ = Capacity - 1] and the slot a logical index selects. *)
Definition mask_ (Capacity : Z) : Z := Capacity ⊟ 1.
Definition slot_index (Capacity index : Z) : nat := Z.to_nat (Z.land index (mask_ Capacity)).

Section Ring.
Context {T : Type} (Capacity : Z).
Implicit Types (q : SpscRingBuffer T).

Definition SpscRingBuffer_init : SpscRingBuffer T :=
  mkRing (replicate (Z.to_nat Capacity) Raw) 0 0.

(** [try_emplace(args...)]; [make] is the constructor of [T] the arguments select. *)
Definition try_emplace {Args} (make : Args -> T) (args : Args) q
    : option (bool * SpscRingBuffer T) :=
  let head := head_ q in
  let tail := tail_ q in
  if head ⊟ tail >=? Capacity then Some (false, q)
  else
    buf ← construct_at (buffer_ q) (slot_index Capacity head) (make args);
    Some (true, mkRing buf (head ⊞ 1) tail).

(** Both [try_push] overloads forward to [try_emplace]. *)
Definition try_push (v : T) q : option (bool * SpscRingBuffer T) := try_emplace id v q.

Definition try_pop q : option (option T * SpscRingBuffer T) :=
  let tail := tail_ q in
  let head := head_ q in
  if tail =? head then Some (None, q)
  else
    '(out, buf) ← move_out (buffer_ q) (slot_index Capacity tail);
    buf ← destroy_at buf (slot_index Capacity tail);
    Some (Some out, mkRing buf head (tail ⊞ 1)).

Definition ring_empty q : bool := head_ q =? tail_ q.
Definition size_approx q : Z := head_ q ⊟ tail_ q.
Definition ring_full q : bool := size_approx q >=? Capacity.

(** [destroy_remaining()], the destructor's loop: the final storage. *)
Fixpoint destroy_loop (fuel : nat) (tail head : Z) (buf : list (slot T))
    : outcome (list (slot T)) :=
  if tail =? head then Done buf
  else match fuel with
  | O => OutOfFuel
  | S fuel =>
      match destroy_at buf (slot_index Capacity tail) with
      | None => Undefined
      | Some buf => destroy_loop fuel (tail ⊞ 1) head buf
      end
  end.
Definition destroy_remaining (fuel : nat) q : outcome (list (slot T)) :=
  destroy_loop fuel (tail_ q) (head_ q) (buffer_ q).
(** [~SpscRingBuffer()]. *)
Definition ring_destroy (fuel : nat) q : outcome (list (slot T)) := destroy_remaining fuel q.
Definition ring_capacity : Z := Capacity.

(** ** Representation *)

(** What the slot at distance [i] from the tail holds when the queue is [l]. *)
Definition expected_slot (l : list T) (i : nat) : slot T :=
  match l !! i with Some v => Live v | None => Raw end.

Record represents q (l : list T) : Prop := {
  rep_len : Z.of_nat (length (buffer_ q)) = Capacity;
  rep_tail : in_width 64 (tail_ q);
  rep_head : head_ q = tail_ q ⊞ Z.of_nat (length l);
  rep_cap : Z.of_nat (length l) <= Capacity;
  rep_slots : forall i, Z.of_nat i < Capacity ->
    buffer_ q !! slot_index Capacity (tail_ q + Z.of_nat i) = Some (expected_slot l i) }.
End Ring.

Section RingProofs.
Context {T : Type} {Capacity : Z} {CAP : CapacityOk Capacity}.
Implicit Types (q : SpscRingBuffer T) (l : list T).
Abbreviation slotix := (slot_index Capacity).

Lemma capacity_pos : 0 < Capacity.
Proof. destruct CAP. lia. Qed.

Lemma mask_pred : mask_ Capacity = Capacity - 1.
Proof. unfold mask_. apply wrap_id. destruct CAP as [_ ? []]. split; lia. Qed.

Lemma slot_index_mod x : slotix x = Z.to_nat (x mod Capacity).
Proof.
  unfold slot_index. rewrite mask_pred, land_mask_mod; [done|apply capacity_pos|].
  rewrite <- mask_pred. apply CAP.
Qed.

(** The number of slots divides the range of the counters, so wrapping a
    counter does not change the slot it selects. *)
Lemma capacity_divides : (Capacity | 2 ^ 64).
Proof.
  pose proof capacity_pos as Hp. destruct CAP as [Hl _ [_ Hw]].
  change (Capacity ⊟ 1) with (mask_ Capacity) in Hl. rewrite mask_pred in Hl.
  rewrite (land_pred_pow2 _ Hp Hl). pose proof (Z.log2_nonneg Capacity).
  assert (Z.log2 Capacity < 64) by (by apply Z.log2_lt_pow2).
  exists (2 ^ (64 - Z.log2 Capacity)). rewrite <- Z.pow_add_r by lia. f_equal. lia.
Qed.

Lemma slot_index_wrap x y : slotix (wrap 64 x + y) = slotix (x + y).
Proof.
  rewrite !slot_index_mod. f_equal. unfold wrap.
  rewrite <- (Zplus_mod_idemp_l (x mod _)), <- (Zplus_mod_idemp_l x). do 2 f_equal.
  apply Z.mod_mod_divide, capacity_divides.
Qed.

Lemma slot_index_wrap0 x : slotix (wrap 64 x) = slotix x.
Proof. pose proof (slot_index_wrap x 0) as H. by rewrite !Z.add_0_r in H. Qed.

Lemma slot_index_turn x : slotix (x + Capacity) = slotix x.
Proof.
  rewrite !slot_index_mod. f_equal.
  rewrite <- (Z.mul_1_l Capacity) at 1. apply Z.mod_add. pose proof capacity_pos; lia.
Qed.

Lemma slot_index_inj t i j :
  0 <= i < Capacity -> 0 <= j < Capacity -> slotix (t + i) = slotix (t + j) -> i = j.
Proof.
  intros Hi Hj. rewrite !slot_index_mod. pose proof capacity_pos.
  pose proof (Z.mod_pos_bound (t + i) Capacity). pose proof (Z.mod_pos_bound (t + j) Capacity).
  intros E. apply (mod_offset_inj Capacity t); lia.
Qed.

Lemma slot_index_bound x : Z.of_nat (slotix x) < Capacity.
Proof.
  rewrite slot_index_mod. pose proof capacity_pos.
  pose proof (Z.mod_pos_bound x Capacity). lia.
Qed.

(** Closes a goal that a selected slot is inside the storage. *)
Ltac slot_bound :=
  match goal with |- context [slot_index ?c ?x] => pose proof (slot_index_bound x); lia end.

(** ** Representation lemmas *)

Lemma represents_init : represents Capacity (SpscRingBuffer_init Capacity) ([] : list T).
Proof.
  pose proof capacity_pos. split; simpl; [|done|done|lia|].
  - rewrite length_replicate. lia.
  - intros i Hi. apply lookup_replicate. split; [done|]. slot_bound.
Qed.

Lemma rep_distance q l :
  represents Capacity q l -> head_ q ⊟ tail_ q = Z.of_nat (length l).
Proof.
  intros [? Ht -> ? ?]. rewrite wrap_wrap_sub_l.
  replace (tail_ q + Z.of_nat (length l) - tail_ q) with (Z.of_nat (length l)) by lia.
  apply wrap_id. destruct CAP as [_ _ [_ ?]]. split; lia.
Qed.

Lemma rep_head_eq_tail q l :
  represents Capacity q l -> (tail_ q =? head_ q) = bool_decide (length l = 0%nat).
Proof.
  intros R. pose proof (rep_distance q l R) as D. pose proof R as [? Ht Hh ? ?].
  destruct (Z.eqb_spec (tail_ q) (head_ q)) as [E|E].
  - rewrite E, Z.sub_diag in D. case_bool_decide; [done|].
    change (wrap 64 0) with 0 in D. lia.
  - case_bool_decide as Hl; [|done]. destruct E. rewrite Hh, Hl. symmetry.
    rewrite Z.add_0_r. by apply wrap_id.
Qed.

(** The slots the head and the tail select. *)
Lemma rep_head_slot q l :
  represents Capacity q l -> Z.of_nat (length l) < Capacity ->
  buffer_ q !! slotix (head_ q) = Some Raw.
Proof.
  intros R Hlt. rewrite (rep_head _ _ _ R), slot_index_wrap0.
  rewrite (rep_slots _ _ _ R) by done. unfold expected_slot.
  by rewrite (proj2 (lookup_ge_None l (length l))).
Qed.

Lemma rep_tail_slot q v l :
  represents Capacity q (v :: l) -> buffer_ q !! slotix (tail_ q) = Some (Live v).
Proof.
  intros R. pose proof (rep_slots _ _ _ R 0) as H. rewrite Z.add_0_r in H.
  apply H. apply capacity_pos.
Qed.

Lemma represents_push q l v :
  represents Capacity q l -> Z.of_nat (length l) < Capacity ->
  represents Capacity
    (mkRing (<[slotix (head_ q) := Live v]> (buffer_ q)) (head_ q ⊞ 1) (tail_ q)) (l ++ [v]).
Proof.
  intros R Hlt. pose proof R as [Hlen Ht Hh Hc Hs]. split; simpl.
  - by rewrite length_insert.
  - done.
  - rewrite length_app, Hh, wrap_wrap_add_l. f_equal. simpl. lia.
  - rewrite length_app. simpl. lia.
  - intros i Hi. rewrite Hh, slot_index_wrap0. destruct (decide (i = length l)) as [->|Hne].
    + rewrite list_lookup_insert_eq; [|slot_bound].
      unfold expected_slot. by rewrite list_lookup_middle.
    + rewrite list_lookup_insert_ne.
      2: { intros E%slot_index_inj; lia. }
      rewrite Hs by done. unfold expected_slot. f_equal.
      destruct (decide (i < length l)%nat).
      * by rewrite lookup_app_l.
      * rewrite !(proj2 (lookup_ge_None _ i)); [done| |lia]. rewrite length_app. simpl. lia.
Qed.

Lemma represents_pop q v l :
  represents Capacity q (v :: l) ->
  represents Capacity
    (mkRing (<[slotix (tail_ q) := Raw]> (buffer_ q)) (head_ q) (tail_ q ⊞ 1)) l.
Proof.
  intros R. pose proof R as [Hlen Ht Hh Hc Hs]. simpl in Hc. split; simpl.
  - by rewrite length_insert.
  - by apply wrap_width.
  - rewrite Hh, wrap_wrap_add_l. f_equal. simpl. lia.
  - lia.
  - intros i Hi. rewrite slot_index_wrap.
    destruct (decide (Z.of_nat i = Capacity - 1)) as [E|Hne].
    + replace (tail_ q + 1 + Z.of_nat i) with (tail_ q + Capacity) by lia.
      rewrite slot_index_turn, list_lookup_insert_eq.
      2: slot_bound.
      unfold expected_slot. rewrite (proj2 (lookup_ge_None _ i)); [done|lia].
    + replace (tail_ q + 1 + Z.of_nat i) with (tail_ q + Z.of_nat (S i)) by lia.
      rewrite list_lookup_insert_ne.
      2: { rewrite <- (Z.add_0_r (tail_ q)) at 1. intros E%slot_index_inj; lia. }
      rewrite Hs by lia. done.
Qed.

(** ** The operations on a represented queue *)

Lemma try_emplace_spec {Args} (make : Args -> T) args q l :
  represents Capacity q l ->
  exists q', try_emplace Capacity make args q = Some ((Fifo.push Capacity (make args) l).1, q') /\
             represents Capacity q' (Fifo.push Capacity (make args) l).2.
Proof.
  intros R. unfold try_emplace, Fifo.push. rewrite (rep_distance _ _ R), Z.geb_leb.
  pose proof (rep_cap _ _ _ R). destruct (Z.leb_spec Capacity (Z.of_nat (length l))) as [Hge|Hlt].
  - destruct (Z.ltb_spec (Z.of_nat (length l)) Capacity); [lia|]. eauto.
  - destruct (Z.ltb_spec (Z.of_nat (length l)) Capacity); [|lia].
    unfold construct_at. rewrite (rep_head_slot _ _ R Hlt). simpl.
    eexists. split; [done|]. by apply represents_push.
Qed.

Lemma try_pop_spec q l :
  represents Capacity q l ->
  exists q', try_pop Capacity q = Some ((Fifo.pop l).1, q') /\
             represents Capacity q' (Fifo.pop l).2.
Proof.
  intros R. unfold try_pop. rewrite (rep_head_eq_tail _ _ R).
  destruct l as [|v l]; simpl; [eauto|].
  unfold move_out. rewrite (rep_tail_slot _ _ _ R). simpl. unfold destroy_at.
  pose proof (rep_len _ _ _ R). rewrite list_lookup_insert_eq by slot_bound. simpl.
  rewrite list_insert_insert_eq. eexists. split; [done|]. by eapply represents_pop.
Qed.

Lemma size_approx_spec q l :
  represents Capacity q l -> size_approx q = Z.of_nat (length l).
Proof. apply rep_distance. Qed.

Lemma ring_empty_spec q l :
  represents Capacity q l -> ring_empty q = bool_decide (length l = 0%nat).
Proof. intros R. unfold ring_empty. rewrite Z.eqb_sym. by apply rep_head_eq_tail. Qed.

Lemma ring_full_spec q l :
  represents Capacity q l -> ring_full Capacity q = bool_decide (Z.of_nat (length l) = Capacity).
Proof.
  intros R. unfold ring_full. rewrite (size_approx_spec _ _ R), Z.geb_leb.
  pose proof (rep_cap _ _ _ R). case_bool_decide; lia.
Qed.
End RingProofs.

(** The ring buffer implements the interface. *)
#[export] Instance SpscRingBuffer_queue (T : Type) (Capacity : Z) :
  SpscQueue (SpscRingBuffer T) T Capacity := {|
  q_empty_queue := SpscRingBuffer_init Capacity;
  q_try_push := try_push Capacity;
  q_try_pop := try_pop Capacity;
  q_size_approx := size_approx;
  q_empty := ring_empty;
  q_full := ring_full Capacity;
  q_represents := represents Capacity |}.

#[export] Instance SpscRingBuffer_laws (T : Type) (Capacity : Z) `{!CapacityOk Capacity} :
  SpscQueueLaws (SpscRingBuffer T) T Capacity.
Proof.
  split; simpl; intros.
  - apply represents_init.
  - unfold try_push. by apply (try_emplace_spec id).
  - by apply try_pop_spec.
  - by apply size_approx_spec.
  - by apply ring_empty_spec.
  - by apply ring_full_spec.
  - by eapply rep_cap.
Qed.

(** ** Refinement: sequences of calls *)

Inductive queue_call (T : Type) : Type := CallPush (v : T) | CallPop | CallSize | CallEmpty | CallFull.
Arguments CallPush {T} v. Arguments CallPop {T}. Arguments CallSize {T}.
Arguments CallEmpty {T}. Arguments CallFull {T}.
Inductive queue_reply (T : Type) : Type :=
  ReplyBool (b : bool) | ReplyValue (o : option T) | ReplySize (n : Z).
Arguments ReplyBool {T} b. Arguments ReplyValue {T} o. Arguments ReplySize {T} n.

Section Calls.
Context {Q T : Type} {cap : Z} `{SpscQueue Q T cap}.

(** One call on the implementation: undefined, or a reply and a new state. *)
Definition do_call (c : queue_call T) (q : Q) : option (queue_reply T * Q) :=
  match c with
  | CallPush v => '(b, q') ← q_try_push v q; Some (ReplyBool b, q')
  | CallPop => '(o, q') ← q_try_pop q; Some (ReplyValue o, q')
  | CallSize => Some (ReplySize (q_size_approx q), q)
  | CallEmpty => Some (ReplyBool (q_empty q), q)
  | CallFull => Some (ReplyBool (q_full q), q)
  end.

Fixpoint do_calls (cs : list (queue_call T)) (q : Q) : option (list (queue_reply T) * Q) :=
  match cs with
  | [] => Some ([], q)
  | c :: cs => '(r, q') ← do_call c q; '(rs, q'') ← do_calls cs q'; Some (r :: rs, q'')
  end.
End Calls.

(** The same calls on the specification. *)
Definition spec_call {T} (cap : Z) (c : queue_call T) (l : list T) : queue_reply T * list T :=
  match c with
  | CallPush v => (ReplyBool (Fifo.push cap v l).1, (Fifo.push cap v l).2)
  | CallPop => (ReplyValue (Fifo.pop l).1, (Fifo.pop l).2)
  | CallSize => (ReplySize (Z.of_nat (length l)), l)
  | CallEmpty => (ReplyBool (bool_decide (length l = 0%nat)), l)
  | CallFull => (ReplyBool (bool_decide (Z.of_nat (length l) = cap)), l)
  end.

Fixpoint spec_calls {T} (cap : Z) (cs : list (queue_call T)) (l : list T)
    : list (queue_reply T) * list T :=
  match cs with
  | [] => ([], l)
  | c :: cs =>
      let '(r, l') := spec_call cap c l in
      let '(rs, l'') := spec_calls cap cs l' in (r :: rs, l'')
  end.

Section Refinement.
Context {Q T : Type} {cap : Z} `{SpscQueueLaws Q T cap}.

Lemma do_call_refines c q l :
  q_represents q l ->
  exists q', do_call c q = Some ((spec_call cap c l).1, q') /\
             q_represents q' (spec_call cap c l).2.
Proof.
  intros R. destruct c as [v| | | |]; simpl.
  - destruct (q_law_push q l v R) as (q' & -> & R'). eexists; split; [done|exact R'].
  - destruct (q_law_pop q l R) as (q' & -> & R'). eexists; split; [done|exact R'].
  - exists q. by rewrite (q_law_size q l R).
  - exists q. by rewrite (q_law_empty q l R).
  - exists q. by rewrite (q_law_full q l R).
Qed.

Lemma do_calls_refines cs : forall q l,
  q_represents q l ->
  exists q', do_calls cs q = Some ((spec_calls cap cs l).1, q') /\
             q_represents q' (spec_calls cap cs l).2.
Proof.
  induction cs as [|c cs IH]; intros q l R; simpl; [eauto|].
  destruct (do_call_refines c q l R) as (q1 & -> & R1). simpl.
  destruct (spec_call cap c l) as [r l1]. simpl in R1.
  destruct (IH q1 l1 R1) as (q2 & -> & R2). simpl.
  destruct (spec_calls cap cs l1) as [rs l2]. eauto.
Qed.
End Refinement.

(** ** Destruction *)

Section Destruction.
Context {T : Type} {Capacity : Z} {CAP : CapacityOk Capacity}.

Lemma slot_index_surj t (j : nat) :
  Z.of_nat j < Capacity ->
  exists i, Z.of_nat i < Capacity /\ slot_index Capacity (t + Z.of_nat i) = j.
Proof.
  intros Hj. pose proof (capacity_pos (Capacity:=Capacity)) as Hp.
  pose proof (Z.mod_pos_bound (Z.of_nat j - t) Capacity Hp).
  exists (Z.to_nat ((Z.of_nat j - t) mod Capacity)). split; [lia|].
  rewrite slot_index_mod, Z2Nat.id, Zplus_mod_idemp_r by lia.
  replace (t + (Z.of_nat j - t)) with (Z.of_nat j) by lia.
  rewrite Z.mod_small by lia. lia.
Qed.

Lemma represents_nil_raw (q : SpscRingBuffer T) :
  represents Capacity q [] -> buffer_ q = replicate (Z.to_nat Capacity) Raw.
Proof.
  intros R. pose proof (rep_len _ _ _ R) as Hlen. apply list_eq. intros j.
  destruct (decide (Z.of_nat j < Capacity)) as [Hj|Hj].
  - rewrite (proj2 (lookup_replicate (Z.to_nat Capacity) Raw Raw j)) by (split; [done|lia]).
    destruct (slot_index_surj (tail_ q) j Hj) as (i & Hi & <-).
    by rewrite (rep_slots _ _ _ R i Hi).
  - rewrite !(proj2 (lookup_ge_None _ j)); [done| |]; rewrite ?length_replicate; lia.
Qed.

Lemma destroy_remaining_raw l : forall (q : SpscRingBuffer T) fuel,
  represents Capacity q l -> (length l <= fuel)%nat ->
  destroy_remaining Capacity fuel q = Done (replicate (Z.to_nat Capacity) Raw).
Proof.
  unfold destroy_remaining. induction l as [|v l IH]; intros q fuel R Hf.
  - pose proof (rep_head_eq_tail _ _ R) as E.
    rewrite <- (represents_nil_raw q R). destruct fuel; simpl; by rewrite E.
  - destruct fuel as [|fuel]; simpl in Hf; [lia|]. simpl.
    rewrite (rep_head_eq_tail _ _ R). simpl. unfold destroy_at.
    rewrite (rep_tail_slot _ _ _ R).
    apply (IH (mkRing _ (head_ q) _) fuel); [|lia]. by eapply represents_pop.
Qed.
End Destruction.

(** ** Properties *)

(** C1. Refinement of a bounded FIFO.  From any state that represents a queue
    content, whatever the position of the 64-bit counters (their wrap-around
    included), every sequence of [try_push], [try_pop], [size_approx], [empty]
    and [full] calls is free of undefined behaviour, replies exactly what a FIFO
    of [Capacity] elements replies, and ends in a state that represents the
    content of that FIFO. *)
Theorem spsc_refines_fifo (T : Type) (Capacity : Z) (CAP : CapacityOk Capacity)
    (q : SpscRingBuffer T) (l : list T) (cs : list (queue_call T)) :
  represents Capacity q l ->
  exists q', do_calls (cap:=Capacity) cs q = Some ((spec_calls Capacity cs l).1, q') /\
             represents Capacity q' (spec_calls Capacity cs l).2.
Proof. exact (do_calls_refines (Q:=SpscRingBuffer T) (cap:=Capacity) cs q l). Qed.

(** A queue of capacity 2 whose counters are about to wrap. *)
Definition ring_at_wrap : SpscRingBuffer nat := mkRing [Raw; Raw] u64_max u64_max.

Lemma ring_at_wrap_represents : represents 2 ring_at_wrap [].
Proof.
  split; [done|by vm_compute|done|done|]. intros i Hi.
  destruct i as [|[|i]]; [done|done|lia].
Qed.

Lemma spsc_refines_fifo_witness :
  represents 2 ring_at_wrap [] /\
  exists q', do_calls (cap:=2)
    [CallPush 7; CallPush 8; CallPush 9; CallFull; CallPop; CallPop; CallPop]%nat ring_at_wrap
    = Some ([ReplyBool true; ReplyBool true; ReplyBool false; ReplyBool true;
             ReplyValue (Some 7); ReplyValue (Some 8); ReplyValue None]%nat, q') /\
    represents 2 q' [].
Proof.
  split; [exact ring_at_wrap_represents|].
  exact (spsc_refines_fifo nat 2 CapacityOk_2 ring_at_wrap []
    [CallPush 7; CallPush 8; CallPush 9; CallFull; CallPop; CallPop; CallPop]%nat
    ring_at_wrap_represents).
Defined.

(** C2. The destructor ends every lifetime.  With at least as much fuel as there
    are queued elements, the loop of [destroy_remaining] terminates without
    undefined behaviour and leaves all slots raw: every queued object is
    destroyed exactly once, and no slot that holds none is touched. *)
Theorem spsc_destroy_remaining_total (T : Type) (Capacity : Z) (CAP : CapacityOk Capacity)
    (q : SpscRingBuffer T) (l : list T) (fuel : nat) :
  represents Capacity q l -> (length l <= fuel)%nat ->
  destroy_remaining Capacity fuel q = Done (replicate (Z.to_nat Capacity) Raw).
Proof. apply destroy_remaining_raw. Qed.

(** A full queue across the wrap-around: 7 is oldest, 8 is newest. *)
Definition ring_across_wrap : SpscRingBuffer nat :=
  mkRing [Live 8; Live 7]%nat 1 u64_max.

Lemma ring_across_wrap_represents : represents 2 ring_across_wrap [7; 8]%nat.
Proof.
  split; [done|by vm_compute|done|done|]. intros i Hi.
  destruct i as [|[|i]]; [done|done|lia].
Qed.

Lemma spsc_destroy_remaining_total_witness :
  represents 2 ring_across_wrap [7; 8]%nat /\
  destroy_remaining 2 2 ring_across_wrap = Done [Raw; Raw].
Proof.
  split; [exact ring_across_wrap_represents|].
  exact (spsc_destroy_remaining_total nat 2 CapacityOk_2 ring_across_wrap [7; 8]%nat 2
    ring_across_wrap_represents (le_n 2)).
Defined.
