(* ===== verification/SpscConcurrent.v ===== *)
(** * The ring buffer under one producer and one consumer

    The two-thread executions of [try_emplace] and [try_pop]
    (spsc_ring_buffer.hpp) on a release/acquire memory.  An atomic location keeps
    the whole history of its stores; a load may return any store that coherence
    allows, however stale; an acquire load of a release store makes everything
    that happened before the store happen before what follows the load.  Slots are
    ordinary memory: an access that is not ordered by happens-before after every
    earlier access of the other thread is a data race, hence undefined
    behaviour.  Each C++ statement that touches shared memory is one step, and
    the scheduler and the staleness of loads are unconstrained. *)

From S2P Require Import Prelude Spsc.

(** ** Release/acquire memory *)

Inductive memory_order : Set := relaxed | acquire | release.
Inductive thread : Set := Producer | Consumer.
Inductive atomic_loc : Set := Head | Tail.

(** What a thread knows: for each atomic location the index of the latest store
    it must observe, and for each thread the number of its slot accesses that
    happen before the present. *)
Record view : Set := mkView { v_head : nat; v_tail : nat; v_prod : nat; v_cons : nat }.

Definition view_bot : view := mkView 0 0 0 0.
Definition view_join (a b : view) : view :=
  mkView (v_head a `max` v_head b) (v_tail a `max` v_tail b)
         (v_prod a `max` v_prod b) (v_cons a `max` v_cons b).

Definition stamp (x : atomic_loc) (V : view) : nat :=
  match x with Head => v_head V | Tail => v_tail V end.
Definition set_stamp (x : atomic_loc) (k : nat) (V : view) : view :=
  match x with
  | Head => mkView k (v_tail V) (v_prod V) (v_cons V)
  | Tail => mkView (v_head V) k (v_prod V) (v_cons V)
  end.
Definition epoch (t : thread) (V : view) : nat :=
  match t with Producer => v_prod V | Consumer => v_cons V end.
Definition tick (t : thread) (V : view) : view :=
  match t with
  | Producer => mkView (v_head V) (v_tail V) (S (v_prod V)) (v_cons V)
  | Consumer => mkView (v_head V) (v_tail V) (v_prod V) (S (v_cons V))
  end.
Definition other (t : thread) : thread :=
  match t with Producer => Consumer | Consumer => Producer end.

(** A store in the history of an atomic: its value and the view it releases. *)
Record store_event : Set := mkStore { st_val : Z; st_view : view }.

(** Load of the [k]-th store of [x]; [None] when coherence forbids it. *)
Definition load (o : memory_order) (x : atomic_loc) (k : nat) (hist : list store_event)
    (V : view) : option (Z * view) :=
  if (k <? stamp x V)%nat then None
  else
    m ← hist !! k;
    Some (st_val m,
          view_join (set_stamp x k V)
            (match o with acquire => st_view m | _ => view_bot end)).

(** A store becomes the latest of its location: each location has one writer. *)
Definition store (o : memory_order) (x : atomic_loc) (z : Z) (hist : list store_event)
    (V : view) : list store_event * view :=
  let V' := set_stamp x (length hist) V in
  (hist ++ [mkStore z (match o with
                       | release => V'
                       | _ => set_stamp x (length hist) view_bot
                       end)], V').

(** A slot with, per thread, the epoch of its last access. *)
Record cell (T : Type) : Type := mkCell { c_slot : slot T; c_prod : nat; c_cons : nat }.
Arguments mkCell {T} _ _ _.
Arguments c_slot {T} _.
Arguments c_prod {T} _.
Arguments c_cons {T} _.

Definition cell_epoch {T} (t : thread) (c : cell T) : nat :=
  match t with Producer => c_prod c | Consumer => c_cons c end.
Definition cell_touch {T} (t : thread) (s : slot T) (e : nat) (c : cell T) : cell T :=
  match t with
  | Producer => mkCell s e (c_cons c)
  | Consumer => mkCell s (c_prod c) e
  end.

(** Non-atomic access of thread [t] to slot [j]: [None] is a data race or an
    access outside the lifetime of the object. *)
Definition access {T A} (t : thread) (j : nat) (op : slot T -> option (A * slot T))
    (cells : list (cell T)) (V : view) : option (A * list (cell T) * view) :=
  c ← cells !! j;
  if (epoch (other t) V <? cell_epoch (other t) c)%nat then None
  else
    '(a, s) ← op (c_slot c);
    let V' := tick t V in
    Some (a, <[j := cell_touch t s (epoch t V') c]> cells, V').

Definition slot_construct {T} (v : T) (s : slot T) : option (unit * slot T) :=
  match s with Raw => Some (tt, Live v) | _ => None end.
Definition slot_move {T} (s : slot T) : option (T * slot T) :=
  match s with Live v => Some (v, MovedFrom) | _ => None end.
Definition slot_destroy {T} (s : slot T) : option (unit * slot T) :=
  match s with Live _ | MovedFrom => Some (tt, Raw) | Raw => None end.

(** ** The two threads *)

Section Machine.
Context {T : Type} (Capacity : Z).

(** Program points of [try_emplace], named after the statement to run next. *)
Inductive producer_pc : Type :=
  | PIdle
  | PLoadHead (v : T)
  | PLoadTail (v : T) (head : Z)
  | PTest (v : T) (head tail : Z)
  | PConstruct (v : T) (head : Z)
  | PStoreHead (v : T) (head : Z).

(** Program points of [try_pop]. *)
Inductive consumer_pc : Type :=
  | CIdle
  | CLoadTail
  | CLoadHead (tail : Z)
  | CTest (tail head : Z)
  | CMove (tail : Z)
  | CDestroy (tail : Z) (out : T)
  | CStoreTail (tail : Z) (out : T).

Record state : Type := mkState {
  hist_head : list store_event;
  hist_tail : list store_event;
  cells : list (cell T);
  p_pc : producer_pc;
  p_view : view;
  c_pc : consumer_pc;
  c_view : view }.

Definition state_init : state :=
  mkState [mkStore 0 view_bot] [mkStore 0 view_bot]
    (replicate (Z.to_nat Capacity) (mkCell Raw 0 0)) PIdle view_bot CIdle view_bot.

(** What a call returns. *)
Inductive event : Type :=
  | Pushed (v : T)
  | PushFull (v : T)
  | Popped (v : T)
  | PopEmpty.

Inductive step_result : Type :=
  | Step (e : option event) (s : state)
  | Undefined_behaviour
  | Unreadable.

Definition set_producer (pc : producer_pc) (V : view) (s : state) : state :=
  mkState (hist_head s) (hist_tail s) (cells s) pc V (c_pc s) (c_view s).
Definition set_consumer (pc : consumer_pc) (V : view) (s : state) : state :=
  mkState (hist_head s) (hist_tail s) (cells s) (p_pc s) (p_view s) pc V.
Definition set_cells (cs : list (cell T)) (s : state) : state :=
  mkState (hist_head s) (hist_tail s) cs (p_pc s) (p_view s) (c_pc s) (c_view s).
Definition set_hist_head (h : list store_event) (s : state) : state :=
  mkState h (hist_tail s) (cells s) (p_pc s) (p_view s) (c_pc s) (c_view s).
Definition set_hist_tail (h : list store_event) (s : state) : state :=
  mkState (hist_head s) h (cells s) (p_pc s) (p_view s) (c_pc s) (c_view s).

(** One step of the producer inside [try_emplace]: [k] resolves which store a
    load observes, [arg] is the argument of the next call. *)
Definition producer_step (k : nat) (arg : T) (s : state) : step_result :=
  match p_pc s with
  | PIdle => Step None (set_producer (PLoadHead arg) (p_view s) s)
  | PLoadHead v =>
      match load relaxed Head k (hist_head s) (p_view s) with
      | Some (head, V) => Step None (set_producer (PLoadTail v head) V s)
      | None => Unreadable
      end
  | PLoadTail v head =>
      match load acquire Tail k (hist_tail s) (p_view s) with
      | Some (tail, V) => Step None (set_producer (PTest v head tail) V s)
      | None => Unreadable
      end
  | PTest v head tail =>
      if head ⊟ tail >=? Capacity
      then Step (Some (PushFull v)) (set_producer PIdle (p_view s) s)
      else Step None (set_producer (PConstruct v head) (p_view s) s)
  | PConstruct v head =>
      match access Producer (slot_index Capacity head) (slot_construct v) (cells s) (p_view s) with
      | Some (_, cs, V) => Step None (set_producer (PStoreHead v head) V (set_cells cs s))
      | None => Undefined_behaviour
      end
  | PStoreHead v head =>
      let '(h, V) := store release Head (head ⊞ 1) (hist_head s) (p_view s) in
      Step (Some (Pushed v)) (set_producer PIdle V (set_hist_head h s))
  end.

(** One step of the consumer inside [try_pop]. *)
Definition consumer_step (k : nat) (s : state) : step_result :=
  match c_pc s with
  | CIdle => Step None (set_consumer CLoadTail (c_view s) s)
  | CLoadTail =>
      match load relaxed Tail k (hist_tail s) (c_view s) with
      | Some (tail, V) => Step None (set_consumer (CLoadHead tail) V s)
      | None => Unreadable
      end
  | CLoadHead tail =>
      match load acquire Head k (hist_head s) (c_view s) with
      | Some (head, V) => Step None (set_consumer (CTest tail head) V s)
      | None => Unreadable
      end
  | CTest tail head =>
      if tail =? head
      then Step (Some PopEmpty) (set_consumer CIdle (c_view s) s)
      else Step None (set_consumer (CMove tail) (c_view s) s)
  | CMove tail =>
      match access Consumer (slot_index Capacity tail) slot_move (cells s) (c_view s) with
      | Some (out, cs, V) => Step None (set_consumer (CDestroy tail out) V (set_cells cs s))
      | None => Undefined_behaviour
      end
  | CDestroy tail out =>
      match access Consumer (slot_index Capacity tail) slot_destroy (cells s) (c_view s) with
      | Some (_, cs, V) => Step None (set_consumer (CStoreTail tail out) V (set_cells cs s))
      | None => Undefined_behaviour
      end
  | CStoreTail tail out =>
      let '(h, V) := store release Tail (tail ⊞ 1) (hist_tail s) (c_view s) in
      Step (Some (Popped out)) (set_consumer CIdle V (set_hist_tail h s))
  end.

(** The scheduler: which thread moves, with its choices. *)
Inductive move : Type := MoveP (k : nat) (arg : T) | MoveC (k : nat).
Definition do_move (m : move) (s : state) : step_result :=
  match m with MoveP k arg => producer_step k arg s | MoveC k => consumer_step k s end.

(** Finite executions with the calls that returned, oldest first. *)
Inductive exec : list event -> state -> Prop :=
  | exec_init : exec [] state_init
  | exec_step tr s m e s' :
      exec tr s -> do_move m s = Step e s' ->
      exec (tr ++ match e with Some e => [e] | None => [] end) s'.

(** ** The specification: a bounded FIFO *)

(** What calls do to the content.  A call that fails leaves it alone; when a call may fail
    is said by [queue_step]. *)
Inductive fifo_step : list T -> event -> list T -> Prop :=
  | fifo_pushed l v : Z.of_nat (length l) < Capacity -> fifo_step l (Pushed v) (l ++ [v])
  | fifo_popped v l : fifo_step (v :: l) (Popped v) l
  | fifo_full l v : fifo_step l (PushFull v) l
  | fifo_empty l : fifo_step l PopEmpty l.

Inductive fifo_run : list T -> list event -> list T -> Prop :=
  | fifo_run_nil l : fifo_run l [] l
  | fifo_run_snoc l tr l1 e l2 : fifo_run l tr l1 -> fifo_step l1 e l2 -> fifo_run l (tr ++ [e]) l2.

(** The FIFO and what its two clients know about it: all values ever pushed, the
    number of them that are popped, the number of pops that the producer knows of and the number of
    pushes that the consumer knows of. *)
Record queue : Type := mkQueue {
  qu_pushed : list T;
  qu_popped : nat;
  qu_pops_known : nat;
  qu_pushes_known : nat }.
Definition queue_init : queue := mkQueue [] 0 0 0.
Definition qu_content (q : queue) : list T := drop (qu_popped q) (qu_pushed q).

(** In each call a client learns that [k] pops (or pushes) have happened: at least as many
    as it knew of, and no more than there were.  A push succeeds exactly when the values pushed
    and not known to be popped leave room, and fails when they are [Capacity] many; a pop
    takes the oldest value when a push beyond the last pop is known, and fails when
    as many pushes as pops are known.  A client that knows of everything sees the exact FIFO. *)
Inductive queue_step : queue -> event -> queue -> Prop :=
  | queue_pushed l n a b k v :
      (a <= k <= n)%nat -> Z.of_nat (length l) < Z.of_nat k + Capacity ->
      queue_step (mkQueue l n a b) (Pushed v) (mkQueue (l ++ [v]) n k b)
  | queue_full l n a b k v :
      (a <= k <= n)%nat -> Z.of_nat (length l) = Z.of_nat k + Capacity ->
      queue_step (mkQueue l n a b) (PushFull v) (mkQueue l n k b)
  | queue_popped l n a b k v :
      (b <= k <= length l)%nat -> (n < k)%nat -> l !! n = Some v ->
      queue_step (mkQueue l n a b) (Popped v) (mkQueue l (S n) a k)
  | queue_empty l n a b k :
      (b <= k <= length l)%nat -> n = k ->
      queue_step (mkQueue l n a b) PopEmpty (mkQueue l n a k).

Inductive queue_run : list event -> queue -> Prop :=
  | queue_run_nil : queue_run [] queue_init
  | queue_run_snoc tr q e q' : queue_run tr q -> queue_step q e q' -> queue_run (tr ++ [e]) q'.
End Machine.

(** ** The invariant *)

(** [pushed] is the list of all values ever published and [n] the number of
    values consumed, so the queue content is [drop n pushed]. *)
Section Invariant.
Context {T : Type} {Capacity : Z} {CAP : CapacityOk Capacity}.
Implicit Types (s : state (T:=T)) (pushed : list T) (n i k : nat).
Abbreviation C := (Z.to_nat Capacity).

(** A view that knows no more than the published history. *)
Record view_ok (H n : nat) (V : view) : Prop := {
  ok_head : (v_head V <= H)%nat;
  ok_tail : (v_tail V <= n)%nat;
  ok_prod : (v_prod V <= H)%nat;
  ok_cons : (v_cons V <= 2 * n)%nat }.

(** Slot accesses of the operation in progress that are not yet published. *)
Definition p_pending (pc : producer_pc (T:=T)) : nat :=
  match pc with PStoreHead _ _ => 1 | _ => 0 end.
Definition c_pending (pc : consumer_pc (T:=T)) : nat :=
  match pc with CDestroy _ _ => 1 | CStoreTail _ _ => 2 | _ => 0 end.

(** The slot of a queued element, and of a free position. *)
Definition queued_slot (pc : consumer_pc (T:=T)) n i (x : T) : slot T :=
  if decide (i = n)
  then match pc with CDestroy _ _ => MovedFrom | CStoreTail _ _ => Raw | _ => Live x end
  else Live x.
Definition free_slot (pc : producer_pc (T:=T)) (H i : nat) : slot T :=
  if decide (i = H) then match pc with PStoreHead v _ => Live v | _ => Raw end else Raw.

Definition cell_inv (pp : producer_pc) (cp : consumer_pc) pushed n i (c : cell T) : Prop :=
  (c_prod c <= S i)%nat /\ (c_cons c <= 2 * S i)%nat /\
  match pushed !! i with
  | Some x => c_slot c = queued_slot cp n i x
  | None => (c_cons c <= 2 * (S i - C))%nat /\ c_slot c = free_slot pp (length pushed) i
  end.

Definition producer_inv (pc : producer_pc (T:=T)) (V : view) (H : nat) : Prop :=
  match pc with
  | PIdle | PLoadHead _ => True
  | PLoadTail _ h => h = wrap 64 (Z.of_nat H)
  | PTest _ h t => h = wrap 64 (Z.of_nat H) /\ t = wrap 64 (Z.of_nat (v_tail V))
  | PConstruct _ h | PStoreHead _ h => h = wrap 64 (Z.of_nat H) /\ (H < v_tail V + C)%nat
  end.

Definition consumer_inv (pc : consumer_pc (T:=T)) (V : view) pushed n : Prop :=
  match pc with
  | CIdle | CLoadTail => True
  | CLoadHead t => t = wrap 64 (Z.of_nat n)
  | CTest t h => t = wrap 64 (Z.of_nat n) /\ h = wrap 64 (Z.of_nat (v_head V))
  | CMove t => t = wrap 64 (Z.of_nat n) /\ (n < v_head V)%nat
  | CDestroy t out | CStoreTail t out =>
      t = wrap 64 (Z.of_nat n) /\ (n < v_head V)%nat /\ pushed !! n = Some out
  end.

Record inv s pushed n : Prop := {
  inv_hh_len : length (hist_head s) = S (length pushed);
  inv_ht_len : length (hist_tail s) = S n;
  inv_hh k m : hist_head s !! k = Some m ->
    st_val m = wrap 64 (Z.of_nat k) /\ view_ok (length pushed) n (st_view m) /\
    (v_head (st_view m) <= k)%nat /\ (k <= v_prod (st_view m))%nat;
  inv_ht k m : hist_tail s !! k = Some m ->
    st_val m = wrap 64 (Z.of_nat k) /\ view_ok (length pushed) n (st_view m) /\
    (v_tail (st_view m) <= k)%nat /\ (2 * k <= v_cons (st_view m))%nat;
  inv_c_seen : (n <= v_head (c_view s) <= length pushed)%nat;
  inv_p_seen : (v_tail (p_view s) <= n)%nat /\ (length pushed <= v_tail (p_view s) + C)%nat;
  inv_p_view : v_head (p_view s) = length pushed /\
    v_prod (p_view s) = (length pushed + p_pending (p_pc s))%nat /\
    (2 * v_tail (p_view s) <= v_cons (p_view s) <= 2 * n)%nat;
  inv_c_view : v_tail (c_view s) = n /\
    v_cons (c_view s) = (2 * n + c_pending (c_pc s))%nat /\
    (v_head (c_view s) <= v_prod (c_view s) <= length pushed)%nat;
  inv_p_pc : producer_inv (p_pc s) (p_view s) (length pushed);
  inv_c_pc : consumer_inv (c_pc s) (c_view s) pushed n;
  inv_cells_len : length (cells s) = C;
  inv_cells i : (n <= i < n + C)%nat ->
    exists c, cells s !! slot_index Capacity (Z.of_nat i) = Some c /\
              cell_inv (p_pc s) (c_pc s) pushed n i c }.

Lemma C_bounds : (2 <= C)%nat /\ Z.of_nat C = Capacity /\ Z.of_nat C < 2 ^ 64.
Proof. destruct CAP as [_ ? []]. lia. Qed.

(** Distinct positions of the window select distinct slots. *)
Lemma slot_index_window n i j :
  (n <= i < n + C)%nat -> (n <= j < n + C)%nat ->
  slot_index Capacity (Z.of_nat i) = slot_index Capacity (Z.of_nat j) -> i = j.
Proof.
  intros Hi Hj E. pose proof C_bounds as (_ & HC & _).
  assert (E' : Z.of_nat i - Z.of_nat n = Z.of_nat j - Z.of_nat n); [|lia].
  apply (slot_index_inj (Z.of_nat n)); [lia|lia|].
  by replace (Z.of_nat n + (Z.of_nat i - Z.of_nat n)) with (Z.of_nat i) by lia;
     replace (Z.of_nat n + (Z.of_nat j - Z.of_nat n)) with (Z.of_nat j) by lia.
Qed.

Lemma inv_init : inv (state_init Capacity) [] 0.
Proof.
  pose proof C_bounds as (? & ? & ?).
  assert (K : forall k m, [mkStore 0 view_bot] !! k = Some m -> k = 0%nat /\ m = mkStore 0 view_bot).
  { intros [|k] m; simpl; [by intros [= <-]|]. by rewrite lookup_nil. }
  split; simpl; try done; try lia.
  - intros k m [-> ->]%K. repeat split; simpl; lia.
  - intros k m [-> ->]%K. repeat split; simpl; lia.
  - by rewrite length_replicate.
  - intros i Hi. exists (mkCell Raw 0 0). split.
    + apply lookup_replicate. split; [done|].
      pose proof (slot_index_bound (Capacity:=Capacity) (Z.of_nat i)). lia.
    + unfold cell_inv. rewrite lookup_nil. simpl. split_and!; [lia..|].
      unfold free_slot. by case_decide.
Qed.

(** The queue content never exceeds the capacity. *)
Lemma inv_content_bound s pushed n :
  inv s pushed n -> (n <= length pushed)%nat /\ (length (drop n pushed) <= C)%nat.
Proof. intros []. rewrite length_drop. lia. Qed.

(** ** Preservation *)

Lemma load_inv o x k hist V z V' :
  load o x k hist V = Some (z, V') ->
  (stamp x V <= k)%nat /\ exists m, hist !! k = Some m /\ z = st_val m /\
  V' = view_join (set_stamp x k V) (match o with acquire => st_view m | _ => view_bot end).
Proof.
  unfold load. destruct (Nat.ltb_spec k (stamp x V)); [done|].
  destruct (hist !! k) as [m|] eqn:E; simpl; [|done].
  intros [= <- <-]. eauto 6.
Qed.

Lemma view_ok_mono H n H' n' V :
  (H <= H')%nat -> (n <= n')%nat -> view_ok H n V -> view_ok H' n' V.
Proof. intros ? ? []. split; lia. Qed.

(** Steps that change only the program point and view of one thread. *)
Lemma inv_set_producer s pushed n pc V :
  inv s pushed n ->
  v_head V = length pushed ->
  v_prod V = (length pushed + p_pending pc)%nat ->
  (2 * v_tail V <= v_cons V <= 2 * n)%nat ->
  (length pushed <= v_tail V + C)%nat ->
  producer_inv pc V (length pushed) ->
  (forall i, free_slot pc (length pushed) i = free_slot (p_pc s) (length pushed) i) ->
  inv (set_producer pc V s) pushed n.
Proof.
  intros [] ? ? ? ? ? Hf. split; simpl; try done; try lia.
  intros i Hi. destruct (inv_cells0 i Hi) as (c & ? & Hc). exists c. split; [done|].
  unfold cell_inv in *. destruct (pushed !! i); [done|]. by rewrite Hf.
Qed.

Lemma inv_set_consumer s pushed n pc V :
  inv s pushed n ->
  v_tail V = n ->
  v_cons V = (2 * n + c_pending pc)%nat ->
  (n <= v_head V)%nat -> (v_head V <= v_prod V <= length pushed)%nat ->
  consumer_inv pc V pushed n ->
  (forall i x, queued_slot pc n i x = queued_slot (c_pc s) n i x) ->
  inv (set_consumer pc V s) pushed n.
Proof.
  intros [] ? ? ? ? ? Hq. split; simpl; try done; try lia.
  intros i Hi. destruct (inv_cells0 i Hi) as (c & ? & Hc). exists c. split; [done|].
  unfold cell_inv in *. destruct (pushed !! i); [|done]. by rewrite Hq.
Qed.

Lemma producer_load_head_inv s pushed n v k head V :
  inv s pushed n -> p_pc s = PLoadHead v ->
  load relaxed Head k (hist_head s) (p_view s) = Some (head, V) ->
  inv (set_producer (PLoadTail v head) V s) pushed n.
Proof.
  intros I Hpc (Hk & m & Hm & -> & ->)%load_inv. simpl in Hk.
  pose proof I as []. destruct (inv_hh0 k m Hm) as (Hv & ? & ? & ?).
  rewrite Hpc in *. simpl in *. apply lookup_lt_Some in Hm.
  assert (k = length pushed) as -> by lia.
  apply inv_set_producer; simpl; try done; try lia. intros i. by rewrite Hpc.
Qed.

Lemma producer_load_tail_inv s pushed n v head k tail V :
  inv s pushed n -> p_pc s = PLoadTail v head ->
  load acquire Tail k (hist_tail s) (p_view s) = Some (tail, V) ->
  inv (set_producer (PTest v head tail) V s) pushed n.
Proof.
  intros I Hpc (Hk & m & Hm & -> & ->)%load_inv. simpl in Hk.
  pose proof I as []. destruct (inv_ht0 k m Hm) as (Hv & [] & ? & ?).
  rewrite Hpc in *. simpl in *. apply lookup_lt_Some in Hm.
  apply inv_set_producer; simpl; try done; try lia.
  - split; [done|]. rewrite Hv. do 2 f_equal. lia.
  - intros i. by rewrite Hpc.
Qed.

(** The occupancy test sees the exact distance to the tail it has observed. *)
Lemma producer_distance s pushed n v head tail :
  inv s pushed n -> p_pc s = PTest v head tail ->
  head ⊟ tail = Z.of_nat (length pushed) - Z.of_nat (v_tail (p_view s)).
Proof.
  intros [] Hpc. rewrite Hpc in inv_p_pc0. simpl in inv_p_pc0. destruct inv_p_pc0 as [-> ->].
  pose proof C_bounds as (? & ? & ?). apply wrap_distance. split; lia.
Qed.

Lemma producer_test_inv s pushed n v head tail :
  inv s pushed n -> p_pc s = PTest v head tail -> (head ⊟ tail >=? Capacity) = false ->
  inv (set_producer (PConstruct v head) (p_view s) s) pushed n.
Proof.
  intros I Hpc Ht. rewrite (producer_distance _ _ _ _ _ _ I Hpc), Z.geb_leb in Ht.
  apply Z.leb_gt in Ht. pose proof C_bounds as (? & ? & ?).
  pose proof I as []. rewrite Hpc in *. simpl in *. destruct inv_p_pc0 as [-> ->].
  apply inv_set_producer; simpl; try done; try lia. intros i. by rewrite Hpc.
Qed.

Lemma producer_construct_inv s pushed n v head :
  inv s pushed n -> p_pc s = PConstruct v head ->
  exists cs V,
    access Producer (slot_index Capacity head) (slot_construct v) (cells s) (p_view s)
      = Some (tt, cs, V) /\
    inv (set_producer (PStoreHead v head) V (set_cells cs s)) pushed n.
Proof.
  intros I Hpc. pose proof I as []. rewrite Hpc in *. simpl in *.
  destruct inv_p_pc0 as [-> Hroom]. rewrite slot_index_wrap0.
  destruct (inv_cells0 (length pushed)) as (c & Hc & Hp & Hcc & Hcell); [lia|].
  rewrite (proj2 (lookup_ge_None pushed (length pushed))) in Hcell by done.
  destruct Hcell as [Hcons Hraw]. unfold free_slot in Hraw. rewrite decide_True in Hraw by done.
  unfold access. rewrite Hc. simpl.
  destruct (Nat.ltb_spec (v_cons (p_view s)) (c_cons c)); [lia|].
  rewrite Hraw. simpl. eexists _, _. split; [done|].
  split; simpl; try done; try lia; [by rewrite length_insert|].
  intros i Hi. destruct (decide (i = length pushed)) as [->|Hne].
  - eexists. split.
    { apply list_lookup_insert_eq. by apply lookup_lt_Some in Hc. }
    split_and!; simpl; [lia|lia|].
    rewrite (proj2 (lookup_ge_None pushed (length pushed))) by done.
    split; [lia|]. unfold free_slot. by rewrite decide_True.
  - destruct (inv_cells0 i Hi) as (c' & Hc' & Hinv). exists c'. split.
    { rewrite list_lookup_insert_ne; [done|]. intros E%(slot_index_window n); lia. }
    unfold cell_inv, free_slot in *. destruct (pushed !! i); [done|].
    by rewrite decide_False in * by done.
Qed.

Lemma producer_store_inv s pushed n v head :
  inv s pushed n -> p_pc s = PStoreHead v head ->
  let '(h, V) := store release Head (head ⊞ 1) (hist_head s) (p_view s) in
  inv (set_producer PIdle V (set_hist_head h s)) (pushed ++ [v]) n.
Proof.
  intros I Hpc. pose proof I as []. rewrite Hpc in *. simpl in *.
  destruct inv_p_pc0 as [-> Hroom].
  assert (HL : length (pushed ++ [v]) = S (length pushed)) by (rewrite length_app; simpl; lia).
  split; simpl; rewrite ?HL; try done; try lia.
  - rewrite length_app. simpl. lia.
  - intros k m [Hm|[-> <-]]%lookup_snoc_Some.
    + destruct Hm as [? Hm]. destruct (inv_hh0 k m Hm) as (? & ? & ? & ?).
      split_and!; [done|by eapply view_ok_mono; [| |done]; lia|lia|lia].
    + simpl. rewrite wrap_wrap_add_l. split_and!; [f_equal; lia|split; simpl; lia|lia|lia].
  - intros k m Hm. destruct (inv_ht0 k m Hm) as (? & ? & ? & ?).
    split_and!; [done|by eapply view_ok_mono; [| |done]; lia|lia|lia].
  - unfold consumer_inv in *. destruct (c_pc s); try done.
    all: destruct inv_c_pc0 as (? & ? & Hl); split_and!; try done.
    all: rewrite lookup_app_l; [done|lia].
  - intros i Hi. destruct (inv_cells0 i Hi) as (c & Hc & ? & ? & Hcell). exists c. split; [done|].
    split_and!; [done|done|]. destruct (decide (i = length pushed)) as [->|Hne].
    + rewrite list_lookup_middle by done.
      rewrite (proj2 (lookup_ge_None pushed (length pushed))) in Hcell by done.
      destruct Hcell as [_ ->]. unfold free_slot, queued_slot. rewrite decide_True by done.
      case_decide; [|done]. unfold consumer_inv in *. destruct (c_pc s); try done; lia.
    + destruct (decide (i < length pushed)%nat) as [Hlt|Hge].
      * destruct (lookup_lt_is_Some_2 pushed i Hlt) as [x Hx].
        rewrite lookup_app_l, Hx by lia. by rewrite Hx in Hcell.
      * rewrite (proj2 (lookup_ge_None pushed i)) in Hcell by lia.
        rewrite (proj2 (lookup_ge_None (pushed ++ [v]) i)) by lia.
        unfold free_slot in *. rewrite decide_False in Hcell by done. by case_decide.
Qed.

Lemma consumer_load_tail_inv s pushed n k tail V :
  inv s pushed n -> c_pc s = CLoadTail ->
  load relaxed Tail k (hist_tail s) (c_view s) = Some (tail, V) ->
  inv (set_consumer (CLoadHead tail) V s) pushed n.
Proof.
  intros I Hpc (Hk & m & Hm & -> & ->)%load_inv. simpl in Hk.
  pose proof I as []. destruct (inv_ht0 k m Hm) as (Hv & ? & ? & ?).
  rewrite Hpc in *. simpl in *. apply lookup_lt_Some in Hm.
  assert (k = n) as -> by lia.
  apply inv_set_consumer; simpl; try done; try lia. intros i x. by rewrite Hpc.
Qed.

Lemma consumer_load_head_inv s pushed n tail k head V :
  inv s pushed n -> c_pc s = CLoadHead tail ->
  load acquire Head k (hist_head s) (c_view s) = Some (head, V) ->
  inv (set_consumer (CTest tail head) V s) pushed n.
Proof.
  intros I Hpc (Hk & m & Hm & -> & ->)%load_inv. simpl in Hk.
  pose proof I as []. destruct (inv_hh0 k m Hm) as (Hv & [] & ? & ?).
  rewrite Hpc in *. simpl in *. apply lookup_lt_Some in Hm.
  apply inv_set_consumer; simpl; try done; try lia.
  - split; [done|]. rewrite Hv. do 2 f_equal. lia.
  - intros i x. by rewrite Hpc.
Qed.

(** The emptiness test compares the true counters. *)
Lemma consumer_test_exact s pushed n tail head :
  inv s pushed n -> c_pc s = CTest tail head ->
  (tail =? head) = bool_decide (n = v_head (c_view s)).
Proof.
  intros I Hpc. pose proof (inv_content_bound _ _ _ I). pose proof I as [].
  rewrite Hpc in inv_c_pc0. simpl in inv_c_pc0. destruct inv_c_pc0 as [-> ->].
  pose proof C_bounds as (? & ? & ?). rewrite length_drop in *.
  pose proof (wrap_eq_iff 64 (Z.of_nat (v_head (c_view s))) (Z.of_nat n) ltac:(lia)) as E.
  destruct E as [E _]; [split; lia|].
  destruct (Z.eqb_spec (wrap 64 (Z.of_nat n)) (wrap 64 (Z.of_nat (v_head (c_view s)))));
    case_bool_decide; try done; [lia|congruence].
Qed.

Lemma consumer_test_inv s pushed n tail head :
  inv s pushed n -> c_pc s = CTest tail head -> (tail =? head) = false ->
  inv (set_consumer (CMove tail) (c_view s) s) pushed n.
Proof.
  intros I Hpc Ht. rewrite (consumer_test_exact _ _ _ _ _ I Hpc) in Ht.
  apply bool_decide_eq_false in Ht.
  pose proof I as []. rewrite Hpc in *. simpl in *. destruct inv_c_pc0 as [-> ->].
  apply inv_set_consumer; simpl; try done; try lia. intros i x. by rewrite Hpc.
Qed.

(** The two slot accesses of the consumer: to move the object out, then to
    destroy it.  [pc'] is the next program point. *)
Lemma consumer_access_inv {A} s pushed n tail x (op : slot T -> option (A * slot T)) a pc' :
  inv s pushed n ->
  tail = wrap 64 (Z.of_nat n) -> (n < v_head (c_view s))%nat -> pushed !! n = Some x ->
  op (queued_slot (c_pc s) n n x) = Some (a, queued_slot pc' n n x) ->
  c_pending pc' = S (c_pending (c_pc s)) -> (c_pending pc' <= 2)%nat ->
  (forall V, v_head V = v_head (c_view s) -> consumer_inv pc' V pushed n) ->
  exists cs V,
    access Consumer (slot_index Capacity tail) op (cells s) (c_view s) = Some (a, cs, V) /\
    inv (set_consumer pc' V (set_cells cs s)) pushed n.
Proof.
  intros I -> Hlt Hx Hop Hpend Hpend2 Hpc'. rewrite slot_index_wrap0.
  pose proof C_bounds as (? & ? & ?). pose proof I as [].
  destruct (inv_cells0 n) as (c & Hc & Hp & Hcc & Hcell); [lia|].
  rewrite Hx in Hcell. unfold access. rewrite Hc. simpl.
  destruct (Nat.ltb_spec (v_prod (c_view s)) (c_prod c)); [lia|].
  rewrite Hcell, Hop. simpl. eexists _, _. split; [done|].
  split; simpl; try done; try lia; [by apply Hpc'|by rewrite length_insert|].
  intros i Hi. destruct (decide (i = n)) as [->|Hne].
  - eexists. split.
    { apply list_lookup_insert_eq. by apply lookup_lt_Some in Hc. }
    split_and!; simpl; [lia|lia|]. by rewrite Hx.
  - destruct (inv_cells0 i Hi) as (c' & Hc' & Hinv). exists c'. split.
    { rewrite list_lookup_insert_ne; [done|]. intros E%(slot_index_window n); lia. }
    unfold cell_inv, queued_slot in *. destruct (pushed !! i); [|done].
    by rewrite decide_False in * by done.
Qed.

Lemma consumer_store_inv s pushed n tail out :
  inv s pushed n -> c_pc s = CStoreTail tail out ->
  let '(h, V) := store release Tail (tail ⊞ 1) (hist_tail s) (c_view s) in
  inv (set_consumer CIdle V (set_hist_tail h s)) pushed (S n).
Proof.
  intros I Hpc. pose proof I as []. rewrite Hpc in *. simpl in *.
  destruct inv_c_pc0 as (-> & Hlt & Hout). pose proof C_bounds as (? & ? & ?).
  split; simpl; try done; try lia.
  - rewrite length_app. simpl. lia.
  - intros k m Hm. destruct (inv_hh0 k m Hm) as (? & ? & ? & ?).
    split_and!; [done|by eapply view_ok_mono; [| |done]; lia|lia|lia].
  - intros k m [Hm|[-> <-]]%lookup_snoc_Some.
    + destruct Hm as [? Hm]. destruct (inv_ht0 k m Hm) as (? & ? & ? & ?).
      split_and!; [done|by eapply view_ok_mono; [| |done]; lia|lia|lia].
    + simpl. rewrite wrap_wrap_add_l. split_and!; [f_equal; lia|split; simpl; lia|lia|lia].
  - intros i Hi. destruct (decide (i = n + C)%nat) as [->|Hne].
    + destruct (inv_cells0 n) as (c & Hc & ? & ? & Hcell); [lia|]. exists c. split.
      { replace (Z.of_nat (n + C)) with (Z.of_nat n + Capacity) by lia.
        by rewrite slot_index_turn. }
      rewrite Hout in Hcell. unfold queued_slot in Hcell. rewrite decide_True in Hcell by done.
      split_and!; [lia|lia|]. rewrite (proj2 (lookup_ge_None pushed (n + C))) by lia.
      split; [lia|]. rewrite Hcell. unfold free_slot. case_decide; [|done].
      unfold producer_inv in *. destruct (p_pc s); try done; lia.
    + destruct (inv_cells0 i) as (c & Hc & ? & ? & Hcell); [lia|]. exists c. split; [done|].
      split_and!; [lia|lia|]. unfold queued_slot in *. destruct (pushed !! i); [|done].
      rewrite decide_False in Hcell by lia. by case_decide.
Qed.

(** ** Every step is safe and refines the specification *)

(** The effect of a step on the queue content. *)
Definition content_step (l : list T) (e : option event) (l' : list T) : Prop :=
  match e with None => l' = l | Some e => fifo_step Capacity l e l' end.

Lemma producer_step_refines s pushed n k arg :
  inv s pushed n ->
  producer_step Capacity k arg s <> Undefined_behaviour /\
  forall e s', producer_step Capacity k arg s = Step e s' ->
  exists pushed', inv s' pushed' n /\ content_step (drop n pushed) e (drop n pushed') /\
    pushed' = pushed ++ match e with Some (Pushed v) => [v] | _ => [] end.
Proof.
  intros I. unfold producer_step. pose proof (inv_content_bound _ _ _ I) as [Hn _].
  assert (Hidle : p_pending (p_pc s) = 0%nat ->
    forall pc, match pc with PIdle | PLoadHead _ => True | _ => False end ->
    (forall i, free_slot pc (length pushed) i = free_slot (p_pc s) (length pushed) i) ->
    inv (set_producer pc (p_view s) s) pushed n).
  { intros Hp pc Hpc Hf. pose proof I as []. apply inv_set_producer; try done; try lia.
    - destruct pc; simpl in *; try done; lia.
    - by destruct pc. }
  destruct (p_pc s) as [|v|v h|v h t|v h|v h] eqn:Hpc.
  - split; [done|]. intros e s' [= <- <-]. exists pushed. split; [by apply Hidle|by rewrite app_nil_r].
  - destruct (load _ _ _ _ _) as [[z V]|] eqn:E; split; [done| |done|done].
    intros e s' [= <- <-]. exists pushed. split; [by eapply producer_load_head_inv|by rewrite app_nil_r].
  - destruct (load _ _ _ _ _) as [[z V]|] eqn:E; split; [done| |done|done].
    intros e s' [= <- <-]. exists pushed. split; [by eapply producer_load_tail_inv|by rewrite app_nil_r].
  - destruct (_ >=? _) eqn:E; split; [done| |done|]; intros e s' [= <- <-]; exists pushed.
    + split; [by apply Hidle|rewrite app_nil_r; by split; [constructor|]].
    + split; [by eapply producer_test_inv|by rewrite app_nil_r].
  - destruct (producer_construct_inv _ _ _ _ _ I Hpc) as (cs & V & -> & I').
    split; [done|]. intros e s' [= <- <-]. exists pushed. split; [done|by rewrite app_nil_r].
  - pose proof (producer_store_inv _ _ _ _ _ I Hpc) as I'.
    destruct (store _ _ _ _ _) as [hs V]. split; [done|]. intros e s' [= <- <-].
    exists (pushed ++ [v]). split; [done|]. rewrite drop_app_le by done. split; [|done]. constructor.
    pose proof I as []. rewrite Hpc in *. simpl in *. pose proof C_bounds.
    rewrite length_drop. lia.
Qed.

Lemma consumer_step_refines s pushed n k :
  inv s pushed n ->
  consumer_step Capacity k s <> Undefined_behaviour /\
  forall e s', consumer_step Capacity k s = Step e s' ->
  exists n', inv s' pushed n' /\ content_step (drop n pushed) e (drop n' pushed) /\
    n' = (n + match e with Some (Popped _) => 1 | _ => 0 end)%nat.
Proof.
  intros I. unfold consumer_step. pose proof (inv_content_bound _ _ _ I) as [Hn _].
  assert (Hidle : c_pending (c_pc s) = 0%nat ->
    forall pc, match pc with CIdle | CLoadTail => True | _ => False end ->
    inv (set_consumer pc (c_view s) s) pushed n).
  { intros Hp pc Hpc. pose proof I as []. apply inv_set_consumer; try done; try lia.
    - destruct pc; simpl in *; try done; lia.
    - by destruct pc.
    - intros i x. unfold queued_slot. case_decide; [|done]. by destruct pc, (c_pc s). }
  destruct (c_pc s) as [| |t|t h|t|t out|t out] eqn:Hpc.
  - split; [done|]. intros e s' [= <- <-]. exists n. split; [by apply Hidle|by rewrite Nat.add_0_r].
  - destruct (load _ _ _ _ _) as [[z V]|] eqn:E; split; [done| |done|done].
    intros e s' [= <- <-]. exists n. split; [by eapply consumer_load_tail_inv|by rewrite Nat.add_0_r].
  - destruct (load _ _ _ _ _) as [[z V]|] eqn:E; split; [done| |done|done].
    intros e s' [= <- <-]. exists n. split; [by eapply consumer_load_head_inv|by rewrite Nat.add_0_r].
  - destruct (_ =? _) eqn:E; split; [done| |done|]; intros e s' [= <- <-]; exists n.
    + split; [by apply Hidle|rewrite Nat.add_0_r; by split; [constructor|]].
    + split; [by eapply consumer_test_inv|by rewrite Nat.add_0_r].
  - pose proof I as []. rewrite Hpc in inv_c_pc0. destruct inv_c_pc0 as [Ht Hlt].
    destruct (lookup_lt_is_Some_2 pushed n) as [x Hx]; [lia|].
    destruct (consumer_access_inv s pushed n t x slot_move x (CDestroy t x) I Ht Hlt Hx)
      as (cs & V & -> & I').
    { rewrite Hpc. unfold queued_slot. by rewrite !decide_True. }
    { by rewrite Hpc. }
    { simpl. lia. }
    { intros V HV. simpl. rewrite HV. done. }
    split; [done|]. intros e s' [= <- <-]. exists n. by rewrite Nat.add_0_r.
  - pose proof I as []. rewrite Hpc in inv_c_pc0. destruct inv_c_pc0 as (Ht & Hlt & Hx).
    destruct (consumer_access_inv s pushed n t out slot_destroy tt (CStoreTail t out) I Ht Hlt Hx)
      as (cs & V & -> & I').
    { rewrite Hpc. unfold queued_slot. by rewrite !decide_True. }
    { by rewrite Hpc. }
    { simpl. lia. }
    { intros V HV. simpl. rewrite HV. done. }
    split; [done|]. intros e s' [= <- <-]. exists n. by rewrite Nat.add_0_r.
  - pose proof (consumer_store_inv _ _ _ _ _ I Hpc) as I'.
    destruct (store _ _ _ _ _) as [hs V]. split; [done|]. intros e s' [= <- <-].
    exists (S n). split; [done|]. pose proof I as []. rewrite Hpc in inv_c_pc0.
    destruct inv_c_pc0 as (_ & _ & Hx). rewrite (drop_S _ _ _ Hx). split; [constructor|lia].
Qed.

Lemma exec_inv tr s :
  exec Capacity tr s ->
  exists pushed n, inv s pushed n /\ fifo_run Capacity [] tr (drop n pushed).
Proof.
  induction 1 as [|tr s m e s' _ (pushed & n & I & R) Hm].
  { exists [], 0%nat. split; [apply inv_init|constructor]. }
  assert (G : exists pushed' n', inv s' pushed' n' /\
            content_step (drop n pushed) e (drop n' pushed')).
  { destruct m as [k arg|k]; simpl in Hm.
    - destruct (producer_step_refines s pushed n k arg I) as [_ H]. destruct (H _ _ Hm) as (p & ? & ? & _). eauto.
    - destruct (consumer_step_refines s pushed n k I) as [_ H]. destruct (H _ _ Hm) as (n' & ? & ? & _). eauto. }
  destruct G as (pushed' & n' & I' & Hc). exists pushed', n'. split; [done|].
  destruct e as [e|]; simpl in Hc.
  - by econstructor.
  - by rewrite app_nil_r, Hc.
Qed.

(** *** What the clients know *)

Lemma access_view {A} t j (op : slot T -> option (A * slot T)) cs V a cs' V' :
  access t j op cs V = Some (a, cs', V') -> V' = tick t V.
Proof.
  unfold access. destruct (cs !! j) as [c|]; simpl; [|done]. destruct (_ <? _)%nat; [done|].
  destruct (op (c_slot c)) as [[x sl]|]; simpl; [|done]. by intros [= _ _ <-].
Qed.

(** A call that returns was decided by the pops its thread knows of. *)
Lemma producer_step_known s pushed n k arg e s' :
  inv s pushed n -> producer_step Capacity k arg s = Step e s' ->
  (v_tail (p_view s) <= v_tail (p_view s'))%nat /\ c_view s' = c_view s /\
  match e with
  | Some (Pushed _) => (length pushed < v_tail (p_view s') + C)%nat
  | Some (PushFull _) => length pushed = (v_tail (p_view s') + C)%nat
  | Some _ => False
  | None => True
  end.
Proof.
  intros I. unfold producer_step. pose proof I as []. pose proof C_bounds as (? & ? & ?).
  destruct (p_pc s) as [|v|v h|v h t|v h|v h] eqn:Hpc; simpl in inv_p_pc0.
  - by intros [= <- <-].
  - destruct (load _ _ _ _ _) as [[z V]|] eqn:E; [|done]. intros [= <- <-].
    apply load_inv in E as (Hk & m & _ & _ & ->). simpl. split_and!; [lia|done..].
  - destruct (load _ _ _ _ _) as [[z V]|] eqn:E; [|done]. intros [= <- <-].
    apply load_inv in E as (Hk & m & _ & _ & ->). simpl in *. split_and!; [lia|done..].
  - destruct (_ >=? _) eqn:E; intros [= <- <-]; [|done]. split_and!; [done..|]. simpl.
    rewrite (producer_distance _ _ _ _ _ _ I Hpc), Z.geb_leb in E. apply Z.leb_le in E. lia.
  - destruct (access _ _ _ _ _) as [[[u cs] V]|] eqn:E; [|done]. intros [= <- <-].
    apply access_view in E as ->. by split_and!.
  - destruct (store _ _ _ _ _) as [hs V] eqn:E. injection E as <- <-. intros [= <- <-].
    destruct inv_p_pc0. by split_and!.
Qed.

Lemma consumer_step_known s pushed n k e s' :
  inv s pushed n -> consumer_step Capacity k s = Step e s' ->
  (v_head (c_view s) <= v_head (c_view s'))%nat /\ p_view s' = p_view s /\
  match e with
  | Some (Popped v) => (n < v_head (c_view s'))%nat /\ pushed !! n = Some v
  | Some PopEmpty => n = v_head (c_view s')
  | Some _ => False
  | None => True
  end.
Proof.
  intros I. unfold consumer_step. pose proof I as [].
  destruct (c_pc s) as [| |t|t h|t|t out|t out] eqn:Hpc; simpl in inv_c_pc0.
  - by intros [= <- <-].
  - destruct (load _ _ _ _ _) as [[z V]|] eqn:E; [|done]. intros [= <- <-].
    apply load_inv in E as (Hk & m & _ & _ & ->). simpl. split_and!; [lia|done..].
  - destruct (load _ _ _ _ _) as [[z V]|] eqn:E; [|done]. intros [= <- <-].
    apply load_inv in E as (Hk & m & _ & _ & ->). simpl in *. split_and!; [lia|done..].
  - pose proof (consumer_test_exact _ _ _ _ _ I Hpc) as Ex.
    destruct (_ =? _); intros [= <- <-]; [|done]. split_and!; [done..|]. simpl.
    symmetry in Ex. by apply bool_decide_eq_true in Ex.
  - destruct (access _ _ _ _ _) as [[[u cs] V]|] eqn:E; [|done]. intros [= <- <-].
    apply access_view in E as ->. by split_and!.
  - destruct (access _ _ _ _ _) as [[[u cs] V]|] eqn:E; [|done]. intros [= <- <-].
    apply access_view in E as ->. by split_and!.
  - destruct (store _ _ _ _ _) as [hs V] eqn:E. injection E as <- <-. intros [= <- <-].
    destruct inv_c_pc0 as (_ & ? & ?). simpl. by split_and!.
Qed.

(** A load of the latest store tells a thread everything that has happened. *)
Lemma producer_fresh s pushed n arg v head :
  inv s pushed n -> p_pc s = PLoadTail v head ->
  exists s1, producer_step Capacity (length (hist_tail s) - 1) arg s = Step None s1 /\ v_tail (p_view s1) = n.
Proof.
  intros I Hpc. pose proof (inv_content_bound _ _ _ I) as [Hn _]. pose proof I as [].
  unfold producer_step. rewrite Hpc. unfold load. simpl. rewrite inv_ht_len0. simpl. rewrite Nat.sub_0_r.
  destruct (Nat.ltb_spec n (v_tail (p_view s))); [lia|].
  destruct (lookup_lt_is_Some_2 (hist_tail s) n) as [m Hm]; [lia|]. rewrite Hm. simpl.
  eexists. split; [reflexivity|]. simpl. destruct (inv_ht0 n m Hm) as (_ & _ & Hv & _). lia.
Qed.
Lemma consumer_fresh s pushed n tail :
  inv s pushed n -> c_pc s = CLoadHead tail ->
  exists s1, consumer_step Capacity (length (hist_head s) - 1) s = Step None s1 /\ v_head (c_view s1) = length pushed.
Proof.
  intros I Hpc. pose proof I as [].
  unfold consumer_step. rewrite Hpc. unfold load. simpl. rewrite inv_hh_len0. simpl. rewrite Nat.sub_0_r.
  destruct (Nat.ltb_spec (length pushed) (v_head (c_view s))); [lia|].
  destruct (lookup_lt_is_Some_2 (hist_head s) (length pushed)) as [m Hm]; [lia|]. rewrite Hm. simpl.
  eexists. split; [reflexivity|]. simpl. destruct (inv_hh0 _ m Hm) as (_ & _ & Hv & _). lia.
Qed.

(** The simulation: the specification knows no more than the views of the threads. *)
Definition queue_sim s (q : queue (T:=T)) : Prop :=
  inv s (qu_pushed q) (qu_popped q) /\
  (qu_pops_known q <= v_tail (p_view s))%nat /\ (qu_pushes_known q <= v_head (c_view s))%nat.

(** A call that returns has been decided by all that its thread has seen. *)
Definition decided_by s (e : event (T:=T)) (q : queue (T:=T)) : Prop :=
  match e with
  | Pushed _ | PushFull _ => qu_pops_known q = v_tail (p_view s)
  | Popped _ | PopEmpty => qu_pushes_known q = v_head (c_view s)
  end.

Lemma do_move_sim s q m e s' :
  queue_sim s q -> do_move Capacity m s = Step e s' ->
  exists q', queue_sim s' q' /\
    match e with None => q' = q | Some e => queue_step Capacity q e q' /\ decided_by s' e q' end.
Proof.
  intros (I & Hp & Hc) Hm. destruct q as [pushed n a b]; simpl in *. pose proof C_bounds as (? & ? & ?).
  destruct m as [k arg|k]; simpl in Hm.
  - destruct (producer_step_refines _ _ _ k arg I) as [_ H3]. destruct (H3 _ _ Hm) as (p' & I' & _ & ->).
    destruct (producer_step_known _ _ _ _ _ _ _ I Hm) as (Hle & Hcv & Hk). pose proof (inv_p_seen _ _ _ I') as [? _].
    destruct e as [[v|v|v|]|]; simpl in *; [| |done..|]; rewrite ?app_nil_r in *.
    + exists (mkQueue (pushed ++ [v]) n (v_tail (p_view s')) b). split; [by split_and!; simpl; rewrite ?Hcv|].
      split; [constructor; lia|done].
    + exists (mkQueue pushed n (v_tail (p_view s')) b). split; [by split_and!; simpl; rewrite ?Hcv|]. split; [constructor; lia|done].
    + exists (mkQueue pushed n a b). split; [|done]. split_and!; simpl; [done|lia|by rewrite Hcv].
  - destruct (consumer_step_refines _ _ _ k I) as [_ H3]. destruct (H3 _ _ Hm) as (n' & I' & _ & ->).
    destruct (consumer_step_known _ _ _ _ _ _ I Hm) as (Hle & Hpv & Hk). pose proof (inv_c_seen _ _ _ I') as [_ ?].
    destruct e as [[v|v|v|]|]; simpl in *; [done..| | |]; rewrite ?Nat.add_1_r, ?Nat.add_0_r in *.
    + destruct Hk as [? Hx]. exists (mkQueue pushed (S n) a (v_head (c_view s'))).
      split; [by split_and!; simpl; rewrite ?Hpv|]. split; [constructor; [lia..|done]|done].
    + exists (mkQueue pushed n a (v_head (c_view s'))). split; [by split_and!; simpl; rewrite ?Hpv|]. split; [constructor; lia|done].
    + exists (mkQueue pushed n a b). split; [|done]. split_and!; simpl; [done|by rewrite Hpv|lia].
Qed.

Lemma exec_sim tr s : exec Capacity tr s -> exists q, queue_sim s q /\ queue_run Capacity tr q.
Proof.
  induction 1 as [|tr s m e s' _ (q & S & R) Hm].
  { exists queue_init. split; [|constructor]. split_and!; [apply inv_init|done..]. }
  destruct (do_move_sim _ _ _ _ _ S Hm) as (q' & S' & Hq). exists q'. split; [done|].
  destruct e as [e|]; [destruct Hq; by econstructor|]. by rewrite app_nil_r, Hq.
Qed.

(** The views of the threads only grow. *)
Lemma do_move_views s pushed n m e s' :
  inv s pushed n -> do_move Capacity m s = Step e s' ->
  (v_tail (p_view s) <= v_tail (p_view s'))%nat /\ (v_head (c_view s) <= v_head (c_view s'))%nat.
Proof.
  intros I. destruct m as [k arg|k]; simpl; intros Hm.
  - destruct (producer_step_known _ _ _ _ _ _ _ I Hm) as (? & -> & _). by split.
  - destruct (consumer_step_known _ _ _ _ _ _ I Hm) as (? & -> & _). by split.
Qed.

End Invariant.

(** ** Observers: [size_approx], [full] and [empty] *)

Section Observers.
Context {T : Type} (Capacity : Z).

(** [size_approx()] called by a thread with view [V]: an acquire load of [head_],
    then an acquire load of [tail_]; [kh] and [kt] are the stores observed. *)
Definition size_approx_at (kh kt : nat) (V : view) (s1 s2 : state (T:=T)) : option Z :=
  '(head, V1) ← load acquire Head kh (hist_head s1) V;
  '(tail, _) ← load acquire Tail kt (hist_tail s2) V1;
  Some (head ⊟ tail).

(** [full()] of the same call. *)
Definition full_at (kh kt : nat) (V : view) (s1 s2 : state (T:=T)) : option bool :=
  sz ← size_approx_at kh kt V s1 s2; Some (sz >=? Capacity).
End Observers.

(** ** Running a schedule *)

Section Schedule.
Context {T : Type} {Capacity : Z}.

Fixpoint run_schedule (ms : list move) (tr : list event) (s : state (T:=T))
    : option (list event * state) :=
  match ms with
  | [] => Some (tr, s)
  | m :: ms =>
      match do_move Capacity m s with
      | Step e s' => run_schedule ms (tr ++ match e with Some e => [e] | None => [] end) s'
      | _ => None
      end
  end.

Lemma run_schedule_exec ms : forall tr s tr' s',
  exec Capacity tr s -> run_schedule ms tr s = Some (tr', s') -> exec Capacity tr' s'.
Proof.
  induction ms as [|m ms IH]; simpl; intros tr s tr' s' E.
  - by intros [= <- <-].
  - destruct (do_move Capacity m s) as [e s1| |] eqn:Hm; try done.
    apply IH. by econstructor.
Qed.
End Schedule.

(** The values pushed and popped by a trace. *)
Definition pushes {T} (tr : list (event (T:=T))) : list T :=
  omap (fun e => match e with Pushed v => Some v | _ => None end) tr.
Definition pops {T} (tr : list (event (T:=T))) : list T :=
  omap (fun e => match e with Popped v => Some v | _ => None end) tr.

Lemma fifo_run_conserves {T} Capacity (tr : list (event (T:=T))) l0 l :
  fifo_run Capacity l0 tr l -> l0 ++ pushes tr = pops tr ++ l.
Proof.
  unfold pushes, pops. induction 1 as [l|l0 tr l1 e l2 _ IH Hs].
  - by rewrite app_nil_r.
  - rewrite !omap_app. destruct Hs; simpl; rewrite ?app_nil_r in *.
    + by rewrite app_assoc, IH, <- app_assoc.
    + by rewrite IH, <- app_assoc.
    + done.
    + done.
Qed.

(** The specification pushes and pops what the trace says. *)
Lemma queue_run_trace {T} Capacity (tr : list (event (T:=T))) q :
  queue_run Capacity tr q ->
  pushes tr = qu_pushed q /\ pops tr = take (qu_popped q) (qu_pushed q) /\ (qu_popped q <= length (qu_pushed q))%nat.
Proof.
  unfold pushes, pops. induction 1 as [|tr q e q' _ (IH1 & IH2 & IH3) Hs]; [done|]. rewrite !omap_app, IH1, IH2.
  destruct Hs as [l n a b k v|l n a b k v|l n a b k v ? ? Hv|l n a b k]; simpl in *; rewrite ?app_nil_r; split_and!; try done.
  - by rewrite take_app_le.
  - rewrite length_app. lia.
  - by rewrite (take_S_r _ _ _ Hv).
  - by apply lookup_lt_Some in Hv.
Qed.

(** Statements left to run before the call returns. *)
Definition producer_rank {T} (pc : producer_pc (T:=T)) : nat :=
  match pc with
  | PIdle => 0 | PLoadHead _ => 5 | PLoadTail _ _ => 4 | PTest _ _ _ => 3
  | PConstruct _ _ => 2 | PStoreHead _ _ => 1
  end.
Definition consumer_rank {T} (pc : consumer_pc (T:=T)) : nat :=
  match pc with
  | CIdle => 0 | CLoadTail => 6 | CLoadHead _ => 5 | CTest _ _ => 4
  | CMove _ => 3 | CDestroy _ _ => 2 | CStoreTail _ _ => 1
  end.

Section Progress.
Context {T : Type} {Capacity : Z} {CAP : CapacityOk Capacity}.

Lemma load_enabled o x k hist V :
  (stamp x V <= k)%nat -> (k < length hist)%nat -> is_Some (load o x k hist V).
Proof.
  intros ? Hk. unfold load. destruct (Nat.ltb_spec k (stamp x V)); [lia|].
  destruct (lookup_lt_is_Some_2 hist k Hk) as [m ->]. eexists. done.
Qed.

Lemma producer_enabled s pushed n arg :
  inv (Capacity:=Capacity) s pushed n ->
  exists k e s', producer_step Capacity k arg (s : state (T:=T)) = Step e s'.
Proof.
  intros I. pose proof I as [].
  assert (Hh : is_Some (load relaxed Head (length pushed) (hist_head s) (p_view s))).
  { apply load_enabled; simpl; lia. }
  assert (Ht : is_Some (load acquire Tail n (hist_tail s) (p_view s))).
  { apply load_enabled; simpl; lia. }
  unfold producer_step. destruct (p_pc s) as [|v|v h|v h t|v h|v h] eqn:Hpc.
  - by eexists 0%nat, _, _.
  - destruct Hh as [[z V] E]. exists (length pushed). rewrite E. eauto.
  - destruct Ht as [[z V] E]. exists n. rewrite E. eauto.
  - exists 0%nat. destruct (_ >=? _); eauto.
  - destruct (producer_construct_inv _ _ _ _ _ I Hpc) as (cs & V & -> & _). exists 0%nat. eauto.
  - exists 0%nat. destruct (store _ _ _ _ _). eauto.
Qed.

Lemma consumer_enabled s pushed n :
  inv (Capacity:=Capacity) s pushed n ->
  exists k e s', consumer_step Capacity k (s : state (T:=T)) = Step e s'.
Proof.
  intros I. pose proof I as [].
  assert (Ht : is_Some (load relaxed Tail n (hist_tail s) (c_view s))).
  { apply load_enabled; simpl; lia. }
  assert (Hh : is_Some (load acquire Head (length pushed) (hist_head s) (c_view s))).
  { apply load_enabled; simpl; lia. }
  pose proof (consumer_step_refines s pushed n 0 I) as [Hub _].
  unfold consumer_step in *. destruct (c_pc s) as [| |t|t h|t|t out|t out] eqn:Hpc.
  - by eexists 0%nat, _, _.
  - destruct Ht as [[z V] E]. exists n. rewrite E. eauto.
  - destruct Hh as [[z V] E]. exists (length pushed). rewrite E. eauto.
  - exists 0%nat. destruct (_ =? _); eauto.
  - exists 0%nat. destruct (access _ _ _ _ _) as [[[a cs] V]|]; [eauto|done].
  - exists 0%nat. destruct (access _ _ _ _ _) as [[[a cs] V]|]; [eauto|done].
  - exists 0%nat. destruct (store _ _ _ _ _). eauto.
Qed.

Lemma producer_rank_decreases k arg (s s' : state (T:=T)) e :
  p_pc s <> PIdle -> producer_step Capacity k arg s = Step e s' ->
  (producer_rank (p_pc s') < producer_rank (p_pc s))%nat /\ c_pc s' = c_pc s.
Proof.
  unfold producer_step. intros Hne. destruct (p_pc s); try done;
    repeat case_match; intros; simplify_eq; simpl; split; (done || lia).
Qed.

Lemma consumer_rank_decreases k (s s' : state (T:=T)) e :
  c_pc s <> CIdle -> consumer_step Capacity k s = Step e s' ->
  (consumer_rank (c_pc s') < consumer_rank (c_pc s))%nat /\ p_pc s' = p_pc s.
Proof.
  unfold consumer_step. intros Hne. destruct (c_pc s); try done;
    repeat case_match; intros; simplify_eq; simpl; split; (done || lia).
Qed.
End Progress.

(** ** Properties *)

(** C3. Race freedom and lifetime safety.  In every reachable state of every
    interleaving, with every stale value a load may return, no next step of the
    producer or of the consumer is a data race, constructs over a live object,
    moves from or destroys a slot that holds none: acquire/release on [head_] and
    [tail_] alone orders all slot accesses. *)
Theorem spsc_race_free (T : Type) (Capacity : Z) (CAP : CapacityOk Capacity)
    (tr : list (event (T:=T))) (s : state) (m : move) :
  exec Capacity tr s -> do_move Capacity m s <> Undefined_behaviour.
Proof.
  intros (pushed & n & I & _)%exec_inv. destruct m as [k arg|k]; simpl.
  - apply (producer_step_refines _ _ _ _ _ I).
  - apply (consumer_step_refines _ _ _ _ I).
Qed.

(** Capacity 2: the producer pushes 10, 20 and 30 (the third call fails), the
    consumer pops 10 in between, with a stale load of the head at the end. *)
Definition sample_schedule : list (move (T:=nat)) :=
  [MoveP 0 10; MoveP 0 10; MoveP 0 10; MoveP 0 10; MoveP 0 10; MoveP 0 10;
   MoveC 0; MoveC 0; MoveC 1; MoveP 0 20; MoveC 0; MoveC 0; MoveP 1 20; MoveP 0 20;
   MoveC 0; MoveP 0 20; MoveP 0 20; MoveP 0 20; MoveP 0 30; MoveP 2 30; MoveP 0 30;
   MoveP 0 30; MoveC 0; MoveC 0; MoveC 1; MoveC 1; MoveC 0]%nat.

Definition sample_trace : list (event (T:=nat)) :=
  [Pushed 10; Pushed 20; PushFull 30; Popped 10; PopEmpty]%nat.

Definition sample_state : state (T:=nat) :=
  match run_schedule (Capacity:=2) sample_schedule [] (state_init 2) with
  | Some (_, s) => s | None => state_init 2 end.

Lemma sample_exec : exec 2 sample_trace sample_state.
Proof.
  apply (run_schedule_exec sample_schedule [] (state_init 2)); [constructor|].
  vm_compute. reflexivity.
Qed.

Lemma spsc_race_free_witness :
  exec 2 sample_trace sample_state /\
  do_move 2 (MoveC 0) sample_state <> Undefined_behaviour.
Proof.
  split; [exact sample_exec|].
  exact (spsc_race_free nat 2 CapacityOk_2 sample_trace sample_state (MoveC 0) sample_exec).
Defined.

(** C4. Linearizability.  The calls that have returned, in the order of their
    publishing stores, are a run of one FIFO of [Capacity] elements: a
    successful [try_pop] returns the oldest element, every pushed value is popped
    at most once and in order, and what is not popped yet is the content,
    which never exceeds [Capacity].  A call succeeds or fails as the queue is not full or full,
    not empty or empty, by the pops, or pushes, that its thread has observed: in every reachable
    state, a step that returns from a call is a step of the FIFO decided by exactly the view
    of the thread.  Views only grow, and may lag behind since loads may be stale; a
    load of the latest store of the other index brings the view of the thread up to date, so that
    the call that made it fails only if the queue then was full, or empty. *)
Theorem spsc_linearizable (T : Type) (Capacity : Z) (CAP : CapacityOk Capacity)
    (tr : list (event (T:=T))) (s : state) (arg : T) :
  exec Capacity tr s ->
  exists q, queue_run Capacity tr q /\
    pushes tr = qu_pushed q /\ pushes tr = pops tr ++ qu_content q /\
    Z.of_nat (length (qu_content q)) <= Capacity /\
    (qu_pops_known q <= v_tail (p_view s) <= qu_popped q)%nat /\
    (qu_pushes_known q <= v_head (c_view s) <= length (qu_pushed q))%nat /\
    (forall m e s', do_move Capacity m s = Step e s' ->
       (v_tail (p_view s) <= v_tail (p_view s'))%nat /\ (v_head (c_view s) <= v_head (c_view s'))%nat /\
       forall e', e = Some e' -> exists q', queue_step Capacity q e' q' /\ decided_by s' e' q') /\
    (forall v head, p_pc s = PLoadTail v head -> exists s1,
       producer_step Capacity (length (hist_tail s) - 1) arg s = Step None s1 /\
       v_tail (p_view s1) = qu_popped q) /\
    (forall tail, c_pc s = CLoadHead tail -> exists s1,
       consumer_step Capacity (length (hist_head s) - 1) s = Step None s1 /\
       v_head (c_view s1) = length (qu_pushed q)).
Proof.
  intros (q & Sim & R)%exec_sim. pose proof Sim as (I & Hp & Hc). exists q.
  destruct (queue_run_trace _ _ _ R) as (E1 & E2 & Hn).
  pose proof (inv_content_bound _ _ _ I) as [_ Hl]. pose proof (C_bounds (Capacity:=Capacity)).
  pose proof (inv_p_seen _ _ _ I). pose proof (inv_c_seen _ _ _ I). split_and!; try done; try lia.
  - rewrite E1, E2. unfold qu_content. by rewrite take_drop.
  - unfold qu_content. lia.
  - intros m e s' Hm. destruct (do_move_views _ _ _ _ _ _ I Hm). split_and!; [done..|].
    intros e' ->. destruct (do_move_sim _ _ _ _ _ Sim Hm) as (q' & _ & Hq). by exists q'.
  - intros v head. exact (producer_fresh _ _ _ arg v head I).
  - intros tail. exact (consumer_fresh _ _ _ tail I).
Qed.

Lemma spsc_linearizable_witness :
  exec 2 sample_trace sample_state /\
  exists q, queue_run 2 sample_trace q /\ qu_content q = [20]%nat.
Proof.
  split; [exact sample_exec|].
  destruct (spsc_linearizable nat 2 CapacityOk_2 sample_trace sample_state 7%nat sample_exec) as (q & R & _ & E & _).
  exists q. split; [exact R|]. vm_compute pushes in E. vm_compute pops in E. by injection E as <-.
Defined.

(** C5. Wait-freedom.  In every reachable state a thread inside a call can take a
    step whatever the other thread does, every such step brings its call strictly
    closer to returning (at most five statements for [try_emplace], six for
    [try_pop]), and leaves the other thread where it was. *)
Theorem spsc_wait_free (T : Type) (Capacity : Z) (CAP : CapacityOk Capacity)
    (tr : list (event (T:=T))) (s : state) (arg : T) :
  exec Capacity tr s ->
  ((exists k e s', producer_step Capacity k arg s = Step e s') /\
   (p_pc s <> PIdle -> forall k e s', producer_step Capacity k arg s = Step e s' ->
      (producer_rank (p_pc s') < producer_rank (p_pc s) <= 5)%nat /\ c_pc s' = c_pc s)) /\
  ((exists k e s', consumer_step Capacity k s = Step e s') /\
   (c_pc s <> CIdle -> forall k e s', consumer_step Capacity k s = Step e s' ->
      (consumer_rank (c_pc s') < consumer_rank (c_pc s) <= 6)%nat /\ p_pc s' = p_pc s)).
Proof.
  intros (pushed & n & I & _)%exec_inv. split; split.
  - by apply (producer_enabled _ pushed n).
  - intros Hne k e s' (? & ?)%producer_rank_decreases; [|done].
    split_and!; [done| |done]. destruct (p_pc s); simpl; lia.
  - by apply (consumer_enabled _ pushed n).
  - intros Hne k e s' (? & ?)%consumer_rank_decreases; [|done].
    split_and!; [done| |done]. destruct (c_pc s); simpl; lia.
Qed.

Lemma spsc_wait_free_witness :
  exec 2 sample_trace sample_state /\
  exists k e s', producer_step 2 k 7%nat sample_state = Step e s'.
Proof.
  split; [exact sample_exec|].
  exact (proj1 (proj1 (spsc_wait_free nat 2 CapacityOk_2 sample_trace sample_state 7%nat
    sample_exec))).
Defined.

(** A schedule in which one element is pushed and popped. *)
Definition push_pop_schedule : list (move (T:=nat)) :=
  [MoveP 0 5; MoveP 0 5; MoveP 0 5; MoveP 0 5; MoveP 0 5; MoveP 0 5;
   MoveC 0; MoveC 0; MoveC 1; MoveC 0; MoveC 0; MoveC 0; MoveC 0]%nat.

(** A monitor thread that loads [head_] before the push and [tail_] after the pop. *)
Lemma observer_underflow :
  exists tr (s : state (T:=nat)),
    exec 2 tr s /\ fifo_run 2 [] tr [] /\
    size_approx_at 0 1 view_bot (state_init 2) s = Some u64_max /\
    full_at 2 0 1 view_bot (state_init 2) s = Some true.
Proof.
  destruct (run_schedule (Capacity:=2) push_pop_schedule [] (state_init 2)) as [[tr s]|] eqn:E.
  2: { vm_compute in E. discriminate. }
  assert (X : exec 2 tr s) by (eapply run_schedule_exec; [constructor|exact E]).
  exists tr, s. vm_compute in E. injection E as <- <-. split; [exact X|].
  split; [|split; vm_compute; reflexivity].
  apply (fifo_run_snoc _ _ [Pushed 5%nat] [5%nat]); [|constructor].
  apply (fifo_run_snoc _ _ [] []); [constructor|]. by apply (fifo_pushed _ []).
Qed.

(** C6. The occupancy, as its own threads and as others see it.  In any reachable
    state, inside or between calls, [size_approx] called by the producer or by the
    consumer never wraps: it lies between 0 and [Capacity].  The producer never sees less
    than the true content, so a [full() == false] it obtains guarantees room for a
    push; the consumer never sees more, so a non-zero size it obtains guarantees an
    element.  A third thread has no such bound: [head_] is loaded before [tail_], and
    when a push and a pop fall between the two loads it computes 0 - 1, so that
    [size_approx] returns 2^64 - 1 and [full] returns true on an empty queue, even
    though both loads return the latest stores. *)
Theorem spsc_size_approx (T : Type) (Capacity : Z) (CAP : CapacityOk Capacity)
    (tr : list (event (T:=T))) (s : state) (kh kt : nat) (n : Z) :
  exec Capacity tr s ->
  (exists l, fifo_run Capacity [] tr l /\
   (size_approx_at kh kt (p_view s) s s = Some n -> Z.of_nat (length l) <= n <= Capacity) /\
   (size_approx_at kh kt (c_view s) s s = Some n -> 0 <= n <= Z.of_nat (length l))) /\
  exists tr2 (s2 : state (T:=nat)),
    exec 2 tr2 s2 /\ fifo_run 2 [] tr2 [] /\
    size_approx_at 0 1 view_bot (state_init 2) s2 = Some u64_max /\
    full_at 2 0 1 view_bot (state_init 2) s2 = Some true.
Proof.
  intros (pushed & c & I & R)%exec_inv. split; [|exact observer_underflow]. exists (drop c pushed). split; [done|].
  pose proof (inv_content_bound _ _ _ I). pose proof (C_bounds (Capacity:=Capacity)).
  rewrite length_drop in *. pose proof I as []. unfold size_approx_at.
  split; (destruct (load _ Head _ _ _) as [[h V1]|] eqn:E1; simpl; [|done]);
    (destruct (load _ Tail _ _ _) as [[t V2]|] eqn:E2; simpl; [|done]); intros [= <-];
    apply load_inv in E1 as (? & m1 & L1 & -> & ->); apply load_inv in E2 as (K & m2 & L2 & -> & ->);
    destruct (inv_hh0 _ _ L1) as (-> & [] & ? & ?); destruct (inv_ht0 _ _ L2) as (-> & [] & ? & ?);
    apply lookup_lt_Some in L1, L2; simpl in *;
    rewrite wrap_distance by (split; lia); lia.
Qed.

Lemma spsc_size_approx_witness :
  exec 2 sample_trace sample_state /\
  exists l, fifo_run 2 [] sample_trace l /\
  (size_approx_at 2 0 (p_view sample_state) sample_state sample_state = Some 2 ->
   Z.of_nat (length l) <= 2 <= 2) /\
  (size_approx_at 2 0 (c_view sample_state) sample_state sample_state = Some 2 ->
   0 <= 2 <= Z.of_nat (length l)).
Proof.
  split; [exact sample_exec|].
  exact (proj1 (spsc_size_approx nat 2 CapacityOk_2 sample_trace sample_state 2 0 2 sample_exec)).
Defined.

