(* ===== verification/ZeroCopy.v ===== *)
(** * The zero-copy queue

    zero_copy_spsc.hpp: the producer reserves a slot, constructs the element in
    place and commits or cancels.  Reservations are movable objects that refer to
    the queue; the client holds any number of them.  Calls are interleaved whole:
    the orderings of the two counters are those of the ring buffer, treated in
    SpscConcurrent.v. *)

From S2P Require Import Prelude Spsc.

(** ** Data *)

Record ZeroCopySpsc (T : Type) : Type := mkZc {
  zc_buffer : list (slot T);
  zc_head : Z;
  zc_tail : Z;
  active_reservation : bool }.
Arguments mkZc {T} _ _ _ _.
Arguments zc_buffer {T} _.
Arguments zc_head {T} _.
Arguments zc_tail {T} _.
Arguments active_reservation {T} _.

(** [class Reservation]; whether [queue_] is set, and [ptr_] as a slot number. *)
Record Reservation : Set := mkReservation {
  r_queue : bool;
  r_index : Z;
  r_ptr : option nat;
  r_constructed : bool }.

(** The default member initialisers. *)
Definition Reservation_default : Reservation := mkReservation false 0 None false.
(** [Reservation(queue, index, ptr)]. *)
Definition Reservation_make (index : Z) (ptr : nat) : Reservation := mkReservation true index (Some ptr) false.

(** ** Operations *)

Module ZeroCopy.
Section ZeroCopy.
Context {T : Type} (Capacity : Z).
Implicit Types (q : ZeroCopySpsc T) (r : Reservation).

Definition init : ZeroCopySpsc T := mkZc (replicate (Z.to_nat Capacity) Raw) 0 0 false.

(** The storage is that of the ring buffer: slot [index & mask_]. *)
Definition slot_ptr (index : Z) : nat := slot_index Capacity index.
Definition capacity : Z := Capacity.

Definition set_active (b : bool) q : ZeroCopySpsc T := mkZc (zc_buffer q) (zc_head q) (zc_tail q) b.
Definition set_buffer (buf : list (slot T)) q : ZeroCopySpsc T :=
  mkZc buf (zc_head q) (zc_tail q) (active_reservation q).

(** The compare-exchange succeeds exactly when no reservation is active. *)
Definition try_reserve q : option Reservation * ZeroCopySpsc T :=
  if active_reservation q then (None, q)
  else
    let q := set_active true q in
    let head := zc_head q in
    let tail := zc_tail q in
    if head ⊟ tail >=? Capacity then (None, set_active false q)
    else (Some (Reservation_make head (slot_ptr head)), q).

(** [construct(args...)]; [None] is undefined behaviour (no slot, or a slot that
    is not raw). *)
Definition construct {Args} (make : Args -> T) (args : Args) r q
    : option (Reservation * ZeroCopySpsc T) :=
  ptr ← r_ptr r;
  buf ← (if r_constructed r then destroy_at (zc_buffer q) ptr else Some (zc_buffer q));
  buf ← construct_at buf ptr (make args);
  Some (mkReservation (r_queue r) (r_index r) (r_ptr r) true, set_buffer buf q).

(** [get()]: the slot, when an object lives in it. *)
Definition get r : option nat := if r_constructed r then r_ptr r else None.

Definition commit r q : bool * Reservation * ZeroCopySpsc T :=
  if negb (r_queue r) || negb (r_constructed r) then (false, r, q)
  else
    let q := mkZc (zc_buffer q) (r_index r ⊞ 1) (zc_tail q) (active_reservation q) in
    let q := set_active false q in
    (true, mkReservation false (r_index r) None false, q).

(** [cancel()], also the destructor. *)
Definition cancel r q : option (Reservation * ZeroCopySpsc T) :=
  if negb (r_queue r) then Some (r, q)
  else
    buf ← (if r_constructed r
           then ptr ← r_ptr r; destroy_at (zc_buffer q) ptr else Some (zc_buffer q));
    let q := set_active false (set_buffer buf q) in
    Some (mkReservation false (r_index r) None false, q).

(** [move_from(other)]: the new value of [*this] and of [other]. *)
Definition move_from (other : Reservation) : Reservation * Reservation :=
  (mkReservation (r_queue other) (r_index other) (r_ptr other) (r_constructed other),
   mkReservation false (r_index other) None false).

(** [Reservation(Reservation&& other)] and [~Reservation()]. *)
Definition move_construct (other : Reservation) : Reservation * Reservation := move_from other.
Definition destroy_reservation r q : option (ZeroCopySpsc T) := '(_, q) ← cancel r q; Some q.

(** Move assignment between different objects. *)
Definition move_assign (this other : Reservation) q
    : option (Reservation * Reservation * ZeroCopySpsc T) :=
  '(_, q) ← cancel this q;
  let '(this, other) := move_from other in Some (this, other, q).

Definition try_consume q : option (option T * ZeroCopySpsc T) :=
  let tail := zc_tail q in
  let head := zc_head q in
  if tail =? head then Some (None, q)
  else
    '(out, buf) ← move_out (zc_buffer q) (slot_index Capacity tail);
    buf ← destroy_at buf (slot_index Capacity tail);
    Some (Some out, mkZc buf head (tail ⊞ 1) (active_reservation q)).

Definition empty q : bool := zc_head q =? zc_tail q.
Definition size_approx q : Z := zc_head q ⊟ zc_tail q.
Definition full q : bool := size_approx q >=? Capacity.

(** The destructor's loop is that of the ring buffer. *)
Definition destroy_remaining (fuel : nat) q : outcome (list (slot T)) :=
  destroy_loop Capacity fuel (zc_tail q) (zc_head q) (zc_buffer q).
(** [~ZeroCopySpsc()]. *)
Definition destroy (fuel : nat) q : outcome (list (slot T)) := destroy_remaining fuel q.
End ZeroCopy.
End ZeroCopy.

(** ** Clients *)

(** A client with its reservation objects, numbered in order of creation. *)
Record zc_client (T : Type) : Type := mkClient {
  cl_queue : ZeroCopySpsc T;
  cl_handles : list Reservation }.
Arguments mkClient {T} _ _.
Arguments cl_queue {T} _.
Arguments cl_handles {T} _.

Inductive zc_call (T : Type) : Type :=
  | ZcReserve | ZcConstruct (h : nat) (v : T) | ZcGet (h : nat) | ZcCommit (h : nat)
  | ZcCancel (h : nat) | ZcMoveNew (h : nat) | ZcMoveAssign (dst src : nat) | ZcConsume.
Arguments ZcReserve {T}. Arguments ZcConstruct {T} h v. Arguments ZcGet {T} h.
Arguments ZcCommit {T} h. Arguments ZcCancel {T} h. Arguments ZcMoveNew {T} h.
Arguments ZcMoveAssign {T} dst src. Arguments ZcConsume {T}.

Inductive zc_reply (T : Type) : Type :=
  | ZcReserved (h : option nat) | ZcDone | ZcGot (v : option T) | ZcCommitted (b : bool)
  | ZcConsumed (v : option T).
Arguments ZcReserved {T} h. Arguments ZcDone {T}. Arguments ZcGot {T} v.
Arguments ZcCommitted {T} b. Arguments ZcConsumed {T} v.

Section Clients.
Context {T : Type} (Capacity : Z).
Implicit Types (c : zc_client T).

Definition do_zc_call (call : zc_call T) c : option (zc_reply T * zc_client T) :=
  let q := cl_queue c in
  let hs := cl_handles c in
  match call with
  | ZcReserve =>
      match ZeroCopy.try_reserve Capacity q with
      | (None, q) => Some (ZcReserved None, mkClient q hs)
      | (Some r, q) => Some (ZcReserved (Some (length hs)), mkClient q (hs ++ [r]))
      end
  | ZcConstruct h v =>
      r ← hs !! h;
      '(r, q) ← ZeroCopy.construct id v r q;
      Some (ZcDone, mkClient q (<[h := r]> hs))
  | ZcGet h =>
      r ← hs !! h;
      match ZeroCopy.get r with
      | None => Some (ZcGot None, c)
      | Some ptr =>
          match zc_buffer q !! ptr with
          | Some (Live v) => Some (ZcGot (Some v), c)
          | _ => None
          end
      end
  | ZcCommit h =>
      r ← hs !! h;
      let '(b, r, q) := ZeroCopy.commit r q in
      Some (ZcCommitted b, mkClient q (<[h := r]> hs))
  | ZcCancel h =>
      r ← hs !! h;
      '(r, q) ← ZeroCopy.cancel r q;
      Some (ZcDone, mkClient q (<[h := r]> hs))
  | ZcMoveNew h =>
      r ← hs !! h;
      let '(this, other) := ZeroCopy.move_from r in
      Some (ZcDone, mkClient q (<[h := other]> hs ++ [this]))
  | ZcMoveAssign dst src =>
      rd ← hs !! dst; rs ← hs !! src;
      if decide (dst = src) then Some (ZcDone, c)
      else
        '(this, other, q) ← ZeroCopy.move_assign rd rs q;
        Some (ZcDone, mkClient q (<[src := other]> (<[dst := this]> hs)))
  | ZcConsume =>
      '(out, q) ← ZeroCopy.try_consume Capacity q;
      Some (ZcConsumed out, mkClient q hs)
  end.

Fixpoint do_zc_calls (calls : list (zc_call T)) c : option (list (zc_reply T) * zc_client T) :=
  match calls with
  | [] => Some ([], c)
  | call :: calls =>
      '(r, c) ← do_zc_call call c;
      '(rs, c) ← do_zc_calls calls c;
      Some (r :: rs, c)
  end.
End Clients.

(** ** The specification *)

(** The committed elements, the pending reservation (its owner and the element, if
    constructed), and the number of reservation objects. *)
Record zc_spec (T : Type) : Type := mkSpec {
  sp_content : list T;
  sp_pending : option (nat * option T);
  sp_handles : nat }.
Arguments mkSpec {T} _ _ _.
Arguments sp_content {T} _.
Arguments sp_pending {T} _.
Arguments sp_handles {T} _.

Section Spec.
Context {T : Type} (Capacity : Z).
Implicit Types (s : zc_spec T).

Definition owns_pending (h : nat) s : bool :=
  match sp_pending s with Some (h', _) => bool_decide (h = h') | None => false end.

Definition release (h : nat) s : zc_spec T :=
  if owns_pending h s then mkSpec (sp_content s) None (sp_handles s) else s.

Definition transfer (src dst : nat) s : option (nat * option T) :=
  match sp_pending s with
  | Some (h, v) => Some (if decide (h = src) then dst else h, v)
  | None => None
  end.

(** [None] where the documentation forbids the call: an object that does not
    exist, or construction without a reservation. *)
Definition zc_spec_call (call : zc_call T) s : option (zc_reply T * zc_spec T) :=
  let '(mkSpec l p n) := s in
  match call with
  | ZcReserve =>
      match p with
      | Some _ => Some (ZcReserved None, s)
      | None => if Z.of_nat (length l) <? Capacity
                then Some (ZcReserved (Some n), mkSpec l (Some (n, None)) (S n))
                else Some (ZcReserved None, s)
      end
  | ZcConstruct h v =>
      if owns_pending h s then Some (ZcDone, mkSpec l (Some (h, Some v)) n) else None
  | ZcGet h =>
      if (h <? n)%nat
      then Some (ZcGot (if owns_pending h s then p ≫= snd else None), s) else None
  | ZcCommit h =>
      if negb (h <? n)%nat then None
      else match p with
      | Some (h', Some v) =>
          if decide (h = h') then Some (ZcCommitted true, mkSpec (l ++ [v]) None n)
          else Some (ZcCommitted false, s)
      | _ => Some (ZcCommitted false, s)
      end
  | ZcCancel h => if (h <? n)%nat then Some (ZcDone, release h s) else None
  | ZcMoveNew h =>
      if (h <? n)%nat then Some (ZcDone, mkSpec l (transfer h n s) (S n)) else None
  | ZcMoveAssign dst src =>
      if negb ((dst <? n) && (src <? n))%nat then None
      else if decide (dst = src) then Some (ZcDone, s)
      else let s := release dst s in
           Some (ZcDone, mkSpec (sp_content s) (transfer src dst s) n)
  | ZcConsume =>
      match l with
      | [] => Some (ZcConsumed None, s)
      | v :: l => Some (ZcConsumed (Some v), mkSpec l p n)
      end
  end.

Fixpoint zc_spec_calls (calls : list (zc_call T)) s : option (list (zc_reply T) * zc_spec T) :=
  match calls with
  | [] => Some ([], s)
  | call :: calls =>
      '(r, s) ← zc_spec_call call s;
      '(rs, s) ← zc_spec_calls calls s;
      Some (r :: rs, s)
  end.
End Spec.

(** ** Representation *)

Section Rep.
Context {T : Type} (Capacity : Z).

Definition ring (q : ZeroCopySpsc T) (head : Z) : SpscRingBuffer T :=
  mkRing (zc_buffer q) head (zc_tail q).

(** A constructed element is already in place behind the content, one position
    before the head that a commit will publish. *)
Definition content_rep (q : ZeroCopySpsc T) (l : list T) (p : option (nat * option T)) : Prop :=
  match p with
  | Some (_, Some v) => represents Capacity (ring q (zc_head q ⊞ 1)) (l ++ [v])
  | Some (_, None) => represents Capacity (ring q (zc_head q)) l /\ Z.of_nat (length l) < Capacity
  | None => represents Capacity (ring q (zc_head q)) l
  end.

Definition dead (r : Reservation) : Prop :=
  r_queue r = false /\ r_ptr r = None /\ r_constructed r = false.

Definition live (q : ZeroCopySpsc T) (v : option T) : Reservation :=
  mkReservation true (zc_head q) (Some (slot_index Capacity (zc_head q)))
    (match v with Some _ => true | None => false end).

Definition handle_ok (q : ZeroCopySpsc T) (p : option (nat * option T)) (h : nat)
    (r : Reservation) : Prop :=
  match p with
  | Some (h', v) => if decide (h = h') then r = live q v else dead r
  | None => dead r
  end.

Record zc_rep (c : zc_client T) (s : zc_spec T) : Prop := {
  zr_content : content_rep (cl_queue c) (sp_content s) (sp_pending s);
  zr_head : zc_head (cl_queue c) = zc_tail (cl_queue c) ⊞ Z.of_nat (length (sp_content s));
  zr_active : active_reservation (cl_queue c) =
    match sp_pending s with Some _ => true | None => false end;
  zr_owner : forall h v, sp_pending s = Some (h, v) -> (h < sp_handles s)%nat;
  zr_count : length (cl_handles c) = sp_handles s;
  zr_handles : forall h r, cl_handles c !! h = Some r ->
    handle_ok (cl_queue c) (sp_pending s) h r }.
End Rep.
#[local] Arguments handle_ok : simpl never.

Section ZcProofs.
Context {T : Type} {Capacity : Z} {CAP : CapacityOk Capacity}.
Implicit Types (q : ZeroCopySpsc T) (c : zc_client T) (s : zc_spec T) (l : list T).
Local Abbreviation slotix := (slot_index Capacity).
Local Abbreviation rep := (zc_rep Capacity).

(** Taking the last element back. *)
Lemma represents_unpush (buf : list (slot T)) head tail l v :
  head = tail ⊞ Z.of_nat (length l) ->
  represents Capacity (mkRing buf (head ⊞ 1) tail) (l ++ [v]) ->
  buf !! slotix head = Some (Live v) /\
  represents Capacity (mkRing (<[slotix head := Raw]> buf) head tail) l.
Proof.
  intros -> R. pose proof R as [Hlen Ht _ Hc Hs]. simpl in *. rewrite length_app in Hc. simpl in Hc.
  assert (Hslot : forall i, slotix (tail ⊞ i) = slotix (tail + i)) by (intros; apply slot_index_wrap0).
  split.
  { rewrite Hslot, Hs by lia. unfold expected_slot. by rewrite list_lookup_middle. }
  split; simpl; [by rewrite length_insert|done|done|lia|].
  intros i Hi. rewrite Hslot. destruct (decide (i = length l)) as [->|Hne].
  - rewrite list_lookup_insert_eq.
    + unfold expected_slot. by rewrite (proj2 (lookup_ge_None l (length l))).
    + pose proof (slot_index_bound (Capacity:=Capacity) (tail + Z.of_nat (length l))). lia.
  - rewrite list_lookup_insert_ne by (intros E%slot_index_inj; lia). rewrite Hs by done.
    unfold expected_slot. f_equal. destruct (decide (i < length l)%nat).
    + by rewrite lookup_app_l.
    + rewrite !(proj2 (lookup_ge_None _ i)); [done|lia|]. rewrite length_app. simpl. lia.
Qed.

Lemma content_rep_room q l p : content_rep Capacity q l p -> p <> None -> Z.of_nat (length l) < Capacity.
Proof.
  destruct p as [[h [v|]]|]; [|by intros [_ ?]|done]. intros R _. apply rep_cap in R.
  rewrite length_app in R. simpl in R. lia.
Qed.

Lemma handle_lookup c s h r : rep c s -> cl_handles c !! h = Some r -> (h < sp_handles s)%nat.
Proof. intros R Hr. rewrite <- (zr_count _ _ _ R). by eapply lookup_lt_Some. Qed.

Lemma handle_get c s h : rep c s -> (h < sp_handles s)%nat -> exists r, cl_handles c !! h = Some r.
Proof. intros R Hh. apply lookup_lt_is_Some. by rewrite (zr_count _ _ _ R). Qed.

Lemma owner_live c s h v r :
  rep c s -> sp_pending s = Some (h, v) -> cl_handles c !! h = Some r ->
  r = live Capacity (cl_queue c) v.
Proof.
  intros R Hp Hr. pose proof (zr_handles _ _ _ R h r Hr) as H. unfold handle_ok in H.
  rewrite Hp in H. by rewrite decide_True in H.
Qed.

Lemma other_dead c s h r :
  rep c s -> owns_pending h s = false -> cl_handles c !! h = Some r -> dead r.
Proof.
  intros R Hp Hr. pose proof (zr_handles _ _ _ R h r Hr) as H. unfold handle_ok, owns_pending in *.
  destruct (sp_pending s) as [[h' v]|]; [|done]. case_bool_decide; [done|].
  by rewrite decide_False in H.
Qed.

(** What [cancel] does to the owner and to everyone else. *)
Lemma cancel_owner q l h v :
  content_rep Capacity q l (Some (h, v)) ->
  zc_head q = zc_tail q ⊞ Z.of_nat (length l) ->
  exists buf, ZeroCopy.cancel (live Capacity q v) q =
    Some (mkReservation false (zc_head q) None false,
          mkZc buf (zc_head q) (zc_tail q) false) /\
    represents Capacity (mkRing buf (zc_head q) (zc_tail q)) l.
Proof.
  intros R Hh. unfold ZeroCopy.cancel. destruct v as [v|]; simpl in *.
  - destruct (represents_unpush _ _ _ _ _ Hh R) as [Hs R']. unfold destroy_at. rewrite Hs. simpl.
    eexists. by split.
  - destruct R as [R _]. eexists. by split.
Qed.

Lemma cancel_dead r q : dead r -> ZeroCopy.cancel r q = Some (r, q).
Proof. intros (E & _ & _). unfold ZeroCopy.cancel. by rewrite E. Qed.
(** ** Simulation of each call *)

Definition simulates (call : zc_call T) : Prop := forall c s reply s',
  rep c s -> zc_spec_call Capacity call s = Some (reply, s') ->
  exists c', do_zc_call Capacity call c = Some (reply, c') /\ rep c' s'.

(** Handles after one of them changed. *)
Lemma handles_insert q p h r (hs : list Reservation) :
  handle_ok Capacity q p h r ->
  (forall h2 r2, h2 <> h -> hs !! h2 = Some r2 -> handle_ok Capacity q p h2 r2) ->
  forall h2 r2, <[h := r]> hs !! h2 = Some r2 -> handle_ok Capacity q p h2 r2.
Proof.
  intros H1 H2 h2 r2. rewrite list_lookup_insert. case_decide as E.
  - intros [= <-]. by destruct E as [<- _].
  - intros Hr. destruct (decide (h = h2)) as [<-|Hne]; [|by apply H2].
    apply lookup_lt_Some in Hr. naive_solver.
Qed.

Lemma handles_snoc q p r hs :
  handle_ok Capacity q p (length hs) r ->
  (forall h2 r2, hs !! h2 = Some r2 -> handle_ok Capacity q p h2 r2) ->
  forall h2 r2, (hs ++ [r]) !! h2 = Some r2 -> handle_ok Capacity q p h2 r2.
Proof.
  intros H1 H2 h2 r2 [Hr|[Hl Hr]]%lookup_app_Some; [by apply H2|].
  apply list_lookup_singleton_Some in Hr as [E <-]. by replace h2 with (length hs) by lia.
Qed.

Lemma dead_ok q h r : dead r -> handle_ok Capacity q None h r.
Proof. done. Qed.

Lemma dead_ok_other q h h' v r : h <> h' -> dead r -> handle_ok Capacity q (Some (h', v)) h r.
Proof. intros. unfold handle_ok. by rewrite decide_False. Qed.

Lemma live_ok q h v : handle_ok Capacity q (Some (h, v)) h (live Capacity q v).
Proof. unfold handle_ok. by rewrite decide_True. Qed.

Lemma dead_moved i : dead (mkReservation false i None false).
Proof. done. Qed.

Lemma not_owner_dead c s h v h2 r2 :
  rep c s -> sp_pending s = Some (h, v) -> h2 <> h -> cl_handles c !! h2 = Some r2 -> dead r2.
Proof.
  intros R Hp Hne Hr. apply (other_dead c s h2 r2 R); [|done]. unfold owns_pending. rewrite Hp.
  by apply bool_decide_eq_false.
Qed.

Lemma nobody_dead c s h2 r2 :
  rep c s -> sp_pending s = None -> cl_handles c !! h2 = Some r2 -> dead r2.
Proof. intros R Hp Hr. apply (other_dead c s h2 r2 R); [|done]. unfold owns_pending. by rewrite Hp. Qed.

Lemma sim_reserve : simulates ZcReserve.
Proof.
  intros c [l p n] reply s' R E. pose proof R as [Hc Hh Ha Ho Hn Hr]. simpl in *.
  unfold ZeroCopy.try_reserve. rewrite Ha. destruct p as [[h v]|].
  { injection E as <- <-. eexists. split; [done|]. by destruct c. }
  assert (D : zc_head (cl_queue c) ⊟ zc_tail (cl_queue c) = Z.of_nat (length l)).
  { apply (rep_distance _ _ Hc). }
  simpl. rewrite D, Z.geb_leb. pose proof (rep_cap _ _ _ Hc).
  destruct (Z.ltb_spec (Z.of_nat (length l)) Capacity);
    destruct (Z.leb_spec Capacity (Z.of_nat (length l))); try lia; injection E as <- <-.
  - rewrite Hn. eexists. split; [done|]. split; simpl; try done.
    + intros h v [= <- _]. lia.
    + rewrite length_app. simpl. lia.
    + apply handles_snoc; [rewrite Hn; apply live_ok|]. intros h2 r2 Hr2.
      apply dead_ok_other; [apply lookup_lt_Some in Hr2; lia|]. by eapply Hr.
  - eexists. split; [done|]. split; simpl; try done.
Qed.

Lemma sim_construct h v : simulates (ZcConstruct h v).
Proof.
  intros c [l p n] reply s' R. pose proof R as [Hc Hh Ha Ho Hn Hr]. simpl in *.
  unfold owns_pending. simpl. destruct p as [[h' v0]|]; [|done].
  case_bool_decide as Hb; [subst h'|done]. intros [= <- <-].
  destruct (handle_get c _ h R (Ho _ _ eq_refl)) as [r Hr0]. rewrite Hr0. simpl.
  rewrite (owner_live c _ h v0 r R eq_refl Hr0). unfold ZeroCopy.construct. simpl.
  assert (X : exists buf0, (if match v0 with Some _ => true | None => false end
      then destroy_at (zc_buffer (cl_queue c)) (slotix (zc_head (cl_queue c)))
      else Some (zc_buffer (cl_queue c))) = Some buf0 /\
      represents Capacity (mkRing buf0 (zc_head (cl_queue c)) (zc_tail (cl_queue c))) l /\
      Z.of_nat (length l) < Capacity).
  { pose proof (content_rep_room _ _ _ Hc ltac:(done)). destruct v0 as [v0|]; simpl in *.
    - destruct (represents_unpush _ _ _ _ _ Hh Hc) as [Hs R']. unfold destroy_at. rewrite Hs.
      by eexists.
    - destruct Hc as [Hc _]. by eexists. }
  destruct X as (buf0 & -> & R0 & Hlt). simpl. unfold construct_at.
  pose proof (rep_head_slot _ _ R0 Hlt) as Hraw. simpl in Hraw. rewrite Hraw. simpl.
  eexists. split; [done|]. split; simpl; try done.
  - by apply (represents_push _ _ v R0).
  - intros h2 v2 [= <- _]. by apply (Ho _ _ eq_refl).
  - by rewrite length_insert.
  - apply handles_insert; [by apply live_ok|]. intros h2 r2 Hne Hr2.
    apply dead_ok_other; [done|]. by eapply (not_owner_dead c _ h v0 h2 r2 R).
Qed.

Lemma sim_get h : simulates (ZcGet h).
Proof.
  intros c [l p n] reply s' R. pose proof R as [Hc Hh Ha Ho Hn Hr]. simpl in *.
  destruct (Nat.ltb_spec h n); [|done]. intros [= <- <-].
  destruct (handle_get c _ h R ltac:(done)) as [r Hr0]. rewrite Hr0. simpl.
  destruct (owns_pending h _) eqn:Eo.
  - unfold owns_pending in Eo. simpl in Eo. destruct p as [[h' v]|]; [|done].
    apply bool_decide_eq_true in Eo as <-. rewrite (owner_live c _ h v r R eq_refl Hr0).
    unfold ZeroCopy.get. destruct v as [v|]; simpl in *.
    + destruct (represents_unpush _ _ _ _ _ Hh Hc) as [-> _]. by eexists.
    + by eexists.
  - destruct (other_dead c _ h r R Eo Hr0) as (_ & _ & Ec). unfold ZeroCopy.get. rewrite Ec.
    by eexists.
Qed.

Lemma sim_commit h : simulates (ZcCommit h).
Proof.
  intros c [l p n] reply s' R. pose proof R as [Hc Hh Ha Ho Hn Hr]. simpl in *.
  destruct (Nat.ltb_spec h n); [simpl|done].
  destruct (handle_get c _ h R ltac:(done)) as [r Hr0]. rewrite Hr0. simpl.
  assert (No : r_queue r = false \/ r_constructed r = false ->
    exists c', (let '(b, r, q) := ZeroCopy.commit r (cl_queue c) in
      Some (ZcCommitted (T:=T) b, mkClient q (<[h := r]> (cl_handles c)))) =
      Some (ZcCommitted false, c') /\ rep c' (mkSpec l p n)).
  { intros Hrc. unfold ZeroCopy.commit. exists c. split; [|done].
    assert (E : negb (r_queue r) || negb (r_constructed r) = true).
    { destruct Hrc as [-> | ->]; simpl; [done|apply orb_true_r]. }
    rewrite E, (list_insert_id _ _ _ Hr0). by destruct c. }
  destruct (owns_pending h (mkSpec l p n)) eqn:Eo; unfold owns_pending in Eo; simpl in Eo.
  - destruct p as [[h' v]|]; [|done]. apply bool_decide_eq_true in Eo as <-.
    pose proof (owner_live c _ h v r R eq_refl Hr0) as ->. destruct v as [v|].
    + rewrite decide_True by done. intros [= <- <-]. eexists. split; [done|]. simpl in Hc.
      split; simpl; try done.
      * rewrite Hh, length_app, wrap_wrap_add_l. f_equal. simpl. lia.
      * by rewrite length_insert.
      * apply handles_insert; [by apply dead_ok|]. intros h2 r2 Hne Hr2.
        by apply dead_ok, (not_owner_dead c _ h (Some v) h2 r2 R).
    + intros [= <- <-]. by apply No; right.
  - assert (D : dead r) by (by apply (other_dead c _ h r R)). destruct D as (D & _).
    specialize (No (or_introl D)).
    destruct p as [[h' [v|]]|]; [|by intros [= <- <-]..].
    apply bool_decide_eq_false in Eo. rewrite decide_False by done. by intros [= <- <-].
Qed.

(** Giving up a reservation, by [cancel], by the destructor or by an assignment. *)
Lemma cancel_step c s h r :
  rep c s -> cl_handles c !! h = Some r ->
  exists r' q', ZeroCopy.cancel r (cl_queue c) = Some (r', q') /\ dead r' /\
    rep (mkClient q' (<[h := r']> (cl_handles c))) (release h s).
Proof.
  intros R Hr0. pose proof R as [Hc Hh Ha Ho Hn Hr]. unfold release.
  destruct (owns_pending h s) eqn:Eo.
  - unfold owns_pending in Eo. destruct (sp_pending s) as [[h' v]|] eqn:Ep; [|done].
    apply bool_decide_eq_true in Eo as <-.
    rewrite (owner_live c s h v r R Ep Hr0).
    destruct (cancel_owner _ _ _ _ Hc Hh) as (buf & -> & R'). eexists _, _.
    split; [done|]. split; [done|]. split; simpl; try done.
    + by rewrite length_insert.
    + apply handles_insert; [by apply dead_ok|]. intros h2 r2 Hne Hr2.
      by apply dead_ok, (not_owner_dead c s h v h2 r2 R).
  - pose proof (other_dead c s h r R Eo Hr0) as D. rewrite (cancel_dead _ _ D).
    eexists _, _. split; [done|]. split; [done|]. rewrite (list_insert_id _ _ _ Hr0).
    by destruct c.
Qed.

Lemma sim_cancel h : simulates (ZcCancel h).
Proof.
  intros c [l p n] reply s' R. unfold zc_spec_call, do_zc_call.
  destruct (Nat.ltb_spec h n); [|done]. intros [= <- <-].
  destruct (handle_get c _ h R ltac:(done)) as [r Hr0]. rewrite Hr0. simpl.
  destruct (cancel_step c _ h r R Hr0) as (r' & q' & -> & _ & R'). simpl. by eexists.
Qed.

(** Ownership follows the move. *)
Lemma transfer_handles c s src dst r (hs : list Reservation) n :
  rep c s -> cl_handles c !! src = Some r -> src <> dst -> owns_pending dst s = false ->
  hs !! dst = Some (ZeroCopy.move_from r).1 -> hs !! src = Some (ZeroCopy.move_from r).2 ->
  (forall h2, h2 <> src -> h2 <> dst -> hs !! h2 = cl_handles c !! h2) ->
  length hs = n -> (sp_handles s <= n)%nat ->
  rep (mkClient (cl_queue c) hs) (mkSpec (sp_content s) (transfer src dst s) n).
Proof.
  intros R Hr0 Hne Hd Hdst Hsrc Hrest Hlen Hn. pose proof R as [Hc Hh Ha Ho Hcount Hr].
  pose proof (lookup_lt_Some _ _ _ Hdst). unfold transfer.
  assert (Hothers : forall h2 r2, h2 <> src -> h2 <> dst -> hs !! h2 = Some r2 ->
    handle_ok Capacity (cl_queue c) (sp_pending s) h2 r2).
  { intros h2 r2 H1 H2. rewrite Hrest by done. apply Hr. }
  destruct (sp_pending s) as [[h v]|] eqn:Ep; (split; simpl; try done).
  - intros h2 v2 [= <- _]. destruct (decide (h = src)); [lia|]. specialize (Ho _ _ eq_refl). lia.
  - intros h2 r2 Hr2. destruct (decide (h = src)) as [->|Hns].
    + destruct (decide (h2 = dst)) as [->|]; [|apply dead_ok_other; [done|]].
      * rewrite Hdst in Hr2. injection Hr2 as <-.
        rewrite (owner_live c s src v r R Ep Hr0). apply live_ok.
      * destruct (decide (h2 = src)) as [->|Hs]; [rewrite Hsrc in Hr2; by injection Hr2 as <-|].
        rewrite Hrest in Hr2 by done. by apply (not_owner_dead c s src v h2 r2 R).
    + assert (Dr : dead r) by (by apply (not_owner_dead c s h v src r R Ep)).
      destruct (decide (h2 = src)) as [->|Hs].
      { rewrite Hsrc in Hr2. injection Hr2 as <-. by apply dead_ok_other. }
      destruct (decide (h2 = dst)) as [->|Hd2]; [|by apply Hothers].
      rewrite Hdst in Hr2. injection Hr2 as <-. apply dead_ok_other; [|done].
      unfold owns_pending in Hd. rewrite Ep in Hd. by apply bool_decide_eq_false in Hd.
  - intros h2 r2 Hr2. apply dead_ok. destruct (decide (h2 = src)) as [->|Hs].
    { rewrite Hsrc in Hr2. by injection Hr2 as <-. }
    destruct (decide (h2 = dst)) as [->|Hd2]; [|exact (Hothers h2 r2 Hs Hd2 Hr2)].
    rewrite Hdst in Hr2. injection Hr2 as <-. by apply (nobody_dead c s src r R Ep).
Qed.

Lemma sim_move_new h : simulates (ZcMoveNew h).
Proof.
  intros c s reply s' R E. pose proof (zr_count _ _ _ R) as Hn. destruct s as [l p n].
  unfold zc_spec_call in E. simpl in Hn. destruct (Nat.ltb_spec h n); [|done].
  injection E as <- <-. unfold do_zc_call.
  destruct (handle_get c _ h R ltac:(done)) as [r Hr0]. rewrite Hr0. simpl.
  eexists. split; [done|]. eapply (transfer_handles c (mkSpec l p n) h n r); simpl; try done.
  - lia.
  - unfold owns_pending. simpl. destruct p as [[h' v]|] eqn:Ep; [|done]. apply bool_decide_eq_false.
    pose proof (zr_owner _ _ _ R h' v eq_refl). simpl in *. lia.
  - by rewrite lookup_app_r, length_insert, Hn, Nat.sub_diag by (rewrite length_insert; lia).
  - rewrite lookup_app_l by (rewrite length_insert; lia). apply list_lookup_insert_eq. lia.
  - intros h2 H1 H2. destruct (decide (h2 < n)%nat).
    + rewrite lookup_app_l by (rewrite length_insert; lia). by rewrite list_lookup_insert_ne.
    + rewrite !(proj2 (lookup_ge_None _ _)); [done|lia|]. rewrite length_app, length_insert.
      simpl. lia.
  - rewrite length_app, length_insert. simpl. lia.
  - lia.
Qed.

Lemma sim_move_assign dst src : simulates (ZcMoveAssign dst src).
Proof.
  intros c s reply s' R E. pose proof (zr_count _ _ _ R) as Hn. destruct s as [l p n].
  unfold zc_spec_call in E. simpl in Hn.
  destruct (Nat.ltb_spec dst n); [|done]. destruct (Nat.ltb_spec src n); [|done].
  unfold do_zc_call. destruct (handle_get c _ dst R ltac:(done)) as [rd Hd].
  destruct (handle_get c _ src R ltac:(done)) as [rs Hs]. rewrite Hd, Hs. simpl in *.
  destruct (decide (dst = src)) as [->|Hne]; [injection E as <- <-; by eexists|].
  injection E as <- <-. unfold ZeroCopy.move_assign.
  destruct (cancel_step c _ dst rd R Hd) as (rd' & q' & -> & _ & R'). simpl.
  eexists. split; [done|].
  assert (Hn' : sp_handles (release dst (mkSpec l p n)) = n).
  { unfold release. by destruct (owns_pending _ _). }
  eapply (transfer_handles (mkClient q' (<[dst := rd']> (cl_handles c))) _ src dst rs);
    simpl; try done.
  - by rewrite list_lookup_insert_ne.
  - unfold release, owns_pending. simpl. destruct p as [[h v]|]; [|done].
    by case_bool_decide; simpl; [|apply bool_decide_eq_false].
  - rewrite list_lookup_insert_ne by done. apply list_lookup_insert_eq. lia.
  - apply list_lookup_insert_eq. rewrite length_insert. lia.
  - intros h2 H1 H2. by rewrite !list_lookup_insert_ne.
  - by rewrite !length_insert.
  - by rewrite Hn'.
Qed.

Lemma sim_consume : simulates ZcConsume.
Proof.
  intros c [l p n] reply s' R. pose proof R as [Hc Hh Ha Ho Hn Hr]. simpl in *.
  unfold ZeroCopy.try_consume.
  assert (Q : exists head, represents Capacity (ring (cl_queue c) head)
      (l ++ match p with Some (_, Some v) => [v] | _ => [] end)).
  { destruct p as [[h [v|]]|]; simpl in Hc; [by eexists|destruct Hc as [Hc _]|];
      rewrite app_nil_r; by eexists. }
  destruct Q as [head Q]. pose proof (rep_tail _ _ _ Q) as Ht. simpl in Ht.
  pose proof (rep_cap _ _ _ Q) as Hcap. rewrite length_app in Hcap.
  destruct CAP as [_ _ [_ HC]].
  assert (Hdec : (zc_tail (cl_queue c) =? zc_head (cl_queue c)) = bool_decide (l = [])).
  { rewrite Hh. destruct (Z.eqb_spec (zc_tail (cl_queue c))
      (zc_tail (cl_queue c) ⊞ Z.of_nat (length l))) as [E|E]; case_bool_decide as Hl; try done.
    - rewrite <- (wrap_id 64 (zc_tail (cl_queue c))) in E at 1 by done. symmetry in E.
      apply wrap_eq_iff in E; [|lia|split; lia]. by destruct l; [|simpl in E; lia].
    - subst l. simpl in E. rewrite Z.add_0_r, wrap_id in E by done. done. }
  rewrite Hdec. destruct l as [|v l]; simpl.
  { intros [= <- <-]. eexists. split; [done|]. by destruct c. }
  intros [= <- <-]. unfold move_out. pose proof (rep_tail_slot _ _ _ Q) as Hslot. simpl in Hslot.
  rewrite Hslot. simpl. unfold destroy_at. pose proof (rep_len _ _ _ Q) as Hlen. simpl in Hlen.
  rewrite list_lookup_insert_eq.
  2: { pose proof (slot_index_bound (Capacity:=Capacity) (zc_tail (cl_queue c))). lia. }
  simpl. rewrite list_insert_insert_eq. eexists. split; [done|].
  split; simpl; try done.
  - destruct p as [[h [v0|]]|]; simpl in *.
    + apply (represents_pop _ _ _ Hc).
    + destruct Hc as [Hc Hlt]. split; [apply (represents_pop _ _ _ Hc)|]. lia.
    + apply (represents_pop _ _ _ Hc).
  - rewrite Hh, wrap_wrap_add_l. f_equal. simpl. lia.
Qed.

Lemma zc_call_simulates call : simulates call.
Proof.
  destruct call; [apply sim_reserve|apply sim_construct|apply sim_get|apply sim_commit
    |apply sim_cancel|apply sim_move_new|apply sim_move_assign|apply sim_consume].
Qed.

Lemma zc_calls_simulate calls : forall c s rs s',
  rep c s -> zc_spec_calls Capacity calls s = Some (rs, s') ->
  exists c', do_zc_calls Capacity calls c = Some (rs, c') /\ rep c' s'.
Proof.
  induction calls as [|call calls IH]; intros c s rs s' R; simpl.
  { intros [= <- <-]. by eexists. }
  destruct (zc_spec_call Capacity call s) as [[r1 s1]|] eqn:E1; [simpl|done].
  destruct (zc_spec_calls Capacity calls s1) as [[rs1 s2]|] eqn:E2; [simpl|done].
  intros [= <- <-]. destruct (zc_call_simulates call c s r1 s1 R E1) as (c1 & -> & R1). simpl.
  destruct (IH c1 s1 rs1 s2 R1 E2) as (c2 & -> & R2). simpl. by eexists.
Qed.

Lemma zc_init_rep : zc_rep (T:=T) Capacity (mkClient (ZeroCopy.init Capacity) []) (mkSpec [] None 0).
Proof.
  split; simpl; try done. apply (represents_init (Capacity:=Capacity)).
Qed.

Lemma zc_destroy_raw c s fuel :
  rep c s -> sp_pending s = None -> (length (sp_content s) <= fuel)%nat ->
  ZeroCopy.destroy_remaining Capacity fuel (cl_queue c) =
    Done (replicate (Z.to_nat Capacity) Raw).
Proof.
  intros R Hp Hf. pose proof (zr_content _ _ _ R) as Hc. rewrite Hp in Hc.
  exact (destroy_remaining_raw _ _ fuel Hc Hf).
Qed.
End ZcProofs.

(** ** Properties *)

(** C9. The reservation protocol.  Any client of a new queue that constructs
    only through a reservation it holds, moving, committing, cancelling and
    destroying reservation objects at will and consuming in between, meets no
    undefined behaviour and gets the replies of the specification: one reservation
    at a time, an element is visible exactly when it is committed, first in first
    out; and with no reservation pending the destructor ends every lifetime. *)
Theorem zero_copy_refines (T : Type) (Capacity : Z) (CAP : CapacityOk Capacity)
    (calls : list (zc_call T)) (rs : list (zc_reply T)) (s : zc_spec T) :
  zc_spec_calls Capacity calls (mkSpec [] None 0) = Some (rs, s) ->
  exists c, do_zc_calls Capacity calls (mkClient (ZeroCopy.init Capacity) []) = Some (rs, c) /\
    zc_rep Capacity c s /\
    (sp_pending s = None ->
     ZeroCopy.destroy_remaining Capacity (length (sp_content s)) (cl_queue c) =
       Done (replicate (Z.to_nat Capacity) Raw)).
Proof.
  intros E. destruct (zc_calls_simulate calls _ _ rs s zc_init_rep E) as (c & Ec & R).
  exists c. split_and!; [done|done|]. intros Hp. by apply (zc_destroy_raw c s).
Qed.

(** Reserve, construct twice, move the reservation, commit through the new object
    (and in vain through the old one), reserve and cancel, then consume twice. *)
Definition toy_zc_calls : list (zc_call nat) :=
  [ZcReserve; ZcReserve; ZcConstruct 0 5; ZcConstruct 0 6; ZcMoveNew 0; ZcCommit 0; ZcGet 1;
   ZcCommit 1; ZcReserve; ZcConstruct 2 7; ZcCancel 2; ZcConsume; ZcConsume]%nat.

Lemma zero_copy_refines_witness :
  exists c, do_zc_calls 2 toy_zc_calls (mkClient (ZeroCopy.init 2) []) =
    Some ([ZcReserved (Some 0); ZcReserved None; ZcDone; ZcDone; ZcDone; ZcCommitted false;
           ZcGot (Some 6); ZcCommitted true; ZcReserved (Some 2); ZcDone; ZcDone;
           ZcConsumed (Some 6); ZcConsumed None]%nat, c) /\
    zc_rep 2 c (mkSpec [] None 3) /\
    (sp_pending (mkSpec (T:=nat) [] None 3) = None ->
     ZeroCopy.destroy_remaining 2 0 (cl_queue c) = Done [Raw; Raw]).
Proof.
  apply (zero_copy_refines nat 2 CapacityOk_2 toy_zc_calls). vm_compute. reflexivity.
Defined.
