(* ===== verification/ZeroCopyConcurrent.v ===== *)
(** * The zero-copy queue under concurrent producers and a consumer

    The multi-threaded executions of zero_copy_spsc.hpp on a release/acquire
    memory.  As in SpscConcurrent.v an atomic location keeps the history of its
    stores and a load may return any store that coherence allows.  Here knowledge is
    the set of slot accesses that happen before the present, so that any number of
    threads fits: an access to a slot whose previous access is not known to the
    thread is a data race.  The header asks for one producer; the machine allows any
    number of them, which is what the reservation flag is able to protect. *)

From stdpp Require Import gmap.
From S2P Require Import Prelude Spsc SpscConcurrent.

(** ** Memory *)

Inductive zloc : Set := ZHead | ZTail | ZFlag.

(** The latest store a thread must observe at each location, and the slot accesses
    that happen before. *)
Record know : Type := mkKnow { k_head : nat; k_tail : nat; k_flag : nat; k_seen : gset nat }.

Definition know_bot : know := mkKnow 0 0 0 ∅.
Definition know_join (a b : know) : know :=
  mkKnow (k_head a `max` k_head b) (k_tail a `max` k_tail b) (k_flag a `max` k_flag b)
    (k_seen a ∪ k_seen b).

Definition zstamp (x : zloc) (K : know) : nat :=
  match x with ZHead => k_head K | ZTail => k_tail K | ZFlag => k_flag K end.
Definition set_zstamp (x : zloc) (k : nat) (K : know) : know :=
  match x with
  | ZHead => mkKnow k (k_tail K) (k_flag K) (k_seen K)
  | ZTail => mkKnow (k_head K) k (k_flag K) (k_seen K)
  | ZFlag => mkKnow (k_head K) (k_tail K) k (k_seen K)
  end.

Record message : Type := mkMsg { m_val : Z; m_know : know }.

(** Load of the [k]-th store of [x]. *)
Definition zload (o : memory_order) (x : zloc) (k : nat) (hist : list message) (K : know)
    : option (Z * know) :=
  if (k <? zstamp x K)%nat then None
  else
    m ← hist !! k;
    Some (m_val m,
          know_join (set_zstamp x k K) (match o with acquire => m_know m | _ => know_bot end)).

(** A store by a thread that has observed the latest one: it can only come last in
    the modification order.  [None]: the order of the two stores would be open. *)
Definition zstore (o : memory_order) (x : zloc) (z : Z) (hist : list message) (K : know)
    : option (list message * know) :=
  if (S (zstamp x K) =? length hist)%nat then
    let K' := set_zstamp x (length hist) K in
    Some (hist ++ [mkMsg z (match o with
                            | release => K'
                            | _ => set_zstamp x (length hist) know_bot
                            end)], K')
  else None.

(** [compare_exchange_strong(expected = false, true, acq_rel, acquire)] on the flag.
    It succeeds on the latest store only; a failure may read an older one. *)
Inductive cas_result : Type :=
  | CasDone (hist : list message) (K : know)
  | CasFailed (K : know)
  | CasUnreadable.
Definition zcas (k : nat) (hist : list message) (K : know) : cas_result :=
  match zload acquire ZFlag k hist K with
  | None => CasUnreadable
  | Some (z, K1) =>
      if z =? 0 then
        if (S k =? length hist)%nat then
          let K2 := set_zstamp ZFlag (length hist) K1 in
          CasDone (hist ++ [mkMsg 1 K2]) K2
        else CasUnreadable
      else CasFailed K1
  end.

(** A slot and the number of its last access. *)
Record zcell (T : Type) : Type := mkZcell { zc_slot : slot T; zc_last : option nat }.
Arguments mkZcell {T} _ _.
Arguments zc_slot {T} _.
Arguments zc_last {T} _.

(** Access number [clock]: [None] is a data race or a lifetime error. *)
Definition zaccess {T A} (j : nat) (op : slot T -> option (A * slot T)) (clock : nat)
    (cells : list (zcell T)) (K : know) : option (A * list (zcell T) * know) :=
  c ← cells !! j;
  if match zc_last c with None => false | Some a => negb (bool_decide (a ∈ k_seen K)) end then None
  else
    '(a, s) ← op (zc_slot c);
    Some (a, <[j := mkZcell s (Some clock)]> cells,
          mkKnow (k_head K) (k_tail K) (k_flag K) (k_seen K ∪ {[clock]})).

(** ** The threads *)

Section ZMachine.
Context {T : Type} (Capacity : Z).

(** What a producer asks for next. *)
Inductive request : Type := RqReserve | RqConstruct (v : T) | RqCommit | RqCancel.

(** Program points of a producer.  [ZHeld] is between calls with a live reservation
    for [index] whose slot holds [built], if constructed. *)
Inductive zpc : Type :=
  | ZIdle
  | ZCas                                          (** [try_reserve] *)
  | ZLoadHead
  | ZLoadTail (head : Z)
  | ZTest (head tail : Z)
  | ZGiveUp
  | ZHeld (index : Z) (built : option T)
  | ZCasHeld (index : Z) (built : option T)       (** [try_reserve] while holding *)
  | ZRebuild (index : Z) (old v : T)              (** [construct] over an object *)
  | ZConstruct (index : Z) (v : T)
  | ZPublish (index : Z) (v : T)                  (** [commit] *)
  | ZRelease
  | ZDrop (index : Z) (v : T)                     (** [cancel] *)
  | ZCancelFlag.

Record zstate : Type := mkZstate {
  z_head : list message;
  z_tail : list message;
  z_flag : list message;
  z_cells : list (zcell T);
  z_clock : nat;
  z_prods : list (zpc * know);
  z_cpc : consumer_pc (T:=T);
  z_cknow : know }.

Definition zstate_init (producers : nat) : zstate :=
  mkZstate [mkMsg 0 know_bot] [mkMsg 0 know_bot] [mkMsg 0 know_bot]
    (replicate (Z.to_nat Capacity) (mkZcell Raw None)) 0 (replicate producers (ZIdle, know_bot))
    CIdle know_bot.

(** What a call reports.  [Committed] is reported when [head_] is stored. *)
Inductive zevent : Type :=
  | Reserved (i : nat) | Busy (i : nat) | Full (i : nat) | Constructed (i : nat) (v : T)
  | Committed (i : nat) (v : T) | Refused (i : nat) | Cancelled (i : nat)
  | Consumed (v : T) | ConsumeEmpty.

Inductive zresult : Type :=
  | ZStep (e : option zevent) (s : zstate)
  | ZUndefined
  | ZBlocked.  (** a load that coherence forbids, or a call that the contract forbids *)

Definition set_prod (i : nat) (pc : zpc) (K : know) (s : zstate) : zstate :=
  mkZstate (z_head s) (z_tail s) (z_flag s) (z_cells s) (z_clock s) (<[i := (pc, K)]> (z_prods s))
    (z_cpc s) (z_cknow s).
Definition set_cons (pc : consumer_pc) (K : know) (s : zstate) : zstate :=
  mkZstate (z_head s) (z_tail s) (z_flag s) (z_cells s) (z_clock s) (z_prods s) pc K.
Definition set_zhead (h : list message) (s : zstate) : zstate :=
  mkZstate h (z_tail s) (z_flag s) (z_cells s) (z_clock s) (z_prods s) (z_cpc s) (z_cknow s).
Definition set_ztail (h : list message) (s : zstate) : zstate :=
  mkZstate (z_head s) h (z_flag s) (z_cells s) (z_clock s) (z_prods s) (z_cpc s) (z_cknow s).
Definition set_zflag (h : list message) (s : zstate) : zstate :=
  mkZstate (z_head s) (z_tail s) h (z_cells s) (z_clock s) (z_prods s) (z_cpc s) (z_cknow s).
Definition set_zcells (cs : list (zcell T)) (s : zstate) : zstate :=
  mkZstate (z_head s) (z_tail s) (z_flag s) cs (S (z_clock s)) (z_prods s) (z_cpc s) (z_cknow s).

(** A store, and what is undefined about it. *)
Definition store_flag (i : nat) (e : option zevent) (K : know) (s : zstate) : zresult :=
  match zstore release ZFlag 0 (z_flag s) K with
  | Some (h, K) => ZStep e (set_prod i ZIdle K (set_zflag h s))
  | None => ZUndefined
  end.

(** A slot access of producer [i]. *)
Definition prod_access {A} (i : nat) (index : Z) (op : slot T -> option (A * slot T)) (e : option zevent)
    (pc : zpc) (K : know) (s : zstate) : zresult :=
  match zaccess (slot_index Capacity index) op (z_clock s) (z_cells s) K with
  | Some (_, cs, K) => ZStep e (set_prod i pc K (set_zcells cs s))
  | None => ZUndefined
  end.

(** One step of producer [i]: [k] resolves a load, [rq] is the next call. *)
Definition zproducer_step (i k : nat) (rq : request) (s : zstate) : zresult :=
  match z_prods s !! i with
  | None => ZBlocked
  | Some (pc, K) =>
      match pc with
      | ZIdle =>
          match rq with
          | RqReserve => ZStep None (set_prod i ZCas K s)
          | RqConstruct _ => ZBlocked
          | RqCommit => ZStep (Some (Refused i)) s
          | RqCancel => ZStep None s
          end
      | ZCas =>
          match zcas k (z_flag s) K with
          | CasDone h K => ZStep None (set_prod i ZLoadHead K (set_zflag h s))
          | CasFailed K => ZStep (Some (Busy i)) (set_prod i ZIdle K s)
          | CasUnreadable => ZBlocked
          end
      | ZLoadHead =>
          match zload relaxed ZHead k (z_head s) K with
          | Some (head, K) => ZStep None (set_prod i (ZLoadTail head) K s)
          | None => ZBlocked
          end
      | ZLoadTail head =>
          match zload acquire ZTail k (z_tail s) K with
          | Some (tail, K) => ZStep None (set_prod i (ZTest head tail) K s)
          | None => ZBlocked
          end
      | ZTest head tail =>
          if head ⊟ tail >=? Capacity then ZStep None (set_prod i ZGiveUp K s)
          else ZStep (Some (Reserved i)) (set_prod i (ZHeld head None) K s)
      | ZGiveUp => store_flag i (Some (Full i)) K s
      | ZHeld index built =>
          match rq, built with
          | RqReserve, _ => ZStep None (set_prod i (ZCasHeld index built) K s)
          | RqConstruct v, None => ZStep None (set_prod i (ZConstruct index v) K s)
          | RqConstruct v, Some old => ZStep None (set_prod i (ZRebuild index old v) K s)
          | RqCommit, None => ZStep (Some (Refused i)) s
          | RqCommit, Some v => ZStep None (set_prod i (ZPublish index v) K s)
          | RqCancel, None => ZStep None (set_prod i ZCancelFlag K s)
          | RqCancel, Some v => ZStep None (set_prod i (ZDrop index v) K s)
          end
      | ZCasHeld index built =>
          match zcas k (z_flag s) K with
          | CasDone _ _ => ZUndefined   (** a second reservation next to the first *)
          | CasFailed K => ZStep (Some (Busy i)) (set_prod i (ZHeld index built) K s)
          | CasUnreadable => ZBlocked
          end
      | ZRebuild index old v => prod_access i index slot_destroy None (ZConstruct index v) K s
      | ZConstruct index v =>
          prod_access i index (slot_construct v) (Some (Constructed i v)) (ZHeld index (Some v)) K s
      | ZPublish index v =>
          match zstore release ZHead (index ⊞ 1) (z_head s) K with
          | Some (h, K) => ZStep (Some (Committed i v)) (set_prod i ZRelease K (set_zhead h s))
          | None => ZUndefined
          end
      | ZRelease => store_flag i None K s
      | ZDrop index v => prod_access i index slot_destroy None ZCancelFlag K s
      | ZCancelFlag => store_flag i (Some (Cancelled i)) K s
      end
  end.

(** One step of the consumer inside [try_consume]. *)
Definition zconsumer_step (k : nat) (s : zstate) : zresult :=
  match z_cpc s with
  | CIdle => ZStep None (set_cons CLoadTail (z_cknow s) s)
  | CLoadTail =>
      match zload relaxed ZTail k (z_tail s) (z_cknow s) with
      | Some (tail, K) => ZStep None (set_cons (CLoadHead tail) K s)
      | None => ZBlocked
      end
  | CLoadHead tail =>
      match zload acquire ZHead k (z_head s) (z_cknow s) with
      | Some (head, K) => ZStep None (set_cons (CTest tail head) K s)
      | None => ZBlocked
      end
  | CTest tail head =>
      if tail =? head then ZStep (Some ConsumeEmpty) (set_cons CIdle (z_cknow s) s)
      else ZStep None (set_cons (CMove tail) (z_cknow s) s)
  | CMove tail =>
      match zaccess (slot_index Capacity tail) slot_move (z_clock s) (z_cells s) (z_cknow s) with
      | Some (out, cs, K) => ZStep None (set_cons (CDestroy tail out) K (set_zcells cs s))
      | None => ZUndefined
      end
  | CDestroy tail out =>
      match zaccess (slot_index Capacity tail) slot_destroy (z_clock s) (z_cells s) (z_cknow s) with
      | Some (_, cs, K) => ZStep None (set_cons (CStoreTail tail out) K (set_zcells cs s))
      | None => ZUndefined
      end
  | CStoreTail tail out =>
      match zstore release ZTail (tail ⊞ 1) (z_tail s) (z_cknow s) with
      | Some (h, K) => ZStep (Some (Consumed out)) (set_cons CIdle K (set_ztail h s))
      | None => ZUndefined
      end
  end.

Inductive zmove : Type := ZMoveP (i k : nat) (rq : request) | ZMoveC (k : nat).
Definition do_zmove (m : zmove) (s : zstate) : zresult :=
  match m with ZMoveP i k rq => zproducer_step i k rq s | ZMoveC k => zconsumer_step k s end.

Inductive zexec (producers : nat) : list zevent -> zstate -> Prop :=
  | zexec_init : zexec producers [] (zstate_init producers)
  | zexec_step tr s m e s' :
      zexec producers tr s -> do_zmove m s = ZStep e s' ->
      zexec producers (tr ++ match e with Some e => [e] | None => [] end) s'.

(** ** The specification: a bounded FIFO with one reservation *)

(** Where the owner of the lock is: inside [try_reserve], with a reservation and what is
    constructed in it, inside [construct], after the commit, inside [cancel]. *)
Inductive phase : Type := Taken | Held (built : option T) | Building | Published | Cancelling.

(** All values ever committed, the number of them that are consumed, how often the lock has changed
    hands (it is free after an even number of turns), and its owner. *)
Record zqueue : Type := mkZqueue {
  zq_committed : list T;
  zq_consumed : nat;
  zq_turns : nat;
  zq_lock : option (nat * phase) }.
Definition zqueue_init : zqueue := mkZqueue [] 0 0 None.
Definition zq_content (q : zqueue) : list T := drop (zq_consumed q) (zq_committed q).

(** What is known: to the owners of the lock, one after the other, the number of values
    consumed; to the consumer the number of values committed; to each producer the turns of the lock. *)
Record zknown : Type := mkZknown { zk_consumed : nat; zk_committed : nat; zk_turns : nat -> nat }.

(** Knowledge grows, and is about what has happened. *)
Definition zlearn (q : zqueue) (V V' : zknown) : Prop :=
  (zk_consumed V <= zk_consumed V' <= zq_consumed q)%nat /\
  (zk_committed V <= zk_committed V' <= length (zq_committed q))%nat /\
  forall i, (zk_turns V i <= zk_turns V' i <= zq_turns q)%nat.

(** What a step of a thread does, with the knowledge before and after it.  [Busy] means a
    turn in which the lock was taken that the producer did not know to be over; [Full] and
    [Reserved] are decided by the values known to be consumed, [ConsumeEmpty] and
    [Consumed] by those known to be committed. *)
Inductive zeffect (V V' : zknown) : zqueue -> option zevent -> zqueue -> Prop :=
  | ze_none q : zeffect V V' q None q
  | ze_take c n t i : zeffect V V' (mkZqueue c n t None) None (mkZqueue c n (S t) (Some (i, Taken)))
  | ze_busy q i k :
      Nat.odd k = true -> (zk_turns V i <= k <= zk_turns V' i)%nat -> zeffect V V' q (Some (Busy i)) q
  | ze_full c n t i :
      Z.of_nat (length c) = Z.of_nat (zk_consumed V') + Capacity ->
      zeffect V V' (mkZqueue c n t (Some (i, Taken))) (Some (Full i)) (mkZqueue c n (S t) None)
  | ze_reserved c n t i :
      Z.of_nat (length c) < Z.of_nat (zk_consumed V') + Capacity ->
      zeffect V V' (mkZqueue c n t (Some (i, Taken))) (Some (Reserved i)) (mkZqueue c n t (Some (i, Held None)))
  | ze_build c n t i b :
      zeffect V V' (mkZqueue c n t (Some (i, Held b))) None (mkZqueue c n t (Some (i, Building)))
  | ze_constructed c n t i v :
      zeffect V V' (mkZqueue c n t (Some (i, Building))) (Some (Constructed i v))
        (mkZqueue c n t (Some (i, Held (Some v))))
  | ze_committed c n t i v :
      Z.of_nat (length c) < Z.of_nat (zk_consumed V') + Capacity ->
      zeffect V V' (mkZqueue c n t (Some (i, Held (Some v)))) (Some (Committed i v))
        (mkZqueue (c ++ [v]) n t (Some (i, Published)))
  | ze_release c n t i :
      zeffect V V' (mkZqueue c n t (Some (i, Published))) None (mkZqueue c n (S t) None)
  | ze_refused q i :
      zq_lock q = Some (i, Held None) \/ (forall ph, zq_lock q <> Some (i, ph)) ->
      zeffect V V' q (Some (Refused i)) q
  | ze_drop c n t i b :
      zeffect V V' (mkZqueue c n t (Some (i, Held b))) None (mkZqueue c n t (Some (i, Cancelling)))
  | ze_cancelled c n t i :
      zeffect V V' (mkZqueue c n t (Some (i, Cancelling))) (Some (Cancelled i)) (mkZqueue c n (S t) None)
  | ze_consumed c n t o v :
      (n < zk_committed V')%nat -> c !! n = Some v ->
      zeffect V V' (mkZqueue c n t o) (Some (Consumed v)) (mkZqueue c (S n) t o)
  | ze_empty c n t o :
      n = zk_committed V' -> zeffect V V' (mkZqueue c n t o) (Some ConsumeEmpty) (mkZqueue c n t o).

Inductive zrun : list zevent -> zqueue -> zknown -> Prop :=
  | zrun_nil V : zlearn zqueue_init V V -> zrun [] zqueue_init V
  | zrun_step tr q V e q' V' :
      zrun tr q V -> zlearn q' V V' -> zeffect V V' q e q' ->
      zrun (tr ++ match e with Some e => [e] | None => [] end) q' V'.

(** A producer that is past its compare-exchange and has not released the flag. *)
Definition holding (pc : zpc) : bool := match pc with ZIdle | ZCas => false | _ => true end.
End ZMachine.

(** ** The invariant *)

(** [pushed] holds all values ever committed, [n] of them are consumed.  [h] is the
    producer that holds the flag, [hp] its program point, and [Kh] what is known on
    the producer side: the knowledge of the holder, or what the last release of the
    flag published. *)
Section ZInvariant.
Context {T : Type} {Capacity : Z} {CAP : CapacityOk Capacity}.
Implicit Types (s : zstate (T:=T)) (pushed : list T) (n i j k : nat) (K Kh : know) (m : message)
  (h : option nat) (hp pc : zpc (T:=T)).
Abbreviation C := (Z.to_nat Capacity).

Definition seen m : gset nat := k_seen (m_know m).

(** Knowledge stays within the history, and an observed tail store brings with it
    what that store published. *)
Record kok (H n F : nat) (tl : list message) K : Prop := {
  kok_head : (k_head K <= H)%nat;
  kok_tail : (k_tail K <= n)%nat;
  kok_flag : (k_flag K < F)%nat;
  kok_closed k m : (k <= k_tail K)%nat -> tl !! k = Some m -> seen m ⊆ k_seen K }.

Definition built pc : option T :=
  match pc with
  | ZHeld _ o | ZCasHeld _ o => o
  | ZRebuild _ v _ | ZPublish _ v | ZDrop _ v => Some v
  | _ => None
  end.

Definition holder_inv pc K (H : nat) : Prop :=
  match pc with
  | ZIdle | ZCas => False
  | ZLoadHead | ZRelease | ZCancelFlag => True
  | ZGiveUp => H = (k_tail K + C)%nat
  | ZLoadTail head => head = wrap 64 (Z.of_nat H)
  | ZTest head tail => head = wrap 64 (Z.of_nat H) /\ tail = wrap 64 (Z.of_nat (k_tail K))
  | ZHeld x _ | ZCasHeld x _ | ZRebuild x _ _ | ZConstruct x _ | ZPublish x _ | ZDrop x _ =>
      x = wrap 64 (Z.of_nat H) /\ (H < k_tail K + C)%nat
  end.

Definition zconsumer_inv (pc : consumer_pc (T:=T)) K pushed n : Prop :=
  match pc with
  | CIdle | CLoadTail => True
  | CLoadHead t => t = wrap 64 (Z.of_nat n)
  | CTest t x => t = wrap 64 (Z.of_nat n) /\ x = wrap 64 (Z.of_nat (k_head K))
  | CMove t => t = wrap 64 (Z.of_nat n) /\ (n < k_head K)%nat
  | CDestroy t out | CStoreTail t out =>
      t = wrap 64 (Z.of_nat n) /\ (n < k_head K)%nat /\ pushed !! n = Some out
  end.

Definition zfree_slot pc (H i : nat) : slot T :=
  if decide (i = H) then match built pc with Some v => Live v | None => Raw end else Raw.

(** The slot of position [i], and who knows its last access. *)
Definition zcell_inv s pushed n hp Kh i (c : zcell T) : Prop :=
  match pushed !! i with
  | Some x =>
      zc_slot c = queued_slot (z_cpc s) n i x /\
      forall a, zc_last c = Some a -> forall k m, (i < k)%nat -> z_head s !! k = Some m ->
        a ∈ seen m ∪ k_seen (z_cknow s)
  | None =>
      zc_slot c = zfree_slot hp (length pushed) i /\
      forall a, zc_last c = Some a -> forall k m, (i < k + C)%nat -> z_tail s !! k = Some m ->
        a ∈ seen m ∪ k_seen Kh
  end.

Definition hist_ok (F : know -> nat) (hist : list message) : Prop :=
  forall k m, hist !! k = Some m ->
    m_val m = wrap 64 (Z.of_nat k) /\ (F (m_know m) <= k)%nat /\
    forall k' m', (k' <= k)%nat -> hist !! k' = Some m' -> seen m' ⊆ seen m.

Record zinv s pushed n h hp Kh : Prop := {
  zi_head_len : length (z_head s) = S (length pushed);
  zi_tail_len : length (z_tail s) = S n;
  zi_head : hist_ok k_head (z_head s);
  zi_tail : hist_ok k_tail (z_tail s);
  zi_msg m : m ∈ z_head s ++ z_tail s ++ z_flag s ->
    kok (length pushed) n (length (z_flag s)) (z_tail s) (m_know m);
  zi_flag k m : z_flag s !! k = Some m -> (k_flag (m_know m) <= k)%nat /\ m_val m = Z.b2z (Nat.odd k);
  zi_flag_last : exists fl m, z_flag s = fl ++ [m] /\
    match h with Some _ => m_val m = 1 | None => m_val m = 0 /\ m_know m = Kh end;
  zi_holder : match h with
              | Some i => z_prods s !! i = Some (hp, Kh) /\ holder_inv hp Kh (length pushed) /\
                          S (k_flag Kh) = length (z_flag s)
              | None => hp = ZIdle
              end;
  zi_prods j pc K : z_prods s !! j = Some (pc, K) ->
    kok (length pushed) n (length (z_flag s)) (z_tail s) K /\ (h <> Some j -> holding pc = false);
  zi_Kh : kok (length pushed) n (length (z_flag s)) (z_tail s) Kh /\
    k_head Kh = length pushed /\ (length pushed <= k_tail Kh + C)%nat /\
    forall m, m ∈ z_head s -> seen m ⊆ k_seen Kh;
  zi_cons : kok (length pushed) n (length (z_flag s)) (z_tail s) (z_cknow s) /\
    k_tail (z_cknow s) = n /\ (n <= k_head (z_cknow s))%nat /\
    forall k m, (k <= k_head (z_cknow s))%nat -> z_head s !! k = Some m ->
      seen m ⊆ k_seen (z_cknow s);
  zi_cpc : zconsumer_inv (z_cpc s) (z_cknow s) pushed n;
  zi_cells_len : length (z_cells s) = C;
  zi_cells i : (n <= i < n + C)%nat ->
    exists c, z_cells s !! slot_index Capacity (Z.of_nat i) = Some c /\
              zcell_inv s pushed n hp Kh i c }.

Lemma zinv_init producers : zinv (zstate_init Capacity producers) [] 0 None ZIdle know_bot.
Proof.
  pose proof (C_bounds (Capacity:=Capacity)) as (? & ? & ?).
  assert (K0 : kok 0 0 1 [mkMsg 0 know_bot] know_bot).
  { split; simpl; try lia. intros [|k] m Hk; simpl; [|lia]. by intros [= <-]. }
  assert (L : forall k m, [mkMsg 0 know_bot] !! k = Some m -> k = 0%nat /\ m = mkMsg 0 know_bot).
  { intros [|k] m; simpl; [by intros [= <-]|]. by rewrite lookup_nil. }
  assert (HO : forall F, F know_bot = 0%nat -> hist_ok F [mkMsg 0 know_bot]).
  { intros F E k m [-> ->]%L. split_and!; [done|simpl; lia|]. by intros k' m' ? [-> ->]%L. }
  split; simpl; try done; try lia; try by apply HO.
  - intros m. rewrite !elem_of_cons. intros [->|[->|[->|?%not_elem_of_nil]]]; done.
  - intros k m [-> ->]%L. simpl. split; [lia|done].
  - by exists [], (mkMsg 0 know_bot).
  - intros j pc K [[= -> ->] _]%lookup_replicate. done.
  - split_and!; try done; try lia. by intros m ->%list_elem_of_singleton.
  - split_and!; try done; try lia. by intros k m _ [-> ->]%L.
  - by rewrite length_replicate.
  - intros i Hi. exists (mkZcell Raw None). split.
    + apply lookup_replicate. split; [done|].
      pose proof (slot_index_bound (Capacity:=Capacity) (Z.of_nat i)). lia.
    + unfold zcell_inv. rewrite lookup_nil. simpl. split; [|done].
      unfold zfree_slot. by case_decide.
Qed.


(** *** Knowledge *)

Lemma zload_inv o x k hist K z K' :
  zload o x k hist K = Some (z, K') ->
  (zstamp x K <= k)%nat /\ exists m, hist !! k = Some m /\ z = m_val m /\
  K' = know_join (set_zstamp x k K) (match o with acquire => m_know m | _ => know_bot end).
Proof.
  unfold zload. destruct (Nat.ltb_spec k (zstamp x K)); [done|].
  destruct (hist !! k) as [m|] eqn:E; simpl; [|done].
  intros [= <- <-]. eauto 6.
Qed.

Lemma kok_join H n F tl K1 K2 :
  kok H n F tl K1 -> kok H n F tl K2 -> kok H n F tl (know_join K1 K2).
Proof.
  intros [? ? ? C1] [? ? ? C2]. split; simpl; try lia. intros k m Hk Hm.
  destruct (decide (k <= k_tail K1)%nat); [specialize (C1 k m)|specialize (C2 k m)];
    [set_solver|]. assert (k <= k_tail K2)%nat by lia. set_solver.
Qed.

Lemma kok_bot H n F tl K : kok H n F tl K -> kok H n F tl (know_join K know_bot).
Proof.
  intros [? ? ? CL]. split; simpl; try lia. intros k m Hk Hm.
  specialize (CL k m ltac:(lia) Hm). set_solver.
Qed.

Lemma kok_head_stamp H n F tl K k :
  (k <= H)%nat -> kok H n F tl K -> kok H n F tl (set_zstamp ZHead k K).
Proof. intros ? []. by split. Qed.

Lemma kok_flag_stamp H n F tl K k :
  (k < F)%nat -> kok H n F tl K -> kok H n F tl (set_zstamp ZFlag k K).
Proof. intros ? []. by split. Qed.

(** An acquire load of the tail. *)
Lemma kok_tail_load H n F tl K k m :
  (k <= n)%nat -> hist_ok k_tail tl -> tl !! k = Some m -> kok H n F tl (m_know m) ->
  kok H n F tl K -> kok H n F tl (know_join (set_zstamp ZTail k K) (m_know m)).
Proof.
  intros Hk HO Hm [] [? ? ? CL]. destruct (HO k m Hm) as (_ & ? & Mono).
  split; simpl; try lia. intros k' m' Hk' Hm'.
  pose proof (Mono k' m' ltac:(lia) Hm'). unfold seen in *. set_solver.
Qed.

(** Histories and bounds only grow. *)
Lemma kok_mono H n F tl H' n' F' tl' K :
  (H <= H')%nat -> (n <= n')%nat -> (F <= F')%nat ->
  (forall k m, (k <= n)%nat -> tl' !! k = Some m -> tl !! k = Some m) ->
  kok H n F tl K -> kok H' n' F' tl' K.
Proof.
  intros ? ? ? E [? ? ? CL]. split; try lia. intros k m Hk Hm. apply (CL k m Hk).
  apply E; [lia|done].
Qed.

Lemma kok_see H n F tl K a :
  kok H n F tl K -> kok H n F tl (mkKnow (k_head K) (k_tail K) (k_flag K) (k_seen K ∪ {[a]})).
Proof.
  intros [? ? ? CL]. split; try done. intros k m Hk Hm. specialize (CL k m Hk Hm). set_solver.
Qed.

Lemma union_grow (a : nat) (X Y Y' : gset nat) : Y ⊆ Y' -> a ∈ X ∪ Y -> a ∈ X ∪ Y'.
Proof. set_solver. Qed.

(** *** Steps that change one thread only *)

Lemma zcell_inv_mono s s' pushed n hp hp' Kh Kh' i c :
  z_head s' = z_head s -> z_tail s' = z_tail s -> z_cpc s' = z_cpc s ->
  k_seen (z_cknow s) ⊆ k_seen (z_cknow s') -> k_seen Kh ⊆ k_seen Kh' -> built hp' = built hp ->
  zcell_inv s pushed n hp Kh i c -> zcell_inv s' pushed n hp' Kh' i c.
Proof.
  intros E1 E2 E3 M1 M2 E4. unfold zcell_inv, zfree_slot. rewrite E1, E2, E3, E4.
  destruct (pushed !! i); intros [-> HK]; (split; [done|]); intros a Ha k m Hk Hm;
    (eapply union_grow; [|by eapply HK]); done.
Qed.

Lemma zinv_set_holder s pushed n j hp Kh hp' Kh' :
  zinv s pushed n (Some j) hp Kh ->
  kok (length pushed) n (length (z_flag s)) (z_tail s) Kh' ->
  k_head Kh' = length pushed -> (length pushed <= k_tail Kh' + C)%nat ->
  S (k_flag Kh') = length (z_flag s) -> k_seen Kh ⊆ k_seen Kh' ->
  holder_inv hp' Kh' (length pushed) -> built hp' = built hp ->
  zinv (set_prod j hp' Kh' s) pushed n (Some j) hp' Kh'.
Proof.
  intros [] ? ? ? ? Hs ? Hb. destruct zi_holder0 as (Hj & _ & _).
  pose proof (lookup_lt_Some _ _ _ Hj). split; simpl; try done.
  - by rewrite list_lookup_insert_eq.
  - intros j' pc K [(-> & [= <- <-] & _)|[Hne Hj']]%list_lookup_insert_Some; [done|eauto].
  - destruct zi_Kh0 as (_ & _ & _ & M). split_and!; try done. intros m Hm.
    transitivity (k_seen Kh); [by apply M|done].
  - intros i Hi. destruct (zi_cells0 i Hi) as (c & Hc & HI). exists c. split; [done|].
    by apply (zcell_inv_mono s _ _ _ hp _ Kh).
Qed.

Lemma zinv_set_other s pushed n h hp Kh j pc K pc0 K0 :
  zinv s pushed n h hp Kh -> h <> Some j -> z_prods s !! j = Some (pc0, K0) -> holding pc = false ->
  kok (length pushed) n (length (z_flag s)) (z_tail s) K ->
  zinv (set_prod j pc K s) pushed n h hp Kh.
Proof.
  intros [] Hne Hj Hh HK. split; simpl; try done.
  - destruct h as [i|]; [|done]. rewrite list_lookup_insert_ne; [done|congruence].
  - intros j' pc' K' [(-> & [= <- <-] & _)|[Hne' Hj']]%list_lookup_insert_Some; [done|eauto].
Qed.

Lemma zinv_set_cons s pushed n h hp Kh (pc : consumer_pc) K :
  zinv s pushed n h hp Kh ->
  kok (length pushed) n (length (z_flag s)) (z_tail s) K ->
  k_tail K = n -> (n <= k_head K)%nat ->
  (forall k m, (k <= k_head K)%nat -> z_head s !! k = Some m -> seen m ⊆ k_seen K) ->
  k_seen (z_cknow s) ⊆ k_seen K -> zconsumer_inv pc K pushed n ->
  (forall i x, queued_slot pc n i x = queued_slot (z_cpc s) n i x) ->
  zinv (set_cons pc K s) pushed n h hp Kh.
Proof.
  intros [] ? ? ? ? Hs ? Hq. split; simpl; try done.
  intros i Hi. destruct (zi_cells0 i Hi) as (c & Hc & HI). exists c. split; [done|].
  unfold zcell_inv in *. simpl. destruct (pushed !! i); [|done]. rewrite Hq.
  destruct HI as [-> HI]. split; [done|]. intros a Ha k m Hk Hm.
  eapply union_grow; [|by eapply HI]. done.
Qed.

(** *** Producers *)

Lemma zinv_msg s pushed n h hp Kh x k m :
  zinv s pushed n h hp Kh -> match x with ZHead => z_head s | ZTail => z_tail s | ZFlag => z_flag s end !! k = Some m ->
  kok (length pushed) n (length (z_flag s)) (z_tail s) (m_know m).
Proof.
  intros I Hm. apply (zi_msg _ _ _ _ _ _ I). rewrite !elem_of_app.
  destruct x; apply list_elem_of_lookup_2 in Hm; auto.
Qed.

(** A compare-exchange that fails. *)
Lemma zcas_failed_inv s pushed n h hp Kh j pc K k K' :
  zinv s pushed n h hp Kh -> z_prods s !! j = Some (pc, K) -> zcas k (z_flag s) K = CasFailed K' ->
  kok (length pushed) n (length (z_flag s)) (z_tail s) K' /\ k_seen K ⊆ k_seen K' /\
  (k_head K <= k_head K')%nat /\ (k_tail K <= k_tail K')%nat /\ (k_flag K <= k <= k_flag K')%nat /\
  Nat.odd k = true.
Proof.
  intros I Hj. unfold zcas. destruct (zload _ _ _ _ _) as [[z K1]|] eqn:E; [|done].
  destruct (Z.eqb_spec z 0) as [|Hz]; [by destruct (_ =? _)%nat|]. intros [= <-].
  apply zload_inv in E as (Hk & m & Hm & Ez & ->).
  destruct (zi_flag _ _ _ _ _ _ I _ _ Hm) as [_ Ho].
  pose proof (zi_prods _ _ _ _ _ _ I _ _ _ Hj) as [HK _].
  split.
  - apply kok_join; [|by apply (zinv_msg s _ _ h hp Kh ZFlag k)].
    apply kok_flag_stamp; [by apply lookup_lt_Some in Hm|done].
  - simpl in *. split_and!; try lia; [set_solver+|]. destruct (Nat.odd k); [done|]. by rewrite Ez, Ho in Hz.
Qed.

(** A compare-exchange that succeeds. *)
Lemma zcas_done_inv s pushed n h hp Kh j K k hist K' :
  zinv s pushed n h hp Kh -> z_prods s !! j = Some (ZCas, K) -> zcas k (z_flag s) K = CasDone hist K' ->
  h = None /\ length hist = S (length (z_flag s)) /\ (k_tail Kh <= k_tail K')%nat /\
  zinv (set_prod j ZLoadHead K' (set_zflag hist s)) pushed n (Some j) ZLoadHead K'.
Proof.
  intros I Hj. unfold zcas. destruct (zload _ _ _ _ _) as [[z K1]|] eqn:E; [|done].
  destruct (Z.eqb_spec z 0) as [->|]; [|done]. destruct (Nat.eqb_spec (S k) (length (z_flag s))) as [Hlast|]; [|done].
  intros [= <- <-]. apply zload_inv in E as (Hk & m & Hm & Hz & ->). simpl in Hk.
  pose proof I as []. destruct zi_flag_last0 as (fl & m0 & Hfl & Hh).
  assert (m = m0) as ->.
  { rewrite Hfl, length_app in Hlast. simpl in Hlast.
    assert (k = length fl) as -> by lia. rewrite Hfl, list_lookup_middle in Hm by done. congruence. }
  destruct h as [i|]; [congruence|]. destruct Hh as [_ HKh]. split; [done|].
  split; [rewrite length_app; simpl; lia|]. split; [simpl; rewrite HKh; lia|].
  pose proof (lookup_lt_Some _ _ _ Hj) as Hlt.
  destruct (zi_prods0 _ _ _ Hj) as [HK _].
  destruct zi_Kh0 as (KKh & Hhead & Hroom & Hsub).
  set (K2 := set_zstamp ZFlag (length (z_flag s)) (know_join (set_zstamp ZFlag k K) (m_know m0))).
  assert (G : forall K, kok (length pushed) n (length (z_flag s)) (z_tail s) K ->
    kok (length pushed) n (S (length (z_flag s))) (z_tail s) K).
  { intros K0. apply kok_mono; try lia. auto. }
  assert (HK2 : kok (length pushed) n (S (length (z_flag s))) (z_tail s) K2).
  { apply kok_flag_stamp; [lia|]. apply G, kok_join; [apply kok_flag_stamp; [lia|done]|by rewrite HKh]. }
  assert (Hhead2 : k_head K2 = length pushed).
  { simpl. rewrite HKh. destruct HK. lia. }
  assert (Hsub2 : k_seen Kh ⊆ k_seen K2) by (simpl; rewrite HKh; set_solver+).
  split; simpl; rewrite ?length_app; simpl; rewrite ?Nat.add_1_r; try done.
  - intros m. rewrite !elem_of_app, list_elem_of_singleton. intros Hin.
    destruct Hin as [Hin|[Hin|[Hin| ->]]]; [..|done]; apply G, zi_msg0; rewrite !elem_of_app; auto.
  - intros k' m [[_ Hm']|[-> <-]]%lookup_snoc_Some; [by apply zi_flag0|]. simpl. split; [lia|].
    destruct (zi_flag0 k m0 Hm) as [_ E]. rewrite <- Hlast, Nat.odd_succ, <- Nat.negb_odd.
    rewrite <- Hz in E. by destruct (Nat.odd k).
  - by eexists _, _.
  - split_and!; [by rewrite list_lookup_insert_eq|done|lia].
  - intros j' pc K0 [(-> & [= <- <-] & _)|[Hne Hj']]%list_lookup_insert_Some; [done|].
    destruct (zi_prods0 _ _ _ Hj') as [? Hh]. split; [by apply G|]. intros _. by apply Hh.
  - split_and!; [done|done| |].
    + unfold K2. simpl. rewrite HKh. lia.
    + intros m Hm'. transitivity (k_seen Kh); [by apply Hsub|done].
  - destruct zi_cons0 as (? & ?). split; [by apply G|done].
  - intros i Hi. destruct (zi_cells0 i Hi) as (c & Hc & HI). exists c. split; [done|].
    apply (zcell_inv_mono s _ _ _ hp _ Kh); try done. by rewrite zi_holder0.
Qed.

(** Releasing the flag. *)
Lemma store_flag_inv s pushed n j hp Kh e :
  zinv s pushed n (Some j) hp Kh -> built hp = None ->
  exists s' Kh', store_flag j e Kh s = ZStep e s' /\ zinv s' pushed n None ZIdle Kh' /\
    k_tail Kh' = k_tail Kh /\ length (z_flag s') = S (length (z_flag s)).
Proof.
  intros I Hb. pose proof I as []. destruct zi_holder0 as (Hj & _ & HF).
  pose proof (lookup_lt_Some _ _ _ Hj) as Hlt. unfold store_flag, zstore.
  cbn [zstamp]. rewrite HF, Nat.eqb_refl. eexists _, (set_zstamp ZFlag (length (z_flag s)) Kh).
  split; [reflexivity|]. destruct zi_Kh0 as (KKh & Hhead & Hroom & Hsub).
  assert (G : forall K, kok (length pushed) n (length (z_flag s)) (z_tail s) K ->
    kok (length pushed) n (S (length (z_flag s))) (z_tail s) K).
  { intros K0. apply kok_mono; try lia. auto. }
  assert (HK2 : kok (length pushed) n (S (length (z_flag s))) (z_tail s)
    (set_zstamp ZFlag (length (z_flag s)) Kh)) by (apply kok_flag_stamp; [lia|auto]).
  split; [|split; [done|]; simpl; rewrite length_app; simpl; lia].
  split; simpl; rewrite ?length_app; simpl; rewrite ?Nat.add_1_r; try done.
  - intros m. rewrite !elem_of_app, list_elem_of_singleton. intros Hin.
    destruct Hin as [Hin|[Hin|[Hin| ->]]]; [..|done]; apply G, zi_msg0; rewrite !elem_of_app; auto.
  - intros k' m [[_ Hm']|[-> <-]]%lookup_snoc_Some; [by apply zi_flag0|]. simpl. split; [lia|].
    destruct zi_flag_last0 as (fl & m & Hfl & Hm). destruct (zi_flag0 (length fl) m) as [_ E].
    { by rewrite Hfl, list_lookup_middle. }
    rewrite Hfl, length_app, Nat.add_1_r, Nat.odd_succ, <- Nat.negb_odd. rewrite Hm in E. by destruct (Nat.odd _).
  - by eexists _, _.
  - intros j' pc K0 [(-> & [= <- <-] & _)|[Hne Hj']]%list_lookup_insert_Some; [done|].
    destruct (zi_prods0 _ _ _ Hj') as [? Hh]. split; [by apply G|]. intros _. apply Hh. congruence.
  - destruct zi_cons0 as (? & ?). split; [by apply G|done].
  - intros i Hi. destruct (zi_cells0 i Hi) as (c & Hc & HI). exists c. split; [done|].
    by apply (zcell_inv_mono s _ _ _ hp _ Kh).
Qed.

(** The holder's loads. *)
Lemma zload_head_inv s pushed n j Kh k head K :
  zinv s pushed n (Some j) ZLoadHead Kh -> zload relaxed ZHead k (z_head s) Kh = Some (head, K) ->
  zinv (set_prod j (ZLoadTail head) K s) pushed n (Some j) (ZLoadTail head) K.
Proof.
  intros I (Hk & m & Hm & -> & ->)%zload_inv. pose proof I as [].
  destruct zi_holder0 as (_ & _ & HF). destruct zi_Kh0 as (KKh & Hhead & Hroom & Hsub).
  destruct (zi_head0 k m Hm) as (Hv & _). apply lookup_lt_Some in Hm. simpl in Hk.
  assert (k = length pushed) as -> by lia.
  eapply zinv_set_holder; try done; simpl; try lia; [|set_solver+].
  by apply kok_bot, kok_head_stamp.
Qed.

Lemma zload_tail_inv s pushed n j Kh k head tail K :
  zinv s pushed n (Some j) (ZLoadTail head) Kh -> zload acquire ZTail k (z_tail s) Kh = Some (tail, K) ->
  zinv (set_prod j (ZTest head tail) K s) pushed n (Some j) (ZTest head tail) K.
Proof.
  intros I (Hk & m & Hm & -> & ->)%zload_inv. pose proof (zinv_msg _ _ _ _ _ _ ZTail k m I Hm) as Kok.
  pose proof I as []. destruct zi_holder0 as (_ & Hpc & HF).
  destruct zi_Kh0 as (KKh & Hhead & Hroom & Hsub). destruct (zi_tail0 k m Hm) as (Hv & Hle & _).
  pose proof (lookup_lt_Some _ _ _ Hm). simpl in Hk, Hpc.
  eapply zinv_set_holder; try done.
  - apply kok_tail_load; try done. lia.
  - simpl. destruct Kok. lia.
  - simpl. lia.
  - simpl. destruct Kok. lia.
  - simpl. set_solver+.
  - simpl. split; [done|]. rewrite Hv. do 2 f_equal. lia.
Qed.

Lemma ztest_distance s pushed n j Kh head tail :
  zinv s pushed n (Some j) (ZTest head tail) Kh ->
  head ⊟ tail = Z.of_nat (length pushed) - Z.of_nat (k_tail Kh).
Proof.
  intros []. destruct zi_holder0 as (_ & [-> ->] & _). destruct zi_Kh0 as ([] & ? & ? & _).
  destruct zi_cons0 as ([] & ? & ? & _).
  pose proof (C_bounds (Capacity:=Capacity)) as (? & ? & ?). apply wrap_distance. split; lia.
Qed.

(** A slot access of the holder: the slot of the reserved position is its own. *)
Lemma prod_access_inv {A} s pushed n j hp Kh x (op : slot T -> option (A * slot T)) a e hp' :
  zinv s pushed n (Some j) hp Kh -> x = wrap 64 (Z.of_nat (length pushed)) ->
  (length pushed < k_tail Kh + C)%nat ->
  op (zfree_slot hp (length pushed) (length pushed))
    = Some (a, zfree_slot hp' (length pushed) (length pushed)) ->
  (forall K, k_tail K = k_tail Kh -> holder_inv hp' K (length pushed)) ->
  exists s' Kh', prod_access Capacity j x op e hp' Kh s = ZStep e s' /\
    zinv s' pushed n (Some j) hp' Kh' /\ k_tail Kh' = k_tail Kh /\ z_flag s' = z_flag s.
Proof.
  intros I -> Hroom Hop Hpc. pose proof I as []. destruct zi_holder0 as (Hj & _ & HF).
  pose proof (lookup_lt_Some _ _ _ Hj) as Hlt. destruct zi_Kh0 as (KKh & Hhead & _ & Hsub).
  assert (n <= length pushed < n + C)%nat as Hwin by (destruct zi_cons0 as ([] & ? & ? & _), KKh; lia).
  unfold prod_access, zaccess. rewrite slot_index_wrap0.
  destruct (zi_cells0 _ Hwin) as (c & Hc & HI). rewrite Hc. simpl.
  unfold zcell_inv in HI. rewrite (proj2 (lookup_ge_None pushed _)) in HI by done.
  destruct HI as [Hslot Hlast].
  assert (Hknown : forall b, zc_last c = Some b -> b ∈ k_seen Kh).
  { intros b Hb. destruct (lookup_lt_is_Some_2 (z_tail s) (k_tail Kh)) as [m Hm]; [destruct KKh; lia|].
    pose proof (Hlast b Hb _ _ Hroom Hm). pose proof (kok_closed _ _ _ _ _ KKh _ _ (le_n _) Hm).
    set_solver. }
  destruct (match zc_last c with None => false | _ => _ end) eqn:Erace.
  { destruct (zc_last c); [|done]. apply negb_true_iff, bool_decide_eq_false in Erace.
    destruct Erace. by apply Hknown. }
  rewrite Hslot, Hop. simpl.
  eexists _, (mkKnow (k_head Kh) (k_tail Kh) (k_flag Kh) (k_seen Kh ∪ {[z_clock s]})). split; [reflexivity|].
  pose proof (kok_see _ _ _ _ _ (z_clock s) KKh) as KKh'. split; [|done].
  split; simpl; try done; try lia.
  - rewrite list_lookup_insert_eq by done. split_and!; [done|by apply Hpc|done].
  - intros j' pc K [(-> & [= <- <-] & _)|[Hne Hj']]%list_lookup_insert_Some; [done|eauto].
  - split_and!; [done|done|simpl; lia|]. intros m Hm. specialize (Hsub m Hm).
    etransitivity; [exact Hsub|set_solver+].
  - by rewrite length_insert.
  - intros i Hi. destruct (decide (i = length pushed)) as [->|Hne].
    + eexists. split; [apply list_lookup_insert_eq; by apply lookup_lt_Some in Hc|].
      unfold zcell_inv. rewrite (proj2 (lookup_ge_None pushed _)) by done. simpl.
      split; [done|]. intros b [= <-] k m _ _. set_solver+.
    + destruct (zi_cells0 i Hi) as (c' & Hc' & Hinv). exists c'. split.
      { rewrite list_lookup_insert_ne; [done|]. intros E%(slot_index_window n); lia. }
      unfold zcell_inv, zfree_slot in *. simpl. destruct (pushed !! i); [done|].
      rewrite decide_False in * by done. destruct Hinv as [-> HI]. split; [done|].
      intros b Hb k m Hk Hm. eapply union_grow; [|by eapply HI]. set_solver+.
Qed.

Lemma hist_ok_snoc (F : know -> nat) hist z K :
  hist_ok F hist -> z = wrap 64 (Z.of_nat (length hist)) -> (F K <= length hist)%nat ->
  (forall m, m ∈ hist -> seen m ⊆ k_seen K) -> hist_ok F (hist ++ [mkMsg z K]).
Proof.
  intros HO -> HF Hsub k m [[Hlt Hm]|[-> <-]]%lookup_snoc_Some.
  - destruct (HO k m Hm) as (? & ? & Mono). split_and!; try done. intros k' m' Hk'.
    rewrite lookup_app_l by lia. eauto.
  - split_and!; try done. intros k' m' Hk' [[_ Hm']|[_ <-]]%lookup_snoc_Some; [|done].
    by apply Hsub, (list_elem_of_lookup_2 _ k').
Qed.

(** [commit] stores the head. *)
Lemma publish_inv s pushed n j Kh x v :
  zinv s pushed n (Some j) (ZPublish x v) Kh ->
  exists hist K, zstore release ZHead (x ⊞ 1) (z_head s) Kh = Some (hist, K) /\
    (length pushed < n + C)%nat /\ (n <= length pushed)%nat /\
    zinv (set_prod j ZRelease K (set_zhead hist s)) (pushed ++ [v]) n (Some j) ZRelease K.
Proof.
  intros I. pose proof I as []. destruct zi_holder0 as (Hj & [-> Hroom] & HF).
  pose proof (lookup_lt_Some _ _ _ Hj) as Hlt. destruct zi_Kh0 as (KKh & Hhead & _ & Hsub).
  unfold zstore. cbn [zstamp]. rewrite Hhead, zi_head_len0, Nat.eqb_refl.
  eexists _, _. split; [reflexivity|].
  assert (HL : length (pushed ++ [v]) = S (length pushed)) by (rewrite length_app; simpl; lia).
  assert (HC : (length pushed < n + C)%nat /\ (n <= length pushed)%nat).
  { destruct zi_cons0 as ([] & ? & ? & _), KKh. lia. }
  destruct HC as [HC1 HC2]. split_and!; try done.
  assert (G : forall K, kok (length pushed) n (length (z_flag s)) (z_tail s) K ->
    kok (S (length pushed)) n (length (z_flag s)) (z_tail s) K).
  { intros K0. apply kok_mono; try lia. auto. }
  assert (HK2 : kok (S (length pushed)) n (length (z_flag s)) (z_tail s)
    (set_zstamp ZHead (S (length pushed)) Kh)) by (apply kok_head_stamp; [lia|auto]).
  split; simpl; rewrite ?HL; try done; try lia.
  - rewrite length_app. simpl. lia.
  - apply hist_ok_snoc; simpl; try done; [|lia]. rewrite wrap_wrap_add_l. f_equal. lia.
  - intros m. rewrite !elem_of_app, list_elem_of_singleton. intros Hin.
    destruct Hin as [[Hin| ->]|[Hin|Hin]]; [|done|..]; apply G, zi_msg0; rewrite !elem_of_app; auto.
  - by rewrite list_lookup_insert_eq.
  - intros j' pc K0 [(-> & [= <- <-] & _)|[Hne Hj']]%list_lookup_insert_Some; [done|].
    destruct (zi_prods0 _ _ _ Hj') as [? Hh]. split; [by apply G|done].
  - split_and!; [done|done|lia|]. intros m [Hm| ->%list_elem_of_singleton]%elem_of_app; [|done].
    by apply Hsub.
  - destruct zi_cons0 as (KC & ? & ? & HS). split_and!; [by apply G|done|done|].
    intros k m Hk. rewrite lookup_app_l by (destruct KC; lia). eauto.
  - unfold zconsumer_inv in *. destruct (z_cpc s); try done.
    all: destruct zi_cpc0 as (? & ? & Hl); split_and!; try done.
    all: by rewrite lookup_app_l by (destruct zi_cons0 as ([] & _); lia).
  - intros i Hi. destruct (zi_cells0 i Hi) as (c & Hc & HI). exists c. split; [done|].
    unfold zcell_inv, zfree_slot in *. simpl. destruct (decide (i = length pushed)) as [->|Hne].
    + rewrite list_lookup_middle by done. rewrite (proj2 (lookup_ge_None pushed _)) in HI by done.
      destruct HI as [-> Hlast]. split.
      { unfold queued_slot. simpl. case_decide; [|done].
        unfold zconsumer_inv in *. destruct zi_cons0 as ([] & _). destruct (z_cpc s); try done; lia. }
      intros b Hb k m Hk Hm. apply lookup_snoc_Some in Hm as [[? ?]|[-> <-]]; [lia|].
      destruct (lookup_lt_is_Some_2 (z_tail s) (k_tail Kh)) as [m Hm]; [destruct KKh; lia|].
      pose proof (Hlast b Hb _ _ Hroom Hm). pose proof (kok_closed _ _ _ _ _ KKh _ _ (le_n _) Hm).
      unfold seen in *. simpl. set_solver.
    + destruct (decide (i < length pushed)%nat) as [Hlt'|Hge].
      * destruct (lookup_lt_is_Some_2 pushed i Hlt') as [y Hy].
        rewrite lookup_app_l, Hy by lia. rewrite Hy in HI. destruct HI as [-> Hlast].
        split; [done|]. intros b Hb k m Hk Hm. apply lookup_snoc_Some in Hm as [[? Hm]|[-> <-]]; [eauto|].
        destruct (lookup_lt_is_Some_2 (z_head s) (length pushed)) as [m Hm]; [lia|].
        pose proof (Hlast b Hb _ _ Hlt' Hm) as Hin.
        pose proof (Hsub m ltac:(by eapply list_elem_of_lookup_2)). unfold seen in *. simpl. set_solver.
      * rewrite (proj2 (lookup_ge_None pushed i)) in HI by lia.
        rewrite (proj2 (lookup_ge_None (pushed ++ [v]) i)) by lia.
        destruct HI as [-> HI]. split; [by case_decide|done].
Qed.

(** *** The consumer *)

Lemma zinv_bounds s pushed n h hp Kh :
  zinv s pushed n h hp Kh ->
  (n <= k_head (z_cknow s) <= length pushed)%nat /\ (length pushed <= n + C)%nat /\
  (is_Some (built hp) -> length pushed < n + C)%nat.
Proof.
  intros []. destruct zi_cons0 as ([] & ? & ? & _), zi_Kh0 as ([] & ? & ? & _). split_and!; try lia.
  intros [v Hv]. destruct h; [|by subst hp]. destruct zi_holder0 as (_ & Hpc & _).
  destruct hp; simpl in *; try done; lia.
Qed.

Lemma zcons_load_tail_inv s pushed n h hp Kh k tail K :
  zinv s pushed n h hp Kh -> z_cpc s = CLoadTail ->
  zload relaxed ZTail k (z_tail s) (z_cknow s) = Some (tail, K) ->
  zinv (set_cons (CLoadHead tail) K s) pushed n h hp Kh.
Proof.
  intros I Hpc (Hk & m & Hm & -> & ->)%zload_inv. simpl in Hk. pose proof I as [].
  destruct zi_cons0 as (KC & Ht & Hh & HS). destruct (zi_tail0 k m Hm) as (Hv & _).
  apply lookup_lt_Some in Hm. assert (k = n) as -> by lia.
  destruct KC as [? ? ? CL]. apply zinv_set_cons; simpl; try done; try lia.
  - split; simpl; try lia. intros k' m' Hk' Hm'.
    specialize (CL k' m' ltac:(lia) Hm'). by apply union_subseteq_l'.
  - intros k' m' Hk' Hm'. specialize (HS k' m' ltac:(lia) Hm'). by apply union_subseteq_l'.
  - apply union_subseteq_l.
  - intros i x. by rewrite Hpc.
Qed.

Lemma zcons_load_head_inv s pushed n h hp Kh tail k head K :
  zinv s pushed n h hp Kh -> z_cpc s = CLoadHead tail ->
  zload acquire ZHead k (z_head s) (z_cknow s) = Some (head, K) ->
  zinv (set_cons (CTest tail head) K s) pushed n h hp Kh.
Proof.
  intros I Hpc (Hk & m & Hm & -> & ->)%zload_inv. simpl in Hk.
  pose proof (zinv_msg _ _ _ _ _ _ ZHead k m I Hm) as KM. pose proof I as [].
  destruct zi_cons0 as (KC & Ht & Hh & HS). destruct (zi_head0 k m Hm) as (Hv & Hle & Mono).
  pose proof (lookup_lt_Some _ _ _ Hm). rewrite Hpc in zi_cpc0. simpl in zi_cpc0.
  apply zinv_set_cons; simpl; try done; try lia.
  - apply (kok_join _ _ _ _ (set_zstamp ZHead k (z_cknow s))); [|done].
    apply kok_head_stamp; [lia|done].
  - destruct KM. lia.
  - intros k' m' Hk' Hm'. apply union_subseteq_r', (Mono k' m'); [lia|done].
  - apply union_subseteq_l.
  - split; [done|]. rewrite Hv. do 2 f_equal. lia.
  - intros i x. by rewrite Hpc.
Qed.

Lemma zcons_test_exact s pushed n h hp Kh tail head :
  zinv s pushed n h hp Kh -> z_cpc s = CTest tail head ->
  (tail =? head) = bool_decide (n = k_head (z_cknow s)).
Proof.
  intros I Hpc. pose proof (zinv_bounds _ _ _ _ _ _ I) as (? & ? & _). pose proof I as [].
  rewrite Hpc in zi_cpc0. destruct zi_cpc0 as [-> ->].
  pose proof (C_bounds (Capacity:=Capacity)) as (? & ? & ?).
  pose proof (wrap_eq_iff 64 (Z.of_nat (k_head (z_cknow s))) (Z.of_nat n) ltac:(lia)) as E.
  destruct E as [E _]; [split; lia|].
  destruct (Z.eqb_spec (wrap 64 (Z.of_nat n)) (wrap 64 (Z.of_nat (k_head (z_cknow s)))));
    case_bool_decide; try done; [lia|congruence].
Qed.

(** A slot access of the consumer: what the head store published is known. *)
Lemma zcons_access_inv {A} s pushed n h hp Kh tail x (op : slot T -> option (A * slot T)) a
    (pc' : consumer_pc (T:=T)) :
  zinv s pushed n h hp Kh -> tail = wrap 64 (Z.of_nat n) -> (n < k_head (z_cknow s))%nat ->
  pushed !! n = Some x -> op (queued_slot (z_cpc s) n n x) = Some (a, queued_slot pc' n n x) ->
  (forall K, k_head K = k_head (z_cknow s) -> zconsumer_inv pc' K pushed n) ->
  exists cs K,
    zaccess (slot_index Capacity tail) op (z_clock s) (z_cells s) (z_cknow s) = Some (a, cs, K) /\
    zinv (set_cons pc' K (set_zcells cs s)) pushed n h hp Kh.
Proof.
  intros I -> Hlt Hx Hop Hpc'. pose proof I as []. rewrite slot_index_wrap0.
  destruct zi_cons0 as (KC & Ht & Hh & HS).
  pose proof (C_bounds (Capacity:=Capacity)) as (? & ? & ?).
  destruct (zi_cells0 n) as (c & Hc & HI); [lia|]. unfold zaccess. rewrite Hc. simpl.
  unfold zcell_inv in HI. rewrite Hx in HI. destruct HI as [Hslot Hlast].
  destruct (match zc_last c with None => false | _ => _ end) eqn:Erace.
  { destruct (zc_last c) as [b|] eqn:Eb; [|done].
    apply negb_true_iff, bool_decide_eq_false in Erace. destruct Erace.
    destruct (lookup_lt_is_Some_2 (z_head s) (k_head (z_cknow s))) as [m Hm]; [destruct KC; lia|].
    pose proof (Hlast b eq_refl _ _ Hlt Hm) as Hin. pose proof (HS _ _ (le_n _) Hm). set_solver. }
  rewrite Hslot, Hop. simpl. eexists _, _. split; [reflexivity|].
  split; simpl; try done.
  - split_and!; [by apply kok_see|done|done|]. intros k m Hk Hm. apply union_subseteq_l'; eauto.
  - by apply Hpc'.
  - by rewrite length_insert.
  - intros i Hi. destruct (decide (i = n)) as [->|Hne].
    + eexists. split; [apply list_lookup_insert_eq; by apply lookup_lt_Some in Hc|].
      unfold zcell_inv. rewrite Hx. simpl. split; [done|]. intros b [= <-] k m _ _. set_solver+.
    + destruct (zi_cells0 i Hi) as (c' & Hc' & Hinv). exists c'. split.
      { rewrite list_lookup_insert_ne; [done|]. intros E%(slot_index_window n); lia. }
      unfold zcell_inv, queued_slot in *. simpl. destruct (pushed !! i); [|done].
      rewrite decide_False in * by done. destruct Hinv as [-> HI]. split; [done|].
      intros b Hb k m Hk Hm. eapply union_grow; [|by eapply HI]. apply union_subseteq_l.
Qed.

(** The store of the tail frees the slot. *)
Lemma zcons_store_inv s pushed n h hp Kh tail out :
  zinv s pushed n h hp Kh -> z_cpc s = CStoreTail tail out ->
  exists hist K, zstore release ZTail (tail ⊞ 1) (z_tail s) (z_cknow s) = Some (hist, K) /\
    pushed !! n = Some out /\ zinv (set_cons CIdle K (set_ztail hist s)) pushed (S n) h hp Kh.
Proof.
  intros I Hpc. pose proof (zinv_bounds _ _ _ _ _ _ I) as (? & Hcap & Hbuilt). pose proof I as [].
  rewrite Hpc in zi_cpc0. destruct zi_cpc0 as (-> & Hlt & Hout).
  destruct zi_cons0 as (KC & Ht & Hh & HS).
  unfold zstore. cbn [zstamp]. rewrite Ht, zi_tail_len0, Nat.eqb_refl.
  eexists _, _. split; [reflexivity|]. split; [done|].
  set (K' := set_zstamp ZTail (S n) (z_cknow s)). set (new := mkMsg _ K').
  assert (Hall : forall m, m ∈ z_tail s -> seen m ⊆ k_seen (z_cknow s)).
  { intros m [k Hm]%list_elem_of_lookup. apply (kok_closed _ _ _ _ _ KC k); [|done].
    apply lookup_lt_Some in Hm. lia. }
  assert (G : forall K, kok (length pushed) n (length (z_flag s)) (z_tail s) K ->
    kok (length pushed) (S n) (length (z_flag s)) (z_tail s ++ [new]) K).
  { intros K. apply kok_mono; try lia. intros k m Hk. by rewrite lookup_app_l by lia. }
  assert (HK' : kok (length pushed) (S n) (length (z_flag s)) (z_tail s ++ [new]) K').
  { destruct KC. split; simpl; try lia. intros k m Hk Hm.
    apply lookup_snoc_Some in Hm as [[_ Hm]|[_ <-]]; [|done].
    by apply Hall, (list_elem_of_lookup_2 _ k). }
  split; simpl; try done; try lia.
  - rewrite length_app. simpl. lia.
  - apply hist_ok_snoc; simpl; try done; [|lia]. rewrite wrap_wrap_add_l. f_equal. lia.
  - intros m. rewrite !elem_of_app, list_elem_of_singleton. intros Hin.
    destruct Hin as [Hin|[[Hin| ->]|Hin]]; [..|done|]; apply G, zi_msg0; rewrite !elem_of_app; auto.
  - intros j pc K Hj. destruct (zi_prods0 _ _ _ Hj) as [? ?]. split; [by apply G|done].
  - destruct zi_Kh0 as (? & ?). split; [by apply G|done].
  - intros i Hi. destruct (decide (i = n + C)%nat) as [->|Hne].
    + destruct (zi_cells0 n) as (c & Hc & HI); [lia|]. exists c. split.
      { rewrite <- Hc. pose proof (C_bounds (Capacity:=Capacity)) as (? & HC & ?).
        by rewrite Nat2Z.inj_add, HC, slot_index_turn. }
      unfold zcell_inv in *. rewrite Hout in HI. rewrite (proj2 (lookup_ge_None pushed _)) by lia.
      rewrite Hpc in HI. unfold queued_slot in HI. rewrite decide_True in HI by done.
      destruct HI as [-> Hlast]. split.
      { unfold zfree_slot. case_decide; [|done]. destruct (built hp); [|done].
        specialize (Hbuilt ltac:(by eexists)). lia. }
      intros b Hb k m Hk Hm. apply lookup_snoc_Some in Hm as [[? ?]|[-> <-]]; [lia|].
      destruct (lookup_lt_is_Some_2 (z_head s) (k_head (z_cknow s))) as [m Hm]; [destruct KC; lia|].
      pose proof (Hlast b Hb _ _ Hlt Hm). pose proof (HS _ _ (le_n _) Hm).
      unfold seen at 1. simpl. set_solver.
    + destruct (zi_cells0 i) as (c & Hc & HI); [lia|]. exists c. split; [done|].
      unfold zcell_inv, queued_slot in *. simpl. destruct (pushed !! i) as [y|] eqn:Hy.
      * rewrite decide_False in HI by lia. by case_decide.
      * destruct HI as [-> Hlast]. split; [done|]. intros b Hb k m Hk Hm.
        apply lookup_snoc_Some in Hm as [[? Hm]|[-> <-]]; [by eapply Hlast|].
        destruct (lookup_lt_is_Some_2 (z_tail s) n) as [m Hm]; [lia|].
        pose proof (Hlast b Hb n m ltac:(lia) Hm).
        pose proof (Hall m ltac:(by eapply list_elem_of_lookup_2)). unfold seen at 1. simpl. set_solver.
Qed.

(** *** Every step is safe and refines the specification *)

Definition phase_of hp : phase (T:=T) :=
  match hp with
  | ZIdle | ZCas | ZLoadHead | ZLoadTail _ | ZTest _ _ | ZGiveUp => Taken
  | ZHeld _ b | ZCasHeld _ b => Held b
  | ZRebuild _ _ _ | ZConstruct _ _ => Building
  | ZPublish _ v | ZDrop _ v => Held (Some v)
  | ZRelease => Published
  | ZCancelFlag => Cancelling
  end.
Definition lock_of h hp : option (nat * phase) := match h with Some i => Some (i, phase_of hp) | None => None end.

(** The state of the specification, and the knowledge of the threads. *)
Definition zabs s pushed n h hp : zqueue := mkZqueue pushed n (length (z_flag s) - 1) (lock_of h hp).
Definition zturns s i : nat := match z_prods s !! i with Some (_, K) => k_flag K | None => 0%nat end.
Definition zknows s Kh : zknown := mkZknown (k_tail Kh) (k_head (z_cknow s)) (zturns s).

Definition zgood s0 pushed n h hp Kh (r : zresult (T:=T)) : Prop :=
  match r with
  | ZUndefined => False
  | ZBlocked => True
  | ZStep e s => exists pushed' n' h' hp' Kh',
      zinv s pushed' n' h' hp' Kh' /\ (k_tail Kh <= k_tail Kh')%nat /\
      zeffect Capacity (zknows s0 Kh) (zknows s Kh') (zabs s0 pushed n h hp) e (zabs s pushed' n' h' hp')
  end.

(** A step between states that the specification does not tell apart. *)
Lemma zgood_silent s0 pushed n h hp Kh s hp' Kh' :
  zinv s pushed n h hp' Kh' -> (k_tail Kh <= k_tail Kh')%nat -> z_flag s = z_flag s0 ->
  lock_of h hp' = lock_of h hp -> zgood s0 pushed n h hp Kh (ZStep None s).
Proof.
  intros I Ht Hf Hl. exists pushed, n, h, hp', Kh'. split; [done|]. split; [done|].
  unfold zabs. rewrite Hf, Hl. constructor.
Qed.

Lemma zflag_pos s pushed n h hp Kh : zinv s pushed n h hp Kh -> (0 < length (z_flag s))%nat.
Proof. intros []. destruct zi_flag_last0 as (fl & m & -> & _). rewrite length_app. simpl. lia. Qed.

Lemma zgood_store_flag s pushed n j hp Kh e :
  zinv s pushed n (Some j) hp Kh -> built hp = None ->
  (forall V V' t, zk_consumed V' = k_tail Kh ->
     zeffect Capacity V V' (mkZqueue pushed n t (Some (j, phase_of hp))) e (mkZqueue pushed n (S t) None)) ->
  zgood s pushed n (Some j) hp Kh (store_flag j e Kh s).
Proof.
  intros I Hb He. destruct (store_flag_inv _ _ _ _ _ _ e I Hb) as (s' & Kh' & -> & I' & Ht & Hf).
  exists pushed, n, None, ZIdle, Kh'. split; [done|]. split; [lia|]. pose proof (zflag_pos _ _ _ _ _ _ I).
  unfold zabs. rewrite Hf. replace (S (length (z_flag s)) - 1)%nat with (S (length (z_flag s) - 1)) by lia.
  by apply He.
Qed.

Lemma zgood_access {A} s pushed n j hp Kh x (op : slot T -> option (A * slot T)) a e hp' :
  zinv s pushed n (Some j) hp Kh ->
  x = wrap 64 (Z.of_nat (length pushed)) /\ (length pushed < k_tail Kh + C)%nat ->
  op (match built hp with Some v => Live v | None => Raw end)
    = Some (a, match built hp' with Some v => Live v | None => Raw end) ->
  (forall K, k_tail K = k_tail Kh -> holder_inv hp' K (length pushed)) ->
  (forall V V' t, zeffect Capacity V V' (mkZqueue pushed n t (Some (j, phase_of hp))) e
     (mkZqueue pushed n t (Some (j, phase_of hp')))) ->
  zgood s pushed n (Some j) hp Kh (prod_access Capacity j x op e hp' Kh s).
Proof.
  intros I [Hx Hroom] Hop Hpc He.
  destruct (prod_access_inv s pushed n j hp Kh x op a e hp' I Hx Hroom) as (s' & Kh' & -> & I' & Ht & Hf); [|done|].
  - unfold zfree_slot. by rewrite !decide_True.
  - exists pushed, n, (Some j), hp', Kh'. split; [done|]. split; [lia|]. unfold zabs. rewrite Hf. apply He.
Qed.

Lemma zturns_set s i pc K pc0 K0 : z_prods s !! i = Some (pc0, K0) -> zturns (set_prod i pc K s) i = k_flag K.
Proof. intros Hi%lookup_lt_Some. unfold zturns. simpl. by rewrite list_lookup_insert_eq. Qed.

Lemma zabs_busy s s' pushed n h hp hp' Kh Kh' i pc K pc' K' k :
  z_prods s !! i = Some (pc, K) -> s' = set_prod i pc' K' s -> lock_of h hp' = lock_of h hp ->
  Nat.odd k = true -> (k_flag K <= k <= k_flag K')%nat ->
  zeffect Capacity (zknows s Kh) (zknows s' Kh') (zabs s pushed n h hp) (Some (Busy i)) (zabs s' pushed n h hp').
Proof.
  intros Hi -> Hl Ho Hk. unfold zabs. rewrite Hl. apply (ze_busy _ _ _ _ i k Ho). simpl.
  rewrite (zturns_set _ _ _ _ _ _ Hi). unfold zturns. by rewrite Hi.
Qed.

(** A producer that does not hold the flag. *)
Lemma zgood_other s pushed n h hp Kh i k rq pc K :
  zinv s pushed n h hp Kh -> z_prods s !! i = Some (pc, K) -> h <> Some i ->
  zgood s pushed n h hp Kh (zproducer_step Capacity i k rq s).
Proof.
  intros I Hi Hne. destruct (zi_prods _ _ _ _ _ _ I _ _ _ Hi) as [HK Hpc]. specialize (Hpc Hne).
  unfold zproducer_step. rewrite Hi. destruct pc; try done.
  - destruct rq; try done.
    + eapply zgood_silent; try done. by apply (zinv_set_other _ _ _ _ _ _ _ _ _ _ _ I Hne Hi).
    + exists pushed, n, h, hp, Kh. split; [done|]. split; [done|]. constructor. right. simpl.
      intros ph. destruct h; simpl; congruence.
    + by eapply zgood_silent.
  - destruct (zcas _ _ _) as [hist K'|K'|] eqn:E; [| |done].
    + destruct (zcas_done_inv _ _ _ _ _ _ _ _ _ _ _ I Hi E) as (-> & Hl & Ht & I').
      eexists _, _, _, _, _. split; [exact I'|]. split; [done|]. unfold zabs. simpl. rewrite Hl.
      pose proof (zflag_pos _ _ _ _ _ _ I).
      replace (S (length (z_flag s)) - 1)%nat with (S (length (z_flag s) - 1)) by lia. constructor.
    + destruct (zcas_failed_inv _ _ _ _ _ _ _ _ _ _ _ I Hi E) as (HK' & _ & _ & _ & Hk & Ho).
      exists pushed, n, h, hp, Kh. split; [by apply (zinv_set_other _ _ _ _ _ _ _ _ _ _ _ I Hne Hi)|].
      split; [done|]. by eapply zabs_busy.
Qed.

(** The holder: only its program point changes. *)
Lemma zgood_goto s pushed n i hp Kh e hp' :
  zinv s pushed n (Some i) hp Kh -> holder_inv hp' Kh (length pushed) -> built hp' = built hp ->
  (forall V V' t, zk_consumed V' = k_tail Kh ->
     zeffect Capacity V V' (mkZqueue pushed n t (Some (i, phase_of hp))) e (mkZqueue pushed n t (Some (i, phase_of hp')))) ->
  zgood s pushed n (Some i) hp Kh (ZStep e (set_prod i hp' Kh s)).
Proof.
  intros I Hpc Hb He. exists pushed, n, (Some i), hp', Kh. pose proof I as [].
  destruct zi_holder0 as (_ & _ & ?), zi_Kh0 as (? & ? & ? & _).
  split; [by eapply zinv_set_holder|]. split; [done|]. by apply He.
Qed.

Lemma zcas_held s pushed n i hp Kh k :
  zinv s pushed n (Some i) hp Kh ->
  match zcas k (z_flag s) Kh with CasDone _ _ => False | _ => True end.
Proof.
  intros I. pose proof I as []. destruct zi_flag_last0 as (fl & m & Hfl & Hm). unfold zcas.
  destruct (zload _ _ _ _ _) as [[z K1]|] eqn:E; [|done].
  apply zload_inv in E as (_ & m' & Hm' & -> & _).
  destruct (Z.eqb_spec (m_val m') 0); [|done].
  destruct (Nat.eqb_spec (S k) (length (z_flag s))) as [Hk|]; [|done].
  rewrite Hfl, length_app in Hk. simpl in Hk. rewrite Hfl, list_lookup_middle in Hm' by lia.
  congruence.
Qed.

Lemma zload_tail_mono o x k hist K z K' : zload o x k hist K = Some (z, K') -> (k_tail K <= k_tail K')%nat.
Proof. intros (Hk & m & _ & _ & ->)%zload_inv. destruct x; simpl in *; lia. Qed.

Lemma zgood_holder s pushed n i hp Kh k rq :
  zinv s pushed n (Some i) hp Kh -> zgood s pushed n (Some i) hp Kh (zproducer_step Capacity i k rq s).
Proof.
  intros I. pose proof I as []. destruct zi_holder0 as (Hi & Hpc & HF).
  pose proof (C_bounds (Capacity:=Capacity)) as (? & HC & ?).
  unfold zproducer_step. rewrite Hi.
  destruct hp as [| | |head|head tail| |x b|x b|x old v|x v|x v| |x v|]; simpl in Hpc; try done.
  - destruct (zload _ _ _ _ _) as [[z K]|] eqn:E; [|done].
    eapply zgood_silent; [by eapply zload_head_inv|by eapply zload_tail_mono|done..].
  - destruct (zload _ _ _ _ _) as [[z K]|] eqn:E; [|done].
    eapply zgood_silent; [by eapply zload_tail_inv|by eapply zload_tail_mono|done..].
  - pose proof (ztest_distance _ _ _ _ _ _ _ I) as D. destruct zi_Kh0 as (_ & _ & ? & _).
    destruct (_ >=? _) eqn:E; rewrite D, Z.geb_leb in E; [apply Z.leb_le in E|apply Z.leb_gt in E].
    + eapply zgood_goto; try done; [simpl; lia|constructor].
    + eapply zgood_goto; try done; [simpl; split; [by destruct Hpc|lia]|]. intros V V' t HV. constructor. lia.
  - eapply zgood_store_flag; [done..|]. intros V V' t HV. simpl. constructor. lia.
  - destruct rq as [|v| |], b as [old|]; try (eapply zgood_goto; try done; constructor).
    exists pushed, n, (Some i), (ZHeld x None), Kh. split; [done|]. split; [done|]. constructor. by left.
  - pose proof (zcas_held _ _ _ _ _ _ k I) as Hno. destruct (zcas _ _ _) as [| K'|] eqn:E; [done| |done].
    destruct (zcas_failed_inv _ _ _ _ _ _ _ _ _ _ _ I Hi E) as (HK' & ? & ? & ? & Hk & Ho).
    destruct zi_Kh0 as (? & ? & ? & _). exists pushed, n, (Some i), (ZHeld x b), K'.
    split; [|split; [done|by eapply zabs_busy]].
    eapply zinv_set_holder; try done; destruct HK'; simpl in *; lia.
  - eapply zgood_access; try done; [intros K HK; simpl; by rewrite HK|constructor].
  - eapply zgood_access; try done; [intros K HK; simpl; by rewrite HK|constructor].
  - destruct (publish_inv _ _ _ _ _ _ _ I) as (hist & K & Es & ? & ? & I'). rewrite Es.
    exists (pushed ++ [v]), n, (Some i), ZRelease, K. split; [done|].
    assert (k_tail K = k_tail Kh) as HK.
    { unfold zstore in Es. destruct (_ =? _)%nat; [|done]. by injection Es as _ <-. }
    split; [lia|]. unfold zabs. simpl. constructor. simpl. lia.
  - eapply zgood_store_flag; [done..|]. constructor.
  - eapply zgood_access; try done. constructor.
  - eapply zgood_store_flag; [done..|]. constructor.
Qed.

Lemma zgood_consumer s pushed n h hp Kh k :
  zinv s pushed n h hp Kh -> zgood s pushed n h hp Kh (zconsumer_step Capacity k s).
Proof.
  intros I. pose proof (zinv_bounds _ _ _ _ _ _ I) as (Hn & _). pose proof I as [].
  unfold zconsumer_step.
  assert (Hidle : forall (pc : consumer_pc (T:=T)),
    (forall i x, queued_slot pc n i x = queued_slot (z_cpc s) n i x) ->
    zconsumer_inv pc (z_cknow s) pushed n -> zinv (set_cons pc (z_cknow s) s) pushed n h hp Kh).
  { intros pc Hq Hpc. destruct zi_cons0 as (? & ? & ? & ?). by apply zinv_set_cons. }
  destruct (z_cpc s) as [| |t|t x|t|t out|t out] eqn:Hpc; simpl in zi_cpc0.
  - eapply zgood_silent; try done. by apply Hidle.
  - destruct (zload _ _ _ _ _) as [[z K]|] eqn:E; [|done].
    eapply zgood_silent; try done. by eapply zcons_load_tail_inv.
  - destruct (zload _ _ _ _ _) as [[z K]|] eqn:E; [|done].
    eapply zgood_silent; try done. by eapply zcons_load_head_inv.
  - pose proof (zcons_test_exact _ _ _ _ _ _ _ _ I Hpc) as Hex. symmetry in Hex.
    destruct (t =? x); [apply bool_decide_eq_true in Hex|apply bool_decide_eq_false in Hex].
    + exists pushed, n, h, hp, Kh. split; [by apply Hidle|]. split; [done|]. by constructor.
    + eapply zgood_silent; try done. apply Hidle; try done. simpl. destruct zi_cpc0. split; [done|lia].
  - destruct zi_cpc0 as [Ht Hlt]. destruct (lookup_lt_is_Some_2 pushed n) as [x Hx]; [lia|].
    destruct (zcons_access_inv s pushed n h hp Kh t x slot_move x (CDestroy t x) I Ht Hlt Hx)
      as (cs & K & -> & I').
    { rewrite Hpc. unfold queued_slot. by rewrite !decide_True. }
    { intros K HK. simpl. by rewrite HK. }
    by eapply zgood_silent.
  - destruct zi_cpc0 as (Ht & Hlt & Hx).
    destruct (zcons_access_inv s pushed n h hp Kh t out slot_destroy tt (CStoreTail t out) I Ht Hlt Hx)
      as (cs & K & -> & I').
    { rewrite Hpc. unfold queued_slot. by rewrite !decide_True. }
    { intros K HK. simpl. by rewrite HK. }
    by eapply zgood_silent.
  - destruct zi_cpc0 as (_ & Hlt & _).
    destruct (zcons_store_inv _ _ _ _ _ _ _ _ I Hpc) as (hist & K & Es & Hx & I'). rewrite Es.
    exists pushed, (S n), h, hp, Kh. split; [done|]. split; [done|]. unfold zabs. simpl. constructor; [|done].
    unfold zstore in Es. destruct (_ =? _)%nat; [|done]. injection Es as _ <-. done.
Qed.

Lemma do_zmove_good s pushed n h hp Kh mv :
  zinv s pushed n h hp Kh -> zgood s pushed n h hp Kh (do_zmove Capacity mv s).
Proof.
  intros I. destruct mv as [i k rq|k]; simpl; [|by eapply zgood_consumer].
  destruct (z_prods s !! i) as [[pc K]|] eqn:Hi.
  - destruct (decide (h = Some i)) as [->|Hne]; [by eapply zgood_holder|by eapply zgood_other].
  - unfold zproducer_step. by rewrite Hi.
Qed.

(** Knowledge only grows. *)
Lemma zload_mono o x k hist K z K' : zload o x k hist K = Some (z, K') -> (k_head K <= k_head K')%nat /\ (k_flag K <= k_flag K')%nat.
Proof. intros (Hk & m & _ & _ & ->)%zload_inv. destruct x; simpl in *; lia. Qed.
Lemma zstore_mono o x z hist K hist' K' :
  zstore o x z hist K = Some (hist', K') -> (k_head K <= k_head K')%nat /\ (k_flag K <= k_flag K')%nat.
Proof.
  unfold zstore. destruct (Nat.eqb_spec (S (zstamp x K)) (length hist)) as [E|]; [|done].
  intros [= _ <-]. destruct x; simpl in *; lia.
Qed.
Lemma zaccess_mono {A} j (op : slot T -> option (A * slot T)) clock cs K a cs' K' :
  zaccess j op clock cs K = Some (a, cs', K') -> k_head K' = k_head K /\ k_flag K' = k_flag K.
Proof.
  unfold zaccess. destruct (cs !! j) as [c|]; simpl; [|done]. destruct (match zc_last c with None => _ | _ => _ end); [done|].
  destruct (op _) as [[x sl]|]; simpl; [|done]. by intros [= _ _ <-].
Qed.

Lemma zturns_grow s s' i pc K pc' K' :
  z_prods s !! i = Some (pc, K) -> z_prods s' = <[i := (pc', K')]> (z_prods s) -> (k_flag K <= k_flag K')%nat ->
  forall j, (zturns s j <= zturns s' j)%nat.
Proof.
  intros Hi E Hk j. unfold zturns. rewrite E. destruct (decide (j = i)) as [->|Hne].
  - rewrite Hi, list_lookup_insert_eq by (by apply lookup_lt_Some in Hi). done.
  - by rewrite list_lookup_insert_ne.
Qed.

Lemma zcas_mono k hist K :
  match zcas k hist K with CasDone _ K' | CasFailed K' => (k_flag K <= k_flag K')%nat | CasUnreadable => True end.
Proof.
  unfold zcas. destruct (zload _ _ _ _ _) as [[z K1]|] eqn:E; [|done].
  pose proof (zload_mono _ _ _ _ _ _ _ E) as [_ ?]. apply zload_inv in E as (Hk & m & Hm%lookup_lt_Some & _).
  destruct (z =? 0); [destruct (Nat.eqb_spec (S k) (length hist))|]; simpl in *; lia || done.
Qed.

Lemma zproducer_learn i k rq s e s' :
  zproducer_step Capacity i k rq s = ZStep e s' ->
  z_cknow s' = z_cknow s /\ forall j, (zturns s j <= zturns s' j)%nat.
Proof.
  unfold zproducer_step. destruct (z_prods s !! i) as [[pc K]|] eqn:Hi; [|done].
  assert (SET : forall pc' K' s1, s' = set_prod i pc' K' s1 -> z_prods s1 = z_prods s -> z_cknow s1 = z_cknow s ->
    (k_flag K <= k_flag K')%nat -> z_cknow s' = z_cknow s /\ forall j, (zturns s j <= zturns s' j)%nat).
  { intros pc' K' s1 -> E1 E2 Hk. split; [done|]. eapply zturns_grow; [done| |done]. simpl. by rewrite E1. }
  assert (ST : forall e0, store_flag i e0 K s = ZStep e s' -> z_cknow s' = z_cknow s /\ forall j, (zturns s j <= zturns s' j)%nat).
  { intros e0. unfold store_flag. destruct (zstore _ _ _ _ _) as [[h K']|] eqn:E; [|done]. intros [= _ <-].
    apply zstore_mono in E as [_ ?]. by eapply SET. }
  assert (AC : forall A index (op : slot T -> option (A * slot T)) e0 pc', prod_access Capacity i index op e0 pc' K s = ZStep e s' ->
    z_cknow s' = z_cknow s /\ forall j, (zturns s j <= zturns s' j)%nat).
  { intros A index op e0 pc'. unfold prod_access. destruct (zaccess _ _ _ _ _) as [[[a cs] K']|] eqn:E; [|done].
    intros [= _ <-]. apply zaccess_mono in E as [_ E]. eapply SET; [done..|lia]. }
  pose proof (zcas_mono k (z_flag s) K) as CAS.
  destruct pc as [| | |head|head tail| |x b|x b|x old v|x v|x v| |x v|]; try (by apply ST); try (by apply AC).
  - destruct rq; intros [= <- <-] || done; done || by eapply SET.
  - destruct (zcas _ _ _) as [hist K'|K'|]; intros [= <- <-] || done; by eapply SET.
  - destruct (zload _ _ _ _ _) as [[z K']|] eqn:E; intros [= <- <-] || done. apply zload_mono in E as [_ ?]. by eapply SET.
  - destruct (zload _ _ _ _ _) as [[z K']|] eqn:E; intros [= <- <-] || done. apply zload_mono in E as [_ ?]. by eapply SET.
  - destruct (_ >=? _); intros [= <- <-]; by eapply SET.
  - destruct rq, b; intros [= <- <-]; done || by eapply SET.
  - destruct (zcas _ _ _) as [hist K'|K'|]; intros [= <- <-] || done; by eapply SET.
  - destruct (zstore _ _ _ _ _) as [[h K']|] eqn:E; intros [= <- <-] || done. apply zstore_mono in E as [_ ?]. by eapply SET.
Qed.

Lemma zconsumer_learn k s e s' :
  zconsumer_step Capacity k s = ZStep e s' ->
  (k_head (z_cknow s) <= k_head (z_cknow s'))%nat /\ z_prods s' = z_prods s.
Proof.
  unfold zconsumer_step. destruct (z_cpc s).
  - by intros [= <- <-].
  - destruct (zload _ _ _ _ _) as [[z K']|] eqn:E; intros [= <- <-] || done. by apply zload_mono in E as [? _].
  - destruct (zload _ _ _ _ _) as [[z K']|] eqn:E; intros [= <- <-] || done. by apply zload_mono in E as [? _].
  - destruct (_ =? _); by intros [= <- <-].
  - destruct (zaccess _ _ _ _ _) as [[[a cs] K']|] eqn:E; intros [= <- <-] || done. apply zaccess_mono in E as [E _]. simpl. split; [lia|done].
  - destruct (zaccess _ _ _ _ _) as [[[a cs] K']|] eqn:E; intros [= <- <-] || done. apply zaccess_mono in E as [E _]. simpl. split; [lia|done].
  - destruct (zstore _ _ _ _ _) as [[h K']|] eqn:E; intros [= <- <-] || done. by apply zstore_mono in E as [? _].
Qed.

(** What the threads have seen: the consumer the commits, each producer the turns of the
    flag, and the owner of the flag the values consumed. *)
Definition zknown_by s (V : zknown) : Prop :=
  zk_committed V = k_head (z_cknow s) /\
  forall i pc K, z_prods s !! i = Some (pc, K) ->
    zk_turns V i = k_flag K /\ (holding pc = true -> zk_consumed V = k_tail K).

Lemma zknows_bounds s pushed n h hp Kh : zinv s pushed n h hp Kh ->
  zlearn (zabs s pushed n h hp) (zknows s Kh) (zknows s Kh).
Proof.
  intros I. pose proof (zflag_pos _ _ _ _ _ _ I). pose proof I as []. destruct zi_Kh0 as ([] & _), zi_cons0 as ([] & _).
  split_and!; simpl; try lia. intros i. split; [done|]. unfold zturns. destruct (z_prods s !! i) as [[pc K]|] eqn:Hi; [|lia].
  destruct (zi_prods0 _ _ _ Hi) as [[] _]. lia.
Qed.

Lemma do_zmove_sim s pushed n h hp Kh mv e s' :
  zinv s pushed n h hp Kh -> do_zmove Capacity mv s = ZStep e s' ->
  exists pushed' n' h' hp' Kh', zinv s' pushed' n' h' hp' Kh' /\
    zlearn (zabs s' pushed' n' h' hp') (zknows s Kh) (zknows s' Kh') /\
    zeffect Capacity (zknows s Kh) (zknows s' Kh') (zabs s pushed n h hp) e (zabs s' pushed' n' h' hp').
Proof.
  intros I Hm. pose proof (do_zmove_good _ _ _ _ _ _ mv I) as G. rewrite Hm in G.
  destruct G as (pushed' & n' & h' & hp' & Kh' & I' & Ht & Hc). do 5 eexists. split; [exact I'|]. split; [|exact Hc].
  destruct (zknows_bounds _ _ _ _ _ _ I') as ((_ & B1) & (_ & B2) & B3).
  assert (M : (k_head (z_cknow s) <= k_head (z_cknow s'))%nat /\ forall j, (zturns s j <= zturns s' j)%nat).
  { destruct mv as [i k rq|k]; simpl in Hm.
    - by apply zproducer_learn in Hm as [-> ?].
    - apply zconsumer_learn in Hm as [? E]. split; [done|]. intros j. unfold zturns. by rewrite E. }
  destruct M as [M1 M2]. split_and!; simpl in *; try done. intros i. split; [apply M2|apply B3].
Qed.

Lemma zexec_inv producers tr s :
  zexec Capacity producers tr s ->
  exists pushed n h hp Kh, zinv s pushed n h hp Kh /\ zrun Capacity tr (zabs s pushed n h hp) (zknows s Kh).
Proof.
  induction 1 as [|tr s mv e s' _ (pushed & n & h & hp & Kh & I & R) Hm].
  { exists [], 0%nat, None, ZIdle, know_bot. split; [apply zinv_init|].
    apply (zrun_nil _ (zknows (zstate_init Capacity producers) know_bot)).
    exact (zknows_bounds _ _ _ _ _ _ (zinv_init producers)). }
  destruct (do_zmove_sim _ _ _ _ _ _ _ _ _ I Hm) as (pushed' & n' & h' & hp' & Kh' & I' & L & E).
  do 5 eexists. split; [exact I'|]. by eapply zrun_step.
Qed.

(** The knowledge in the specification is that of the threads. *)
Lemma zknows_by s pushed n h hp Kh : zinv s pushed n h hp Kh -> zknown_by s (zknows s Kh).
Proof.
  intros I. pose proof I as []. split; [done|]. intros i pc K Hi. split; [simpl; unfold zturns; by rewrite Hi|].
  intros Hh. destruct (zi_prods0 _ _ _ Hi) as [_ Hx].
  destruct (decide (h = Some i)) as [->|Hne]; [|by rewrite Hx in Hh].
  destruct zi_holder0 as (Hi' & _). rewrite Hi in Hi'. by injection Hi' as <- <-.
Qed.

(** *** Loads that are up to date *)

Lemma zcas_fresh s pushed n h hp Kh i K :
  zinv s pushed n h hp Kh -> z_prods s !! i = Some (ZCas, K) ->
  match zcas (length (z_flag s) - 1) (z_flag s) K with
  | CasDone _ _ => h = None | CasFailed _ => h <> None | CasUnreadable => False
  end.
Proof.
  intros I Hi. pose proof (zflag_pos _ _ _ _ _ _ I). pose proof I as []. destruct zi_flag_last0 as (fl & m & Hfl & Hm).
  destruct (zi_prods0 _ _ _ Hi) as [[_ _ Hk _] _]. unfold zcas, zload. cbn [zstamp].
  destruct (Nat.ltb_spec (length (z_flag s) - 1) (k_flag K)); [lia|].
  assert (Hl : z_flag s !! (length (z_flag s) - 1)%nat = Some m).
  { rewrite Hfl, length_app. simpl. by rewrite list_lookup_middle by lia. }
  rewrite Hl. cbv [mbind option_bind]. destruct h as [j|]; [by rewrite Hm|]. destruct Hm as [-> _].
  change (0 =? 0) with true. cbv beta iota.
  rewrite (proj2 (Nat.eqb_eq (S (length (z_flag s) - 1)) _)) by lia. done.
Qed.

Lemma ztail_fresh s pushed n h hp Kh i head K rq :
  zinv s pushed n h hp Kh -> z_prods s !! i = Some (ZLoadTail head, K) ->
  exists tail K', zproducer_step Capacity i (length (z_tail s) - 1) rq s = ZStep None (set_prod i (ZTest head tail) K' s) /\
    k_tail K' = n.
Proof.
  intros I Hi. pose proof (zinv_bounds _ _ _ _ _ _ I) as (? & ? & _). pose proof I as [].
  destruct (zi_prods0 _ _ _ Hi) as [[_ Hk _ _] Hh].
  unfold zproducer_step, zload. rewrite Hi. simpl. rewrite zi_tail_len0. simpl. rewrite Nat.sub_0_r.
  destruct (Nat.ltb_spec n (k_tail K)); [lia|]. destruct (lookup_lt_is_Some_2 (z_tail s) n) as [m Hm]; [lia|]. rewrite Hm. simpl.
  eexists _, _. split; [reflexivity|]. destruct (zi_tail0 n m Hm) as (_ & Hx). simpl. lia.
Qed.

Lemma zhead_fresh s pushed n h hp Kh tail :
  zinv s pushed n h hp Kh -> z_cpc s = CLoadHead tail ->
  exists head K, zconsumer_step Capacity (length (z_head s) - 1) s = ZStep None (set_cons (CTest tail head) K s) /\
    k_head K = length pushed.
Proof.
  intros I Hpc. pose proof (zinv_bounds _ _ _ _ _ _ I) as (? & ? & _). pose proof I as [].
  unfold zconsumer_step, zload. rewrite Hpc. simpl. rewrite zi_head_len0. simpl. rewrite Nat.sub_0_r.
  destruct (Nat.ltb_spec (length pushed) (k_head (z_cknow s))); [lia|].
  destruct (lookup_lt_is_Some_2 (z_head s) (length pushed)) as [m Hm]; [lia|]. rewrite Hm. simpl.
  eexists _, _. split; [reflexivity|]. destruct (zi_head0 _ m Hm) as (_ & Hx). simpl. lia.
Qed.

(** The flag excludes: at most one producer is inside a reservation. *)
Lemma zinv_exclusive s pushed n h hp Kh i j pi Ki pj Kj :
  zinv s pushed n h hp Kh ->
  z_prods s !! i = Some (pi, Ki) -> z_prods s !! j = Some (pj, Kj) ->
  holding pi = true -> holding pj = true -> i = j.
Proof.
  intros I Hi Hj Hpi Hpj.
  destruct (decide (h = Some i)) as [->|Hne].
  - destruct (decide (i = j)) as [|Hne]; [done|].
    destruct (zi_prods _ _ _ _ _ _ I _ _ _ Hj) as [_ Hx]. rewrite Hx in Hpj; [done|congruence].
  - destruct (zi_prods _ _ _ _ _ _ I _ _ _ Hi) as [_ Hx]. by rewrite Hx in Hpi.
Qed.
End ZInvariant.

(** ** Running a schedule *)

Section ZSchedule.
Context {T : Type} {Capacity : Z}.

Fixpoint run_zschedule (ms : list zmove) (tr : list zevent) (s : zstate (T:=T))
    : option (list zevent * zstate) :=
  match ms with
  | [] => Some (tr, s)
  | m :: ms =>
      match do_zmove Capacity m s with
      | ZStep e s' => run_zschedule ms (tr ++ match e with Some e => [e] | None => [] end) s'
      | _ => None
      end
  end.

Lemma run_zschedule_exec producers ms : forall tr s tr' s',
  zexec Capacity producers tr s -> run_zschedule ms tr s = Some (tr', s') ->
  zexec Capacity producers tr' s'.
Proof.
  induction ms as [|m ms IH]; simpl; intros tr s tr' s' E; [by intros [= <- <-]|].
  destruct (do_zmove _ _ _) eqn:Em; [|done..]. apply IH. by econstructor.
Qed.

Definition commits (tr : list (zevent (T:=T))) : list T :=
  omap (fun e => match e with Committed _ v => Some v | _ => None end) tr.
Definition consumes (tr : list (zevent (T:=T))) : list T :=
  omap (fun e => match e with Consumed v => Some v | _ => None end) tr.

(** The specification commits and consumes what the trace says. *)
Lemma zrun_trace tr q V :
  zrun Capacity tr q V ->
  commits tr = zq_committed q /\ consumes tr = take (zq_consumed q) (zq_committed q) /\
  (zq_consumed q <= length (zq_committed q))%nat.
Proof.
  unfold commits, consumes. induction 1 as [|tr q V e q' V' _ (IH1 & IH2 & IH3) _ Hs]; [done|].
  rewrite !omap_app, IH1, IH2.
  destruct Hs as [| | | | | | |c n t i v| | | | |c n t o v ? Hv|]; simpl in *; rewrite ?app_nil_r; split_and!; try done.
  - by rewrite take_app_le.
  - rewrite length_app. lia.
  - by rewrite (take_S_r _ _ _ Hv).
  - by apply lookup_lt_Some in Hv.
Qed.
End ZSchedule.

(** ** Properties *)

(** C7. Race freedom of the zero-copy queue.  For any number of producer threads and
    one consumer, in every reachable state and for every value a load may return: no
    step races on a slot, constructs over a live object, destroys or moves from a
    slot that holds none, leaves two unordered stores to [head_], [tail_] or the
    flag, or hands out a second reservation next to a live one. *)
Theorem zero_copy_race_free (T : Type) (Capacity : Z) (CAP : CapacityOk Capacity)
    (producers : nat) (tr : list (zevent (T:=T))) (s : zstate) (m : zmove) :
  zexec Capacity producers tr s -> do_zmove Capacity m s <> ZUndefined.
Proof.
  intros (pushed & n & h & hp & Kh & I & _)%zexec_inv E.
  pose proof (do_zmove_good _ _ _ _ _ _ m I) as G. by rewrite E in G.
Qed.

(** Capacity 2 and two producers.  Producer 0 reserves, builds 10 over 9 and commits,
    while the flag turns producer 1 away; producer 1 reserves next, builds 20 and
    commits; the third reservation finds the queue full (on a tail the producer has
    not refreshed) until 10 is consumed; the last one is built and cancelled. *)
Definition zsample_schedule : list (zmove (T:=nat)) :=
  let p i k := ZMoveP i k RqReserve in
  [p 0 0; p 0 0; p 1 0; p 0 0; p 1 1; p 0 0; p 0 0;
   ZMoveP 0 0 (RqConstruct 9); p 0 0; ZMoveP 0 0 (RqConstruct 10); p 0 0; p 0 0;
   ZMoveP 0 0 RqCommit; ZMoveC 0; p 0 0; ZMoveC 0; p 0 0;
   p 1 0; p 1 2; p 1 1; p 1 0; p 1 0; ZMoveP 1 0 (RqConstruct 20); p 1 0; ZMoveP 1 0 RqCommit;
   p 1 0; p 1 0;
   p 0 0; p 0 4; p 0 2; ZMoveC 1; ZMoveC 0; ZMoveC 0; ZMoveC 0; ZMoveC 0; p 0 0; p 0 0; p 0 0;
   p 1 0; p 1 6; p 1 2; p 1 1; p 1 0; ZMoveP 1 0 (RqConstruct 30); p 1 0; ZMoveP 1 0 RqCancel;
   p 1 0; p 1 0]%nat.

Definition zsample_trace : list (zevent (T:=nat)) :=
  [Busy 1; Reserved 0; Constructed 0 9; Constructed 0 10; Committed 0 10; Reserved 1; Constructed 1 20;
   Committed 1 20; Consumed 10; Full 0; Reserved 1; Constructed 1 30; Cancelled 1]%nat.

Definition zsample_state : zstate (T:=nat) :=
  match run_zschedule (Capacity:=2) zsample_schedule [] (zstate_init 2 2) with
  | Some (_, s) => s | None => zstate_init 2 2 end.

Lemma zsample_exec : zexec 2 2 zsample_trace zsample_state.
Proof.
  apply (run_zschedule_exec 2 zsample_schedule [] (zstate_init 2 2)); [constructor|].
  vm_compute. reflexivity.
Qed.

Lemma zero_copy_race_free_witness :
  zexec 2 2 zsample_trace zsample_state /\
  do_zmove 2 (ZMoveP 0 0 RqReserve) zsample_state <> ZUndefined.
Proof.
  split; [exact zsample_exec|].
  exact (zero_copy_race_free nat 2 CapacityOk_2 2 zsample_trace zsample_state
    (ZMoveP 0 0 RqReserve) zsample_exec).
Defined.

(** C8. Linearizability and exclusion.  The calls of all threads, in the order of
    their publishing stores, are a run of one FIFO of [Capacity] elements with one
    reservation: what is consumed is what was committed, by any producer, in commit order and once.
    In every reachable state a step is a step of that queue, decided by exactly what the threads have
    observed: a reservation is given only while there is none and if not all slots hold values not known to be
    consumed, is full only if they all do, and is busy only if the producer saw the flag taken in
    a turn it did not know to be over; a commit is refused only without a constructed object; consuming
    finds the queue empty only if no further commit is known.  Knowledge never shrinks and may lag behind
    since loads may be stale; a load of the latest store of an index brings it up to date, and a
    compare-exchange on the latest store of the flag succeeds if and only if there is no reservation.  Two
    threads are never inside a reservation at the same time. *)
Theorem zero_copy_concurrent_fifo (T : Type) (Capacity : Z) (CAP : CapacityOk Capacity)
    (producers : nat) (tr : list (zevent (T:=T))) (s : zstate) (rq : request) :
  zexec Capacity producers tr s ->
  (exists q V, zrun Capacity tr q V /\ zknown_by s V /\
     commits tr = zq_committed q /\ commits tr = consumes tr ++ zq_content q /\
     Z.of_nat (length (zq_content q)) <= Capacity /\
     (forall m e s', do_zmove Capacity m s = ZStep e s' ->
        exists q' V', zeffect Capacity V V' q e q' /\ zlearn q' V V' /\ zknown_by s' V') /\
     (forall i K, z_prods s !! i = Some (ZCas, K) -> exists s1,
        zproducer_step Capacity i (length (z_flag s) - 1) rq s =
          ZStep (match zq_lock q with Some _ => Some (Busy i) | None => None end) s1) /\
     (forall i head K, z_prods s !! i = Some (ZLoadTail head, K) -> exists tail K',
        zproducer_step Capacity i (length (z_tail s) - 1) rq s = ZStep None (set_prod i (ZTest head tail) K' s) /\
        k_tail K' = zq_consumed q) /\
     (forall tail, z_cpc s = CLoadHead tail -> exists head K,
        zconsumer_step Capacity (length (z_head s) - 1) s = ZStep None (set_cons (CTest tail head) K s) /\
        k_head K = length (zq_committed q))) /\
  forall i j pi Ki pj Kj, z_prods s !! i = Some (pi, Ki) -> z_prods s !! j = Some (pj, Kj) ->
    holding pi = true -> holding pj = true -> i = j.
Proof.
  intros (pushed & n & h & hp & Kh & I & R)%zexec_inv. split.
  - exists (zabs s pushed n h hp), (zknows s Kh). destruct (zrun_trace _ _ _ R) as (E1 & E2 & _).
    split; [exact R|]. split; [by eapply zknows_by|]. split; [done|]. split_and!.
    + rewrite E1, E2. unfold zq_content. by rewrite take_drop.
    + pose proof (zinv_bounds _ _ _ _ _ _ I). pose proof (C_bounds (Capacity:=Capacity)).
      unfold zq_content. simpl. rewrite length_drop. lia.
    + intros m e s' Hm. destruct (do_zmove_sim _ _ _ _ _ _ _ _ _ I Hm) as (p' & n' & h' & hp' & Kh' & I' & L & E).
      exists (zabs s' p' n' h' hp'), (zknows s' Kh'). split_and!; [done| |by eapply zknows_by]; apply L.
    + intros i K Hi. pose proof (zcas_fresh _ _ _ _ _ _ _ _ I Hi) as F. unfold zproducer_step. rewrite Hi. simpl.
      destruct (zcas _ _ _); [subst h| |done]; [by eexists|]. destruct h; [by eexists|done].
    + intros i head K. exact (ztail_fresh _ _ _ _ _ _ _ _ _ _ I).
    + intros tail. exact (zhead_fresh _ _ _ _ _ _ _ I).
  - intros i j pi Ki pj Kj. by apply (zinv_exclusive _ _ _ _ _ _ _ _ _ _ _ _ I).
Qed.

Lemma zero_copy_concurrent_fifo_witness :
  zexec 2 2 zsample_trace zsample_state /\
  exists q V, zrun 2 zsample_trace q V /\ zq_content q = [20]%nat.
Proof.
  split; [exact zsample_exec|].
  destruct (zero_copy_concurrent_fifo nat 2 CapacityOk_2 2 zsample_trace zsample_state RqCommit zsample_exec)
    as [(q & V & R & _ & _ & E & _) _].
  exists q, V. split; [exact R|]. vm_compute commits in E. vm_compute consumes in E. by injection E as <-.
Defined.
