(* ===== verification/TwoThreads.v ===== *)
(** * Programs with one producer thread and one consumer thread

    A program that drives one ring buffer from two threads, as tools/stress_spsc.cpp and
    apps/aether_bench.cpp do: each thread is a small automaton ([thread_code]) whose
    calls of [try_push] and [try_pop] run on the machine of SpscConcurrent.v,
    interleaved step by step with the other thread, and whose other steps work on the
    shared atomics of the program.  The laws of a counting loop ([CountingLoops])
    give, for any such program, that it can always still run to completion. *)

From stdpp Require Import relations.
From S2P Require Import Prelude Spsc SpscConcurrent.

(** The code of a thread with local state [S] over shared variables [G]: the call it
    is in, if any, its next step otherwise ([k] resolves a load), and what it does
    with the reply of a call. *)
Record thread_code (G A R S : Type) : Type := mkCode {
  code_call : S -> option A;
  code_local : nat -> S -> G -> option (S * G);
  code_return : R -> S -> S }.
Arguments mkCode {G A R S} _ _ _.
Arguments code_call {G A R S} _ _.
Arguments code_local {G A R S} _ _ _ _.
Arguments code_return {G A R S} _ _ _.

Section TwoThreads.
Context {T G SP SC : Type} (Capacity : Z).
Context (P : thread_code G T bool SP) (K : thread_code G unit (option T) SC).

Record program : Type := mkProgram {
  pr_queue : state (T:=T); pr_shared : G; pr_prod : SP; pr_cons : SC }.

Inductive program_result : Type :=
  | PStep (e : option (event (T:=T))) (r : program)
  | PUndefined
  | PBlocked.

Definition push_reply (e : option (event (T:=T))) : option bool :=
  match e with Some (Pushed _) => Some true | Some (PushFull _) => Some false | _ => None end.
Definition pop_reply (e : option (event (T:=T))) : option (option T) :=
  match e with Some (Popped v) => Some (Some v) | Some PopEmpty => Some None | _ => None end.

Definition returned {A R S} (c : thread_code G A R S) (r : option R) (s : S) : S :=
  match r with Some r => code_return c r s | None => s end.

Definition prod_thread (k : nat) (r : program) : program_result :=
  match code_call P (pr_prod r) with
  | Some v =>
      match producer_step Capacity k v (pr_queue r) with
      | Step e q => PStep e (mkProgram q (pr_shared r) (returned P (push_reply e) (pr_prod r)) (pr_cons r))
      | Undefined_behaviour => PUndefined
      | Unreadable => PBlocked
      end
  | None =>
      match code_local P k (pr_prod r) (pr_shared r) with
      | Some (p, g) => PStep None (mkProgram (pr_queue r) g p (pr_cons r))
      | None => PBlocked
      end
  end.

Definition cons_thread (k : nat) (r : program) : program_result :=
  match code_call K (pr_cons r) with
  | Some _ =>
      match consumer_step Capacity k (pr_queue r) with
      | Step e q => PStep e (mkProgram q (pr_shared r) (pr_prod r) (returned K (pop_reply e) (pr_cons r)))
      | Undefined_behaviour => PUndefined
      | Unreadable => PBlocked
      end
  | None =>
      match code_local K k (pr_cons r) (pr_shared r) with
      | Some (c, g) => PStep None (mkProgram (pr_queue r) g (pr_prod r) c)
      | None => PBlocked
      end
  end.

Inductive turn : Set := TurnP (k : nat) | TurnC (k : nat).
Definition do_turn (t : turn) (r : program) : program_result :=
  match t with TurnP k => prod_thread k r | TurnC k => cons_thread k r end.

Definition events (e : option (event (T:=T))) : list event :=
  match e with Some e => [e] | None => [] end.

Inductive prun (r0 : program) : list event -> program -> Prop :=
  | prun_start : prun r0 [] r0
  | prun_step tr r t e r' : prun r0 tr r -> do_turn t r = PStep e r' -> prun r0 (tr ++ events e) r'.

Fixpoint run_turns (ts : list turn) (tr : list event) (r : program) : option (list event * program) :=
  match ts with
  | [] => Some (tr, r)
  | t :: ts =>
      match do_turn t r with
      | PStep e r' => run_turns ts (tr ++ events e) r'
      | _ => None
      end
  end.

Lemma run_turns_prun r0 ts : forall tr r tr' r',
  prun r0 tr r -> run_turns ts tr r = Some (tr', r') -> prun r0 tr' r'.
Proof.
  induction ts as [|t ts IH]; simpl; intros tr r tr' r' E; [by intros [= <- <-]|].
  destruct (do_turn t r) eqn:Et; [|done..]. apply IH. by econstructor.
Qed.

(** ** The queue of a program *)

Context {CAP : CapacityOk Capacity}.

(** The value a call in progress pushes. *)
Definition pc_arg (pc : producer_pc (T:=T)) : option T :=
  match pc with
  | PIdle => None
  | PLoadHead v | PLoadTail v _ | PTest v _ _ | PConstruct v _ | PStoreHead v _ => Some v
  end.

(** The queue is inside a call only when its thread is. *)
Record calls_ok (r : program) : Prop := {
  ok_push v : pc_arg (p_pc (pr_queue r)) = Some v -> code_call P (pr_prod r) = Some v;
  ok_pop : c_pc (pr_queue r) <> CIdle -> code_call K (pr_cons r) = Some tt }.

Lemma producer_step_arg k v q e q' :
  (forall w, pc_arg (p_pc q) = Some w -> w = v) -> producer_step Capacity k v q = Step e q' ->
  c_pc q' = c_pc q /\
  match e with
  | None => pc_arg (p_pc q') = Some v
  | Some (Pushed w) | Some (PushFull w) => w = v /\ p_pc q' = PIdle
  | Some (Popped _) | Some PopEmpty => False
  end.
Proof.
  intros Hv. unfold producer_step.
  destruct (p_pc q) as [|w|w h|w h t|w h|w h]; simpl in Hv; try specialize (Hv w eq_refl) as <-;
    repeat case_match; intros; simplify_eq; done.
Qed.

Lemma consumer_step_returns k (q : state (T:=T)) e q' :
  consumer_step Capacity k q = Step e q' ->
  p_pc q' = p_pc q /\
  match e with
  | None => True
  | Some (Popped _) | Some PopEmpty => c_pc q' = CIdle
  | Some (Pushed _) | Some (PushFull _) => False
  end.
Proof. unfold consumer_step. repeat case_match; intros; simplify_eq; done. Qed.

(** What one turn of a thread does. *)
Inductive turn_spec (r : program) : option (event (T:=T)) -> program -> Prop :=
  | turn_prod_local k p g :
      code_call P (pr_prod r) = None -> code_local P k (pr_prod r) (pr_shared r) = Some (p, g) ->
      turn_spec r None (mkProgram (pr_queue r) g p (pr_cons r))
  | turn_prod_inside v q :
      code_call P (pr_prod r) = Some v ->
      turn_spec r None (mkProgram q (pr_shared r) (pr_prod r) (pr_cons r))
  | turn_pushed v q :
      code_call P (pr_prod r) = Some v ->
      turn_spec r (Some (Pushed v))
        (mkProgram q (pr_shared r) (code_return P true (pr_prod r)) (pr_cons r))
  | turn_push_full v q :
      code_call P (pr_prod r) = Some v ->
      turn_spec r (Some (PushFull v))
        (mkProgram q (pr_shared r) (code_return P false (pr_prod r)) (pr_cons r))
  | turn_cons_local k c g :
      code_call K (pr_cons r) = None -> code_local K k (pr_cons r) (pr_shared r) = Some (c, g) ->
      turn_spec r None (mkProgram (pr_queue r) g (pr_prod r) c)
  | turn_cons_inside q :
      code_call K (pr_cons r) = Some tt ->
      turn_spec r None (mkProgram q (pr_shared r) (pr_prod r) (pr_cons r))
  | turn_popped v q :
      code_call K (pr_cons r) = Some tt ->
      turn_spec r (Some (Popped v))
        (mkProgram q (pr_shared r) (pr_prod r) (code_return K (Some v) (pr_cons r)))
  | turn_pop_empty q :
      code_call K (pr_cons r) = Some tt ->
      turn_spec r (Some PopEmpty)
        (mkProgram q (pr_shared r) (pr_prod r) (code_return K None (pr_cons r))).

Lemma do_turn_ok t r e r' :
  calls_ok r -> do_turn t r = PStep e r' -> turn_spec r e r' /\ calls_ok r'.
Proof.
  intros [O1 O2]. destruct t as [k|k]; simpl; unfold prod_thread, cons_thread.
  - destruct (code_call P (pr_prod r)) as [v|] eqn:Hc.
    + destruct (producer_step _ _ _ _) as [e1 q| |] eqn:E; [|done..]. intros [= <- <-].
      apply producer_step_arg in E as [Hcp He]; [|intros w Hw; specialize (O1 w Hw); congruence].
      destruct e1 as [[w|w|w|]|]; try done.
      * destruct He as [-> Hpc]. split; [by constructor|]. split; simpl; [by rewrite Hpc|].
        by rewrite Hcp.
      * destruct He as [-> Hpc]. split; [by constructor|]. split; simpl; [by rewrite Hpc|].
        by rewrite Hcp.
      * split; [by econstructor|]. split; simpl; [congruence|by rewrite Hcp].
    + destruct (code_local _ _ _ _) as [[p g]|] eqn:E; [|done]. intros [= <- <-].
      split; [by econstructor|]. split; simpl; [|done]. intros v Hv. specialize (O1 v Hv). congruence.
  - destruct (code_call K (pr_cons r)) as [[]|] eqn:Hc.
    + destruct (consumer_step _ _ _) as [e1 q| |] eqn:E; [|done..]. intros [= <- <-].
      apply consumer_step_returns in E as [Hpp He]. destruct e1 as [[w|w|w|]|]; try done.
      * split; [by constructor|]. split; simpl; [by rewrite Hpp|by rewrite He].
      * split; [by constructor|]. split; simpl; [by rewrite Hpp|by rewrite He].
      * split; [by constructor|]. split; simpl; [by rewrite Hpp|done].
    + destruct (code_local _ _ _ _) as [[c g]|] eqn:E; [|done]. intros [= <- <-].
      split; [by econstructor|]. split; simpl; [done|]. intros Hne. specialize (O2 Hne). congruence.
Qed.

(** A program starts with an idle queue. *)
Definition start (g : G) (p : SP) (c : SC) : program := mkProgram (state_init Capacity) g p c.

Lemma prun_queue g p c tr r :
  prun (start g p c) tr r -> exec Capacity tr (pr_queue r) /\ calls_ok r.
Proof.
  induction 1 as [|tr r t e r' _ [IE IO] Ht]; [by split; [constructor|split]|].
  split; [|by apply (do_turn_ok _ _ _ _ IO Ht)].
  destruct t as [k|k]; simpl in Ht; unfold prod_thread, cons_thread in Ht.
  - destruct (code_call P _) as [v|].
    + destruct (producer_step _ _ _ _) as [e1 q| |] eqn:E; [|done..]. simplify_eq. simpl.
      by apply (exec_step _ _ _ (MoveP k v) _ _ IE).
    + destruct (code_local _ _ _ _) as [[]|]; [|done]. simplify_eq. simpl. by rewrite app_nil_r.
  - destruct (code_call K _) as [v|].
    + destruct (consumer_step _ _ _) as [e1 q| |] eqn:E; [|done..]. simplify_eq. simpl.
      by apply (exec_step _ _ _ (MoveC k) _ _ IE).
    + destruct (code_local _ _ _ _) as [[]|]; [|done]. simplify_eq. simpl. by rewrite app_nil_r.
Qed.

(** No turn of a program is undefined. *)
Lemma do_turn_defined g p c tr r t :
  prun (start g p c) tr r -> do_turn t r <> PUndefined.
Proof.
  intros [(pushed & n & I & _)%exec_inv _]%prun_queue.
  destruct t as [k|k]; simpl; unfold prod_thread, cons_thread; repeat case_match; try done.
  - exfalso. by eapply (proj1 (producer_step_refines _ _ _ _ _ I)).
  - exfalso. by eapply (proj1 (consumer_step_refines _ _ _ _ I)).
Qed.

Lemma prun_fifo g p c tr r :
  prun (start g p c) tr r -> exists l, pushes tr = pops tr ++ l.
Proof.
  intros [(pushed & n & I & R)%exec_inv _]%prun_queue. exists (drop n pushed).
  by pose proof (fifo_run_conserves _ _ _ _ R).
Qed.

(** Rule induction with the facts about the queue at hand. *)
Lemma prun_invariant g p c (Inv : list event -> program -> Prop) :
  Inv [] (start g p c) ->
  (forall tr r e r' l, Inv tr r -> turn_spec r e r' ->
     pushes (tr ++ events e) = pops (tr ++ events e) ++ l -> Inv (tr ++ events e) r') ->
  forall tr r, prun (start g p c) tr r -> Inv tr r.
Proof.
  intros H0 HS tr r. induction 1 as [|tr r t e r' Hr IH Ht]; [done|].
  destruct (prun_fifo _ _ _ _ _ (prun_step _ _ _ _ _ _ Hr Ht)) as [l Hl].
  apply prun_queue in Hr as [_ Ho]. apply (HS _ _ _ _ l IH); [|done].
  by apply (do_turn_ok _ _ _ _ Ho Ht).
Qed.
End TwoThreads.

(** ** Calls can be completed *)

Section Completion.
Context {T : Type} {Capacity : Z} {CAP : CapacityOk Capacity}.
Implicit Types (q : state (T:=T)) (pushed : list T) (n : nat).

(** There is room, and the thread has not tested a stale tail. *)
Definition room q : Prop :=
  (length (hist_head q) < length (hist_tail q) + Z.to_nat Capacity)%nat /\
  match p_pc q with PTest _ _ _ => S (v_tail (p_view q)) = length (hist_tail q) | _ => True end.
(** There is an element, and the thread has not tested a stale head. *)
Definition ready q : Prop :=
  (length (hist_tail q) < length (hist_head q))%nat /\
  match c_pc q with CTest _ _ => S (v_head (c_view q)) = length (hist_head q) | _ => True end.

(** Statements to run, from the entry of the call on. *)
Definition push_rank (pc : producer_pc (T:=T)) : nat :=
  match pc with PIdle => 6 | _ => producer_rank pc end.
Definition pop_rank (pc : consumer_pc (T:=T)) : nat :=
  match pc with CIdle => 7 | _ => consumer_rank pc end.

Lemma producer_advances q pushed n v :
  inv (Capacity:=Capacity) q pushed n ->
  exists k e q', producer_step Capacity k v q = Step e q' /\
    (e = None -> (push_rank (p_pc q') < push_rank (p_pc q))%nat) /\
    (room q -> match e with None => room q' | Some (PushFull _) => False | _ => True end).
Proof.
  intros I. pose proof I as [].
  assert (Hh : is_Some (load relaxed Head (length pushed) (hist_head q) (p_view q))).
  { apply load_enabled; simpl; lia. }
  assert (Ht : is_Some (load acquire Tail n (hist_tail q) (p_view q))).
  { apply load_enabled; simpl; lia. }
  unfold producer_step, room. destruct (p_pc q) as [|w|w h|w h t|w h|w h] eqn:Hpc.
  - exists 0%nat. eexists _, _. split; [done|]. simpl. split; [lia|done].
  - destruct Hh as [[z V] E]. exists (length pushed). rewrite E. eexists _, _. split; [done|].
    simpl. split; [lia|done].
  - destruct Ht as [[z V] E]. exists n. rewrite E. eexists _, _. split; [done|].
    apply load_inv in E as (_ & m & Hm & _ & ->). destruct (inv_ht _ _ Hm) as (_ & [] & _ & _).
    simpl. split; [lia|]. intros [? _]. split; [done|]. lia.
  - exists 0%nat. rewrite (producer_distance _ _ _ _ _ _ I Hpc).
    pose proof (C_bounds (Capacity:=Capacity)) as (? & ? & ?).
    destruct (Z.geb_spec (Z.of_nat (length pushed) - Z.of_nat (v_tail (p_view q))) Capacity).
    + eexists _, _. split; [done|]. split; [done|]. intros [? ?]. lia.
    + eexists _, _. split; [done|]. simpl. split; [lia|]. by intros [? _].
  - destruct (producer_construct_inv _ _ _ _ _ I Hpc) as (cs & V & -> & _). exists 0%nat.
    eexists _, _. split; [done|]. simpl. split; [lia|done].
  - exists 0%nat. destruct (store _ _ _ _ _). eexists _, _. by split.
Qed.

Lemma consumer_advances q pushed n :
  inv (Capacity:=Capacity) q pushed n ->
  exists k e q', consumer_step Capacity k q = Step e q' /\
    (e = None -> (pop_rank (c_pc q') < pop_rank (c_pc q))%nat) /\
    (ready q -> match e with None => ready q' | Some PopEmpty => False | _ => True end).
Proof.
  intros I. pose proof I as [].
  assert (Ht : is_Some (load relaxed Tail n (hist_tail q) (c_view q))).
  { apply load_enabled; simpl; lia. }
  assert (Hh : is_Some (load acquire Head (length pushed) (hist_head q) (c_view q))).
  { apply load_enabled; simpl; lia. }
  pose proof (consumer_step_refines q pushed n 0 I) as [Hub _].
  unfold consumer_step, ready in *. destruct (c_pc q) as [| |t|t h|t|t out|t out] eqn:Hpc.
  - exists 0%nat. eexists _, _. split; [done|]. simpl. split; [lia|done].
  - destruct Ht as [[z V] E]. exists n. rewrite E. eexists _, _. split; [done|]. simpl. split; [lia|done].
  - destruct Hh as [[z V] E]. exists (length pushed). rewrite E. eexists _, _. split; [done|].
    apply load_inv in E as (_ & m & Hm & _ & ->). destruct (inv_hh _ _ Hm) as (_ & [] & _ & _).
    simpl. split; [lia|]. intros [? _]. split; [done|]. lia.
  - exists 0%nat. rewrite (consumer_test_exact _ _ _ _ _ I Hpc). case_bool_decide as Hd.
    + eexists _, _. split; [done|]. split; [done|]. intros [? ?]. lia.
    + eexists _, _. split; [done|]. simpl. split; [lia|]. by intros [? _].
  - exists 0%nat. destruct (access _ _ _ _ _) as [[[a cs] V]|]; [|done].
    eexists _, _. split; [done|]. simpl. split; [lia|done].
  - exists 0%nat. destruct (access _ _ _ _ _) as [[[a cs] V]|]; [|done].
    eexists _, _. split; [done|]. simpl. split; [lia|done].
  - exists 0%nat. destruct (store _ _ _ _ _). eexists _, _. by split.
Qed.
End Completion.

(** ** Counting loops *)

Section Liveness.
Context {T G SP SC : Type} {Capacity : Z} {CAP : CapacityOk Capacity}.
Context {P : thread_code G T bool SP} {K : thread_code G unit (option T) SC}.
Context {g0 : G} {p0 : SP} {c0 : SC}.
Implicit Types (r : program (T:=T) (G:=G) (SP:=SP) (SC:=SC)) (tr : list (event (T:=T))).
Abbreviation reached := (prun Capacity P K (start Capacity g0 p0 c0)).
Abbreviation turns := (run_turns Capacity P K).

(** Two loops that push and pop [N] values: [pl] and [cl] values are left to do,
    outside of calls the loops move on ([prk], [crk]) until they are done. *)
Class CountingLoops (N : nat) (pl prk : SP -> nat) (pd : SP -> bool)
    (cl crk : SC -> nat) (cd : SC -> bool) : Prop := {
  loops_count tr r : reached tr r ->
    (length (pushes tr) + pl (pr_prod r) = N)%nat /\ (length (pops tr) + cl (pr_cons r) = N)%nat;
  loops_prod tr r : reached tr r -> code_call P (pr_prod r) = None -> pd (pr_prod r) = false ->
    exists k p g, code_local P k (pr_prod r) (pr_shared r) = Some (p, g) /\
                  (prk p < prk (pr_prod r))%nat;
  loops_cons tr r : reached tr r -> code_call K (pr_cons r) = None -> cd (pr_cons r) = false ->
    exists k c g, code_local K k (pr_cons r) (pr_shared r) = Some (c, g) /\
                  (crk c < crk (pr_cons r))%nat;
  loops_pdone tr r : reached tr r -> pd (pr_prod r) = true -> pl (pr_prod r) = 0%nat;
  loops_cdone tr r : reached tr r -> cd (pr_cons r) = true -> cl (pr_cons r) = 0%nat;
  loops_ccall tr r : reached tr r -> is_Some (code_call K (pr_cons r)) -> (0 < cl (pr_cons r))%nat }.

Lemma run_turns_app ts1 ts2 : forall tr r tr1 r1 tr2 r2,
  turns ts1 tr r = Some (tr1, r1) -> turns ts2 tr1 r1 = Some (tr2, r2) ->
  turns (ts1 ++ ts2) tr r = Some (tr2, r2).
Proof.
  induction ts1 as [|t ts IH]; simpl; intros tr r tr1 r1 tr2 r2; [by intros [= -> ->]|].
  destruct (do_turn _ _ _ t r); [|done..]. apply IH.
Qed.

Lemma run_turns_cons t ts tr r e r1 tr2 r2 :
  do_turn Capacity P K t r = PStep e r1 -> turns ts (tr ++ events e) r1 = Some (tr2, r2) ->
  turns (t :: ts) tr r = Some (tr2, r2).
Proof. simpl. by intros ->. Qed.

(** A call of [try_push] runs to its end. *)
Lemma push_completes tr r v :
  reached tr r -> code_call P (pr_prod r) = Some v ->
  exists ts e r', turns ts tr r = Some (tr ++ [e], r') /\
    pr_cons r' = pr_cons r /\ c_pc (pr_queue r') = c_pc (pr_queue r) /\
    p_pc (pr_queue r') = PIdle /\ (e = Pushed v \/ e = PushFull v /\ ~ room (Capacity:=Capacity) (pr_queue r)).
Proof.
  remember (push_rank (p_pc (pr_queue r))) as d eqn:Hd. revert r Hd.
  induction (lt_wf d) as [d _ IH]. intros r -> Hr Hc.
  destruct (prun_queue _ _ _ _ _ _ _ _ Hr) as [(pushed & n & I & _)%exec_inv [O1 _]].
  destruct (producer_advances _ _ _ v I) as (k & e & q & Hs & Hrank & Hroom).
  destruct (producer_step_arg Capacity k v _ _ _ ltac:(intros w Hw; specialize (O1 w Hw); congruence) Hs)
    as [Hcp He].
  assert (Hdo : do_turn Capacity P K (TurnP k) r = PStep e (mkProgram q (pr_shared r)
    (returned P (push_reply e) (pr_prod r)) (pr_cons r))).
  { simpl. unfold prod_thread. by rewrite Hc, Hs. }
  destruct e as [[w|w|w|]|]; try done.
  - destruct He as [-> Hpc]. eexists [TurnP k], _, _. split; [by eapply run_turns_cons|].
    split_and!; try done. by left.
  - destruct He as [-> Hpc]. eexists [TurnP k], _, _. split; [by eapply run_turns_cons|].
    split_and!; try done. right. auto.
  - set (r1 := mkProgram q _ _ _) in *.
    destruct (IH (push_rank (p_pc q)) (Hrank eq_refl) r1 eq_refl) as (ts & e & r' & Hts & ? & Hcp' & ? & He');
      [by rewrite <- (app_nil_r tr); eapply (prun_step _ _ _ _ _ _ _ None)|done|].
    exists (TurnP k :: ts), e, r'. split.
    { eapply run_turns_cons; [done|]. simpl. by rewrite app_nil_r. }
    split_and!; try done; [by rewrite Hcp'|]. destruct He' as [->|[-> Hno]]; [by left|right].
    split; [done|]. intros Hyes. by apply Hno, Hroom.
Qed.

(** A call of [try_pop] runs to its end. *)
Lemma pop_completes tr r :
  reached tr r -> code_call K (pr_cons r) = Some tt ->
  exists ts e r', turns ts tr r = Some (tr ++ [e], r') /\
    pr_prod r' = pr_prod r /\ p_pc (pr_queue r') = p_pc (pr_queue r) /\
    c_pc (pr_queue r') = CIdle /\ ((exists v, e = Popped v) \/ e = PopEmpty /\ ~ ready (pr_queue r)).
Proof.
  remember (pop_rank (c_pc (pr_queue r))) as d eqn:Hd. revert r Hd.
  induction (lt_wf d) as [d _ IH]. intros r -> Hr Hc.
  destruct (prun_queue _ _ _ _ _ _ _ _ Hr) as [(pushed & n & I & _)%exec_inv _].
  destruct (consumer_advances _ _ _ I) as (k & e & q & Hs & Hrank & Hready).
  destruct (consumer_step_returns Capacity k _ _ _ Hs) as [Hpp He].
  assert (Hdo : do_turn Capacity P K (TurnC k) r = PStep e (mkProgram q (pr_shared r)
    (pr_prod r) (returned K (pop_reply e) (pr_cons r)))).
  { simpl. unfold cons_thread. by rewrite Hc, Hs. }
  destruct e as [[w|w|w|]|]; try done.
  - eexists [TurnC k], _, _. split; [by eapply run_turns_cons|]. split_and!; try done. left. eauto.
  - eexists [TurnC k], _, _. split; [by eapply run_turns_cons|]. split_and!; try done. right. auto.
  - set (r1 := mkProgram q _ _ _) in *.
    destruct (IH (pop_rank (c_pc q)) (Hrank eq_refl) r1 eq_refl) as (ts & e & r' & Hts & ? & Hpp' & ? & He');
      [by rewrite <- (app_nil_r tr); eapply (prun_step _ _ _ _ _ _ _ None)|done|].
    exists (TurnC k :: ts), e, r'. split.
    { eapply run_turns_cons; [done|]. simpl. by rewrite app_nil_r. }
    split_and!; try done; [by rewrite Hpp'|]. destruct He' as [?|[-> Hno]]; [by left|right].
    split; [done|]. intros Hyes. by apply Hno, Hready.
Qed.

Context {N : nat} {pl prk : SP -> nat} {pd : SP -> bool} {cl crk : SC -> nat} {cd : SC -> bool}.
Context {LOOPS : CountingLoops N pl prk pd cl crk cd}.

(** A thread that is done or about to make a call. *)
Definition settled_prod r : Prop :=
  pd (pr_prod r) = true \/ is_Some (code_call P (pr_prod r)) /\ p_pc (pr_queue r) = PIdle.
Definition settled_cons r : Prop :=
  cd (pr_cons r) = true \/ is_Some (code_call K (pr_cons r)) /\ c_pc (pr_queue r) = CIdle.

Lemma prod_locals tr r :
  reached tr r -> p_pc (pr_queue r) = PIdle ->
  exists ts r', turns ts tr r = Some (tr, r') /\ settled_prod r' /\
    pr_cons r' = pr_cons r /\ pr_queue r' = pr_queue r.
Proof.
  remember (prk (pr_prod r)) as d eqn:Hd. revert r Hd.
  induction (lt_wf d) as [d _ IH]. intros r -> Hr Hpc.
  destruct (pd (pr_prod r)) eqn:Hpd; [exists [], r; split_and!; try done; by left|].
  destruct (code_call P (pr_prod r)) as [v|] eqn:Hc; [exists [], r; split_and!; try done; right; eauto|].
  destruct (loops_prod _ _ Hr Hc Hpd) as (k & p & g & Hl & Hrk).
  assert (Hdo : do_turn Capacity P K (TurnP k) r = PStep None (mkProgram (pr_queue r) g p (pr_cons r))).
  { simpl. unfold prod_thread. by rewrite Hc, Hl. }
  destruct (IH _ Hrk (mkProgram (pr_queue r) g p (pr_cons r)) eq_refl) as (ts & r' & Hts & ? & ? & ?);
    [by rewrite <- (app_nil_r tr); eapply (prun_step _ _ _ _ _ _ _ None)|done|].
  exists (TurnP k :: ts), r'. split_and!; try done. eapply run_turns_cons; [done|].
  simpl. by rewrite app_nil_r.
Qed.

Lemma cons_locals tr r :
  reached tr r -> c_pc (pr_queue r) = CIdle ->
  exists ts r', turns ts tr r = Some (tr, r') /\ settled_cons r' /\
    pr_prod r' = pr_prod r /\ pr_queue r' = pr_queue r.
Proof.
  remember (crk (pr_cons r)) as d eqn:Hd. revert r Hd.
  induction (lt_wf d) as [d _ IH]. intros r -> Hr Hpc.
  destruct (cd (pr_cons r)) eqn:Hpd; [exists [], r; split_and!; try done; by left|].
  destruct (code_call K (pr_cons r)) as [v|] eqn:Hc; [exists [], r; split_and!; try done; right; eauto|].
  destruct (loops_cons _ _ Hr Hc Hpd) as (k & p & g & Hl & Hrk).
  assert (Hdo : do_turn Capacity P K (TurnC k) r = PStep None (mkProgram (pr_queue r) g (pr_prod r) p)).
  { simpl. unfold cons_thread. by rewrite Hc, Hl. }
  destruct (IH _ Hrk (mkProgram (pr_queue r) g (pr_prod r) p) eq_refl) as (ts & r' & Hts & ? & ? & ?);
    [by rewrite <- (app_nil_r tr); eapply (prun_step _ _ _ _ _ _ _ None)|done|].
  exists (TurnC k :: ts), r'. split_and!; try done. eapply run_turns_cons; [done|].
  simpl. by rewrite app_nil_r.
Qed.

(** Values moved so far. *)
Definition moved tr : nat := length (pushes tr) + length (pops tr).

Lemma moved_snoc tr (e : event (T:=T)) :
  moved (tr ++ [e]) = (moved tr + match e with Pushed _ | Popped _ => 1 | _ => 0 end)%nat.
Proof. unfold moved, pushes, pops. rewrite !omap_app, !length_app. destruct e; simpl; lia. Qed.

(** A thread settles, unless it moves a value first. *)
Lemma prod_settles tr r :
  reached tr r -> exists ts tr' r', turns ts tr r = Some (tr', r') /\
    ((moved tr < moved tr')%nat \/
     moved tr' = moved tr /\ settled_prod r' /\ (settled_cons r -> settled_cons r')).
Proof.
  intros Hr. destruct (decide (pc_arg (p_pc (pr_queue r)) = None)) as [Hpc|Hpc].
  - destruct (prod_locals tr r Hr) as (ts & r' & ? & ? & Hc & Hq); [by destruct (p_pc _)|].
    exists ts, tr, r'. split; [done|]. right. split_and!; try done. unfold settled_cons. by rewrite Hc, Hq.
  - destruct (pc_arg (p_pc (pr_queue r))) as [v|] eqn:Hv; [|done].
    destruct (prun_queue _ _ _ _ _ _ _ _ Hr) as [_ [O1 _]].
    destruct (push_completes tr r v Hr (O1 v Hv)) as (ts & e & r1 & Hts & Hc & Hcp & Hidle & He).
    pose proof (run_turns_prun _ _ _ _ _ _ _ _ _ Hr Hts) as Hr1.
    destruct (prod_locals _ r1 Hr1 Hidle) as (ts' & r' & Hts' & ? & Hc' & Hq').
    exists (ts ++ ts'), (tr ++ [e]), r'. split; [by eapply run_turns_app|]. rewrite moved_snoc.
    destruct He as [->|[-> _]]; [left; lia|right]. split_and!; [lia|done|].
    unfold settled_cons. by rewrite Hc', Hq', Hc, Hcp.
Qed.

Lemma cons_settles tr r :
  reached tr r -> exists ts tr' r', turns ts tr r = Some (tr', r') /\
    ((moved tr < moved tr')%nat \/
     moved tr' = moved tr /\ settled_cons r' /\ (settled_prod r -> settled_prod r')).
Proof.
  intros Hr. destruct (decide (pop_rank (c_pc (pr_queue r)) = 7%nat)) as [Hpc|Hpc].
  - destruct (cons_locals tr r Hr) as (ts & r' & ? & ? & Hc & Hq); [by destruct (c_pc _)|].
    exists ts, tr, r'. split; [done|]. right. split_and!; try done. unfold settled_prod. by rewrite Hc, Hq.
  - destruct (prun_queue _ _ _ _ _ _ _ _ Hr) as [_ [_ O2]].
    destruct (pop_completes tr r Hr) as (ts & e & r1 & Hts & Hc & Hcp & Hidle & He).
    { apply O2. intros E. by rewrite E in Hpc. }
    pose proof (run_turns_prun _ _ _ _ _ _ _ _ _ Hr Hts) as Hr1.
    destruct (cons_locals _ r1 Hr1 Hidle) as (ts' & r' & Hts' & ? & Hc' & Hq').
    exists (ts ++ ts'), (tr ++ [e]), r'. split; [by eapply run_turns_app|]. rewrite moved_snoc.
    destruct He as [[v ->]|[-> _]]; [left; lia|right]. split_and!; [lia|done|].
    unfold settled_prod. by rewrite Hc', Hq', Hc, Hcp.
Qed.

Definition finished r : bool := pd (pr_prod r) && cd (pr_cons r).

(** Two settled threads are done, or one of them can move a value. *)
Lemma settled_moves tr r :
  reached tr r -> settled_prod r -> settled_cons r ->
  finished r = true \/
  exists ts tr' r', turns ts tr r = Some (tr', r') /\ (moved tr < moved tr')%nat.
Proof.
  intros Hr Hp Hc. destruct (loops_count _ _ Hr) as [Np Nc].
  destruct (prun_queue _ _ _ _ _ _ _ _ Hr) as [(pushed & n & I & R)%exec_inv _].
  pose proof (fifo_run_conserves _ _ _ _ R) as Hl%(f_equal length).
  pose proof (inv_content_bound _ _ _ I) as [Hn _]. pose proof I as [].
  simpl in Hl. rewrite length_app, length_drop in Hl.
  pose proof (C_bounds (Capacity:=Capacity)) as (? & ? & ?).
  destruct (decide (n < length pushed)%nat) as [Hlt|Hge].
  - destruct Hc as [Hc|[[[] Hc] Hpc]]; [pose proof (loops_cdone _ _ Hr Hc); lia|right].
    destruct (pop_completes tr r Hr Hc) as (ts & e & r' & Hts & _ & _ & _ & He).
    exists ts, (tr ++ [e]), r'. split; [done|]. rewrite moved_snoc.
    destruct He as [[v ->]|[_ Hno]]; [lia|]. destruct Hno. split; [lia|by rewrite Hpc].
  - destruct Hp as [Hp|[[v Hp] Hpc]].
    + left. pose proof (loops_pdone _ _ Hr Hp) as Hp0. unfold finished. rewrite Hp. simpl.
      destruct Hc as [Hc|[Hc _]]; [done|]. pose proof (loops_ccall _ _ Hr Hc). lia.
    + right. destruct (push_completes tr r v Hr Hp) as (ts & e & r' & Hts & _ & _ & _ & He).
      exists ts, (tr ++ [e]), r'. split; [done|]. rewrite moved_snoc.
      destruct He as [->|[_ Hno]]; [lia|]. destruct Hno. split; [lia|by rewrite Hpc].
Qed.

(** Whatever happened so far, the program can run to completion. *)
Theorem loops_complete tr r :
  reached tr r -> exists ts tr' r', turns ts tr r = Some (tr', r') /\ finished r' = true.
Proof.
  remember (2 * N - moved tr)%nat as d eqn:Hd. revert tr r Hd.
  induction (lt_wf d) as [d _ IH]. intros tr r -> Hr.
  assert (G1 : forall ts tr1 r1, turns ts tr r = Some (tr1, r1) -> (moved tr < moved tr1)%nat ->
    exists ts tr' r', turns ts tr r = Some (tr', r') /\ finished r' = true).
  { intros ts tr1 r1 Hts Hm. pose proof (run_turns_prun _ _ _ _ _ _ _ _ _ Hr Hts) as Hr1.
    destruct (IH (2 * N - moved tr1)%nat) with (tr := tr1) (r := r1) as (ts2 & tr2 & r2 & ? & ?); try done.
    - destruct (loops_count _ _ Hr1). unfold moved in *. lia.
    - exists (ts ++ ts2), tr2, r2. split; [by eapply run_turns_app|done]. }
  destruct (prod_settles tr r Hr) as (ts1 & tr1 & r1 & T1 & [?|(M1 & S1 & _)]); [eauto|].
  pose proof (run_turns_prun _ _ _ _ _ _ _ _ _ Hr T1) as Hr1.
  destruct (cons_settles tr1 r1 Hr1) as (ts2 & tr2 & r2 & T2 & M2).
  pose proof (run_turns_app _ _ _ _ _ _ _ _ T1 T2) as T12.
  destruct M2 as [?|(M2 & S2 & S1')]; [eapply G1; [done|lia]|].
  pose proof (run_turns_prun _ _ _ _ _ _ _ _ _ Hr1 T2) as Hr2.
  destruct (settled_moves tr2 r2 Hr2 (S1' S1) S2) as [?|(ts3 & tr3 & r3 & T3 & M3)]; [eauto|].
  eapply G1; [by eapply run_turns_app|lia].
Qed.
End Liveness.

(** ** Counting the events of a trace *)

(** Calls that found the queue full or empty. *)
Definition fulls {T} (tr : list (event (T:=T))) : nat :=
  length (omap (fun e => match e with PushFull v => Some v | _ => None end) tr).
Definition empties {T} (tr : list (event (T:=T))) : nat :=
  length (omap (fun e => match e with PopEmpty => Some tt | _ => None end) tr).

Section Events.
Context {T : Type}.
Implicit Types (tr : list (event (T:=T))) (e : event (T:=T)).

Lemma pushes_snoc tr e : pushes (tr ++ [e]) = pushes tr ++ match e with Pushed v => [v] | _ => [] end.
Proof. unfold pushes. rewrite omap_app. by destruct e. Qed.
Lemma pops_snoc tr e : pops (tr ++ [e]) = pops tr ++ match e with Popped v => [v] | _ => [] end.
Proof. unfold pops. rewrite omap_app. by destruct e. Qed.
Lemma fulls_snoc tr e : fulls (tr ++ [e]) = (fulls tr + match e with PushFull _ => 1 | _ => 0 end)%nat.
Proof. unfold fulls. rewrite omap_app, length_app. by destruct e. Qed.
Lemma empties_snoc tr e : empties (tr ++ [e]) = (empties tr + match e with PopEmpty => 1 | _ => 0 end)%nat.
Proof. unfold empties. rewrite omap_app, length_app. by destruct e. Qed.
End Events.

(** Rewrites the counts of an extended trace. *)
Ltac trace_simpl :=
  rewrite ?pushes_snoc, ?pops_snoc, ?fulls_snoc, ?empties_snoc, ?app_nil_r, ?Nat.add_0_r.

Lemma seqZ_snoc n : (0 <= n -> seqZ 0 (n + 1) = seqZ 0 n ++ [n])%Z.
Proof. intros. by rewrite seqZ_app by lia. Qed.
