(* ===== verification/Broker.v ===== *)
(** * The in-memory brokers

    [Broker] (broker.hpp) and [BatchBroker] (batch_broker.hpp) wrap a queue, a
    configuration status and the counters.  Both are verified against the
    interface [SpscQueue]; at the end of the file the ring buffer is plugged in.
    An operation is [None] when the queue underneath is undefined. *)

From S2P Require Import Prelude Core Metrics Spsc.

(** The members of both classes. *)
Record BrokerState (Q : Type) : Type := mkBroker {
  config_status_ : Status;
  queue_ : Q;
  counters_ : BrokerCounters }.
Arguments mkBroker {Q} _ _ _.
Arguments config_status_ {Q} _.
Arguments queue_ {Q} _.
Arguments counters_ {Q} _.

Definition set_queue {Q} (q : Q) (b : BrokerState Q) : BrokerState Q :=
  mkBroker (config_status_ b) q (counters_ b).
Definition bump {Q} (f : BrokerCounters -> BrokerCounters) (b : BrokerState Q) : BrokerState Q :=
  mkBroker (config_status_ b) (queue_ b) (f (counters_ b)).

(** ** broker.hpp *)

Module Broker.
Section Broker.
Context {Q T : Type} {Capacity : Z} `{SpscQueue Q T Capacity}.
Implicit Types b : BrokerState Q.

Definition init : BrokerState Q := mkBroker Status_ok q_empty_queue BrokerCounters_init.
Definition of_config (config : QueueConfig) : BrokerState Q :=
  mkBroker (validate_queue_config_for_capacity config Capacity) q_empty_queue
    BrokerCounters_init.

Definition config_status b : Status := config_status_ b.
Definition capacity : Z := Capacity.
Definition valid b : bool := is_ok (config_status_ b).
Definition metrics_snapshot b : BrokerMetricsSnapshot := snapshot (counters_ b).
Definition reset_metrics b : BrokerState Q := bump counters_reset b.

(** Both [try_publish] overloads, and [try_emplace] on the constructed value. *)
Definition try_publish (value : T) b : option (Status * BrokerState Q) :=
  if negb (valid b)
  then Some (config_status_ b, bump record_publish_failed_invalid b)
  else
    '(pushed, q) ← q_try_push value (queue_ b);
    let b := set_queue q b in
    if negb pushed
    then Some (mkStatus StatusCode.full "broker queue is full",
               bump record_publish_failed_full b)
    else Some (Status_ok, bump record_published b).

Definition try_emplace {Args} (make : Args -> T) (args : Args) b
    : option (Status * BrokerState Q) := try_publish (make args) b.

(** [try_consume(out)]: the new value of [out] is [None] when it is not assigned. *)
Definition try_consume b : option (Status * option T * BrokerState Q) :=
  if negb (valid b)
  then Some (config_status_ b, None, bump record_consume_failed_invalid b)
  else
    '(out, q) ← q_try_pop (queue_ b);
    let b := set_queue q b in
    match out with
    | None => Some (mkStatus StatusCode.empty "broker queue is empty", None,
                    bump record_consume_failed_empty b)
    | Some _ => Some (Status_ok, out, bump record_consumed b)
    end.

Definition empty b : bool := q_empty (queue_ b).
Definition full b : bool := q_full (queue_ b).
Definition size_approx b : Z := q_size_approx (queue_ b).
Definition durability_mode : BrokerDurabilityMode.t := BrokerDurabilityMode.in_memory.
End Broker.
End Broker.

(** ** batch_broker.hpp *)

Module BatchBroker.
Section BatchBroker.
Context {Q T : Type} {Capacity : Z} `{SpscQueue Q T Capacity}.
Implicit Types b : BrokerState Q.

Definition init : BrokerState Q := mkBroker Status_ok q_empty_queue BrokerCounters_init.
Definition of_config (config : QueueConfig) : BrokerState Q :=
  mkBroker (validate_queue_config_for_capacity config Capacity) q_empty_queue
    BrokerCounters_init.

Definition config_status b : Status := config_status_ b.
Definition capacity : Z := Capacity.
Definition valid b : bool := is_ok (config_status_ b).
Definition metrics_snapshot b : BrokerMetricsSnapshot := snapshot (counters_ b).
Definition reset_metrics b : BrokerState Q := bump counters_reset b.

Definition try_publish (value : T) b : option (Status * BrokerState Q) :=
  if negb (valid b)
  then Some (config_status_ b, bump record_publish_failed_invalid b)
  else
    '(pushed, q) ← q_try_push value (queue_ b);
    let b := set_queue q b in
    if negb pushed
    then Some (mkStatus StatusCode.full "batch broker queue is full",
               bump record_publish_failed_full b)
    else Some (Status_ok, bump record_published b).

Definition try_consume b : option (Status * option T * BrokerState Q) :=
  if negb (valid b)
  then Some (config_status_ b, None, bump record_consume_failed_invalid b)
  else
    '(out, q) ← q_try_pop (queue_ b);
    let b := set_queue q b in
    match out with
    | None => Some (mkStatus StatusCode.empty "batch broker queue is empty", None,
                    bump record_consume_failed_empty b)
    | Some _ => Some (Status_ok, out, bump record_consumed b)
    end.

(** The loop of [try_publish_batch]. *)
Fixpoint publish_loop (messages : list T) (published : Z) b : option (Z * BrokerState Q) :=
  match messages with
  | [] => Some (published, b)
  | message :: messages =>
      '(pushed, q) ← q_try_push message (queue_ b);
      let b := set_queue q b in
      if negb pushed then Some (published, bump record_publish_failed_full b)
      else publish_loop messages (published ⊞ 1) (bump record_published b)
  end.

Definition try_publish_batch (messages : list T) b : option (Z * BrokerState Q) :=
  match messages with
  | [] => Some (0, b)
  | _ =>
      if negb (valid b) then Some (0, bump record_publish_failed_invalid b)
      else publish_loop messages 0 b
  end.

(** The loop of [try_consume_batch] over the output span; positions it does not
    reach keep their value. *)
Fixpoint consume_loop (out : list T) (consumed : Z) b
    : option (Z * list T * BrokerState Q) :=
  match out with
  | [] => Some (consumed, [], b)
  | value :: rest =>
      '(popped, q) ← q_try_pop (queue_ b);
      let b := set_queue q b in
      match popped with
      | None => Some (consumed, value :: rest, b)
      | Some v =>
          '(n, out', b') ← consume_loop rest (consumed ⊞ 1) (bump record_consumed b);
          Some (n, v :: out', b')
      end
  end.

Definition try_consume_batch (out : list T) b : option (Z * list T * BrokerState Q) :=
  match out with
  | [] => Some (0, out, b)
  | _ =>
      if negb (valid b) then Some (0, out, bump record_consume_failed_invalid b)
      else
        '(consumed, out', b') ← consume_loop out 0 b;
        let b' := if consumed =? 0 then bump record_consume_failed_empty b' else b' in
        Some (consumed, out', b')
  end.

Definition empty b : bool := q_empty (queue_ b).
Definition full b : bool := q_full (queue_ b).
Definition size_approx b : Z := q_size_approx (queue_ b).
End BatchBroker.
End BatchBroker.

(** ** The broker's contract *)

Inductive broker_call (T : Type) : Type := Publish (v : T) | Consume | ResetMetrics.
Arguments Publish {T} v. Arguments Consume {T}. Arguments ResetMetrics {T}.
Inductive broker_reply (T : Type) : Type :=
  | Published (s : Status) | Consumed (s : Status) (out : option T) | MetricsReset.
Arguments Published {T} s. Arguments Consumed {T} s out. Arguments MetricsReset {T}.

Section Calls.
Context {Q T : Type} {Capacity : Z} `{SpscQueue Q T Capacity}.

Definition do_broker_call (c : broker_call T) (b : BrokerState Q)
    : option (broker_reply T * BrokerState Q) :=
  match c with
  | Publish v => '(s, b') ← Broker.try_publish v b; Some (Published s, b')
  | Consume => '(s, o, b') ← Broker.try_consume b; Some (Consumed s o, b')
  | ResetMetrics => Some (MetricsReset, Broker.reset_metrics b)
  end.

Fixpoint do_broker_calls (cs : list (broker_call T)) (b : BrokerState Q)
    : option (list (broker_reply T) * BrokerState Q) :=
  match cs with
  | [] => Some ([], b)
  | c :: cs =>
      '(r, b1) ← do_broker_call c b;
      '(rs, b2) ← do_broker_calls cs b1;
      Some (r :: rs, b2)
  end.
End Calls.

(** The specification of a valid broker: a FIFO and its counters. *)
Definition spec_broker_call {T} (cap : Z) (c : broker_call T) (l : list T)
    (k : BrokerCounters) : broker_reply T * list T * BrokerCounters :=
  match c with
  | Publish v =>
      if (Fifo.push cap v l).1
      then (Published Status_ok, l ++ [v], record_published k)
      else (Published (mkStatus StatusCode.full "broker queue is full"), l,
            record_publish_failed_full k)
  | Consume =>
      match l with
      | v :: l' => (Consumed Status_ok (Some v), l', record_consumed k)
      | [] => (Consumed (mkStatus StatusCode.empty "broker queue is empty") None, [],
               record_consume_failed_empty k)
      end
  | ResetMetrics => (MetricsReset, l, BrokerCounters_init)
  end.

Fixpoint spec_broker_calls {T} (cap : Z) (cs : list (broker_call T)) (l : list T)
    (k : BrokerCounters) : list (broker_reply T) * list T * BrokerCounters :=
  match cs with
  | [] => ([], l, k)
  | c :: cs =>
      let '(r, l1, k1) := spec_broker_call cap c l k in
      let '(rs, l2, k2) := spec_broker_calls cap cs l1 k1 in (r :: rs, l2, k2)
  end.

(** [b] is a valid broker whose queue holds [l]. *)
Record broker_rep {Q T : Type} {Capacity : Z} `{SpscQueue Q T Capacity}
    (b : BrokerState Q) (l : list T) : Prop := {
  brep_valid : is_ok (config_status_ b) = true;
  brep_queue : q_represents (queue_ b) l }.
Arguments broker_rep {Q T} Capacity {_} b l.
Arguments brep_valid {Q T Capacity _} b l _.
Arguments brep_queue {Q T Capacity _} b l _.

Section BrokerProofs.
Context {Q T : Type} {Capacity : Z} `{SpscQueueLaws Q T Capacity}.
Implicit Types (b : BrokerState Q) (l : list T).

Lemma broker_rep_set b l q k :
  broker_rep Capacity b l -> q_represents q l -> broker_rep Capacity (mkBroker (config_status_ b) q k) l.
Proof. intros [] ?. by split. Qed.

Lemma Fifo_push_cases v l :
  (Z.of_nat (length l) < Capacity /\ Fifo.push Capacity v l = (true, l ++ [v])) \/
  (Capacity <= Z.of_nat (length l) /\ Fifo.push Capacity v l = (false, l)).
Proof. unfold Fifo.push. destruct (Z.ltb_spec (Z.of_nat (length l)) Capacity); auto. Qed.

Lemma try_publish_spec v b l :
  broker_rep Capacity b l ->
  exists b', Broker.try_publish v b =
    Some (if (Fifo.push Capacity v l).1 then Status_ok
          else mkStatus StatusCode.full "broker queue is full", b') /\
    broker_rep Capacity b' (Fifo.push Capacity v l).2 /\
    config_status_ b' = config_status_ b /\
    counters_ b' = (if (Fifo.push Capacity v l).1 then record_published
                    else record_publish_failed_full) (counters_ b).
Proof.
  intros [Hv R]. unfold Broker.try_publish, Broker.valid. rewrite Hv. simpl.
  destruct (q_law_push _ l v R) as (q' & -> & R'). simpl.
  destruct (Fifo.push Capacity v l).1; simpl; (eexists; split; [done|]); by repeat split.
Qed.

Lemma try_consume_spec b l :
  broker_rep Capacity b l ->
  exists b', Broker.try_consume b =
    Some (match l with
          | [] => mkStatus StatusCode.empty "broker queue is empty" | _ => Status_ok end,
          (Fifo.pop l).1, b') /\
    broker_rep Capacity b' (Fifo.pop l).2 /\
    config_status_ b' = config_status_ b /\
    counters_ b' = (match l with
                    | [] => record_consume_failed_empty | _ => record_consumed end) (counters_ b).
Proof.
  intros [Hv R]. unfold Broker.try_consume, Broker.valid. rewrite Hv. simpl.
  destruct (q_law_pop _ l R) as (q' & -> & R'). simpl.
  destruct l as [|v l]; simpl in *; (eexists; split; [done|]); by repeat split.
Qed.

Lemma do_broker_call_refines c b l :
  broker_rep Capacity b l ->
  let '(r, l', k') := spec_broker_call Capacity c l (counters_ b) in
  exists b', do_broker_call c b = Some (r, b') /\ broker_rep Capacity b' l' /\ counters_ b' = k'.
Proof.
  intros R. destruct c as [v| |]; simpl.
  - destruct (try_publish_spec v b l R) as (b' & -> & R' & _ & K).
    destruct (Fifo_push_cases v l) as [[_ E]|[_ E]]; rewrite E in *; simpl in *; eauto.
  - destruct (try_consume_spec b l R) as (b' & -> & R' & _ & K).
    destruct l; simpl in *; eauto.
  - eexists. split; [done|]. split; [|done]. by apply broker_rep_set; [|destruct R].
Qed.

Lemma do_broker_calls_refines cs : forall b l,
  broker_rep Capacity b l ->
  let '(rs, l', k') := spec_broker_calls Capacity cs l (counters_ b) in
  exists b', do_broker_calls cs b = Some (rs, b') /\ broker_rep Capacity b' l' /\ counters_ b' = k'.
Proof.
  induction cs as [|c cs IH]; intros b l R; simpl; [eauto|].
  pose proof (do_broker_call_refines c b l R) as H1.
  destruct (spec_broker_call Capacity c l (counters_ b)) as [[r l1] k1].
  destruct H1 as (b1 & -> & R1 & <-). simpl. specialize (IH b1 l1 R1).
  destruct (spec_broker_calls Capacity cs l1 (counters_ b1)) as [[rs l2] k2].
  destruct IH as (b2 & -> & ?). eauto.
Qed.

Lemma broker_init_rep : broker_rep Capacity (Q:=Q) Broker.init [].
Proof. split; [done|]. apply q_law_init. Qed.
End BrokerProofs.

(** ** Counting outcomes *)

Definition count_replies {T} (p : broker_reply T -> bool) (rs : list (broker_reply T)) : Z :=
  Z.of_nat (length (filter (fun r => Is_true (p r)) rs)).

Definition published_with {T} (c : StatusCode.t) (r : broker_reply T) : bool :=
  match r with Published s => bool_decide (code s = c) | _ => false end.
Definition consumed_with {T} (c : StatusCode.t) (r : broker_reply T) : bool :=
  match r with Consumed s _ => bool_decide (code s = c) | _ => false end.
Definition no_reset {T} (c : broker_call T) : Prop :=
  match c with ResetMetrics => False | _ => True end.

Lemma count_replies_cons {T} p (r : broker_reply T) rs :
  count_replies p (r :: rs) = (if p r then 1 else 0) + count_replies p rs.
Proof.
  unfold count_replies. rewrite filter_cons. destruct (p r); simpl; lia.
Qed.

(** The counters after a sequence of calls, as sums. *)
Definition counts_to (k : BrokerCounters) {T} (rs : list (broker_reply T)) : BrokerCounters :=
  mkCounters
    (published_ k ⊞ count_replies (published_with StatusCode.ok) rs)
    (consumed_ k ⊞ count_replies (consumed_with StatusCode.ok) rs)
    (publish_failed_full_ k ⊞ count_replies (published_with StatusCode.full) rs)
    (consume_failed_empty_ k ⊞ count_replies (consumed_with StatusCode.empty) rs)
    (publish_failed_invalid_ k) (consume_failed_invalid_ k)
    (wal_bytes_written_ k) (wal_records_written_ k) (wal_flushes_ k) (wal_failures_ k)
    (recovered_records_ k) (recovery_failures_ k).

(** The four counters a valid in-memory broker moves hold 64-bit values. *)
Definition counters_ok (k : BrokerCounters) : Prop :=
  in_width 64 (published_ k) /\ in_width 64 (consumed_ k) /\
  in_width 64 (publish_failed_full_ k) /\ in_width 64 (consume_failed_empty_ k).

Lemma increment_width z : in_width 64 (increment z).
Proof. by apply wrap_width. Qed.

Lemma increment_add z n : increment z ⊞ n = z ⊞ (1 + n).
Proof. unfold increment. rewrite wrap_wrap_add_l. f_equal. lia. Qed.

Lemma add_zero_width z : in_width 64 z -> z ⊞ 0 = z.
Proof. intros. rewrite Z.add_0_r. by apply wrap_id. Qed.

Lemma spec_broker_calls_counts {T} cap (cs : list (broker_call T)) : forall l k,
  Forall no_reset cs -> counters_ok k ->
  let '(rs, l', k') := spec_broker_calls cap cs l k in
  k' = counts_to k rs /\
  Z.of_nat (length l') + count_replies (consumed_with StatusCode.ok) rs =
  Z.of_nat (length l) + count_replies (published_with StatusCode.ok) rs.
Proof.
  induction cs as [|c cs IH]; intros l k Hc Hk; simpl.
  { unfold counts_to. destruct k. destruct Hk as (?&?&?&?). simpl in *.
    change (count_replies _ []) with 0. by rewrite !add_zero_width. }
  apply Forall_cons_1 in Hc as [Hc Hcs].
  assert (H1 : let '(r, l1, k1) := spec_broker_call cap c l k in
    counters_ok k1 /\ (forall rs, counts_to k1 rs = counts_to k (r :: rs)) /\
    Z.of_nat (length l1) + (if consumed_with StatusCode.ok r then 1 else 0) =
    Z.of_nat (length l) + (if published_with StatusCode.ok r then 1 else 0)).
  { destruct Hk as (?&?&?&?). unfold counts_to, counters_ok.
    destruct c as [v| |]; [| |done]; simpl.
    - destruct (Fifo.push cap v l).1; destruct k; simpl in *;
        (split_and!; [auto using increment_width..| |]);
        try (intros rs; rewrite !count_replies_cons; simpl; by rewrite ?increment_add);
        rewrite ?length_app; simpl; lia.
    - destruct l as [|v l]; destruct k; simpl in *;
        (split_and!; [auto using increment_width..| |]);
        try (intros rs; rewrite !count_replies_cons; simpl; by rewrite ?increment_add); lia. }
  destruct (spec_broker_call cap c l k) as [[r l1] k1]. destruct H1 as (Hk1 & E1 & L1).
  specialize (IH l1 k1 Hcs Hk1). destruct (spec_broker_calls cap cs l1 k1) as [[rs l2] k2].
  destruct IH as [-> L2]. split; [apply E1|]. rewrite !count_replies_cons. lia.
Qed.

(** ** Batches *)

Section BatchProofs.
Context {Q T : Type} {Capacity : Z} `{SpscQueue Q T Capacity}.

(** The reference for a batch: publish one by one, stop at the first failure. *)
Fixpoint publish_each (messages : list T) (b : BrokerState Q) : option (Z * BrokerState Q) :=
  match messages with
  | [] => Some (0, b)
  | message :: messages =>
      '(s, b1) ← BatchBroker.try_publish message b;
      if is_ok s then '(n, b2) ← publish_each messages b1; Some (1 + n, b2)
      else Some (0, b1)
  end.

Lemma publish_loop_each messages : forall b p,
  BatchBroker.valid b = true -> in_width 64 p -> p + Z.of_nat (length messages) < 2 ^ 64 ->
  BatchBroker.publish_loop messages p b =
  ('(n, b') ← publish_each messages b; Some (p + n, b')).
Proof.
  induction messages as [|m ms IH]; intros b p Hv Hp Hlen; simpl.
  { by rewrite Z.add_0_r. }
  unfold BatchBroker.try_publish. rewrite Hv. simpl in *.
  destruct (q_try_push m (queue_ b)) as [[[] q]|]; simpl; [| |done].
  - rewrite IH; [| |by apply wrap_width|]; [|done|];
      rewrite (wrap_id 64 (p + 1)) by (unfold in_width in *; lia); [|lia].
    destruct (publish_each ms _) as [[n b']|]; simpl; [|done]. do 2 f_equal. lia.
  - by rewrite Z.add_0_r.
Qed.

Lemma publish_batch_each messages b :
  Z.of_nat (length messages) < 2 ^ 64 ->
  BatchBroker.try_publish_batch messages b = publish_each messages b.
Proof.
  intros Hl. destruct messages as [|m ms]; [done|]. unfold BatchBroker.try_publish_batch.
  destruct (BatchBroker.valid b) eqn:Hv.
  - simpl negb. cbv iota. rewrite publish_loop_each by done.
    destruct (publish_each _ _) as [[n b']|]; done.
  - simpl. unfold BatchBroker.try_publish. unfold BatchBroker.valid in *. rewrite Hv. simpl.
    by rewrite Hv.
Qed.

Context `{!SpscQueueLaws Q T Capacity}.

Lemma consume_loop_spec out : forall (b : BrokerState Q) (l : list T) p,
  broker_rep Capacity b l -> in_width 64 p ->
  let n := (length out `min` length l)%nat in
  exists b', BatchBroker.consume_loop out p b =
    Some (p ⊞ Z.of_nat n, take n l ++ drop n out, b') /\
    broker_rep Capacity b' (drop n l) /\ counters_ b' = Nat.iter n record_consumed (counters_ b).
Proof.
  induction out as [|x out IH]; intros b l p R Hp; simpl.
  { exists b. rewrite add_zero_width by done. done. }
  pose proof R as [Hv Rq]. destruct (q_law_pop _ l Rq) as (q' & -> & R'). simpl.
  destruct l as [|v l]; simpl in *.
  - eexists. rewrite add_zero_width by done. split; [done|]. by split.
  - destruct (IH (bump record_consumed (set_queue q' b)) l (p ⊞ 1)) as (b' & -> & R'' & K).
    { by split. }
    { by apply wrap_width. }
    simpl. exists b'. split_and!; [|done|].
    + do 3 f_equal. rewrite wrap_wrap_add_l. f_equal. lia.
    + rewrite K. simpl. by rewrite <- Nat.iter_succ_r.
Qed.

Lemma consume_batch_spec out (b : BrokerState Q) (l : list T) :
  CapacityOk Capacity -> broker_rep Capacity b l -> out <> [] ->
  let n := (length out `min` length l)%nat in
  exists b', BatchBroker.try_consume_batch (Capacity:=Capacity) out b =
      Some (Z.of_nat n, take n l ++ drop n out, b') /\
    broker_rep Capacity b' (drop n l) /\
    counters_ b' = (if decide (n = 0%nat) then record_consume_failed_empty else id)
                     (Nat.iter n record_consumed (counters_ b)).
Proof.
  intros [_ _ [_ Hcap]] R Hout. destruct out as [|x out]; [done|].
  unfold BatchBroker.try_consume_batch, BatchBroker.valid. rewrite (brep_valid _ _ R).
  simpl negb. cbv iota. pose proof (consume_loop_spec (x :: out) b l 0 R ltac:(by vm_compute)) as Hloop.
  pose proof (Nat.le_min_r (length (x :: out)) (length l)) as Hn.
  set (n := (length (x :: out) `min` length l)%nat) in *. clearbody n.
  destruct Hloop as (b' & -> & R' & Hc). simpl mbind. pose proof (q_law_bound _ _ (brep_queue _ _ R)).
  rewrite Z.add_0_l, wrap_id by (split; lia). eexists. split; [done|].
  destruct (Z.eqb_spec (Z.of_nat n) 0), (decide (n = 0%nat)); try lia; simpl; rewrite Hc.
  - split; [|done]. destruct R'. by split.
  - done.
Qed.

Lemma publish_each_spec messages : forall (b : BrokerState Q) (l : list T),
  broker_rep Capacity b l ->
  let n := (length messages `min` (Z.to_nat Capacity - length l))%nat in
  exists b', publish_each messages b = Some (Z.of_nat n, b') /\
    broker_rep Capacity b' (l ++ take n messages) /\
    counters_ b' = (if decide (n = length messages) then id else record_publish_failed_full)
                     (Nat.iter n record_published (counters_ b)).
Proof.
  induction messages as [|m ms IH]; intros b l R; simpl.
  { exists b. by rewrite app_nil_r. }
  pose proof R as [Hv Rq]. pose proof (q_law_bound _ _ Rq) as Hb.
  unfold BatchBroker.try_publish, BatchBroker.valid. rewrite Hv. simpl.
  destruct (q_law_push _ l m Rq) as (q' & -> & R').
  destruct (Fifo_push_cases (Capacity:=Capacity) m l) as [[Hlt E]|[Hge E]]; rewrite E in R' |- *; simpl in *.
  - destruct (IH (bump record_published (set_queue q' b)) (l ++ [m])) as (b' & E' & R'' & K).
    { by split. }
    rewrite length_app in *. simpl in *.
    replace (Z.to_nat Capacity - length l)%nat with (S (Z.to_nat Capacity - (length l + 1))) by lia.
    rewrite E'. simpl. exists b'. split_and!.
    + do 2 f_equal. lia.
    + by rewrite <- app_assoc in R''.
    + rewrite K, <- Nat.iter_succ_r. repeat case_decide; (done || lia).
  - replace (Z.to_nat Capacity - length l)%nat with 0%nat by lia. simpl.
    eexists. split; [done|]. rewrite app_nil_r. split; [by split|]. done.
Qed.
End BatchProofs.

(** ** Properties *)

(** C10. The broker implements its contract.  On a valid broker every sequence of
    [try_publish], [try_consume] and [reset_metrics] calls is free of undefined
    behaviour; each reply (status, and value handed out) and the resulting
    counters are those of the specification: publish succeeds exactly when there
    is room and reports [full] otherwise, consume returns the oldest value and
    reports [empty] otherwise. *)
Theorem broker_refines_contract (T : Type) (Capacity : Z) (CAP : CapacityOk Capacity)
    (b : BrokerState (SpscRingBuffer T)) (l : list T) (cs : list (broker_call T)) :
  broker_rep Capacity b l ->
  let '(rs, l', k') := spec_broker_calls Capacity cs l (counters_ b) in
  exists b', do_broker_calls (Capacity:=Capacity) cs b = Some (rs, b') /\ broker_rep Capacity b' l' /\
             counters_ b' = k'.
Proof. exact (do_broker_calls_refines (Q:=SpscRingBuffer T) (Capacity:=Capacity) cs b l). Qed.

Definition sample_broker : BrokerState (SpscRingBuffer nat) :=
  mkBroker Status_ok ring_across_wrap BrokerCounters_init.

Lemma sample_broker_rep : broker_rep 2 sample_broker [7; 8]%nat.
Proof. split; [done|]. exact ring_across_wrap_represents. Qed.

Lemma broker_refines_contract_witness :
  exists b', do_broker_calls (Capacity:=2) [Publish 9; Consume; Publish 9]%nat sample_broker =
    Some ([Published (mkStatus StatusCode.full "broker queue is full");
           Consumed Status_ok (Some 7%nat); Published Status_ok], b') /\
    broker_rep 2 b' [8; 9]%nat /\ counters_ b' = mkCounters 1 1 1 0 0 0 0 0 0 0 0 0.
Proof.
  exact (broker_refines_contract nat 2 CapacityOk_2 sample_broker [7; 8]%nat
    [Publish 9; Consume; Publish 9]%nat sample_broker_rep).
Defined.

(** C11. Metrics are exact.  After any sequence of publishes and consumes on a
    default-constructed broker, [metrics_snapshot()] shows in each of [published],
    [consumed], [publish_failed_full] and [consume_failed_empty] exactly (modulo
    2^64) the number of calls that returned the corresponding status and zero in its
    other eight fields, and the queued elements are the successful publishes minus
    the successful consumes. *)
Theorem broker_metrics_exact (T : Type) (Capacity : Z) (CAP : CapacityOk Capacity)
    (cs : list (broker_call T)) :
  Forall no_reset cs ->
  exists rs (b : BrokerState (SpscRingBuffer T)),
    do_broker_calls (Capacity:=Capacity) cs (Broker.init (Capacity:=Capacity)) = Some (rs, b) /\
    counters_ b = counts_to BrokerCounters_init rs /\
    Broker.metrics_snapshot b =
      mkSnapshot (wrap 64 (count_replies (published_with StatusCode.ok) rs))
        (wrap 64 (count_replies (consumed_with StatusCode.ok) rs))
        (wrap 64 (count_replies (published_with StatusCode.full) rs))
        (wrap 64 (count_replies (consumed_with StatusCode.empty) rs)) 0 0 0 0 0 0 0 0 /\
    Broker.size_approx (Capacity:=Capacity) b =
      count_replies (published_with StatusCode.ok) rs -
      count_replies (consumed_with StatusCode.ok) rs.
Proof.
  intros Hc.
  pose proof (do_broker_calls_refines (Capacity:=Capacity) cs _ _
    (broker_init_rep (Q:=SpscRingBuffer T) (Capacity:=Capacity))) as R.
  pose proof (spec_broker_calls_counts Capacity cs [] BrokerCounters_init Hc) as K.
  simpl counters_ in R. destruct (spec_broker_calls _ _ _ _) as [[rs l] k].
  destruct R as (b & E & R & Hk). destruct K as [K L]; [by repeat split|].
  exists rs, b. split; [done|]. split; [congruence|].
  split; [unfold Broker.metrics_snapshot; by rewrite Hk, K|].
  destruct R as [_ R]. rewrite (q_law_size _ _ R : Broker.size_approx b = _). simpl in L. lia.
Qed.

Lemma broker_metrics_exact_witness :
  Forall no_reset [Publish 1; Consume; Consume]%nat /\
  exists rs (b : BrokerState (SpscRingBuffer nat)),
    do_broker_calls (Capacity:=64) [Publish 1; Consume; Consume]%nat
      (Broker.init (Capacity:=64)) = Some (rs, b) /\
    counters_ b = counts_to BrokerCounters_init rs /\
    Broker.metrics_snapshot b =
      mkSnapshot (wrap 64 (count_replies (published_with StatusCode.ok) rs))
        (wrap 64 (count_replies (consumed_with StatusCode.ok) rs))
        (wrap 64 (count_replies (published_with StatusCode.full) rs))
        (wrap 64 (count_replies (consumed_with StatusCode.empty) rs)) 0 0 0 0 0 0 0 0 /\
    Broker.size_approx (Capacity:=64) b =
      count_replies (published_with StatusCode.ok) rs -
      count_replies (consumed_with StatusCode.ok) rs.
Proof.
  assert (H : Forall no_reset [Publish 1; Consume; Consume]%nat) by (repeat constructor).
  split; [exact H|]. exact (broker_metrics_exact nat 64 CapacityOk_64 _ H).
Defined.

(** A misconfigured broker is inert.  A broker built from a [QueueConfig]
    whose capacity is not the template capacity answers every publish and
    consume with the configuration error, never touches its queue or hands out a
    value, and counts the attempts as invalid. *)
Theorem broker_invalid_inert (T : Type) (Capacity : Z) (config : QueueConfig) (v : T) :
  qc_capacity config <> Capacity ->
  let b : BrokerState (SpscRingBuffer T) := Broker.of_config (Capacity:=Capacity) config in
  exists e, code e = StatusCode.invalid_argument /\
  Broker.try_publish (Capacity:=Capacity) v b = Some (e, bump record_publish_failed_invalid b) /\
  Broker.try_consume (Capacity:=Capacity) b = Some (e, None, bump record_consume_failed_invalid b).
Proof.
  intros Hne b. exists (config_status_ b).
  assert (Hbad : Broker.valid b = false).
  { unfold Broker.valid, b. simpl. apply not_true_iff_false.
    rewrite validate_queue_config_ok. by intros [? _]. }
  unfold Broker.try_publish, Broker.try_consume. rewrite Hbad. split; [|done].
  unfold Broker.valid, b in Hbad. simpl in *.
  unfold validate_queue_config_for_capacity, QueueConfig_validate in *.
  by repeat case_match.
Qed.

Definition mismatched_broker : BrokerState (SpscRingBuffer nat) :=
  Broker.of_config (T:=nat) (Capacity:=64) (mkQueueConfig 32 64 true).

Lemma broker_invalid_inert_witness :
  qc_capacity (mkQueueConfig 32 64 true) <> 64 /\
  exists e, code e = StatusCode.invalid_argument /\
  Broker.try_publish (Capacity:=64) 5%nat mismatched_broker =
    Some (e, bump record_publish_failed_invalid mismatched_broker) /\
  Broker.try_consume (Capacity:=64) mismatched_broker =
    Some (e, None, bump record_consume_failed_invalid mismatched_broker).
Proof.
  assert (H : qc_capacity (mkQueueConfig 32 64 true) <> 64) by discriminate.
  split; [exact H|]. exact (broker_invalid_inert nat 64 (mkQueueConfig 32 64 true) 5%nat H).
Defined.

(** C14. A batch publish is its single publishes.  On any broker, valid or not,
    [try_publish_batch] returns the same count and leaves exactly the same state
    (queue and counters) as calling [try_publish] on the messages one by one and
    stopping at the first failure. *)
Theorem batch_publish_equiv (T : Type) (Capacity : Z) (messages : list T)
    (b : BrokerState (SpscRingBuffer T)) :
  Z.of_nat (length messages) < 2 ^ 64 ->
  BatchBroker.try_publish_batch (Capacity:=Capacity) messages b =
  publish_each (Capacity:=Capacity) messages b.
Proof. apply publish_batch_each. Qed.

Lemma batch_publish_equiv_witness :
  BatchBroker.try_publish_batch (Capacity:=2) [1; 2; 3]%nat (BatchBroker.init (Capacity:=2)) =
  publish_each (Q:=SpscRingBuffer nat) (Capacity:=2) [1; 2; 3]%nat (BatchBroker.init (Capacity:=2)).
Proof. apply (batch_publish_equiv nat 2 [1; 2; 3]%nat). vm_compute. reflexivity. Defined.

(** C15. Batches move the largest prefix that fits.  On a valid broker holding
    [l], a batch publish appends exactly the first [min n room] messages and a
    batch consume hands out exactly the first [min n (length l)] queued values,
    in order, into the front of the output span, leaving the rest of the span
    untouched. *)
Theorem batch_prefix (T : Type) (Capacity : Z) (CAP : CapacityOk Capacity)
    (b : BrokerState (SpscRingBuffer T)) (l ms out : list T) :
  broker_rep Capacity b l -> ms <> [] -> out <> [] -> Z.of_nat (length ms) < 2 ^ 64 ->
  (let n := (length ms `min` (Z.to_nat Capacity - length l))%nat in
   exists b', BatchBroker.try_publish_batch (Capacity:=Capacity) ms b = Some (Z.of_nat n, b') /\
              broker_rep Capacity b' (l ++ take n ms)) /\
  (let n := (length out `min` length l)%nat in
   exists b', BatchBroker.try_consume_batch (Capacity:=Capacity) out b =
                Some (Z.of_nat n, take n l ++ drop n out, b') /\
              broker_rep Capacity b' (drop n l)).
Proof.
  intros R Hms Hout Hlen. split.
  - rewrite publish_batch_each by done.
    destruct (publish_each_spec ms b l R) as (b' & E & R' & _). eauto.
  - destruct (consume_batch_spec out b l CAP R Hout) as (b' & E & R' & _). eauto.
Qed.

Lemma batch_prefix_witness :
  broker_rep 2 sample_broker [7; 8]%nat /\
  exists b', BatchBroker.try_consume_batch (Capacity:=2) [0; 0; 0]%nat sample_broker =
    Some (2, [7; 8; 0]%nat, b') /\ broker_rep 2 b' [].
Proof.
  split; [exact sample_broker_rep|].
  refine (proj2 (batch_prefix nat 2 CapacityOk_2 sample_broker [7; 8]%nat [1]%nat [0; 0; 0]%nat
    sample_broker_rep _ _ _)); [discriminate|discriminate|vm_compute; reflexivity].
Defined.
