(* ===== verification/BrokerThreads.v ===== *)
(** * Brokers used by two threads

    broker.hpp and batch_broker.hpp as they are meant to be used: one thread publishes,
    one consumes, and a third may take metrics snapshots.  The body of a call is a
    [code], a tree of its calls of the queue and its increments of the counters; each
    of these is one step of the thread that runs the call, the calls of the queue being
    the step machines of SpscConcurrent.v.  Run alone, a [code] is the sequential
    function of Broker.v.  What a call promises to its clients is the class [Calls],
    and what two threads of arbitrary clients make of it is proved from that class. *)

From S2P Require Import Prelude Core Metrics Spsc SpscConcurrent TwoThreads Broker.
#[local] Open Scope Z_scope.

(** ** Calls as trees *)

(** The counters that the brokers increment. *)
Inductive counter : Set :=
  | Published | Consumed | PublishFailedFull | ConsumeFailedEmpty
  | PublishFailedInvalid | ConsumeFailedInvalid.
#[export] Instance counter_eq_dec : EqDecision counter.
Proof. solve_decision. Defined.

Definition record_counter (c : counter) : BrokerCounters -> BrokerCounters :=
  match c with
  | Published => record_published
  | Consumed => record_consumed
  | PublishFailedFull => record_publish_failed_full
  | ConsumeFailedEmpty => record_consume_failed_empty
  | PublishFailedInvalid => record_publish_failed_invalid
  | ConsumeFailedInvalid => record_consume_failed_invalid
  end.

(** Code that calls a queue operation with an [A] for a reply in [B], increments
    counters, and returns an [R]. *)
Inductive code (A B R : Type) : Type :=
  | Ret (r : R)
  | Call (a : A) (k : B -> code A B R)
  | Count (c : counter) (t : code A B R).
Arguments Ret {A B R} r.
Arguments Call {A B R} a k.
Arguments Count {A B R} c t.

Section Codes.
Context {T : Type} (config_status : Status).

(** [Broker::try_publish] and [Broker::try_consume]. *)
Definition try_publish_code (value : T) : code T bool Status :=
  if negb (is_ok config_status) then Count PublishFailedInvalid (Ret config_status)
  else Call value (fun pushed =>
    if negb pushed
    then Count PublishFailedFull (Ret (mkStatus StatusCode.full "broker queue is full"))
    else Count Published (Ret Status_ok)).

Definition try_consume_code : code unit (option T) (Status * option T) :=
  if negb (is_ok config_status) then Count ConsumeFailedInvalid (Ret (config_status, None))
  else Call tt (fun out =>
    match out with
    | None => Count ConsumeFailedEmpty
                (Ret (mkStatus StatusCode.empty "broker queue is empty", None))
    | Some _ => Count Consumed (Ret (Status_ok, out))
    end).

(** [BatchBroker::try_publish_batch]. *)
Fixpoint publish_loop_code (messages : list T) (published : Z) : code T bool Z :=
  match messages with
  | [] => Ret published
  | message :: messages =>
      Call message (fun pushed =>
        if negb pushed then Count PublishFailedFull (Ret published)
        else Count Published (publish_loop_code messages (published ⊞ 1)))
  end.
Definition publish_batch_code (messages : list T) : code T bool Z :=
  match messages with
  | [] => Ret 0
  | _ => if negb (is_ok config_status) then Count PublishFailedInvalid (Ret 0)
         else publish_loop_code messages 0
  end.

(** [BatchBroker::try_consume_batch]: [done] holds the values assigned so far. *)
Definition consume_end (consumed : Z) (out : list T) : code unit (option T) (Z * list T) :=
  if consumed =? 0 then Count ConsumeFailedEmpty (Ret (consumed, out)) else Ret (consumed, out).
Fixpoint consume_loop_code (out done : list T) (consumed : Z)
    : code unit (option T) (Z * list T) :=
  match out with
  | [] => consume_end consumed done
  | value :: rest =>
      Call tt (fun popped =>
        match popped with
        | None => consume_end consumed (done ++ value :: rest)
        | Some v => Count Consumed (consume_loop_code rest (done ++ [v]) (consumed ⊞ 1))
        end)
  end.
Definition consume_batch_code (out : list T) : code unit (option T) (Z * list T) :=
  match out with
  | [] => Ret (0, out)
  | _ => if negb (is_ok config_status) then Count ConsumeFailedInvalid (Ret (0, out))
         else consume_loop_code out [] 0
  end.
End Codes.

(** *** A call run by one thread alone *)

Section Alone.
Context {Q A B : Type} (call : A -> Q -> option (B * Q)).
Fixpoint run_alone {R} (t : code A B R) (b : BrokerState Q) : option (R * BrokerState Q) :=
  match t with
  | Ret r => Some (r, b)
  | Call a k => '(x, q) ← call a (queue_ b); run_alone (k x) (set_queue q b)
  | Count c t => run_alone t (bump (record_counter c) b)
  end.
End Alone.

Section Equivalence.
Context {Q T : Type} {Capacity : Z} `{SpscQueue Q T Capacity}.
Implicit Types b : BrokerState Q.

Lemma publish_loop_alone messages : forall published b,
  run_alone q_try_push (publish_loop_code messages published) b =
    BatchBroker.publish_loop messages published b.
Proof.
  induction messages as [|m ms IH]; intros published b; simpl; [done|].
  destruct (q_try_push m (queue_ b)) as [[[] q]|]; simpl; [|done..]. apply IH.
Qed.

Lemma consume_loop_alone out : forall done consumed b,
  run_alone (fun _ => q_try_pop) (consume_loop_code out done consumed) b =
    ('(n, out', b') ← BatchBroker.consume_loop out consumed b;
     Some (n, done ++ out', if n =? 0 then bump record_consume_failed_empty b' else b')).
Proof.
  assert (E : forall consumed (out : list T) b,
    run_alone (fun _ => q_try_pop) (consume_end consumed out) b =
      Some (consumed, out, if consumed =? 0 then bump record_consume_failed_empty b else b)).
  { intros consumed o b. unfold consume_end. by destruct (consumed =? 0). }
  induction out as [|x out IH]; intros done consumed b; simpl.
  { by rewrite E, app_nil_r. }
  destruct (q_try_pop (queue_ b)) as [[[v|] q]|]; simpl; [|by rewrite E|done].
  rewrite IH. destruct (BatchBroker.consume_loop _ _ _) as [[[n o] b']|]; simpl; [|done].
  by rewrite <- app_assoc.
Qed.
End Equivalence.

(** ** Threads of calls *)

(** What a step of a call did: a call of the queue that returned, or an increment. *)
Inductive act (A B : Type) : Type := Called (a : A) (b : B) | Counted (c : counter).
Arguments Called {A B} a b.
Arguments Counted {A B} c.

(** The memory of the counters.  A counter starts at 0 and only atomic increments change
    it, so its modification order is 0, 1, 2, ... and its state the number of
    increments. *)
Definition memory : Type := counter -> nat.
Definition memory_init : memory := fun _ => 0%nat.
Definition fetch_add (c : counter) (g : memory) : memory :=
  fun x => if decide (x = c) then S (g x) else g x.

(** Increments of [c], and values moved through the queue. *)
Definition counted {A B} (c : counter) (acts : list (act A B)) : nat :=
  length (omap (fun x => match x with Counted c' => if decide (c = c') then Some tt else None | _ => None end) acts).
Definition moved {A B T} (moves : B -> A -> option T) (acts : list (act A B)) : list T :=
  omap (fun x => match x with Called a b => moves b a | _ => None end) acts.

Definition push_moves {T} (pushed : bool) (v : T) : option T := if pushed then Some v else None.
Definition pop_moves {T} (popped : option T) (_ : unit) : option T := popped.

Section Thread.
Context {A B C R : Type} (code_of : C -> code A B R).
(** The client: the next call, given the calls made so far and their results. *)
Context (next : list (C * R) -> option C).

(** The calls that have returned and the one in progress, each with what it has done
    ([acts] is a history variable), and whether the thread has ended. *)
Record thread : Type := mkThread {
  th_log : list (C * list (act A B) * R);
  th_now : option (C * list (act A B) * code A B R);
  th_ended : bool }.
Definition thread_init : thread := mkThread [] None false.

Definition results (s : thread) : list (C * R) := map (fun '(c, _, r) => (c, r)) (th_log s).

Definition thread_local (k : nat) (s : thread) (g : memory) : option (thread * memory) :=
  match th_now s with
  | None =>
      if th_ended s then None
      else match next (results s) with
           | Some c => Some (mkThread (th_log s) (Some (c, [], code_of c)) false, g)
           | None => Some (mkThread (th_log s) None true, g)
           end
  | Some (c, acts, Ret r) => Some (mkThread (th_log s ++ [(c, acts, r)]) None false, g)
  | Some (c, acts, Count x t) =>
      Some (mkThread (th_log s) (Some (c, acts ++ [Counted x], t)) false, fetch_add x g)
  | Some (_, _, Call _ _) => None
  end.

Definition thread_of : thread_code memory A B thread :=
  mkCode
    (fun s => match th_now s with Some (_, _, Call a _) => Some a | _ => None end)
    thread_local
    (fun b s => match th_now s with
                | Some (c, acts, Call a k) => mkThread (th_log s) (Some (c, acts ++ [Called a b], k b)) false
                | _ => s
                end).

Definition now_acts (s : thread) : list (act A B) :=
  match th_now s with Some (_, acts, _) => acts | None => [] end.
Definition all_acts (s : thread) : list (act A B) := concat (map (fun '(_, acts, _) => acts) (th_log s)) ++ now_acts s.

(** The steps that lead from a [code] to what is left of it. *)
Inductive steps (t : code A B R) : list (act A B) -> code A B R -> Prop :=
  | steps_none : steps t [] t
  | steps_call acts a k b : steps t acts (Call a k) -> steps t (acts ++ [Called a b]) (k b)
  | steps_count acts c t' : steps t acts (Count c t') -> steps t (acts ++ [Counted c]) t'.

(** Every call has done steps of its code. *)
Definition thread_ok (s : thread) : Prop :=
  Forall (fun '(c, acts, r) => steps (code_of c) acts (Ret r)) (th_log s) /\
  match th_now s with
  | Some (c, acts, t) => steps (code_of c) acts t /\ th_ended s = false
  | None => True
  end.

Lemma counted_app x (a1 a2 : list (act A B)) : counted x (a1 ++ a2) = (counted x a1 + counted x a2)%nat.
Proof. unfold counted. by rewrite omap_app, length_app. Qed.
Lemma moved_app {T} (moves : B -> A -> option T) a1 a2 : moved moves (a1 ++ a2) = moved moves a1 ++ moved moves a2.
Proof. apply omap_app. Qed.

(** The acts of a thread grow by what its turn does. *)
Lemma local_acts k s g s' g' :
  thread_ok s -> thread_local k s g = Some (s', g') ->
  thread_ok s' /\ exists xs, all_acts s' = all_acts s ++ xs /\
    (forall x, g' x = g x + counted x xs)%nat /\ forall T (moves : B -> A -> option T), moved moves xs = [].
Proof.
  intros [L N]. unfold thread_local, thread_ok, all_acts, now_acts.
  destruct (th_now s) as [[[c acts] [r|a t|x t]]|] eqn:E; [destruct N as [N _]|done|destruct N as [N _]|].
  - intros [= <- <-]. simpl. split.
    + split; [|done]. apply Forall_app; split; [done|]. by repeat constructor.
    + exists []. rewrite map_app, concat_app. simpl. rewrite !app_nil_r. split_and!; done.
  - intros [= <- <-]. simpl. split; [split; [done|split; [by constructor|done]]|]. exists [Counted x].
    rewrite app_assoc. split_and!; try done. intros y. unfold fetch_add, counted. simpl.
    case_decide; simpl; lia.
  - destruct (th_ended s); [done|]. destruct (next (results s)) as [c|]; intros [= <- <-]; simpl;
      (split; [split; [done|by repeat constructor]|]); exists []; rewrite ?app_nil_r;
      (split_and!; try done); intros x; unfold counted; simpl; lia.
Qed.

Lemma return_acts s a b :
  thread_ok s -> code_call thread_of s = Some a ->
  thread_ok (code_return thread_of b s) /\
  all_acts (code_return thread_of b s) = all_acts s ++ [Called a b].
Proof.
  intros [L N]. unfold thread_ok, all_acts, now_acts. simpl.
  destruct (th_now s) as [[[c acts] [r|a' t|x t]]|] eqn:E; try done. intros [= ->]. destruct N as [N _]. simpl.
  split; [split; [done|split; [by constructor|done]]|]. by rewrite app_assoc.
Qed.
End Thread.
Arguments thread A B C R : clear implicits.
Arguments thread_init {A B C R}.

(** The steps of a [code], first step first. *)
Lemma steps_first {A B R} (t t' : code A B R) acts :
  steps t acts t' ->
  match acts with
  | [] => t' = t
  | Called a b :: acts => exists k, t = Call a k /\ steps (k b) acts t'
  | Counted c :: acts => exists t1, t = Count c t1 /\ steps t1 acts t'
  end.
Proof.
  induction 1 as [|acts a k b H IH|acts c t' H IH]; [done|..].
  - destruct acts as [|[a' b'|c'] acts]; simpl.
    + exists k. split; [done|constructor].
    + destruct IH as (k' & -> & IH). exists k'. split; [done|by constructor].
    + destruct IH as (t1 & -> & IH). exists t1. split; [done|by constructor].
  - destruct acts as [|[a' b'|c'] acts]; simpl.
    + exists t'. split; [done|constructor].
    + destruct IH as (k' & -> & IH). exists k'. split; [done|by constructor].
    + destruct IH as (t1 & -> & IH). exists t1. split; [done|by constructor].
Qed.

(** Follows the steps of a [code] whose first step is known. *)
Ltac walk_step H acts :=
  apply steps_first in H; destruct acts as [|[] acts]; [|destruct H as (? & ? & H)..]; simplify_eq/=.
Ltac walk :=
  repeat match goal with
  | H : steps (Ret _) ?acts _ |- _ => is_var acts; walk_step H acts
  | H : steps (Call _ _) ?acts _ |- _ => is_var acts; walk_step H acts
  | H : steps (Count _ _) ?acts _ |- _ => is_var acts; walk_step H acts
  end.

(** Follows them through the branches. *)
Ltac branch :=
  repeat (progress (simpl in *; walk) ||
    match goal with
    | H : steps (if negb ?b then _ else _) _ _ |- _ => destruct b
    | H : steps (match ?o with Some _ => _ | None => _ end) _ _ |- _ => destruct o
    end).

(** ** What calls promise *)

(** A returned call has moved the [values] and made the increments [counts] that its
    result tells; a call in progress has moved at most [width] values. *)
Class Calls {T A B C R : Type} (moves : B -> A -> option T) (code_of : C -> code A B R) : Type := {
  values : C -> R -> list T;
  counts : C -> R -> counter -> nat;
  width : C -> nat;
  calls_values c acts r : steps (code_of c) acts (Ret r) -> moved moves acts = values c r;
  calls_counts c acts r x : steps (code_of c) acts (Ret r) -> counted x acts = counts c r x;
  calls_width c acts t : steps (code_of c) acts t -> (length (moved moves acts) <= width c)%nat }.

Section Returned.
Context {T A B C R : Type} {moves : B -> A -> option T} {code_of : C -> code A B R}.
Context {CALLS : Calls moves code_of}.
Implicit Types s : thread A B C R.

(** What the results of a thread tell. *)
Definition returned_values s : list T := concat (map (fun '(c, r) => values c r) (results s)).
Definition returned_counts s (x : counter) : nat := sum_list (map (fun '(c, r) => counts c r x) (results s)).
Definition in_flight s : list T := moved moves (now_acts s).

Lemma all_acts_values s : thread_ok code_of s -> moved moves (all_acts s) = returned_values s ++ in_flight s.
Proof.
  intros [L _]. unfold all_acts, returned_values, results, in_flight. rewrite moved_app. f_equal.
  induction L as [|[[c acts] r] l H L IH]; [done|]. simpl. rewrite moved_app, IH. f_equal.
  by apply calls_values.
Qed.
Lemma all_acts_counts s x :
  thread_ok code_of s -> counted x (all_acts s) = (returned_counts s x + counted x (now_acts s))%nat.
Proof.
  intros [L _]. unfold all_acts, returned_counts, results. rewrite counted_app. f_equal.
  induction L as [|[[c acts] r] l H L IH]; [done|]. simpl. rewrite counted_app, IH. f_equal.
  by apply calls_counts.
Qed.
Lemma in_flight_width s : thread_ok code_of s ->
  match th_now s with
  | Some (c, _, _) => (length (in_flight s) <= width c)%nat
  | None => in_flight s = [] /\ forall x, counted x (now_acts s) = 0%nat
  end.
Proof.
  intros [_ N]. unfold in_flight, now_acts. destruct (th_now s) as [[[c acts] t]|]; [|done].
  by destruct N as [N%calls_width _].
Qed.
End Returned.

(** ** Two threads of calls *)

Section TwoClients.
Context {T CP RP CC RC : Type} (Capacity : Z) {CAP : CapacityOk Capacity}.
Context (pcode : CP -> code T bool RP) (ccode : CC -> code unit (option T) RC).
Context (pnext : list (CP * RP) -> option CP) (cnext : list (CC * RC) -> option CC).

Definition clients : Type := program (T:=T) (G:=memory) (SP:=thread T bool CP RP) (SC:=thread unit (option T) CC RC).
Definition clients_start : clients := start Capacity memory_init thread_init thread_init.
Definition clients_run : list (event (T:=T)) -> clients -> Prop :=
  prun Capacity (thread_of pcode pnext) (thread_of ccode cnext) clients_start.
Definition clients_turn : turn -> clients -> program_result :=
  do_turn Capacity (thread_of pcode pnext) (thread_of ccode cnext).
Definition ended (r : clients) : bool := th_ended (pr_prod r) && th_ended (pr_cons r).

Record clients_inv (tr : list (event (T:=T))) (r : clients) : Prop := {
  ci_prod : thread_ok pcode (pr_prod r);
  ci_cons : thread_ok ccode (pr_cons r);
  ci_pushes : pushes tr = moved push_moves (all_acts (pr_prod r));
  ci_pops : pops tr = moved pop_moves (all_acts (pr_cons r));
  ci_counts x : pr_shared r x = (counted x (all_acts (pr_prod r)) + counted x (all_acts (pr_cons r)))%nat }.

Lemma counted_called {A B} x (a : A) (b : B) : counted x [Called a b] = 0%nat.
Proof. done. Qed.

Lemma clients_run_inv tr r : clients_run tr r -> clients_inv tr r.
Proof.
  revert tr r. apply prun_invariant; [done|by split; repeat constructor|].
  intros tr r e r' l [P C PU PO CO] S _.
  destruct S as [k p g Hc Hl|v q Hc|v q Hc|v q Hc|k c g Hc Hl|q Hc|v q Hc|q Hc];
    simpl events; rewrite ?app_nil_r.
  1: destruct (local_acts pcode pnext _ _ _ _ _ P Hl) as (P' & xs & E & Hg & Hm).
  3: destruct (return_acts _ pnext _ _ true P Hc) as [P' E].
  4: destruct (return_acts _ pnext _ _ false P Hc) as [P' E].
  5: destruct (local_acts ccode cnext _ _ _ _ _ C Hl) as (P' & xs & E & Hg & Hm).
  7: destruct (return_acts _ cnext _ _ (Some v) C Hc) as [P' E].
  8: destruct (return_acts _ cnext _ _ None C Hc) as [P' E].
  all: split; cbn [pr_prod pr_cons pr_shared]; trace_simpl;
    rewrite ?E, ?moved_app, ?Hm, ?PU, ?PO, ?app_nil_r; try done; try by rewrite app_nil_r.
  all: intros x; rewrite ?Hg, counted_app, CO, ?counted_called; lia.
Qed.
End TwoClients.

Section Exact.
Context {T CP RP CC RC : Type} {Capacity : Z} {CAP : CapacityOk Capacity}.
Context {pcode : CP -> code T bool RP} {ccode : CC -> code unit (option T) RC}.
Context {PC : Calls push_moves pcode} {CC' : Calls pop_moves ccode}.
Context {pnext : list (CP * RP) -> option CP} {cnext : list (CC * RC) -> option CC}.
Implicit Types r : clients (T:=T) (CP:=CP) (RP:=RP) (CC:=CC) (RC:=RC).

(** What two threads have made of a broker: the values consumed are, in order, the
    first of the values published, at most [Capacity] more are under way, and every
    counter is the sum over the returned calls and the two calls in progress. *)
Record calls_exact r : Prop := {
  ce_order : exists queued, (length queued <= Z.to_nat Capacity)%nat /\
    returned_values (CALLS:=PC) (pr_prod r) ++ in_flight (moves:=push_moves) (pr_prod r) =
    (returned_values (CALLS:=CC') (pr_cons r) ++ in_flight (moves:=pop_moves) (pr_cons r)) ++ queued;
  ce_counts x : pr_shared r x =
    (returned_counts (CALLS:=PC) (pr_prod r) x + counted x (now_acts (pr_prod r)) +
     (returned_counts (CALLS:=CC') (pr_cons r) x + counted x (now_acts (pr_cons r))))%nat;
  ce_publishing : match th_now (pr_prod r) with
    | Some (c, _, _) => (length (in_flight (moves:=push_moves) (pr_prod r)) <= width (Calls:=PC) c)%nat
    | None => in_flight (moves:=push_moves) (pr_prod r) = [] /\ forall x, counted x (now_acts (pr_prod r)) = 0%nat
    end;
  ce_consuming : match th_now (pr_cons r) with
    | Some (c, _, _) => (length (in_flight (moves:=pop_moves) (pr_cons r)) <= width (Calls:=CC') c)%nat
    | None => in_flight (moves:=pop_moves) (pr_cons r) = [] /\ forall x, counted x (now_acts (pr_cons r)) = 0%nat
    end }.

Lemma clients_exact tr r : clients_run Capacity pcode ccode pnext cnext tr r -> calls_exact r.
Proof.
  intros Hr. destruct (clients_run_inv _ _ _ _ _ _ _ Hr) as [P C PU PO CO]. split.
  - apply prun_queue in Hr as [(pushed & n & I & F)%exec_inv _]. exists (drop n pushed).
    rewrite <- !(all_acts_values (code_of:=pcode)), <- !(all_acts_values (code_of:=ccode)) by done.
    rewrite <- PU, <- PO. split; [|exact (fifo_run_conserves _ _ _ _ F)].
    exact (proj2 (inv_content_bound _ _ _ I)).
  - intros x. by rewrite CO, !(all_acts_counts (code_of:=pcode)), !(all_acts_counts (code_of:=ccode)).
  - by apply in_flight_width.
  - by apply in_flight_width.
Qed.
End Exact.

(** ** The calls of the two brokers *)

Definition one (c x : counter) : nat := if decide (x = c) then 1 else 0.
Lemma counted_cons {A B} x c (acts : list (act A B)) : counted x (Counted c :: acts) = (one c x + counted x acts)%nat.
Proof. unfold counted, one. simpl. by case_decide. Qed.
Lemma counted_call {A B} x (a : A) (b : B) acts : counted x (Called a b :: acts) = counted x acts.
Proof. done. Qed.
Lemma counted_nil {A B} x : counted x ([] : list (act A B)) = 0%nat.
Proof. done. Qed.
Ltac count_simpl := rewrite ?counted_call, ?counted_cons, ?counted_call, ?counted_nil, ?Nat.add_0_r.

Section Instances.
Context {T : Type} (config_status : Status).

#[export] Program Instance publish_calls : Calls push_moves (try_publish_code (T:=T) config_status) := {|
  values v s := if is_ok s then [v] else [];
  counts v s x := if is_ok config_status
                  then one (if is_ok s then Published else PublishFailedFull) x
                  else one PublishFailedInvalid x;
  width _ := 1%nat |}.
Next Obligation.
  intros v acts s H. unfold try_publish_code in H. destruct (is_ok config_status) eqn:E; branch; rewrite ?E; done.
Qed.
Next Obligation.
  intros v acts s x H. unfold try_publish_code in H.
  destruct (is_ok config_status) eqn:E; branch; count_simpl; rewrite ?E; done.
Qed.
Next Obligation.
  intros v acts t H. unfold try_publish_code in H. destruct (is_ok config_status) eqn:E; branch; lia.
Qed.

#[export] Program Instance consume_calls : Calls pop_moves (fun _ : unit => try_consume_code (T:=T) config_status) := {|
  values _ '(_, out) := option_list out;
  counts _ '(_, out) x := if is_ok config_status
                  then one (match out with Some _ => Consumed | None => ConsumeFailedEmpty end) x
                  else one ConsumeFailedInvalid x;
  width _ := 1%nat |}.
Next Obligation.
  intros c acts s H. unfold try_consume_code in H. destruct (is_ok config_status) eqn:E; branch; done.
Qed.
Next Obligation.
  intros c acts s x H. unfold try_consume_code in H.
  destruct (is_ok config_status) eqn:E; branch; count_simpl; done.
Qed.
Next Obligation.
  intros v acts t H. unfold try_consume_code in H. destruct (is_ok config_status) eqn:E; branch; lia.
Qed.

(** A [std::span] has a [size_t] length. *)
Record span : Type := mkSpan { span_list : list T; span_fits : Z.of_nat (length span_list) < 2 ^ 64 }.

Lemma publish_loop_steps (ms : list T) : forall p acts t, 0 <= p -> p + Z.of_nat (length ms) < 2 ^ 64 ->
  steps (publish_loop_code ms p) acts t ->
  (length (moved push_moves acts) <= length ms)%nat /\
  forall n, t = Ret n -> exists j, n = p + Z.of_nat j /\ (j <= length ms)%nat /\
    moved push_moves acts = take j ms /\
    forall x, counted x acts = (j * one Published x + if (j <? length ms)%nat then one PublishFailedFull x else 0)%nat.
Proof.
  induction ms as [|m ms IH]; intros p acts t Hp Hl H; simpl in H, Hl.
  { walk. split; [simpl; lia|]. intros n [= ->]. exists 0%nat. split_and!; [lia|done..]. }
  walk_step H acts; [split; [simpl; lia|done]|]. destruct b; simpl in H; walk_step H acts.
  - split; [simpl; lia|]. intros n Hn. discriminate.
  - rewrite wrap_id in H by (split; lia).
    destruct (IH (p + 1) acts t ltac:(lia) ltac:(lia) H) as [W R]. split; [simpl; lia|].
    intros n Hn. destruct (R n Hn) as (j & -> & Hj & Hm & Hc). exists (S j).
    split_and!; [lia|lia|simpl; by rewrite Hm|]. intros x. count_simpl. rewrite Hc.
    cbn [length]. change (S j <? S (length ms))%nat with (j <? length ms)%nat. lia.
  - split; [simpl; lia|]. intros n Hn. discriminate.
  - walk. split; [simpl; lia|]. intros n [= ->]. exists 0%nat.
    split_and!; [lia|lia|done|]. intros x. count_simpl. done.
Qed.

#[export] Program Instance publish_batch_calls
    : Calls push_moves (fun ms => publish_batch_code config_status (span_list ms)) := {|
  values ms n := take (Z.to_nat n) (span_list ms);
  counts ms n x :=
    if (length (span_list ms) =? 0)%nat then 0%nat
    else if is_ok config_status
    then (Z.to_nat n * one Published x +
          if (Z.to_nat n <? length (span_list ms))%nat then one PublishFailedFull x else 0)%nat
    else one PublishFailedInvalid x;
  width ms := length (span_list ms) |}.
Next Obligation.
  intros [ms F] acts n H. simpl in *. unfold publish_batch_code in H. destruct ms as [|m ms]; [by walk|].
  destruct (is_ok config_status); cbn [negb] in H; [|by walk].
  destruct (publish_loop_steps (m :: ms) 0 acts _ ltac:(lia) ltac:(lia) H) as [_ R].
  destruct (R n eq_refl) as (j & -> & _ & -> & _). by rewrite Z.add_0_l, Nat2Z.id.
Qed.
Next Obligation.
  intros [ms F] acts n x H. simpl in *. unfold publish_batch_code in H. destruct ms as [|m ms]; [by walk|].
  cbn [length Nat.eqb]. destruct (is_ok config_status); cbn [negb] in H; [|walk; count_simpl; done].
  destruct (publish_loop_steps (m :: ms) 0 acts _ ltac:(lia) ltac:(lia) H) as [_ R].
  destruct (R n eq_refl) as (j & -> & _ & _ & ->). by rewrite Z.add_0_l, Nat2Z.id.
Qed.
Next Obligation.
  intros [ms F] acts t H. simpl in *. unfold publish_batch_code in H. destruct ms as [|m ms]; [by walk|].
  destruct (is_ok config_status); cbn [negb] in H; [|walk; simpl; lia].
  by apply (publish_loop_steps (m :: ms) 0) in H as [W _]; [|lia..].
Qed.

Lemma consume_end_steps n (o : list T) acts t :
  steps (consume_end n o) acts t ->
  moved pop_moves acts = [] /\
  forall n' o', t = Ret (n', o') -> n' = n /\ o' = o /\
    forall x, counted x acts = if n =? 0 then one ConsumeFailedEmpty x else 0%nat.
Proof.
  unfold consume_end. intros H. destruct (n =? 0); walk; (split; [done|]); intros n' o' E; simplify_eq; try done.
  split_and!; try done. intros x. count_simpl. done.
Qed.

Lemma consume_loop_steps (out : list T) : forall done n acts t,
  0 <= n -> n + Z.of_nat (length out) < 2 ^ 64 -> steps (consume_loop_code out done n) acts t ->
  (length (moved pop_moves acts) <= length out)%nat /\
  forall n' o, t = Ret (n', o) -> n' = n + Z.of_nat (length (moved pop_moves acts)) /\
    o = done ++ moved pop_moves acts ++ drop (length (moved pop_moves acts)) out /\
    forall x, counted x acts = (length (moved pop_moves acts) * one Consumed x +
      if (n' =? 0)%Z then one ConsumeFailedEmpty x else 0)%nat.
Proof.
  induction out as [|v out IH]; intros done n acts t Hn Hl H; simpl in H, Hl.
  { apply consume_end_steps in H as [-> R]. split; [done|]. intros n' o E.
    destruct (R n' o E) as (-> & -> & Hc). simpl. rewrite app_nil_r. split_and!; [lia|done..]. }
  walk_step H acts; [split; [simpl; lia|done]|]. destruct b as [w|]; simpl in H.
  - walk_step H acts; [split; [simpl; lia|done]|]. rewrite wrap_id in H by (split; lia).
    destruct (IH _ (n + 1) acts t ltac:(lia) ltac:(lia) H) as [W R]. split; [simpl; lia|].
    intros n' o E. destruct (R n' o E) as (-> & -> & Hc). cbn [moved omap list_omap pop_moves length drop app].
    split_and!; [lia|by rewrite <- app_assoc|]. intros x. count_simpl. rewrite Hc. unfold moved. lia.
  - apply consume_end_steps in H as [Hm R]. unfold moved in *. cbn [omap list_omap pop_moves]. rewrite Hm.
    split; [simpl; lia|]. intros n' o E. destruct (R n' o E) as (-> & -> & Hc). simpl.
    split_and!; [lia|done|]. intros x. count_simpl. by rewrite Hc.
Qed.

#[export] Program Instance consume_batch_calls
    : Calls pop_moves (fun out => consume_batch_code config_status (span_list out)) := {|
  values out '(n, o) := take (Z.to_nat n) o;
  counts out '(n, _) x :=
    if (length (span_list out) =? 0)%nat then 0%nat
    else if is_ok config_status
    then (Z.to_nat n * one Consumed x + if (n =? 0)%Z then one ConsumeFailedEmpty x else 0)%nat
    else one ConsumeFailedInvalid x;
  width out := length (span_list out) |}.
Next Obligation.
  intros [out F] acts [n o] H. simpl in *. unfold consume_batch_code in H. destruct out as [|v out]; [by walk|].
  destruct (is_ok config_status); cbn [negb] in H; [|by walk].
  destruct (consume_loop_steps (v :: out) [] 0 acts _ ltac:(lia) ltac:(lia) H) as [_ R].
  destruct (R n o eq_refl) as (-> & -> & _). by rewrite Z.add_0_l, Nat2Z.id, app_nil_l, take_app_length.
Qed.
Next Obligation.
  intros [out F] acts [n o] x H. simpl in *. unfold consume_batch_code in H. destruct out as [|v out]; [by walk|].
  cbn [length Nat.eqb]. destruct (is_ok config_status); cbn [negb] in H; [|walk; count_simpl; done].
  destruct (consume_loop_steps (v :: out) [] 0 acts _ ltac:(lia) ltac:(lia) H) as [_ R].
  destruct (R n o eq_refl) as (-> & -> & ->). by rewrite Z.add_0_l, Nat2Z.id.
Qed.
Next Obligation.
  intros [out F] acts t H. simpl in *. unfold consume_batch_code in H. destruct out as [|v out]; [by walk|].
  destruct (is_ok config_status); cbn [negb] in H; [|walk; simpl; lia].
  by apply (consume_loop_steps (v :: out) [] 0) in H as [W _]; [|lia..].
Qed.
End Instances.
Arguments span T : clear implicits.

(** ** Metrics snapshots *)

(** The loads of [BrokerCounters::snapshot()], in order; the last six counters are
    those of the log, which these two brokers never touch. *)
Definition snapshot_order : list (option counter) :=
  [Some Published; Some Consumed; Some PublishFailedFull; Some ConsumeFailedEmpty;
   Some PublishFailedInvalid; Some ConsumeFailedInvalid; None; None; None; None; None; None].

(** The position that a load of the [i]-th counter reads if it reads [g]. *)
Definition position (g : memory) (i : nat) : nat :=
  match snapshot_order !! i with Some (Some c) => g c | _ => 0%nat end.

(** The snapshot that loads at these positions of the modification orders give. *)
Definition snapshot_value (loads : list nat) : BrokerMetricsSnapshot :=
  let field i := wrap 64 (Z.of_nat (nth i loads 0%nat)) in
  mkSnapshot (field 0%nat) (field 1%nat) (field 2%nat) (field 3%nat) (field 4%nat) (field 5%nat)
    (field 6%nat) (field 7%nat) (field 8%nat) (field 9%nat) (field 10%nat) (field 11%nat).

Section Observer.
Context {T CP RP CC RC : Type} (Capacity : Z).
Context (pcode : CP -> code T bool RP) (ccode : CC -> code unit (option T) RC).
Context (pnext : list (CP * RP) -> option CP) (cnext : list (CC * RC) -> option CC).

(** The two threads and a third one: how far it has seen each counter, whether it has
    joined the others, the loads of the snapshot it is taking, and the snapshots it has
    taken, each with whether the others had been joined. *)
Record system : Type := mkSystem {
  sy_clients : clients (T:=T) (CP:=CP) (RP:=RP) (CC:=CC) (RC:=RC);
  sy_view : memory;
  sy_joined : bool;
  sy_loads : list nat;
  sy_taken : list (bool * list nat) }.
Definition system_start : system := mkSystem (clients_start Capacity) memory_init false [] [].

Inductive system_turn : Set := Turn (t : turn) | Load (k : nat) | Join.

Definition see (c : counter) (k : nat) (v : memory) : memory := fun x => if decide (x = c) then k else v x.

(** The load at position [k] is made; the twelfth one completes the snapshot. *)
Definition loaded (k : nat) (view : memory) (s : system) : system :=
  let loads := sy_loads s ++ [k] in
  if (length loads =? 12)%nat
  then mkSystem (sy_clients s) view (sy_joined s) [] (sy_taken s ++ [(sy_joined s, loads)])
  else mkSystem (sy_clients s) view (sy_joined s) loads (sy_taken s).

(** A relaxed load returns any value of the counter that is not older than what the
    thread has seen; a thread that has joined the others has seen all they did. *)
Definition system_step (t : system_turn) (s : system) : option system :=
  match t with
  | Turn t =>
      match clients_turn Capacity pcode ccode pnext cnext t (sy_clients s) with
      | PStep _ r => Some (mkSystem r (sy_view s) (sy_joined s) (sy_loads s) (sy_taken s))
      | _ => None
      end
  | Load k =>
      match snapshot_order !! length (sy_loads s) with
      | Some (Some c) =>
          if ((sy_view s c <=? k) && (k <=? pr_shared (sy_clients s) c))%nat
          then Some (loaded k (see c k (sy_view s)) s) else None
      | Some None => Some (loaded 0 (sy_view s) s)
      | None => None
      end
  | Join =>
      if ended (sy_clients s) && (length (sy_loads s) =? 0)%nat
      then Some (mkSystem (sy_clients s) (pr_shared (sy_clients s)) true [] (sy_taken s)) else None
  end.

Inductive system_run : system -> Prop :=
  | system_run_start : system_run system_start
  | system_run_step s t s' : system_run s -> system_step t s = Some s' -> system_run s'.
Fixpoint run_system (ts : list system_turn) (s : system) : option system :=
  match ts with [] => Some s | t :: ts => s' ← system_step t s; run_system ts s' end.
Lemma run_system_reaches ts : forall s s', system_run s -> run_system ts s = Some s' -> system_run s'.
Proof.
  induction ts as [|t ts IH]; simpl; intros s s' R E; [by simplify_eq|].
  destruct (system_step t s) as [s1|] eqn:E1; [|done]. eapply IH; [|done]. by econstructor.
Qed.

(** One snapshot is not newer than another, counter by counter. *)
Definition older (p q : list nat) : Prop := forall i, (nth i p 0 <= nth i q 0)%nat.

Record system_inv (s : system) : Prop := {
  si_run : exists tr, clients_run Capacity pcode ccode pnext cnext tr (sy_clients s);
  si_view c : (sy_view s c <= pr_shared (sy_clients s) c)%nat;
  si_joined : sy_joined s = true ->
    ended (sy_clients s) = true /\ forall c, sy_view s c = pr_shared (sy_clients s) c;
  si_length : (length (sy_loads s) < 12)%nat;
  si_loads i : (nth i (sy_loads s) 0 <= position (sy_view s) i)%nat;
  si_exact i : sy_joined s = true -> (i < length (sy_loads s))%nat ->
    nth i (sy_loads s) 0%nat = position (sy_view s) i;
  si_before j p i : (j, p) ∈ sy_taken s -> (nth i p 0 <= position (sy_view s) i)%nat /\
    ((i < length (sy_loads s))%nat -> (nth i p 0 <= nth i (sy_loads s) 0)%nat);
  si_taken p i : (true, p) ∈ sy_taken s -> sy_joined s = true /\ nth i p 0%nat = position (sy_view s) i;
  si_sorted i j p q : sy_taken s !! i = Some p -> sy_taken s !! j = Some q -> (i < j)%nat ->
    older p.2 q.2 }.

(** Loading the counter at hand moves the view forward there and nowhere else. *)
Lemma position_see c k v n i :
  snapshot_order !! n = Some (Some c) ->
  position (see c k v) i = if decide (i = n) then k else position v i.
Proof.
  intros Hn. unfold position, see.
  do 6 (destruct n as [|n]; [injection Hn as <-; do 12 (destruct i as [|i]; [done|]); done|]).
  do 6 (destruct n as [|n]; [done|]). done.
Qed.

Lemma ended_frozen t (r : clients (T:=T) (CP:=CP) (RP:=RP) (CC:=CC) (RC:=RC)) e r' :
  thread_ok pcode (pr_prod r) -> thread_ok ccode (pr_cons r) -> ended r = true ->
  clients_turn Capacity pcode ccode pnext cnext t r <> PStep e r'.
Proof.
  intros [_ P] [_ C] [E1 E2]%andb_true_iff.
  destruct (th_now (pr_prod r)) as [[[]]|] eqn:N1; [by destruct P as [_ ?]; congruence|].
  destruct (th_now (pr_cons r)) as [[[]]|] eqn:N2; [by destruct C as [_ ?]; congruence|].
  destruct t; simpl; unfold prod_thread, cons_thread; simpl; unfold thread_local;
    by rewrite ?N1, ?N2, ?E1, ?E2.
Qed.

Lemma nth_snoc (l : list nat) k i :
  nth i (l ++ [k]) 0%nat = if decide (i = length l) then k else nth i l 0%nat.
Proof.
  case_decide as E; [subst; by rewrite nth_middle|].
  destruct (decide (i < length l)%nat); [by rewrite app_nth1|].
  rewrite app_nth2 by lia. rewrite (nth_overflow l) by lia.
  destruct (i - length l)%nat as [|[]] eqn:?; [lia|done..].
Qed.

Lemma system_loaded_inv k view' s :
  system_inv s ->
  (forall i, position view' i = if decide (i = length (sy_loads s)) then k else position (sy_view s) i) ->
  (position (sy_view s) (length (sy_loads s)) <= k)%nat ->
  (forall c, view' c <= pr_shared (sy_clients s) c)%nat ->
  (sy_joined s = true -> forall c, view' c = pr_shared (sy_clients s) c) ->
  system_inv (loaded k view' s).
Proof.
  intros [RUN V J LEN LO EX BE TA SO] Hp Hk Hv Hj.
  assert (POS : forall i, (position (sy_view s) i <= position view' i)%nat).
  { intros i. rewrite Hp. case_decide; subst; lia. }
  assert (LO' : forall i, (nth i (sy_loads s ++ [k]) 0 <= position view' i)%nat).
  { intros i. rewrite nth_snoc, Hp. case_decide; [lia|apply LO]. }
  assert (EX' : forall i, sy_joined s = true -> (i < S (length (sy_loads s)))%nat ->
    nth i (sy_loads s ++ [k]) 0%nat = position view' i).
  { intros i E Hi. rewrite nth_snoc, Hp. case_decide; [done|]. apply EX; [done|lia]. }
  assert (BE' : forall j p i, (j, p) ∈ sy_taken s -> (nth i p 0 <= position view' i)%nat /\
    ((i < S (length (sy_loads s)))%nat -> (nth i p 0 <= nth i (sy_loads s ++ [k]) 0)%nat)).
  { intros j p i Hin. destruct (BE j p i Hin) as [B1 B2]. specialize (POS i). split; [lia|].
    intros Hi. rewrite nth_snoc. case_decide; [subst; lia|]. apply B2. lia. }
  assert (TA' : forall p i, (true, p) ∈ sy_taken s -> sy_joined s = true /\ nth i p 0%nat = position view' i).
  { intros p i Hin. destruct (TA p i Hin) as [E ->]. split; [done|].
    destruct (J E) as [_ Jv]. unfold position. destruct (snapshot_order !! i) as [[c|]|]; [|done..].
    by rewrite Jv, Hj. }
  unfold loaded. rewrite length_app. simpl length.
  destruct (Nat.eqb_spec (length (sy_loads s) + 1) 12) as [E12|N12]; split; cbn [sy_clients sy_view sy_joined sy_loads sy_taken];
    rewrite ?length_app; simpl length; try done; try lia.
  - intros E. split; [by apply J|by apply Hj].
  - intros i. by destruct i; simpl; lia.
  - intros j p i [Hin|Hin%list_elem_of_singleton]%elem_of_app; [|injection Hin as -> ->]; (split; [|lia]).
    + by apply BE' with j.
    + apply LO'.
  - intros p i [Hin|Hin%list_elem_of_singleton]%elem_of_app; [by apply TA'|].
    injection Hin as Ej ->. split; [done|]. destruct (decide (i < 12)%nat); [apply EX'; [done|lia]|].
    rewrite nth_overflow by (rewrite length_app; simpl; lia).
    unfold position. by rewrite lookup_ge_None_2 by (simpl; lia).
  - intros i j p q Hi Hq Hij. apply lookup_snoc_Some in Hq as [[Hjl Hq]|[-> <-]].
    + rewrite lookup_app_l in Hi by lia. by apply (SO i j).
    + rewrite lookup_app_l in Hi by lia. destruct p as [b p]. intros n. simpl.
      destruct (decide (n < 12)%nat); [apply (BE' b p n); [by eapply list_elem_of_lookup_2|lia]|].
      transitivity (position (sy_view s) n); [apply (BE b p n); by eapply list_elem_of_lookup_2|].
      unfold position. rewrite lookup_ge_None_2 by (simpl; lia). lia.
  - intros E. split; [by apply J|by apply Hj].
  - intros i E Hi. apply EX'; [done|lia].
  - intros j p i Hin. destruct (BE' j p i Hin). split; [done|]. intros. apply H0. lia.
Qed.

Lemma fetch_add_grows c g x : (g x <= fetch_add c g x)%nat.
Proof. unfold fetch_add. case_decide; lia. Qed.

Lemma thread_local_grows {A B C R} (code_of : C -> code A B R) next k s g s' g' :
  thread_local code_of next k s g = Some (s', g') -> forall x, (g x <= g' x)%nat.
Proof.
  unfold thread_local. repeat case_match; intros; simplify_eq; try done. apply fetch_add_grows.
Qed.

(** The counters never go back. *)
Lemma turn_grows t (r : clients (T:=T) (CP:=CP) (RP:=RP) (CC:=CC) (RC:=RC)) e r' x :
  clients_turn Capacity pcode ccode pnext cnext t r = PStep e r' -> (pr_shared r x <= pr_shared r' x)%nat.
Proof.
  destruct t; simpl; unfold prod_thread, cons_thread; simpl; repeat case_match; intros; simplify_eq; simpl; try done;
    by eapply thread_local_grows.
Qed.

Context {CAP : CapacityOk Capacity}.

Lemma system_run_inv s : system_run s -> system_inv s.
Proof.
  induction 1 as [|s t s' _ I E].
  { split; simpl; try done; try lia; [by eexists; constructor|intros [|?]; simpl; lia|intros ??? []%not_elem_of_nil
      |intros ?? []%not_elem_of_nil]. }
  destruct t as [t|k|]; simpl in E.
  - destruct (clients_turn _ _ _ _ _ _ _) as [e r| |] eqn:Et; [|done..]. injection E as <-.
    destruct I as [[tr RUN] V J LEN LO EX BE TA SO]. pose proof (clients_run_inv _ _ _ _ _ _ _ RUN) as [P C _ _ _].
    split; simpl; try done.
    + exists (tr ++ events e). by econstructor.
    + intros c. pose proof (turn_grows _ _ _ _ c Et). specialize (V c). lia.
    + intros Ej. exfalso. by eapply (ended_frozen t _ _ _ P C (proj1 (J Ej))).
  - pose proof (si_view _ I) as V. pose proof (si_joined _ I) as J.
    destruct (snapshot_order !! length (sy_loads s)) as [[c|]|] eqn:En; [| |done].
    + destruct (_ && _) eqn:Ek; [|done]. injection E as <-.
      apply andb_true_iff in Ek as [K1%Nat.leb_le K2%Nat.leb_le]. apply system_loaded_inv; [done|..].
      * intros i. by apply position_see.
      * unfold position. by rewrite En.
      * intros x. unfold see. case_decide; [by subst|apply V].
      * intros Ej x. destruct (J Ej) as [_ Jv]. unfold see. case_decide; [|apply Jv]. subst.
        specialize (Jv c). lia.
    + injection E as <-. apply system_loaded_inv; [done| | |apply V|intros Ej; by apply J].
      * intros i. case_decide; [subst|done]. unfold position. by rewrite En.
      * unfold position. by rewrite En.
  - destruct (ended (sy_clients s)) eqn:Ee; simpl in E; [|done].
    destruct (Nat.eqb_spec (length (sy_loads s)) 0) as [L0|]; [|done]. injection E as <-.
    destruct I as [RUN V J LEN LO EX BE TA SO].
    assert (POS : forall i, (position (sy_view s) i <= position (pr_shared (sy_clients s)) i)%nat).
    { intros i. unfold position. destruct (snapshot_order !! i) as [[c|]|]; [apply V|done..]. }
    split; simpl; try done; try lia.
    + intros [|?]; simpl; lia.
    + intros j p i Hin. split; [|lia]. transitivity (position (sy_view s) i); [by apply BE with j|apply POS].
    + intros p i Hin. destruct (TA p i Hin) as [Ej ->]. split; [done|]. destruct (J Ej) as [_ Jv].
      unfold position. destruct (snapshot_order !! i) as [[c|]|]; [apply Jv|done..].
Qed.
End Observer.

(** ** The results of broker calls *)

Section BrokerResults.
Context {T : Type} (st : Status) (Hst : is_ok st = true).

Lemma publish_counts (s : thread T bool T Status) x :
  let values := returned_values (CALLS:=publish_calls st) s in
  returned_counts (CALLS:=publish_calls st) s x =
    (one Published x * length values + one PublishFailedFull x * (length (results s) - length values))%nat /\
  (length values <= length (results s))%nat.
Proof.
  unfold returned_counts, returned_values. induction (results s) as [|[v r] l [IH1 IH2]]; simpl in *; [lia|].
  rewrite length_app, IH1, Hst. unfold one. destruct (is_ok r); simpl in *; repeat case_decide; lia.
Qed.
Lemma consume_counts (s : thread unit (option T) unit (Status * option T)) x :
  let values := returned_values (CALLS:=consume_calls st) s in
  returned_counts (CALLS:=consume_calls st) s x =
    (one Consumed x * length values + one ConsumeFailedEmpty x * (length (results s) - length values))%nat /\
  (length values <= length (results s))%nat.
Proof.
  unfold returned_counts, returned_values. induction (results s) as [|[c [r o]] l [IH1 IH2]]; simpl in *; [lia|].
  rewrite length_app, IH1, Hst. unfold one. destruct o; simpl in *; repeat case_decide; lia.
Qed.
End BrokerResults.

(** ** Properties *)

(** The bodies of the calls that threads run are those of the sequential model: run by one
    thread alone on any queue that implements the interface, the code of each of the
    four operations returns what the function of Broker.v returns and leaves the
    same broker. *)
Theorem broker_code_equiv (Q T : Type) (Capacity : Z) (QU : SpscQueue Q T Capacity) (b : BrokerState Q)
    (value : T) (messages out : list T) :
  run_alone q_try_push (try_publish_code (config_status_ b) value) b = Broker.try_publish value b /\
  run_alone (fun _ => q_try_pop) (try_consume_code (config_status_ b)) b = Broker.try_consume b /\
  run_alone q_try_push (publish_batch_code (config_status_ b) messages) b =
    BatchBroker.try_publish_batch messages b /\
  run_alone (fun _ => q_try_pop) (consume_batch_code (config_status_ b) out) b =
    BatchBroker.try_consume_batch out b.
Proof.
  unfold Broker.try_publish, Broker.try_consume, Broker.valid, try_publish_code, try_consume_code. split_and!.
  - destruct (is_ok (config_status_ b)); simpl; [|done].
    by destruct (q_try_push value (queue_ b)) as [[[] q]|].
  - destruct (is_ok (config_status_ b)); simpl; [|done].
    by destruct (q_try_pop (queue_ b)) as [[[v|] q]|].
  - unfold publish_batch_code, BatchBroker.try_publish_batch, BatchBroker.valid. destruct messages as [|m ms]; [done|].
    destruct (is_ok (config_status_ b)); [|done]. apply publish_loop_alone.
  - unfold consume_batch_code, BatchBroker.try_consume_batch, BatchBroker.valid. destruct out as [|x out]; [done|].
    destruct (is_ok (config_status_ b)); [|done]. exact (consume_loop_alone (x :: out) [] 0 b).
Qed.

(** C12. Brokers between two threads.  Whatever calls a publishing and a consuming
    client make, deciding on the results so far, and however their steps interleave on
    release/acquire memory: no step is undefined; the values consumed are, in order,
    the first of those published, and at most [Capacity] more are queued; a call in
    progress accounts for at most one value, or for at most its batch; and every
    counter is exactly the sum that the results of the returned calls and
    the steps of the calls in progress tell.  This holds for [Broker] and for the batch calls of
    [BatchBroker], with any configuration status. *)
Theorem broker_concurrent_exact (T : Type) (Capacity : Z) (CAP : CapacityOk Capacity) (st : Status) :
  (forall pnext cnext tr r,
     clients_run Capacity (try_publish_code (T:=T) st) (fun _ : unit => try_consume_code st) pnext cnext tr r ->
     (forall t, clients_turn Capacity (try_publish_code (T:=T) st) (fun _ : unit => try_consume_code st)
        pnext cnext t r <> PUndefined) /\ calls_exact (Capacity:=Capacity) (PC:=publish_calls st) (CC':=consume_calls st) r) /\
  (forall pnext cnext tr r,
     clients_run Capacity (fun ms : span T => publish_batch_code st (span_list ms))
       (fun out : span T => consume_batch_code st (span_list out)) pnext cnext tr r ->
     (forall t, clients_turn Capacity (fun ms : span T => publish_batch_code st (span_list ms))
       (fun out : span T => consume_batch_code st (span_list out)) pnext cnext t r <> PUndefined) /\
     calls_exact (Capacity:=Capacity) (PC:=publish_batch_calls st) (CC':=consume_batch_calls st) r).
Proof.
  split; intros pnext cnext tr r Hr; (split; [|by eapply clients_exact]); intros t;
    exact (do_turn_defined _ _ _ _ _ _ _ _ t Hr).
Qed.

(** A publisher that publishes the given values, retrying nothing, and a consumer that makes
    [n] calls. *)
Definition publish_each_once {T} (vs : list T) (rs : list (T * Status)) : option T := vs !! length rs.
Definition consume_times {T} (n : nat) (rs : list (unit * (Status * option T))) : option unit :=
  if (length rs <? n)%nat then Some tt else None.

Definition toy_publish := try_publish_code (T:=nat) Status_ok.
Definition toy_consume (_ : unit) := try_consume_code (T:=nat) Status_ok.

(** One value goes through while a third thread takes a snapshot, and another
    after it has joined both. *)
Definition toy_turns : list system_turn :=
  [Load 0] ++ map Turn (replicate 10 (TurnP 0) ++ [TurnC 0; TurnC 0; TurnC 0; TurnC 1] ++ replicate 7 (TurnC 0)) ++
  [Load 1] ++ replicate 10 (Load 0) ++ [Join; Load 1; Load 1] ++ replicate 10 (Load 0).
Definition toy_system :=
  run_system 2 toy_publish toy_consume (publish_each_once [7]%nat) (consume_times 1) toy_turns (system_start 2).
Definition toy_end : system := default (system_start 2) toy_system.
Definition toy_clients_turns : list turn :=
  replicate 10 (TurnP 0) ++ [TurnC 0; TurnC 0; TurnC 0; TurnC 1] ++ replicate 7 (TurnC 0).
Definition toy_clients_end := default ([], clients_start 2)
  (run_turns 2 (thread_of toy_publish (publish_each_once [7]%nat)) (thread_of toy_consume (consume_times 1))
     toy_clients_turns [] (clients_start 2)).

Lemma toy_clients_run :
  clients_run 2 toy_publish toy_consume (publish_each_once [7]%nat) (consume_times 1)
    toy_clients_end.1 toy_clients_end.2.
Proof. apply (run_turns_prun _ _ _ _ toy_clients_turns [] (clients_start 2)); [constructor|]. vm_compute. reflexivity. Qed.
Lemma toy_system_run :
  system_run 2 toy_publish toy_consume (publish_each_once [7]%nat) (consume_times 1) toy_end.
Proof. apply (run_system_reaches _ _ _ _ _ toy_turns (system_start 2)); [constructor|]. vm_compute. reflexivity. Qed.

Lemma broker_concurrent_exact_witness :
  results (pr_cons toy_clients_end.2) = [(tt, (Status_ok, Some 7%nat))] /\
  calls_exact (Capacity:=2) (PC:=publish_calls Status_ok) (CC':=consume_calls Status_ok) toy_clients_end.2.
Proof.
  split; [vm_compute; reflexivity|].
  exact (proj2 (proj1 (broker_concurrent_exact nat 2 CapacityOk_2 Status_ok) (publish_each_once [7]%nat) (consume_times 1)
    toy_clients_end.1 toy_clients_end.2 toy_clients_run)).
Defined.

(** C13. Metrics snapshots of a broker in use.  A third thread that takes snapshots with
    relaxed loads while the two others run sees, in every field, a value the
    counter has had, and never an older one than in a snapshot it took before; once it has
    joined the threads its snapshots are exact: the published and consumed values, the
    other publishes as full, the other consumes as empty, all modulo 2^64. *)
Theorem broker_snapshot_exact (T : Type) (Capacity : Z) (CAP : CapacityOk Capacity) (st : Status)
    (pnext : list (T * Status) -> option T) (cnext : list (unit * (Status * option T)) -> option unit)
    (s : system) :
  is_ok st = true ->
  system_run Capacity (try_publish_code st) (fun _ : unit => try_consume_code st) pnext cnext s ->
  let r := sy_clients s in
  let published := length (returned_values (CALLS:=publish_calls st) (pr_prod r)) in
  let consumed := length (returned_values (CALLS:=consume_calls st) (pr_cons r)) in
  let total n := wrap 64 (Z.of_nat n) in
  (forall j p i, (j, p) ∈ sy_taken s -> (nth i p 0 <= position (pr_shared r) i)%nat) /\
  (forall i j p q, sy_taken s !! i = Some p -> sy_taken s !! j = Some q -> (i < j)%nat -> older p.2 q.2) /\
  (forall p, (true, p) ∈ sy_taken s -> ended r = true /\
     snapshot_value p = mkSnapshot (total published) (total consumed)
       (total (length (results (pr_prod r)) - published)%nat)
       (total (length (results (pr_cons r)) - consumed)%nat) 0 0 0 0 0 0 0 0).
Proof.
  intros Hst Hr r published consumed total. destruct (system_run_inv _ _ _ _ _ _ Hr) as [[tr RUN] V J _ _ _ BE TA SO].
  split_and!; [|done|].
  - intros j p i Hin. transitivity (position (sy_view s) i); [by apply BE with j|].
    unfold position. destruct (snapshot_order !! i) as [[c|]|]; [apply V|done..].
  - intros p Hin. destruct (TA p 0%nat Hin) as [Ej _]. destruct (J Ej) as [Hend Jv]. split; [done|].
    destruct (clients_run_inv _ _ _ _ _ _ _ RUN) as [[_ Np] [_ Nc] _ _ _].
    apply andb_true_iff in Hend as [E1 E2].
    assert (G : forall x, pr_shared r x = (returned_counts (CALLS:=publish_calls st) (pr_prod r) x +
      returned_counts (CALLS:=consume_calls st) (pr_cons r) x)%nat).
    { intros x. destruct (clients_exact (PC:=publish_calls st) (CC':=consume_calls st) _ _ RUN) as [_ Hc Hp Hq].
      subst r. rewrite Hc.
      destruct (th_now (pr_prod (sy_clients s))) as [[[]]|]; [by destruct Np; congruence|].
      destruct (th_now (pr_cons (sy_clients s))) as [[[]]|]; [by destruct Nc; congruence|].
      rewrite (proj2 Hp), (proj2 Hq). lia. }
    assert (F : forall i, nth i p 0%nat = position (pr_shared r) i).
    { intros i. destruct (TA p i Hin) as [_ ->]. unfold position.
      destruct (snapshot_order !! i) as [[c|]|]; [apply Jv|done..]. }
    unfold snapshot_value. rewrite !F. unfold position; simpl. rewrite !G.
    rewrite !(fun x => proj1 (publish_counts st Hst (pr_prod r) x)), !(fun x => proj1 (consume_counts st Hst (pr_cons r) x)).
    fold published consumed. unfold one; simpl. rewrite !Nat.add_0_r. done.
Qed.

Lemma broker_snapshot_exact_witness :
  (true, [1; 1; 0; 0; 0; 0; 0; 0; 0; 0; 0; 0]%nat) ∈ sy_taken toy_end /\
  snapshot_value [1; 1; 0; 0; 0; 0; 0; 0; 0; 0; 0; 0]%nat = mkSnapshot 1 1 0 0 0 0 0 0 0 0 0 0.
Proof.
  assert (Hin : (true, [1; 1; 0; 0; 0; 0; 0; 0; 0; 0; 0; 0]%nat) ∈ sy_taken toy_end).
  { vm_compute. right. left. }
  split; [exact Hin|].
  exact (proj2 (proj2 (proj2 (broker_snapshot_exact nat 2 CapacityOk_2 Status_ok (publish_each_once [7]%nat)
    (consume_times 1) toy_end eq_refl toy_system_run)) _ Hin)).
Defined.

(** A snapshot taken while the threads run is not atomic: it may count a value as
    consumed that it does not count as published. *)
Theorem snapshot_not_atomic : exists s p,
  system_run 2 toy_publish toy_consume (publish_each_once [7]%nat) (consume_times 1) s /\
  (false, p) ∈ sy_taken s /\ published (snapshot_value p) = 0 /\ consumed (snapshot_value p) = 1.
Proof.
  exists toy_end. eexists. split; [exact toy_system_run|]. split; [vm_compute; left|]. by vm_compute.
Qed.
