(* ===== verification/WalFormat.v ===== *)
(** * The write-ahead-log record format

    wal/record.hpp: the 40-byte little-endian header, its serialisation and
    validation; wal/checksum.cpp: the bit-serial CRC-32 and the checksum of a
    record. *)

From S2P Require Import Prelude Core.

(** ** wal/record.hpp: data *)

(** 'A' 'W' 'A' 'L', least significant byte first. *)
Definition wal_record_magic : Z :=
  Z.lor (Z.lor (Z.lor 65 (wrap 32 (Z.shiftl 87 8))) (wrap 32 (Z.shiftl 65 16)))
        (wrap 32 (Z.shiftl 76 24)).
Definition wal_format_version : Z := 1.

Record WalRecordHeader : Set := mkHeader {
  magic : Z; version : Z; header_size : Z; payload_size : Z;
  sequence : Z; timestamp_ns : Z; checksum : Z; flags : Z }.

#[global] Instance WalRecordHeader_eq_dec : EqDecision WalRecordHeader.
Proof. solve_decision. Defined.

(** The default member initialisers. *)
Definition WalRecordHeader_default : WalRecordHeader :=
  mkHeader wal_record_magic wal_format_version wal_record_header_size 0 0 0 0 0.

Definition set_checksum (c : Z) (h : WalRecordHeader) : WalRecordHeader :=
  mkHeader (magic h) (version h) (header_size h) (payload_size h) (sequence h)
    (timestamp_ns h) c (flags h).

Record WalRecordView : Set := mkRecordView {
  rv_header : WalRecordHeader;
  rv_payload : list byte;
  rv_offset : Z }.

(** Every field holds a value of its width. *)
Definition header_widths (h : WalRecordHeader) : Prop :=
  in_width 32 (magic h) /\ in_width 16 (version h) /\ in_width 16 (header_size h) /\
  in_width 32 (payload_size h) /\ in_width 64 (sequence h) /\ in_width 64 (timestamp_ns h) /\
  in_width 32 (checksum h) /\ in_width 32 (flags h).

(** ** Little-endian fields *)

(** [static_cast<std::byte>((value >> (i * 8U)) & 0xFFU)]. *)
Definition le_byte (value : Z) (i : nat) : byte :=
  z2b (Z.land (Z.shiftr value (Z.of_nat i * 8)) 255).

Definition write_u16_le (bytes : list byte) (offset : nat) (v : Z) : list byte :=
  let bytes := <[offset := le_byte v 0]> bytes in
  <[(offset + 1)%nat := le_byte v 1]> bytes.

(** The loops over [i < 4] and [i < 8]. *)
Definition write_le (count : nat) (bytes : list byte) (offset : nat) (v : Z) : list byte :=
  foldl (fun bytes i => <[(offset + i)%nat := le_byte v i]> bytes) bytes (seq 0 count).
Definition write_u32_le := write_le 4.
Definition write_u64_le := write_le 8.

(** [bytes[i]]; the callers below stay inside the span. *)
Definition byte_at (bytes : list byte) (i : nat) : Z := b2z (default Byte.x00 (bytes !! i)).

Definition read_u16_le (bytes : list byte) (offset : nat) : Z :=
  Z.lor (byte_at bytes offset) (wrap 16 (Z.shiftl (byte_at bytes (offset + 1)) 8)).

Definition read_le (width : Z) (count : nat) (bytes : list byte) (offset : nat) : Z :=
  foldl (fun v i => Z.lor v (wrap width (Z.shiftl (byte_at bytes (offset + i)) (Z.of_nat i * 8))))
    0 (seq 0 count).
Definition read_u32_le := read_le 32 4.
Definition read_u64_le := read_le 64 8.

(** ** Headers *)

Definition serialize_header (h : WalRecordHeader) : list byte :=
  let bytes := replicate (Z.to_nat wal_record_header_size) Byte.x00 in
  let bytes := write_u32_le bytes 0 (magic h) in
  let bytes := write_u16_le bytes 4 (version h) in
  let bytes := write_u16_le bytes 6 (header_size h) in
  let bytes := write_u32_le bytes 8 (payload_size h) in
  let bytes := write_u64_le bytes 16 (sequence h) in
  let bytes := write_u64_le bytes 24 (timestamp_ns h) in
  let bytes := write_u32_le bytes 32 (checksum h) in
  write_u32_le bytes 36 (flags h).

Definition deserialize_header (bytes : list byte) : Expected WalRecordHeader :=
  if span_size bytes <? wal_record_header_size
  then Expected_of_status (mkStatus StatusCode.empty "partial wal header")
  else Value (mkHeader
    (read_u32_le bytes 0) (read_u16_le bytes 4) (read_u16_le bytes 6) (read_u32_le bytes 8)
    (read_u64_le bytes 16) (read_u64_le bytes 24) (read_u32_le bytes 32) (read_u32_le bytes 36)).

Definition record_total_size (h : WalRecordHeader) : Z := header_size h ⊞ payload_size h.

Definition is_zero_filled (bytes : list byte) : bool :=
  forallb (fun b => bool_decide (b = Byte.x00)) bytes.

Definition validate_header_shape (h : WalRecordHeader) : Status :=
  if negb (magic h =? wal_record_magic)
  then mkStatus StatusCode.corrupted_record "invalid wal magic"
  else if negb (version h =? wal_format_version)
  then mkStatus StatusCode.corrupted_record "unsupported wal version"
  else if negb (header_size h =? wal_record_header_size)
  then mkStatus StatusCode.corrupted_record "invalid wal header size"
  else if payload_size h >? max_payload_size
  then mkStatus StatusCode.corrupted_record "invalid wal payload size"
  else Status_ok.

(** ** wal/checksum.cpp *)

Definition crc_polynomial : Z := 0xEDB88320.

(** One iteration of the bit loop. *)
Definition crc_bit (crc : Z) : Z :=
  let mask := wrap 32 (0 - Z.land crc 1) in
  Z.lxor (Z.shiftr crc 1) (Z.land crc_polynomial mask).

(** One iteration of the byte loop. *)
Definition crc_byte (crc : Z) (b : byte) : Z := Nat.iter 8 crc_bit (Z.lxor crc (b2z b)).

Definition crc_update (crc : Z) (bytes : list byte) : Z := foldl crc_byte crc bytes.

Definition crc32 (bytes : list byte) : Z :=
  Z.lxor (crc_update 0xFFFFFFFF bytes) 0xFFFFFFFF.

Definition compute_record_checksum (h : WalRecordHeader) (payload : list byte) : Z :=
  let h := set_checksum 0 h in
  let serialized := serialize_header h in
  let crc := 0xFFFFFFFF in
  let crc := crc_update crc serialized in
  let crc := crc_update crc payload in
  Z.lxor crc 0xFFFFFFFF.

Definition validate_record_checksum (h : WalRecordHeader) (payload : list byte) : bool :=
  checksum h =? compute_record_checksum h payload.

(** The check value of CRC-32/ISO-HDLC: the ASCII digits 1 to 9. *)
Example crc32_check_value :
  crc32 (map z2b [49; 50; 51; 52; 53; 54; 55; 56; 57]) = 0xCBF43926.
Proof. vm_compute. reflexivity. Qed.

(** ** Little-endian values *)

Fixpoint le_value (bs : list byte) : Z :=
  match bs with [] => 0 | b :: bs => b2z b + 256 * le_value bs end.

Definition le_bytes (n : nat) (z : Z) : list byte := map (le_byte z) (seq 0 n).

Lemma b2z_le_byte z i : b2z (le_byte z i) = (z / 2 ^ (8 * Z.of_nat i)) mod 256.
Proof.
  unfold le_byte. rewrite b2z_z2b, Z.shiftr_div_pow2 by lia.
  change 255 with (Z.ones 8). rewrite Z.land_ones by lia. change (2 ^ 8) with 256.
  rewrite Z.mod_mod by lia. do 2 f_equal. f_equal. lia.
Qed.

Lemma le_byte_succ z i : le_byte z (S i) = le_byte (z / 256) i.
Proof.
  apply b2z_inj. rewrite !b2z_le_byte. f_equal.
  change 256 with (2 ^ 8) at 1. rewrite Z.div_div by (try apply Z.pow_nonzero; try apply Z.pow_pos_nonneg; lia).
  f_equal. rewrite <- Z.pow_add_r by lia. f_equal. lia.
Qed.

Lemma le_bytes_S n z : le_bytes (S n) z = le_byte z 0 :: le_bytes n (z / 256).
Proof.
  unfold le_bytes. simpl. f_equal. rewrite <- seq_shift, map_map. apply map_ext.
  intros i. apply le_byte_succ.
Qed.

Lemma le_value_bytes n : forall z, in_width (8 * Z.of_nat n) z -> le_value (le_bytes n z) = z.
Proof.
  induction n as [|n IH]; intros z Hz.
  { unfold in_width in Hz. simpl in *. lia. }
  rewrite le_bytes_S. simpl le_value. rewrite IH.
  - rewrite b2z_le_byte. change (2 ^ (8 * Z.of_nat 0)) with 1. rewrite Z.div_1_r.
    pose proof (Z.div_mod z 256). lia.
  - unfold in_width in *. replace (8 * Z.of_nat (S n)) with (8 + 8 * Z.of_nat n) in Hz by lia.
    rewrite Z.pow_add_r in Hz by lia. split; [apply Z.div_pos; lia|].
    apply Z.div_lt_upper_bound; lia.
Qed.

Lemma le_value_width bs : in_width (8 * Z.of_nat (length bs)) (le_value bs).
Proof.
  induction bs as [|b bs IH]; [by vm_compute|]. unfold in_width in *. simpl length. simpl le_value.
  replace (8 * Z.of_nat (S (length bs))) with (8 + 8 * Z.of_nat (length bs)) by lia.
  rewrite Z.pow_add_r by lia. pose proof (b2z_width b) as [? ?]. change (2 ^ 8) with 256 in *. lia.
Qed.

Lemma le_value_inj bs1 : forall bs2,
  length bs1 = length bs2 -> le_value bs1 = le_value bs2 -> bs1 = bs2.
Proof.
  induction bs1 as [|b1 bs1 IH]; intros [|b2 bs2] Hl; try done. simpl. intros E.
  pose proof (b2z_width b1) as [? ?]. pose proof (b2z_width b2) as [? ?].
  change (2 ^ 8) with 256 in *. f_equal; [apply b2z_inj; lia|]. apply IH; [by injection Hl|lia].
Qed.

Lemma le_value_snoc bs b :
  le_value (bs ++ [b]) = le_value bs + 2 ^ (8 * Z.of_nat (length bs)) * b2z b.
Proof.
  induction bs as [|c bs IH]; simpl le_value; [change (2 ^ (8 * Z.of_nat (length []))) with 1; lia|].
  rewrite IH. simpl length.
  replace (8 * Z.of_nat (S (length bs))) with (8 + 8 * Z.of_nat (length bs)) by lia.
  rewrite Z.pow_add_r by lia. change (2 ^ 8) with 256. lia.
Qed.

(** Appending a byte above the bits in use is an addition. *)
Lemma lor_shiftl_add k a b : 0 <= k -> in_width k a -> Z.lor a (Z.shiftl b k) = a + b * 2 ^ k.
Proof.
  intros Hk Ha. rewrite <- Z.shiftl_mul_pow2 by done. symmetry. apply Z.add_nocarry_lor.
  apply Z.bits_inj'. intros i Hi. rewrite Z.land_spec, Z.testbit_0_l, Z.shiftl_spec by done.
  destruct (decide (i < k)).
  - rewrite (Z.testbit_neg_r b) by lia. apply andb_false_r.
  - by rewrite (testbit_out_of_width k a) by (done || lia).
Qed.

Lemma slice_snoc (bytes : list byte) off n :
  (off + n < length bytes)%nat ->
  slice off (S n) bytes = slice off n bytes ++ [default Byte.x00 (bytes !! (off + n)%nat)].
Proof.
  intros H. unfold slice. destruct (lookup_lt_is_Some_2 bytes (off + n) H) as [b Hb].
  rewrite Hb. simpl. apply take_S_r. by rewrite lookup_drop.
Qed.

Lemma read_le_value w n (bytes : list byte) off :
  8 * Z.of_nat n <= w -> (off + n <= length bytes)%nat ->
  read_le w n bytes off = le_value (slice off n bytes).
Proof.
  unfold read_le. induction n as [|n IH]; intros Hw Hlen; [done|].
  rewrite seq_S, foldl_app, IH by lia. simpl foldl.
  rewrite slice_snoc, le_value_snoc, length_slice by lia.
  unfold byte_at. set (b := default _ _). pose proof (b2z_width b) as [Hb0 Hb1].
  replace (Z.of_nat n * 8) with (8 * Z.of_nat n) by lia.
  rewrite wrap_id.
  - rewrite lor_shiftl_add; [lia|lia|].
    pose proof (le_value_width (slice off n bytes)) as H. by rewrite length_slice in H by lia.
  - rewrite Z.shiftl_mul_pow2 by lia. change (2 ^ 8) with 256 in *.
    assert (2 ^ (8 + 8 * Z.of_nat n) <= 2 ^ w) by (apply Z.pow_le_mono_r; lia).
    rewrite Z.pow_add_r in * by lia. assert (0 < 2 ^ (8 * Z.of_nat n)) by (apply Z.pow_pos_nonneg; lia).
    split; [nia|]. change (2 ^ 8) with 256 in *. nia.
Qed.

Lemma read_u16_le_is_read_le bytes off : read_u16_le bytes off = read_le 16 2 bytes off.
Proof.
  unfold read_u16_le, read_le. simpl. rewrite Z.lor_0_l, Nat.add_0_r. f_equal.
  symmetry. rewrite wrap_id; [apply Z.shiftl_0_r|].
  unfold byte_at. pose proof (b2z_width (default Byte.x00 (bytes !! off))) as [? ?].
  rewrite Z.shiftl_0_r. split; [done|]. lia.
Qed.

(** ** Layout and round trip of headers *)

(** The wire layout of wal-format.md: each field little-endian at its offset,
    bytes 12 to 15 zero. *)
Definition header_layout (h : WalRecordHeader) : list byte :=
  le_bytes 4 (magic h) ++ le_bytes 2 (version h) ++ le_bytes 2 (header_size h) ++
  le_bytes 4 (payload_size h) ++ replicate 4 Byte.x00 ++ le_bytes 8 (sequence h) ++
  le_bytes 8 (timestamp_ns h) ++ le_bytes 4 (checksum h) ++ le_bytes 4 (flags h).

Lemma serialize_header_layout h : serialize_header h = header_layout h.
Proof. reflexivity. Qed.

Lemma length_serialize_header h : length (serialize_header h) = 40%nat.
Proof. reflexivity. Qed.

Lemma deserialize_fields bytes :
  (40 <= length bytes)%nat ->
  deserialize_header bytes = Value (mkHeader
    (le_value (slice 0 4 bytes)) (le_value (slice 4 2 bytes)) (le_value (slice 6 2 bytes))
    (le_value (slice 8 4 bytes)) (le_value (slice 16 8 bytes)) (le_value (slice 24 8 bytes))
    (le_value (slice 32 4 bytes)) (le_value (slice 36 4 bytes))).
Proof.
  intros H. unfold deserialize_header, span_size, wal_record_header_size.
  destruct (Z.ltb_spec (Z.of_nat (length bytes)) 40); [lia|].
  unfold read_u32_le, read_u64_le. rewrite !read_u16_le_is_read_le, !read_le_value by lia. done.
Qed.

Lemma deserialize_serialize h suffix :
  header_widths h -> deserialize_header (serialize_header h ++ suffix) = Value h.
Proof.
  intros (?&?&?&?&?&?&?&?).
  rewrite deserialize_fields by (rewrite length_app, length_serialize_header; lia).
  assert (S : forall off n, (off + n <= 40)%nat ->
    slice off n (serialize_header h ++ suffix) = slice off n (serialize_header h)).
  { intros off n Hn. unfold slice. rewrite drop_app_le by (rewrite length_serialize_header; lia).
    rewrite take_app_le; [done|]. rewrite length_drop, length_serialize_header. lia. }
  rewrite !S by lia. change (slice 0 4 _) with (le_bytes 4 (magic h)).
  change (slice 4 2 _) with (le_bytes 2 (version h)).
  change (slice 6 2 _) with (le_bytes 2 (header_size h)).
  change (slice 8 4 _) with (le_bytes 4 (payload_size h)).
  change (slice 16 8 _) with (le_bytes 8 (sequence h)).
  change (slice 24 8 _) with (le_bytes 8 (timestamp_ns h)).
  change (slice 32 4 _) with (le_bytes 4 (checksum h)).
  change (slice 36 4 _) with (le_bytes 4 (flags h)).
  rewrite !le_value_bytes by done. by destruct h.
Qed.

(** Whatever 40 bytes hold, the fields read back have their widths. *)
Lemma deserialize_widths bytes h :
  deserialize_header bytes = Value h -> header_widths h.
Proof.
  destruct (decide (40 <= length bytes)%nat) as [Hl|Hl].
  - rewrite deserialize_fields by done. intros [= <-].
    assert (W : forall off n, (off + n <= length bytes)%nat ->
              in_width (8 * Z.of_nat n) (le_value (slice off n bytes))).
    { intros off n Hn. pose proof (le_value_width (slice off n bytes)) as H.
      by rewrite length_slice in H by done. }
    unfold header_widths; simpl. split_and!;
      [apply (W 0 4)%nat|apply (W 4 2)%nat|apply (W 6 2)%nat|apply (W 8 4)%nat
      |apply (W 16 8)%nat|apply (W 24 8)%nat|apply (W 32 4)%nat|apply (W 36 4)%nat]; lia.
  - unfold deserialize_header, span_size, wal_record_header_size.
    by destruct (Z.ltb_spec (Z.of_nat (length bytes)) 40); [|lia].
Qed.

(** ** CRC-32 *)

Lemma crc_bit_alt c :
  crc_bit c = Z.lxor (Z.shiftr c 1) (if Z.odd c then crc_polynomial else 0).
Proof.
  unfold crc_bit. f_equal. change 1 with (Z.ones 1) at 1.
  rewrite Z.land_ones, Z.pow_1_r, Zmod_odd by lia. by destruct (Z.odd c).
Qed.

Lemma crc_bit_width c : in_width 32 c -> in_width 32 (crc_bit c).
Proof.
  intros. rewrite crc_bit_alt. apply lxor_width; [lia|by apply shiftr_width|].
  by destruct (Z.odd c); vm_compute.
Qed.

(** The polynomial has its top bit set and the shift clears it, so the top bit of
    the result is the bit shifted out: a step can be undone. *)
Lemma crc_bit_inj a b : in_width 32 a -> in_width 32 b -> crc_bit a = crc_bit b -> a = b.
Proof.
  intros Ha Hb. rewrite !crc_bit_alt. intros E.
  assert (T : forall c, in_width 32 c ->
    Z.testbit (Z.lxor (Z.shiftr c 1) (if Z.odd c then crc_polynomial else 0)) 31 = Z.odd c).
  { intros c Hc. rewrite Z.lxor_spec, Z.shiftr_spec by lia.
    rewrite (testbit_out_of_width 32 c) by (done || lia). by destruct (Z.odd c). }
  assert (O : Z.odd a = Z.odd b) by (by rewrite <- (T a Ha), <- (T b Hb), E).
  rewrite O in E. apply Z.bits_inj'. intros i Hi. destruct (decide (i = 0)) as [->|Hne].
  - by rewrite !Z.bit0_odd.
  - assert (S : Z.shiftr a 1 = Z.shiftr b 1).
    { apply (f_equal (Z.lxor (if Z.odd b then crc_polynomial else 0))) in E.
      by rewrite !(Z.lxor_comm (if Z.odd b then _ else _)), !Z.lxor_assoc, Z.lxor_nilpotent,
        !Z.lxor_0_r in E. }
    apply (f_equal (fun z => Z.testbit z (i - 1))) in S.
    rewrite !Z.shiftr_spec in S by lia. by replace (i - 1 + 1) with i in S by lia.
Qed.

Lemma crc_bits_width n c : in_width 32 c -> in_width 32 (Nat.iter n crc_bit c).
Proof. intros. induction n; simpl; [done|by apply crc_bit_width]. Qed.

Lemma crc_bits_inj n a b :
  in_width 32 a -> in_width 32 b -> Nat.iter n crc_bit a = Nat.iter n crc_bit b -> a = b.
Proof.
  intros Ha Hb. induction n as [|n IH]; simpl; [done|].
  intros E%crc_bit_inj; [auto|by apply crc_bits_width..].
Qed.

Lemma crc_bit_lxor a b : crc_bit (Z.lxor a b) = Z.lxor (crc_bit a) (crc_bit b).
Proof.
  rewrite !crc_bit_alt, Z.shiftr_lxor.
  assert (O : Z.odd (Z.lxor a b) = xorb (Z.odd a) (Z.odd b)).
  { by rewrite <- !Z.bit0_odd, Z.lxor_spec. }
  rewrite O. zbits. destruct (Z.odd a), (Z.odd b); simpl; rewrite ?Z.testbit_0_l;
    destruct (Z.testbit _ _), (Z.testbit _ _); try done;
    destruct (Z.testbit crc_polynomial i); done.
Qed.

Lemma crc_bits_lxor n a b :
  Nat.iter n crc_bit (Z.lxor a b) = Z.lxor (Nat.iter n crc_bit a) (Nat.iter n crc_bit b).
Proof. induction n as [|n IH]; simpl; [done|]. by rewrite IH, crc_bit_lxor. Qed.

(** Zero bits are shifted out unchanged. *)
Lemma crc_bits_shiftl n b : Nat.iter n crc_bit (Z.shiftl b (Z.of_nat n)) = b.
Proof.
  induction n as [|n IH]; [apply Z.shiftl_0_r|].
  rewrite Nat.iter_succ_r, crc_bit_alt.
  replace (Z.odd (Z.shiftl b (Z.of_nat (S n)))) with false.
  - rewrite Z.lxor_0_r, Z.shiftr_shiftl_l by lia.
    replace (Z.of_nat (S n) - 1) with (Z.of_nat n) by lia. done.
  - rewrite <- Z.bit0_odd, Z.shiftl_spec by lia. by rewrite Z.testbit_neg_r by lia.
Qed.

Lemma add_shiftl_lxor b v : in_width 8 b -> b + 256 * v = Z.lxor b (Z.shiftl v 8).
Proof.
  intros Hb. rewrite Z.shiftl_mul_pow2, Z.mul_comm by lia. change (2 ^ 8) with 256.
  apply Z.add_nocarry_lxor. change 256 with (2 ^ 8). rewrite <- Z.shiftl_mul_pow2 by lia.
  apply Z.bits_inj'. intros i Hi. rewrite Z.land_spec, Z.testbit_0_l, Z.shiftl_spec by done.
  destruct (decide (i < 8)).
  - rewrite (Z.testbit_neg_r v) by lia. apply andb_false_r.
  - by rewrite (testbit_out_of_width 8 b) by (done || lia).
Qed.

(** The byte loop is one shift register run over the whole message, read as a
    little-endian number. *)
Lemma crc_update_register bs : forall s,
  crc_update s bs = Nat.iter (8 * length bs) crc_bit (Z.lxor s (le_value bs)).
Proof.
  induction bs as [|b bs IH]; intros s; [by rewrite Z.lxor_0_r|].
  unfold crc_update in *. simpl foldl. rewrite IH. simpl le_value.
  rewrite add_shiftl_lxor by apply b2z_width.
  replace (8 * length (b :: bs))%nat with (8 * length bs + 8)%nat by (simpl; lia).
  rewrite Nat.iter_add. f_equal. rewrite <- Z.lxor_assoc, crc_bits_lxor.
  by rewrite (crc_bits_shiftl 8).
Qed.

Lemma crc_update_width bs s : in_width 32 s -> in_width 32 (crc_update s bs).
Proof.
  revert s. induction bs as [|b bs IH]; intros s Hs; [done|]. apply IH.
  apply crc_bits_width, lxor_width; [lia|done|].
  pose proof (b2z_width b) as [? ?]. split; lia.
Qed.

Lemma crc_update_inj_state bs s1 s2 :
  in_width 32 s1 -> in_width 32 s2 -> crc_update s1 bs = crc_update s2 bs -> s1 = s2.
Proof.
  revert s1 s2. induction bs as [|b bs IH]; intros s1 s2 H1 H2; [done|].
  assert (W : forall s, in_width 32 s -> in_width 32 (Z.lxor s (b2z b))).
  { intros s Hs. apply lxor_width; [lia|done|]. pose proof (b2z_width b) as [? ?]. split; lia. }
  intros E%IH; [|by apply crc_bits_width, W..].
  apply crc_bits_inj in E; [|by apply W..].
  apply (f_equal (fun z => Z.lxor z (b2z b))) in E.
  by rewrite !Z.lxor_assoc, Z.lxor_nilpotent, !Z.lxor_0_r in E.
Qed.

(** Up to four bytes, the register determines the message. *)
Lemma crc_update_inj_bytes s bs1 bs2 :
  in_width 32 s -> length bs1 = length bs2 -> (length bs1 <= 4)%nat ->
  crc_update s bs1 = crc_update s bs2 -> bs1 = bs2.
Proof.
  intros Hs Hl Hn. rewrite !crc_update_register, <- Hl.
  assert (W : forall bs, (length bs <= 4)%nat -> in_width 32 (Z.lxor s (le_value bs))).
  { intros bs Hb. apply lxor_width; [lia|done|].
    destruct (le_value_width bs) as [? ?]. split; [done|].
    eapply Z.lt_le_trans; [done|]. apply Z.pow_le_mono_r; lia. }
  intros E%crc_bits_inj; [|apply W; lia..].
  apply le_value_inj; [done|]. apply (f_equal (Z.lxor s)) in E.
  by rewrite <- !Z.lxor_assoc, Z.lxor_nilpotent, !Z.lxor_0_l in E.
Qed.

Lemma crc32_app_burst pre x y suf :
  length x = length y -> (length x <= 4)%nat ->
  crc32 (pre ++ x ++ suf) = crc32 (pre ++ y ++ suf) -> x = y.
Proof.
  intros Hl Hn. unfold crc32, crc_update. rewrite !foldl_app. intros E.
  apply (f_equal (fun z => Z.lxor z 0xFFFFFFFF)) in E.
  rewrite !Z.lxor_assoc, Z.lxor_nilpotent, !Z.lxor_0_r in E.
  assert (W : in_width 32 (crc_update 0xFFFFFFFF pre)) by (by apply crc_update_width).
  apply crc_update_inj_state in E; [|by apply crc_update_width..].
  by apply crc_update_inj_bytes in E.
Qed.

Lemma compute_record_checksum_crc32 h payload :
  compute_record_checksum h payload = crc32 (serialize_header (set_checksum 0 h) ++ payload).
Proof. unfold compute_record_checksum, crc32, crc_update. by rewrite foldl_app. Qed.

Lemma checksum_width h payload : in_width 32 (compute_record_checksum h payload).
Proof.
  rewrite compute_record_checksum_crc32. apply lxor_width; [lia| |by vm_compute].
  by apply crc_update_width.
Qed.

(** ** Properties *)

(** C16. Header round trip.  A header whose fields fit their widths is
    serialised to the documented 40-byte layout (little-endian fields, reserved
    bytes 12 to 15 zero) and deserialising those bytes, whatever follows them,
    gives the same header back. *)
Theorem wal_header_roundtrip (h : WalRecordHeader) (suffix : list byte) :
  header_widths h ->
  serialize_header h = header_layout h /\ length (serialize_header h) = 40%nat /\
  deserialize_header (serialize_header h ++ suffix) = Value h.
Proof.
  intros H. split_and!; [apply serialize_header_layout|apply length_serialize_header|].
  by apply deserialize_serialize.
Qed.

Definition sample_header : WalRecordHeader :=
  mkHeader wal_record_magic 1 40 3 0x0123456789ABCDEF 42 0xCAFEBABE 7.

Lemma wal_header_roundtrip_witness :
  header_widths sample_header /\
  deserialize_header (serialize_header sample_header ++ [Byte.xff]) = Value sample_header.
Proof.
  assert (H : header_widths sample_header) by (vm_compute; repeat split; discriminate || reflexivity).
  split; [exact H|]. exact (proj2 (proj2 (wal_header_roundtrip sample_header [Byte.xff] H))).
Defined.

(** C17. Burst detection.  The CRC of two messages of the same length that
    differ only inside a window of at most four consecutive bytes is always
    different, wherever the window lies. *)
Theorem crc32_detects_bursts (pre x y suf : list byte) :
  length x = length y -> (length x <= 4)%nat -> x <> y ->
  crc32 (pre ++ x ++ suf) <> crc32 (pre ++ y ++ suf).
Proof. intros Hl Hn Hne E. by apply Hne, (crc32_app_burst pre x y suf). Qed.

Lemma crc32_detects_bursts_witness :
  crc32 ([Byte.x01] ++ [Byte.x02; Byte.x03] ++ [Byte.x04]) <>
  crc32 ([Byte.x01] ++ [Byte.x02; Byte.x83] ++ [Byte.x04]).
Proof. apply crc32_detects_bursts; [reflexivity|simpl; lia|discriminate]. Defined.
