(* ===== verification/Posix.v ===== *)
(** * The operating system as a parameter

    The POSIX calls behind io/mmap_file.cpp and the monotonic clock are not part
    of the repository: they are the operations of the class [Posix], and the
    documented behaviour the code relies on is the class [PosixLaws], stated on an
    abstract view of the system (file contents, open descriptors, shared
    mappings).  [ToyOs] is a concrete in-memory system, with scripted failures,
    that satisfies the laws. *)

From stdpp Require Export gmap.
From S2P Require Import Prelude.

Inductive open_mode : Set :=
  | O_RDWR_CREAT_TRUNC  (** [O_RDWR | O_CREAT | O_TRUNC] *)
  | O_RDWR.

Class Posix (W : Type) := {
  sys_open : string -> open_mode -> W -> Z * W;      (** descriptor, or -1 *)
  sys_ftruncate : Z -> Z -> W -> Z * W;              (** 0, or -1 *)
  sys_fstat_size : Z -> W -> option Z * W;           (** [st_size], or failure *)
  sys_mmap : Z -> Z -> W -> option Z * W;            (** length, fd; [None] is [MAP_FAILED] *)
  sys_msync : Z -> Z -> W -> Z * W;                  (** address, length *)
  sys_munmap : Z -> Z -> W -> Z * W;
  sys_close : Z -> W -> Z * W;
  sys_clock_ns : W -> Z * W;
  mem_load : Z -> Z -> W -> list byte;               (** address, length *)
  mem_store : Z -> nat -> list byte -> W -> W }.     (** address, offset, bytes *)

(** What the laws talk about: the content of each file, the file of each open
    descriptor, the file and length of each shared mapping. *)
Record os_view : Type := mkOs {
  os_files : gmap string (list byte);
  os_fds : gmap Z string;
  os_maps : gmap Z (string * Z) }.

Definition set_file (p : string) (c : list byte) (o : os_view) : os_view :=
  mkOs (<[p := c]> (os_files o)) (os_fds o) (os_maps o).
Definition set_fds (f : gmap Z string) (o : os_view) : os_view :=
  mkOs (os_files o) f (os_maps o).
Definition set_maps (m : gmap Z (string * Z)) (o : os_view) : os_view :=
  mkOs (os_files o) (os_fds o) m.

Class PosixLaws (W : Type) `{Posix W} := {
  os : W -> os_view;
  (** open(2): a fresh descriptor, with [O_TRUNC] an empty file; or -1 and nothing happened. *)
  law_open p m w : let '(fd, w') := sys_open p m w in
    (fd = -1 /\ os w' = os w) \/
    (0 <= fd /\ os_fds (os w) !! fd = None /\
     match m with
     | O_RDWR_CREAT_TRUNC => os w' = set_fds (<[fd := p]> (os_fds (os w))) (set_file p [] (os w))
     | O_RDWR => is_Some (os_files (os w) !! p) /\
                 os w' = set_fds (<[fd := p]> (os_fds (os w))) (os w)
     end);
  (** ftruncate(2): cut, or extend with zero bytes. *)
  law_ftruncate fd n w : let '(r, w') := sys_ftruncate fd n w in
    (r = -1 /\ os w' = os w) \/
    (r = 0 /\ 0 <= n /\ forall p c, os_fds (os w) !! fd = Some p -> os_files (os w) !! p = Some c ->
       os w' = set_file p (resize (Z.to_nat n) Byte.x00 c) (os w));
  (** fstat(2): the file size, an [off_t]. *)
  law_fstat fd w : let '(r, w') := sys_fstat_size fd w in
    os w' = os w /\
    forall n p c, r = Some n -> os_fds (os w) !! fd = Some p -> os_files (os w) !! p = Some c ->
      n = Z.of_nat (length c) /\ n < 2 ^ 63;
  (** mmap(2) with [MAP_SHARED] at offset 0: a fresh, non-null address. *)
  law_mmap n fd w : let '(r, w') := sys_mmap n fd w in
    match r with
    | None => os w' = os w
    | Some a => a <> 0 /\ os_maps (os w) !! a = None /\ exists p, os_fds (os w) !! fd = Some p /\
        os w' = set_maps (<[a := (p, n)]> (os_maps (os w))) (os w)
    end;
  law_msync a n w : let '(r, w') := sys_msync a n w in (r = -1 \/ r = 0) /\ os w' = os w;
  law_munmap a n w : let '(r, w') := sys_munmap a n w in
    (r = -1 /\ os w' = os w) \/ (r = 0 /\ os w' = set_maps (delete a (os_maps (os w))) (os w));
  (** close(2) on Linux and macOS releases the descriptor whatever it returns. *)
  law_close fd w : let '(r, w') := sys_close fd w in
    (r = -1 \/ r = 0) /\ os w' = set_fds (delete fd (os_fds (os w))) (os w);
  law_clock w : let '(t, w') := sys_clock_ns w in in_width 64 t /\ os w' = os w;
  (** Loads and stores through a shared mapping act on the file. *)
  law_load a n w p len c :
    os_maps (os w) !! a = Some (p, len) -> os_files (os w) !! p = Some c ->
    0 <= n <= len -> n <= Z.of_nat (length c) -> mem_load a n w = take (Z.to_nat n) c;
  law_store a off bs w p len c :
    os_maps (os w) !! a = Some (p, len) -> os_files (os w) !! p = Some c ->
    Z.of_nat (off + length bs) <= len -> (off + length bs <= length c)%nat ->
    os (mem_store a off bs w) = set_file p (splice off bs c) (os w) }.

(** ** A concrete system *)

Module ToyOs.

(** [failures]: whether each upcoming call that can fail does so. *)
Record world : Type := mkWorld {
  view : os_view;
  next_fd : Z;
  next_addr : Z;
  clock : Z;
  failures : list bool }.

Definition boot (failures : list bool) : world := mkWorld (mkOs ∅ ∅ ∅) 3 4096 1 failures.

Definition set_view (o : os_view) (w : world) : world :=
  mkWorld o (next_fd w) (next_addr w) (clock w) (failures w).

(** Consumes one entry of the failure script. *)
Definition attempt (w : world) : bool * world :=
  match failures w with
  | [] => (false, w)
  | b :: bs => (b, mkWorld (view w) (next_fd w) (next_addr w) (clock w) bs)
  end.

(** The first number from [n] on that is not a key. *)
Definition fresh_key {A} (n : Z) (m : gmap Z A) : Z :=
  Z.max n (1 + map_fold (fun k _ acc => Z.max k acc) 0 m).

Definition open (p : string) (m : open_mode) (w : world) : Z * world :=
  let '(fail, w) := attempt w in
  let o := view w in
  let fd := fresh_key (next_fd w) (os_fds o) in
  if fail then (-1, w)
  else match m, os_files o !! p with
  | O_RDWR, None => (-1, w)
  | O_RDWR, Some _ => (fd, set_view (set_fds (<[fd := p]> (os_fds o)) o) w)
  | O_RDWR_CREAT_TRUNC, _ =>
      (fd, set_view (set_fds (<[fd := p]> (os_fds o)) (set_file p [] o)) w)
  end.

Definition ftruncate (fd n : Z) (w : world) : Z * world :=
  let '(fail, w) := attempt w in
  let o := view w in
  if fail || (n <? 0) then (-1, w)
  else match os_fds o !! fd with
  | None => (-1, w)
  | Some p => match os_files o !! p with
    | None => (-1, w)
    | Some c => (0, set_view (set_file p (resize (Z.to_nat n) Byte.x00 c) o) w)
    end
  end.

Definition fstat_size (fd : Z) (w : world) : option Z * world :=
  let '(fail, w) := attempt w in
  if fail then (None, w)
  else (p ← os_fds (view w) !! fd; c ← os_files (view w) !! p;
        if Z.of_nat (length c) <? 2 ^ 63 then Some (Z.of_nat (length c)) else None, w).

Definition mmap (n fd : Z) (w : world) : option Z * world :=
  let '(fail, w) := attempt w in
  let o := view w in
  let a := fresh_key (next_addr w) (os_maps o) in
  if fail then (None, w)
  else match os_fds o !! fd with
  | None => (None, w)
  | Some p => (Some a, set_view (set_maps (<[a := (p, n)]> (os_maps o)) o) w)
  end.

Definition msync (a n : Z) (w : world) : Z * world :=
  let '(fail, w) := attempt w in (if fail then -1 else 0, w).

Definition munmap (a n : Z) (w : world) : Z * world :=
  let '(fail, w) := attempt w in
  if fail then (-1, w)
  else (0, set_view (set_maps (delete a (os_maps (view w))) (view w)) w).

Definition close (fd : Z) (w : world) : Z * world :=
  let '(fail, w) := attempt w in
  (if fail then -1 else 0, set_view (set_fds (delete fd (os_fds (view w))) (view w)) w).

Definition clock_ns (w : world) : Z * world :=
  (wrap 64 (clock w), mkWorld (view w) (next_fd w) (next_addr w) (clock w + 1) (failures w)).

Definition load (a n : Z) (w : world) : list byte :=
  match os_maps (view w) !! a with
  | Some (p, _) => take (Z.to_nat n) (default [] (os_files (view w) !! p))
  | None => []
  end.

Definition store (a : Z) (off : nat) (bs : list byte) (w : world) : world :=
  match os_maps (view w) !! a with
  | Some (p, _) => match os_files (view w) !! p with
    | Some c => set_view (set_file p (splice off bs c) (view w)) w
    | None => w
    end
  | None => w
  end.

#[global] Instance posix : Posix world := {|
  sys_open := open; sys_ftruncate := ftruncate; sys_fstat_size := fstat_size;
  sys_mmap := mmap; sys_msync := msync; sys_munmap := munmap; sys_close := close;
  sys_clock_ns := clock_ns; mem_load := load; mem_store := store |}.

Lemma attempt_view w : view (attempt w).2 = view w.
Proof. unfold attempt. by destruct (failures w). Qed.

Lemma fresh_key_spec {A} n (m : gmap Z A) : m !! fresh_key n m = None /\ n <= fresh_key n m /\ 1 <= fresh_key n m.
Proof.
  assert (H : 0 <= map_fold (fun k (_ : A) acc => Z.max k acc) 0 m /\
    forall k, is_Some (m !! k) -> k <= map_fold (fun k (_ : A) acc => Z.max k acc) 0 m).
  { apply (map_fold_weak_ind (fun acc m => 0 <= acc /\ forall k, is_Some (m !! k) -> k <= acc)).
    - split; [lia|]. intros k. rewrite lookup_empty. by intros [? ?].
    - intros k x m' acc _ [IH0 IH]. split; [lia|]. intros k'. rewrite lookup_insert.
      case_decide; [lia|]. intros Hk. specialize (IH k' Hk). lia. }
  unfold fresh_key. destruct H as [H0 H]. split; [|lia].
  apply eq_None_not_Some. intros Hk%H. lia.
Qed.

(** Splits on the next entry of the failure script. *)
Ltac toy_attempt w :=
  pose proof (attempt_view w) as V; destruct (attempt w) as [fail w0]; simpl in V; rewrite <- V.

Lemma open_law p m w : let '(fd, w') := open p m w in
  (fd = -1 /\ view w' = view w) \/
  (0 <= fd /\ os_fds (view w) !! fd = None /\
   match m with
   | O_RDWR_CREAT_TRUNC => view w' = set_fds (<[fd := p]> (os_fds (view w))) (set_file p [] (view w))
   | O_RDWR => is_Some (os_files (view w) !! p) /\
               view w' = set_fds (<[fd := p]> (os_fds (view w))) (view w)
   end).
Proof.
  unfold open. toy_attempt w.
  destruct (fresh_key_spec (next_fd w0) (os_fds (view w0))) as (F & _ & ?).
  destruct fail; [by left|]. destruct m; [right; split_and!; (done || lia)|].
  destruct (os_files (view w0) !! p) eqn:E; [|by left].
  right. split_and!; (done || lia).
Qed.

Lemma ftruncate_law fd n w : let '(r, w') := ftruncate fd n w in
  (r = -1 /\ view w' = view w) \/
  (r = 0 /\ 0 <= n /\ forall p c, os_fds (view w) !! fd = Some p -> os_files (view w) !! p = Some c ->
     view w' = set_file p (resize (Z.to_nat n) Byte.x00 c) (view w)).
Proof.
  unfold ftruncate. toy_attempt w.
  destruct fail; simpl; [by left|]. destruct (Z.ltb_spec n 0); [by left|].
  destruct (os_fds (view w0) !! fd) as [p|] eqn:E; [|by left].
  destruct (os_files (view w0) !! p) as [c|] eqn:E'; [|by left].
  right. split_and!; [done|done|]. intros p' c' ? ?. by simplify_eq.
Qed.

Lemma fstat_law fd w : let '(r, w') := fstat_size fd w in
  view w' = view w /\
  forall n p c, r = Some n -> os_fds (view w) !! fd = Some p -> os_files (view w) !! p = Some c ->
    n = Z.of_nat (length c) /\ n < 2 ^ 63.
Proof.
  unfold fstat_size. toy_attempt w. destruct fail; simpl; [done|]. split; [done|].
  intros n p c Hn Hp Hc. rewrite Hp in Hn. simpl in Hn. rewrite Hc in Hn. simpl in Hn.
  destruct (Z.ltb_spec (Z.of_nat (length c)) (2 ^ 63)); by simplify_eq.
Qed.

Lemma mmap_law n fd w : let '(r, w') := mmap n fd w in
  match r with
  | None => view w' = view w
  | Some a => a <> 0 /\ os_maps (view w) !! a = None /\ exists p, os_fds (view w) !! fd = Some p /\
      view w' = set_maps (<[a := (p, n)]> (os_maps (view w))) (view w)
  end.
Proof.
  unfold mmap. toy_attempt w.
  destruct (fresh_key_spec (next_addr w0) (os_maps (view w0))) as (F & _ & ?).
  destruct fail; [done|]. destruct (os_fds (view w0) !! fd) as [p|] eqn:E; [|done].
  split_and!; [lia|done|]. by exists p.
Qed.

#[global, refine] Instance posix_laws : PosixLaws world := {| os := view |}.
Proof.
  - exact open_law.
  - exact ftruncate_law.
  - exact fstat_law.
  - exact mmap_law.
  - intros a n w. simpl. unfold msync. toy_attempt w. destruct fail; auto.
  - intros a n w. simpl. unfold munmap. toy_attempt w. destruct fail; auto.
  - intros fd w. simpl. unfold close. toy_attempt w. destruct fail; auto.
  - intros w. simpl. split; [by apply wrap_width|done].
  - intros a n w p len c Hm Hf _ _. simpl. unfold load. by rewrite Hm, Hf.
  - intros a off bs w p len c Hm Hf _ _. simpl. unfold store. by rewrite Hm, Hf.
Defined.
End ToyOs.
