(* ===== verification/MmapFile.v ===== *)
(** * Memory-mapped files

    The POSIX branch of io/mmap_file.cpp.  A null pointer is address 0.  Every
    operation threads the state of the operating system. *)

From S2P Require Import Prelude Core Posix.
#[local] Open Scope Z_scope.

(** [class MmapFile]; [flush_on_destroy] is the only field of [MmapFileOptions]. *)
Record MmapFile : Set := mkMmapFile {
  fd_ : Z;
  data_ : Z;
  size_ : Z;
  path_ : string;
  flush_on_destroy : bool }.

(** The default member initialisers. *)
Definition MmapFile_default : MmapFile := mkMmapFile (-1) 0 0 "" true.

(** The details of the errors. *)
Definition invalid_path_detail : string := "mmap file path must not be empty".
Definition invalid_size_detail : string := "mmap file size must be greater than zero".
Definition invalid_file_detail : string := "mmap file is not open".
Definition open_failed_detail : string := "failed to open mmap file".
Definition fstat_failed_detail : string := "failed to stat mmap file".
Definition truncate_failed_detail : string := "failed to resize mmap file".
Definition map_failed_detail : string := "failed to map mmap file".
Definition flush_failed_detail : string := "failed to flush mmap file".
Definition unmap_failed_detail : string := "failed to unmap mmap file".
Definition close_failed_detail : string := "failed to close mmap file".

(** The private constructor. *)
Definition MmapFile_make (fd data size : Z) (path : string) (options : bool) : MmapFile :=
  mkMmapFile fd data size path options.

Definition invalid_path_status : Status :=
  mkStatus StatusCode.invalid_argument invalid_path_detail.
Definition invalid_size_status : Status :=
  mkStatus StatusCode.invalid_argument invalid_size_detail.
Definition io_error (detail : string) : Status := mkStatus StatusCode.io_error detail.

Definition mmap_valid (f : MmapFile) : bool :=
  negb (fd_ f =? -1) && negb (data_ f =? 0) && negb (size_ f =? 0).

(** [reset()]: every member back to its default. *)
Definition mmap_reset (f : MmapFile) : MmapFile := mkMmapFile (-1) 0 0 "" true.

(** [static_cast<off_t>]: 64-bit two's complement. *)
Definition to_off_t (n : Z) : Z := if n <? 2 ^ 63 then n else n - 2 ^ 64.

Section Mmap.
Context {W : Type} `{Posix W}.
Implicit Types (f : MmapFile) (w : W).

Definition mmap_create (path : string) (size : Z) (options : bool) w : Expected MmapFile * W :=
  if path_empty path then (Expected_of_status invalid_path_status, w)
  else if size =? 0 then (Expected_of_status invalid_size_status, w)
  else
    let '(fd, w) := sys_open path O_RDWR_CREAT_TRUNC w in
    if fd =? -1 then (Expected_of_status (io_error open_failed_detail), w)
    else
      let '(r, w) := sys_ftruncate fd (to_off_t size) w in
      if r =? -1 then
        let '(_, w) := sys_close fd w in
        (Expected_of_status (io_error truncate_failed_detail), w)
      else
        let '(mapping, w) := sys_mmap size fd w in
        match mapping with
        | None =>
            let '(_, w) := sys_close fd w in
            (Expected_of_status (io_error map_failed_detail), w)
        | Some a => (Value (MmapFile_make fd a size path options), w)
        end.

Definition mmap_open_existing (path : string) (options : bool) w : Expected MmapFile * W :=
  if path_empty path then (Expected_of_status invalid_path_status, w)
  else
    let '(fd, w) := sys_open path O_RDWR w in
    if fd =? -1 then (Expected_of_status (io_error open_failed_detail), w)
    else
      let '(st_size, w) := sys_fstat_size fd w in
      match st_size with
      | None =>
          let '(_, w) := sys_close fd w in
          (Expected_of_status (io_error fstat_failed_detail), w)
      | Some st_size =>
          if st_size <=? 0 then
            let '(_, w) := sys_close fd w in (Expected_of_status invalid_size_status, w)
          else
            let size := wrap 64 st_size in
            let '(mapping, w) := sys_mmap size fd w in
            match mapping with
            | None =>
                let '(_, w) := sys_close fd w in
                (Expected_of_status (io_error map_failed_detail), w)
            | Some a => (Value (MmapFile_make fd a size path options), w)
            end
      end.

(** [size()], [data()] and [path()]. *)
Definition mmap_size f : Z := size_ f.
Definition mmap_data f : Z := if mmap_valid f then data_ f else 0.
Definition mmap_path f : string := path_ f.

(** [bytes()]: the mapped span. *)
Definition mmap_bytes f w : list byte := if mmap_valid f then mem_load (data_ f) (size_ f) w else [].

Definition mmap_flush f w : Status * W :=
  if negb (mmap_valid f)
  then (mkStatus StatusCode.invalid_argument invalid_file_detail, w)
  else
    let '(r, w) := sys_msync (data_ f) (size_ f) w in
    if r =? -1 then (io_error flush_failed_detail, w) else (Status_ok, w).

Definition mmap_resize (new_size : Z) f w : Status * MmapFile * W :=
  if new_size =? 0 then (invalid_size_status, f, w)
  else if negb (mmap_valid f)
  then (mkStatus StatusCode.invalid_argument invalid_file_detail, f, w)
  else
    let '(flush_status, w) := mmap_flush f w in
    if negb (is_ok flush_status) then (flush_status, f, w)
    else
      let old_data := data_ f in
      let old_size := size_ f in
      let f := mkMmapFile (fd_ f) 0 0 (path_ f) (flush_on_destroy f) in
      let '(r, w) := sys_munmap old_data old_size w in
      if r =? -1 then (io_error unmap_failed_detail, f, w)
      else
        let '(r, w) := sys_ftruncate (fd_ f) (to_off_t new_size) w in
        if r =? -1 then (io_error truncate_failed_detail, f, w)
        else
          let '(mapping, w) := sys_mmap new_size (fd_ f) w in
          match mapping with
          | None => (io_error map_failed_detail, f, w)
          | Some a =>
              (Status_ok, mkMmapFile (fd_ f) a new_size (path_ f) (flush_on_destroy f), w)
          end.

(** [close()]; the destructor calls it and drops the status. *)
Definition mmap_close f w : Status * MmapFile * W :=
  let first_error := Status_ok in
  let '(first_error, w) :=
    if mmap_valid f && flush_on_destroy f then
      let '(flush_status, w) := mmap_flush f w in
      (if negb (is_ok flush_status) then flush_status else first_error, w)
    else (first_error, w) in
  let '(first_error, w) :=
    if negb (data_ f =? 0) && negb (size_ f =? 0) then
      let '(r, w) := sys_munmap (data_ f) (size_ f) w in
      (if (r =? -1) && is_ok first_error then io_error unmap_failed_detail
       else first_error, w)
    else (first_error, w) in
  let '(first_error, w) :=
    if negb (fd_ f =? -1) then
      let '(r, w) := sys_close (fd_ f) w in
      (if (r =? -1) && is_ok first_error then io_error close_failed_detail
       else first_error, w)
    else (first_error, w) in
  (first_error, mmap_reset f, w).

Definition mmap_destroy f w : W := let '(_, _, w) := mmap_close f w in w.

(** Move construction: the new object and what is left of [other], whose path is
    in a moved-from state that no later operation reads. *)
Definition mmap_move other : MmapFile * MmapFile :=
  (mkMmapFile (fd_ other) (data_ other) (size_ other) (path_ other) (flush_on_destroy other),
   mkMmapFile (-1) 0 0 "" (flush_on_destroy other)).

(** Move assignment from a different object: [*this] is closed first. *)
Definition mmap_move_assign this other w : MmapFile * MmapFile * W :=
  let '(_, _, w) := mmap_close this w in
  let '(this, other) := mmap_move other in (this, other, w).
End Mmap.

(** ** Ownership *)

(** [owns f w c]: [f] holds its own descriptor and a mapping of the whole of its
    file, whose content is [c]. *)
Record owns {W} `{PosixLaws W} (f : MmapFile) (w : W) (c : list byte) : Prop := {
  own_fd_nonneg : 0 <= fd_ f;
  own_fd : os_fds (os w) !! fd_ f = Some (path_ f);
  own_data : data_ f <> 0;
  own_map : os_maps (os w) !! data_ f = Some (path_ f, size_ f);
  own_file : os_files (os w) !! path_ f = Some c;
  own_size : size_ f = Z.of_nat (length c);
  own_size_pos : 0 < size_ f;
  own_size_width : in_width 64 (size_ f) }.

Section MmapProofs.
Context {W : Type} `{PosixLaws W}.
Implicit Types (f : MmapFile) (w : W) (c : list byte).

(** Ownership only depends on the abstract view. *)
Lemma owns_view f w w' c : os w' = os w -> owns f w c -> owns f w' c.
Proof. intros E []. split; rewrite ?E; done. Qed.

Lemma owns_valid f w c : owns f w c -> mmap_valid f = true.
Proof.
  intros []. unfold mmap_valid. rewrite !andb_true_iff, !negb_true_iff, !Z.eqb_neq. lia.
Qed.

Lemma owns_bytes f w c : owns f w c -> mmap_bytes f w = c.
Proof.
  intros O. unfold mmap_bytes. rewrite (owns_valid f w c O). destruct O as [? ? ? ? ? Hs ? ?].
  erewrite law_load; [|done|done|lia|lia]. rewrite Hs, Nat2Z.id. apply firstn_all.
Qed.

Lemma mmap_flush_view f w : os (mmap_flush f w).2 = os w.
Proof.
  unfold mmap_flush. destruct (negb _); [done|].
  pose proof (law_msync (data_ f) (size_ f) w) as L. destruct (sys_msync _ _ _) as [r w'].
  destruct L as [_ L]. by destruct (r =? -1).
Qed.

(** A descriptor opened and closed again leaves the descriptor table as it was. *)
Lemma delete_fresh (m : gmap Z string) fd p : m !! fd = None -> delete fd (<[fd := p]> m) = m.
Proof. intros E. rewrite delete_insert_eq. by apply delete_id. Qed.

Lemma close_fds fd w : os (sys_close fd w).2 = set_fds (delete fd (os_fds (os w))) (os w).
Proof. pose proof (law_close fd w) as L. destruct (sys_close fd w). by destruct L. Qed.

Lemma to_off_t_id n : in_width 64 n -> 0 <= to_off_t n -> to_off_t n = n.
Proof.
  unfold to_off_t. intros [? ?] Hn. destruct (Z.ltb_spec n (2 ^ 63)); [done|].
  change (2 ^ 64) with (2 * 2 ^ 63) in *. lia.
Qed.

(** The outcome of opening a file and mapping it: on failure nothing is held. *)
Definition no_leak w w' : Prop :=
  os_fds (os w') = os_fds (os w) /\ os_maps (os w') = os_maps (os w).

Lemma no_leak_refl w w' : os w' = os w -> no_leak w w'.
Proof. unfold no_leak. by intros ->. Qed.

(** The view after a successful creation. *)
Definition opened_view (f : MmapFile) (c : list byte) w : os_view :=
  mkOs (<[path_ f := c]> (os_files (os w))) (<[fd_ f := path_ f]> (os_fds (os w)))
       (<[data_ f := (path_ f, size_ f)]> (os_maps (os w))).

Lemma mmap_create_spec path size opt w :
  in_width 64 size ->
  let '(e, w') := mmap_create path size opt w in
  match e with
  | Value f => owns f w' (replicate (Z.to_nat size) Byte.x00) /\
      path_ f = path /\ size_ f = size /\ flush_on_destroy f = opt /\
      os_fds (os w) !! fd_ f = None /\ os_maps (os w) !! data_ f = None /\
      os w' = opened_view f (replicate (Z.to_nat size) Byte.x00) w
  | Error s => is_ok s = false /\ no_leak w w'
  end.
Proof.
  intros Hw. unfold mmap_create. destruct (path_empty path); [by split|].
  destruct (Z.eqb_spec size 0); [by split|].
  pose proof (law_open path O_RDWR_CREAT_TRUNC w) as L1.
  destruct (sys_open _ _ _) as [fd w1]. destruct L1 as [[-> E1]|(Hfd & F1 & E1)].
  { split; [done|]. by apply no_leak_refl. }
  destruct (Z.eqb_spec fd (-1)); [lia|].
  assert (Hcl : forall w2 c, os w2 = set_file path c (os w1) \/ os w2 = os w1 ->
    no_leak w (sys_close fd w2).2).
  { intros w2 c Hw2. unfold no_leak. rewrite close_fds. destruct Hw2 as [->| ->]; rewrite E1;
      simpl; by rewrite delete_fresh. }
  pose proof (law_ftruncate fd (to_off_t size) w1) as L2.
  destruct (sys_ftruncate _ _ _) as [r w2]. destruct L2 as [[-> E2]|(-> & Hn & E2)].
  { simpl. specialize (Hcl w2 [] (or_intror E2)). by destruct (sys_close fd w2). }
  simpl. apply to_off_t_id in Hn as Hid; [|done]. rewrite Hid in E2.
  assert (E2' : os w2 = set_file path (replicate (Z.to_nat size) Byte.x00) (os w1)).
  { rewrite <- resize_nil. apply E2; rewrite E1; simpl; apply lookup_insert_eq. }
  pose proof (law_mmap size fd w2) as L3. destruct (sys_mmap _ _ _) as [[a|] w3].
  - destruct L3 as (Ha & Hm & p & Hp & E3). rewrite E2', E1 in Hp, Hm. simpl in Hp, Hm.
    rewrite lookup_insert_eq in Hp. simplify_eq. rewrite E2', E1 in E3.
    unfold set_maps, set_file, set_fds in E3. simpl in E3. rewrite insert_insert_eq in E3.
    split_and!; try done. split; simpl; try done; try (unfold in_width in *; lia);
      rewrite ?E3; simpl; rewrite ?lookup_insert_eq; try done. rewrite length_replicate.
    unfold in_width in *. lia.
  - assert (X : os w3 = set_file path (replicate (Z.to_nat size) Byte.x00) (os w1)) by congruence.
    specialize (Hcl w3 _ (or_introl X)). by destruct (sys_close fd w3).
Qed.

Lemma mmap_open_existing_spec path opt w :
  let '(e, w') := mmap_open_existing path opt w in
  match e with
  | Value f => exists c, os_files (os w) !! path = Some c /\ owns f w' c /\
      path_ f = path /\ flush_on_destroy f = opt /\
      os_fds (os w) !! fd_ f = None /\ os_maps (os w) !! data_ f = None /\
      os w' = opened_view f c w
  | Error s => is_ok s = false /\ no_leak w w' /\ os_files (os w') = os_files (os w)
  end.
Proof.
  unfold mmap_open_existing. destruct (path_empty path); [by split|].
  pose proof (law_open path O_RDWR w) as L1.
  destruct (sys_open _ _ _) as [fd w1]. destruct L1 as [[-> E1]|(Hfd & F1 & [c Hc] & E1)].
  { split_and!; [done|by apply no_leak_refl|by rewrite E1]. }
  destruct (Z.eqb_spec fd (-1)); [lia|].
  assert (Hcl : forall w2, os w2 = os w1 ->
    no_leak w (sys_close fd w2).2 /\ os_files (os (sys_close fd w2).2) = os_files (os w)).
  { intros w2 Hw2. unfold no_leak. rewrite close_fds, Hw2, E1. simpl. by rewrite delete_fresh. }
  pose proof (law_fstat fd w1) as L2. destruct (sys_fstat_size fd w1) as [[st|] w2].
  2: { destruct L2 as [E2 _]. specialize (Hcl w2 E2). by destruct (sys_close fd w2). }
  destruct L2 as [E2 L2].
  destruct (L2 st path c) as [-> Hmax]; [done|rewrite E1; apply lookup_insert_eq|by rewrite E1|].
  destruct (Z.leb_spec (Z.of_nat (length c)) 0).
  { specialize (Hcl w2 E2). by destruct (sys_close fd w2). }
  rewrite wrap_id by (split; lia).
  pose proof (law_mmap (Z.of_nat (length c)) fd w2) as L3. destruct (sys_mmap _ _ _) as [[a|] w3].
  - destruct L3 as (Ha & Hm & p & Hp & E3). rewrite E2, E1 in Hp, Hm, E3. simpl in Hp, Hm.
    rewrite lookup_insert_eq in Hp. simplify_eq. exists c.
    split_and!; try done.
    + split; simpl; try done; try (split; lia); rewrite ?E3; simpl; rewrite ?lookup_insert_eq; done.
    + rewrite E3. unfold opened_view, set_maps. simpl. by rewrite (insert_id (os_files (os w))).
  - specialize (Hcl w3 ltac:(congruence)). by destruct (sys_close fd w3).
Qed.

(** Closing releases the descriptor always and the mapping unless unmapping fails,
    in which case the failure is reported. *)
Lemma mmap_close_spec f w c :
  owns f w c ->
  let '(s, f', w') := mmap_close f w in
  f' = MmapFile_default /\ os_files (os w') = os_files (os w) /\
  os_fds (os w') = delete (fd_ f) (os_fds (os w)) /\
  (is_ok s = true -> os_maps (os w') = delete (data_ f) (os_maps (os w))).
Proof.
  intros O. unfold mmap_close. rewrite (owns_valid f w c O). destruct O as [? ? ? ? ? ? ? ?].
  simpl andb. cbv zeta.
  assert (E1 : exists s1 w1, (if flush_on_destroy f then
      let '(flush_status, w) := mmap_flush f w in
      (if negb (is_ok flush_status) then flush_status else Status_ok, w)
    else (Status_ok, w)) = (s1, w1) /\ os w1 = os w).
  { destruct (flush_on_destroy f); [|by eexists _, _].
    pose proof (mmap_flush_view f w). destruct (mmap_flush f w) as [s w1]. by eexists _, _. }
  destruct E1 as (s1 & w1 & -> & E1).
  destruct (Z.eqb_spec (data_ f) 0); [done|]. destruct (Z.eqb_spec (size_ f) 0); [lia|].
  destruct (Z.eqb_spec (fd_ f) (-1)); [lia|]. simpl.
  pose proof (law_munmap (data_ f) (size_ f) w1) as L2. destruct (sys_munmap _ _ _) as [r2 w2].
  pose proof (law_close (fd_ f) w2) as L3. destruct (sys_close _ _) as [r3 w3].
  destruct L3 as [_ E3]. destruct L2 as [[-> E2]|[-> E2]]; rewrite E3, E2, E1; simpl.
  - split_and!; try done. destruct (is_ok s1) eqn:Es.
    + destruct (r3 =? -1); done.
    + rewrite Es, andb_false_r. congruence.
  - done.
Qed.

(** Resizing keeps the old bytes that fit and appends zeros; when it fails the
    object still holds its descriptor, so that [close] can release it. *)
Lemma mmap_resize_spec n f w c :
  in_width 64 n -> owns f w c ->
  let '(s, f', w') := mmap_resize n f w in
  if is_ok s then owns f' w' (resize (Z.to_nat n) Byte.x00 c) /\ path_ f' = path_ f
  else fd_ f' = fd_ f /\ path_ f' = path_ f /\ os_fds (os w') = os_fds (os w).
Proof.
  intros Hn O. unfold mmap_resize. destruct (Z.eqb_spec n 0); [done|].
  rewrite (owns_valid f w c O). simpl negb. cbv iota.
  pose proof (mmap_flush_view f w) as E1. destruct (mmap_flush f w) as [s1 w1]. simpl in E1.
  destruct (is_ok s1) eqn:Es; simpl negb; cbv iota zeta; [|rewrite Es, E1; done].
  destruct O as [? Hfd ? Hmap Hfile Hsize ? ?].
  pose proof (law_munmap (data_ f) (size_ f) w1) as L2. destruct (sys_munmap _ _ _) as [r2 w2].
  destruct L2 as [[-> E2]|[-> E2]]; [simpl; rewrite E2, E1; done|]. simpl.
  rewrite E1 in E2. pose proof (law_ftruncate (fd_ f) (to_off_t n) w2) as L3.
  destruct (sys_ftruncate _ _ _) as [r3 w3].
  destruct L3 as [[-> E3]|(-> & Hoff & E3)]; [simpl; rewrite E3, E2; done|]. simpl.
  rewrite (to_off_t_id n Hn Hoff) in E3.
  specialize (E3 (path_ f) c). rewrite E2 in E3. specialize (E3 Hfd Hfile).
  pose proof (law_mmap n (fd_ f) w3) as L4. destruct (sys_mmap _ _ _) as [[a|] w4]; simpl.
  - destruct L4 as (Ha & Hm & p & Hp & E4). rewrite E3 in Hp, E4. simpl in Hp. simplify_eq.
    split; [|done].
    split; simpl; try done; try (unfold in_width in *; lia); rewrite ?E4; simpl;
      rewrite ?lookup_insert_eq; try done.
    rewrite length_resize. unfold in_width in *. lia.
  - by rewrite L4, E3.
Qed.

(** Writing inside an owned mapping. *)
Lemma owns_store f w c off bs :
  owns f w c -> (off + length bs <= length c)%nat ->
  owns f (mem_store (data_ f) off bs w) (splice off bs c) /\
  os (mem_store (data_ f) off bs w) = set_file (path_ f) (splice off bs c) (os w).
Proof.
  intros [? ? ? ? ? ? ? ?] Hb.
  assert (E : os (mem_store (data_ f) off bs w) = set_file (path_ f) (splice off bs c) (os w)).
  { eapply law_store; [done|done|lia|lia]. }
  split; [|done]. split; rewrite ?E; simpl; try done.
  - apply lookup_insert_eq.
  - by rewrite length_splice.
Qed.
End MmapProofs.

(** ** Properties *)

(** C18. Creating a mapped file is all or nothing.  For any behaviour of the
    operating system allowed by its documentation, [create] either returns an
    object that owns a fresh descriptor and a fresh mapping of a file of exactly
    the requested number of zero bytes, or returns an error and leaves no
    descriptor and no mapping behind. *)
Theorem mmap_create_no_leak (W : Type) (P : Posix W) (L : PosixLaws W)
    (path : string) (size : Z) (opt : bool) (w : W) :
  in_width 64 size ->
  let '(e, w') := mmap_create path size opt w in
  match e with
  | Value f => owns f w' (replicate (Z.to_nat size) Byte.x00) /\
      path_ f = path /\ size_ f = size /\ flush_on_destroy f = opt /\
      os_fds (os w) !! fd_ f = None /\ os_maps (os w) !! data_ f = None /\
      os w' = opened_view f (replicate (Z.to_nat size) Byte.x00) w
  | Error s => is_ok s = false /\ no_leak w w'
  end.
Proof. apply mmap_create_spec. Qed.

(** The second call (the size change) fails: the descriptor is closed again. *)
Lemma mmap_create_no_leak_witness :
  in_width 64 8 /\
  is_ok (status (mmap_create "a.wal" 8 true (ToyOs.boot [false; true])).1) = false /\
  no_leak (ToyOs.boot [false; true]) (mmap_create "a.wal" 8 true (ToyOs.boot [false; true])).2.
Proof.
  assert (Hw : in_width 64 8) by (vm_compute; split; [discriminate|reflexivity]).
  split; [exact Hw|].
  exact (mmap_create_no_leak ToyOs.world ToyOs.posix ToyOs.posix_laws "a.wal" 8 true
    (ToyOs.boot [false; true]) Hw).
Defined.

(** Closing releases what was owned.  [close] (and so the destructor) on an
    object that owns its file returns it to the default state, releases its
    descriptor, keeps the file content, and unmaps its region, unless it reports
    an error. *)
Theorem mmap_close_releases (W : Type) (P : Posix W) (L : PosixLaws W)
    (f : MmapFile) (w : W) (c : list byte) :
  owns f w c ->
  let '(s, f', w') := mmap_close f w in
  f' = MmapFile_default /\ os_files (os w') = os_files (os w) /\
  os_fds (os w') = delete (fd_ f) (os_fds (os w)) /\
  (is_ok s = true -> os_maps (os w') = delete (data_ f) (os_maps (os w))).
Proof. apply mmap_close_spec. Qed.

(** A file created on a system without failures. *)
Definition toy_file : MmapFile := mkMmapFile 3 4096 8 "a.wal" true.
Definition toy_world : ToyOs.world := (mmap_create "a.wal" 8 true (ToyOs.boot [])).2.

Lemma toy_file_owned : owns toy_file toy_world (replicate 8 Byte.x00).
Proof. by split; vm_compute. Qed.

Lemma mmap_close_releases_witness :
  owns toy_file toy_world (replicate 8 Byte.x00) /\
  let '(s, f', w') := mmap_close toy_file toy_world in
  f' = MmapFile_default /\ os_files (os w') = os_files (os toy_world) /\
  os_fds (os w') = delete 3 (os_fds (os toy_world)) /\
  (is_ok s = true -> os_maps (os w') = delete 4096 (os_maps (os toy_world))).
Proof.
  split; [exact toy_file_owned|].
  exact (mmap_close_releases ToyOs.world ToyOs.posix ToyOs.posix_laws toy_file toy_world _
    toy_file_owned).
Defined.

(** Resizing keeps the content.  A successful [resize] leaves an object that
    owns the file with its old bytes cut or extended by zeros to the new size; a
    failed one keeps the descriptor, so that it is still released by [close]. *)
Theorem mmap_resize_content (W : Type) (P : Posix W) (L : PosixLaws W)
    (n : Z) (f : MmapFile) (w : W) (c : list byte) :
  in_width 64 n -> owns f w c ->
  let '(s, f', w') := mmap_resize n f w in
  if is_ok s then owns f' w' (resize (Z.to_nat n) Byte.x00 c) /\ path_ f' = path_ f
  else fd_ f' = fd_ f /\ path_ f' = path_ f /\ os_fds (os w') = os_fds (os w).
Proof. apply mmap_resize_spec. Qed.

Lemma mmap_resize_content_witness :
  owns toy_file toy_world (replicate 8 Byte.x00) /\
  owns (mmap_resize 12 toy_file toy_world).1.2 (mmap_resize 12 toy_file toy_world).2
    (replicate 12 Byte.x00).
Proof.
  split; [exact toy_file_owned|].
  assert (Hw : in_width 64 12) by (vm_compute; split; [discriminate|reflexivity]).
  exact (proj1 (mmap_resize_content ToyOs.world ToyOs.posix ToyOs.posix_laws 12 toy_file toy_world
    _ Hw toy_file_owned)).
Defined.
