(* ===== verification/Wal.v ===== *)
(** * The write-ahead log: writer and reader

    wal/wal_writer.cpp and wal/wal_reader.cpp (with the [replay] template of
    wal_reader.hpp), over the mapped file of MmapFile.v and the record format of
    WalFormat.v. *)

From S2P Require Import Prelude Core Posix MmapFile WalFormat.
#[local] Open Scope Z_scope.

Definition fits_size_t (v : Z) : bool := v <=? u64_max.

(** ** WalWriter *)

Record WalWriter : Set := mkWriter {
  ww_file : MmapFile;
  ww_current_offset : Z;
  ww_next_sequence : Z;
  ww_records_written : Z;
  ww_flush_on_append : bool }.

Definition WalWriter_default : WalWriter := mkWriter MmapFile_default 0 0 0 false.
(** [WalWriter(file, flush_on_append)]. *)
Definition WalWriter_make (file : MmapFile) (flush_on_append : bool) : WalWriter :=
  mkWriter file 0 0 0 flush_on_append.
Definition writer_current_offset (wr : WalWriter) : Z := ww_current_offset wr.
Definition writer_next_sequence (wr : WalWriter) : Z := ww_next_sequence wr.
Definition writer_records_written (wr : WalWriter) : Z := ww_records_written wr.

Definition writer_valid (wr : WalWriter) : bool := mmap_valid (ww_file wr).

Definition remaining_space (wr : WalWriter) : Z :=
  if negb (writer_valid wr) then 0
  else
    let size := size_ (ww_file wr) in
    if ww_current_offset wr <=? size then size ⊟ ww_current_offset wr else 0.

(** ** WalReader *)

Record WalReader : Set := mkReader {
  wr_file : MmapFile;
  wr_current_offset : Z;
  wr_records_read : Z }.

(** [WalReader(file)]. *)
Definition WalReader_make (file : MmapFile) : WalReader := mkReader file 0 0.
Definition reader_current_offset (r : WalReader) : Z := wr_current_offset r.
Definition reader_records_read (r : WalReader) : Z := wr_records_read r.
Definition reader_valid (r : WalReader) : bool := mmap_valid (wr_file r).

Section Wal.
Context {W : Type} `{Posix W}.

Definition writer_create_path (path : string) (file_size_bytes : Z) (flush_on_append : bool)
    (w : W) : Expected WalWriter * W :=
  if path_empty path
  then (Expected_of_status (mkStatus StatusCode.invalid_argument "wal path must not be empty"), w)
  else if file_size_bytes <? wal_record_header_size
  then (Expected_of_status
          (mkStatus StatusCode.invalid_argument "wal file cannot fit one header"), w)
  else if negb (fits_size_t file_size_bytes)
  then (Expected_of_status
          (mkStatus StatusCode.invalid_argument "wal file size too large for this platform"), w)
  else
    let '(file, w) := mmap_create path file_size_bytes true w in
    match file with
    | Error s => (Expected_of_status s, w)
    | Value f => (Value (WalWriter_make f flush_on_append), w)
    end.

Definition writer_create (config : WalConfig) (w : W) : Expected WalWriter * W :=
  let st := WalConfig_validate config in
  if negb (is_ok st) then (Expected_of_status st, w)
  else writer_create_path (wc_path config) (wc_file_size_bytes config)
         (wc_flush_on_commit config) w.

Definition writer_flush (wr : WalWriter) (w : W) : Status * W :=
  if negb (writer_valid wr)
  then (mkStatus StatusCode.invalid_argument "wal writer is not open", w)
  else mmap_flush (ww_file wr) w.

(** [append(message)] once its checks have passed: builds the record, copies it
    into the mapping, flushes and advances. *)
Definition append_commit (m : MessageView) (total_size : Z) (wr : WalWriter) (w : W)
    : Status * WalWriter * W :=
  let '(ts, w) :=
    if negb (mh_timestamp_ns (mv_header m) =? 0) then (mh_timestamp_ns (mv_header m), w)
    else sys_clock_ns w in
  let header := mkHeader wal_record_magic wal_format_version wal_record_header_size
    (wrap 32 (span_size (mv_payload m))) (ww_next_sequence wr) ts 0 (mh_flags (mv_header m)) in
  let header := set_checksum (compute_record_checksum header (mv_payload m)) header in
  let serialized := serialize_header header in
  let destination := Z.to_nat (ww_current_offset wr) in
  let w := mem_store (data_ (ww_file wr)) destination serialized w in
  let w :=
    match mv_payload m with
    | [] => w
    | payload => mem_store (data_ (ww_file wr))
                   (destination + Z.to_nat wal_record_header_size) payload w
    end in
  let '(flush_status, w) :=
    if ww_flush_on_append wr then writer_flush wr w else (Status_ok, w) in
  if negb (is_ok flush_status) then (flush_status, wr, w)
  else
    (Status_ok,
     mkWriter (ww_file wr) (ww_current_offset wr ⊞ total_size) (ww_next_sequence wr ⊞ 1)
       (ww_records_written wr ⊞ 1) (ww_flush_on_append wr), w).

(** [append(message)]. *)
Definition append (m : MessageView) (wr : WalWriter) (w : W) : Status * WalWriter * W :=
  if negb (writer_valid wr)
  then (mkStatus StatusCode.invalid_argument "wal writer is not open", wr, w)
  else
  let message_status := validate_message_view m in
  if negb (is_ok message_status) then (message_status, wr, w)
  else
  let psize := span_size (mv_payload m) in
  if negb (fits_size_t psize)
  then (mkStatus StatusCode.invalid_argument "payload too large", wr, w)
  else if psize >? max_payload_size
  then (mkStatus StatusCode.invalid_argument "payload too large", wr, w)
  else if psize >? u64_max ⊟ wal_record_header_size
  then (mkStatus StatusCode.invalid_argument "wal record size overflow", wr, w)
  else
  let total_size := wal_record_header_size ⊞ psize in
  if total_size >? remaining_space wr
  then (mkStatus StatusCode.out_of_space "wal file does not have enough remaining space", wr, w)
  else if negb (fits_size_t (ww_current_offset wr)) || negb (fits_size_t total_size)
  then (mkStatus StatusCode.invalid_argument "wal offset too large for this platform", wr, w)
  else append_commit m total_size wr w.

Definition reader_open (path : string) (w : W) : Expected WalReader * W :=
  let '(file, w) := mmap_open_existing path false w in
  match file with
  | Error s => (Expected_of_status s, w)
  | Value f => (Value (WalReader_make f), w)
  end.

(** [next()]. *)
Definition reader_next (r : WalReader) (w : W) : Expected WalRecordView * WalReader :=
  if negb (reader_valid r)
  then (Expected_of_status (mkStatus StatusCode.invalid_argument "wal reader is not open"), r)
  else
  let file_size := size_ (wr_file r) in
  if wr_current_offset r >=? file_size
  then (Expected_of_status (mkStatus StatusCode.empty ""), r)
  else
  let remaining := file_size ⊟ wr_current_offset r in
  let all_bytes := mmap_bytes (wr_file r) w in
  if negb (fits_size_t (wr_current_offset r)) || negb (fits_size_t remaining)
  then (Expected_of_status
          (mkStatus StatusCode.invalid_argument "wal offset too large for this platform"), r)
  else
  let tail := slice (Z.to_nat (wr_current_offset r)) (Z.to_nat remaining) all_bytes in
  if remaining <? wal_record_header_size then
    if is_zero_filled tail then (Expected_of_status (mkStatus StatusCode.empty ""), r)
    else (Expected_of_status (mkStatus StatusCode.empty "partial wal record"), r)
  else
  match deserialize_header (take (Z.to_nat wal_record_header_size) tail) with
  | Error s => (Expected_of_status s, r)
  | Value header =>
      if (magic header =? 0) && is_zero_filled tail
      then (Expected_of_status (mkStatus StatusCode.empty ""), r)
      else
      let header_status := validate_header_shape header in
      if negb (is_ok header_status) then (Expected_of_status header_status, r)
      else
      let total_size := record_total_size header in
      if (total_size <? header_size header) || (total_size >? remaining)
      then (Expected_of_status (mkStatus StatusCode.empty "partial wal record"), r)
      else if negb (fits_size_t total_size)
      then (Expected_of_status
              (mkStatus StatusCode.corrupted_record "wal record too large for this platform"), r)
      else
      let payload := slice (Z.to_nat wal_record_header_size) (Z.to_nat (payload_size header)) tail in
      if negb (validate_record_checksum header payload)
      then (Expected_of_status (mkStatus StatusCode.corrupted_record "wal checksum mismatch"), r)
      else
        (Value (mkRecordView header payload (wr_current_offset r)),
         mkReader (wr_file r) (wr_current_offset r ⊞ total_size) (wr_records_read r ⊞ 1))
  end.

Definition reader_reset (r : WalReader) : Status * WalReader :=
  if negb (reader_valid r)
  then (mkStatus StatusCode.invalid_argument "wal reader is not open", r)
  else (Status_ok, mkReader (wr_file r) 0 0).

(** [replay(visitor)]: the visitor is a stateful callback. *)
Fixpoint replay {St} (fuel : nat) (visitor : WalRecordView -> St -> Status * St) (s : St)
    (r : WalReader) (w : W) : outcome (Status * St * WalReader) :=
  match fuel with
  | O => OutOfFuel
  | S fuel =>
      let '(record, r) := reader_next r w in
      match record with
      | Value v =>
          let '(st, s) := visitor v s in
          if negb (is_ok st) then Done (st, s, r) else replay fuel visitor s r w
      | Error st =>
          if bool_decide (code st = StatusCode.empty) then Done (Status_ok, s, r)
          else Done (st, s, r)
      end
  end.
End Wal.

(** ** The abstract log *)

(** A record as bytes. *)
Abbreviation entry := (WalRecordHeader * list byte)%type.
Definition encode (e : entry) : list byte := serialize_header e.1 ++ e.2.
Definition log_bytes (log : list entry) : list byte := concat (map encode log).
Definition entry_size (e : entry) : nat := 40 + length e.2.

(** A record a writer can produce. *)
Record entry_ok (e : entry) : Prop := {
  eo_magic : magic e.1 = wal_record_magic;
  eo_version : version e.1 = wal_format_version;
  eo_header_size : header_size e.1 = wal_record_header_size;
  eo_payload_size : payload_size e.1 = span_size e.2;
  eo_payload_max : span_size e.2 <= max_payload_size;
  eo_sequence : in_width 64 (sequence e.1);
  eo_timestamp : in_width 64 (timestamp_ns e.1);
  eo_checksum : checksum e.1 = compute_record_checksum e.1 e.2;
  eo_flags : in_width 32 (flags e.1) }.

Lemma length_encode e : length (encode e) = entry_size e.
Proof. unfold encode. by rewrite length_app, length_serialize_header. Qed.

Lemma log_bytes_cons e l : log_bytes (e :: l) = encode e ++ log_bytes l.
Proof. reflexivity. Qed.

Lemma log_bytes_app l1 l2 : log_bytes (l1 ++ l2) = log_bytes l1 ++ log_bytes l2.
Proof. unfold log_bytes. by rewrite map_app, concat_app. Qed.

Lemma log_bytes_snoc l e : log_bytes (l ++ [e]) = log_bytes l ++ encode e.
Proof. rewrite log_bytes_app. unfold log_bytes. simpl. by rewrite app_nil_r. Qed.

Lemma length_log_bytes l : (40 * length l <= length (log_bytes l))%nat.
Proof.
  induction l as [|e l IH]; [done|].
  rewrite log_bytes_cons, length_app, length_encode. unfold entry_size. simpl length. lia.
Qed.

Lemma entry_ok_widths e : entry_ok e -> header_widths e.1.
Proof.
  intros [Hm Hv Hh Hp Hmax Hs Ht Hc Hf]. unfold header_widths. rewrite Hm, Hv, Hh, Hp, Hc.
  unfold max_payload_size, u32_max, span_size in *.
  split_and!; [by vm_compute..| |exact Hs|exact Ht|apply checksum_width|exact Hf]. split; lia.
Qed.

Lemma entry_ok_shape e : entry_ok e -> validate_header_shape e.1 = Status_ok.
Proof.
  intros [Hm Hv Hh Hp Hmax _ _ _ _]. unfold validate_header_shape. rewrite Hm, Hv, Hh.
  rewrite !Z.eqb_refl. simpl. rewrite Hp, Z.gtb_ltb.
  by destruct (Z.ltb_spec max_payload_size (span_size e.2)); [lia|].
Qed.

(** ** The reader, as a parser *)

(** What the bytes from the current offset on mean to the reader. *)
Definition parse_record (tail : list byte) : Expected entry :=
  if span_size tail <? wal_record_header_size
  then Error (mkStatus StatusCode.empty
         (if is_zero_filled tail then "" else "partial wal record"))
  else match deserialize_header tail with
  | Error s => Error s
  | Value h =>
      if (magic h =? 0) && is_zero_filled tail then Error (mkStatus StatusCode.empty "")
      else if negb (is_ok (validate_header_shape h)) then Error (validate_header_shape h)
      else if 40 + payload_size h >? span_size tail
      then Error (mkStatus StatusCode.empty "partial wal record")
      else
        let p := slice 40 (Z.to_nat (payload_size h)) tail in
        if validate_record_checksum h p then Value (h, p)
        else Error (mkStatus StatusCode.corrupted_record "wal checksum mismatch")
  end.

Lemma deserialize_take tail :
  (40 <= length tail)%nat -> deserialize_header (take 40 tail) = deserialize_header tail.
Proof.
  intros. rewrite !deserialize_fields by (rewrite ?length_take; lia).
  assert (S : forall off n, (off + n <= 40)%nat -> slice off n (take 40 tail) = slice off n tail).
  { intros off n Hn. unfold slice. rewrite skipn_firstn_comm, take_take.
    f_equal. lia. }
  by rewrite !S by lia.
Qed.

Lemma shape_ok h :
  is_ok (validate_header_shape h) = true <->
  magic h = wal_record_magic /\ version h = wal_format_version /\
  header_size h = wal_record_header_size /\ payload_size h <= max_payload_size.
Proof.
  unfold validate_header_shape. rewrite Z.gtb_ltb.
  destruct (Z.eqb_spec (magic h) wal_record_magic); simpl; [|by split; [|intros (?&?)]].
  destruct (Z.eqb_spec (version h) wal_format_version); simpl; [|by split; [|intros (?&?&?)]].
  destruct (Z.eqb_spec (header_size h) wal_record_header_size); simpl;
    [|by split; [|intros (?&?&?&?)]].
  destruct (Z.ltb_spec max_payload_size (payload_size h)); simpl; [|done].
  split; [done|]. intros (?&?&?&?). lia.
Qed.

(** A record comes out whole and inside the bytes. *)
Lemma parse_record_bounds tail e :
  parse_record tail = Value e ->
  length e.2 = Z.to_nat (payload_size e.1) /\ (entry_size e <= length tail)%nat /\
  header_size e.1 = 40 /\ in_width 32 (payload_size e.1).
Proof.
  unfold parse_record, span_size, wal_record_header_size.
  destruct (Z.ltb_spec (Z.of_nat (length tail)) 40); [done|].
  destruct (deserialize_header tail) as [h|] eqn:D; [|done]. destruct (_ && _); [done|].
  destruct (is_ok (validate_header_shape h)) eqn:Sh; [simpl|done].
  destruct (Z.gtb_spec (40 + payload_size h) (Z.of_nat (length tail))); [done|].
  destruct (validate_record_checksum _ _); [|done]. intros [= <-]. unfold entry_size. simpl.
  apply shape_ok in Sh as (_ & _ & Hh & _).
  apply deserialize_widths in D as (_&_&_& Hp &_). unfold in_width in Hp.
  rewrite !length_slice by lia. split_and!; try lia; done.
Qed.

(** Errors of the parser are never [ok]. *)
Lemma parse_record_error tail s : parse_record tail = Error s -> is_ok s = false.
Proof.
  unfold parse_record. destruct (span_size tail <? _) eqn:L; [by intros [= <-]|].
  destruct (deserialize_header tail) as [h|] eqn:D.
  - destruct (_ && _); [by intros [= <-]|].
    destruct (is_ok (validate_header_shape h)) eqn:Sh; [simpl|by intros [= <-]].
    destruct (_ >? _); [by intros [= <-]|]. by destruct (validate_record_checksum _ _); intros [= <-].
  - unfold deserialize_header in D. by rewrite L in D.
Qed.

Section ReaderProofs.
Context {W : Type} `{PosixLaws W}.
Implicit Types (r : WalReader) (w : W) (c : list byte).

Record reader_at r w c (off : nat) : Prop := {
  ra_owns : owns (wr_file r) w c;
  ra_offset : wr_current_offset r = Z.of_nat off;
  ra_bound : (off <= length c)%nat }.

(** [next] is the parser at the current offset: it moves past a record and does
    not move otherwise. *)
Lemma reader_next_parse r w c off :
  reader_at r w c off ->
  reader_next r w =
    match parse_record (drop off c) with
    | Value e => (Value (mkRecordView e.1 e.2 (Z.of_nat off)),
        mkReader (wr_file r) (Z.of_nat (off + entry_size e)) (wr_records_read r ⊞ 1))
    | Error s => (Error s, r)
    end.
Proof.
  intros [O Hoff Hb]. unfold reader_next, reader_valid. rewrite (owns_valid _ _ _ O).
  rewrite (owns_bytes _ _ _ O). destruct O as [_ _ _ _ _ Hs Hp Hw]. simpl negb. cbv iota.
  rewrite Hoff. unfold in_width in Hw. rewrite Z.geb_leb.
  destruct (Z.leb_spec (size_ (wr_file r)) (Z.of_nat off)).
  { rewrite drop_ge by lia. done. }
  cbv zeta.
  assert (Hrem : size_ (wr_file r) ⊟ Z.of_nat off = Z.of_nat (length (drop off c))).
  { rewrite length_drop, wrap_id; unfold in_width; lia. }
  rewrite Hrem. pose proof (length_drop c off) as Hl.
  assert (Hsl : slice (Z.to_nat (Z.of_nat off)) (Z.to_nat (Z.of_nat (length (drop off c)))) c
                = drop off c).
  { rewrite !Nat2Z.id. unfold slice. apply take_ge. lia. }
  rewrite Hsl. set (tail := drop off c) in *.
  unfold fits_size_t, u64_max. destruct (Z.leb_spec (Z.of_nat off) (2 ^ 64 - 1)); [|lia].
  destruct (Z.leb_spec (Z.of_nat (length tail)) (2 ^ 64 - 1)); [|lia]. cbn [negb orb].
  pose proof (parse_record_bounds tail) as B.
  unfold parse_record in *. unfold span_size, wal_record_header_size in *.
  destruct (Z.ltb_spec (Z.of_nat (length tail)) 40); [by destruct (is_zero_filled tail)|].
  rewrite deserialize_take by lia.
  destruct (deserialize_header tail) as [h|s] eqn:D.
  2: { unfold deserialize_header in D. destruct (span_size tail <? _) eqn:L; [|done].
       injection D as <-. done. }
  destruct (_ && _); [done|].
  destruct (is_ok (validate_header_shape h)) eqn:Sh; cbn [negb] in *.
  2: { unfold Expected_of_status. by rewrite normalize_id. }
  pose proof (proj1 (shape_ok h) Sh) as (_ & _ & Hh & Hmax).
  apply deserialize_widths in D as (_&_&_& Hpw &_).
  unfold in_width, wal_record_header_size, max_payload_size, u32_max in *.
  assert (Ht : record_total_size h = 40 + payload_size h).
  { unfold record_total_size. rewrite Hh. apply wrap_id. unfold in_width. lia. }
  rewrite Ht, Hh. destruct (Z.ltb_spec (40 + payload_size h) 40); [lia|]. cbn [orb].
  destruct (Z.gtb_spec (40 + payload_size h) (Z.of_nat (length tail))); [done|].
  destruct (Z.leb_spec (40 + payload_size h) (2 ^ 64 - 1)); [|lia]. cbn [negb].
  change (Z.to_nat 40) with 40%nat.
  destruct (validate_record_checksum h _) eqn:V; [|done]. cbn [negb fst snd] in *.
  destruct (B _ eq_refl) as (Hlen & Hsz & _). cbn [fst snd] in *.
  unfold entry_size in *. cbn [fst snd] in *. rewrite Hlen in *.
  do 2 f_equal. rewrite wrap_id; unfold in_width; lia.
Qed.
End ReaderProofs.

(** ** The writer *)

(** The record [append] builds for a message. *)
Definition message_entry (seq ts : Z) (m : MessageView) : entry :=
  let h := mkHeader wal_record_magic wal_format_version wal_record_header_size
    (wrap 32 (span_size (mv_payload m))) seq ts 0 (mh_flags (mv_header m)) in
  (set_checksum (compute_record_checksum h (mv_payload m)) h, mv_payload m).

(** The fields of the message have their C++ widths. *)
Definition message_widths (m : MessageView) : Prop :=
  in_width 64 (mh_timestamp_ns (mv_header m)) /\ in_width 32 (mh_flags (mv_header m)).

Definition message_accepted (m : MessageView) : bool :=
  (mh_payload_size (mv_header m) =? span_size (mv_payload m)) &&
  (span_size (mv_payload m) <=? max_payload_size).

Lemma checksum_ignores_field c h p :
  compute_record_checksum (set_checksum c h) p = compute_record_checksum h p.
Proof. reflexivity. Qed.

Lemma message_entry_ok seq ts m :
  message_widths m -> span_size (mv_payload m) <= max_payload_size ->
  in_width 64 seq -> in_width 64 ts -> entry_ok (message_entry seq ts m).
Proof.
  intros [_ Hf] Hp Hs Ht. unfold message_entry, max_payload_size, u32_max in *.
  assert (E : wrap 32 (span_size (mv_payload m)) = span_size (mv_payload m)).
  { apply wrap_id. unfold span_size in *. split; lia. }
  split; cbn [fst snd magic version header_size payload_size sequence timestamp_ns flags
    set_checksum checksum]; done.
Qed.

Section WriterProofs.
Context {W : Type} `{PosixLaws W}.
Implicit Types (wr : WalWriter) (w : W) (m : MessageView) (log : list entry) (tail : list byte).

(** The file holds the log and then [tail]; the records are numbered from 0. *)
Record writer_rep wr w log tail : Prop := {
  wp_owns : owns (ww_file wr) w (log_bytes log ++ tail);
  wp_offset : ww_current_offset wr = Z.of_nat (length (log_bytes log));
  wp_sequence : ww_next_sequence wr = Z.of_nat (length log);
  wp_written : ww_records_written wr = Z.of_nat (length log);
  wp_ok : Forall entry_ok log;
  wp_numbered : forall i e, log !! i = Some e -> sequence e.1 = Z.of_nat i }.

Lemma writer_rep_view wr w w' log tail :
  os w' = os w -> writer_rep wr w log tail -> writer_rep wr w' log tail.
Proof. intros E []. split; try done. by apply (owns_view _ w). Qed.

Lemma remaining_space_spec wr w log tail :
  writer_rep wr w log tail -> remaining_space wr = Z.of_nat (length tail).
Proof.
  intros [O Hoff _ _ _ _]. unfold remaining_space, writer_valid. rewrite (owns_valid _ _ _ O).
  destruct O as [_ _ _ _ _ Hs _ Hw]. rewrite length_app in Hs. simpl negb. cbv iota zeta.
  rewrite Hoff. destruct (Z.leb_spec (Z.of_nat (length (log_bytes log))) (size_ (ww_file wr))); [|lia].
  rewrite wrap_id; unfold in_width in *; lia.
Qed.

Lemma writer_flush_view wr w : os (writer_flush wr w).2 = os w.
Proof. unfold writer_flush. destruct (negb _); [done|]. apply mmap_flush_view. Qed.

Lemma writer_flush_code wr w log tail :
  writer_rep wr w log tail ->
  is_ok (writer_flush wr w).1 = true \/ code (writer_flush wr w).1 = StatusCode.io_error.
Proof.
  intros [O _ _ _ _ _]. unfold writer_flush, writer_valid, mmap_flush.
  rewrite (owns_valid _ _ _ O). simpl. destruct (sys_msync _ _ _) as [x w'].
  destruct (x =? -1); auto.
Qed.

(** Writing the header and then the payload is one copy of the encoded record. *)
Lemma append_store wr w log tail e :
  writer_rep wr w log tail -> (entry_size e <= length tail)%nat ->
  let w1 := mem_store (data_ (ww_file wr)) (length (log_bytes log)) (serialize_header e.1) w in
  let w2 := match e.2 with
    | [] => w1
    | payload => mem_store (data_ (ww_file wr)) (length (log_bytes log) + 40) payload w1
    end in
  writer_rep wr w2 log (encode e ++ drop (entry_size e) tail) /\
  os w2 = set_file (path_ (ww_file wr))
            (log_bytes log ++ encode e ++ drop (entry_size e) tail) (os w).
Proof.
  intros R Hsz w1 w2. pose proof R as [O Hoff Hseq Hwr Hok Hnum].
  pose proof (length_serialize_header e.1) as Hlh. unfold entry_size in *.
  set (n := length (log_bytes log)) in *. set (c := log_bytes log ++ tail) in *.
  assert (Hc : length c = (n + length tail)%nat) by apply length_app.
  assert (Hspl : splice n (encode e) c = log_bytes log ++ encode e ++ drop (40 + length e.2) tail).
  { unfold splice, c. rewrite take_app_length' by done. do 2 f_equal.
    rewrite length_encode, drop_app_ge by (unfold n; lia). f_equal. unfold entry_size, n. lia. }
  destruct (owns_store (ww_file wr) w c n (serialize_header e.1)) as [O1 E1]; [done|lia|].
  assert (X : owns (ww_file wr) w2 (splice n (encode e) c) /\
    os w2 = set_file (path_ (ww_file wr)) (splice n (encode e) c) (os w)).
  { unfold w2, encode in *. destruct e.2 as [|b p] eqn:Ep; [by rewrite app_nil_r|].
    rewrite <- splice_splice_adjacent by (rewrite Hlh; lia). rewrite Hlh.
    destruct (owns_store (ww_file wr) w1 (splice n (serialize_header e.1) c) (n + 40) (b :: p))
      as [O2 E2]; [done|rewrite length_splice; simpl in *; lia|].
    split; [done|]. rewrite E2. unfold w1. rewrite E1. unfold set_file. simpl.
    by rewrite insert_insert_eq. }
  rewrite Hspl in X. destruct X as [O2 E2]. split; [|done]. by split.
Qed.

Lemma writer_advance wr w log tail e :
  writer_rep wr w log (encode e ++ tail) -> entry_ok e ->
  sequence e.1 = Z.of_nat (length log) ->
  writer_rep (mkWriter (ww_file wr) (ww_current_offset wr ⊞ Z.of_nat (entry_size e))
    (ww_next_sequence wr ⊞ 1) (ww_records_written wr ⊞ 1) (ww_flush_on_append wr)) w
    (log ++ [e]) tail.
Proof.
  intros [O Hoff Hseq Hwr Hok Hnum] He Hs.
  pose proof (length_log_bytes log). pose proof (length_encode e).
  assert (Hb : Z.of_nat (length (log_bytes log) + (entry_size e + length tail)) < 2 ^ 64).
  { destruct O as [_ _ _ _ _ E _ Hw]. rewrite !length_app in E. unfold in_width in Hw. lia. }
  split; simpl.
  - rewrite log_bytes_snoc, <- app_assoc. done.
  - rewrite log_bytes_snoc, length_app, Hoff, wrap_id; unfold in_width; lia.
  - rewrite length_app, Hseq, wrap_id; unfold in_width; simpl; lia.
  - rewrite length_app, Hwr, wrap_id; unfold in_width; simpl; lia.
  - apply Forall_app_2; [done|by apply Forall_singleton].
  - intros i e'. rewrite lookup_app_Some. intros [?|[? Hi]]; [by apply Hnum|].
    apply list_lookup_singleton_Some in Hi as [? <-]. rewrite Hs. simpl in *. f_equal. lia.
Qed.

Lemma writer_rep_width wr w log tail :
  writer_rep wr w log tail -> in_width 64 (Z.of_nat (length (log_bytes log) + length tail)).
Proof. intros [[_ _ _ _ _ E _ Hw] _ _ _ _ _]. by rewrite length_app in E; rewrite <- E. Qed.

(** The checks of [append] come down to three cases. *)
Lemma append_guards m wr w log tail :
  writer_rep wr w log tail ->
  if negb (message_accepted m)
  then exists d, append m wr w = (mkStatus StatusCode.invalid_argument d, wr, w)
  else if (length tail <? entry_size (WalRecordHeader_default, mv_payload m))%nat
  then exists d, append m wr w = (mkStatus StatusCode.out_of_space d, wr, w)
  else append m wr w = append_commit m (40 + span_size (mv_payload m)) wr w.
Proof.
  intros R. unfold append, writer_valid, validate_message_view, message_accepted, entry_size.
  rewrite (owns_valid _ _ _ (wp_owns _ _ _ _ R)), (remaining_space_spec _ _ _ _ R).
  pose proof (writer_rep_width _ _ _ _ R) as [_ Hw]. rewrite (wp_offset _ _ _ _ R).
  unfold fits_size_t, u64_max, wal_record_header_size. rewrite !Z.gtb_ltb.
  rewrite (wrap_id 64 (2 ^ 64 - 1 - 40)) by (vm_compute; split; congruence || done).
  set (n := span_size (mv_payload m)).
  assert (Hn : n = Z.of_nat (length (mv_payload m))) by done. cbn [negb snd]. cbv zeta.
  destruct (Z.eqb_spec (mh_payload_size (mv_header m)) n); [|by eexists].
  cbn [negb andb is_ok code Status_ok]. simpl is_ok. cbn [negb].
  assert (Hmax : max_payload_size = 4294967295) by done.
  destruct (Z.leb_spec n (2 ^ 64 - 1)); destruct (Z.leb_spec n max_payload_size);
    destruct (Z.ltb_spec max_payload_size n); try lia; try (by eexists). cbn [negb].
  destruct (Z.ltb_spec (2 ^ 64 - 1 - 40) n); [lia|].
  rewrite (wrap_id 64 (40 + n)) by (split; lia).
  destruct (Z.ltb_spec (Z.of_nat (length tail)) (40 + n)) as [Hsz|Hsz];
    destruct (Nat.ltb_spec (length tail) (40 + length (mv_payload m))); try lia; [by eexists|].
  destruct (Z.leb_spec (Z.of_nat (length (log_bytes log))) (2 ^ 64 - 1)); [|lia].
  destruct (Z.leb_spec (40 + n) (2 ^ 64 - 1)); [|lia]. done.
Qed.

Lemma append_clock m w :
  message_widths m ->
  exists (ts : Z) (w0 : W),
    (if negb (mh_timestamp_ns (mv_header m) =? 0) then (mh_timestamp_ns (mv_header m), w)
     else sys_clock_ns w) = (ts, w0) /\
    in_width 64 ts /\ os w0 = os w /\
    (mh_timestamp_ns (mv_header m) <> 0 -> ts = mh_timestamp_ns (mv_header m)).
Proof.
  intros [Ht _]. destruct (Z.eqb_spec (mh_timestamp_ns (mv_header m)) 0); simpl.
  - pose proof (law_clock w) as L. destruct (sys_clock_ns w) as [ts w0]. destruct L.
    by exists ts, w0.
  - by exists (mh_timestamp_ns (mv_header m)), w.
Qed.

(** What [append_commit] writes, whether its flush succeeds or not. *)
Definition append_written (m : MessageView) (wr wr' : WalWriter) (w w' : W) (st : Status)
    (log : list entry) (tail : list byte) : Prop :=
  exists ts, let e := message_entry (Z.of_nat (length log)) ts m in
    let rest := drop (entry_size e) tail in
    entry_ok e /\ (mh_timestamp_ns (mv_header m) <> 0 -> ts = mh_timestamp_ns (mv_header m)) /\
    os w' = set_file (path_ (ww_file wr)) (log_bytes log ++ encode e ++ rest) (os w) /\
    ww_file wr' = ww_file wr /\ ww_flush_on_append wr' = ww_flush_on_append wr /\
    if is_ok st then writer_rep wr' w' (log ++ [e]) rest
    else code st = StatusCode.io_error /\ ww_flush_on_append wr = true /\ wr' = wr /\
         writer_rep wr w' log (encode e ++ rest).

Lemma append_commit_spec m wr w log tail :
  message_widths m -> span_size (mv_payload m) <= max_payload_size ->
  (40 + length (mv_payload m) <= length tail)%nat -> writer_rep wr w log tail ->
  let '(st, wr', w') := append_commit m (40 + span_size (mv_payload m)) wr w in
  append_written m wr wr' w w' st log tail.
Proof.
  intros Hm Hmax Hsz R. pose proof (writer_rep_width _ _ _ _ R) as [_ Hw].
  pose proof (length_log_bytes log). unfold append_commit, append_written.
  destruct (append_clock m w Hm) as (ts & w0 & -> & Hts & E0 & Hts').
  apply (writer_rep_view _ _ w0) in R; [|done].
  rewrite (wp_offset _ _ _ _ R), Nat2Z.id, (wp_sequence _ _ _ _ R). cbv zeta.
  pose (e := message_entry (Z.of_nat (length log)) ts m).
  assert (He : entry_ok e) by (apply message_entry_ok; (done || split; lia)).
  destruct (append_store wr w0 log tail e R) as [R2 E2]; [done|].
  change (Z.to_nat wal_record_header_size) with 40%nat. cbn [e message_entry fst snd] in E2, R2.
  set (w2 := match mv_payload m with [] => _ | _ => _ end) in *.
  assert (F : exists fs w3, (if ww_flush_on_append wr then writer_flush wr w2 else (Status_ok, w2))
      = (fs, w3) /\ os w3 = os w2 /\
      (is_ok fs = true \/ code fs = StatusCode.io_error /\ ww_flush_on_append wr = true)).
  { destruct (ww_flush_on_append wr); [|by eexists _, _; split_and!; auto].
    pose proof (writer_flush_code wr w2 _ _ R2). pose proof (writer_flush_view wr w2).
    destruct (writer_flush wr w2) as [fs w3]. exists fs, w3. split_and!; [done..|]. simpl in *. tauto. }
  destruct F as (fs & w3 & -> & E3 & F). apply (writer_rep_view _ _ w3) in R2; [|done].
  rewrite <- E3, E0 in E2.
  destruct (is_ok fs) eqn:Efs; cbn [negb].
  - exists ts. split_and!; try done. cbn [is_ok].
    pose proof (writer_advance wr w3 log _ e R2 He eq_refl) as R3.
    rewrite (wp_offset _ _ _ _ R), (wp_sequence _ _ _ _ R) in R3.
    replace (40 + span_size (mv_payload m)) with (Z.of_nat (entry_size e)); [done|].
    unfold entry_size, span_size. simpl snd. lia.
  - destruct F as [?|[? ?]]; [done|]. exists ts. rewrite Efs. by split_and!.
Qed.

(** Every outcome of [append]. *)
Lemma append_spec m wr w log tail :
  message_widths m -> writer_rep wr w log tail ->
  let '(st, wr', w') := append m wr w in
  if negb (message_accepted m) then code st = StatusCode.invalid_argument /\ wr' = wr /\ w' = w
  else if (length tail <? 40 + length (mv_payload m))%nat
  then code st = StatusCode.out_of_space /\ wr' = wr /\ w' = w
  else append_written m wr wr' w w' st log tail.
Proof.
  intros Hm R. pose proof (append_guards m wr w log tail R) as G. unfold entry_size in G.
  cbn [snd] in G. destruct (message_accepted m) eqn:A; cbn [negb] in *; [|by destruct G as [d ->]].
  destruct (Nat.ltb_spec (length tail) (40 + length (mv_payload m))); [by destruct G as [d ->]|].
  rewrite G. apply append_commit_spec; try done.
  unfold message_accepted in A. apply andb_true_iff in A as [_ A]. by apply Z.leb_le in A.
Qed.

(** A created writer starts with the empty log in a file of zeros. *)
Lemma writer_create_path_spec path n flush w :
  in_width 64 n ->
  let '(e, w') := writer_create_path path n flush w in
  match e with
  | Value wr => writer_rep wr w' [] (replicate (Z.to_nat n) Byte.x00) /\
      path_ (ww_file wr) = path /\ ww_flush_on_append wr = flush /\
      40 <= n /\ os_fds (os w) !! fd_ (ww_file wr) = None /\
      os w' = opened_view (ww_file wr) (replicate (Z.to_nat n) Byte.x00) w
  | Error s => is_ok s = false /\ no_leak w w'
  end.
Proof.
  intros Hn. unfold writer_create_path. destruct (path_empty path); [by split|].
  unfold wal_record_header_size. destruct (Z.ltb_spec n 40); [by split|].
  destruct (negb (fits_size_t n)); [by split|].
  pose proof (mmap_create_spec path n true w Hn) as C.
  destruct (mmap_create path n true w) as [[f|s] w'].
  - destruct C as (O & Hp & Hs & _ & Hfd & _ & E). split_and!; try done.
  - destruct C as [Hs C]. split; [|done]. unfold Expected_of_status. apply normalize_not_ok.
Qed.

(** Destroying the writer leaves the file content. *)
Lemma writer_destroy_file wr w log tail :
  writer_rep wr w log tail ->
  os_files (os (mmap_destroy (ww_file wr) w)) !! path_ (ww_file wr) = Some (log_bytes log ++ tail).
Proof.
  intros [O _ _ _ _ _]. pose proof (mmap_close_spec _ _ _ O) as C. unfold mmap_destroy.
  destruct (mmap_close (ww_file wr) w) as [[s f'] w']. destruct C as (_ & -> & _).
  apply (own_file _ _ _ O).
Qed.
End WriterProofs.

(** ** Properties *)

(** C19. Every outcome of an append.  On a writer whose file holds a log, [append]
    rejects a message whose size field is wrong and a record that does not fit,
    touching neither the writer nor the system; otherwise the record, numbered
    after the log, is in the file behind the log: it extends the log on success, and
    when the flush fails the writer has not moved, with an I/O error reported. *)
Theorem wal_append_outcomes (W : Type) (P : Posix W) (L : PosixLaws W)
    (m : MessageView) (wr : WalWriter) (w : W) (log : list entry) (tail : list byte) :
  message_widths m -> writer_rep wr w log tail ->
  let '(st, wr', w') := append m wr w in
  if negb (message_accepted m) then code st = StatusCode.invalid_argument /\ wr' = wr /\ w' = w
  else if (length tail <? 40 + length (mv_payload m))%nat
  then code st = StatusCode.out_of_space /\ wr' = wr /\ w' = w
  else append_written m wr wr' w w' st log tail.
Proof. apply append_spec. Qed.

(** A writer on an empty 64-byte file, and a message of two bytes. *)
Definition toy_writer : WalWriter := mkWriter (mkMmapFile 3 4096 64 "a.wal" true) 0 0 0 false.
Definition toy_writer_world : ToyOs.world := (writer_create_path "a.wal" 64 false (ToyOs.boot [])).2.
Definition toy_message : MessageView :=
  mkMessageView (mkMessageHeader 0 7 2 1) [Byte.x0a; Byte.x0b].

Lemma toy_writer_rep : writer_rep toy_writer toy_writer_world [] (replicate 64 Byte.x00).
Proof. by split. Qed.

Lemma wal_append_outcomes_witness :
  writer_rep toy_writer toy_writer_world [] (replicate 64 Byte.x00) /\
  append_written toy_message toy_writer (append toy_message toy_writer toy_writer_world).1.2
    toy_writer_world (append toy_message toy_writer toy_writer_world).2
    (append toy_message toy_writer toy_writer_world).1.1 [] (replicate 64 Byte.x00).
Proof.
  assert (Hm : message_widths toy_message) by (vm_compute; repeat split; discriminate || reflexivity).
  split; [exact toy_writer_rep|].
  exact (wal_append_outcomes ToyOs.world ToyOs.posix ToyOs.posix_laws toy_message toy_writer
    toy_writer_world [] _ Hm toy_writer_rep).
Defined.
