(* ===== verification/WalRecovery.v ===== *)
(** * Recovery from a write-ahead log

    What WalReader::replay makes of any file content: termination, the round trip
    with WalWriter, torn files, and which corruptions the checksum catches. *)

From S2P Require Import Prelude Core Posix MmapFile WalFormat Wal.
#[local] Open Scope Z_scope.

(** ** The records of a file *)

(** [parses off tail vs s]: reading [tail], which starts at offset [off], gives the
    records [vs] and then stops with status [s]. *)
Inductive parses : nat -> list byte -> list WalRecordView -> Status -> Prop :=
  | parses_stop off tail s :
      parse_record tail = Error s -> parses off tail [] s
  | parses_record off tail e vs s :
      parse_record tail = Value e ->
      parses (off + entry_size e) (drop (entry_size e) tail) vs s ->
      parses off tail (mkRecordView e.1 e.2 (Z.of_nat off) :: vs) s.

(** The loop of [replay] on a given list of records. *)
Fixpoint visit_all {St} (visitor : WalRecordView -> St -> Status * St) (s : St)
    (vs : list WalRecordView) (stop : Status) : Status * St :=
  match vs with
  | [] => (if bool_decide (code stop = StatusCode.empty) then Status_ok else stop, s)
  | v :: vs =>
      let '(st, s) := visitor v s in
      if negb (is_ok st) then (st, s) else visit_all visitor s vs stop
  end.

(** The visitor that keeps what it sees. *)
Definition collect (v : WalRecordView) (acc : list WalRecordView) : Status * list WalRecordView :=
  (Status_ok, acc ++ [v]).

Fixpoint views (off : nat) (log : list entry) : list WalRecordView :=
  match log with
  | [] => []
  | e :: log => mkRecordView e.1 e.2 (Z.of_nat off) :: views (off + entry_size e) log
  end.

Lemma visit_all_collect vs stop : forall acc,
  visit_all collect acc vs stop =
    (if bool_decide (code stop = StatusCode.empty) then Status_ok else stop, acc ++ vs).
Proof.
  induction vs as [|v vs IH]; intros acc; simpl; [by rewrite app_nil_r|].
  by rewrite IH, <- app_assoc.
Qed.

(** Every file has a reading, and a short one. *)

Lemma parses_total n : forall tail off, (length tail <= n)%nat ->
  exists vs s, parses off tail vs s.
Proof.
  induction n as [n IH] using lt_wf_ind. intros tail off Hn.
  destruct (parse_record tail) as [e|s] eqn:P.
  - pose proof (parse_record_bounds _ _ P) as (_ & Hb & _).
    destruct (IH (length tail - entry_size e)%nat) with (tail := drop (entry_size e) tail)
      (off := (off + entry_size e)%nat) as (vs & s & Hvs).
    + unfold entry_size in *. lia.
    + by rewrite length_drop.
    + eexists _, s. by apply parses_record.
  - exists [], s. by apply parses_stop.
Qed.

Lemma parses_length off tail vs s : parses off tail vs s -> (40 * length vs <= length tail)%nat.
Proof.
  induction 1 as [|off tail e vs s Hp _ IH]; simpl length; [lia|].
  apply parse_record_bounds in Hp as (_ & Hb & _). rewrite length_drop in IH.
  unfold entry_size in *. lia.
Qed.

Section Replay.
Context {W : Type} `{PosixLaws W}.
Context {St : Type} (visitor : WalRecordView -> St -> Status * St).

Lemma replay_parses off tail vs stop : parses off tail vs stop ->
  forall fuel s r (w : W) c,
  (length vs < fuel)%nat -> tail = drop off c -> reader_at r w c off ->
  exists r' off', reader_at r' w c off' /\
    replay fuel visitor s r w =
      Done ((visit_all visitor s vs stop).1, (visit_all visitor s vs stop).2, r').
Proof.
  induction 1 as [off tail s P|off tail e vs stop P _ IH];
    intros [|fuel] s0 r w c Hf -> R; try (simpl in *; lia); simpl replay;
    rewrite (reader_next_parse r w c off R), P.
  - exists r, off. split; [done|]. simpl. by case_bool_decide.
  - cbn [visit_all]. destruct (visitor _ s0) as [st s1].
    pose proof (parse_record_bounds _ _ P) as (_ & Hb & _). rewrite length_drop in Hb.
    assert (R' : reader_at (mkReader (wr_file r) (Z.of_nat (off + entry_size e))
      (wr_records_read r ⊞ 1)) w c (off + entry_size e)).
    { destruct R. split; simpl; (done || lia). }
    destruct (is_ok st); simpl negb; cbv iota.
    + apply (IH fuel); [simpl in *; lia|by rewrite drop_drop|done].
    + eexists _, _. by split.
Qed.

(** The number of iterations never exceeds one per 40 bytes and one more. *)
Lemma replay_total s r (w : W) c off :
  reader_at r w c off ->
  exists vs stop r' off', parses off (drop off c) vs stop /\ reader_at r' w c off' /\
    replay (S (length c / 40)) visitor s r w =
      Done ((visit_all visitor s vs stop).1, (visit_all visitor s vs stop).2, r').
Proof.
  intros R. destruct (parses_total _ (drop off c) off (le_n _)) as (vs & stop & Hp).
  pose proof (parses_length _ _ _ _ Hp) as Hl. rewrite length_drop in Hl.
  assert (length vs <= length c / 40)%nat by (apply Nat.div_le_lower_bound; lia).
  destruct (replay_parses _ _ _ _ Hp (S (length c / 40)) s r w c) as (r' & off' & ? & ?);
    [lia|done|done|]. by exists vs, stop, r', off'.
Qed.
End Replay.

(** ** Reading what was written *)

(** Bytes that hold the header and the payload of a good record are read as it. *)
Lemma parse_of_header e tail :
  entry_ok e -> (entry_size e <= length tail)%nat -> deserialize_header tail = Value e.1 ->
  slice 40 (length e.2) tail = e.2 -> parse_record tail = Value e.
Proof.
  intros He Hl D S. unfold parse_record, span_size, wal_record_header_size, entry_size in *.
  destruct (Z.ltb_spec (Z.of_nat (length tail)) 40); [lia|].
  rewrite D, (eo_magic _ He), (entry_ok_shape _ He). simpl (_ =? 0). cbn [andb negb].
  rewrite (eo_payload_size _ He). unfold span_size. simpl is_ok. cbn [negb].
  destruct (Z.gtb_spec (40 + Z.of_nat (length e.2)) (Z.of_nat (length tail))); [lia|].
  rewrite Nat2Z.id, S. unfold validate_record_checksum. rewrite (eo_checksum _ He), Z.eqb_refl.
  by destruct e.
Qed.

Lemma parse_encode e rest : entry_ok e -> parse_record (encode e ++ rest) = Value e.
Proof.
  intros He. apply parse_of_header; [done|rewrite length_app, length_encode; lia| |].
  - unfold encode. rewrite <- app_assoc. by apply deserialize_serialize, entry_ok_widths.
  - unfold slice, encode. rewrite <- app_assoc.
    rewrite drop_app_length' by (by rewrite length_serialize_header). by rewrite take_app_length.
Qed.

Lemma is_zero_filled_replicate n : is_zero_filled (replicate n Byte.x00) = true.
Proof. induction n; [done|]. simpl. done. Qed.

Lemma is_zero_filled_spec bs :
  is_zero_filled bs = true <-> bs = replicate (length bs) Byte.x00.
Proof.
  induction bs as [|b bs IH]; [done|]. simpl. rewrite andb_true_iff, bool_decide_eq_true, IH.
  split; [by intros [-> <-]|]. intros [= -> E]. by rewrite <- E.
Qed.

Lemma parse_zeros n : parse_record (replicate n Byte.x00) = Error (mkStatus StatusCode.empty "").
Proof.
  unfold parse_record. rewrite is_zero_filled_replicate.
  destruct (span_size _ <? _) eqn:L; [done|].
  unfold span_size, wal_record_header_size in L. rewrite length_replicate in L.
  apply Z.ltb_ge in L. rewrite deserialize_fields by (rewrite length_replicate; lia).
  assert (S : forall i k, (i + k <= n)%nat ->
    slice i k (replicate n Byte.x00) = replicate k Byte.x00).
  { intros i k ?. unfold slice. rewrite drop_replicate, take_replicate. f_equal. lia. }
  rewrite !S by lia. done.
Qed.

Lemma parses_log log : forall off rest vs s,
  Forall entry_ok log -> parses (off + length (log_bytes log)) rest vs s ->
  parses off (log_bytes log ++ rest) (views off log ++ vs) s.
Proof.
  induction log as [|e log IH]; intros off rest vs s Hok Hp.
  { simpl in *. by rewrite Nat.add_0_r in Hp. }
  inversion Hok; subst. rewrite log_bytes_cons, <- app_assoc. cbn [views].
  rewrite <- app_comm_cons.
  apply parses_record; [by apply parse_encode|].
  rewrite drop_app_length' by (by rewrite length_encode).
  apply IH; [done|]. rewrite log_bytes_cons, length_app, length_encode in Hp.
  by rewrite <- Nat.add_assoc.
Qed.

Lemma parses_zero_tail log n :
  Forall entry_ok log ->
  parses 0 (log_bytes log ++ replicate n Byte.x00) (views 0 log) (mkStatus StatusCode.empty "").
Proof.
  intros Hok. rewrite <- (app_nil_r (views 0 log)). apply parses_log; [done|].
  apply parses_stop, parse_zeros.
Qed.

(** The two ways a complete header is rejected as corrupted. *)
Lemma parse_shape_error tail h :
  (40 <= length tail)%nat -> deserialize_header tail = Value h ->
  magic h <> 0 \/ is_zero_filled tail = false ->
  is_ok (validate_header_shape h) = false ->
  exists d, parse_record tail = Error (mkStatus StatusCode.corrupted_record d).
Proof.
  intros Hl D Hz Sh. unfold parse_record, span_size, wal_record_header_size.
  destruct (Z.ltb_spec (Z.of_nat (length tail)) 40); [lia|]. rewrite D, Sh. cbn [negb].
  assert (Z0 : (magic h =? 0) && is_zero_filled tail = false).
  { destruct Hz as [Hz| ->]; [|apply andb_false_r]. by rewrite (proj2 (Z.eqb_neq _ _) Hz). }
  rewrite Z0. revert Sh. unfold validate_header_shape.
  repeat match goal with |- context [if ?x then _ else _] => destruct x end; try done; by eexists.
Qed.

Lemma parse_checksum_error tail h :
  (40 <= length tail)%nat -> deserialize_header tail = Value h ->
  is_ok (validate_header_shape h) = true -> 40 + payload_size h <= span_size tail ->
  checksum h <> compute_record_checksum h (slice 40 (Z.to_nat (payload_size h)) tail) ->
  exists d, parse_record tail = Error (mkStatus StatusCode.corrupted_record d).
Proof.
  intros Hl D Sh Hs Hc. unfold parse_record, wal_record_header_size.
  destruct (Z.ltb_spec (span_size tail) 40); [unfold span_size in *; lia|].
  rewrite D, Sh. cbn [negb]. pose proof (proj1 (shape_ok h) Sh) as (-> & _).
  simpl (_ =? 0). cbn [andb]. destruct (Z.gtb_spec (40 + payload_size h) (span_size tail)); [lia|].
  cbv zeta. unfold validate_record_checksum. rewrite (proj2 (Z.eqb_neq _ _) Hc). by eexists.
Qed.

(** ** Torn files *)

(** A record cut short is a clean stop. *)
Lemma parse_torn e k :
  entry_ok e -> (k < entry_size e)%nat ->
  exists d, parse_record (take k (encode e)) = Error (mkStatus StatusCode.empty d).
Proof.
  intros He Hk. unfold parse_record, span_size, wal_record_header_size.
  rewrite length_take, length_encode. unfold entry_size in *.
  destruct (Z.ltb_spec (Z.of_nat (k `min` (40 + length e.2))) 40); [by eexists|].
  assert (E : take k (encode e) = serialize_header e.1 ++ take (k - 40) e.2).
  { unfold encode. rewrite take_app, length_serialize_header. f_equal.
    apply take_ge. rewrite length_serialize_header. lia. }
  rewrite E, deserialize_serialize by (by apply entry_ok_widths).
  rewrite (eo_magic _ He), (entry_ok_shape _ He). simpl (_ =? 0). cbn [andb].
  simpl is_ok. cbn [negb]. rewrite (eo_payload_size _ He). unfold span_size.
  destruct (Z.gtb_spec (40 + Z.of_nat (length e.2)) (Z.of_nat (k `min` (40 + length e.2))));
    [by eexists|lia].
Qed.

(** The records that end before byte [n]. *)
Fixpoint complete_prefix (n : nat) (log : list entry) : list entry :=
  match log with
  | [] => []
  | e :: log =>
      if (entry_size e <=? n)%nat then e :: complete_prefix (n - entry_size e) log else []
  end.

Lemma parses_truncated m log : forall n off, Forall entry_ok log ->
  exists d, parses off (take n (log_bytes log ++ replicate m Byte.x00))
              (views off (complete_prefix n log)) (mkStatus StatusCode.empty d).
Proof.
  induction log as [|e log IH]; intros n off Hok.
  { exists ""%string. apply parses_stop.
    change (log_bytes [] ++ replicate m Byte.x00) with (replicate m Byte.x00).
    rewrite take_replicate. apply parse_zeros. }
  inversion Hok; subst. rewrite log_bytes_cons, <- app_assoc. cbn [complete_prefix].
  destruct (Nat.leb_spec (entry_size e) n).
  - destruct (IH (n - entry_size e)%nat (off + entry_size e)%nat) as [d Hd]; [done|].
    exists d. rewrite take_app, length_encode, take_ge by (rewrite length_encode; lia).
    cbn [views]. apply parses_record; [by apply parse_encode|].
    by rewrite drop_app_length' by (by rewrite length_encode).
  - destruct (parse_torn e n) as [d Hd]; [done..|]. exists d. apply parses_stop.
    by rewrite take_app_le by (rewrite length_encode; lia).
Qed.

(** A record cut inside its first seven bytes and followed by preallocated zeros. *)
Lemma parse_torn_in_zeros e k n :
  entry_ok e -> (1 <= k <= 6)%nat -> (40 <= k + n)%nat ->
  exists d, parse_record (take k (encode e) ++ replicate n Byte.x00)
    = Error (mkStatus StatusCode.corrupted_record d).
Proof.
  intros He Hk Hn. set (b := take k (encode e) ++ replicate n Byte.x00).
  assert (Hlen : length b = (k + n)%nat).
  { unfold b. rewrite length_app, length_take, length_encode, length_replicate.
    unfold entry_size. lia. }
  pose proof (deserialize_fields b) as D. rewrite Hlen in D. specialize (D Hn).
  set (h := mkHeader _ _ _ _ _ _ _ _) in D.
  assert (Z0 : is_zero_filled b = false).
  { unfold b. destruct k; [lia|]. unfold encode. rewrite serialize_header_layout.
    unfold header_layout. rewrite (eo_magic _ He). reflexivity. }
  assert (Hh : header_size h = 0).
  { unfold h, slice. cbn [header_size]. unfold b.
    rewrite drop_app_ge by (rewrite length_take, length_encode; unfold entry_size; lia).
    rewrite drop_replicate, take_replicate, length_take, length_encode. unfold entry_size.
    replace (_ `min` _)%nat with 2%nat by lia. done. }
  apply (parse_shape_error b h); [lia|done|by right|].
  destruct (is_ok (validate_header_shape h)) eqn:Sh; [|done].
  apply shape_ok in Sh as (_ & _ & Sh & _). rewrite Hh in Sh. done.
Qed.

(** ** Corrupted records *)

(** The bytes the checksum covers: the record with the reserved bytes and the
    checksum field cleared. *)
Definition blank (b : list byte) : list byte :=
  splice 32 (replicate 4 Byte.x00) (splice 12 (replicate 4 Byte.x00) b).

Lemma le_bytes_value bs : le_bytes (length bs) (le_value bs) = bs.
Proof.
  apply le_value_inj; [by unfold le_bytes; rewrite length_map, length_seq|].
  apply le_value_bytes, le_value_width.
Qed.

Lemma le_bytes_slice n i b : (i + n <= length b)%nat -> le_bytes n (le_value (slice i n b)) = slice i n b.
Proof. intros H. rewrite <- (length_slice i n b H) at 1. apply le_bytes_value. Qed.

Lemma checksum_of_bytes b h :
  (40 <= length b)%nat -> deserialize_header b = Value h ->
  compute_record_checksum h (drop 40 b) = crc32 (blank b).
Proof.
  intros Hl. rewrite deserialize_fields by done. intros [= <-].
  rewrite compute_record_checksum_crc32, serialize_header_layout. f_equal.
  unfold header_layout, set_checksum; simpl magic; simpl version; simpl header_size;
    simpl payload_size; simpl sequence; simpl timestamp_ns; simpl checksum; simpl flags.
  rewrite !le_bytes_slice by lia. do 40 (destruct b as [|? b]; [simpl in Hl; lia|]). reflexivity.
Qed.

(** Where four consecutive changed bytes are always noticed: everywhere but in the
    payload size and the reserved bytes, and not across a border of the checksum. *)
Definition protected (k n : nat) : bool :=
  (k + n <=? 8)%nat || ((16 <=? k) && (k + n <=? 32))%nat ||
  ((32 <=? k) && (k + n <=? 36))%nat || (36 <=? k)%nat.

Lemma blank_splice k y b :
  (16 <= k /\ k + length y <= 32 \/ 36 <= k)%nat -> (36 <= length b)%nat ->
  (k + length y <= length b)%nat -> blank (splice k y b) = splice k y (blank b).
Proof.
  intros Hk Hl Hb. unfold blank.
  rewrite (splice_comm 12 k), (splice_comm 32 k);
    rewrite ?length_splice, ?length_replicate; rewrite ?length_splice, ?length_replicate; (done || lia).
Qed.

Lemma blank_checksum k y b :
  (32 <= k /\ k + length y <= 36)%nat -> (36 <= length b)%nat -> blank (splice k y b) = blank b.
Proof.
  intros Hk Hl. unfold blank.
  rewrite (splice_comm 12 k) by (rewrite ?length_replicate; lia).
  apply splice_inside; rewrite ?length_splice, ?length_replicate; rewrite ?length_replicate; lia.
Qed.

Lemma slice_blank k n b :
  (16 <= k /\ k + n <= 32 \/ 36 <= k)%nat -> (36 <= length b)%nat -> slice k n (blank b) = slice k n b.
Proof.
  intros Hk Hl. unfold blank.
  rewrite !slice_splice_disjoint; rewrite ?length_splice, ?length_replicate; rewrite ?length_replicate;
    (done || lia).
Qed.

Lemma length_blank b : (36 <= length b)%nat -> length (blank b) = length b.
Proof.
  intros. unfold blank. rewrite !length_splice; rewrite ?length_splice, ?length_replicate;
    rewrite ?length_replicate; (done || lia).
Qed.

(** The checked bytes change with the record. *)
Lemma crc_blank_splice k y b :
  (16 <= k /\ k + length y <= 32 \/ 36 <= k)%nat -> (40 <= length b)%nat ->
  (k + length y <= length b)%nat -> (length y <= 4)%nat ->
  crc32 (blank (splice k y b)) = crc32 (blank b) -> splice k y b = b.
Proof.
  intros Hk Hl Hb Hy. rewrite blank_splice by lia.
  pose proof (length_blank b ltac:(lia)) as Hlb.
  rewrite <- (splice_slice k (length y) (blank b)) at 2 by lia.
  assert (Hs : length (slice k (length y) (blank b)) = length y) by (apply length_slice; lia).
  unfold splice at 1 2. rewrite Hs. intros E%crc32_app_burst; [|lia..].
  rewrite E, slice_blank by lia. apply splice_slice. done.
Qed.

Lemma slice_app_l i n (b rest : list byte) :
  (i + n <= length b)%nat -> slice i n (b ++ rest) = slice i n b.
Proof.
  intros. unfold slice. rewrite drop_app_le, take_app_le; [done|rewrite length_drop; lia|lia].
Qed.

(** The header of an encoded record, field by field. *)
Lemma encode_fields e :
  entry_ok e ->
  le_value (slice 0 4 (encode e)) = magic e.1 /\ le_value (slice 4 2 (encode e)) = version e.1 /\
  le_value (slice 6 2 (encode e)) = header_size e.1 /\
  le_value (slice 8 4 (encode e)) = payload_size e.1 /\
  le_value (slice 32 4 (encode e)) = checksum e.1.
Proof.
  intros He. pose proof (deserialize_serialize e.1 e.2 (entry_ok_widths e He)) as D.
  change (serialize_header e.1 ++ e.2) with (encode e) in D.
  rewrite deserialize_fields in D by (rewrite length_encode; unfold entry_size; lia).
  apply (f_equal value) in D. cbn [value] in D. apply (f_equal (from_option id e.1)) in D.
  cbn [from_option id] in D.
  split_and!; [apply (f_equal magic D)|apply (f_equal version D)|apply (f_equal header_size D)
    |apply (f_equal payload_size D)|apply (f_equal checksum D)].
Qed.

Lemma slice_eq_of_value i n (b b' : list byte) :
  (i + n <= length b)%nat -> (i + n <= length b')%nat ->
  le_value (slice i n b) = le_value (slice i n b') -> slice i n b = slice i n b'.
Proof. intros ? ?. apply le_value_inj. by rewrite !length_slice. Qed.

Section Corruption.
Context (e : entry) (k : nat) (y rest : list byte).
Hypothesis He : entry_ok e.
Hypothesis Hk : (k + length y <= entry_size e)%nat.
Hypothesis Hy : (length y <= 4)%nat.
Hypothesis Hne : splice k y (encode e) <> encode e.
Abbreviation b' := (splice k y (encode e)).

Lemma length_corrupted : length b' = entry_size e.
Proof. rewrite length_splice; rewrite length_encode; done. Qed.

Lemma corrupted_header : exists h,
  deserialize_header (b' ++ rest) = Value h /\ deserialize_header b' = Value h /\
  magic h = le_value (slice 0 4 b') /\ version h = le_value (slice 4 2 b') /\
  header_size h = le_value (slice 6 2 b') /\ payload_size h = le_value (slice 8 4 b') /\
  checksum h = le_value (slice 32 4 b').
Proof.
  pose proof length_corrupted as L. unfold entry_size in L.
  rewrite !deserialize_fields by (rewrite ?length_app; lia). rewrite !slice_app_l by lia.
  eexists. split_and!; reflexivity.
Qed.

(** Changed magic, version or header size. *)
Lemma corrupted_shape :
  (k + length y <= 8)%nat ->
  exists d, parse_record (b' ++ rest) = Error (mkStatus StatusCode.corrupted_record d).
Proof.
  intros H8. destruct corrupted_header as (h & D & _ & Hm & Hv & Hh & _).
  pose proof length_corrupted as L. pose proof (length_encode e) as Le. unfold entry_size in *.
  apply (parse_shape_error _ h); [rewrite length_app; lia|done| |].
  - right. apply not_true_is_false. intros Z%is_zero_filled_spec.
    assert (B : forall i x, (i < 40)%nat -> encode e !! i = Some x -> x <> Byte.x00 ->
      (k <= i < k + length y)%nat).
    { intros i x Hi Hx Hx0. apply (f_equal (fun l => l !! i)) in Z.
      rewrite lookup_app_l, lookup_replicate_2, lookup_splice in Z by (rewrite ?length_app; lia).
      case_decide; [done|congruence]. }
    pose proof (B 0%nat Byte.x41 ltac:(lia)) as B0. pose proof (B 6%nat Byte.x28 ltac:(lia)) as B6.
    assert (k <= 0 < k + length y)%nat; [|assert (k <= 6 < k + length y)%nat; [|lia]].
    + apply B0; [|done]. simpl. by rewrite (eo_magic _ He).
    + apply B6; [|done]. simpl. by rewrite (eo_header_size _ He).
  - apply not_true_is_false. intros (E1 & E2 & E3 & _)%shape_ok. apply Hne.
    destruct (encode_fields e He) as (F1 & F2 & F3 & _).
    rewrite (eo_magic _ He), (eo_version _ He), (eo_header_size _ He) in *.
    apply (splice_window_eq 0 (4 + (2 + 2))); [lia..|].
    rewrite !slice_split. f_equal; [|f_equal]; apply slice_eq_of_value; try lia; simpl Nat.add;
      congruence.
Qed.

(** Changed bytes that leave the sizes alone. *)
Lemma corrupted_checksum :
  (16 <= k)%nat ->
  (k + length y <= 32 \/ 32 <= k /\ k + length y <= 36 \/ 36 <= k)%nat ->
  exists d, parse_record (b' ++ rest) = Error (mkStatus StatusCode.corrupted_record d).
Proof.
  intros H16 Hw. destruct corrupted_header as (h & D & D' & Hm & Hv & Hh & Hp & Hc).
  pose proof length_corrupted as L. pose proof (length_encode e) as Le.
  destruct (encode_fields e He) as (F1 & F2 & F3 & F4 & F5). unfold entry_size in *.
  rewrite slice_splice_disjoint in Hm, Hv, Hh, Hp by lia. rewrite F1 in Hm. rewrite F2 in Hv.
  rewrite F3 in Hh. rewrite F4, (eo_payload_size _ He) in Hp.
  apply (parse_checksum_error _ h); [rewrite length_app; lia|done| | |].
  - apply shape_ok. rewrite Hm, Hv, Hh, Hp. destruct He. done.
  - rewrite Hp. unfold span_size. rewrite length_app. lia.
  - rewrite Hp. unfold span_size. rewrite Nat2Z.id, slice_app_l by lia.
    assert (S : slice 40 (length e.2) b' = drop 40 b').
    { unfold slice. apply take_ge. rewrite length_drop. lia. }
    rewrite S, (checksum_of_bytes b' h) by (done || lia).
    assert (C : checksum e.1 = crc32 (blank (encode e))).
    { rewrite (eo_checksum _ He), <- (checksum_of_bytes (encode e) e.1).
      - reflexivity.
      - lia.
      - exact (deserialize_serialize e.1 e.2 (entry_ok_widths e He)). }
    rewrite Hc. intros E. apply Hne. destruct Hw as [Hw|[Hw|Hw]].
    + apply crc_blank_splice; try lia. rewrite <- C, <- E, <- F5.
      by rewrite slice_splice_disjoint by lia.
    + apply (splice_window_eq 32 4); [lia..|]. apply slice_eq_of_value; [lia..|].
      rewrite E, F5, C. by rewrite blank_checksum by lia.
    + apply crc_blank_splice; try lia. rewrite <- C, <- E, <- F5.
      by rewrite slice_splice_disjoint by lia.
Qed.

Lemma parse_corrupted :
  protected k (length y) = true ->
  exists d, parse_record (b' ++ rest) = Error (mkStatus StatusCode.corrupted_record d).
Proof.
  unfold protected. rewrite !orb_true_iff, !andb_true_iff, !Nat.leb_le. intros Hp.
  destruct (decide (k + length y <= 8)%nat); [by apply corrupted_shape|].
  apply corrupted_checksum; lia.
Qed.
End Corruption.

(** ** Writing a log and reading it back *)

Section RoundTrip.
Context {W : Type} `{PosixLaws W}.

Fixpoint run_appends (ms : list MessageView) (wr : WalWriter) (w : W)
    : list Status * WalWriter * W :=
  match ms with
  | [] => ([], wr, w)
  | m :: ms =>
      let '(st, wr, w) := append m wr w in
      let '(sts, wr, w) := run_appends ms wr w in (st :: sts, wr, w)
  end.
End RoundTrip.

(** The messages whose append succeeded. *)
Fixpoint accepted (ms : list MessageView) (sts : list Status) : list MessageView :=
  match ms, sts with
  | m :: ms, st :: sts => (if is_ok st then [m] else []) ++ accepted ms sts
  | _, _ => []
  end.

(** A record that keeps what its message carries. *)
Definition recorded (h : WalRecordHeader) (p : list byte) (m : MessageView) : Prop :=
  p = mv_payload m /\ flags h = mh_flags (mv_header m) /\
  (mh_timestamp_ns (mv_header m) <> 0 -> timestamp_ns h = mh_timestamp_ns (mv_header m)).

Definition no_io_error (st : Status) : bool := negb (bool_decide (code st = StatusCode.io_error)).

Section RoundTripProofs.
Context {W : Type} `{PosixLaws W}.

Lemma append_in_zeros m wr (w : W) log n :
  message_widths m -> writer_rep wr w log (replicate n Byte.x00) ->
  let '(st, wr', w') := append m wr w in
  ww_flush_on_append wr = false \/ no_io_error st = true ->
  exists add n', writer_rep wr' w' (log ++ add) (replicate n' Byte.x00) /\
    ww_file wr' = ww_file wr /\ ww_flush_on_append wr' = ww_flush_on_append wr /\
    Forall2 (fun e => recorded e.1 e.2) add (if is_ok st then [m] else []).
Proof.
  intros Hm R. pose proof (append_spec m wr w log _ Hm R) as A.
  destruct (append m wr w) as [[st wr'] w']. intros Hio.
  assert (K : is_ok st = false -> wr' = wr -> writer_rep wr w' log (replicate n Byte.x00) ->
    exists add n', writer_rep wr' w' (log ++ add) (replicate n' Byte.x00) /\
    ww_file wr' = ww_file wr /\ ww_flush_on_append wr' = ww_flush_on_append wr /\
    Forall2 (fun e => recorded e.1 e.2) add (if is_ok st then [m] else [])).
  { intros -> -> ?. exists [], n. by rewrite app_nil_r. }
  assert (K' : forall x, code st = x -> x <> StatusCode.ok -> is_ok st = false).
  { intros x <- ?. unfold is_ok. by apply bool_decide_eq_false. }
  destruct (negb (message_accepted m)).
  { destruct A as (Hc & -> & ->). apply K; [by eapply K'|done|done]. }
  destruct (_ <? _)%nat.
  { destruct A as (Hc & -> & ->). apply K; [by eapply K'|done|done]. }
  destruct A as (ts & He & Hts & _ & Hf & Hfl & A). destruct (is_ok st).
  - rewrite drop_replicate in A. eexists [_], _. split_and!; [exact A|done|done|].
    apply Forall2_cons; split; [|done]. by split_and!.
  - destruct A as (Hc & Hflush & _). unfold no_io_error in Hio.
    rewrite Hflush, Hc in Hio. by destruct Hio.
Qed.

Lemma run_appends_spec ms : forall wr (w : W) log n,
  Forall message_widths ms -> writer_rep wr w log (replicate n Byte.x00) ->
  let '(sts, wr', w') := run_appends ms wr w in
  ww_flush_on_append wr = false \/ forallb no_io_error sts = true ->
  exists add n', writer_rep wr' w' (log ++ add) (replicate n' Byte.x00) /\
    ww_file wr' = ww_file wr /\ Forall2 (fun e => recorded e.1 e.2) add (accepted ms sts).
Proof.
  induction ms as [|m ms IH]; intros wr w log n Hms R; simpl.
  { intros _. exists [], n. by rewrite app_nil_r. }
  inversion Hms; subst. pose proof (append_in_zeros m wr w log n) as A.
  destruct (append m wr w) as [[st wr1] w1]. specialize (A ltac:(done) R).
  specialize (IH wr1 w1). destruct (run_appends ms wr1 w1) as [[sts wr2] w2]. intros Hio.
  destruct A as (add1 & n1 & R1 & Hf1 & Hfl1 & F1).
  { destruct Hio as [?|[? ?]%andb_true_iff]; auto. }
  destruct (IH (log ++ add1) n1) as (add2 & n2 & R2 & Hf2 & F2); [done|done| |].
  { rewrite Hfl1. destruct Hio as [?|[? ?]%andb_true_iff]; auto. }
  exists (add1 ++ add2), n2. rewrite app_assoc. split_and!; [done|congruence|].
  by apply Forall2_app.
Qed.

Lemma reader_open_spec path (w : W) r w' :
  reader_open path w = (Value r, w') ->
  exists c, os_files (os w) !! path = Some c /\ reader_at r w' c 0.
Proof.
  unfold reader_open. pose proof (mmap_open_existing_spec path false w) as O.
  destruct (mmap_open_existing path false w) as [[f|s] w1]; [|done]. intros [= <- <-].
  destruct O as (c & Hc & O & _). exists c. split; [done|]. split; simpl; (done || lia).
Qed.

Lemma replay_collect r (w : W) c off vs stop :
  reader_at r w c off -> parses off (drop off c) vs stop -> (40 * length vs <= length c)%nat ->
  exists r', replay (S (length c / 40)) collect [] r w =
    Done (if bool_decide (code stop = StatusCode.empty) then Status_ok else stop, vs, r').
Proof.
  intros R Hp Hl.
  assert (length vs <= length c / 40)%nat by (apply Nat.div_le_lower_bound; lia).
  destruct (replay_parses collect _ _ _ _ Hp (S (length c / 40)) [] r w c)
    as (r' & _ & _ & E); [lia|done|done|].
  exists r'. rewrite E, visit_all_collect. done.
Qed.

Lemma length_views log : forall off, length (views off log) = length log.
Proof. induction log; intros; simpl; auto. Qed.

Lemma views_lookup log : forall off i v, views off log !! i = Some v ->
  exists e, log !! i = Some e /\ rv_header v = e.1 /\ rv_payload v = e.2.
Proof.
  induction log as [|e log IH]; intros off [|i] v; simpl; try done.
  - intros [= <-]. by exists e.
  - apply IH.
Qed.

Lemma views_recorded log ms : forall off,
  Forall2 (fun e => recorded e.1 e.2) log ms ->
  Forall2 (fun v => recorded (rv_header v) (rv_payload v)) (views off log) ms.
Proof. intros off F. revert off. induction F; intros; simpl; by constructor. Qed.
End RoundTripProofs.

(** ** Properties *)

(** C20. Replay always returns.  On any file content whatsoever, from any offset
    inside the file and with any visitor, [replay] finishes within one iteration
    per 40 bytes plus one, never leaves the file, and its result is the visitor run
    on the parsed records, with a clean stop turned into [ok]. *)
Theorem wal_replay_terminates (W : Type) (P : Posix W) (L : PosixLaws W) (St : Type)
    (visitor : WalRecordView -> St -> Status * St) (s : St) (r : WalReader) (w : W)
    (c : list byte) (off : nat) :
  reader_at r w c off ->
  exists vs stop r' off', parses off (drop off c) vs stop /\ reader_at r' w c off' /\
    replay (S (length c / 40)) visitor s r w =
      Done ((visit_all visitor s vs stop).1, (visit_all visitor s vs stop).2, r').
Proof. apply replay_total. Qed.

(** A reader on a file of garbage. *)
Definition toy_reader : WalReader := mkReader (mkMmapFile 3 4096 64 "a.wal" false) 0 0.
Definition garbage : list byte := replicate 64 Byte.xa5.
Definition garbage_world : ToyOs.world :=
  ToyOs.set_view (mkOs {["a.wal" := garbage]} {[3 := "a.wal"]} {[4096 := ("a.wal", 64)]})
    (ToyOs.boot []).

Lemma wal_replay_terminates_witness :
  reader_at toy_reader garbage_world garbage 0 /\
  exists vs stop r' off', parses 0 (drop 0 garbage) vs stop /\
    reader_at r' garbage_world garbage off' /\
    replay 2 collect [] toy_reader garbage_world =
      Done ((visit_all collect [] vs stop).1, (visit_all collect [] vs stop).2, r').
Proof.
  assert (R : reader_at toy_reader garbage_world garbage 0).
  { split; [by split; vm_compute|reflexivity|simpl; lia]. }
  split; [exact R|].
  exact (wal_replay_terminates ToyOs.world ToyOs.posix ToyOs.posix_laws _ collect [] toy_reader
    garbage_world garbage 0 R).
Defined.

(** C21. Write, close, reopen, replay.  After creating a log of any size, appending
    any messages and destroying the writer, a reader opened on the path replays
    with [ok] exactly the messages whose append reported success, in order, with
    their payload, flags and timestamp, numbered from 0; provided that the writer does not
    flush on append, or that no append reported [io_error], which is how a failed flush shows. *)
Theorem wal_roundtrip (W : Type) (P : Posix W) (L : PosixLaws W)
    (path : string) (n : Z) (flush : bool) (ms : list MessageView)
    (w w1 w2 w3 : W) (wr wr' : WalWriter) (sts : list Status) (r : WalReader) :
  in_width 64 n -> Forall message_widths ms ->
  writer_create_path path n flush w = (Value wr, w1) ->
  run_appends ms wr w1 = (sts, wr', w2) ->
  flush = false \/ forallb no_io_error sts = true ->
  reader_open path (mmap_destroy (ww_file wr') w2) = (Value r, w3) ->
  exists vs r', replay (S (Z.to_nat n / 40)) collect [] r w3 = Done (Status_ok, vs, r') /\
    Forall2 (fun v => recorded (rv_header v) (rv_payload v)) vs (accepted ms sts) /\
    forall i v, vs !! i = Some v -> sequence (rv_header v) = Z.of_nat i.
Proof.
  intros Hn Hms Hc Ha Hio Hr.
  pose proof (writer_create_path_spec path n flush w Hn) as C. rewrite Hc in C.
  destruct C as (R & Hp & Hf & _ & _ & E).
  pose proof (run_appends_spec ms wr w1 [] _ Hms R) as A. rewrite Ha, Hf in A.
  destruct (A Hio) as (log & k & R' & Hfile & F). clear A. simpl app in R'.
  pose proof (writer_destroy_file _ _ _ _ R') as D. rewrite Hfile, Hp in D.
  apply reader_open_spec in Hr as (c & Hcont & RA). rewrite Hfile, D in Hcont.
  injection Hcont as <-.
  assert (Hlen : length (log_bytes log ++ replicate k Byte.x00) = Z.to_nat n).
  { pose proof (own_size _ _ _ (wp_owns _ _ _ _ R')) as S'.
    pose proof (own_size _ _ _ (wp_owns _ _ _ _ R)) as S. rewrite Hfile in S'.
    change (log_bytes [] ++ ?x) with x in S. rewrite length_replicate in S. lia. }
  destruct (replay_collect r w3 _ 0 (views 0 log) _ RA
    (parses_zero_tail log k (wp_ok _ _ _ _ R'))) as [r' Hrep].
  { rewrite length_views, length_app. pose proof (length_log_bytes log). lia. }
  rewrite Hlen in Hrep. exists (views 0 log), r'. split_and!; [exact Hrep|by apply views_recorded|].
  intros i v (e & He & -> & _)%views_lookup. by apply (wp_numbered _ _ _ _ R').
Qed.

(** Two good messages around one whose size field is wrong. *)
Definition toy_messages : list MessageView :=
  [toy_message; mkMessageView (mkMessageHeader 0 7 3 1) [Byte.x0a];
   mkMessageView (mkMessageHeader 0 0 0 9) []].
Definition toy_created := writer_create_path "a.wal" 128 true (ToyOs.boot []).
Definition toy_created_writer : WalWriter :=
  mkWriter (mkMmapFile 3 4096 128 "a.wal" true) 0 0 0 true.
Definition toy_appended := run_appends toy_messages toy_created_writer toy_created.2.
Definition toy_opened :=
  reader_open "a.wal" (mmap_destroy (ww_file toy_appended.1.2) toy_appended.2).
Definition toy_opened_reader : WalReader := mkReader (mkMmapFile 3 4096 128 "a.wal" false) 0 0.

Lemma wal_roundtrip_witness :
  length (accepted toy_messages toy_appended.1.1) = 2%nat /\
  exists vs r', replay (S (Z.to_nat 128 / 40)) collect [] toy_opened_reader toy_opened.2
      = Done (Status_ok, vs, r') /\
    Forall2 (fun v => recorded (rv_header v) (rv_payload v)) vs
      (accepted toy_messages toy_appended.1.1) /\
    forall i v, vs !! i = Some v -> sequence (rv_header v) = Z.of_nat i.
Proof.
  split; [vm_compute; reflexivity|].
  refine (wal_roundtrip ToyOs.world ToyOs.posix ToyOs.posix_laws "a.wal" 128 true toy_messages
    (ToyOs.boot []) toy_created.2 toy_appended.2 toy_opened.2 toy_created_writer toy_appended.1.2
    toy_appended.1.1 toy_opened_reader _ _ _ _ _ _).
  - vm_compute. split; [discriminate|reflexivity].
  - repeat constructor; vm_compute; (discriminate || reflexivity).
  - vm_compute. reflexivity.
  - vm_compute. reflexivity.
  - right. vm_compute. reflexivity.
  - vm_compute. reflexivity.
Defined.

(** C22. A torn file is a clean stop.  Cut a written file after any number of
    bytes: replay still returns [ok] and delivers exactly the records that are
    complete before the cut. *)
Theorem wal_truncation (W : Type) (P : Posix W) (L : PosixLaws W)
    (log : list entry) (m n : nat) (r : WalReader) (w : W) :
  Forall entry_ok log ->
  reader_at r w (take n (log_bytes log ++ replicate m Byte.x00)) 0 ->
  exists r', replay (S (length (take n (log_bytes log ++ replicate m Byte.x00)) / 40))
      collect [] r w = Done (Status_ok, views 0 (complete_prefix n log), r').
Proof.
  intros Hok RA. destruct (parses_truncated m log n 0 Hok) as [d Hp].
  exact (replay_collect r w _ 0 _ _ RA Hp (parses_length _ _ _ _ Hp)).
Qed.

(** A log of two records, cut inside the second. *)
Definition toy_log : list entry :=
  [message_entry 0 7 toy_message; message_entry 1 8 toy_message].
Definition cut_content : list byte := take 70 (log_bytes toy_log ++ replicate 10 Byte.x00).
Definition cut_reader : WalReader := mkReader (mkMmapFile 3 4096 70 "a.wal" false) 0 0.
Definition file_world (c : list byte) : ToyOs.world :=
  ToyOs.set_view (mkOs {["a.wal" := c]} {[3 := "a.wal"]}
    {[4096 := ("a.wal", Z.of_nat (length c))]}) (ToyOs.boot []).

Lemma toy_log_ok : Forall entry_ok toy_log.
Proof.
  unfold toy_log. repeat (apply Forall_cons; split); try apply Forall_nil_2;
    apply message_entry_ok; vm_compute; repeat split; (discriminate || reflexivity).
Qed.

Lemma wal_truncation_witness :
  Forall entry_ok toy_log /\
  exists r', replay (S (length cut_content / 40)) collect [] cut_reader (file_world cut_content)
    = Done (Status_ok, views 0 (take 1 toy_log), r').
Proof.
  split; [exact toy_log_ok|].
  apply (wal_truncation ToyOs.world ToyOs.posix ToyOs.posix_laws toy_log 10 70 cut_reader
    (file_world cut_content) toy_log_ok).
  split; [by split; vm_compute|reflexivity|simpl; lia].
Defined.

(** C23. Corruption is detected.  Change a window of at most four consecutive
    bytes of a record that lies entirely within bytes 0 to 7 (magic, version, header size),
    within bytes 16 to 31 (sequence, timestamp), within the checksum field (bytes 32 to 35), or from
    byte 36 on (flags, payload); that is, one that touches neither the payload size nor
    the reserved bytes and crosses neither border of the checksum field (31/32 and 35/36).
    Replay then delivers exactly the records before it and reports [corrupted_record]. *)
Theorem wal_corruption_detected (W : Type) (P : Posix W) (L : PosixLaws W)
    (log : list entry) (e : entry) (k : nat) (y rest : list byte) (r : WalReader) (w : W) :
  Forall entry_ok log -> entry_ok e ->
  (k + length y <= entry_size e)%nat -> (length y <= 4)%nat -> protected k (length y) = true ->
  splice k y (encode e) <> encode e ->
  let c := log_bytes log ++ splice k y (encode e) ++ rest in
  reader_at r w c 0 ->
  exists r' d, replay (S (length c / 40)) collect [] r w
    = Done (mkStatus StatusCode.corrupted_record d, views 0 log, r').
Proof.
  intros Hlog He Hk Hy Hp Hne c RA.
  destruct (parse_corrupted e k y rest He Hk Hy Hne Hp) as [d Hd].
  assert (Pa : parses 0 c (views 0 log) (mkStatus StatusCode.corrupted_record d)).
  { rewrite <- (app_nil_r (views 0 log)). apply parses_log; [done|]. by apply parses_stop. }
  destruct (replay_collect r w c 0 _ _ RA Pa (parses_length _ _ _ _ Pa)) as [r' Hr].
  by exists r', d.
Qed.

Definition flipped_content : list byte :=
  log_bytes (take 1 toy_log) ++ splice 41 [Byte.xff] (encode (message_entry 1 8 toy_message)) ++ [].
Definition flipped_reader : WalReader := mkReader (mkMmapFile 3 4096 84 "a.wal" false) 0 0.

Lemma wal_corruption_detected_witness :
  protected 41 1 = true /\
  exists r' d, replay (S (length flipped_content / 40)) collect [] flipped_reader
      (file_world flipped_content)
    = Done (mkStatus StatusCode.corrupted_record d, views 0 (take 1 toy_log), r').
Proof.
  split; [reflexivity|].
  apply (wal_corruption_detected ToyOs.world ToyOs.posix ToyOs.posix_laws (take 1 toy_log)
    (message_entry 1 8 toy_message) 41 [Byte.xff] [] flipped_reader (file_world flipped_content)).
  - apply Forall_take, toy_log_ok.
  - pose proof toy_log_ok as F. by inversion_clear F as [|? ? ? F'].
  - vm_compute. lia.
  - simpl. lia.
  - reflexivity.
  - vm_compute. discriminate.
  - split; [by split; vm_compute|reflexivity|simpl; lia].
Defined.

(** The reserved header bytes are not protected.  The checksum is computed
    over a re-serialised header, so whatever bytes 12 to 15 of a record hold, the
    reader accepts it as the same record. *)
Theorem wal_reserved_unprotected (e : entry) (x rest : list byte) :
  entry_ok e -> length x = 4%nat ->
  parse_record (splice 12 x (encode e) ++ rest) = Value e.
Proof.
  intros He Hx. pose proof (length_encode e) as Le. unfold entry_size in Le.
  assert (Hl : length (splice 12 x (encode e)) = length (encode e)) by (apply length_splice; lia).
  assert (D : deserialize_header (encode e ++ rest) = Value e.1).
  { unfold encode. rewrite <- app_assoc. by apply deserialize_serialize, entry_ok_widths. }
  apply parse_of_header; [done|rewrite length_app, Hl, length_encode; lia| |].
  - rewrite <- D. rewrite !deserialize_fields by (rewrite length_app; lia).
    rewrite !slice_app_l by lia. by rewrite !slice_splice_disjoint by lia.
  - rewrite slice_app_l, slice_splice_disjoint by lia. unfold slice, encode.
    rewrite drop_app_length' by (by rewrite length_serialize_header). by apply take_ge.
Qed.

Lemma wal_reserved_unprotected_witness :
  parse_record (splice 12 (replicate 4 Byte.xff) (encode (message_entry 0 7 toy_message)) ++ [])
    = Value (message_entry 0 7 toy_message).
Proof.
  apply wal_reserved_unprotected; [|reflexivity].
  pose proof toy_log_ok as F. by inversion_clear F.
Defined.

(** A torn record in a preallocated file is reported as corruption.  When the
    cut is inside the first bytes of the header and the zeros the file was created
    with follow, the reader does not stop cleanly. *)
Theorem wal_torn_preallocated (e : entry) (k n : nat) :
  entry_ok e -> (1 <= k <= 6)%nat -> (40 <= k + n)%nat ->
  exists d, parse_record (take k (encode e) ++ replicate n Byte.x00)
    = Error (mkStatus StatusCode.corrupted_record d).
Proof. apply parse_torn_in_zeros. Qed.

Lemma wal_torn_preallocated_witness :
  exists d, parse_record (take 5 (encode (message_entry 0 7 toy_message)) ++ replicate 60 Byte.x00)
    = Error (mkStatus StatusCode.corrupted_record d).
Proof.
  apply wal_torn_preallocated; [|lia|lia].
  pose proof toy_log_ok as F. by inversion_clear F.
Defined.

(** A failed append can be replayed.  When [append] fails because its flush
    failed, and the file behind the log was still zero, the file parses to the log
    followed by the record whose append was reported as failed. *)
Theorem wal_failed_flush_visible (W : Type) (P : Posix W) (L : PosixLaws W)
    (m : MessageView) (wr wr' : WalWriter) (w w' : W) (log : list entry) (n : nat) (st : Status) :
  message_widths m -> writer_rep wr w log (replicate n Byte.x00) ->
  append m wr w = (st, wr', w') -> code st = StatusCode.io_error ->
  wr' = wr /\ exists e c, e.2 = mv_payload m /\
    os_files (os w') !! path_ (ww_file wr) = Some c /\
    parses 0 c (views 0 (log ++ [e])) (mkStatus StatusCode.empty "").
Proof.
  intros Hm R Ha Hc. pose proof (append_spec m wr w log _ Hm R) as A. rewrite Ha in A.
  destruct (negb _); [destruct A; congruence|]. destruct (_ <? _)%nat; [destruct A; congruence|].
  destruct A as (ts & He & _ & E & _ & _ & A).
  assert (Hst : is_ok st = false) by (unfold is_ok; by rewrite Hc). rewrite Hst in A.
  destruct A as (_ & _ & -> & _). split; [done|].
  eexists (message_entry _ ts m), _. split_and!; [done|rewrite E; apply lookup_insert_eq|].
  rewrite drop_replicate, app_assoc, <- log_bytes_snoc. apply parses_zero_tail.
  apply Forall_app_2; [apply (wp_ok _ _ _ _ R)|by apply Forall_singleton].
Qed.

(** The third system call that can fail is the flush. *)
Definition fail_created := writer_create_path "a.wal" 128 true
  (ToyOs.boot [false; false; false; true]).
Definition fail_appended := append toy_message toy_created_writer fail_created.2.

Lemma wal_failed_flush_visible_witness :
  code fail_appended.1.1 = StatusCode.io_error /\
  fail_appended.1.2 = toy_created_writer /\ exists e c, e.2 = mv_payload toy_message /\
    os_files (os fail_appended.2) !! "a.wal"%string = Some c /\
    parses 0 c (views 0 ([] ++ [e])) (mkStatus StatusCode.empty "").
Proof.
  split; [vm_compute; reflexivity|].
  apply (wal_failed_flush_visible ToyOs.world ToyOs.posix ToyOs.posix_laws toy_message
    toy_created_writer fail_appended.1.2 fail_created.2 fail_appended.2 [] 128 fail_appended.1.1).
  - vm_compute; repeat split; discriminate || reflexivity.
  - split; try done.
  - by rewrite <- !surjective_pairing.
  - vm_compute. reflexivity.
Defined.

(** A message whose eight-byte payload is longer than that of [toy_message]. *)
Definition long_message : MessageView :=
  mkMessageView (mkMessageHeader 0 7 8 0) (replicate 8 Byte.xee).
Definition stale_appended :=
  run_appends [long_message; toy_message] toy_created_writer fail_created.2.
Definition stale_opened :=
  reader_open "a.wal" (mmap_destroy (ww_file stale_appended.1.2) stale_appended.2).

(** A failed flush can poison the log.  A system on which one flush fails,
    a long message whose append reports that failure and a shorter one whose append
    succeeds afterwards: the rest of the first record stays behind the second, and
    replaying the file ends in [corrupted_record] although every record whose
    append succeeded is intact. *)
Theorem wal_stale_after_failed_flush :
  map code stale_appended.1.1 = [StatusCode.io_error; StatusCode.ok] /\
  match stale_opened.1 with
  | Value r =>
      match replay 4 collect [] r stale_opened.2 with
      | Done (st, vs, _) =>
          code st = StatusCode.corrupted_record /\ map rv_payload vs = [mv_payload toy_message]
      | _ => False
      end
  | Error _ => False
  end.
Proof. vm_compute. repeat split. Qed.
