(* ===== verification/PersistentBroker.v ===== *)
(** * The persistent broker

    persistent_broker.hpp: a broker that appends each value to the write-ahead log
    before it publishes it to the in-memory queue, and the typed replay of such a
    log.  Verified against the queue interface of Spsc.v, the broker of Broker.v, the
    log of Wal.v and the operating system of Posix.v. *)

From S2P Require Import Prelude Core Metrics Spsc Broker Posix MmapFile WalFormat Wal WalRecovery.
#[local] Open Scope Z_scope.

(** A trivially copyable type: [sizeof(T)], the object representation, and what
    [memcpy] into a value makes of such bytes. *)
Class TriviallyCopyable (T : Type) := {
  sizeof_T : Z;
  object_payload : T -> list byte;
  from_bytes : list byte -> T;
  sizeof_pos : 0 < sizeof_T;
  sizeof_width : in_width 64 sizeof_T;
  object_payload_size v : span_size (object_payload v) = sizeof_T;
  from_object_payload v : from_bytes (object_payload v) = v }.

(** The members of the class. *)
Record PersistentBrokerState (Q : Type) : Type := mkPersistent {
  pb_broker : BrokerState Q;
  pb_writer : WalWriter;
  pb_open_status : Status;
  pb_counters : BrokerCounters }.
Arguments mkPersistent {Q} _ _ _ _.
Arguments pb_broker {Q} _.
Arguments pb_writer {Q} _.
Arguments pb_open_status {Q} _.
Arguments pb_counters {Q} _.

(** [counters_.record_...()]. *)
Definition pb_bump {Q} (f : BrokerCounters -> BrokerCounters) (pb : PersistentBrokerState Q)
    : PersistentBrokerState Q :=
  mkPersistent (pb_broker pb) (pb_writer pb) (pb_open_status pb) (f (pb_counters pb)).

Module PersistentBroker.
Section PersistentBroker.
Context {Q T : Type} {Capacity : Z} `{SpscQueue Q T Capacity} `{TriviallyCopyable T}.
Context {W : Type} `{Posix W}.
Implicit Types (pb : PersistentBrokerState Q) (w : W).

(** The default member initialisers. *)
Definition init : PersistentBrokerState Q :=
  mkPersistent Broker.init WalWriter_default
    (mkStatus StatusCode.invalid_argument "persistent broker is not open") BrokerCounters_init.

Definition set_open_status (s : Status) pb : PersistentBrokerState Q :=
  mkPersistent (pb_broker pb) (pb_writer pb) s (pb_counters pb).

(** [writer_ = std::move(writer)]: the mapped file held before is closed. *)
Definition assign_writer (writer : WalWriter) pb w : PersistentBrokerState Q * W :=
  let '(file, _, w) := mmap_move_assign (ww_file (pb_writer pb)) (ww_file writer) w in
  (mkPersistent (pb_broker pb)
     (mkWriter file (ww_current_offset writer) (ww_next_sequence writer)
        (ww_records_written writer) (ww_flush_on_append writer))
     (pb_open_status pb) (pb_counters pb), w).

(** [open(const BrokerConfig&)]. *)
Definition open (config : BrokerConfig) pb w : Status * PersistentBrokerState Q * W :=
  if writer_valid (pb_writer pb) then
    let s := mkStatus StatusCode.invalid_argument "persistent broker is already open" in
    (s, set_open_status s pb, w)
  else
  let queue_status := validate_queue_config_for_capacity (bc_queue config) Capacity in
  if negb (is_ok queue_status) then (queue_status, set_open_status queue_status pb, w)
  else if negb (bc_enable_wal config) then
    let s := mkStatus StatusCode.invalid_argument
               "persistent broker requires WAL to be enabled" in
    (s, set_open_status s pb, w)
  else
  let wal_status := validate_wal_config_for_payload (bc_wal config) sizeof_T in
  if negb (is_ok wal_status) then (wal_status, set_open_status wal_status pb, w)
  else
    let '(writer_result, w) := writer_create (bc_wal config) w in
    match writer_result with
    | Error s => (s, set_open_status s pb, w)
    | Value writer =>
        let '(pb, w) := assign_writer writer pb w in
        (Status_ok, set_open_status Status_ok pb, w)
    end.

(** [open(const WalConfig&)]. *)
Definition open_wal (wal_config : WalConfig) pb w : Status * PersistentBrokerState Q * W :=
  let q := bc_queue BrokerConfig_default in
  open (mkBrokerConfig (mkQueueConfig Capacity (qc_spin_pause_iterations q) (qc_yield_after_spin q))
          wal_config true) pb w.

(** The constructors from a configuration, which drop the status. *)
Definition of_config (config : BrokerConfig) w : PersistentBrokerState Q * W :=
  let '(_, pb, w) := open config init w in (pb, w).
Definition of_wal_config (config : WalConfig) w : PersistentBrokerState Q * W :=
  let '(_, pb, w) := open_wal config init w in (pb, w).

Definition valid pb : bool := is_ok (pb_open_status pb) && writer_valid (pb_writer pb).
Definition open_status pb : Status := pb_open_status pb.
Definition capacity : Z := Capacity.
Definition durability_mode : BrokerDurabilityMode.t := BrokerDurabilityMode.wal_before_queue.
Definition metrics_snapshot pb : BrokerMetricsSnapshot := snapshot (pb_counters pb).
Definition reset_metrics pb : PersistentBrokerState Q := pb_bump counters_reset pb.

Definition append_to_wal (value : T) (flags : Z) pb w : Status * PersistentBrokerState Q * W :=
  let message := mkMessageView (mkMessageHeader 0 0 (wrap 32 sizeof_T) flags)
                   (object_payload value) in
  let '(s, writer, w) := append message (pb_writer pb) w in
  (s, mkPersistent (pb_broker pb) writer (pb_open_status pb) (pb_counters pb), w).

(** Both [try_publish] overloads: a value of type [T] is copied either way. *)
Definition try_publish (value : T) (flags : Z) pb w
    : option (Status * PersistentBrokerState Q * W) :=
  if negb (valid pb)
  then Some (pb_open_status pb, pb_bump record_publish_failed_invalid pb, w)
  else if Broker.full (pb_broker pb)
  then Some (mkStatus StatusCode.full "broker queue is full",
             pb_bump record_publish_failed_full pb, w)
  else
    let before_offset := ww_current_offset (pb_writer pb) in
    let '(wal_status, pb, w) := append_to_wal value flags pb w in
    if negb (is_ok wal_status)
    then Some (wal_status, pb_bump record_wal_failure pb, w)
    else
      let after_offset := ww_current_offset (pb_writer pb) in
      let pb := pb_bump (record_wal_write (if after_offset >=? before_offset
                           then after_offset ⊟ before_offset else 0)) pb in
      '(publish_status, broker) ← Broker.try_publish value (pb_broker pb);
      let pb := mkPersistent broker (pb_writer pb) (pb_open_status pb) (pb_counters pb) in
      if negb (is_ok publish_status)
      then Some (mkStatus StatusCode.unknown "queue publish failed after WAL append",
                 pb_bump record_wal_failure pb, w)
      else Some (Status_ok, pb_bump record_published pb, w).

Definition try_consume pb : option (Status * option T * PersistentBrokerState Q) :=
  if negb (valid pb)
  then Some (pb_open_status pb, None, pb_bump record_consume_failed_invalid pb)
  else
    '(s, out, broker) ← Broker.try_consume (pb_broker pb);
    let pb := mkPersistent broker (pb_writer pb) (pb_open_status pb) (pb_counters pb) in
    Some (s, out,
      if is_ok s then pb_bump record_consumed pb
      else if bool_decide (code s = StatusCode.empty) then pb_bump record_consume_failed_empty pb
      else pb).

Definition flush pb w : Status * PersistentBrokerState Q * W :=
  if negb (valid pb) then (pb_open_status pb, pb_bump record_wal_failure pb, w)
  else
    let '(s, w) := writer_flush (pb_writer pb) w in
    (s, pb_bump (if is_ok s then record_wal_flush else record_wal_failure) pb, w).

Definition empty pb : bool := Broker.empty (pb_broker pb).
Definition full pb : bool := Broker.full (pb_broker pb).
Definition size_approx pb : Z := Broker.size_approx (pb_broker pb).
Definition wal_current_offset pb : Z := ww_current_offset (pb_writer pb).
Definition wal_remaining_space pb : Z := remaining_space (pb_writer pb).
Definition wal_next_sequence pb : Z := ww_next_sequence (pb_writer pb).
Definition wal_records_written pb : Z := ww_records_written (pb_writer pb).

(** The implicit destructor: of the members only the writer holds resources. *)
Definition destroy pb w : W := mmap_destroy (ww_file (pb_writer pb)) w.

(** The lambda of [replay_with_metrics]; its state is the state of the caller's
    visitor, the counters and [failure_recorded]. *)
Definition typed_visitor {St} (visitor : T -> WalRecordHeader -> St -> Status * St)
    (record : WalRecordView) (s : St * BrokerCounters * bool)
    : Status * (St * BrokerCounters * bool) :=
  let '(st, counters, failure_recorded) := s in
  if negb (span_size (rv_payload record) =? sizeof_T)
  then (mkStatus StatusCode.corrupted_record
          "WAL payload size does not match persistent broker value type",
        (st, record_recovery_failure counters, true))
  else
    let value := from_bytes (rv_payload record) in
    let '(status, st) := visitor value (rv_header record) st in
    if is_ok status then (status, (st, record_recovered_record counters, failure_recorded))
    else (status, (st, record_recovery_failure counters, true)).

Definition replay_with_metrics {St} (fuel : nat) (path : string)
    (visitor : T -> WalRecordHeader -> St -> Status * St) (s : St) (counters : BrokerCounters) w
    : outcome (Status * St * BrokerCounters * W) :=
  let '(reader_result, w) := reader_open path w in
  match reader_result with
  | Error e => Done (e, s, record_recovery_failure counters, w)
  | Value reader =>
      match replay fuel (typed_visitor visitor) (s, counters, false) reader w with
      | Done (replay_status, (s, counters, failure_recorded), reader) =>
          let counters := if negb (is_ok replay_status) && negb failure_recorded
                          then record_recovery_failure counters else counters in
          Done (replay_status, s, counters, mmap_destroy (wr_file reader) w)
      | Undefined => Undefined
      | OutOfFuel => OutOfFuel
      end
  end.

(** [replay]: the counters are local. *)
Definition replay_path {St} (fuel : nat) (path : string)
    (visitor : T -> WalRecordHeader -> St -> Status * St) (s : St) w : outcome (Status * St * W) :=
  match replay_with_metrics fuel path visitor s BrokerCounters_init w with
  | Done (st, s, _, w) => Done (st, s, w)
  | Undefined => Undefined
  | OutOfFuel => OutOfFuel
  end.
End PersistentBroker.
End PersistentBroker.

(** ** Invariant *)

(** An open broker: its queue holds [l], its file holds [log] and then [tail]. *)
Record pb_rep {Q T : Type} (Capacity : Z) `{SpscQueue Q T Capacity} `{TriviallyCopyable T}
    {W} `{PosixLaws W} (pb : PersistentBrokerState Q) (w : W)
    (l : list T) (log : list entry) (tail : list byte) : Prop := {
  pr_broker : broker_rep Capacity (pb_broker pb) l;
  pr_writer : writer_rep (pb_writer pb) w log tail;
  pr_open : is_ok (pb_open_status pb) = true;
  pr_size : sizeof_T (T:=T) <= max_payload_size }.

(** The message [append_to_wal] builds. *)
Definition pb_message {T} `{TriviallyCopyable T} (value : T) (flags : Z) : MessageView :=
  mkMessageView (mkMessageHeader 0 0 (wrap 32 sizeof_T) flags) (object_payload value).

Section PersistentProofs.
Context {Q T : Type} {Capacity : Z} `{SpscQueueLaws Q T Capacity} `{TriviallyCopyable T}.
Context {W : Type} `{PosixLaws W}.
Implicit Types (pb : PersistentBrokerState Q) (w : W) (l : list T) (log : list entry)
  (tail : list byte).
Local Abbreviation rep := (pb_rep Capacity).

Lemma pb_message_ok (v : T) flags :
  sizeof_T (T:=T) <= max_payload_size -> in_width 32 flags ->
  message_widths (pb_message v flags) /\ message_accepted (pb_message v flags) = true /\
  length (object_payload v) = Z.to_nat (sizeof_T (T:=T)).
Proof.
  intros Hs Hf. pose proof (object_payload_size v) as E. pose proof (sizeof_width (T:=T)) as Hw.
  pose proof (sizeof_pos (T:=T)). unfold max_payload_size, u32_max in Hs.
  split_and!; [by split| |unfold span_size in E; lia].
  unfold message_accepted, pb_message. cbn [mv_header mh_payload_size mv_payload].
  rewrite E, wrap_id by (split; lia). rewrite Z.eqb_refl. simpl. apply Z.leb_le.
  unfold max_payload_size, u32_max. lia.
Qed.

Lemma pb_rep_valid pb w l log tail : rep pb w l log tail -> PersistentBroker.valid pb = true.
Proof.
  intros [_ [O _ _ _ _ _] Ho _]. unfold PersistentBroker.valid, writer_valid.
  by rewrite Ho, (owns_valid _ _ _ O).
Qed.

Lemma pb_rep_bump f pb w l log tail : rep pb w l log tail -> rep (pb_bump f pb) w l log tail.
Proof. by intros []. Qed.

Lemma broker_full_spec pb w l log tail :
  rep pb w l log tail ->
  Broker.full (pb_broker pb) = (Capacity <=? Z.of_nat (length l)).
Proof.
  intros [[_ R] _ _ _]. unfold Broker.full. rewrite (q_law_full _ _ R).
  pose proof (q_law_bound _ _ R).
  destruct (Z.leb_spec Capacity (Z.of_nat (length l))); case_bool_decide; (done || lia).
Qed.

(** The byte count of the metrics is the size of the record. *)
Lemma publish_bytes wr w wr' w' log e tail tail' :
  writer_rep wr w log tail -> writer_rep wr' w' (log ++ [e]) tail' ->
  (if ww_current_offset wr' >=? ww_current_offset wr
   then ww_current_offset wr' ⊟ ww_current_offset wr else 0) = Z.of_nat (entry_size e).
Proof.
  intros R R'. pose proof (writer_rep_width _ _ _ _ R') as [_ Hw].
  rewrite (wp_offset _ _ _ _ R), (wp_offset _ _ _ _ R').
  rewrite log_bytes_snoc, length_app, length_encode in *. rewrite Z.geb_leb.
  destruct (Z.leb_spec (Z.of_nat (length (log_bytes log)))
    (Z.of_nat (length (log_bytes log) + entry_size e))); [|lia].
  rewrite wrap_id; [lia|]. split; lia.
Qed.

(** What a publish that reaches the log did. *)
Definition published_to (v : T) (flags : Z) (st : Status) pb pb' w' l log tail : Prop :=
  exists ts, let e := message_entry (Z.of_nat (length log)) ts (pb_message v flags) in
    let rest := drop (entry_size e) tail in
    entry_ok e /\ ww_file (pb_writer pb') = ww_file (pb_writer pb) /\
    ww_flush_on_append (pb_writer pb') = ww_flush_on_append (pb_writer pb) /\
    if is_ok st then rep pb' w' (l ++ [v]) (log ++ [e]) rest /\
      pb_counters pb' = record_published (record_wal_write (40 + sizeof_T (T:=T)) (pb_counters pb))
    else code st = StatusCode.io_error /\ ww_flush_on_append (pb_writer pb) = true /\
      rep pb' w' l log (encode e ++ rest) /\
      pb_counters pb' = record_wal_failure (pb_counters pb).

(** Every outcome of a publish on an open broker; it is never [unknown]. *)
Lemma pb_publish_spec v flags pb w l log tail :
  in_width 32 flags -> rep pb w l log tail ->
  if Capacity <=? Z.of_nat (length l)
  then PersistentBroker.try_publish v flags pb w =
    Some (mkStatus StatusCode.full "broker queue is full", pb_bump record_publish_failed_full pb, w)
  else if (length tail <? 40 + Z.to_nat (sizeof_T (T:=T)))%nat
  then exists d, PersistentBroker.try_publish v flags pb w =
    Some (mkStatus StatusCode.out_of_space d, pb_bump record_wal_failure pb, w)
  else exists st pb' w', PersistentBroker.try_publish v flags pb w = Some (st, pb', w') /\
    published_to v flags st pb pb' w' l log tail.
Proof.
  intros Hf R. pose proof (broker_full_spec _ _ _ _ _ R) as Full.
  unfold PersistentBroker.try_publish. rewrite (pb_rep_valid _ _ _ _ _ R), Full. cbn [negb].
  destruct (Z.leb_spec Capacity (Z.of_nat (length l))) as [|Hroom]; [done|]. cbv zeta.
  destruct R as [Rb Rw Ho Hs]. destruct (pb_message_ok v flags Hs Hf) as (Hm & Hacc & Hlen).
  unfold PersistentBroker.append_to_wal. fold (pb_message v flags).
  pose proof (append_guards (pb_message v flags) _ _ _ _ Rw) as G.
  pose proof (append_spec (pb_message v flags) _ _ _ _ Hm Rw) as A. rewrite Hacc in *.
  cbn [negb] in *. unfold entry_size in G. cbn [snd mv_payload pb_message] in *. rewrite Hlen in *.
  destruct (length tail <? 40 + Z.to_nat sizeof_T)%nat.
  { destruct G as [d ->]. by exists d. }
  clear G. destruct (append _ _ _) as [[st wr'] w'].
  destruct A as (ts & He & _ & _ & Hfile & Hfl & A).
  destruct (is_ok st) eqn:Est; cbn [negb pb_writer pb_broker].
  - destruct (try_publish_spec v (pb_broker pb) l Rb) as (b' & Eb & Rb' & _).
    assert (Hpush : Fifo.push Capacity v l = (true, l ++ [v])).
    { destruct (Fifo_push_cases (Capacity:=Capacity) v l) as [[_ E]|[? _]]; [done|lia]. }
    rewrite Hpush in Eb, Rb'. cbn [fst snd] in *. cbn [pb_bump pb_broker pb_writer].
    rewrite Eb. cbn. eexists _, _, _. split; [reflexivity|]. exists ts.
    cbn [pb_writer pb_bump is_ok Status_ok code].
    split_and!; [done..|]. simpl is_ok. cbv iota. split; [by split|].
    rewrite (publish_bytes _ _ _ _ _ _ _ _ Rw A). unfold entry_size. cbn [snd message_entry].
    cbn [mv_payload pb_message]. rewrite Hlen. pose proof (sizeof_pos (T:=T)).
    replace (Z.of_nat (40 + Z.to_nat sizeof_T)) with (40 + sizeof_T (T:=T)) by lia. done.
  - eexists _, _, _. split; [reflexivity|]. exists ts. cbn [pb_writer pb_bump]. rewrite Est.
    destruct A as (? & ? & -> & ?). by split_and!.
Qed.

Lemma pb_consume_spec pb w l log tail :
  rep pb w l log tail ->
  exists st pb', PersistentBroker.try_consume pb = Some (st, (Fifo.pop l).1, pb') /\
    rep pb' w (Fifo.pop l).2 log tail /\ pb_writer pb' = pb_writer pb /\
    code st = match l with [] => StatusCode.empty | _ => StatusCode.ok end /\
    pb_counters pb' = (match l with [] => record_consume_failed_empty | _ => record_consumed end)
      (pb_counters pb).
Proof.
  intros R. unfold PersistentBroker.try_consume. rewrite (pb_rep_valid _ _ _ _ _ R). cbn [negb].
  destruct R as [Rb Rw Ho Hs].
  destruct (try_consume_spec (pb_broker pb) l Rb) as (b' & -> & Rb' & _). simpl.
  destruct l as [|v l]; eexists _, _; (split; [reflexivity|]); by split_and!.
Qed.

Lemma pb_flush_spec pb w l log tail :
  rep pb w l log tail ->
  let '(st, pb', w') := PersistentBroker.flush pb w in
  rep pb' w' l log tail /\ pb_writer pb' = pb_writer pb /\ os w' = os w /\
  pb_counters pb' = (if is_ok st then record_wal_flush else record_wal_failure) (pb_counters pb).
Proof.
  intros R. unfold PersistentBroker.flush. rewrite (pb_rep_valid _ _ _ _ _ R). cbn [negb].
  pose proof (writer_flush_view (pb_writer pb) w) as E.
  destruct (writer_flush (pb_writer pb) w) as [st w']. simpl in E. split_and!; try done.
  destruct R as [Rb Rw Ho Hs]. split; try done. simpl. by apply (writer_rep_view _ w).
Qed.

(** Opening: all or nothing. *)
Lemma pb_open_spec config w :
  in_width 64 (wc_file_size_bytes (bc_wal config)) ->
  let '(st, pb, w') := PersistentBroker.open (T:=T) (Capacity:=Capacity) config
    (PersistentBroker.init (T:=T) (Capacity:=Capacity)) w in
  if is_ok st
  then rep pb w' [] [] (replicate (Z.to_nat (wc_file_size_bytes (bc_wal config))) Byte.x00) /\
    path_ (ww_file (pb_writer pb)) = wc_path (bc_wal config) /\
    ww_flush_on_append (pb_writer pb) = wc_flush_on_commit (bc_wal config) /\
    pb_counters pb = BrokerCounters_init
  else PersistentBroker.valid pb = false /\ no_leak w w'.
Proof.
  intros Hn. unfold PersistentBroker.open. change (writer_valid _) with false. cbv iota zeta.
  assert (K : forall s w', is_ok s = false -> no_leak w w' ->
    PersistentBroker.valid (PersistentBroker.set_open_status s
      (PersistentBroker.init (T:=T) (Capacity:=Capacity)))
      = false /\ no_leak w w').
  { intros s w' Hs. by unfold PersistentBroker.valid; simpl; rewrite Hs. }
  destruct (is_ok (validate_queue_config_for_capacity _ _)) eqn:E1; cbn [negb].
  2: { rewrite E1. by apply K. }
  destruct (bc_enable_wal config); cbn [negb]; [|by apply K].
  destruct (is_ok (validate_wal_config_for_payload _ _)) eqn:E2; cbn [negb].
  2: { rewrite E2. by apply K. }
  apply validate_wal_config_ok in E2 as (Hp & Hs & Hfit); [|apply sizeof_width|done].
  unfold writer_create. destruct (is_ok (WalConfig_validate _)) eqn:E3; cbn [negb].
  2: { simpl. rewrite normalize_id by done. rewrite E3. by apply K. }
  pose proof (writer_create_path_spec (wc_path (bc_wal config)) _
    (wc_flush_on_commit (bc_wal config)) w Hn) as C.
  destruct (writer_create_path _ _ _ w) as [[wr|s] w1]; [|destruct C as [Hs' ?]; rewrite Hs'; by apply K].
  destruct C as (R & Hpath & Hfl & _).
  unfold PersistentBroker.assign_writer, mmap_move_assign. simpl.
  split_and!; try done. split; [apply broker_init_rep| |done|done].
  destruct wr as [f o sq rw fl]. by destruct f.
Qed.
End PersistentProofs.

(** ** Runs *)

Inductive pb_call (T : Type) : Type :=
  | PbPublish (v : T) (flags : Z) | PbConsume | PbFlush | PbResetMetrics.
Arguments PbPublish {T} v flags. Arguments PbConsume {T}. Arguments PbFlush {T}.
Arguments PbResetMetrics {T}.
Inductive pb_reply (T : Type) : Type :=
  | PbPublished (s : Status) | PbConsumed (s : Status) (out : option T)
  | PbFlushed (s : Status) | PbMetricsReset.
Arguments PbPublished {T} s. Arguments PbConsumed {T} s out. Arguments PbFlushed {T} s.
Arguments PbMetricsReset {T}.

Section Runs.
Context {Q T : Type} {Capacity : Z} `{SpscQueue Q T Capacity} `{TriviallyCopyable T}.
Context {W : Type} `{Posix W}.

Definition do_pb_call (c : pb_call T) (pb : PersistentBrokerState Q) (w : W)
    : option (pb_reply T * PersistentBrokerState Q * W) :=
  match c with
  | PbPublish v flags =>
      '(s, pb, w) ← PersistentBroker.try_publish v flags pb w; Some (PbPublished s, pb, w)
  | PbConsume => '(s, out, pb) ← PersistentBroker.try_consume pb; Some (PbConsumed s out, pb, w)
  | PbFlush => let '(s, pb, w) := PersistentBroker.flush pb w in Some (PbFlushed s, pb, w)
  | PbResetMetrics => Some (PbMetricsReset, PersistentBroker.reset_metrics pb, w)
  end.

Fixpoint do_pb_calls (cs : list (pb_call T)) (pb : PersistentBrokerState Q) (w : W)
    : option (list (pb_reply T) * PersistentBrokerState Q * W) :=
  match cs with
  | [] => Some ([], pb, w)
  | c :: cs =>
      '(r, pb, w) ← do_pb_call c pb w;
      '(rs, pb, w) ← do_pb_calls cs pb w;
      Some (r :: rs, pb, w)
  end.
End Runs.

(** The values whose publish succeeded, and the values consumed. *)
Definition published_value {T} (c : pb_call T) (r : pb_reply T) : list T :=
  match c, r with PbPublish v _, PbPublished s => if is_ok s then [v] else [] | _, _ => [] end.
Definition consumed_value {T} (r : pb_reply T) : list T :=
  match r with PbConsumed _ (Some v) => [v] | _ => [] end.
Fixpoint published_values {T} (cs : list (pb_call T)) (rs : list (pb_reply T)) : list T :=
  match cs, rs with
  | c :: cs, r :: rs => published_value c r ++ published_values cs rs
  | _, _ => []
  end.
Definition consumed_values {T} (rs : list (pb_reply T)) : list T := rs ≫= consumed_value.

Definition reply_status {T} (r : pb_reply T) : Status :=
  match r with
  | PbPublished s | PbConsumed s _ | PbFlushed s => s
  | PbMetricsReset => Status_ok
  end.
Definition flags_ok {T} (c : pb_call T) : Prop :=
  match c with PbPublish _ flags => in_width 32 flags | _ => True end.
Definition publish_io_error {T} (r : pb_reply T) : bool :=
  match r with PbPublished s => bool_decide (code s = StatusCode.io_error) | _ => false end.

Section RunProofs.
Context {Q T : Type} {Capacity : Z} `{SpscQueueLaws Q T Capacity} `{TriviallyCopyable T}.
Context {W : Type} `{PosixLaws W}.
Local Abbreviation rep := (pb_rep Capacity).

(** What one call, and then a run, keeps. *)
Definition pb_progress (cs : list (pb_call T)) (rs : list (pb_reply T))
    (pb pb' : PersistentBrokerState Q) (w' : W) (l : list T) (log : list entry)
    (tail : list byte) : Prop :=
  exists l' add tail',
    rep pb' w' l' (log ++ add) tail' /\
    map snd add = map object_payload (published_values cs rs) /\
    l ++ published_values cs rs = consumed_values rs ++ l' /\
    ww_file (pb_writer pb') = ww_file (pb_writer pb) /\
    ww_flush_on_append (pb_writer pb') = ww_flush_on_append (pb_writer pb) /\
    Forall (fun r => code (reply_status r) <> StatusCode.unknown) rs /\
    (ww_flush_on_append (pb_writer pb) = false \/ existsb publish_io_error rs = false ->
     tail = replicate (length tail) Byte.x00 -> tail' = replicate (length tail') Byte.x00).

(** A call that leaves the queue and the log alone. *)
Lemma pb_progress_same c r pb pb' w' l log tail :
  published_value c r = [] -> consumed_value r = [] -> pb_writer pb' = pb_writer pb ->
  code (reply_status r) <> StatusCode.unknown ->
  rep pb' w' l log tail -> pb_progress [c] [r] pb pb' w' l log tail.
Proof.
  intros Hp Hc Hw Hu R. exists l, [], tail. rewrite app_nil_r. simpl.
  unfold consumed_values. simpl. rewrite Hp, Hc, Hw, app_nil_r.
  split_and!; try done; [by rewrite app_nil_r|by apply Forall_singleton].
Qed.

Lemma do_pb_publish_progress v flags pb (w : W) l log tail :
  in_width 32 flags -> rep pb w l log tail ->
  exists r pb' w', do_pb_call (PbPublish v flags) pb w = Some (r, pb', w') /\
    pb_progress [PbPublish v flags] [r] pb pb' w' l log tail.
Proof.
  intros Hf R. pose proof (pb_publish_spec v flags pb w l log tail Hf R) as S. simpl.
  destruct (_ <=? _).
  { rewrite S. simpl. eexists _, _, _. split; [done|].
    apply pb_progress_same; try done. by apply pb_rep_bump. }
  destruct (_ <? _)%nat.
  { destruct S as [d ->]. simpl. eexists _, _, _. split; [done|].
    apply pb_progress_same; try done. by apply pb_rep_bump. }
  destruct S as (st & pb' & w' & -> & ts & He & Hfile & Hfl & S). simpl.
  eexists _, _, _. split; [done|]. unfold pb_progress, consumed_values. simpl.
  destruct (is_ok st) eqn:Est.
  - destruct S as [R' _]. eexists _, [_], _. split_and!; try done.
    + apply Forall_singleton. apply is_ok_true in Est. simpl. by rewrite Est.
    + intros _ E. rewrite E, drop_replicate. by rewrite length_replicate.
  - destruct S as (Hc & Hflush & R' & _). eexists l, [], _. rewrite app_nil_r.
    split_and!; try done.
    + by rewrite app_nil_r.
    + apply Forall_singleton. simpl. by rewrite Hc.
    + rewrite Hflush, Hc. simpl. by intros [?|?].
Qed.

Lemma do_pb_call_progress c pb (w : W) l log tail :
  flags_ok c -> rep pb w l log tail ->
  exists r pb' w', do_pb_call c pb w = Some (r, pb', w') /\
    pb_progress [c] [r] pb pb' w' l log tail.
Proof.
  intros Hf R. destruct c as [v flags| | |]; [by apply do_pb_publish_progress|..]; simpl.
  - destruct (pb_consume_spec pb w l log tail R) as (st & pb' & -> & R' & Hw & Hc & _). simpl.
    eexists _, _, _. split; [done|]. eexists _, [], tail. rewrite app_nil_r.
    unfold consumed_values. simpl. rewrite Hw, app_nil_r.
    split_and!; try done; [by destruct l|]. apply Forall_singleton. simpl. rewrite Hc. by destruct l.
  - pose proof (pb_flush_spec pb w l log tail R) as F.
    unfold PersistentBroker.flush in *. rewrite (pb_rep_valid _ _ _ _ _ R) in *. cbn [negb] in *.
    pose proof (writer_flush_code _ _ _ _ (pr_writer _ _ _ _ _ _ R)) as C.
    destruct (writer_flush (pb_writer pb) w) as [st w']. destruct F as (R' & Hw & _).
    eexists _, _, _. split; [done|]. apply pb_progress_same; try done. simpl in *.
    destruct C as [C%is_ok_true|C]; by rewrite C.
  - eexists _, _, _. split; [done|]. apply pb_progress_same; try done. by apply pb_rep_bump.
Qed.

Lemma pb_progress_trans c r cs rs pb pb1 pb2 (w1 w2 : W) l log tail :
  pb_progress [c] [r] pb pb1 w1 l log tail ->
  (forall l1 log1 tail1, rep pb1 w1 l1 log1 tail1 -> pb_progress cs rs pb1 pb2 w2 l1 log1 tail1) ->
  pb_progress (c :: cs) (r :: rs) pb pb2 w2 l log tail.
Proof.
  intros (l1 & add1 & tail1 & R1 & M1 & Q1 & F1 & G1 & U1 & Z1) Hrest.
  destruct (Hrest _ _ _ R1) as (l2 & add2 & tail2 & R2 & M2 & Q2 & F2 & G2 & U2 & Z2).
  exists l2, (add1 ++ add2), tail2. rewrite app_assoc. simpl published_values in *.
  rewrite app_nil_r in *. unfold consumed_values in *. simpl in *. rewrite app_nil_r in *.
  split_and!; try congruence.
  - by rewrite !map_app, M1, M2.
  - by rewrite app_assoc, Q1, <- !app_assoc, Q2.
  - by apply Forall_cons; split; [apply Forall_inv in U1|].
  - intros Hio Hz. apply Z2; [|apply Z1; [|done]].
    + rewrite G1. destruct Hio as [?|[? ?]%orb_false_iff]; auto.
    + destruct Hio as [?|[E ?]%orb_false_iff]; [auto|]. right. by rewrite E.
Qed.

Lemma do_pb_calls_progress cs : forall pb (w : W) l log tail,
  Forall flags_ok cs -> rep pb w l log tail ->
  exists rs pb' w', do_pb_calls cs pb w = Some (rs, pb', w') /\
    length rs = length cs /\ pb_progress cs rs pb pb' w' l log tail.
Proof.
  induction cs as [|c cs IH]; intros pb w l log tail Hf R; simpl.
  { eexists _, _, _. split_and!; [done..|]. exists l, [], tail.
    rewrite !app_nil_r. by split_and!. }
  inversion Hf; subst.
  destruct (do_pb_call_progress c pb w l log tail) as (r & pb1 & w1 & -> & P1); [done..|]. simpl.
  pose proof P1 as (l1 & add1 & tail1 & R1 & _).
  destruct (IH pb1 w1 _ _ _ ltac:(done) R1) as (rs & pb2 & w2 & E2 & Hlen & _). rewrite E2. simpl.
  eexists _, _, _. split_and!; [done|simpl; lia|]. apply (pb_progress_trans _ _ _ _ _ _ _ _ _ _ _ _ P1).
  intros l1' log1' tail1' R1'.
  destruct (IH pb1 w1 _ _ _ ltac:(done) R1') as (rs' & pb2' & w2' & E2' & _ & P2).
  rewrite E2 in E2'. by injection E2' as <- <- <-.
Qed.

(** ** Typed replay *)

(** A visitor that always succeeds, and the one that keeps what it sees. *)
Definition absorb {St} (g : T -> St -> St) (v : T) (h : WalRecordHeader) (s : St) : Status * St :=
  (Status_ok, g v s).
Definition keep : T -> WalRecordHeader -> list T -> Status * list T :=
  absorb (fun v acc => acc ++ [v]).

Lemma fold_keep (values : list T) : forall acc,
  fold_left (fun acc v => acc ++ [v]) values acc = acc ++ values.
Proof.
  induction values as [|v values IH]; intros acc; simpl; [by rewrite app_nil_r|].
  by rewrite IH, <- app_assoc.
Qed.

(** The typed visitor on records that hold values. *)
Lemma visit_typed {St} (g : T -> St -> St) values : forall vs s k d,
  map rv_payload vs = map object_payload values ->
  visit_all (PersistentBroker.typed_visitor (absorb g)) (s, k, false) vs (mkStatus StatusCode.empty d)
  = (Status_ok, (fold_left (fun s v => g v s) values s,
                 Nat.iter (length values) record_recovered_record k, false)).
Proof.
  induction values as [|v values IH]; intros [|r vs] s k d; try done.
  intros [= E1 E2].
  assert (V : PersistentBroker.typed_visitor (absorb g) r (s, k, false)
    = (Status_ok, (g v s, record_recovered_record k, false))).
  { unfold PersistentBroker.typed_visitor.
    by rewrite E1, object_payload_size, Z.eqb_refl, from_object_payload. }
  cbn [visit_all]. rewrite V. simpl. rewrite (IH _ _ _ _ E2), Nat.iter_swap. done.
Qed.

Lemma views_payload log : forall off, map rv_payload (views off log) = map snd log.
Proof. induction log; intros; simpl; [done|]. by f_equal. Qed.

Lemma pb_destroy_file pb (w : W) l log tail :
  rep pb w l log tail ->
  os_files (os (PersistentBroker.destroy pb w)) !! path_ (ww_file (pb_writer pb))
    = Some (log_bytes log ++ tail).
Proof. intros [_ R _ _]. by apply writer_destroy_file. Qed.

Lemma replay_with_metrics_spec {St} (g : T -> St -> St) s0 path k (w : W) log n values r w' :
  os_files (os w) !! path = Some (log_bytes log ++ replicate n Byte.x00) ->
  Forall entry_ok log -> map snd log = map object_payload values ->
  reader_open path w = (Value r, w') ->
  exists w'', PersistentBroker.replay_with_metrics
      (S (length (log_bytes log ++ replicate n Byte.x00) / 40)) path (absorb g) s0 k w
    = Done (Status_ok, fold_left (fun s v => g v s) values s0,
            Nat.iter (length values) record_recovered_record k, w'').
Proof.
  intros Hfile Hok Hval Hopen. unfold PersistentBroker.replay_with_metrics. rewrite Hopen.
  apply reader_open_spec in Hopen as (c & Hc & RA). rewrite Hfile in Hc. injection Hc as <-.
  pose proof (parses_zero_tail log n Hok) as Pz. pose proof (parses_length _ _ _ _ Pz) as Hl.
  pose proof (Nat.div_le_lower_bound _ 40 _ ltac:(lia) Hl).
  destruct (replay_parses (PersistentBroker.typed_visitor (absorb g)) _ _ _ _ Pz
    (S (length (log_bytes log ++ replicate n Byte.x00) / 40)) (s0, k, false) r w'
    (log_bytes log ++ replicate n Byte.x00))
    as (r' & off' & _ & ->); [lia|done|done|].
  rewrite (visit_typed g values) by (by rewrite views_payload). simpl. by eexists.
Qed.

(** Open, run, destroy, replay with a visitor that always succeeds. *)
Lemma pb_recovery {St} (g : T -> St -> St) s0 config cs rs st
    (pb pb' : PersistentBrokerState Q) (w w1 w2 w3 : W) r k :
  in_width 64 (wc_file_size_bytes (bc_wal config)) -> Forall flags_ok cs ->
  PersistentBroker.open (Capacity:=Capacity) config (PersistentBroker.init (Capacity:=Capacity)) w
    = (st, pb, w1) -> is_ok st = true ->
  do_pb_calls cs pb w1 = Some (rs, pb', w2) ->
  wc_flush_on_commit (bc_wal config) = false \/ existsb publish_io_error rs = false ->
  reader_open (wc_path (bc_wal config)) (PersistentBroker.destroy pb' w2) = (Value r, w3) ->
  exists w4, PersistentBroker.replay_with_metrics
      (S (Z.to_nat (wc_file_size_bytes (bc_wal config)) / 40))
      (wc_path (bc_wal config)) (absorb g) s0 k (PersistentBroker.destroy pb' w2)
    = Done (Status_ok, fold_left (fun s v => g v s) (published_values cs rs) s0,
            Nat.iter (length (published_values cs rs)) record_recovered_record k, w4).
Proof.
  intros Hn Hf Ho Hok Hcalls Hio Hr.
  pose proof (pb_open_spec (T:=T) (Capacity:=Capacity) config w Hn) as O.
  rewrite Ho, Hok in O. destruct O as (R & Hpath & Hfl & _).
  destruct (do_pb_calls_progress cs pb w1 _ _ _ Hf R) as (rs' & pb2 & w2' & E & _ & Pr).
  rewrite Hcalls in E. injection E as <- <- <-.
  destruct Pr as (l & log & tail & R' & M & _ & Hfile & _ & _ & Hz). rewrite Hfl in Hz.
  specialize (Hz Hio ltac:(by rewrite length_replicate)). simpl app in R'.
  pose proof (pb_destroy_file _ _ _ _ _ R') as D. rewrite Hfile, Hpath, Hz in D.
  destruct (replay_with_metrics_spec g s0 _ k _ _ _ _ _ _ D
    (wp_ok _ _ _ _ (pr_writer _ _ _ _ _ _ R')) M Hr) as [w4 E4].
  rewrite <- Hz in E4. exists w4.
  assert (Hlen : length (log_bytes log ++ tail) = Z.to_nat (wc_file_size_bytes (bc_wal config))).
  { pose proof (own_size _ _ _ (wp_owns _ _ _ _ (pr_writer _ _ _ _ _ _ R'))) as S'.
    pose proof (own_size _ _ _ (wp_owns _ _ _ _ (pr_writer _ _ _ _ _ _ R))) as S.
    rewrite Hfile in S'. change (log_bytes [] ++ ?x) with x in S. rewrite length_replicate in S. lia. }
  by rewrite Hlen in E4.
Qed.
End RunProofs.

(** ** Properties *)

(** C24. Every outcome of a durable publish.  On an open broker, a full queue and
    a full log are reported without writing anything; otherwise the record is in
    the file before the value is in the queue: on success both hold it and the
    byte and record counters are exact, on a failed flush the queue is unchanged.
    The internal [unknown] error cannot happen. *)
Theorem persistent_publish_outcomes (Q T : Type) (Capacity : Z) (QU : SpscQueue Q T Capacity)
    (QL : SpscQueueLaws Q T Capacity) (TC : TriviallyCopyable T)
    (W : Type) (P : Posix W) (L : PosixLaws W) (v : T) (flags : Z)
    (pb : PersistentBrokerState Q) (w : W) (l : list T) (log : list entry) (tail : list byte) :
  in_width 32 flags -> pb_rep Capacity pb w l log tail ->
  if Capacity <=? Z.of_nat (length l)
  then PersistentBroker.try_publish v flags pb w =
    Some (mkStatus StatusCode.full "broker queue is full", pb_bump record_publish_failed_full pb, w)
  else if (length tail <? 40 + Z.to_nat (sizeof_T (T:=T)))%nat
  then exists d, PersistentBroker.try_publish v flags pb w =
    Some (mkStatus StatusCode.out_of_space d, pb_bump record_wal_failure pb, w)
  else exists st pb' w', PersistentBroker.try_publish v flags pb w = Some (st, pb', w') /\
    published_to (Capacity:=Capacity) v flags st pb pb' w' l log tail.
Proof. apply pb_publish_spec. Qed.

(** A byte is its own representation. *)
#[export, refine] Instance byte_trivially_copyable : TriviallyCopyable byte := {|
  sizeof_T := 1; object_payload := fun b => [b]; from_bytes := fun bs => default Byte.x00 (bs !! 0%nat) |}.
Proof. all: by vm_compute || done. Defined.

Definition toy_config : BrokerConfig :=
  mkBrokerConfig (mkQueueConfig 2 0 false) (mkWalConfig "a.wal" 128 true) true.
Definition toy_broker_open : Status * PersistentBrokerState (SpscRingBuffer byte) * ToyOs.world :=
  PersistentBroker.open (T:=byte) (Capacity:=2) toy_config
    (PersistentBroker.init (T:=byte) (Capacity:=2)) (ToyOs.boot []).

Lemma toy_broker_rep :
  pb_rep (T:=byte) 2 toy_broker_open.1.2 toy_broker_open.2 [] [] (replicate 128 Byte.x00).
Proof.
  pose proof (pb_open_spec (Q:=SpscRingBuffer byte) (T:=byte) (Capacity:=2) toy_config
    (ToyOs.boot []) ltac:(vm_compute; split; [discriminate|reflexivity])) as H.
  apply H.
Qed.

Lemma persistent_publish_outcomes_witness :
  exists st pb' w', PersistentBroker.try_publish (T:=byte) (Capacity:=2) Byte.x2a 0
      toy_broker_open.1.2 toy_broker_open.2 = Some (st, pb', w') /\
    published_to (Capacity:=2) Byte.x2a 0 st toy_broker_open.1.2 pb' w' [] []
      (replicate 128 Byte.x00).
Proof.
  assert (Hf : in_width 32 0) by (vm_compute; split; [discriminate|reflexivity]).
  exact (persistent_publish_outcomes (SpscRingBuffer byte) byte 2 _ _ _ ToyOs.world ToyOs.posix
    ToyOs.posix_laws Byte.x2a 0 _ _ [] [] _ Hf toy_broker_rep).
Defined.

(** Log before queue.  After any calls on a freshly opened broker, on any
    system, the records of the log are exactly the values whose publish succeeded,
    in order, and these are the values consumed so far followed by the queue: no
    value reaches a consumer or the queue without being in the log. *)
Theorem persistent_wal_before_queue (Q T : Type) (Capacity : Z) (QU : SpscQueue Q T Capacity)
    (QL : SpscQueueLaws Q T Capacity) (TC : TriviallyCopyable T)
    (W : Type) (P : Posix W) (L : PosixLaws W) (config : BrokerConfig) (cs : list (pb_call T))
    (st : Status) (pb : PersistentBrokerState Q) (w w1 : W) :
  in_width 64 (wc_file_size_bytes (bc_wal config)) -> Forall flags_ok cs ->
  PersistentBroker.open (Capacity:=Capacity) config (PersistentBroker.init (Capacity:=Capacity)) w
    = (st, pb, w1) -> is_ok st = true ->
  exists rs pb' w2 l log tail, do_pb_calls cs pb w1 = Some (rs, pb', w2) /\
    pb_rep Capacity pb' w2 l log tail /\
    map snd log = map object_payload (published_values cs rs) /\
    published_values cs rs = consumed_values rs ++ l /\
    Forall (fun r => code (reply_status r) <> StatusCode.unknown) rs.
Proof.
  intros Hn Hf Ho Hok. pose proof (pb_open_spec (T:=T) (Capacity:=Capacity) config w Hn) as O.
  rewrite Ho, Hok in O. destruct O as [R _].
  destruct (do_pb_calls_progress cs pb w1 _ _ _ Hf R) as (rs & pb' & w2 & E & _ & Pr).
  destruct Pr as (l & log & tail & R' & M & Qe & _ & _ & U & _).
  by exists rs, pb', w2, l, log, tail.
Qed.

Definition toy_calls : list (pb_call byte) :=
  [PbPublish Byte.x01 0; PbPublish Byte.x02 7; PbPublish Byte.x03 0; PbConsume; PbFlush].

Lemma toy_calls_ok : Forall flags_ok toy_calls.
Proof. repeat constructor; simpl; vm_compute; discriminate. Qed.

Lemma persistent_wal_before_queue_witness :
  is_ok toy_broker_open.1.1 = true /\
  exists rs pb' w2 l log tail,
    do_pb_calls (Capacity:=2) toy_calls toy_broker_open.1.2 toy_broker_open.2
      = Some (rs, pb', w2) /\
    pb_rep 2 pb' w2 l log tail /\
    map snd log = map object_payload (published_values toy_calls rs) /\
    published_values toy_calls rs = consumed_values rs ++ l /\
    Forall (fun r => code (reply_status r) <> StatusCode.unknown) rs.
Proof.
  split; [vm_compute; reflexivity|].
  refine (persistent_wal_before_queue (SpscRingBuffer byte) byte 2 _ _ _ ToyOs.world ToyOs.posix
    ToyOs.posix_laws toy_config toy_calls toy_broker_open.1.1 toy_broker_open.1.2 (ToyOs.boot [])
    toy_broker_open.2 _ toy_calls_ok _ _).
  - vm_compute. split; [discriminate|reflexivity].
  - by rewrite <- !surjective_pairing.
  - vm_compute. reflexivity.
Defined.

(** C25. Recovery.  Open a broker, make any calls, destroy it, and replay its
    file: the replay returns [ok], delivers exactly the published values in order
    and counts each as recovered; provided that [flush_on_commit] is off, or that no publish
    reported [io_error], which is how a failed flush shows. *)
Theorem persistent_recovery (Q T : Type) (Capacity : Z) (QU : SpscQueue Q T Capacity)
    (QL : SpscQueueLaws Q T Capacity) (TC : TriviallyCopyable T)
    (W : Type) (P : Posix W) (L : PosixLaws W) (config : BrokerConfig) (cs : list (pb_call T))
    (rs : list (pb_reply T)) (st : Status) (pb pb' : PersistentBrokerState Q) (w w1 w2 w3 : W)
    (r : WalReader) (k : BrokerCounters) :
  in_width 64 (wc_file_size_bytes (bc_wal config)) -> Forall flags_ok cs ->
  PersistentBroker.open (Capacity:=Capacity) config (PersistentBroker.init (Capacity:=Capacity)) w
    = (st, pb, w1) -> is_ok st = true ->
  do_pb_calls cs pb w1 = Some (rs, pb', w2) ->
  wc_flush_on_commit (bc_wal config) = false \/ existsb publish_io_error rs = false ->
  reader_open (wc_path (bc_wal config)) (PersistentBroker.destroy pb' w2) = (Value r, w3) ->
  exists w4, PersistentBroker.replay_with_metrics
      (S (Z.to_nat (wc_file_size_bytes (bc_wal config)) / 40))
      (wc_path (bc_wal config)) keep [] k (PersistentBroker.destroy pb' w2)
    = Done (Status_ok, published_values cs rs,
            Nat.iter (length (published_values cs rs)) record_recovered_record k, w4).
Proof.
  intros Hn Hf Ho Hok Hc Hio Hr.
  destruct (pb_recovery (fun v acc => acc ++ [v]) [] _ _ _ _ _ _ _ _ _ _ _ k Hn Hf Ho Hok Hc Hio Hr)
    as [w4 E]. rewrite fold_keep in E. by exists w4.
Qed.

Definition toy_run : list (pb_reply byte) * PersistentBrokerState (SpscRingBuffer byte) * ToyOs.world :=
  default ([], toy_broker_open.1.2, toy_broker_open.2)
    (do_pb_calls (Capacity:=2) toy_calls toy_broker_open.1.2 toy_broker_open.2).
Definition toy_reopened := reader_open "a.wal" (PersistentBroker.destroy toy_run.1.2 toy_run.2).

Lemma persistent_recovery_witness :
  published_values toy_calls toy_run.1.1 = [Byte.x01; Byte.x02] /\
  exists w4, PersistentBroker.replay_with_metrics (S (Z.to_nat 128 / 40)) "a.wal"
      (keep (T:=byte)) [] BrokerCounters_init (PersistentBroker.destroy toy_run.1.2 toy_run.2)
    = Done (Status_ok, published_values toy_calls toy_run.1.1,
            Nat.iter (length (published_values toy_calls toy_run.1.1))
              record_recovered_record BrokerCounters_init, w4).
Proof.
  split; [vm_compute; reflexivity|].
  refine (persistent_recovery (SpscRingBuffer byte) byte 2 _ _ _ ToyOs.world ToyOs.posix
    ToyOs.posix_laws toy_config toy_calls toy_run.1.1 toy_broker_open.1.1 toy_broker_open.1.2
    toy_run.1.2 (ToyOs.boot []) toy_broker_open.2 toy_run.2 toy_reopened.2 toy_opened_reader
    BrokerCounters_init _ toy_calls_ok _ _ _ _ _).
  - vm_compute. split; [discriminate|reflexivity].
  - by rewrite <- !surjective_pairing.
  - vm_compute. reflexivity.
  - vm_compute. reflexivity.
  - right. vm_compute. reflexivity.
  - vm_compute. reflexivity.
Defined.

(** C29. Opening twice disables the broker.  A second [open] on a working broker is
    rejected, but it also overwrites the stored status: from then on the broker is
    not valid, publishing and consuming fail with that status even when values are
    queued, and opening again cannot repair it. *)
Theorem persistent_reopen_disables (Q T : Type) (Capacity : Z) (QU : SpscQueue Q T Capacity)
    (TC : TriviallyCopyable T) (W : Type) (P : Posix W) (L : PosixLaws W) (config : BrokerConfig)
    (pb : PersistentBrokerState Q) (w : W) (l : list T) (log : list entry) (tail : list byte) :
  pb_rep Capacity pb w l log tail ->
  exists st pb', PersistentBroker.open (Capacity:=Capacity) config pb w = (st, pb', w) /\
    code st = StatusCode.invalid_argument /\ PersistentBroker.valid pb' = false /\
    (forall v flags, PersistentBroker.try_publish (Capacity:=Capacity) v flags pb' w =
       Some (st, pb_bump record_publish_failed_invalid pb', w)) /\
    PersistentBroker.try_consume (T:=T) (Capacity:=Capacity) pb' =
      Some (st, None, pb_bump record_consume_failed_invalid pb') /\
    forall config', PersistentBroker.open (Capacity:=Capacity) config' pb' w = (st, pb', w).
Proof.
  intros [_ [O _ _ _ _ _] _ _]. unfold PersistentBroker.open, writer_valid.
  rewrite (owns_valid _ _ _ O). eexists _, _. split; [reflexivity|].
  unfold PersistentBroker.try_publish, PersistentBroker.try_consume, PersistentBroker.valid.
  simpl. rewrite (owns_valid _ _ _ O). done.
Qed.

Lemma persistent_reopen_disables_witness :
  exists st pb', PersistentBroker.open (T:=byte) (Capacity:=2) toy_config toy_broker_open.1.2
      toy_broker_open.2 = (st, pb', toy_broker_open.2) /\
    code st = StatusCode.invalid_argument /\ PersistentBroker.valid pb' = false /\
    (forall v flags, PersistentBroker.try_publish (T:=byte) (Capacity:=2) v flags pb'
       toy_broker_open.2 =
       Some (st, pb_bump record_publish_failed_invalid pb', toy_broker_open.2)) /\
    PersistentBroker.try_consume (T:=byte) (Capacity:=2) pb' =
      Some (st, None, pb_bump record_consume_failed_invalid pb') /\
    forall config', PersistentBroker.open (T:=byte) (Capacity:=2) config' pb' toy_broker_open.2
      = (st, pb', toy_broker_open.2).
Proof.
  exact (persistent_reopen_disables (SpscRingBuffer byte) byte 2 _ _ ToyOs.world ToyOs.posix
    ToyOs.posix_laws toy_config _ _ [] [] _ toy_broker_rep).
Defined.
