(* ===== verification/PersistentConcurrent.v ===== *)
(** * The persistent broker under a producer and a consumer thread

    persistent_broker.hpp run by two threads, as SPSC queues are meant to be used: one
    publishes and flushes, the other consumes.  The calls are taken apart down to the
    steps of the queue (SpscConcurrent.v): the validity checks, the two loads of
    [full()], the append to the log, each increment of a shared counter and each access
    to the queue are steps of their own, interleaved arbitrarily with the other thread
    and with arbitrarily stale loads.  The log and the mapped file belong to the
    producer.  A crash is any instant of such an execution: what survives is the file,
    with unknown bytes behind the offset up to which the log is complete. *)

From S2P Require Import Prelude Core Metrics Spsc SpscConcurrent TwoThreads Broker.
From S2P Require Import Posix MmapFile WalFormat Wal WalRecovery PersistentBroker.
#[local] Open Scope Z_scope.

(** ** What the producer learns from [full()] *)

Section Observation.
Context {T : Type} {Capacity : Z} {CAP : CapacityOk Capacity}.
Implicit Types (q : state (T:=T)) (pushed : list T) (n k : nat).
Local Abbreviation C := (Z.to_nat Capacity).

(** The stores to [head_] are the producer's own. *)
Definition own_stores q : Prop := forall k m, hist_head q !! k = Some m ->
  (v_tail (st_view m) <= v_tail (p_view q))%nat /\ (v_cons (st_view m) <= v_cons (p_view q))%nat.

(** The producer has seen enough of [tail_] to know that there is room. *)
Definition room_seen q pushed : Prop := (length pushed < v_tail (p_view q) + C)%nat.

(** Moving on between the calls of the queue. *)
Definition observe (V : view) q : state (T:=T) := set_producer (p_pc q) V q.

Lemma own_stores_init : own_stores (state_init Capacity).
Proof. intros [|k] m; simpl; [by intros [= <-]|]. by rewrite lookup_nil. Qed.

Lemma producer_step_own v q k e q' :
  own_stores q -> producer_step Capacity k v q = Step e q' ->
  own_stores q' /\ (v_tail (p_view q) <= v_tail (p_view q'))%nat.
Proof.
  intros O. unfold producer_step, own_stores.
  destruct (p_pc q) as [|w|w h|w h t|w h|w h].
  - intros [= <- <-]. by split.
  - destruct (load _ _ _ _ _) as [[z V]|] eqn:E; [|done]. intros [= <- <-].
    apply load_inv in E as (_ & m & _ & _ & ->). simpl. split; [|lia].
    intros j m' Hm. specialize (O j m' Hm). lia.
  - destruct (load _ _ _ _ _) as [[z V]|] eqn:E; [|done]. intros [= <- <-].
    apply load_inv in E as (? & m & _ & _ & ->). simpl in *. split; [|lia].
    intros j m' Hm. specialize (O j m' Hm). lia.
  - destruct (_ >=? _); intros [= <- <-]; by split.
  - destruct (access _ _ _ _ _) as [[[a cs] V]|] eqn:E; [|done]. intros [= <- <-].
    unfold access in E. destruct (cells q !! _); simpl in E; [|done].
    destruct (_ <? _)%nat; [done|]. destruct (slot_construct _ _) as [[]|]; simpl in E; [|done].
    injection E as <- <- <-. by split.
  - intros [= <- <-]. simpl. split; [|done]. intros j m' [Hm|[_ Hm]]%lookup_app_Some; [by apply (O j)|].
    apply list_lookup_singleton_Some in Hm as [_ <-]. simpl. done.
Qed.

Lemma consumer_step_frame q k e q' :
  consumer_step Capacity k q = Step e q' -> p_view q' = p_view q /\ hist_head q' = hist_head q.
Proof. unfold consumer_step. repeat case_match; intros; simplify_eq; done. Qed.

(** The two loads of [size_approx] by the producer, between calls. *)
Lemma observe_head q pushed n k z V :
  inv (Capacity:=Capacity) q pushed n -> own_stores q -> p_pc q = PIdle ->
  load acquire Head k (hist_head q) (p_view q) = Some (z, V) ->
  inv (Capacity:=Capacity) (observe V q) pushed n /\ own_stores (observe V q) /\
  z = wrap 64 (Z.of_nat (length pushed)).
Proof.
  intros I O Hpc (Hk & m & Hm & -> & ->)%load_inv. simpl in Hk. pose proof I as [].
  destruct (inv_hh k m Hm) as (Hv & [] & ? & ?). destruct (O k m Hm) as [? ?].
  rewrite Hpc in *. simpl in *. pose proof (lookup_lt_Some _ _ _ Hm).
  assert (k = length pushed) as -> by lia. split_and!; [| |done].
  - unfold observe. rewrite Hpc. apply inv_set_producer; simpl; try done; try lia. by rewrite Hpc.
  - intros j m' Hj. simpl. specialize (O j m' Hj). lia.
Qed.

Lemma observe_tail q pushed n k z V :
  inv (Capacity:=Capacity) q pushed n -> own_stores q -> p_pc q = PIdle ->
  load acquire Tail k (hist_tail q) (p_view q) = Some (z, V) ->
  inv (Capacity:=Capacity) (observe V q) pushed n /\ own_stores (observe V q) /\
  z = wrap 64 (Z.of_nat (v_tail V)).
Proof.
  intros I O Hpc (Hk & m & Hm & -> & ->)%load_inv. simpl in Hk. pose proof I as [].
  destruct (inv_ht k m Hm) as (Hv & [] & ? & ?).
  rewrite Hpc in *. simpl in *. pose proof (lookup_lt_Some _ _ _ Hm). split_and!.
  - unfold observe. rewrite Hpc. apply inv_set_producer; simpl; try done; try lia. by rewrite Hpc.
  - intros j m' Hj. simpl. specialize (O j m' Hj). lia.
  - simpl. rewrite Hv. do 2 f_equal. lia.
Qed.

(** [full()] returning false is a promise of room that the consumer cannot break. *)
Lemma observed_room q pushed n :
  inv (Capacity:=Capacity) q pushed n ->
  (wrap 64 (Z.of_nat (length pushed)) ⊟ wrap 64 (Z.of_nat (v_tail (p_view q))) >=? Capacity) = false ->
  room_seen q pushed.
Proof.
  intros [] Ht. pose proof (C_bounds (Capacity:=Capacity)) as (? & ? & ?).
  rewrite wrap_distance in Ht by (split; lia). rewrite Z.geb_leb in Ht. apply Z.leb_gt in Ht.
  unfold room_seen. lia.
Qed.

(** A push that has seen room does not fail. *)
Lemma push_with_room q pushed n k v e q' :
  inv (Capacity:=Capacity) q pushed n -> room_seen q pushed ->
  producer_step Capacity k v q = Step e q' -> forall w, e <> Some (PushFull w).
Proof.
  intros I R. unfold producer_step. destruct (p_pc q) as [|w|w h|w h t|w h|w h] eqn:Hpc;
    repeat case_match; intros Hs w'; simplify_eq; try done.
  match goal with E : (_ >=? _) = true |- _ => rename E into G end.
  rewrite (producer_distance _ _ _ _ _ _ I Hpc), Z.geb_leb in G. apply Z.leb_le in G.
  unfold room_seen in R. pose proof (C_bounds (Capacity:=Capacity)). lia.
Qed.
End Observation.

(** ** The two threads *)

Section Machine.
Context {T : Type} (Capacity : Z) `{TriviallyCopyable T} {W : Type} `{Posix W}.

Inductive producer_call : Type := Publish (v : T) (flags : Z) | Flush.

(** Program points of [try_publish] and [flush], named after what is to be done next. *)
Inductive producer_at : Type :=
  | PubIdle
  | PubValid (v : T) (flags : Z)
  | PubLoadHead (v : T) (flags : Z)
  | PubLoadTail (v : T) (flags head : Z)
  | PubFullTest (v : T) (flags head tail : Z)
  | PubAppend (v : T) (flags : Z)
  | PubBrokerValid (v : T)
  | PubPush (v : T)
  | PubBrokerCount (v : T) (pushed : bool)
  | PubResult (v : T) (publish_status : Status)
  | FlushValid
  | FlushWal.

(** Program points of [try_consume]. *)
Inductive consumer_at : Type :=
  | ConIdle
  | ConValid
  | ConBrokerValid
  | ConPop
  | ConBrokerCount (out : option T)
  | ConResult (status : Status) (out : option T).

(** The members of the broker, the world, and where the threads are. *)
Record machine : Type := mkMachine {
  m_queue : state (T:=T);
  m_config_status : Status;
  m_broker_counters : BrokerCounters;
  m_writer : WalWriter;
  m_open_status : Status;
  m_counters : BrokerCounters;
  m_world : W;
  m_prod : producer_at;
  m_cons : consumer_at }.

(** Calls that returned. *)
Inductive pc_event : Type :=
  | Published (v : T) (status : Status)
  | Flushed (status : Status)
  | Consumed (status : Status) (out : option T).

Inductive machine_result : Type :=
  | MStep (e : option pc_event) (s : machine)
  | MUndefined
  | MBlocked.

Definition set_mqueue (q : state) (s : machine) : machine :=
  mkMachine q (m_config_status s) (m_broker_counters s) (m_writer s) (m_open_status s)
    (m_counters s) (m_world s) (m_prod s) (m_cons s).
Definition set_wal (writer : WalWriter) (w : W) (s : machine) : machine :=
  mkMachine (m_queue s) (m_config_status s) (m_broker_counters s) writer (m_open_status s)
    (m_counters s) w (m_prod s) (m_cons s).
Definition goto_prod (at' : producer_at) (s : machine) : machine :=
  mkMachine (m_queue s) (m_config_status s) (m_broker_counters s) (m_writer s) (m_open_status s)
    (m_counters s) (m_world s) at' (m_cons s).
Definition goto_cons (at' : consumer_at) (s : machine) : machine :=
  mkMachine (m_queue s) (m_config_status s) (m_broker_counters s) (m_writer s) (m_open_status s)
    (m_counters s) (m_world s) (m_prod s) at'.

(** [counters_.record_...()] of the persistent broker, and of the broker inside. *)
Definition count (f : BrokerCounters -> BrokerCounters) (s : machine) : machine :=
  mkMachine (m_queue s) (m_config_status s) (m_broker_counters s) (m_writer s) (m_open_status s)
    (f (m_counters s)) (m_world s) (m_prod s) (m_cons s).
Definition broker_count (f : BrokerCounters -> BrokerCounters) (s : machine) : machine :=
  mkMachine (m_queue s) (m_config_status s) (f (m_broker_counters s)) (m_writer s) (m_open_status s)
    (m_counters s) (m_world s) (m_prod s) (m_cons s).

Definition m_valid (s : machine) : bool := is_ok (m_open_status s) && writer_valid (m_writer s).

Definition queue_full : Status := mkStatus StatusCode.full "broker queue is full".
Definition queue_empty : Status := mkStatus StatusCode.empty "broker queue is empty".
Definition push_failed : Status :=
  mkStatus StatusCode.unknown "queue publish failed after WAL append".

(** The call returns: the last increment of a counter, and the reply. *)
Definition prod_return (e : pc_event) (f : BrokerCounters -> BrokerCounters) (s : machine)
    : machine_result := MStep (Some e) (goto_prod PubIdle (count f s)).
Definition cons_return (e : pc_event) (f : BrokerCounters -> BrokerCounters) (s : machine)
    : machine_result := MStep (Some e) (goto_cons ConIdle (count f s)).

(** [append_to_wal] and the counters it leads to.  No other thread looks at the log. *)
Definition publish_append (v : T) (flags : Z) (s : machine) : machine_result :=
  let before_offset := ww_current_offset (m_writer s) in
  let '(wal_status, writer, w) := append (pb_message v flags) (m_writer s) (m_world s) in
  let s := set_wal writer w s in
  if negb (is_ok wal_status) then prod_return (Published v wal_status) record_wal_failure s
  else
    let after_offset := ww_current_offset writer in
    MStep None (goto_prod (PubBrokerValid v)
      (count (record_wal_write (if after_offset >=? before_offset
                                then after_offset ⊟ before_offset else 0)) s)).

(** One step of the producer: [k] resolves a load, [call] is the next call. *)
Definition prod_step (k : nat) (call : producer_call) (s : machine) : machine_result :=
  let q := m_queue s in
  match m_prod s with
  | PubIdle =>
      MStep None (goto_prod (match call with Publish v flags => PubValid v flags | Flush => FlushValid end) s)
  | PubValid v flags =>
      if negb (m_valid s)
      then prod_return (Published v (m_open_status s)) record_publish_failed_invalid s
      else MStep None (goto_prod (PubLoadHead v flags) s)
  | PubLoadHead v flags =>
      match load acquire Head k (hist_head q) (p_view q) with
      | Some (head, V) => MStep None (goto_prod (PubLoadTail v flags head) (set_mqueue (observe V q) s))
      | None => MBlocked
      end
  | PubLoadTail v flags head =>
      match load acquire Tail k (hist_tail q) (p_view q) with
      | Some (tail, V) => MStep None (goto_prod (PubFullTest v flags head tail) (set_mqueue (observe V q) s))
      | None => MBlocked
      end
  | PubFullTest v flags head tail =>
      if head ⊟ tail >=? Capacity
      then prod_return (Published v queue_full) record_publish_failed_full s
      else MStep None (goto_prod (PubAppend v flags) s)
  | PubAppend v flags => publish_append v flags s
  | PubBrokerValid v =>
      if negb (is_ok (m_config_status s))
      then MStep None (goto_prod (PubResult v (m_config_status s))
             (broker_count record_publish_failed_invalid s))
      else MStep None (goto_prod (PubPush v) s)
  | PubPush v =>
      match producer_step Capacity k v q with
      | Step e q =>
          MStep None (goto_prod (match push_reply e with
                                 | Some pushed => PubBrokerCount v pushed
                                 | None => PubPush v
                                 end) (set_mqueue q s))
      | Undefined_behaviour => MUndefined
      | Unreadable => MBlocked
      end
  | PubBrokerCount v false =>
      MStep None (goto_prod (PubResult v queue_full) (broker_count record_publish_failed_full s))
  | PubBrokerCount v true =>
      MStep None (goto_prod (PubResult v Status_ok) (broker_count record_published s))
  | PubResult v publish_status =>
      if negb (is_ok publish_status)
      then prod_return (Published v push_failed) record_wal_failure s
      else prod_return (Published v Status_ok) record_published s
  | FlushValid =>
      if negb (m_valid s) then prod_return (Flushed (m_open_status s)) record_wal_failure s
      else MStep None (goto_prod FlushWal s)
  | FlushWal =>
      let '(status, w) := writer_flush (m_writer s) (m_world s) in
      prod_return (Flushed status) (if is_ok status then record_wal_flush else record_wal_failure)
        (set_wal (m_writer s) w s)
  end.

(** One step of the consumer. *)
Definition cons_step (k : nat) (s : machine) : machine_result :=
  match m_cons s with
  | ConIdle => MStep None (goto_cons ConValid s)
  | ConValid =>
      if negb (m_valid s)
      then cons_return (Consumed (m_open_status s) None) record_consume_failed_invalid s
      else MStep None (goto_cons ConBrokerValid s)
  | ConBrokerValid =>
      if negb (is_ok (m_config_status s))
      then MStep None (goto_cons (ConResult (m_config_status s) None)
             (broker_count record_consume_failed_invalid s))
      else MStep None (goto_cons ConPop s)
  | ConPop =>
      match consumer_step Capacity k (m_queue s) with
      | Step e q =>
          MStep None (goto_cons (match pop_reply e with
                                 | Some out => ConBrokerCount out
                                 | None => ConPop
                                 end) (set_mqueue q s))
      | Undefined_behaviour => MUndefined
      | Unreadable => MBlocked
      end
  | ConBrokerCount None =>
      MStep None (goto_cons (ConResult queue_empty None) (broker_count record_consume_failed_empty s))
  | ConBrokerCount (Some v) =>
      MStep None (goto_cons (ConResult Status_ok (Some v)) (broker_count record_consumed s))
  | ConResult status out =>
      cons_return (Consumed status out)
        (if is_ok status then record_consumed
         else if bool_decide (code status = StatusCode.empty) then record_consume_failed_empty
         else id) s
  end.

Inductive machine_turn : Type := ProdTurn (k : nat) (call : producer_call) | ConsTurn (k : nat).
Definition machine_step (t : machine_turn) (s : machine) : machine_result :=
  match t with ProdTurn k call => prod_step k call s | ConsTurn k => cons_step k s end.

(** [message_flags_t] is 32 bits wide. *)
Definition turn_typed (t : machine_turn) : bool :=
  match t with ProdTurn _ (Publish _ flags) => bool_decide (0 <= flags < 2 ^ 32) | _ => true end.

(** Finite executions from an opened broker, with the calls that returned. *)
Inductive mexec (s0 : machine) : list pc_event -> machine -> Prop :=
  | mexec_start : mexec s0 [] s0
  | mexec_step tr s t e s' : mexec s0 tr s -> turn_typed t = true -> machine_step t s = MStep e s' ->
      mexec s0 (tr ++ option_list e) s'.

(** Both threads start on the broker that [open] has left. *)
Definition machine_start (pb : PersistentBrokerState (SpscRingBuffer T)) (w : W) : machine :=
  mkMachine (state_init Capacity) (config_status_ (pb_broker pb)) (counters_ (pb_broker pb))
    (pb_writer pb) (pb_open_status pb) (pb_counters pb) w PubIdle ConIdle.

Fixpoint run_machine (ts : list machine_turn) (tr : list pc_event) (s : machine)
    : option (list pc_event * machine) :=
  match ts with
  | [] => Some (tr, s)
  | t :: ts =>
      match turn_typed t, machine_step t s with
      | true, MStep e s' => run_machine ts (tr ++ option_list e) s'
      | _, _ => None
      end
  end.

Lemma run_machine_mexec s0 ts : forall tr s tr' s',
  mexec s0 tr s -> run_machine ts tr s = Some (tr', s') -> mexec s0 tr' s'.
Proof.
  induction ts as [|t ts IH]; simpl; intros tr s tr' s' E; [by intros [= <- <-]|].
  destruct (turn_typed t) eqn:Ew; [|done]. destruct (machine_step t s) eqn:Et; [|done..].
  apply IH. by econstructor.
Qed.
End Machine.

(** ** The invariant *)

Section Invariant.
Context {T : Type} {Capacity : Z} {CAP : CapacityOk Capacity} `{TriviallyCopyable T}.
Context {W : Type} `{PosixLaws W}.
Context (file : MmapFile).
Implicit Types (s : machine (T:=T) (W:=W)) (tr : list (pc_event (T:=T))) (e : pc_event (T:=T))
  (pushed : list T) (n : nat) (log : list entry) (tail : list byte).

(** The values whose publish has returned [ok], and the values handed out. *)
Definition oks tr : list T :=
  omap (fun e => match e with Published v st => if is_ok st then Some v else None | _ => None end) tr.
Definition takes tr : list T :=
  omap (fun e => match e with Consumed _ out => out | _ => None end) tr.

(** What a call adds to the counters of the broker. *)
Definition event_counts e (c : BrokerCounters) : BrokerCounters :=
  match e with
  | Published _ st =>
      if is_ok st then record_published (record_wal_write (40 + sizeof_T (T:=T)) c)
      else if bool_decide (code st = StatusCode.full) then record_publish_failed_full c
      else record_wal_failure c
  | Flushed st => if is_ok st then record_wal_flush c else record_wal_failure c
  | Consumed st _ => if is_ok st then record_consumed c else record_consume_failed_empty c
  end.
Definition counted tr : BrokerCounters :=
  fold_left (fun c e => event_counts e c) tr BrokerCounters_init.

(** A value that is in the log but not in the queue yet; one that is in the queue
    although its publish has not returned; one that has left the queue although its
    consume has not returned; a log write counted although the publish has not returned. *)
Definition unqueued (a : producer_at (T:=T)) : list T :=
  match a with PubBrokerValid v | PubPush v => [v] | _ => [] end.
Definition unreturned (a : producer_at (T:=T)) : list T :=
  match a with PubBrokerCount v _ | PubResult v _ => [v] | _ => [] end.
Definition untaken (a : consumer_at (T:=T)) : list T :=
  match a with ConBrokerCount out | ConResult _ out => option_list out | _ => [] end.
Definition in_flight (a : producer_at (T:=T)) (c : BrokerCounters) : BrokerCounters :=
  match a with
  | PubBrokerValid _ | PubPush _ | PubBrokerCount _ _ | PubResult _ _ =>
      record_wal_write (40 + sizeof_T (T:=T)) c
  | _ => c
  end.

Definition prod_inv (a : producer_at (T:=T)) (q : state (T:=T)) pushed : Prop :=
  match a with
  | PubIdle | FlushValid | FlushWal => p_pc q = PIdle
  | PubValid _ flags | PubLoadHead _ flags => p_pc q = PIdle /\ in_width 32 flags
  | PubLoadTail _ flags head =>
      p_pc q = PIdle /\ in_width 32 flags /\ head = wrap 64 (Z.of_nat (length pushed))
  | PubFullTest _ flags head tail =>
      p_pc q = PIdle /\ in_width 32 flags /\ head = wrap 64 (Z.of_nat (length pushed)) /\
      tail = wrap 64 (Z.of_nat (v_tail (p_view q)))
  | PubAppend _ flags => p_pc q = PIdle /\ in_width 32 flags /\ room_seen (Capacity:=Capacity) q pushed
  | PubBrokerValid _ => p_pc q = PIdle /\ room_seen (Capacity:=Capacity) q pushed
  | PubPush v => (forall x, pc_arg (p_pc q) = Some x -> x = v) /\ room_seen (Capacity:=Capacity) q pushed
  | PubBrokerCount _ b => p_pc q = PIdle /\ b = true
  | PubResult _ st => p_pc q = PIdle /\ is_ok st = true
  end.

Definition cons_inv (a : consumer_at (T:=T)) (q : state (T:=T)) : Prop :=
  match a with
  | ConPop => True
  | ConResult st out => c_pc q = CIdle /\
      match out with Some _ => is_ok st = true | None => code st = StatusCode.empty end
  | _ => c_pc q = CIdle
  end.

(** The statuses a call on an open broker can return. *)
Definition event_ok e : Prop :=
  match e with
  | Published _ st => code st ∈ [StatusCode.ok; StatusCode.full; StatusCode.out_of_space; StatusCode.io_error]
  | Flushed st => code st ∈ [StatusCode.ok; StatusCode.io_error]
  | Consumed st out => code st = match out with Some _ => StatusCode.ok | None => StatusCode.empty end
  end.

Record machine_inv tr s pushed n log tail : Prop := {
  mi_queue : inv (Capacity:=Capacity) (m_queue s) pushed n;
  mi_own : own_stores (m_queue s);
  mi_writer : writer_rep (m_writer s) (m_world s) log tail;
  mi_file : ww_file (m_writer s) = file;
  mi_valid : m_valid s = true;
  mi_config : is_ok (m_config_status s) = true;
  mi_size : sizeof_T (T:=T) <= max_payload_size;
  mi_log : map snd log = map object_payload (pushed ++ unqueued (m_prod s));
  mi_oks : oks tr ++ unreturned (m_prod s) = pushed;
  mi_takes : takes tr ++ untaken (m_cons s) = take n pushed;
  mi_prod : prod_inv (m_prod s) (m_queue s) pushed;
  mi_cons : cons_inv (m_cons s) (m_queue s);
  mi_counters : m_counters s = in_flight (m_prod s) (counted tr);
  mi_events : Forall event_ok tr }.

Lemma counted_snoc tr e : counted (tr ++ [e]) = event_counts e (counted tr).
Proof. unfold counted. by rewrite fold_left_app. Qed.
Lemma oks_snoc tr e : oks (tr ++ [e]) = oks tr ++ oks [e].
Proof. apply omap_app. Qed.
Lemma takes_snoc tr e : takes (tr ++ [e]) = takes tr ++ takes [e].
Proof. apply omap_app. Qed.

(** The producer moves on without changing what the ghost state says about it. *)
Lemma minv_goto_prod tr s pushed n log tail a :
  machine_inv tr s pushed n log tail ->
  unqueued a = unqueued (m_prod s) -> unreturned a = unreturned (m_prod s) ->
  (forall c, in_flight a c = in_flight (m_prod s) c) -> prod_inv a (m_queue s) pushed ->
  machine_inv tr (goto_prod a s) pushed n log tail.
Proof. intros [] E1 E2 E3 E4. split; simpl; rewrite ?E1, ?E2, ?E3; done. Qed.

Lemma minv_goto_cons tr s pushed n log tail a :
  machine_inv tr s pushed n log tail ->
  untaken a = untaken (m_cons s) -> cons_inv a (m_queue s) ->
  machine_inv tr (goto_cons a s) pushed n log tail.
Proof. intros [] E1 E2. split; simpl; rewrite ?E1; done. Qed.

Lemma minv_broker_count tr s pushed n log tail f :
  machine_inv tr s pushed n log tail -> machine_inv tr (broker_count f s) pushed n log tail.
Proof. by intros []. Qed.

(** The producer observes the queue between two calls. *)
Lemma minv_observe tr s pushed n log tail V :
  machine_inv tr s pushed n log tail ->
  inv (Capacity:=Capacity) (observe V (m_queue s)) pushed n -> own_stores (observe V (m_queue s)) ->
  prod_inv (m_prod s) (observe V (m_queue s)) pushed ->
  machine_inv tr (set_mqueue (observe V (m_queue s)) s) pushed n log tail.
Proof. intros []. by split. Qed.

(** A call of the producer returns. *)
Lemma minv_prod_return tr s pushed n log tail e f :
  machine_inv tr s pushed n log tail ->
  p_pc (m_queue s) = PIdle -> unqueued (m_prod s) = [] -> oks [e] = unreturned (m_prod s) ->
  takes [e] = [] -> event_ok e ->
  (forall c, event_counts e c = f (in_flight (m_prod s) c)) ->
  machine_inv (tr ++ [e]) (goto_prod PubIdle (count f s)) pushed n log tail.
Proof.
  intros [] Hpc E1 E2 E3 E4 E5. split; simpl; try done.
  - by rewrite mi_log0, E1.
  - by rewrite oks_snoc, E2, app_nil_r.
  - by rewrite takes_snoc, E3, app_nil_r.
  - by rewrite counted_snoc, E5, mi_counters0.
  - apply Forall_app_2; [done|by apply Forall_singleton].
Qed.

Lemma minv_set_wal tr s pushed n log tail wr w log' tail' :
  machine_inv tr s pushed n log tail -> writer_rep wr w log' tail' ->
  ww_file wr = ww_file (m_writer s) -> map snd log' = map snd log ->
  machine_inv tr (set_wal wr w s) pushed n log' tail'.
Proof.
  intros [] R Hf Hl. split; simpl; try done; [by rewrite Hf| |by rewrite Hl].
  unfold m_valid, writer_valid in *. simpl. by rewrite Hf.
Qed.

(** The append: the log holds the value before the queue does. *)
Lemma minv_append tr s pushed n log tail v flags r :
  machine_inv tr s pushed n log tail -> m_prod s = PubAppend v flags ->
  publish_append v flags s = r ->
  exists o s' log' tail', r = MStep o s' /\ machine_inv (tr ++ option_list o) s' pushed n log' tail'.
Proof.
  intros I Ha <-. pose proof I as [_ _ Rw Hfile _ _ Hs Hlog _ _ Hp _ Hc _].
  rewrite Ha in Hp, Hlog, Hc. destruct Hp as (Hpc & Hf & Hroom).
  destruct (pb_message_ok v flags Hs Hf) as (Hm & Hacc & Hlen).
  unfold publish_append. pose proof (append_spec (pb_message v flags) _ _ _ _ Hm Rw) as A.
  rewrite Hacc in A. cbn [negb] in A. destruct (append _ _ _) as [[st wr'] w'].
  destruct (_ <? _)%nat.
  - destruct A as (Hst & -> & ->). destruct (is_ok st) eqn:E; [apply is_ok_true in E; congruence|].
    cbn [negb]. eexists _, _, log, tail. split; [done|].
    apply minv_prod_return; simpl; rewrite ?Ha, ?E, ?Hst; try done.
    { by apply (minv_set_wal _ _ _ _ _ _ _ _ _ _ I). }
    rewrite !elem_of_cons; auto.
  - destruct A as (ts & _ & _ & _ & Hff & _ & A). destruct (is_ok st) eqn:E; cbn [negb].
    + set (en := message_entry _ _ _) in A.
      assert (Hb : (if ww_current_offset wr' >=? ww_current_offset (m_writer s)
        then ww_current_offset wr' ⊟ ww_current_offset (m_writer s) else 0) = 40 + sizeof_T (T:=T)).
      { rewrite (publish_bytes _ _ _ _ _ _ _ _ Rw A). unfold entry_size, en. cbn [snd message_entry].
        cbn [mv_payload pb_message]. rewrite Hlen. pose proof (sizeof_pos (T:=T)). lia. }
      cbv zeta. rewrite Hb. eexists None, _, _, _. split; [done|]. rewrite app_nil_r.
      destruct I. split; simpl; try done; rewrite ?Hff; try done.
      * unfold m_valid, writer_valid in *. simpl. by rewrite Hff.
      * rewrite map_app, Hlog, app_nil_r, map_app. done.
      * by rewrite Ha in mi_oks0.
      * by rewrite mi_counters0, Ha.
    + destruct A as (Hst & Hfl & -> & R). eexists _, _, log, _. split; [done|].
      apply minv_prod_return; simpl; rewrite ?Ha, ?E, ?Hst; try done.
      { by apply (minv_set_wal _ _ _ _ _ _ _ _ _ _ I). }
      rewrite !elem_of_cons; auto.
Qed.

(** A step of the queue inside the push. *)
Lemma minv_push tr s pushed n log tail v k :
  machine_inv tr s pushed n log tail -> m_prod s = PubPush v ->
  match producer_step Capacity k v (m_queue s) with
  | Undefined_behaviour => False
  | Unreadable => True
  | Step e q => exists pushed',
      machine_inv tr (goto_prod (match push_reply e with
        | Some b => PubBrokerCount v b | None => PubPush v end) (set_mqueue q s)) pushed' n log tail
  end.
Proof.
  intros I Ha. pose proof I as [Iq Io _ _ _ _ _ Hlog Hoks Htakes Hp Hcons Hc _].
  rewrite Ha in Hp, Hlog, Hoks, Hc. destruct Hp as [Harg Hroom].
  destruct (producer_step_refines _ _ _ k v Iq) as [Hub Hst].
  destruct (producer_step Capacity k v (m_queue s)) as [e q| |] eqn:E; [|done..].
  destruct (Hst e q eq_refl) as (pushed' & Iq' & _ & ->).
  destruct (producer_step_own v _ _ _ _ Io E) as [Io' Hv].
  pose proof (push_with_room _ _ _ _ _ _ _ Iq Hroom E) as Hnf.
  destruct (producer_step_arg Capacity k v _ _ _ Harg E) as [Hcp He].
  pose proof (inv_content_bound _ _ _ Iq) as [Hn _].
  assert (Hci : cons_inv (m_cons s) q) by (unfold cons_inv in *; by rewrite Hcp).
  destruct e as [[x|x|x|]|]; try done; [eexists|by destruct (Hnf x)|eexists].
  - destruct He as [-> Hpc]. destruct I. split; simpl; try done.
    + by rewrite Hlog, app_nil_r.
    + by rewrite <- Hoks, app_nil_r.
    + by rewrite Htakes, take_app_le.
  - rewrite app_nil_r in *. destruct I. split; simpl; try done; rewrite ?Ha in *; try done.
    split; [intros x Hx; congruence|]. unfold room_seen in *. lia.
Qed.

(** Every step of the producer keeps the invariant; none is undefined. *)
Lemma minv_prod_step tr s pushed n log tail k call :
  machine_inv tr s pushed n log tail -> turn_typed (ProdTurn k call) = true ->
  match prod_step Capacity k call s with
  | MUndefined => False
  | MBlocked => True
  | MStep e s' => exists pushed' log' tail', machine_inv (tr ++ option_list e) s' pushed' n log' tail'
  end.
Proof.
  intros I Ht. pose proof I as [Iq Io Rw _ Hval Hcfg _ _ _ _ Hp _ _ _].
  unfold prod_step. destruct (m_prod s) as [|v fl|v fl|v fl h|v fl h t|v fl|v|v|v b|v st| |] eqn:Ha.
  - exists pushed, log, tail. simpl. rewrite app_nil_r.
    apply minv_goto_prod; rewrite ?Ha; try (by destruct call). destruct call as [v fl|]; [|done].
    simpl in *. apply bool_decide_eq_true in Ht. done.
  - rewrite Hval. exists pushed, log, tail. simpl. rewrite app_nil_r.
    apply minv_goto_prod; rewrite ?Ha; done.
  - destruct (load _ _ _ _ _) as [[z V]|] eqn:E; [|done]. exists pushed, log, tail. simpl.
    rewrite app_nil_r. destruct Hp as [Hpc Hf].
    destruct (observe_head _ _ _ _ _ _ Iq Io Hpc E) as (Iq' & Io' & ->).
    apply minv_goto_prod; simpl; rewrite ?Ha; try done. apply minv_observe; simpl; rewrite ?Ha; done.
  - destruct (load _ _ _ _ _) as [[z V]|] eqn:E; [|done]. exists pushed, log, tail. simpl.
    rewrite app_nil_r. destruct Hp as (Hpc & Hf & Hh).
    destruct (observe_tail _ _ _ _ _ _ Iq Io Hpc E) as (Iq' & Io' & ->).
    apply minv_goto_prod; simpl; rewrite ?Ha; try done. apply minv_observe; simpl; rewrite ?Ha; done.
  - destruct Hp as (Hpc & Hf & -> & ->). destruct (_ >=? _) eqn:E.
    + exists pushed, log, tail. apply minv_prod_return; rewrite ?Ha; try done.
      simpl. rewrite !elem_of_cons. auto.
    + exists pushed, log, tail. simpl. rewrite app_nil_r. apply minv_goto_prod; simpl; rewrite ?Ha; try done.
      split_and!; try done. by eapply observed_room.
  - destruct (minv_append _ _ _ _ _ _ _ _ _ I Ha eq_refl) as (e & s' & log' & tail' & -> & ?).
    by exists pushed, log', tail'.
  - rewrite Hcfg. exists pushed, log, tail. simpl. rewrite app_nil_r.
    apply minv_goto_prod; simpl; rewrite ?Ha; try done. destruct Hp as [-> ?]. done.
  - pose proof (minv_push _ _ _ _ _ _ _ k I Ha) as P. destruct (producer_step _ _ _ _); [|done..].
    destruct P as [pushed' ?]. exists pushed', log, tail. simpl. by rewrite app_nil_r.
  - destruct Hp as [Hpc ->]. exists pushed, log, tail. simpl. rewrite app_nil_r.
    apply minv_goto_prod; simpl; rewrite ?Ha; try done. by apply minv_broker_count.
  - destruct Hp as [Hpc Hst]. rewrite Hst. exists pushed, log, tail.
    apply minv_prod_return; rewrite ?Ha; try done. simpl. rewrite !elem_of_cons. auto.
  - rewrite Hval. exists pushed, log, tail. simpl. rewrite app_nil_r.
    apply minv_goto_prod; rewrite ?Ha; done.
  - pose proof (writer_flush_view (m_writer s) (m_world s)) as Hw.
    pose proof (writer_flush_code _ _ _ _ Rw) as Hc.
    destruct (writer_flush _ _) as [st w]. simpl in *. exists pushed, log, tail.
    apply minv_prod_return; simpl; rewrite ?Ha; try done.
    + apply (minv_set_wal _ _ _ _ _ _ _ _ _ _ I); try done. by apply (writer_rep_view _ (m_world s)).
    + rewrite !elem_of_cons. destruct Hc as [Hc%is_ok_true|Hc]; auto.
    + intros c. by destruct (is_ok st).
Qed.

(** A call of the consumer returns, whatever the producer is doing. *)
Lemma minv_cons_return tr s pushed n log tail st out :
  machine_inv tr s pushed n log tail -> m_cons s = ConResult st out ->
  machine_inv (tr ++ [Consumed st out])
    (goto_cons ConIdle (count (if is_ok st then record_consumed
       else if bool_decide (code st = StatusCode.empty) then record_consume_failed_empty
       else id) s)) pushed n log tail.
Proof.
  intros [] Ha. rewrite Ha in mi_takes0, mi_cons0. destruct mi_cons0 as [Hpc Hst].
  assert (Hok : event_ok (Consumed st out)).
  { simpl. destruct out; [by apply is_ok_true|done]. }
  split; simpl; try done.
  - by rewrite oks_snoc, app_nil_r.
  - rewrite takes_snoc, app_nil_r, <- mi_takes0. by destruct out.
  - rewrite mi_counters0, counted_snoc. simpl. destruct (counted tr).
    destruct (is_ok st) eqn:E; [by destruct (m_prod s)|]. destruct out; [congruence|].
    rewrite Hst. by destruct (m_prod s).
  - apply Forall_app_2; [done|by apply Forall_singleton].
Qed.

Lemma minv_pop tr s pushed n log tail k :
  machine_inv tr s pushed n log tail -> m_cons s = ConPop ->
  match consumer_step Capacity k (m_queue s) with
  | Undefined_behaviour => False
  | Unreadable => True
  | Step e q => exists n',
      machine_inv tr (goto_cons (match pop_reply e with
        | Some out => ConBrokerCount out | None => ConPop end) (set_mqueue q s)) pushed n' log tail
  end.
Proof.
  intros I Ha. pose proof I as [Iq Io _ _ _ _ _ _ _ Htakes Hp _ _ _].
  rewrite Ha in Htakes. simpl in Htakes. rewrite app_nil_r in Htakes.
  destruct (consumer_step_refines _ _ _ k Iq) as [Hub Hst].
  destruct (consumer_step Capacity k (m_queue s)) as [e q| |] eqn:E; [|done..].
  destruct (Hst e q eq_refl) as (n' & Iq' & Hc & Hn'). exists n'.
  destruct (consumer_step_frame _ _ _ _ E) as [Hv Hh].
  destruct (consumer_step_returns Capacity k _ _ _ E) as [Hpp Hidle].
  assert (Hp' : prod_inv (m_prod s) q pushed).
  { unfold prod_inv, room_seen in *. by rewrite Hpp, Hv. }
  assert (Io' : own_stores q) by (unfold own_stores in *; by rewrite Hh, Hv).
  assert (Ht : takes tr ++ untaken (match pop_reply e with
    | Some out => ConBrokerCount out | None => ConPop end) = take n' pushed).
  { rewrite Htakes, Hn'. destruct e as [[x|x|x|]|]; simpl; try (by rewrite Nat.add_0_r, app_nil_r); [].
    simpl in Hc. inversion Hc as [|? ? Hd| |]; subst. rewrite Nat.add_1_r. symmetry. apply take_S_r.
    rewrite <- (Nat.add_0_r n), <- lookup_drop, <- Hd. done. }
  destruct I. split; simpl; try done. by destruct e as [[x|x|x|]|].
Qed.

Lemma minv_cons_step tr s pushed n log tail k :
  machine_inv tr s pushed n log tail ->
  match cons_step Capacity k s with
  | MUndefined => False
  | MBlocked => True
  | MStep e s' => exists n', machine_inv (tr ++ option_list e) s' pushed n' log tail
  end.
Proof.
  intros I. pose proof I as [Iq _ _ _ Hval Hcfg _ _ _ _ _ Hp _ _].
  unfold cons_step. destruct (m_cons s) as [| | | |out|st out] eqn:Ha.
  - exists n. simpl. rewrite app_nil_r. apply minv_goto_cons; rewrite ?Ha; done.
  - rewrite Hval. exists n. simpl. rewrite app_nil_r. apply minv_goto_cons; rewrite ?Ha; done.
  - rewrite Hcfg. exists n. simpl. rewrite app_nil_r. apply minv_goto_cons; rewrite ?Ha; done.
  - pose proof (minv_pop _ _ _ _ _ _ k I Ha) as P. destruct (consumer_step _ _ _); [|done..].
    destruct P as [n' ?]. exists n'. simpl. by rewrite app_nil_r.
  - destruct out; exists n; simpl; rewrite app_nil_r;
      (apply minv_goto_cons; simpl; rewrite ?Ha; [by apply minv_broker_count|done|done]).
  - exists n. by apply minv_cons_return.
Qed.

(** Every state of every execution. *)
Lemma mexec_inv s0 tr s log0 tail0 :
  machine_inv [] s0 [] 0 log0 tail0 -> mexec Capacity s0 tr s ->
  exists pushed n log tail, machine_inv tr s pushed n log tail.
Proof.
  intros I0. induction 1 as [|tr s t o s' _ (pushed & n & log & tail & I) Hty Hs]; [eauto|].
  destruct t as [k call|k]; simpl in Hs.
  - pose proof (minv_prod_step _ _ _ _ _ _ k call I Hty) as P. rewrite Hs in P.
    destruct P as (? & ? & ? & ?). eauto.
  - pose proof (minv_cons_step _ _ _ _ _ _ k I) as P. rewrite Hs in P. destruct P as [? ?]. eauto.
Qed.

Lemma minv_start (pb : PersistentBrokerState (SpscRingBuffer T)) (w : W) tail :
  pb_rep Capacity pb w [] [] tail -> pb_counters pb = BrokerCounters_init ->
  ww_file (pb_writer pb) = file ->
  machine_inv [] (machine_start Capacity pb w) [] 0 [] tail.
Proof.
  intros R Hc Hf. pose proof (pb_rep_valid _ _ _ _ _ R) as Hv. destruct R as [[Hb _] Rw Ho Hs].
  split; simpl; try done; [apply inv_init|apply own_stores_init].
Qed.
End Invariant.

(** ** After a crash *)

Section Crash.
Context {T : Type} `{TriviallyCopyable T} {W : Type} `{PosixLaws W}.
Implicit Types (values : list T).
Local Abbreviation visit := (visit_all (PersistentBroker.typed_visitor (keep (T:=T)))).

(** The records of published values come first, whatever follows them. *)
Lemma visit_keep_app values : forall vs1 vs2 acc k stop,
  map rv_payload vs1 = map object_payload values ->
  visit (acc, k, false) (vs1 ++ vs2) stop =
  visit (acc ++ values, Nat.iter (length values) record_recovered_record k, false) vs2 stop.
Proof.
  induction values as [|v values IH]; intros [|r vs1] vs2 acc k stop; try done.
  { intros _. by rewrite app_nil_r. }
  intros [= E1 E2].
  assert (V : PersistentBroker.typed_visitor keep r (acc, k, false)
    = (Status_ok, (acc ++ [v], record_recovered_record k, false))).
  { unfold PersistentBroker.typed_visitor, keep, absorb.
    by rewrite E1, object_payload_size, Z.eqb_refl, from_object_payload. }
  rewrite <- app_comm_cons. cbn [visit_all]. rewrite V. simpl negb. cbv iota.
  by rewrite (IH _ _ _ _ _ E2), Nat.iter_swap, <- app_assoc.
Qed.

(** Nothing that is visited takes back what was delivered. *)
Lemma visit_keep_extends vs stop : forall values k b,
  exists more, (visit (values, k, b) vs stop).2.1.1 = values ++ more.
Proof.
  induction vs as [|r vs IH]; intros values k b; simpl; [exists []; by rewrite app_nil_r|].
  destruct (negb (span_size (rv_payload r) =? sizeof_T)); simpl; [exists []; by rewrite app_nil_r|].
  destruct (IH (values ++ [from_bytes (rv_payload r)]) (record_recovered_record k) b) as [more E].
  eexists. by rewrite E, <- app_assoc.
Qed.

(** Replay of a file that begins with the records of [values]. *)
Lemma replay_durable_prefix path k (w : W) log rest values r w' :
  os_files (os w) !! path = Some (log_bytes log ++ rest) -> Forall entry_ok log ->
  map snd log = map object_payload values -> reader_open path w = (Value r, w') ->
  exists st more k' w'', PersistentBroker.replay_with_metrics
      (S (length (log_bytes log ++ rest) / 40)) path keep [] k w = Done (st, values ++ more, k', w'').
Proof.
  intros Hfile Hok Hval Hopen. unfold PersistentBroker.replay_with_metrics. rewrite Hopen.
  apply reader_open_spec in Hopen as (c & Hc & RA). rewrite Hfile in Hc. injection Hc as <-.
  destruct (parses_total _ rest (0 + length (log_bytes log)) (le_n _)) as (vs & stop & Hp).
  pose proof (parses_log log 0 rest vs stop Hok Hp) as P. pose proof (parses_length _ _ _ _ P) as Hl.
  pose proof (Nat.div_le_lower_bound _ 40 _ ltac:(lia) Hl).
  destruct (replay_parses (PersistentBroker.typed_visitor keep) _ _ _ _ P
    (S (length (log_bytes log ++ rest) / 40)) ([], k, false) r w' (log_bytes log ++ rest))
    as (r' & off' & _ & ->); [lia|done|done|].
  rewrite (visit_keep_app values) by (by rewrite views_payload). simpl app.
  destruct (visit_keep_extends vs stop values (Nat.iter (length values) record_recovered_record k) false)
    as [more E]. destruct (visit _ vs stop) as [st [[vals k'] b]]. simpl in E. subst.
  by eexists _, more, _, _.
Qed.
End Crash.

(** What may be found in the file after a crash of the process: the mapping is shared, so
    the file has its bytes up to the offset at which the writer stands, and anything
    behind it, such as a part of a record that was being copied. *)
Definition crash_image {T W} `{Posix W} (s : machine (T:=T) (W:=W)) (c : list byte) : Prop :=
  let offset := Z.to_nat (ww_current_offset (m_writer s)) in
  take offset c = take offset (mmap_bytes (ww_file (m_writer s)) (m_world s)).

(** ** Progress *)

(** Statements a call has left. *)
Definition prod_rank {T W} (s : machine (T:=T) (W:=W)) : nat :=
  match m_prod s with
  | PubIdle => 0
  | PubValid _ _ => 14 | PubLoadHead _ _ => 13 | PubLoadTail _ _ _ => 12 | PubFullTest _ _ _ _ => 11
  | PubAppend _ _ => 10 | PubBrokerValid _ => 9 | PubPush _ => 2 + push_rank (p_pc (m_queue s))
  | PubBrokerCount _ _ => 2 | PubResult _ _ => 1
  | FlushValid => 2 | FlushWal => 1
  end.
Definition cons_rank {T W} (s : machine (T:=T) (W:=W)) : nat :=
  match m_cons s with
  | ConIdle => 0
  | ConValid => 11 | ConBrokerValid => 10 | ConPop => 2 + pop_rank (c_pc (m_queue s))
  | ConBrokerCount _ => 2 | ConResult _ _ => 1
  end.

Section Progress.
Context {T : Type} {Capacity : Z} {CAP : CapacityOk Capacity} `{TriviallyCopyable T}.
Context {W : Type} `{PosixLaws W} (file : MmapFile).
Implicit Types (s : machine (T:=T) (W:=W)).
Local Abbreviation minv := (machine_inv (Capacity:=Capacity) file).

Lemma prod_step_enabled tr s pushed n log tail call :
  minv tr s pushed n log tail -> exists k e s', prod_step Capacity k call s = MStep e s'.
Proof.
  intros []. pose proof mi_queue0 as [].
  assert (Hh : is_Some (load acquire Head (length pushed) (hist_head (m_queue s)) (p_view (m_queue s)))).
  { apply load_enabled; simpl; lia. }
  assert (Ht : is_Some (load acquire Tail n (hist_tail (m_queue s)) (p_view (m_queue s)))).
  { apply load_enabled; simpl; lia. }
  unfold prod_step, prod_return, publish_append.
  destruct (m_prod s) as [|v fl|v fl|v fl h|v fl h t|v fl|v|v|v [] |v st| |];
    try (exists 0%nat; repeat case_match; by eexists _, _).
  - destruct Hh as [[z V] E]. exists (length pushed). rewrite E. by eexists _, _.
  - destruct Ht as [[z V] E]. exists n. rewrite E. by eexists _, _.
  - destruct (producer_enabled _ _ _ v mi_queue0) as (k & e & q & E). exists k. rewrite E. by eexists _, _.
Qed.

Lemma cons_step_enabled tr s pushed n log tail :
  minv tr s pushed n log tail -> exists k e s', cons_step Capacity k s = MStep e s'.
Proof.
  intros []. unfold cons_step, cons_return.
  destruct (m_cons s) as [| | | |[] |st out]; try (exists 0%nat; repeat case_match; by eexists _, _).
  destruct (consumer_enabled _ _ _ mi_queue0) as (k & e & q & E). exists k. rewrite E. by eexists _, _.
Qed.

Lemma push_rank_decreases k v (q q' : state (T:=T)) e :
  (forall x, pc_arg (p_pc q) = Some x -> x = v) -> producer_step Capacity k v q = Step e q' ->
  c_pc q' = c_pc q /\ match push_reply e with
    | None => (push_rank (p_pc q') < push_rank (p_pc q))%nat
    | Some _ => (0 < push_rank (p_pc q))%nat
    end.
Proof.
  intros Ha Hs. destruct (producer_step_arg Capacity k v _ _ _ Ha Hs) as [-> _]. split; [done|].
  revert Hs. unfold producer_step. destruct (p_pc q); repeat case_match; intros; simplify_eq; simpl in *;
    simplify_eq; simpl; lia.
Qed.

Lemma pop_rank_decreases k (q q' : state (T:=T)) e :
  consumer_step Capacity k q = Step e q' ->
  p_pc q' = p_pc q /\ match pop_reply e with
    | None => (pop_rank (c_pc q') < pop_rank (c_pc q))%nat
    | Some _ => (0 < pop_rank (c_pc q))%nat
    end.
Proof.
  intros Hs. destruct (consumer_step_returns Capacity k _ _ _ Hs) as [-> _]. split; [done|].
  revert Hs. unfold consumer_step. destruct (c_pc q); repeat case_match; intros; simplify_eq; simpl in *;
    simplify_eq; simpl; lia.
Qed.

Lemma push_rank_bound (pc : producer_pc (T:=T)) : (push_rank pc <= 6)%nat.
Proof. destruct pc; simpl; lia. Qed.
Lemma pop_rank_bound (pc : consumer_pc (T:=T)) : (pop_rank pc <= 7)%nat.
Proof. destruct pc; simpl; lia. Qed.

(** Each step of a call brings it closer to its return and leaves the other thread alone. *)
Lemma prod_step_rank tr s pushed n log tail k call e s' :
  minv tr s pushed n log tail -> m_prod s <> PubIdle ->
  prod_step Capacity k call s = MStep e s' ->
  (prod_rank s' < prod_rank s <= 14)%nat /\ cons_rank s' = cons_rank s.
Proof.
  intros [] Hne. pose proof (push_rank_bound (p_pc (m_queue s))).
  unfold prod_step, prod_return, publish_append, prod_rank, cons_rank.
  destruct (m_prod s) as [|v fl|v fl|v fl h|v fl h t|v fl|v|v|v [] |v st| |]; [done|..].
  - destruct (negb _); intros [= <- <-]; simpl; lia.
  - destruct (load _ _ _ _ _) as [[]|]; [|done]. intros [= <- <-]; simpl; lia.
  - destruct (load _ _ _ _ _) as [[]|]; [|done]. intros [= <- <-]; simpl; lia.
  - destruct (_ >=? _); intros [= <- <-]; simpl; lia.
  - destruct (append _ _ _) as [[st ?] ?]. destruct (negb (is_ok st)); intros [= <- <-]; simpl; lia.
  - destruct mi_prod0 as [Hpc _].
    destruct (negb _); intros [= <- <-]; simpl; rewrite ?Hpc; simpl; lia.
  - destruct mi_prod0 as [Harg _]. destruct (producer_step _ _ _ _) as [e1 q| |] eqn:E; [|done..].
    apply push_rank_decreases in E as [Hc Hr]; [|done]. intros [= <- <-]. simpl. rewrite Hc.
    destruct (push_reply e1); simpl; lia.
  - intros [= <- <-]; simpl; lia.
  - intros [= <- <-]; simpl; lia.
  - destruct (negb _); intros [= <- <-]; simpl; lia.
  - destruct (negb _); intros [= <- <-]; simpl; lia.
  - destruct (writer_flush _ _) as [st ?]. intros [= <- <-]; simpl; lia.
Qed.

Lemma cons_step_rank tr s pushed n log tail k e s' :
  minv tr s pushed n log tail -> m_cons s <> ConIdle ->
  cons_step Capacity k s = MStep e s' ->
  (cons_rank s' < cons_rank s <= 11)%nat /\ prod_rank s' = prod_rank s.
Proof.
  intros [] Hne. pose proof (pop_rank_bound (c_pc (m_queue s))).
  unfold cons_step, cons_return, prod_rank, cons_rank.
  destruct (m_cons s) as [| | | |[] |st out]; [done|..].
  - destruct (negb _); intros [= <- <-]; simpl; lia.
  - simpl in mi_cons0. destruct (negb _); intros [= <- <-]; simpl; rewrite ?mi_cons0; simpl; lia.
  - destruct (consumer_step _ _ _) as [e1 q| |] eqn:E; [|done..].
    apply pop_rank_decreases in E as [Hc Hr]. intros [= <- <-]. simpl. rewrite Hc.
    destruct (pop_reply e1); simpl; lia.
  - intros [= <- <-]; simpl; lia.
  - intros [= <- <-]; simpl; lia.
  - intros [= <- <-]; simpl; lia.
Qed.
End Progress.

(** ** Properties *)

(** The machine on a broker that [open] has accepted. *)
Lemma opened_exec_inv {T} {Capacity : Z} {CAP : CapacityOk Capacity} `{TriviallyCopyable T}
    {W} `{PosixLaws W} config st (pb : PersistentBrokerState (SpscRingBuffer T)) (w0 w1 : W) tr s :
  in_width 64 (wc_file_size_bytes (bc_wal config)) ->
  PersistentBroker.open (T:=T) (Capacity:=Capacity) config
    (PersistentBroker.init (T:=T) (Capacity:=Capacity)) w0 = (st, pb, w1) -> is_ok st = true ->
  mexec Capacity (machine_start Capacity pb w1) tr s ->
  exists file pushed n log tail,
    machine_inv (Capacity:=Capacity) file tr s pushed n log tail /\ path_ file = wc_path (bc_wal config).
Proof.
  intros Hn Ho Hok He.
  pose proof (pb_open_spec (Q:=SpscRingBuffer T) (T:=T) (Capacity:=Capacity) config w0 Hn) as O.
  rewrite Ho, Hok in O. destruct O as (R & Hpath & _ & Hc).
  pose proof (minv_start _ pb w1 _ R Hc eq_refl) as I0.
  destruct (mexec_inv _ _ _ _ _ _ I0 He) as (pushed & n & log & tail & I).
  by exists (ww_file (pb_writer pb)), pushed, n, log, tail.
Qed.

(** Capacity 2: one byte is published and consumed, and the publish of a second one is stopped
    when the byte is in the log and not in the queue yet. *)
Definition toy_turns : list (machine_turn (T:=byte)) :=
  replicate 15 (ProdTurn 0 (Publish Byte.x2a 0)) ++
  map (fun k => ProdTurn k (Publish Byte.x2b 7)) [0; 0; 1; 0; 0; 0]%nat ++
  map ConsTurn [0; 0; 0; 0; 0; 1; 0; 0; 0; 0; 0; 0]%nat.
Definition toy_start : machine (T:=byte) (W:=ToyOs.world) :=
  machine_start 2 toy_broker_open.1.2 toy_broker_open.2.
Definition toy_machine_run : list (pc_event (T:=byte)) * machine (T:=byte) (W:=ToyOs.world) :=
  default ([], toy_start) (run_machine 2 toy_turns [] toy_start).
Definition toy_machine_trace : list (pc_event (T:=byte)) :=
  [Published Byte.x2a Status_ok; Consumed Status_ok (Some Byte.x2a)].

Lemma toy_mexec : mexec 2 toy_start toy_machine_trace toy_machine_run.2.
Proof.
  apply (run_machine_mexec _ _ toy_turns [] toy_start); [constructor|]. vm_compute. reflexivity.
Qed.

(** The file, with a torn record behind the log. *)
Definition toy_crash_content : list byte :=
  take 82 (mmap_bytes (ww_file (m_writer toy_machine_run.2)) (m_world toy_machine_run.2)) ++
  replicate 46 Byte.xa5.
Definition toy_crash_world : ToyOs.world :=
  ToyOs.set_view (mkOs {["a.wal" := toy_crash_content]} ∅ ∅) (ToyOs.boot []).

(** C26. Log before queue, concurrently.  Open a broker and let one thread publish and
    flush while another consumes: in every reachable state of every interleaving no
    step is undefined; a publish has returned ok, full, out of space or an I/O error,
    never the internal [unknown], because a [full()] that returned false cannot be
    invalidated by the consumer; the log holds exactly the values whose publish
    returned ok, in order, and at most the one value being published behind them; and
    the values handed to the consumer are a prefix of the log.  Whenever the producer
    is between calls the log is exactly the published values and the counters are
    exactly those of the calls that have returned. *)
Theorem persistent_concurrent_durable (T : Type) (Capacity : Z) (CAP : CapacityOk Capacity)
    (TC : TriviallyCopyable T) (W : Type) (P : Posix W) (L : PosixLaws W) (config : BrokerConfig)
    (st : Status) (pb : PersistentBrokerState (SpscRingBuffer T)) (w0 w1 : W)
    (tr : list (pc_event (T:=T))) (s : machine (T:=T) (W:=W)) :
  in_width 64 (wc_file_size_bytes (bc_wal config)) ->
  PersistentBroker.open (T:=T) (Capacity:=Capacity) config
    (PersistentBroker.init (T:=T) (Capacity:=Capacity)) w0 = (st, pb, w1) -> is_ok st = true ->
  mexec Capacity (machine_start Capacity pb w1) tr s ->
  (forall t, turn_typed t = true -> machine_step Capacity t s <> MUndefined) /\
  Forall event_ok tr /\
  exists log tail pending, writer_rep (m_writer s) (m_world s) log tail /\
    map snd log = map object_payload (oks tr ++ pending) /\ (length pending <= 1)%nat /\
    takes tr `prefix_of` oks tr ++ pending /\
    (m_prod s = PubIdle -> pending = [] /\ m_counters s = counted tr).
Proof.
  intros Hn Ho Hok He.
  destruct (opened_exec_inv _ _ _ _ _ _ _ Hn Ho Hok He) as (file & pushed & n & log & tail & I & _).
  split_and!; [|apply I|].
  - intros [k call|k] Ht E; simpl in E.
    + pose proof (minv_prod_step _ _ _ _ _ _ _ _ _ I Ht) as S. by rewrite E in S.
    + pose proof (minv_cons_step _ _ _ _ _ _ _ k I) as S. by rewrite E in S.
  - destruct I. exists log, tail, (unreturned (m_prod s) ++ unqueued (m_prod s)).
    rewrite app_assoc, mi_oks0. split_and!; try done.
    + destruct (m_prod s); simpl; lia.
    + apply prefix_app_r. transitivity (take n pushed); [|apply prefix_take]. rewrite <- mi_takes0.
      by apply prefix_app_r.
    + intros E. by rewrite E in *.
Qed.

Lemma persistent_concurrent_durable_witness :
  mexec 2 toy_start toy_machine_trace toy_machine_run.2 /\
  exists log tail pending,
    writer_rep (m_writer toy_machine_run.2) (m_world toy_machine_run.2) log tail /\
    map snd log = map object_payload (oks toy_machine_trace ++ pending) /\ (length pending <= 1)%nat /\
    takes toy_machine_trace `prefix_of` oks toy_machine_trace ++ pending /\
    (m_prod toy_machine_run.2 = PubIdle ->
     pending = [] /\ m_counters toy_machine_run.2 = counted toy_machine_trace).
Proof.
  split; [exact toy_mexec|].
  refine (proj2 (proj2 (persistent_concurrent_durable byte 2 CapacityOk_2 _ ToyOs.world ToyOs.posix
    ToyOs.posix_laws toy_config toy_broker_open.1.1 toy_broker_open.1.2 (ToyOs.boot [])
    toy_broker_open.2 toy_machine_trace toy_machine_run.2 _ _ _ toy_mexec))).
  - vm_compute. split; [discriminate|reflexivity].
  - by rewrite <- !surjective_pairing.
  - vm_compute. reflexivity.
Defined.

(** C27. Recovery after a crash.  Stop the two threads at any instant, in the middle of
    any call, and replay the file that is left, whatever bytes stand behind the
    writer's offset: the replay ends, and the values it delivers begin with every value
    whose publish had returned ok, in order, and with every value that had been handed
    to the consumer. *)
Theorem persistent_crash_recovery (T : Type) (Capacity : Z) (CAP : CapacityOk Capacity)
    (TC : TriviallyCopyable T) (W : Type) (P : Posix W) (L : PosixLaws W) (config : BrokerConfig)
    (st : Status) (pb : PersistentBrokerState (SpscRingBuffer T)) (w0 w1 : W)
    (tr : list (pc_event (T:=T))) (s : machine (T:=T) (W:=W)) (c : list byte) (wc w2 : W)
    (r : WalReader) (k : BrokerCounters) :
  in_width 64 (wc_file_size_bytes (bc_wal config)) ->
  PersistentBroker.open (T:=T) (Capacity:=Capacity) config
    (PersistentBroker.init (T:=T) (Capacity:=Capacity)) w0 = (st, pb, w1) -> is_ok st = true ->
  mexec Capacity (machine_start Capacity pb w1) tr s -> crash_image s c ->
  os_files (os wc) !! wc_path (bc_wal config) = Some c ->
  reader_open (wc_path (bc_wal config)) wc = (Value r, w2) ->
  exists st' values k' w3,
    PersistentBroker.replay_with_metrics (S (length c / 40)) (wc_path (bc_wal config)) keep [] k wc
      = Done (st', values, k', w3) /\
    oks tr `prefix_of` values /\ takes tr `prefix_of` values.
Proof.
  intros Hn Ho Hok He Hcrash Hfile Hr.
  destruct (opened_exec_inv _ _ _ _ _ _ _ Hn Ho Hok He) as (file & pushed & n & log & tail & I & _).
  destruct I. pose proof mi_writer0 as [O Hoff _ _ Hwf _].
  unfold crash_image in Hcrash. rewrite (owns_bytes _ _ _ O), Hoff, Nat2Z.id in Hcrash.
  rewrite take_app_length in Hcrash.
  assert (Hc : c = log_bytes log ++ drop (length (log_bytes log)) c) by (by rewrite <- Hcrash at 1; rewrite take_drop).
  rewrite Hc in Hfile |- *.
  destruct (replay_durable_prefix _ k _ _ _ _ _ _ Hfile Hwf mi_log0 Hr) as (st' & more & k' & w3 & E).
  exists st'. eexists _, k', w3. split; [exact E|]. rewrite <- app_assoc. split; apply prefix_app_r.
  - rewrite <- mi_oks0. by apply prefix_app_r.
  - transitivity (take n pushed); [|apply prefix_take]. rewrite <- mi_takes0. by apply prefix_app_r.
Qed.

Lemma persistent_crash_recovery_witness :
  mexec 2 toy_start toy_machine_trace toy_machine_run.2 /\
  exists st' values k' w3,
    PersistentBroker.replay_with_metrics (T:=byte) (S (length toy_crash_content / 40)) "a.wal" keep []
      BrokerCounters_init toy_crash_world = Done (st', values, k', w3) /\
    oks toy_machine_trace `prefix_of` values /\ takes toy_machine_trace `prefix_of` values.
Proof.
  split; [exact toy_mexec|].
  refine (persistent_crash_recovery byte 2 CapacityOk_2 _ ToyOs.world ToyOs.posix
    ToyOs.posix_laws toy_config toy_broker_open.1.1 toy_broker_open.1.2 (ToyOs.boot [])
    toy_broker_open.2 toy_machine_trace toy_machine_run.2 toy_crash_content toy_crash_world
    (reader_open "a.wal" toy_crash_world).2 toy_opened_reader BrokerCounters_init _ _ _ toy_mexec _ _ _).
  - vm_compute. split; [discriminate|reflexivity].
  - by rewrite <- !surjective_pairing.
  - vm_compute. reflexivity.
  - vm_compute. reflexivity.
  - vm_compute. reflexivity.
  - vm_compute. reflexivity.
Defined.

(** C28. Wait-freedom of the persistent broker.  In every reachable state each thread can take
    a step whatever the other one does, and every step of a call brings it closer to
    its return, which is at most 14 steps away for a publish and 11 for a consume, and
    leaves the other thread where it was. *)
Theorem persistent_wait_free (T : Type) (Capacity : Z) (CAP : CapacityOk Capacity)
    (TC : TriviallyCopyable T) (W : Type) (P : Posix W) (L : PosixLaws W) (config : BrokerConfig)
    (st : Status) (pb : PersistentBrokerState (SpscRingBuffer T)) (w0 w1 : W)
    (tr : list (pc_event (T:=T))) (s : machine (T:=T) (W:=W)) (call : producer_call (T:=T)) :
  in_width 64 (wc_file_size_bytes (bc_wal config)) ->
  PersistentBroker.open (T:=T) (Capacity:=Capacity) config
    (PersistentBroker.init (T:=T) (Capacity:=Capacity)) w0 = (st, pb, w1) -> is_ok st = true ->
  mexec Capacity (machine_start Capacity pb w1) tr s ->
  ((exists k e s', prod_step Capacity k call s = MStep e s') /\
   (m_prod s <> PubIdle -> forall k e s', prod_step Capacity k call s = MStep e s' ->
      (prod_rank s' < prod_rank s <= 14)%nat /\ cons_rank s' = cons_rank s)) /\
  ((exists k e s', cons_step Capacity k s = MStep e s') /\
   (m_cons s <> ConIdle -> forall k e s', cons_step Capacity k s = MStep e s' ->
      (cons_rank s' < cons_rank s <= 11)%nat /\ prod_rank s' = prod_rank s)).
Proof.
  intros Hn Ho Hok He.
  destruct (opened_exec_inv _ _ _ _ _ _ _ Hn Ho Hok He) as (file & pushed & n & log & tail & I & _).
  split; split.
  - by eapply prod_step_enabled.
  - intros Hne k e s' E. by eapply prod_step_rank.
  - by eapply cons_step_enabled.
  - intros Hne k e s' E. by eapply cons_step_rank.
Qed.

Lemma persistent_wait_free_witness :
  mexec 2 toy_start toy_machine_trace toy_machine_run.2 /\
  prod_rank toy_machine_run.2 = 9%nat /\
  forall k e s', prod_step 2 k Flush toy_machine_run.2 = MStep e s' ->
    (prod_rank s' < prod_rank toy_machine_run.2 <= 14)%nat /\ cons_rank s' = cons_rank toy_machine_run.2.
Proof.
  split; [exact toy_mexec|]. split; [vm_compute; reflexivity|].
  refine (proj2 (proj1 (persistent_wait_free byte 2 CapacityOk_2 _ ToyOs.world ToyOs.posix
    ToyOs.posix_laws toy_config toy_broker_open.1.1 toy_broker_open.1.2 (ToyOs.boot [])
    toy_broker_open.2 toy_machine_trace toy_machine_run.2 Flush _ _ _ toy_mexec)) _).
  - vm_compute. split; [discriminate|reflexivity].
  - by rewrite <- !surjective_pairing.
  - vm_compute. reflexivity.
  - vm_compute. discriminate.
Defined.
