(* ===== verification/CliArgs.v ===== *)
(** * Command-line arguments

    cli/args.hpp and cli/args.cpp: the numeric parser, the argument cursor, and the
    option parsers of the five tools.  Arguments are strings, the first of which is
    the program name. *)

From Stdlib Require Import Ascii String.
From S2P Require Import Prelude Core.
#[local] Open Scope string_scope.
#[local] Open Scope Z_scope.

(** ** Numbers *)

Definition supported_capacities : list Z := [64; 256; 1024; 4096; 65536].
Definition supported_payload_sizes : list Z := [8; 32; 64; 256; 1024].

Definition invalid {T} (detail : string) : Expected T :=
  Expected_of_status (mkStatus StatusCode.invalid_argument detail).

Definition is_supported (v : Z) (supported : list Z) : bool := existsb (Z.eqb v) supported.

Definition digit (c : ascii) : option Z :=
  let n := Z.of_N (N_of_ascii c) in
  if (48 <=? n) && (n <=? 57) then Some (n - 48) else None.

(** The longest prefix of digits: its value and what follows. *)
Fixpoint scan_digits (s : string) (acc : Z) : Z * string :=
  match s with
  | EmptyString => (acc, s)
  | String c s' => match digit c with
    | Some d => scan_digits s' (10 * acc + d)
    | None => (acc, s)
    end
  end.

Inductive errc : Set := errc_ok | errc_invalid_argument | errc_result_out_of_range.

(** [std::from_chars] for [std::uint64_t] in base 10: the error, the value and the
    rest of the text. *)
Definition from_chars (text : string) : errc * Z * string :=
  match text with
  | EmptyString => (errc_invalid_argument, 0, text)
  | String c _ =>
      match digit c with
      | None => (errc_invalid_argument, 0, text)
      | Some _ =>
          let '(v, rest) := scan_digits text 0 in
          if v >? u64_max then (errc_result_out_of_range, 0, rest) else (errc_ok, v, rest)
      end
  end.

Definition starts_with_dash (s : string) : bool :=
  match s with String "-" _ => true | _ => false end.
Definition is_empty (s : string) : bool := match s with EmptyString => true | _ => false end.

Definition parse_u64 (text : string) : Expected Z :=
  if is_empty text || starts_with_dash text
  then invalid "expected a non-negative unsigned integer"
  else match from_chars text with
  | (errc_ok, v, EmptyString) => Value v
  | _ => invalid "invalid unsigned integer"
  end.

(** Early return of an error. *)
Definition expected_bind {A B} (e : Expected A) (k : A -> Expected B) : Expected B :=
  match e with Value a => k a | Error s => Expected_of_status s end.
Notation "'let?' x := e 'in' k" := (expected_bind e (fun x => k))
  (at level 10, x name, e at level 100, k at level 200) : aether_scope.

Definition parse_size (text : string) : Expected Z :=
  let? parsed := parse_u64 text in
  if parsed >? u64_max then invalid "value is too large for size_t" else Value parsed.

(** ** The cursor *)

(** [at(index)]; the loops stay inside the span. *)
Definition arg_at (args : list string) (i : nat) : string := default "" (args !! i).

(** The text after the first '='. *)
Fixpoint after_eq (s : string) : option string :=
  match s with
  | EmptyString => None
  | String c s' => if Ascii.eqb c "=" then Some s' else after_eq s'
  end.

(** [value(index, option)]: the value and the new index. *)
Definition cursor_value (args : list string) (index : nat) : Expected (string * nat) :=
  match after_eq (arg_at args index) with
  | Some out => if is_empty out then invalid "missing option value" else Value (out, index)
  | None =>
      if (length args <=? index + 1)%nat then invalid "missing option value"
      else
        let index := S index in
        let out := arg_at args index in
        if is_empty out || starts_with_dash out then invalid "missing option value"
        else Value (out, index)
  end.

Definition matches (arg option : string) : bool :=
  String.eqb arg option || String.prefix (option ++ "=") arg.

Definition is_help (arg : string) : bool := String.eqb arg "--help" || String.eqb arg "-h".

(** The loop all parsers share; [body] handles the argument at an index and
    returns the options and the index of the last argument used. *)
Section Loop.
Context {Opts : Type} (body : list string -> nat -> Opts -> Expected (Opts * nat)).

Fixpoint arg_loop (fuel : nat) (args : list string) (i : nat) (options : Opts)
    : outcome (Expected Opts) :=
  if (i <? length args)%nat then
    match fuel with
    | O => OutOfFuel
    | S fuel =>
        match body args i options with
        | Error s => Done (Expected_of_status s)
        | Value (options, i) => arg_loop fuel args (S i) options
        end
    end
  else Done (Value options).

Definition parse_args (init : Opts) (args : list string)
    : outcome (Expected Opts) :=
  arg_loop (length args) args 1 init.
End Loop.

(** ** Options *)

Record BenchOptions : Set := mkBench {
  bench_help : bool; bench_messages : Z; bench_payload_size : Z; bench_capacity : Z;
  bench_output_dir : string }.
Definition BenchOptions_default : BenchOptions := mkBench false 1000000 64 65536 "benchmark-results".

Record PubOptions : Set := mkPub {
  pub_help : bool; pub_wal_path : string; pub_messages : Z; pub_wal_size_bytes : Z;
  pub_flush_on_commit : bool }.
Definition PubOptions_default : PubOptions :=
  mkPub false "data/sample.wal" 1000 (64 * 1024 * 1024) false.

Record SubOptions : Set := mkSub {
  sub_help : bool; sub_wal_path : string; sub_messages : Z; sub_limit : Z; sub_capacity : Z }.
Definition SubOptions_default : SubOptions := mkSub false "" 10 10 1024.

Record ReplayOptions : Set := mkReplay {
  replay_help : bool; replay_wal_path : string; replay_limit : Z;
  replay_payload_preview_bytes : Z }.
Definition ReplayOptions_default : ReplayOptions := mkReplay false "data/sample.wal" 0 32.

Record InspectWalOptions : Set := mkInspect {
  inspect_help : bool; inspect_wal_path : string; inspect_limit : Z; inspect_verbose : bool }.
Definition InspectWalOptions_default : InspectWalOptions := mkInspect false "data/sample.wal" 0 false.

(** ** Parsers *)

Definition bench_body (args : list string) (i : nat) (o : BenchOptions)
    : Expected (BenchOptions * nat) :=
  let '(mkBench help messages payload_size capacity output_dir) := o in
  let arg := arg_at args i in
  if is_help arg then Value (mkBench true messages payload_size capacity output_dir, i)
  else if matches arg "--messages" then
    let? v := cursor_value args i in
    let? n := parse_u64 v.1 in
    Value (mkBench help n payload_size capacity output_dir, v.2)
  else if matches arg "--payload-size" then
    let? v := cursor_value args i in
    let? n := parse_size v.1 in
    if negb (is_supported n supported_payload_sizes) then invalid "unsupported payload size"
    else Value (mkBench help messages n capacity output_dir, v.2)
  else if matches arg "--capacity" then
    let? v := cursor_value args i in
    let? n := parse_size v.1 in
    if negb (is_supported n supported_capacities) then invalid "unsupported capacity"
    else Value (mkBench help messages payload_size n output_dir, v.2)
  else if matches arg "--output-dir" then
    let? v := cursor_value args i in
    Value (mkBench help messages payload_size capacity v.1, v.2)
  else invalid "unknown option".
Definition parse_bench_args : list string -> outcome (Expected BenchOptions) :=
  parse_args bench_body BenchOptions_default.

Definition pub_body (args : list string) (i : nat) (o : PubOptions) : Expected (PubOptions * nat) :=
  let '(mkPub help wal_path messages wal_size_bytes flush_on_commit) := o in
  let arg := arg_at args i in
  if is_help arg then Value (mkPub true wal_path messages wal_size_bytes flush_on_commit, i)
  else if String.eqb arg "--flush-on-commit"
  then Value (mkPub help wal_path messages wal_size_bytes true, i)
  else if matches arg "--wal" then
    let? v := cursor_value args i in
    Value (mkPub help v.1 messages wal_size_bytes flush_on_commit, v.2)
  else if matches arg "--messages" then
    let? v := cursor_value args i in
    let? n := parse_u64 v.1 in
    Value (mkPub help wal_path n wal_size_bytes flush_on_commit, v.2)
  else if matches arg "--wal-size" then
    let? v := cursor_value args i in
    let? n := parse_u64 v.1 in
    Value (mkPub help wal_path messages n flush_on_commit, v.2)
  else invalid "unknown option".
Definition parse_pub_args : list string -> outcome (Expected PubOptions) :=
  parse_args pub_body PubOptions_default.

Definition sub_body (args : list string) (i : nat) (o : SubOptions) : Expected (SubOptions * nat) :=
  let '(mkSub help wal_path messages limit capacity) := o in
  let arg := arg_at args i in
  if is_help arg then Value (mkSub true wal_path messages limit capacity, i)
  else if matches arg "--wal" then
    let? v := cursor_value args i in
    Value (mkSub help v.1 messages limit capacity, v.2)
  else if matches arg "--messages" then
    let? v := cursor_value args i in
    let? n := parse_u64 v.1 in
    Value (mkSub help wal_path n limit capacity, v.2)
  else if matches arg "--limit" then
    let? v := cursor_value args i in
    let? n := parse_u64 v.1 in
    Value (mkSub help wal_path messages n capacity, v.2)
  else if matches arg "--capacity" then
    let? v := cursor_value args i in
    let? n := parse_size v.1 in
    if negb (is_supported n supported_capacities) then invalid "unsupported capacity"
    else Value (mkSub help wal_path messages limit n, v.2)
  else invalid "unknown option".
Definition parse_sub_args : list string -> outcome (Expected SubOptions) :=
  parse_args sub_body SubOptions_default.

Definition replay_body (args : list string) (i : nat) (o : ReplayOptions)
    : Expected (ReplayOptions * nat) :=
  let '(mkReplay help wal_path limit payload_preview_bytes) := o in
  let arg := arg_at args i in
  if is_help arg then Value (mkReplay true wal_path limit payload_preview_bytes, i)
  else if matches arg "--wal" then
    let? v := cursor_value args i in
    Value (mkReplay help v.1 limit payload_preview_bytes, v.2)
  else if matches arg "--limit" then
    let? v := cursor_value args i in
    let? n := parse_u64 v.1 in
    Value (mkReplay help wal_path n payload_preview_bytes, v.2)
  else if matches arg "--payload-preview-bytes" then
    let? v := cursor_value args i in
    let? n := parse_size v.1 in
    Value (mkReplay help wal_path limit n, v.2)
  else invalid "unknown option".
Definition parse_replay_args : list string -> outcome (Expected ReplayOptions) :=
  parse_args replay_body ReplayOptions_default.

Definition inspect_body (args : list string) (i : nat) (o : InspectWalOptions)
    : Expected (InspectWalOptions * nat) :=
  let '(mkInspect help wal_path limit verbose) := o in
  let arg := arg_at args i in
  if is_help arg then Value (mkInspect true wal_path limit verbose, i)
  else if String.eqb arg "--verbose" then Value (mkInspect help wal_path limit true, i)
  else if matches arg "--wal" then
    let? v := cursor_value args i in
    Value (mkInspect help v.1 limit verbose, v.2)
  else if matches arg "--limit" then
    let? v := cursor_value args i in
    let? n := parse_u64 v.1 in
    Value (mkInspect help wal_path n verbose, v.2)
  else invalid "unknown option".
Definition parse_inspect_wal_args : list string -> outcome (Expected InspectWalOptions) :=
  parse_args inspect_body InspectWalOptions_default.

(** ** Help texts *)

Definition bench_help_text : string :=
"Usage: aether_bench [options]
CLI demo benchmark for local Broker throughput. Not official performance data.

Options:
  -h, --help
  --messages <N>
  --payload-size <8|32|64|256|1024>
  --capacity <64|256|1024|4096|65536>
  --output-dir <path>
".
Definition pub_help_text : string :=
"Usage: aether_pub [options]
Write generated OrderEvent records to a local WAL-backed broker demo.

Options:
  -h, --help
  --wal <path>
  --messages <N>
  --wal-size <bytes>
  --flush-on-commit
".
Definition sub_help_text : string :=
"Usage: aether_sub [options]
Local demo subscriber only: no networking and no remote/live broker subscription.
Without --wal it publishes then consumes an in-process Broker. With --wal it replays OrderEvent records written by aether_pub.

Options:
  -h, --help
  --messages <N>
  --capacity <64|256|1024|4096|65536>
  --limit <N>
  --wal <path>
".
Definition replay_help_text : string :=
"Usage: aether_replay [options]
Generic raw WAL replay with safe payload previews.

Options:
  -h, --help
  --wal <path>
  --limit <N>
  --payload-preview-bytes <N>
".
Definition inspect_wal_help_text : string :=
"Usage: aether_inspect_wal [options]
Inspect and summarize a WAL file.

Options:
  -h, --help
  --wal <path>
  --limit <N>
  --verbose
".

(** Each text names every option its parser takes. *)
Definition mentions (text opt : string) : bool :=
  match String.index 0 opt text with Some _ => true | None => false end.

Example help_texts_complete :
  forallb (mentions bench_help_text)
    ["-h"; "--help"; "--messages"; "--payload-size"; "--capacity"; "--output-dir"] &&
  forallb (mentions pub_help_text)
    ["-h"; "--help"; "--wal"; "--messages"; "--wal-size"; "--flush-on-commit"] &&
  forallb (mentions sub_help_text) ["-h"; "--help"; "--messages"; "--capacity"; "--limit"; "--wal"] &&
  forallb (mentions replay_help_text) ["-h"; "--help"; "--wal"; "--limit"; "--payload-preview-bytes"] &&
  forallb (mentions inspect_wal_help_text) ["-h"; "--help"; "--wal"; "--limit"; "--verbose"] = true.
Proof. vm_compute. reflexivity. Qed.

(** The inputs of the unit test. *)
Example bench_values :
  parse_bench_args ["aether_bench"; "--messages"; "42"; "--payload-size=256"; "--capacity"; "4096";
                    "--output-dir=out"]
  = Done (Value (mkBench false 42 256 4096 "out")).
Proof. reflexivity. Qed.
Example pub_values :
  parse_pub_args ["aether_pub"; "--wal"; "x.wal"; "--messages=11"; "--wal-size"; "4096";
                  "--flush-on-commit"]
  = Done (Value (mkPub false "x.wal" 11 4096 true)).
Proof. reflexivity. Qed.
Example negative_messages :
  parse_bench_args ["aether_bench"; "--messages"; "-1"] = Done (invalid "missing option value").
Proof. reflexivity. Qed.

(** ** Decimal numbers *)

Definition horner (ds : list Z) (acc : Z) : Z := foldl (fun a d => 10 * a + d) acc ds.
Definition chars (s : string) : list ascii := list_ascii_of_string s.

Lemma scan_digits_spec s : forall acc v,
  scan_digits s acc = (v, "") <->
  exists ds, map digit (chars s) = map Some ds /\ v = horner ds acc.
Proof.
  induction s as [|c s IH]; intros acc v; simpl.
  - split; [intros [= <-]; by exists []|]. intros ([|d ds] & E & ->); [done|discriminate].
  - destruct (digit c) as [d|] eqn:D.
    + rewrite IH. split.
      * intros (ds & E & ->). exists (d :: ds). simpl. by rewrite E.
      * intros ([|d' ds] & E & ->); [discriminate|]. injection E as <- E. by exists ds.
    + split; [done|]. intros ([|d' ds] & E & ->); discriminate.
Qed.

(** What [parse_u64] accepts. *)
Lemma parse_u64_spec text n :
  parse_u64 text = Value n <->
  text <> "" /\ (exists ds, map digit (chars text) = map Some ds /\ n = horner ds 0) /\ n <= u64_max.
Proof.
  unfold parse_u64, from_chars. destruct text as [|c s]; [by split; [|intros [? _]]|].
  cbn [is_empty orb]. destruct (starts_with_dash (String c s)) eqn:Dash.
  { split; [done|]. intros (_ & (ds & E & _) & _).
    assert (Hc : c = "-"%char) by (by destruct c as [[] [] [] [] [] [] [] []]). subst c.
    destruct ds; discriminate. }
  destruct (digit c) as [d|] eqn:D.
  2: { split; [done|]. intros (_ & (ds & E & _) & _). simpl in E. rewrite D in E.
       destruct ds; discriminate. }
  destruct (scan_digits (String c s) 0) as [v rest] eqn:Sc. rewrite Z.gtb_ltb. split.
  - destruct (Z.ltb_spec u64_max v); [done|]. destruct rest; [|done]. intros [= <-].
    apply scan_digits_spec in Sc. by split_and!.
  - intros (_ & H & Hn). apply scan_digits_spec in H. rewrite Sc in H. injection H as -> ->.
    by destruct (Z.ltb_spec u64_max n); [lia|].
Qed.

Lemma parse_size_u64 text : parse_size text = parse_u64 text.
Proof.
  unfold parse_size, expected_bind. destruct (parse_u64 text) as [n|s] eqn:E.
  - apply parse_u64_spec in E as (_ & _ & Hn). rewrite Z.gtb_ltb.
    by destruct (Z.ltb_spec u64_max n); [lia|].
  - unfold parse_u64, invalid in E. destruct (_ || _); [by injection E as <-|].
    destruct (from_chars text) as [[[] ?] []]; try done; by injection E as <-.
Qed.

(** Printing: at most twenty digits for 64 bits. *)
Definition digit_char (d : Z) : ascii := ascii_of_N (Z.to_N (48 + d)).
Fixpoint print_digits (fuel : nat) (n : Z) (acc : string) : string :=
  match fuel with
  | O => acc
  | S fuel =>
      let acc := String (digit_char (n mod 10)) acc in
      if n <? 10 then acc else print_digits fuel (n / 10) acc
  end.
Definition print_u64 (n : Z) : string := print_digits 20 n "".

Lemma digit_digit_char d : 0 <= d < 10 -> digit (digit_char d) = Some d.
Proof.
  intros H. assert (C : d = 0 \/ d = 1 \/ d = 2 \/ d = 3 \/ d = 4 \/ d = 5 \/ d = 6 \/ d = 7 \/
    d = 8 \/ d = 9) by lia.
  by repeat destruct C as [-> | C]; [..|subst d].
Qed.

Lemma scan_print fuel : forall n acc,
  0 <= n < 10 ^ Z.of_nat fuel -> scan_digits (print_digits fuel n acc) 0 = scan_digits acc n.
Proof.
  induction fuel as [|fuel IH]; intros n acc Hn.
  { simpl in *. by replace n with 0 by lia. }
  pose proof (Z.mod_pos_bound n 10 ltac:(lia)). cbn [print_digits].
  assert (Hstep : forall a, scan_digits (String (digit_char (n mod 10)) acc) a =
    scan_digits acc (10 * a + n mod 10)).
  { intros a. cbn [scan_digits]. by rewrite digit_digit_char by lia. }
  destruct (Z.ltb_spec n 10).
  - rewrite Hstep. f_equal. rewrite Z.mod_small by lia. lia.
  - rewrite IH, Hstep; [f_equal; pose proof (Z.div_mod n 10); lia|].
    replace (Z.of_nat (S fuel)) with (Z.of_nat fuel + 1) in Hn by lia.
    rewrite Z.pow_add_r in Hn by lia. split; [apply Z.div_pos; lia|].
    apply Z.div_lt_upper_bound; lia.
Qed.

Lemma print_head fuel : forall n acc, 0 <= n ->
  exists c s d, print_digits (S fuel) n acc = String c s /\ digit c = Some d.
Proof.
  induction fuel as [|fuel IH]; intros n acc Hn; pose proof (Z.mod_pos_bound n 10 ltac:(lia)).
  - simpl. exists (digit_char (n mod 10)), acc, (n mod 10).
    rewrite digit_digit_char by lia. by destruct (n <? 10).
  - cbn [print_digits]. destruct (n <? 10).
    + eexists _, _, _. split; [done|]. by apply digit_digit_char.
    + apply IH. apply Z.div_pos; lia.
Qed.

Lemma digit_not_dash c s d : digit c = Some d -> starts_with_dash (String c s) = false.
Proof. intros D. destruct c as [[] [] [] [] [] [] [] []]; try done. Qed.

Lemma print_u64_shape n : 0 <= n ->
  is_empty (print_u64 n) = false /\ starts_with_dash (print_u64 n) = false.
Proof.
  intros Hn. unfold print_u64. destruct (print_head 19 n "" Hn) as (c & s & d & -> & D).
  split; [done|]. by eapply digit_not_dash.
Qed.

Lemma parse_print n : in_width 64 n -> parse_u64 (print_u64 n) = Value n.
Proof.
  intros [H0 H1]. apply parse_u64_spec. split_and!.
  - intros E. pose proof (proj1 (print_u64_shape n H0)) as Hne. by rewrite E in Hne.
  - apply scan_digits_spec. unfold print_u64. rewrite scan_print; [done|].
    change (10 ^ Z.of_nat 20) with 100000000000000000000. lia.
  - unfold u64_max. lia.
Qed.

(** ** The loop *)

Lemma cursor_value_progress args i v i' :
  cursor_value args i = Value (v, i') -> (i <= i')%nat.
Proof.
  unfold cursor_value, invalid, Expected_of_status. destruct (after_eq _).
  - destruct (is_empty _); [done|]. intros [= _ <-]. lia.
  - destruct (_ <=? _)%nat; [done|]. destruct (_ || _); [done|]. intros [= _ <-]. lia.
Qed.

(** Takes a parser body apart along its branches. *)
Ltac body_cases :=
  repeat match goal with
  | |- context [if ?b then _ else _] => destruct b eqn:?
  | |- context [expected_bind (cursor_value ?args ?i) _] =>
      let E := fresh "Hcur" in
      destruct (cursor_value args i) as [[? ?]|?] eqn:E; cbn [expected_bind fst snd]
  | |- context [expected_bind ?e _] =>
      let E := fresh "Hval" in destruct e eqn:E; cbn [expected_bind fst snd]
  end.

Section LoopProofs.
Context {Opts : Type} (body : list string -> nat -> Opts -> Expected (Opts * nat)).

Definition body_progress : Prop := forall args i o o' i',
  body args i o = Value (o', i') -> (i <= i')%nat.

Lemma arg_loop_total : body_progress -> forall fuel args i o,
  (length args <= i + fuel)%nat -> exists e, arg_loop body fuel args i o = Done e.
Proof.
  intros Hb. induction fuel as [|fuel IH]; intros args i o Hf; simpl;
    (destruct (Nat.ltb_spec i (length args)); [|by eexists]); [lia|].
  destruct (body args i o) as [[o' i']|s] eqn:E; [|by eexists].
  apply Hb in E. apply IH. lia.
Qed.

(** A property of the options that every branch of the body keeps. *)
Lemma arg_loop_invariant (P : Opts -> Prop) :
  (forall args i o o' i', P o -> body args i o = Value (o', i') -> P o') ->
  forall fuel args i o o', P o -> arg_loop body fuel args i o = Done (Value o') -> P o'.
Proof.
  intros Hb. induction fuel as [|fuel IH]; intros args i o o' Ho; simpl;
    (destruct (_ <? _)%nat; [|by intros [= <-]]); [done|].
  destruct (body args i o) as [[o1 i1]|s] eqn:E; [|done]. eauto.
Qed.

(** [chunk_ok chunk f]: wherever the arguments [chunk] stand, the body uses exactly
    them and applies [f]. *)
Definition chunk_ok (chunk : list string) (f : Opts -> Opts) : Prop :=
  chunk <> [] /\ forall pre post o,
  body (pre ++ chunk ++ post)%list (length pre) o =
    Value (f o, (length pre + length chunk - 1)%nat).

Lemma arg_loop_chunks chunks : forall fuel pre o,
  Forall (fun c => chunk_ok c.1 c.2) chunks -> (length (concat (map fst chunks)) <= fuel)%nat ->
  arg_loop body fuel (pre ++ concat (map fst chunks))%list (length pre) o =
    Done (Value (foldl (fun o c => c.2 o) o chunks)).
Proof.
  induction chunks as [|[chunk f] chunks IH]; intros fuel pre o Hok Hf; simpl.
  - rewrite app_nil_r. destruct fuel; simpl; by rewrite Nat.ltb_irrefl.
  - inversion Hok as [|? ? [Hne Hc] Hrest]; subst. simpl in *. rewrite length_app in Hf.
    destruct chunk as [|a chunk]; [done|]. destruct fuel as [|fuel]; [simpl in Hf; lia|].
    cbn [arg_loop]. destruct (Nat.ltb_spec (length pre)
      (length (pre ++ (a :: chunk) ++ concat (map fst chunks)))) as [_|H].
    2: { rewrite !length_app in H. simpl in H. lia. }
    rewrite Hc. replace (S (length pre + length (a :: chunk) - 1))%nat
      with (length (pre ++ a :: chunk)) by (rewrite length_app; simpl; lia).
    rewrite (app_assoc pre (a :: chunk)). apply IH; [done|]. simpl in Hf. lia.
Qed.
End LoopProofs.

(** ** Printing options *)

(** An option with its value, as one argument or as two. *)
Definition render_option (eq : bool) (opt v : string) : list string :=
  if eq then [opt ++ "=" ++ v] else [opt; v].

Definition value_ok (eq : bool) (v : string) : bool :=
  negb (is_empty v) && (eq || negb (starts_with_dash v)).

Lemma after_eq_app opt v : after_eq opt = None -> after_eq (opt ++ "=" ++ v) = Some v.
Proof. induction opt as [|c opt IH]; simpl; [done|]. by destruct (Ascii.eqb c "="); [|apply IH]. Qed.

Lemma arg_at_app pre l i : arg_at (pre ++ l)%list (length pre + i)%nat = arg_at l i.
Proof. unfold arg_at. by rewrite lookup_app_r, Nat.add_comm, Nat.add_sub by lia. Qed.

Lemma option_at eq opt v pre post :
  after_eq opt = None -> value_ok eq v = true ->
  let args := (pre ++ render_option eq opt v ++ post)%list in
  arg_at args (length pre) = (if eq then opt ++ "=" ++ v else opt) /\
  cursor_value args (length pre) =
    Value (v, (length pre + length (render_option eq opt v) - 1)%nat).
Proof.
  intros Ho Hv args. unfold value_ok in Hv. apply andb_true_iff in Hv as [He Hd].
  apply negb_true_iff in He.
  assert (Ha : arg_at args (length pre) = (if eq then opt ++ "=" ++ v else opt)).
  { unfold args. rewrite <- (Nat.add_0_r (length pre)), arg_at_app. by destruct eq. }
  split; [done|]. unfold cursor_value. rewrite Ha. destruct eq; simpl length.
  - rewrite after_eq_app, He by done. do 2 f_equal. lia.
  - rewrite Ho. unfold args at 1. rewrite !length_app. simpl length.
    destruct (Nat.leb_spec (length pre + (2 + length post)) (length pre + 1)); [lia|].
    replace (S (length pre)) with (length pre + 1)%nat by lia. unfold args. rewrite arg_at_app.
    change (arg_at (render_option false opt v ++ post)%list 1) with v.
    simpl in Hd. apply negb_true_iff in Hd. rewrite He, Hd. simpl. do 2 f_equal. lia.
Qed.

Lemma value_ok_number eq n : in_width 64 n -> value_ok eq (print_u64 n) = true.
Proof.
  intros [H _]. destruct (print_u64_shape n H) as [E D]. unfold value_ok. rewrite E, D.
  by destruct eq.
Qed.

Lemma prefix_app s t : String.prefix s (s ++ t) = true.
Proof.
  induction s as [|c s IH]; simpl; [by destruct t|]. by destruct (ascii_dec c c).
Qed.

Lemma matches_option eq opt v : matches (if eq : bool then opt ++ "=" ++ v else opt) opt = true.
Proof.
  unfold matches. destruct eq; [|by rewrite String.eqb_refl].
  assert (E : opt ++ "=" ++ v = (opt ++ "=") ++ v).
  { clear. induction opt as [|c opt IH]; [done|].
    change (String c (opt ++ "=" ++ v) = String c ((opt ++ "=") ++ v)). by rewrite IH. }
  rewrite E, prefix_app. apply orb_true_r.
Qed.

(** Decides the tests of a parser body on an option whose name is known. *)
Ltac decide_tests eq :=
  repeat match goal with
  | |- context [is_help ?a] =>
      let E := fresh in assert (E : is_help a = false) by (destruct eq; reflexivity); rewrite E
  | |- context [matches ?a ?o] =>
      let E := fresh in
      first [assert (E : matches a o = false) by (destruct eq; reflexivity)
            |assert (E : matches a o = true) by apply matches_option]; rewrite E
  | |- context [String.eqb ?a ?o] =>
      let E := fresh in assert (E : String.eqb a o = false) by (destruct eq; reflexivity); rewrite E
  end; cbv iota; cbn [expected_bind fst snd].

(** Proves [chunk_ok] for an option with a value. *)
Ltac option_chunk body eq opt v Hv :=
  split; [destruct eq; discriminate|]; intros pre post [];
  let Ha := fresh in let Hc := fresh in
  destruct (option_at eq opt v pre post eq_refl Hv) as [Ha Hc];
  unfold body; rewrite Ha; decide_tests eq; rewrite Hc; cbn [expected_bind fst snd];
  rewrite ?parse_size_u64, ?parse_print by done; cbn [expected_bind]; try reflexivity.

(** Proves [chunk_ok] for a flag. *)
Ltac flag_chunk body :=
  split; [discriminate|]; intros pre post []; unfold body;
  match goal with |- context [arg_at ?l (length pre)] =>
    replace (arg_at l (length pre)) with (arg_at l (length pre + 0)%nat) by (f_equal; lia) end;
  rewrite arg_at_app; simpl; do 2 f_equal; lia.

Section Render.
Context (eq : bool).
Local Abbreviation num n := (print_u64 n).

Definition bench_chunks (o : BenchOptions) : list (list string * (BenchOptions -> BenchOptions)) :=
  ((if bench_help o
    then [(["--help"], fun '(mkBench _ m p c d) => mkBench true m p c d)] else []) ++
  [(render_option eq "--messages" (num (bench_messages o)),
    fun '(mkBench h _ p c d) => mkBench h (bench_messages o) p c d);
   (render_option eq "--payload-size" (num (bench_payload_size o)),
    fun '(mkBench h m _ c d) => mkBench h m (bench_payload_size o) c d);
   (render_option eq "--capacity" (num (bench_capacity o)),
    fun '(mkBench h m p _ d) => mkBench h m p (bench_capacity o) d);
   (render_option eq "--output-dir" (bench_output_dir o),
    fun '(mkBench h m p c _) => mkBench h m p c (bench_output_dir o))])%list.

Definition pub_chunks (o : PubOptions) : list (list string * (PubOptions -> PubOptions)) :=
  ((if pub_help o then [(["-h"], fun '(mkPub _ w m s f) => mkPub true w m s f)] else []) ++
  (if pub_flush_on_commit o
   then [(["--flush-on-commit"], fun '(mkPub h w m s _) => mkPub h w m s true)] else []) ++
  [(render_option eq "--wal" (pub_wal_path o),
    fun '(mkPub h _ m s f) => mkPub h (pub_wal_path o) m s f);
   (render_option eq "--messages" (num (pub_messages o)),
    fun '(mkPub h w _ s f) => mkPub h w (pub_messages o) s f);
   (render_option eq "--wal-size" (num (pub_wal_size_bytes o)),
    fun '(mkPub h w m _ f) => mkPub h w m (pub_wal_size_bytes o) f)])%list.

(** The subscriber's default path is empty and cannot be written as a value. *)
Definition sub_chunks (o : SubOptions) : list (list string * (SubOptions -> SubOptions)) :=
  ((if sub_help o then [(["--help"], fun '(mkSub _ w m l c) => mkSub true w m l c)] else []) ++
  (if is_empty (sub_wal_path o) then []
   else [(render_option eq "--wal" (sub_wal_path o),
          fun '(mkSub h _ m l c) => mkSub h (sub_wal_path o) m l c)]) ++
  [(render_option eq "--messages" (num (sub_messages o)),
    fun '(mkSub h w _ l c) => mkSub h w (sub_messages o) l c);
   (render_option eq "--limit" (num (sub_limit o)),
    fun '(mkSub h w m _ c) => mkSub h w m (sub_limit o) c);
   (render_option eq "--capacity" (num (sub_capacity o)),
    fun '(mkSub h w m l _) => mkSub h w m l (sub_capacity o))])%list.

Definition replay_chunks (o : ReplayOptions) : list (list string * (ReplayOptions -> ReplayOptions)) :=
  ((if replay_help o then [(["-h"], fun '(mkReplay _ w l p) => mkReplay true w l p)] else []) ++
  [(render_option eq "--wal" (replay_wal_path o),
    fun '(mkReplay h _ l p) => mkReplay h (replay_wal_path o) l p);
   (render_option eq "--limit" (num (replay_limit o)),
    fun '(mkReplay h w _ p) => mkReplay h w (replay_limit o) p);
   (render_option eq "--payload-preview-bytes" (num (replay_payload_preview_bytes o)),
    fun '(mkReplay h w l _) => mkReplay h w l (replay_payload_preview_bytes o))])%list.

Definition inspect_chunks (o : InspectWalOptions)
    : list (list string * (InspectWalOptions -> InspectWalOptions)) :=
  ((if inspect_help o
    then [(["--help"], fun '(mkInspect _ w l v) => mkInspect true w l v)] else []) ++
  (if inspect_verbose o
   then [(["--verbose"], fun '(mkInspect h w l _) => mkInspect h w l true)] else []) ++
  [(render_option eq "--wal" (inspect_wal_path o),
    fun '(mkInspect h _ l v) => mkInspect h (inspect_wal_path o) l v);
   (render_option eq "--limit" (num (inspect_limit o)),
    fun '(mkInspect h w _ v) => mkInspect h w (inspect_limit o) v)])%list.

(** The arguments after the program name. *)
Definition render {Opts} (chunks : list (list string * (Opts -> Opts))) : list string :=
  concat (map fst chunks).

(** The options a user can write. *)
Definition bench_ok (o : BenchOptions) : Prop :=
  in_width 64 (bench_messages o) /\ is_supported (bench_payload_size o) supported_payload_sizes = true /\
  is_supported (bench_capacity o) supported_capacities = true /\
  value_ok eq (bench_output_dir o) = true.
Definition pub_ok (o : PubOptions) : Prop :=
  value_ok eq (pub_wal_path o) = true /\ in_width 64 (pub_messages o) /\
  in_width 64 (pub_wal_size_bytes o).
Definition sub_ok (o : SubOptions) : Prop :=
  (is_empty (sub_wal_path o) = false -> value_ok eq (sub_wal_path o) = true) /\
  in_width 64 (sub_messages o) /\ in_width 64 (sub_limit o) /\
  is_supported (sub_capacity o) supported_capacities = true.
Definition replay_ok (o : ReplayOptions) : Prop :=
  value_ok eq (replay_wal_path o) = true /\ in_width 64 (replay_limit o) /\
  in_width 64 (replay_payload_preview_bytes o).
Definition inspect_ok (o : InspectWalOptions) : Prop :=
  value_ok eq (inspect_wal_path o) = true /\ in_width 64 (inspect_limit o).
End Render.

Lemma parse_chunks {Opts} (body : list string -> nat -> Opts -> Expected (Opts * nat)) init prog
    chunks o :
  Forall (fun c => chunk_ok body c.1 c.2) chunks -> foldl (fun o c => c.2 o) init chunks = o ->
  parse_args body init (prog :: render chunks) = Done (Value o).
Proof.
  intros Hok <-. unfold parse_args. apply (arg_loop_chunks body chunks _ [prog]); [done|].
  simpl. unfold render. lia.
Qed.

Lemma supported_width v l :
  Forall (in_width 64) l -> is_supported v l = true -> in_width 64 v.
Proof.
  intros F. unfold is_supported. rewrite existsb_exists. intros (x & Hin & ->%Z.eqb_eq).
  rewrite List.Forall_forall in F. by apply F.
Qed.

Lemma capacities_width : Forall (in_width 64) supported_capacities.
Proof. by repeat constructor. Qed.
Lemma payload_sizes_width : Forall (in_width 64) supported_payload_sizes.
Proof. by repeat constructor. Qed.

Lemma pub_roundtrip eq prog o :
  pub_ok eq o -> parse_pub_args (prog :: render (pub_chunks eq o)) = Done (Value o).
Proof.
  intros (Hp & Hm & Hs). apply parse_chunks.
  - unfold pub_chunks. apply Forall_app; split.
    { destruct (pub_help o); [|done]. constructor; [flag_chunk pub_body|done]. }
    apply Forall_app; split.
    { destruct (pub_flush_on_commit o); [|done]. constructor; [flag_chunk pub_body|done]. }
    pose proof (value_ok_number eq _ Hm) as Vm. pose proof (value_ok_number eq _ Hs) as Vs.
    repeat apply Forall_cons_2; try apply Forall_nil_2; cbn [fst snd].
    + option_chunk pub_body eq "--wal" (pub_wal_path o) Hp.
    + option_chunk pub_body eq "--messages" (print_u64 (pub_messages o)) Vm.
    + option_chunk pub_body eq "--wal-size" (print_u64 (pub_wal_size_bytes o)) Vs.
  - by destruct o as [[] ? ? ? []].
Qed.

Lemma bench_roundtrip eq prog o :
  bench_ok eq o -> parse_bench_args (prog :: render (bench_chunks eq o)) = Done (Value o).
Proof.
  intros (Hm & Hp & Hc & Hd).
  pose proof (supported_width _ _ payload_sizes_width Hp) as Wp.
  pose proof (supported_width _ _ capacities_width Hc) as Wc.
  pose proof (value_ok_number eq _ Hm) as Vm. pose proof (value_ok_number eq _ Wp) as Vp.
  pose proof (value_ok_number eq _ Wc) as Vc. apply parse_chunks.
  - unfold bench_chunks. apply Forall_app; split.
    { destruct (bench_help o); [|done]. constructor; [flag_chunk bench_body|done]. }
    repeat apply Forall_cons_2; try apply Forall_nil_2; cbn [fst snd].
    + option_chunk bench_body eq "--messages" (print_u64 (bench_messages o)) Vm.
    + option_chunk bench_body eq "--payload-size" (print_u64 (bench_payload_size o)) Vp. by rewrite Hp.
    + option_chunk bench_body eq "--capacity" (print_u64 (bench_capacity o)) Vc. by rewrite Hc.
    + option_chunk bench_body eq "--output-dir" (bench_output_dir o) Hd.
  - by destruct o as [[] ? ? ? ?].
Qed.

Lemma sub_roundtrip eq prog o :
  sub_ok eq o -> parse_sub_args (prog :: render (sub_chunks eq o)) = Done (Value o).
Proof.
  intros (Hp & Hm & Hl & Hc). pose proof (supported_width _ _ capacities_width Hc) as Wc.
  pose proof (value_ok_number eq _ Hm) as Vm. pose proof (value_ok_number eq _ Hl) as Vl.
  pose proof (value_ok_number eq _ Wc) as Vc. apply parse_chunks.
  - unfold sub_chunks. apply Forall_app; split.
    { destruct (sub_help o); [|done]. constructor; [flag_chunk sub_body|done]. }
    apply Forall_app; split.
    { destruct (is_empty (sub_wal_path o)); [done|]. specialize (Hp eq_refl).
      constructor; [|done]. cbn [fst snd]. option_chunk sub_body eq "--wal" (sub_wal_path o) Hp. }
    repeat apply Forall_cons_2; try apply Forall_nil_2; cbn [fst snd].
    + option_chunk sub_body eq "--messages" (print_u64 (sub_messages o)) Vm.
    + option_chunk sub_body eq "--limit" (print_u64 (sub_limit o)) Vl.
    + option_chunk sub_body eq "--capacity" (print_u64 (sub_capacity o)) Vc. by rewrite Hc.
  - by destruct o as [[] [|] ? ? ?].
Qed.

Lemma replay_roundtrip eq prog o :
  replay_ok eq o -> parse_replay_args (prog :: render (replay_chunks eq o)) = Done (Value o).
Proof.
  intros (Hp & Hl & Hb). pose proof (value_ok_number eq _ Hl) as Vl.
  pose proof (value_ok_number eq _ Hb) as Vb. apply parse_chunks.
  - unfold replay_chunks. apply Forall_app; split.
    { destruct (replay_help o); [|done]. constructor; [flag_chunk replay_body|done]. }
    repeat apply Forall_cons_2; try apply Forall_nil_2; cbn [fst snd].
    + option_chunk replay_body eq "--wal" (replay_wal_path o) Hp.
    + option_chunk replay_body eq "--limit" (print_u64 (replay_limit o)) Vl.
    + option_chunk replay_body eq "--payload-preview-bytes"
        (print_u64 (replay_payload_preview_bytes o)) Vb.
  - by destruct o as [[] ? ? ?].
Qed.

Lemma inspect_roundtrip eq prog o :
  inspect_ok eq o -> parse_inspect_wal_args (prog :: render (inspect_chunks eq o)) = Done (Value o).
Proof.
  intros (Hp & Hl). pose proof (value_ok_number eq _ Hl) as Vl. apply parse_chunks.
  - unfold inspect_chunks. apply Forall_app; split.
    { destruct (inspect_help o); [|done]. constructor; [flag_chunk inspect_body|done]. }
    apply Forall_app; split.
    { destruct (inspect_verbose o); [|done]. constructor; [flag_chunk inspect_body|done]. }
    repeat apply Forall_cons_2; try apply Forall_nil_2; cbn [fst snd].
    + option_chunk inspect_body eq "--wal" (inspect_wal_path o) Hp.
    + option_chunk inspect_body eq "--limit" (print_u64 (inspect_limit o)) Vl.
  - by destruct o as [[] ? ? []].
Qed.

(** ** Every branch of the bodies *)

Ltac progress_tac body :=
  intros args i [] o' i'; unfold body, invalid, Expected_of_status; body_cases;
  try discriminate; intros [= _ <-];
  try (match goal with H : cursor_value _ _ = _ |- _ => apply cursor_value_progress in H end); lia.

Lemma bench_progress : body_progress bench_body.
Proof. progress_tac bench_body. Qed.
Lemma pub_progress : body_progress pub_body.
Proof. progress_tac pub_body. Qed.
Lemma sub_progress : body_progress sub_body.
Proof. progress_tac sub_body. Qed.
Lemma replay_progress : body_progress replay_body.
Proof. progress_tac replay_body. Qed.
Lemma inspect_progress : body_progress inspect_body.
Proof. progress_tac inspect_body. Qed.

Lemma parse_args_total {Opts} (body : list string -> nat -> Opts -> Expected (Opts * nat)) init args :
  body_progress body -> exists e, parse_args body init args = Done e.
Proof. intros H. apply arg_loop_total; [done|]. lia. Qed.

(** The capacities and payload sizes the tools can dispatch on. *)
Definition bench_supported (o : BenchOptions) : Prop :=
  In (bench_payload_size o) supported_payload_sizes /\ In (bench_capacity o) supported_capacities.
Definition sub_supported (o : SubOptions) : Prop := In (sub_capacity o) supported_capacities.

Lemma is_supported_in v l : is_supported v l = true -> In v l.
Proof. unfold is_supported. rewrite existsb_exists. by intros (x & Hin & ->%Z.eqb_eq). Qed.

Ltac supported_tac body :=
  unfold body, invalid, Expected_of_status; body_cases; try discriminate; intros [= <- <-];
  cbn [bench_payload_size bench_capacity sub_capacity] in *;
  repeat match goal with H : negb _ = false |- _ => apply negb_false_iff in H end;
  eauto using is_supported_in.

Lemma bench_body_supported args i o o' i' :
  bench_supported o -> bench_body args i o = Value (o', i') -> bench_supported o'.
Proof. unfold bench_supported. destruct o. intros [? ?]. supported_tac bench_body. Qed.

Lemma sub_body_supported args i o o' i' :
  sub_supported o -> sub_body args i o = Value (o', i') -> sub_supported o'.
Proof. unfold sub_supported. destruct o. intros ?. supported_tac sub_body. Qed.

(** Parsed numbers are 64-bit values. *)

Lemma digit_nonneg c d : digit c = Some d -> 0 <= d.
Proof. unfold digit. case_match eqn:E; [|done]. intros [= <-]. lia. Qed.

Lemma horner_nonneg ds : forall acc, 0 <= acc -> Forall (Z.le 0) ds -> 0 <= horner ds acc.
Proof.
  induction ds as [|d ds IH]; intros acc Ha Hd; [done|]. inversion Hd; subst.
  apply IH; [lia|done].
Qed.

Lemma parse_u64_width text n : parse_u64 text = Value n -> in_width 64 n.
Proof.
  intros (_ & (ds & Hd & ->) & Hmax)%parse_u64_spec. unfold u64_max in Hmax. split; [|lia].
  apply horner_nonneg; [lia|]. clear Hmax. revert ds Hd.
  induction (chars text) as [|c l IH]; intros [|d ds] [=]; constructor; eauto using digit_nonneg.
Qed.

Ltac width_tac body :=
  unfold body, invalid, Expected_of_status; body_cases; try discriminate; intros [= <- <-];
  simpl in *; eauto using parse_u64_width.

Lemma pub_parsed argv o : parse_pub_args argv = Done (Value o) ->
  in_width 64 (pub_messages o) /\ in_width 64 (pub_wal_size_bytes o).
Proof.
  apply (arg_loop_invariant pub_body
    (fun o => in_width 64 (pub_messages o) /\ in_width 64 (pub_wal_size_bytes o))); [|by vm_compute].
  intros args i [] o' i' [? ?]. width_tac pub_body.
Qed.

Lemma sub_parsed argv o : parse_sub_args argv = Done (Value o) ->
  in_width 64 (sub_messages o) /\ in_width 64 (sub_limit o).
Proof.
  apply (arg_loop_invariant sub_body
    (fun o => in_width 64 (sub_messages o) /\ in_width 64 (sub_limit o))); [|by vm_compute].
  intros args i [] o' i' [? ?]. width_tac sub_body.
Qed.

Lemma replay_limit_parsed argv o :
  parse_replay_args argv = Done (Value o) -> in_width 64 (replay_limit o).
Proof.
  apply (arg_loop_invariant replay_body (fun o => in_width 64 (replay_limit o))); [|by vm_compute].
  intros args i [] o' i' ?. width_tac replay_body.
Qed.

Lemma inspect_limit_parsed argv o :
  parse_inspect_wal_args argv = Done (Value o) -> in_width 64 (inspect_limit o).
Proof.
  apply (arg_loop_invariant inspect_body (fun o => in_width 64 (inspect_limit o))); [|by vm_compute].
  intros args i [] o' i' ?. width_tac inspect_body.
Qed.

Lemma sub_capacity_parsed argv o : parse_sub_args argv = Done (Value o) -> sub_supported o.
Proof.
  apply (arg_loop_invariant sub_body _ sub_body_supported). unfold sub_supported. simpl. tauto.
Qed.

(** ** Properties *)

(** Numbers are read exactly.  [parse_u64] accepts a text as [n] exactly when
    it is a non-empty string of decimal digits whose value is [n] and fits 64 bits;
    and it reads back what is printed. *)
Theorem cli_parse_u64_exact (text : string) (n : Z) :
  (parse_u64 text = Value n <->
   text <> "" /\ (exists ds, map digit (chars text) = map Some ds /\ n = horner ds 0) /\
   n <= u64_max) /\
  (in_width 64 n -> parse_u64 (print_u64 n) = Value n).
Proof. split; [apply parse_u64_spec|apply parse_print]. Qed.

Lemma cli_parse_u64_exact_witness :
  in_width 64 18446744073709551615 /\
  parse_u64 (print_u64 18446744073709551615) = Value 18446744073709551615.
Proof.
  assert (H : in_width 64 18446744073709551615) by (vm_compute; split; [discriminate|reflexivity]).
  split; [exact H|].
  exact (proj2 (cli_parse_u64_exact "18446744073709551615" 18446744073709551615) H).
Defined.

(** The parsers always return.  For any argument vector, empty ones
    included, each of the five parsers finishes within one iteration per argument. *)
Theorem cli_parsers_terminate (args : list string) :
  (exists e, parse_bench_args args = Done e) /\ (exists e, parse_pub_args args = Done e) /\
  (exists e, parse_sub_args args = Done e) /\ (exists e, parse_replay_args args = Done e) /\
  (exists e, parse_inspect_wal_args args = Done e).
Proof.
  split_and!; apply parse_args_total; [apply bench_progress|apply pub_progress|apply sub_progress
    |apply replay_progress|apply inspect_progress].
Qed.

(** C30. Options survive printing and parsing.  For each tool, any options a user
    can write, printed as [--name=value] or as [--name value] arguments, are parsed
    back unchanged. *)
Theorem cli_roundtrip (eq : bool) (prog : string) (b : BenchOptions) (p : PubOptions)
    (s : SubOptions) (r : ReplayOptions) (i : InspectWalOptions) :
  bench_ok eq b -> pub_ok eq p -> sub_ok eq s -> replay_ok eq r -> inspect_ok eq i ->
  parse_bench_args (prog :: render (bench_chunks eq b)) = Done (Value b) /\
  parse_pub_args (prog :: render (pub_chunks eq p)) = Done (Value p) /\
  parse_sub_args (prog :: render (sub_chunks eq s)) = Done (Value s) /\
  parse_replay_args (prog :: render (replay_chunks eq r)) = Done (Value r) /\
  parse_inspect_wal_args (prog :: render (inspect_chunks eq i)) = Done (Value i).
Proof.
  intros. split_and!; [by apply bench_roundtrip|by apply pub_roundtrip|by apply sub_roundtrip
    |by apply replay_roundtrip|by apply inspect_roundtrip].
Qed.

Lemma cli_roundtrip_witness :
  render (pub_chunks true (mkPub false "-x=y.wal" 7 4096 true)) =
    ["--flush-on-commit"; "--wal=-x=y.wal"; "--messages=7"; "--wal-size=4096"] /\
  parse_pub_args ("aether_pub" :: render (pub_chunks true (mkPub false "-x=y.wal" 7 4096 true))) =
    Done (Value (mkPub false "-x=y.wal" 7 4096 true)).
Proof.
  split; [reflexivity|].
  apply (cli_roundtrip true "aether_pub" BenchOptions_default (mkPub false "-x=y.wal" 7 4096 true)
    SubOptions_default ReplayOptions_default InspectWalOptions_default);
    vm_compute; repeat split; discriminate || reflexivity || congruence.
Defined.

(** Accepted sizes can be dispatched.  Whatever the arguments, options the
    benchmark or the subscriber parser accepts carry a capacity (and payload size)
    of the supported lists, so that the default branches of their switches are
    never taken. *)
Theorem cli_sizes_supported (args : list string) :
  (forall o, parse_bench_args args = Done (Value o) -> bench_supported o) /\
  (forall o, parse_sub_args args = Done (Value o) -> sub_supported o).
Proof.
  split; intros o.
  - apply (arg_loop_invariant bench_body _ bench_body_supported). split; simpl; tauto.
  - apply sub_capacity_parsed.
Qed.

Lemma cli_sizes_supported_witness :
  parse_sub_args ["aether_sub"; "--capacity=64"] = Done (Value (mkSub false "" 10 10 64)) /\
  sub_supported (mkSub false "" 10 10 64).
Proof.
  split; [reflexivity|].
  exact (proj2 (cli_sizes_supported ["aether_sub"; "--capacity=64"]) (mkSub false "" 10 10 64)
    eq_refl).
Defined.
