(* ===== verification/Histogram.v ===== *)
(** * The latency histogram

    metrics/latency_histogram.hpp and .cpp.  The samples are 64-bit integers;
    percentiles and the mean are computed in IEEE binary64 arithmetic, which is
    modelled by exact rational results rounded to 53 bits, ties to even, with
    gradual underflow (no result here comes near the overflow threshold). *)

From stdpp Require Import sets sorting.
From S2P Require Import Prelude.
#[local] Open Scope Z_scope.

(** ** binary64 *)

(** [Finite m e] is [m * 2^e]. *)
Inductive double : Set := Finite (m e : Z) | Infinity (negative : bool) | NaN.

(** Integer division rounded to nearest, ties to even. *)
Definition div_even (a b : Z) : Z :=
  let q := a / b in
  let r := a mod b in
  match 2 * r ?= b with
  | Lt => q
  | Gt => q + 1
  | Eq => if Z.even q then q else q + 1
  end.

(** [2^x] where [x] is positive, and 1 otherwise. *)
Definition pow2 (x : Z) : Z := 2 ^ Z.max x 0.

(** The exponent of the last place of [num/den]. *)
Definition ulp_exponent (num den : Z) : Z :=
  let e := Z.log2 num - Z.log2 den - 52 in
  let e := if num * pow2 (- (52 + e)) <? den * pow2 (52 + e) then e - 1 else e in
  Z.max e (-1074).

(** Rounds the non-negative rational [num/den]. *)
Definition round (num den : Z) : double :=
  if num =? 0 then Finite 0 0
  else
    let e := ulp_exponent num den in
    Finite (div_even (num * pow2 (- e)) (den * pow2 e)) e.

(** [static_cast<double>] of an unsigned integer. *)
Definition double_of_u64 (n : Z) : double := round n 1.

(** Operations on finite non-negative numbers; the callers below have no others. *)
Definition double_div (a b : double) : double :=
  match a, b with
  | Finite m1 e1, Finite m2 e2 => round (m1 * pow2 (e1 - e2)) (m2 * pow2 (e2 - e1))
  | _, _ => NaN
  end.
Definition double_mul (a b : double) : double :=
  match a, b with
  | Finite m1 e1, Finite m2 e2 => round (m1 * m2 * pow2 (e1 + e2)) (pow2 (- (e1 + e2)))
  | _, _ => NaN
  end.
Definition double_add (a b : double) : double :=
  match a, b with
  | Finite m1 e1, Finite m2 e2 =>
      let e := Z.min e1 e2 in
      round ((m1 * 2 ^ (e1 - e) + m2 * 2 ^ (e2 - e)) * pow2 e) (pow2 (- e))
  | _, _ => NaN
  end.

(** Comparison with an integer; every comparison with a NaN is false. *)
Definition double_le_int (a : double) (k : Z) : bool :=
  match a with
  | Finite m e => m * pow2 e <=? k * pow2 (- e)
  | Infinity negative => negative
  | NaN => false
  end.
Definition double_ge_int (a : double) (k : Z) : bool :=
  match a with
  | Finite m e => k * pow2 (- e) <=? m * pow2 e
  | Infinity negative => negb negative
  | NaN => false
  end.

(** [static_cast<std::size_t>(std::ceil(a))]; [None] where the conversion is
    undefined. *)
Definition ceil_to_size_t (a : double) : option Z :=
  match a with
  | Finite m e =>
      let c := - (- (m * pow2 e) / pow2 (- e)) in
      if (0 <=? c) && (c <=? u64_max) then Some c else None
  | _ => None
  end.

(** ** The histogram *)

Record LatencyHistogram : Set := mkHistogram { samples_ : list Z }.

Module Histogram.

Definition init : LatencyHistogram := mkHistogram [].
(** Reserving changes the capacity of the vector only. *)
Definition reserve (count : Z) (h : LatencyHistogram) : LatencyHistogram := h.
(** [LatencyHistogram(reserve_count)]. *)
Definition of_reserve (reserve_count : Z) : LatencyHistogram := reserve reserve_count init.
Definition record (latency_ns : Z) (h : LatencyHistogram) : LatencyHistogram :=
  mkHistogram (samples_ h ++ [latency_ns]).
Definition clear (h : LatencyHistogram) : LatencyHistogram := mkHistogram [].
Definition empty (h : LatencyHistogram) : bool := bool_decide (samples_ h = []).
Definition count (h : LatencyHistogram) : Z := Z.of_nat (length (samples_ h)).

(** [*std::min_element] and [*std::max_element]. *)
Definition min (h : LatencyHistogram) : Z :=
  match samples_ h with [] => 0 | x :: xs => foldl Z.min x xs end.
Definition max (h : LatencyHistogram) : Z :=
  match samples_ h with [] => 0 | x :: xs => foldl Z.max x xs end.

Definition mean (h : LatencyHistogram) : double :=
  match samples_ h with
  | [] => Finite 0 0
  | _ =>
      let total := foldl (fun acc x => double_add acc (double_of_u64 x)) (Finite 0 0) (samples_ h) in
      double_div total (double_of_u64 (count h))
  end.

(** [rank]. *)
Definition rank (percentile_value : double) (n : Z) : option Z :=
  ceil_to_size_t (double_mul (double_div percentile_value (Finite 100 0)) (double_of_u64 n)).

(** [percentile(percentile_value)]; [None] is undefined behaviour. *)
Definition percentile (percentile_value : double) (h : LatencyHistogram) : option Z :=
  match samples_ h with
  | [] => Some 0
  | _ =>
      if double_le_int percentile_value 0 then Some (min h)
      else if double_ge_int percentile_value 100 then Some (max h)
      else
        let sorted := merge_sort Z.le (samples_ h) in
        rank ← rank percentile_value (Z.of_nat (length sorted));
        let index := (if rank =? 0 then 1 else rank) ⊟ 1 in
        sorted !! Z.to_nat index
  end.

(** The literals 50.0, 95.0, 99.0 and 99.9. *)
Definition p50 : LatencyHistogram -> option Z := percentile (round 50 1).
Definition p95 : LatencyHistogram -> option Z := percentile (round 95 1).
Definition p99 : LatencyHistogram -> option Z := percentile (round 99 1).
Definition p999 : LatencyHistogram -> option Z := percentile (round 999 10).
End Histogram.

(** The inputs of the unit test. *)
Example ordered_percentiles :
  let h := mkHistogram [10; 20; 30; 40; 50] in
  (Histogram.p50 h, Histogram.p95 h, Histogram.p99 h) = (Some 30, Some 50, Some 50).
Proof. vm_compute. reflexivity. Qed.
Example unordered_percentiles :
  let h := mkHistogram [100; 10; 50; 20] in
  (Histogram.percentile (round 50 1) h, Histogram.percentile (round 75 1) h,
   Histogram.percentile (Finite (-10) 0) h, Histogram.percentile (round 150 1) h)
  = (Some 20, Some 50, Some 10, Some 100).
Proof. vm_compute. reflexivity. Qed.
Example double_999 : round 999 10 = Finite 7029837543348634 (-46).
Proof. vm_compute. reflexivity. Qed.

(** ** Rounding *)

Lemma pow2_pos x : 0 < pow2 x.
Proof. unfold pow2. apply Z.pow_pos_nonneg; lia. Qed.

Lemma pow2_split x : pow2 x = 1 /\ x <= 0 \/ pow2 (- x) = 1 /\ 0 <= x.
Proof. unfold pow2. destruct (Z.max_spec x 0), (Z.max_spec (- x) 0);
  (left; replace (Z.max x 0) with 0 by lia; split; [done|lia]) ||
  (right; replace (Z.max (- x) 0) with 0 by lia; split; [done|lia]). Qed.

(** Multiplication by a power of two, as a ratio. *)
Lemma pow2_ratio a b : pow2 a * pow2 (- b) * pow2 (b - a) = pow2 (- a) * pow2 b * pow2 (a - b).
Proof.
  unfold pow2. rewrite <- !Z.pow_add_r by lia. f_equal. lia.
Qed.

Lemma div_even_le a b c : 0 < b -> a <= c * b -> div_even a b <= c.
Proof.
  intros Hb Ha. unfold div_even. pose proof (Z.div_mod a b ltac:(lia)).
  pose proof (Z.mod_pos_bound a b Hb). set (q := a / b) in *. set (r := a mod b) in *.
  destruct (decide (r = 0)) as [Hr|Hr].
  - destruct (Z.compare_spec (2 * r) b); [lia|nia|lia].
  - assert (q + 1 <= c) by nia.
    destruct (2 * r ?= b); [destruct (Z.even q)| |]; lia.
Qed.

Lemma div_even_ge a b c : 0 < b -> c * b <= a -> c <= div_even a b.
Proof.
  intros Hb Ha. unfold div_even. pose proof (Z.div_mod a b ltac:(lia)).
  pose proof (Z.mod_pos_bound a b Hb). set (q := a / b) in *.
  assert (c <= q) by nia. destruct (2 * _ ?= b); [destruct (Z.even q)| |]; lia.
Qed.

(** A rational below [2^(53+t)] is rounded at a place not above [2^t]. *)
Lemma ulp_exponent_le num den t :
  0 < num -> 0 < den -> -1074 <= t -> num * pow2 (- (53 + t)) < den * pow2 (53 + t) ->
  ulp_exponent num den <= t.
Proof.
  intros Hn Hd Ht Hlt. unfold ulp_exponent.
  set (e := Z.log2 num - Z.log2 den - 52).
  assert (He : e <= t + 1).
  { pose proof (Z.log2_spec num Hn) as [Hn1 Hn2]. pose proof (Z.log2_spec den Hd) as [Hd1 Hd2].
    pose proof (Z.log2_nonneg num). pose proof (Z.log2_nonneg den).
    destruct (decide (e <= t + 1)); [done|exfalso]. unfold e in *.
    assert (Z.log2 den + 1 + (53 + t) <= Z.log2 num) by lia.
    destruct (pow2_split (53 + t)) as [[E Hs]|[E Hs]]; rewrite E in Hlt.
    - unfold pow2 in Hlt. rewrite Z.max_l in Hlt by lia.
      assert (2 ^ (Z.log2 den + 1) <= 2 ^ (Z.log2 num + - (53 + t))) by (apply Z.pow_le_mono_r; lia).
      rewrite Z.pow_add_r in * by lia. replace (Z.succ (Z.log2 den)) with (Z.log2 den + 1) in * by lia.
      rewrite Z.pow_add_r in * by lia. assert (0 < 2 ^ (- (53 + t))) by (apply Z.pow_pos_nonneg; lia).
      nia.
    - unfold pow2 in Hlt. rewrite Z.max_l in Hlt by lia.
      assert (2 ^ (Z.log2 den + 1 + (53 + t)) <= 2 ^ Z.log2 num) by (apply Z.pow_le_mono_r; lia).
      rewrite Z.pow_add_r in * by lia. replace (Z.succ (Z.log2 den)) with (Z.log2 den + 1) in * by lia.
      assert (0 < 2 ^ (53 + t)) by (apply Z.pow_pos_nonneg; lia). nia. }
  destruct (Z.ltb_spec (num * pow2 (- (52 + e))) (den * pow2 (52 + e))) as [|Hge]; [lia|].
  destruct (decide (e = t + 1)) as [E|]; [|lia].
  replace (52 + e) with (53 + t) in Hge by lia. lia.
Qed.

Lemma pow2_rescale e t : e <= t -> pow2 e * pow2 (- t) * 2 ^ (t - e) = pow2 (- e) * pow2 t.
Proof.
  intros He. pose proof (pow2_ratio e t) as R.
  assert (E1 : pow2 (t - e) = 2 ^ (t - e)) by (unfold pow2; f_equal; lia).
  assert (E2 : pow2 (e - t) = 1) by (unfold pow2; by replace (Z.max (e - t) 0) with 0 by lia).
  rewrite E1, E2 in R. lia.
Qed.

(** Moving a comparison with [k * 2^t] to the place [e] below. *)
Lemma rescale_rhs k den e t :
  e <= t -> k * 2 ^ (t - e) * (den * pow2 e) * pow2 (- t) = k * (den * pow2 t) * pow2 (- e).
Proof.
  intros He. pose proof (pow2_rescale e t He) as R.
  transitivity (k * den * (pow2 e * pow2 (- t) * 2 ^ (t - e))); [ring|]. rewrite R. ring.
Qed.

(** Rounding stays on the right side of every number that needs no rounding. *)
Lemma round_le num den k t :
  0 < num -> 0 < den -> -1074 <= t -> num * pow2 (- (53 + t)) < den * pow2 (53 + t) ->
  num * pow2 (- t) <= k * (den * pow2 t) ->
  exists m e, round num den = Finite m e /\ e <= t /\ 0 <= m /\ m <= k * 2 ^ (t - e).
Proof.
  intros Hn Hd Ht Hlt Hk. unfold round. destruct (Z.eqb_spec num 0); [lia|].
  pose proof (ulp_exponent_le num den t Hn Hd Ht Hlt) as He. set (e := ulp_exponent num den) in *.
  pose proof (pow2_pos e). pose proof (pow2_pos (- e)). pose proof (pow2_pos t).
  pose proof (pow2_pos (- t)).
  eexists _, e. split_and!; [done|done| |].
  - apply div_even_ge; [nia|]. nia.
  - apply div_even_le; [nia|]. apply (Z.mul_le_mono_pos_r _ _ (pow2 (- t))); [done|].
    rewrite rescale_rhs by done. replace (num * pow2 (- e) * pow2 (- t)) with (num * pow2 (- t) * pow2 (- e)) by ring.
    by apply Z.mul_le_mono_pos_r.
Qed.

Lemma round_ge num den k t :
  0 < num -> 0 < den -> -1074 <= t -> num * pow2 (- (53 + t)) < den * pow2 (53 + t) ->
  k * (den * pow2 t) <= num * pow2 (- t) ->
  exists m e, round num den = Finite m e /\ e <= t /\ k * 2 ^ (t - e) <= m.
Proof.
  intros Hn Hd Ht Hlt Hk. unfold round. destruct (Z.eqb_spec num 0); [lia|].
  pose proof (ulp_exponent_le num den t Hn Hd Ht Hlt) as He. set (e := ulp_exponent num den) in *.
  pose proof (pow2_pos e). pose proof (pow2_pos (- e)). pose proof (pow2_pos t).
  pose proof (pow2_pos (- t)).
  eexists _, e. split_and!; [done|done|].
  apply div_even_ge; [nia|]. apply (Z.mul_le_mono_pos_r _ _ (pow2 (- t))); [done|].
  rewrite rescale_rhs by done. replace (num * pow2 (- e) * pow2 (- t)) with (num * pow2 (- t) * pow2 (- e)) by ring.
  by apply Z.mul_le_mono_pos_r.
Qed.

(** A dyadic number with at most 53 significant bits is kept. *)
Lemma round_exact num den k t :
  0 < num -> 0 < den -> -1074 <= t -> 0 < k < 2 ^ 53 ->
  num * pow2 (- t) = k * (den * pow2 t) ->
  exists e, round num den = Finite (k * 2 ^ (t - e)) e /\ e <= t.
Proof.
  intros Hn Hd Ht Hk E.
  assert (Hlt : num * pow2 (- (53 + t)) < den * pow2 (53 + t)).
  { pose proof (pow2_ratio (53 + t) t) as R.
    replace (t - (53 + t)) with (-53) in R by lia. replace (53 + t - t) with 53 in R by lia.
    change (pow2 (-53)) with 1 in R. change (pow2 53) with (2 ^ 53) in R.
    pose proof (pow2_pos (53 + t)). pose proof (pow2_pos (- (53 + t))). pose proof (pow2_pos t).
    apply (Z.mul_lt_mono_pos_r (pow2 (- t))); [apply pow2_pos|].
    set (X := den * pow2 t * pow2 (- (53 + t))).
    assert (El : num * pow2 (- (53 + t)) * pow2 (- t) = k * X).
    { transitivity (num * pow2 (- t) * pow2 (- (53 + t))); [ring|]. rewrite E. unfold X. ring. }
    assert (Er : den * pow2 (53 + t) * pow2 (- t) = 2 ^ 53 * X).
    { transitivity (den * (pow2 (53 + t) * pow2 (- t) * 1)); [ring|]. rewrite R. unfold X. ring. }
    rewrite El, Er. apply Z.mul_lt_mono_pos_r; [unfold X; nia|lia]. }
  destruct (round_le num den k t) as (m & e & Er & He & _ & H1); [done..|lia|].
  destruct (round_ge num den k t) as (m' & e' & Er' & He' & H2); [done..|lia|].
  rewrite Er in Er'. injection Er' as <- <-. exists e. split; [|done]. rewrite Er. f_equal. lia.
Qed.

(** Rounding to nearest moves a number by at most half of a last place. *)
Lemma div_even_near a b : 0 < b -> 2 * Z.abs (div_even a b * b - a) <= b.
Proof.
  intros Hb. unfold div_even. pose proof (Z.div_mod a b ltac:(lia)).
  pose proof (Z.mod_pos_bound a b Hb). set (q := a / b) in *. set (r := a mod b) in *.
  destruct (Z.compare_spec (2 * r) b); [destruct (Z.even q)| |]; nia.
Qed.

(** The rounding error of a rational below [2^(53+t)] is at most [2^(t-1)]. *)
Lemma round_near num den t :
  0 < num -> 0 < den -> -1074 <= t <= 0 -> num * pow2 (- (53 + t)) < den * pow2 (53 + t) ->
  exists m e, round num den = Finite m e /\ e <= t /\ 0 <= m /\
    2 * 2 ^ (- t) * Z.abs (m * den - num * 2 ^ (- e)) <= den * 2 ^ (- e).
Proof.
  intros Hn Hd Ht Hlt. unfold round. destruct (Z.eqb_spec num 0); [lia|].
  pose proof (ulp_exponent_le num den t Hn Hd ltac:(lia) Hlt) as He. set (e := ulp_exponent num den) in *.
  assert (E1 : pow2 e = 1) by (unfold pow2; by replace (Z.max e 0) with 0 by lia).
  assert (E2 : pow2 (- e) = 2 ^ (- e)) by (unfold pow2; f_equal; lia).
  rewrite E1, E2, Z.mul_1_r. assert (Pe : 0 < 2 ^ (- e)) by (apply Z.pow_pos_nonneg; lia).
  eexists _, e. split_and!; [done|done| |].
  - apply div_even_ge; [done|]. nia.
  - pose proof (div_even_near (num * 2 ^ (- e)) den Hd).
    assert (2 ^ (- t) <= 2 ^ (- e)) by (apply Z.pow_le_mono_r; lia).
    assert (0 < 2 ^ (- t)) by (apply Z.pow_pos_nonneg; lia). nia.
Qed.

(** ** Ranks *)

Lemma ceil_spec m e n :
  e <= 0 -> 0 <= m -> m <= n * 2 ^ (- e) -> in_width 64 n ->
  exists c, ceil_to_size_t (Finite m e) = Some c /\ 0 <= c <= n /\
    c = - ((- m) / 2 ^ (- e)).
Proof.
  intros He Hm Hn [Hn0 Hn1]. unfold ceil_to_size_t.
  assert (E1 : pow2 e = 1) by (unfold pow2; by replace (Z.max e 0) with 0 by lia).
  assert (E2 : pow2 (- e) = 2 ^ (- e)) by (unfold pow2; f_equal; lia).
  rewrite E1, E2, Z.mul_1_r. assert (Hp : 0 < 2 ^ (- e)) by (apply Z.pow_pos_nonneg; lia).
  set (c := - (- m / 2 ^ (- e))).
  assert (Hc : 0 <= c <= n).
  { unfold c. split.
    - pose proof (Z.div_le_upper_bound (- m) (2 ^ (- e)) 0 Hp). lia.
    - pose proof (Z.div_le_lower_bound (- m) (2 ^ (- e)) (- n) Hp). nia. }
  exists c. split_and!; try lia. unfold u64_max.
  destruct (Z.leb_spec 0 c); [|lia]. by destruct (Z.leb_spec c (2 ^ 64 - 1)); [|lia].
Qed.

Lemma double_of_u64_exact n : 0 < n < 2 ^ 53 ->
  exists e, double_of_u64 n = Finite (n * 2 ^ (- e)) e /\ e <= 0.
Proof.
  intros Hn. destruct (round_exact n 1 n 0) as (e & E & He); [lia|lia|lia|done| |].
  { change (pow2 0) with 1. change (pow2 (- 0)) with 1. lia. }
  exists e. split; [|done]. unfold double_of_u64. by rewrite E, Z.sub_0_l.
Qed.

(** Multiplying a fraction by an exact integer. *)
Lemma mul_scaled mq eq n en :
  eq <= 0 -> en <= 0 ->
  double_mul (Finite mq eq) (Finite (n * 2 ^ (- en)) en) =
    round (mq * (n * 2 ^ (- en))) (2 ^ (- eq) * 2 ^ (- en)).
Proof.
  intros. unfold double_mul. rewrite <- Z.pow_add_r by lia.
  assert (E1 : pow2 (eq + en) = 1) by (unfold pow2; by replace (Z.max (eq + en) 0) with 0 by lia).
  assert (E2 : pow2 (- (eq + en)) = 2 ^ (- eq + - en)) by (unfold pow2; f_equal; lia).
  by rewrite E1, E2, Z.mul_1_r.
Qed.

(** The product of a percentile strictly between 0 and 100 and an exact integer. *)
Lemma percentile_product mp ep n :
  double_le_int (Finite mp ep) 0 = false -> double_ge_int (Finite mp ep) 100 = false ->
  0 < n < 2 ^ 53 ->
  exists m e, double_mul (double_div (Finite mp ep) (Finite 100 0)) (double_of_u64 n) = Finite m e /\
    e <= 0 /\ 0 <= m /\ m <= n * 2 ^ (- e).
Proof.
  intros Hp0 Hp100 Hn. simpl in Hp0, Hp100. apply Z.leb_gt in Hp0, Hp100.
  pose proof (pow2_pos ep). pose proof (pow2_pos (- ep)).
  destruct (round_le (mp * pow2 ep) (100 * pow2 (- ep)) 1 0) as (mq & eq & Eq & Heq & Hmq & Hmq1).
  { lia. } { lia. } { lia. }
  { change (pow2 (- (53 + 0))) with 1. change (pow2 (53 + 0)) with (2 ^ 53). lia. }
  { change (pow2 0) with 1. change (pow2 (- 0)) with 1. lia. }
  simpl double_div. rewrite Z.sub_0_r, Z.sub_0_l, Eq.
  destruct (double_of_u64_exact n Hn) as (en & -> & Hen). rewrite mul_scaled by done.
  rewrite Z.mul_1_l, Z.sub_0_l in Hmq1.
  assert (Pq : 0 < 2 ^ (- eq)) by (apply Z.pow_pos_nonneg; lia).
  assert (Pn : 0 < 2 ^ (- en)) by (apply Z.pow_pos_nonneg; lia).
  destruct (decide (mq = 0)) as [->|Hq].
  { rewrite Z.mul_0_l. exists 0, 0. simpl. split_and!; (done || lia). }
  destruct (round_le (mq * (n * 2 ^ (- en))) (2 ^ (- eq) * 2 ^ (- en)) n 0)
    as (m & e & -> & He & Hm & Hm1).
  { nia. } { nia. } { lia. }
  { change (pow2 (- (53 + 0))) with 1. change (pow2 (53 + 0)) with (2 ^ 53).
    assert (mq * (n * 2 ^ (- en)) <= n * (2 ^ (- eq) * 2 ^ (- en))) by nia.
    assert (n * (2 ^ (- eq) * 2 ^ (- en)) < 2 ^ 53 * (2 ^ (- eq) * 2 ^ (- en))).
    { apply Z.mul_lt_mono_pos_r; [nia|lia]. } lia. }
  { change (pow2 0) with 1. change (pow2 (- 0)) with 1. nia. }
  rewrite Z.sub_0_l in Hm1. by exists m, e.
Qed.

(** A percentile strictly between 0 and 100 selects a position of the array. *)
Lemma rank_bounds mp ep n :
  double_le_int (Finite mp ep) 0 = false -> double_ge_int (Finite mp ep) 100 = false ->
  0 < n < 2 ^ 53 -> exists r, Histogram.rank (Finite mp ep) n = Some r /\ 0 <= r <= n.
Proof.
  intros Hp0 Hp100 Hn. destruct (percentile_product mp ep n Hp0 Hp100 Hn) as (m & e & E & He & Hm & Hm1).
  unfold Histogram.rank. rewrite E.
  destruct (ceil_spec m e n) as (c & -> & Hc & _); [done|done|done|split; lia|]. by exists c.
Qed.

(** Composing the two rounding errors: [mq/A] is the quotient [P/D] up to 2^-54, [m/E] its
    product with [n] up to [n * 2^-53]. *)
Lemma errors_compose m mq n P D A E :
  0 < A -> 0 < D -> 0 < E -> 0 < n ->
  2 ^ 54 * Z.abs (mq * D - P * A) <= D * A ->
  2 ^ 53 * Z.abs (m * A - mq * n * E) <= A * E * n ->
  2 ^ 52 * Z.abs (m * D - n * P * E) <= n * D * E.
Proof.
  intros HA HD HE Hn Nq Nx. apply (Z.mul_le_mono_pos_r _ _ A HA).
  assert (Es : (m * D - n * P * E) * A = D * (m * A - mq * n * E) + n * E * (mq * D - P * A)) by ring.
  assert (Ea : Z.abs (m * D - n * P * E) * A = Z.abs ((m * D - n * P * E) * A))
    by (rewrite Z.abs_mul, (Z.abs_eq A) by lia; done).
  rewrite <- Z.mul_assoc, Ea, Es.
  assert (T : Z.abs (D * (m * A - mq * n * E) + n * E * (mq * D - P * A)) <=
    D * Z.abs (m * A - mq * n * E) + n * E * Z.abs (mq * D - P * A)).
  { etransitivity; [apply Z.abs_triangle|]. rewrite !Z.abs_mul, !(Z.abs_eq D), !(Z.abs_eq n), !(Z.abs_eq E) by lia.
    lia. }
  apply (Z.mul_le_mono_nonneg_l _ _ D) in Nx; [|lia].
  apply (Z.mul_le_mono_nonneg_l _ _ (n * E)) in Nq; [|nia]. 
  assert (0 < n * D * E * A) by (repeat apply Z.mul_pos_pos; lia). nia.
Qed.

(** The quotient [q] and the rounded product [x] are within their rounding errors. *)
Lemma percentile_product_near mp ep n :
  double_le_int (Finite mp ep) 0 = false -> double_ge_int (Finite mp ep) 100 = false ->
  0 < n < 2 ^ 53 ->
  exists m e, double_mul (double_div (Finite mp ep) (Finite 100 0)) (double_of_u64 n) = Finite m e /\
    e <= 0 /\ 0 <= m /\
    2 ^ 52 * Z.abs (m * (100 * pow2 (- ep)) - n * (mp * pow2 ep) * 2 ^ (- e)) <=
      n * (100 * pow2 (- ep)) * 2 ^ (- e).
Proof.
  intros Hp0 Hp100 Hn. simpl in Hp0, Hp100. apply Z.leb_gt in Hp0, Hp100.
  pose proof (pow2_pos ep). pose proof (pow2_pos (- ep)).
  set (P := mp * pow2 ep) in *. set (D := 100 * pow2 (- ep)) in *.
  destruct (round_near P D (-53)) as (mq & eq & Eq & Heq & Hmq & Nq); [lia|lia|lia| |].
  { change (pow2 (- (53 + -53))) with 1. change (pow2 (53 + -53)) with 1. lia. }
  destruct (round_le P D 1 0) as (mq' & eq' & Eq' & _ & _ & Hq1); [lia|lia|lia| | |].
  { change (pow2 (- (53 + 0))) with 1. change (pow2 (53 + 0)) with (2 ^ 53). lia. }
  { change (pow2 0) with 1. change (pow2 (- 0)) with 1. lia. }
  rewrite Eq in Eq'. injection Eq' as <- <-. rewrite Z.mul_1_l, Z.sub_0_l in Hq1.
  simpl double_div. rewrite Z.sub_0_r, Z.sub_0_l. fold P D. rewrite Eq.
  destruct (double_of_u64_exact n Hn) as (en & -> & Hen). rewrite mul_scaled by lia.
  assert (Pq : 0 < 2 ^ (- eq)) by (apply Z.pow_pos_nonneg; lia).
  assert (Pn : 0 < 2 ^ (- en)) by (apply Z.pow_pos_nonneg; lia).
  change (2 * 2 ^ (- -53)) with (2 ^ 54) in Nq.
  destruct (decide (mq = 0)) as [->|Hq].
  { rewrite Z.mul_0_l. exists 0, 0. simpl. split_and!; [done|done|done|]. nia. }
  assert (Ln : 0 <= Z.log2 n < 53).
  { split; [apply Z.log2_nonneg|]. apply Z.log2_lt_pow2; lia. }
  destruct (Z.log2_spec n) as [Ln1 Ln2]; [lia|].
  destruct (round_near (mq * (n * 2 ^ (- en))) (2 ^ (- eq) * 2 ^ (- en)) (Z.log2 n + 1 - 53))
    as (m & e & -> & He & Hm & Nx); [nia|nia|lia| |].
  { replace (53 + (Z.log2 n + 1 - 53)) with (Z.succ (Z.log2 n)) by lia.
    assert (E1 : pow2 (- Z.succ (Z.log2 n)) = 1)
      by (unfold pow2; by replace (Z.max _ 0) with 0 by lia).
    assert (E2 : pow2 (Z.succ (Z.log2 n)) = 2 ^ Z.succ (Z.log2 n)) by (unfold pow2; f_equal; lia).
    rewrite E1, E2. assert (mq * (n * 2 ^ (- en)) <= n * (2 ^ (- eq) * 2 ^ (- en))) by nia.
    assert (n * (2 ^ (- eq) * 2 ^ (- en)) < 2 ^ Z.succ (Z.log2 n) * (2 ^ (- eq) * 2 ^ (- en))).
    { apply Z.mul_lt_mono_pos_r; [nia|lia]. } lia. }
  exists m, e. split; [done|]. split; [lia|]. split; [done|].
  apply (errors_compose m mq n P D (2 ^ (- eq)) (2 ^ (- e)));
    [lia|lia|apply Z.pow_pos_nonneg; lia|lia|exact Nq|].
  replace (- (Z.log2 n + 1 - 53)) with (52 - Z.log2 n) in Nx by lia.
  set (A := 2 ^ (- eq)) in *. set (B := 2 ^ (- en)) in *. set (E := 2 ^ (- e)) in *.
  assert (PE : 0 < E) by (apply Z.pow_pos_nonneg; lia).
  replace (m * (A * B) - mq * (n * B) * E) with ((m * A - mq * n * E) * B) in Nx by ring.
  rewrite Z.abs_mul, (Z.abs_eq B) in Nx by lia.
  assert (Et : 2 ^ 52 = 2 ^ (52 - Z.log2 n) * 2 ^ Z.log2 n)
    by (rewrite <- Z.pow_add_r by lia; f_equal; lia).
  assert (Nx' : 2 * 2 ^ (52 - Z.log2 n) * Z.abs (m * A - mq * n * E) <= A * E).
  { apply (Z.mul_le_mono_pos_r _ _ B Pn). lia. }
  change (2 ^ 53) with (2 * 2 ^ 52). rewrite Et.
  apply (Z.mul_le_mono_nonneg_r _ _ (2 ^ Z.log2 n)) in Nx'; [|apply Z.pow_nonneg; lia].
  assert (A * E * 2 ^ Z.log2 n <= A * E * n) by (apply Z.mul_le_mono_nonneg_l; [nia|lia]). lia.
Qed.

(** [r] is the ceiling of a number at most [n * 2^-52] away from [(num / den) * n]. *)
Definition near_rank (num den n r : Z) : Prop :=
  (r - 1) * den * 2 ^ 52 < n * num * 2 ^ 52 + n * den /\
  n * num * 2 ^ 52 - n * den <= r * den * 2 ^ 52.

Lemma near_rank_ceil m e n num den r :
  0 < num -> 0 < den -> 0 < n -> e <= 0 ->
  2 ^ 52 * Z.abs (m * den - n * num * 2 ^ (- e)) <= n * den * 2 ^ (- e) ->
  r = Z.max 1 (- ((- m) / 2 ^ (- e))) -> near_rank num den n r.
Proof.
  intros Hnum Hden Hn He Near ->. assert (PE : 0 < 2 ^ (- e)) by (apply Z.pow_pos_nonneg; lia).
  set (E := 2 ^ (- e)) in *. pose proof (Z.div_mod (- m) E ltac:(lia)) as Hdiv.
  pose proof (Z.mod_pos_bound (- m) E PE) as Hmod. set (c := - (- m / E)).
  assert (Hc : (c - 1) * E < m <= c * E) by (unfold c; nia).
  assert (N1 : m * den * 2 ^ 52 <= (n * num * 2 ^ 52 + n * den) * E) by nia.
  assert (N2 : (n * num * 2 ^ 52 - n * den) * E <= m * den * 2 ^ 52) by nia.
  assert (Pd : 0 < den * 2 ^ 52) by lia. split.
  - destruct (Z.max_spec 1 c) as [[_ ->]|[_ ->]]; [|nia].
    apply (Z.mul_lt_mono_pos_r E); [done|].
    assert ((c - 1) * E * (den * 2 ^ 52) < m * (den * 2 ^ 52)) by (apply Z.mul_lt_mono_pos_r; lia). lia.
  - apply (Z.mul_le_mono_pos_r _ _ E PE).
    assert (m * (den * 2 ^ 52) <= Z.max 1 c * E * (den * 2 ^ 52)) by (apply Z.mul_le_mono_pos_r; nia). lia.
Qed.

(** The rank of a percentile strictly between 0 and 100. *)
Lemma rank_near mp ep n r :
  double_le_int (Finite mp ep) 0 = false -> double_ge_int (Finite mp ep) 100 = false ->
  0 < n < 2 ^ 53 -> Histogram.rank (Finite mp ep) n = Some r ->
  near_rank (mp * pow2 ep) (100 * pow2 (- ep)) n (Z.max 1 r).
Proof.
  intros Hp0 Hp100 Hn Hr.
  destruct (percentile_product_near mp ep n Hp0 Hp100 Hn) as (m & e & E & He & Hm & Near).
  destruct (percentile_product mp ep n Hp0 Hp100 Hn) as (m' & e' & E' & _ & _ & Hm1).
  rewrite E in E'. injection E' as <- <-.
  unfold Histogram.rank in Hr. rewrite E in Hr.
  destruct (ceil_spec m e n) as (c & Ec & _ & Hc); [done|done|done|split; lia|].
  rewrite Ec in Hr. injection Hr as <-. simpl in Hp0, Hp100. apply Z.leb_gt in Hp0.
  pose proof (pow2_pos (- ep)).
  apply (near_rank_ceil m e); [lia|lia|lia|done|done|by rewrite Hc].
Qed.

(** Rounding down in the quotient keeps the rank below any integer above the exact product. *)
Lemma rank_upper p mq eq n c r :
  double_div p (Finite 100 0) = Finite mq eq -> eq <= 0 -> 0 < mq -> 0 < n < 2 ^ 53 ->
  0 < c < 2 ^ 53 -> mq * n <= c * 2 ^ (- eq) -> Histogram.rank p n = Some r -> r <= c.
Proof.
  intros Eq Heq Hmq Hn Hc Hle. unfold Histogram.rank. rewrite Eq.
  destruct (double_of_u64_exact n Hn) as (en & -> & Hen). rewrite mul_scaled by done.
  assert (Pq : 0 < 2 ^ (- eq)) by (apply Z.pow_pos_nonneg; lia).
  assert (Pn : 0 < 2 ^ (- en)) by (apply Z.pow_pos_nonneg; lia).
  assert (Hle' : mq * (n * 2 ^ (- en)) <= c * (2 ^ (- eq) * 2 ^ (- en))).
  { rewrite !Z.mul_assoc. by apply Z.mul_le_mono_pos_r. }
  destruct (round_le (mq * (n * 2 ^ (- en))) (2 ^ (- eq) * 2 ^ (- en)) c 0)
    as (m & e & -> & He & Hm & Hm1); [nia|nia|lia| | |].
  { change (pow2 (- (53 + 0))) with 1. change (pow2 (53 + 0)) with (2 ^ 53).
    assert (c * (2 ^ (- eq) * 2 ^ (- en)) < 2 ^ 53 * (2 ^ (- eq) * 2 ^ (- en))).
    { apply Z.mul_lt_mono_pos_r; [nia|lia]. } lia. }
  { change (pow2 0) with 1. change (pow2 (- 0)) with 1. lia. }
  rewrite Z.sub_0_l in Hm1.
  destruct (ceil_spec m e c) as (k & -> & Hk & _); [done|done|done|split; lia|]. intros [= <-]. lia.
Qed.

(** An integer percentile whose quotient by 100 is rounded down has the exact rank, on up to
    2^45 samples. *)
Lemma rank_percent a mp ep mq eq n r :
  round a 1 = Finite mp ep -> mp * pow2 ep = a * pow2 (- ep) -> 0 < a < 100 ->
  double_div (round a 1) (Finite 100 0) = Finite mq eq -> eq <= 0 -> 0 < mq ->
  100 * mq <= a * 2 ^ (- eq) -> 0 < n <= 2 ^ 45 ->
  Histogram.rank (round a 1) n = Some r -> Z.max 1 r = (a * n + 99) / 100.
Proof.
  intros Ea Hp Ha Eq Heq Hmq Hdown Hn Hr. set (c := (a * n + 99) / 100).
  assert (Hc : a * n <= 100 * c <= a * n + 99).
  { unfold c. pose proof (Z.div_mod (a * n + 99) 100). pose proof (Z.mod_pos_bound (a * n + 99) 100). lia. }
  assert (Hc1 : 0 < c <= n) by nia.
  assert (Hup : r <= c).
  { apply (rank_upper (round a 1) mq eq n c r Eq Heq Hmq); [lia|lia| |done].
    assert (Pq : 0 < 2 ^ (- eq)) by (apply Z.pow_pos_nonneg; lia).
    apply (Z.mul_le_mono_pos_l _ _ 100); [lia|]. nia. }
  rewrite Ea in Hr. pose proof (pow2_pos (- ep)) as PD.
  apply rank_near in Hr as [_ Hlow]; [|simpl; apply Z.leb_gt; nia|simpl; apply Z.leb_gt; nia|lia].
  rewrite Hp in Hlow. set (R := Z.max 1 r) in *.
  assert (n * a * 2 ^ 52 - 100 * n <= 100 * R * 2 ^ 52).
  { apply (Z.mul_le_mono_pos_r _ _ (pow2 (- ep)) PD). lia. }
  lia.
Qed.

Lemma rank_percents a n r :
  a ∈ [50; 95; 99] -> 0 < n <= 2 ^ 45 -> Histogram.rank (round a 1) n = Some r ->
  Z.max 1 r = (a * n + 99) / 100.
Proof.
  rewrite !elem_of_cons, elem_of_nil.
  intros [-> |[-> |[-> |[]]]];
    (eapply rank_percent; [vm_compute; reflexivity|vm_compute; reflexivity|lia|vm_compute; reflexivity|lia|lia|];
     vm_compute; discriminate).
Qed.

(** The median's rank is exact. *)
Lemma rank_median n : 0 < n < 2 ^ 53 -> Histogram.rank (round 50 1) n = Some ((n + 1) / 2).
Proof.
  intros Hn. unfold Histogram.rank.
  assert (Eq : double_div (round 50 1) (Finite 100 0) = Finite (2 ^ 52) (-53)) by reflexivity.
  rewrite Eq. destruct (double_of_u64_exact n Hn) as (en & -> & Hen).
  rewrite mul_scaled by lia. assert (Pn : 0 < 2 ^ (- en)) by (apply Z.pow_pos_nonneg; lia).
  destruct (round_exact (2 ^ 52 * (n * 2 ^ (- en))) (2 ^ (- -53) * 2 ^ (- en)) n (-1))
    as (e & -> & He); [lia|lia|lia|done| |].
  { change (pow2 (- -1)) with 2. change (pow2 (-1)) with 1. change (2 ^ (- -53)) with (2 ^ 52 * 2). lia. }
  assert (Pe : 0 < 2 ^ (-1 - e)) by (apply Z.pow_pos_nonneg; lia).
  assert (E2 : 2 ^ (- e) = 2 * 2 ^ (-1 - e)).
  { replace (- e) with (1 + (-1 - e)) by lia. rewrite Z.pow_add_r by lia. done. }
  destruct (ceil_spec (n * 2 ^ (-1 - e)) e n) as (c & -> & _ & ->); [lia|nia|nia|split; lia|].
  f_equal. rewrite E2, <- Z.mul_opp_l, Z.div_mul_cancel_r by lia.
  pose proof (Z.div_mod n 2). pose proof (Z.div_mod (- n) 2). pose proof (Z.div_mod (n + 1) 2).
  pose proof (Z.mod_pos_bound n 2). pose proof (Z.mod_pos_bound (- n) 2).
  pose proof (Z.mod_pos_bound (n + 1) 2). lia.
Qed.

(** ** Order statistics *)

Definition count_le (v : Z) (l : list Z) : nat := length (filter (fun x => x <= v) l).
Definition count_ge (v : Z) (l : list Z) : nat := length (filter (fun x => v <= x) l).

(** [v] is the [r]-th smallest element of [l]. *)
Definition rth_smallest (r : nat) (v : Z) (l : list Z) : Prop :=
  v ∈ l /\ (r <= count_le v l)%nat /\ (length l - r + 1 <= count_ge v l)%nat.

Lemma filter_all (P : Z -> Prop) `{!forall x, Decision (P x)} l : Forall P l -> filter P l = l.
Proof. induction 1; [done|]. rewrite filter_cons_True by done. by f_equal. Qed.

Lemma sorted_rth l i v :
  StronglySorted Z.le l -> l !! i = Some v -> rth_smallest (S i) v l.
Proof.
  intros S Hi. pose proof (lookup_lt_Some _ _ _ Hi) as Hlt.
  pose proof (take_drop_middle l i v Hi) as E. pose proof (length_take l i) as Ht.
  rewrite <- E in S. apply StronglySorted_app in S as (Hlow & _ & S).
  apply StronglySorted_cons in S as [Hhigh _].
  assert (Fl : Forall (fun x => x <= v) (take i l)).
  { apply Forall_lookup_2. intros j x Hx%list_elem_of_lookup_2. apply Hlow; [done|set_solver]. }
  split_and!.
  - by eapply list_elem_of_lookup_2.
  - unfold count_le. rewrite <- E, list.filter_app, length_app, (filter_all _ _ Fl).
    rewrite filter_cons_True by lia. simpl. lia.
  - unfold count_ge. rewrite <- E at 2. rewrite list.filter_app, length_app.
    rewrite filter_cons_True by lia. rewrite (filter_all _ _ Hhigh). simpl.
    rewrite length_drop. lia.
Qed.

Lemma rth_smallest_perm r v l l' : l ≡ₚ l' -> rth_smallest r v l -> rth_smallest r v l'.
Proof. unfold rth_smallest, count_le, count_ge. by intros ->. Qed.

Lemma fold_min_spec l : forall x, (foldl Z.min x l ∈ x :: l) /\ Forall (fun y => foldl Z.min x l <= y) (x :: l).
Proof.
  induction l as [|y l IH]; intros x; simpl.
  { split; [by apply list_elem_of_singleton|]. constructor; [lia|done]. }
  destruct (IH (Z.min x y)) as [Hin Hle]. clear IH. inversion Hle; subst. split.
  - apply elem_of_cons in Hin as [E|?]; [|set_solver]. rewrite E.
    destruct (Z.min_spec x y) as [[_ ->]|[_ ->]]; set_solver.
  - constructor; [lia|]. constructor; [lia|done].
Qed.

Lemma fold_max_spec l : forall x, (foldl Z.max x l ∈ x :: l) /\ Forall (fun y => y <= foldl Z.max x l) (x :: l).
Proof.
  induction l as [|y l IH]; intros x; simpl.
  { split; [by apply list_elem_of_singleton|]. constructor; [lia|done]. }
  destruct (IH (Z.max x y)) as [Hin Hle]. clear IH. inversion Hle; subst. split.
  - apply elem_of_cons in Hin as [E|?]; [|set_solver]. rewrite E.
    destruct (Z.max_spec x y) as [[_ ->]|[_ ->]]; set_solver.
  - constructor; [lia|]. constructor; [lia|done].
Qed.

Lemma min_rth x xs : rth_smallest 1 (foldl Z.min x xs) (x :: xs).
Proof.
  destruct (fold_min_spec xs x) as [Hin Hle]. split_and!; [done| |].
  - unfold count_le. apply list_elem_of_lookup_1 in Hin as [i Hi].
    rewrite <- (take_drop_middle _ _ _ Hi), list.filter_app, length_app.
    rewrite filter_cons_True by lia. simpl. lia.
  - unfold count_ge. rewrite (filter_all _ _ Hle). simpl. lia.
Qed.

Lemma max_rth x xs : rth_smallest (length (x :: xs)) (foldl Z.max x xs) (x :: xs).
Proof.
  destruct (fold_max_spec xs x) as [Hin Hle]. split_and!; [done| |].
  - unfold count_le. by rewrite (filter_all _ _ Hle).
  - unfold count_ge. apply list_elem_of_lookup_1 in Hin as [i Hi].
    replace (length (x :: xs) - length (x :: xs) + 1)%nat with 1%nat by lia.
    rewrite <- (take_drop_middle _ _ _ Hi), list.filter_app, length_app.
    rewrite filter_cons_True by lia. simpl. lia.
Qed.

(** The branch of [percentile] that an argument takes, and the 1-based index it reads. *)
Lemma percentile_spec p h : p <> NaN -> samples_ h <> [] -> Histogram.count h < 2 ^ 53 ->
  exists v r, Histogram.percentile p h = Some v /\ 1 <= r <= Histogram.count h /\
    rth_smallest (Z.to_nat r) v (samples_ h) /\
    (if double_le_int p 0 then r = 1
     else if double_ge_int p 100 then r = Histogram.count h
     else exists r0, Histogram.rank p (Histogram.count h) = Some r0 /\ r = Z.max 1 r0).
Proof.
  intros Hp Hne Hn.
  assert (Hpos : 0 < Histogram.count h).
  { unfold Histogram.count. destruct (samples_ h); [done|]. simpl length. lia. }
  unfold Histogram.percentile, Histogram.min, Histogram.max.
  destruct (samples_ h) as [|x xs] eqn:Es; [done|].
  assert (Hlen : Z.of_nat (length (x :: xs)) = Histogram.count h) by (unfold Histogram.count; by rewrite Es).
  destruct (double_le_int p 0) eqn:E0.
  { exists (foldl Z.min x xs), 1. split_and!; [done|lia|lia|apply min_rth|done]. }
  destruct (double_ge_int p 100) eqn:E1.
  { exists (foldl Z.max x xs), (Histogram.count h). split_and!; [done|lia|lia| |done].
    rewrite <- Hlen, Nat2Z.id. apply max_rth. }
  destruct p as [mp ep|neg|]; [|by destruct neg|done].
  destruct (rank_bounds mp ep _ E0 E1 (conj Hpos Hn)) as (r0 & Er & Hr).
  set (sorted := merge_sort Z.le (x :: xs)).
  assert (Hperm : sorted ≡ₚ x :: xs) by apply merge_sort_Permutation.
  rewrite (Permutation_length Hperm), Hlen, Er. simpl.
  assert (Hidx : (if r0 =? 0 then 1 else r0) ⊟ 1 = Z.max 1 r0 - 1).
  { destruct (Z.eqb_spec r0 0); [by subst|]. rewrite wrap_id; [lia|]. split; lia. }
  rewrite Hidx. destruct (lookup_lt_is_Some_2 sorted (Z.to_nat (Z.max 1 r0 - 1))) as [v Hv].
  { rewrite (Permutation_length Hperm). lia. }
  exists v, (Z.max 1 r0). split_and!; [done|lia|lia| |by exists r0].
  apply (rth_smallest_perm _ _ _ _ Hperm).
  replace (Z.to_nat (Z.max 1 r0)) with (S (Z.to_nat (Z.max 1 r0 - 1))) by lia.
  apply sorted_rth; [|done]. apply StronglySorted_merge_sort; intros ? ?; lia.
Qed.

(** The rank that a percentile asks for among [n] samples: the first up to 0, the last from
    100 on, and in between the ceiling of [(p/100)*n] up to the rounding of two operations. *)
Definition nearest_rank (p : double) (n r : Z) : Prop :=
  match p with
  | NaN => False
  | Infinity negative => r = if negative then 1 else n
  | Finite m e =>
      let num := m * pow2 e in
      let den := 100 * pow2 (- e) in
      (num <= 0 -> r = 1) /\ (den <= num -> r = n) /\ (0 < num < den -> near_rank num den n r)
  end.

Lemma percentile_nearest p h : p <> NaN -> samples_ h <> [] -> Histogram.count h < 2 ^ 53 ->
  exists v r, Histogram.percentile p h = Some v /\ 1 <= r <= Histogram.count h /\
    rth_smallest (Z.to_nat r) v (samples_ h) /\ nearest_rank p (Histogram.count h) r.
Proof.
  intros Hp Hne Hn. destruct (percentile_spec p h Hp Hne Hn) as (v & r & Hv & Hr & R & Hcase).
  exists v, r. split_and!; try done; try lia.
  destruct p as [m e|[]|]; try done. unfold nearest_rank. cbv zeta. pose proof (pow2_pos (- e)).
  destruct (double_le_int (Finite m e) 0) eqn:E0.
  { simpl in E0. apply Z.leb_le in E0. split_and!; [done|lia|lia]. }
  destruct (double_ge_int (Finite m e) 100) eqn:E1.
  { simpl in E0, E1. apply Z.leb_gt in E0. apply Z.leb_le in E1. split_and!; [lia|done|lia]. }
  destruct Hcase as (r0 & Er & ->). pose proof (rank_near m e (Histogram.count h) r0 E0 E1 ltac:(lia) Er).
  simpl in E0, E1. apply Z.leb_gt in E0, E1. split_and!; [lia|lia|done].
Qed.

(** [f] returns the [ceil(a*N/100)]-th smallest sample. *)
Definition exact_percent (a : Z) (f : LatencyHistogram -> option Z) (h : LatencyHistogram) : Prop :=
  exists v, f h = Some v /\ rth_smallest (Z.to_nat ((a * Histogram.count h + 99) / 100)) v (samples_ h).

Lemma percent_exact a h : a ∈ [50; 95; 99] -> samples_ h <> [] -> Histogram.count h <= 2 ^ 45 ->
  exact_percent a (Histogram.percentile (round a 1)) h.
Proof.
  intros Ha Hne Hn.
  assert (Hb : round a 1 <> NaN /\ double_le_int (round a 1) 0 = false /\ double_ge_int (round a 1) 100 = false).
  { rewrite !elem_of_cons, elem_of_nil in Ha. by destruct Ha as [-> |[-> |[-> |[]]]]. }
  destruct Hb as (Hp & E0 & E1).
  destruct (percentile_spec (round a 1) h) as (v & r & Hv & Hr & R & Hcase); [done|done|lia|].
  rewrite E0, E1 in Hcase. destruct Hcase as (r0 & Er & ->). exists v. split; [done|].
  by rewrite <- (rank_percents a (Histogram.count h) r0 Ha ltac:(lia) Er).
Qed.

(** ** Properties *)

(** C31. Percentiles are order statistics of the documented rank.  For every percentile
    argument that is a number, on a non-empty histogram of fewer than 2^53 samples,
    [percentile] is defined (the rank computed in floating point always lies in the array)
    and returns the [r]-th smallest sample, where [r] is 1 for arguments up to 0, [N] from
    100 on, and in between the ceiling of a number that differs from the exact
    [(p/100)*N] by at most [N * 2^-52].  [p50], [p95] and [p99] are not affected by that
    rounding: on up to 2^45 samples they return exactly the [ceil(50*N/100)]-th,
    [ceil(95*N/100)]-th and [ceil(99*N/100)]-th smallest sample.  ([p999] asks for the
    binary64 number next to 99.9, not for 99.9.) *)
Theorem histogram_percentile_rank (p : double) (h : LatencyHistogram) :
  p <> NaN -> samples_ h <> [] -> Histogram.count h < 2 ^ 53 ->
  (exists v r, Histogram.percentile p h = Some v /\ 1 <= r <= Histogram.count h /\
    rth_smallest (Z.to_nat r) v (samples_ h) /\ nearest_rank p (Histogram.count h) r) /\
  (Histogram.count h <= 2 ^ 45 ->
    exact_percent 50 Histogram.p50 h /\ exact_percent 95 Histogram.p95 h /\
    exact_percent 99 Histogram.p99 h).
Proof.
  intros Hp Hne Hn. split; [by apply percentile_nearest|]. intros Hs.
  split_and!; apply percent_exact; try done; set_solver.
Qed.

Lemma histogram_percentile_rank_witness :
  let h := mkHistogram [100; 10; 50; 20] in
  (exists v r, Histogram.percentile (round 75 1) h = Some v /\ 1 <= r <= 4 /\
    rth_smallest (Z.to_nat r) v [100; 10; 50; 20] /\ nearest_rank (round 75 1) 4 r) /\
  exact_percent 50 Histogram.p50 h /\ exact_percent 95 Histogram.p95 h /\
  exact_percent 99 Histogram.p99 h.
Proof.
  destruct (histogram_percentile_rank (round 75 1) (mkHistogram [100; 10; 50; 20])) as [H1 H2];
    [vm_compute; discriminate|discriminate|reflexivity|].
  split; [exact H1|]. apply H2. vm_compute. discriminate.
Defined.

(** The median is exact.  [p50] returns the [ceil(N/2)]-th smallest sample:
    rounding never shifts it. *)
Theorem histogram_median_exact (h : LatencyHistogram) :
  samples_ h <> [] -> Histogram.count h < 2 ^ 53 ->
  exists v, Histogram.p50 h = Some v /\
    rth_smallest (Z.to_nat ((Histogram.count h + 1) / 2)) v (samples_ h).
Proof.
  intros Hne Hn. destruct (percentile_spec (round 50 1) h) as (v & r & Hv & Hr & R & Hcase);
    [by vm_compute|done|done|]. exists v. split; [done|].
  change (double_le_int (round 50 1) 0) with false in Hcase.
  change (double_ge_int (round 50 1) 100) with false in Hcase. cbv iota in Hcase.
  destruct Hcase as (r0 & Er & ->). rewrite rank_median in Er by lia. injection Er as <-.
  assert (1 <= (Histogram.count h + 1) / 2) by (apply Z.div_le_lower_bound; lia).
  by rewrite Z.max_r in R by lia.
Qed.

Lemma histogram_median_exact_witness :
  exists v, Histogram.p50 (mkHistogram [7; 3; 5]) = Some v /\
    rth_smallest (Z.to_nat ((3 + 1) / 2)) v [7; 3; 5].
Proof.
  apply (histogram_median_exact (mkHistogram [7; 3; 5])); [discriminate|reflexivity].
Defined.

(** A thousand samples, 1 to 1000. *)
Definition thousand : LatencyHistogram := mkHistogram (map Z.of_nat (seq 1 1000)).

(** The 99.9th percentile is one too high.  Of a thousand samples 1 to 1000
    the nearest rank for 99.9 is 999, but the binary64 value of 99.9 lies above
    99.9, so [p999] selects rank 1000 and returns the maximum. *)
Theorem histogram_p999_off_by_one :
  Histogram.count thousand = 1000 /\ (999 * 1000 + 999) / 1000 = 999 /\
  rth_smallest 999 999 (samples_ thousand) /\
  Histogram.p999 thousand = Some (Histogram.max thousand) /\ Histogram.max thousand = 1000.
Proof.
  split_and!; try (vm_compute; reflexivity).
  assert (E : samples_ thousand !! 998%nat = Some 999) by (vm_compute; reflexivity).
  apply sorted_rth; [|exact E]. apply Sorted_StronglySorted; [intros ? ? ?; lia|].
  apply (bool_decide_eq_true_1 _). vm_compute. reflexivity.
Qed.
