(* ===== verification/Apps.v ===== *)
(** * The replay and inspection tools

    apps/aether_replay.cpp and apps/aether_inspect_wal.cpp: the whole [main] of
    each.  Console output is a list of lines kept as data; the exit code is the
    value [main] returns. *)

From S2P Require Import Prelude Core Metrics Posix MmapFile WalFormat Wal WalRecovery CliArgs.
#[local] Open Scope Z_scope.

(** What the tools print. *)
Inductive line : Type :=
  | ErrorLine (s : Status)                                  (** on the error stream *)
  | HelpText
  | FormatLine (magic version header_size : Z)
  | RecordLine (v : WalRecordView) (preview : list Z)       (** with the payload preview *)
  | VerboseLine (v : WalRecordView)
  | CorruptionLine (offset : Z)
  | ReplaySummary (records offset recovered failures : Z)
  | InspectSummary (count total_payload first last offset recovered failures : Z).

(** [std::isprint] in the default locale, and the preview of a payload. *)
Definition isprint (ch : Z) : bool := (32 <=? ch) && (ch <=? 126).
Definition preview (payload : list byte) (limit : Z) : list Z :=
  let count := Z.min (span_size payload) limit in
  map (fun b => let ch := b2z b in if isprint ch then ch else 46) (take (Z.to_nat count) payload).

(** The loop condition of both tools. *)
Definition more (limit records : Z) : bool := (limit =? 0) || (records <? limit).

Section Apps.
Context {W : Type} `{Posix W}.

(** The result of a tool: exit code, output, and the system with the reader closed. *)
Definition result : Type := (Z * list line * W)%type.

(** ** aether_replay *)

Fixpoint replay_loop (fuel : nat) (options : ReplayOptions) (reader : WalReader)
    (counters : BrokerCounters) (records : Z) (w : W) : outcome (Z * list line * WalReader) :=
  if more (replay_limit options) records then
    match fuel with
    | O => OutOfFuel
    | S fuel =>
        let '(record, reader) := reader_next reader w in
        match record with
        | Error s =>
            if bool_decide (code s = StatusCode.empty)
            then Done (0, [ReplaySummary records (wr_current_offset reader)
                   (recovered_records (snapshot counters)) (recovery_failures (snapshot counters))],
                   reader)
            else
              let counters := record_recovery_failure counters in   (* not printed *)
              Done (1, [ErrorLine s], reader)
        | Value view =>
            match replay_loop fuel options reader (record_recovered_record counters)
                    (records ⊞ 1) w with
            | Done (c, out, reader) =>
                Done (c, RecordLine view (preview (rv_payload view)
                           (replay_payload_preview_bytes options)) :: out, reader)
            | Undefined => Undefined
            | OutOfFuel => OutOfFuel
            end
        end
    end
  else Done (0, [ReplaySummary records (wr_current_offset reader)
         (recovered_records (snapshot counters)) (recovery_failures (snapshot counters))], reader).

Definition replay_main (fuel : nat) (argv : list string) (w : W) : outcome result :=
  match parse_replay_args argv with
  | Done (Error s) => Done (2, [ErrorLine s], w)
  | Done (Value options) =>
      if replay_help options then Done (0, [HelpText], w)
      else
        let '(reader_result, w) := reader_open (replay_wal_path options) w in
        match reader_result with
        | Error s => Done (1, [ErrorLine s], w)
        | Value reader =>
            match replay_loop fuel options reader BrokerCounters_init 0 w with
            | Done (c, out, reader) => Done (c, out, mmap_destroy (wr_file reader) w)
            | Undefined => Undefined
            | OutOfFuel => OutOfFuel
            end
        end
  | Undefined => Undefined
  | OutOfFuel => OutOfFuel
  end.

(** ** aether_inspect_wal *)

Record scan : Set := mkScan {
  sc_count : Z; sc_total_payload : Z; sc_first_sequence : Z; sc_last_sequence : Z }.
Definition scan_init : scan := mkScan 0 0 u64_max 0.

Definition scan_record (h : WalRecordHeader) (s : scan) : scan :=
  mkScan (sc_count s ⊞ 1) (sc_total_payload s ⊞ payload_size h)
    (if sc_count s =? 0 then sequence h else sc_first_sequence s) (sequence h).

Definition inspect_summary (s : scan) (counters : BrokerCounters) (offset : Z) : line :=
  InspectSummary (sc_count s) (sc_total_payload s)
    (if sc_count s =? 0 then 0 else sc_first_sequence s)
    (if sc_count s =? 0 then 0 else sc_last_sequence s) offset
    (recovered_records (snapshot counters)) (recovery_failures (snapshot counters)).

Fixpoint inspect_loop (fuel : nat) (options : InspectWalOptions) (reader : WalReader)
    (counters : BrokerCounters) (s : scan) (w : W) : outcome (Z * list line * WalReader) :=
  if more (inspect_limit options) (sc_count s) then
    match fuel with
    | O => OutOfFuel
    | S fuel =>
        let '(record, reader) := reader_next reader w in
        match record with
        | Error st =>
            if bool_decide (code st = StatusCode.empty)
            then Done (0, [inspect_summary s counters (wr_current_offset reader)], reader)
            else
              let counters := record_recovery_failure counters in   (* not printed *)
              Done (1, [CorruptionLine (wr_current_offset reader); ErrorLine st], reader)
        | Value view =>
            match inspect_loop fuel options reader (record_recovered_record counters)
                    (scan_record (rv_header view) s) w with
            | Done (c, out, reader) =>
                Done (c, (if inspect_verbose options then [VerboseLine view] else []) ++ out, reader)
            | Undefined => Undefined
            | OutOfFuel => OutOfFuel
            end
        end
    end
  else Done (0, [inspect_summary s counters (wr_current_offset reader)], reader).

Definition inspect_main (fuel : nat) (argv : list string) (w : W) : outcome result :=
  match parse_inspect_wal_args argv with
  | Done (Error s) => Done (2, [ErrorLine s], w)
  | Done (Value options) =>
      if inspect_help options then Done (0, [HelpText], w)
      else
        let format := FormatLine wal_record_magic wal_format_version wal_record_header_size in
        let '(reader_result, w) := reader_open (inspect_wal_path options) w in
        match reader_result with
        | Error s => Done (1, [format; ErrorLine s], w)
        | Value reader =>
            match inspect_loop fuel options reader BrokerCounters_init scan_init w with
            | Done (c, out, reader) => Done (c, format :: out, mmap_destroy (wr_file reader) w)
            | Undefined => Undefined
            | OutOfFuel => OutOfFuel
            end
        end
  | Undefined => Undefined
  | OutOfFuel => OutOfFuel
  end.
End Apps.

(** ** What the tools should print *)

(** The records shown under a limit (0: none) when [k] were shown before. *)
Definition shown (limit k : Z) (vs : list WalRecordView) : list WalRecordView :=
  if limit =? 0 then vs else take (Z.to_nat (limit - k)) vs.

(** How many records. *)
Definition number (vs : list WalRecordView) : Z := Z.of_nat (length vs).

(** The scan is a success when the limit is met or the log ends cleanly. *)
Definition finished (limit k : Z) (vs : list WalRecordView) (stop : Status) : bool :=
  (negb (limit =? 0) && (limit <=? k + number vs)) || bool_decide (code stop = StatusCode.empty).

Fixpoint end_offset (off : Z) (vs : list WalRecordView) : Z :=
  match vs with
  | [] => off
  | v :: vs => end_offset (off + (40 + span_size (rv_payload v))) vs
  end.

Fixpoint payload_total (vs : list WalRecordView) : Z :=
  match vs with [] => 0 | v :: vs => span_size (rv_payload v) + payload_total vs end.

Definition first_sequence_of (vs : list WalRecordView) : Z :=
  match vs with [] => 0 | v :: _ => sequence (rv_header v) end.
Definition last_sequence_of (vs : list WalRecordView) : Z :=
  match last vs with None => 0 | Some v => sequence (rv_header v) end.

(** The reports of the two tools on a file whose reading is [vs] and then [stop]. *)
Definition replay_report (o : ReplayOptions) (vs : list WalRecordView) (stop : Status)
    : Z * list line :=
  let seen := shown (replay_limit o) 0 vs in
  let records := map (fun v => RecordLine v (preview (rv_payload v) (replay_payload_preview_bytes o)))
                   seen in
  if finished (replay_limit o) 0 vs stop
  then (0, records ++ [ReplaySummary (number seen) (end_offset 0 seen) (number seen) 0])
  else (1, records ++ [ErrorLine stop]).

Definition inspect_report (o : InspectWalOptions) (vs : list WalRecordView) (stop : Status)
    : Z * list line :=
  let seen := shown (inspect_limit o) 0 vs in
  let records := if inspect_verbose o then map VerboseLine seen else [] in
  let format := FormatLine wal_record_magic wal_format_version wal_record_header_size in
  if finished (inspect_limit o) 0 vs stop
  then (0, format :: records ++ [InspectSummary (number seen) (payload_total seen)
         (first_sequence_of seen) (last_sequence_of seen) (end_offset 0 seen) (number seen) 0])
  else (1, format :: records ++ [CorruptionLine (end_offset 0 seen); ErrorLine stop]).

(** ** Proofs *)

Lemma shown_cons limit k v vs :
  0 <= limit -> more limit k = true -> shown limit k (v :: vs) = v :: shown limit (k + 1) vs.
Proof.
  unfold shown, more. intros ?. destruct (Z.eqb_spec limit 0); [done|]. simpl.
  intros ?%Z.ltb_lt. replace (Z.to_nat (limit - k)) with (S (Z.to_nat (limit - (k + 1)))) by lia.
  done.
Qed.

Lemma shown_none limit k vs : more limit k = false -> shown limit k vs = [].
Proof.
  unfold shown, more. destruct (Z.eqb_spec limit 0); [done|]. simpl. intros ?%Z.ltb_ge.
  by replace (Z.to_nat (limit - k)) with 0%nat by lia.
Qed.

Lemma finished_none limit k vs stop : more limit k = false -> finished limit k vs stop = true.
Proof.
  unfold finished, more. destruct (Z.eqb_spec limit 0); [done|]. simpl. intros ?%Z.ltb_ge.
  unfold number. destruct (Z.leb_spec limit (k + Z.of_nat (length vs))); [done|lia].
Qed.

Lemma finished_cons limit k v vs stop :
  finished limit k (v :: vs) stop = finished limit (k + 1) vs stop.
Proof.
  unfold finished, number. simpl length.
  by replace (k + Z.of_nat (S (length vs))) with (k + 1 + Z.of_nat (length vs)) by lia.
Qed.

Lemma finished_nil limit k stop :
  more limit k = true ->
  finished limit k [] stop = bool_decide (code stop = StatusCode.empty).
Proof.
  unfold finished, more. destruct (Z.eqb_spec limit 0); [done|]. simpl. intros ?%Z.ltb_lt.
  unfold number. simpl length. destruct (Z.leb_spec limit (k + Z.of_nat 0)); [lia|done].
Qed.

Lemma shown_nil limit k : shown limit k [] = [].
Proof. unfold shown. destruct (limit =? 0); [done|apply take_nil]. Qed.

Lemma number_cons v vs : number (v :: vs) = number vs + 1.
Proof. unfold number. simpl length. lia. Qed.

(** The counters of a scan that has seen [k] records and no failure. *)
Definition counters_at (k : Z) (c : BrokerCounters) : Prop :=
  recovered_records (snapshot c) = k /\ recovery_failures (snapshot c) = 0.

Lemma counters_at_next k c : in_width 64 (k + 1) -> counters_at k c ->
  counters_at (k + 1) (record_recovered_record c).
Proof.
  destruct c. unfold counters_at, increment. simpl. intros ? [-> ->].
  split; [|done]. by apply wrap_id.
Qed.

(** Reading one record moves the reader past it. *)
Lemma reader_after `{PosixLaws W} r (w : W) c off e :
  reader_at r w c off -> parse_record (drop off c) = Value e ->
  reader_at (mkReader (wr_file r) (Z.of_nat (off + entry_size e)) (wr_records_read r ⊞ 1)) w c
    (off + entry_size e) /\
  Z.of_nat (off + entry_size e) = Z.of_nat off + (40 + span_size e.2).
Proof.
  intros [O Ho Hb] (Hl & Hs & _)%parse_record_bounds. rewrite length_drop in Hs.
  unfold entry_size, span_size in *. split; [split; simpl; (done || lia)|lia].
Qed.

Section ToolProofs.
Context {W : Type} `{PosixLaws W}.

Lemma replay_loop_spec o off tail vs stop :
  0 <= replay_limit o -> parses off tail vs stop ->
  forall fuel r counters k (w : W) c,
  (length vs < fuel)%nat -> tail = drop off c -> reader_at r w c off ->
  0 <= k -> k + number vs < 2 ^ 64 -> counters_at k counters ->
  exists r', wr_file r' = wr_file r /\
  let seen := shown (replay_limit o) k vs in
  let records := map (fun v => RecordLine v (preview (rv_payload v) (replay_payload_preview_bytes o)))
                   seen in
  replay_loop fuel o r counters k w =
    Done (if finished (replay_limit o) k vs stop
          then (0, records ++ [ReplaySummary (k + number seen) (end_offset (Z.of_nat off) seen)
                                 (k + number seen) 0], r')
          else (1, records ++ [ErrorLine stop], r')).
Proof.
  intros Hlim. induction 1 as [off tail s P|off tail e vs stop P _ IH];
    intros [|fuel] r ctr k w c Hf -> R Hk Hb C; try (simpl in *; lia); simpl replay_loop;
    (destruct (more (replay_limit o) k) eqn:M;
     [|exists r; split; [done|]; rewrite shown_none, finished_none by done; cbn;
       destruct C as [C1 C2]; cbn in C1, C2; rewrite C1, C2, (ra_offset _ _ _ _ R);
       by rewrite Z.add_0_r]);
    rewrite (reader_next_parse r w c off R), P.
  - exists r. split; [done|]. rewrite shown_nil, finished_nil by done. cbn.
    destruct C as [C1 C2]. cbn in C1, C2. rewrite C1, C2, (ra_offset _ _ _ _ R), Z.add_0_r. by case_bool_decide.
  - destruct (reader_after _ _ _ _ _ R P) as [R' Eo]. rewrite number_cons in Hb.
    unfold number in Hb.
    assert (Hk1 : in_width 64 (k + 1)) by (unfold in_width; lia).
    destruct (IH fuel _ (record_recovered_record ctr) (k + 1) w c ltac:(simpl in *; lia)
      ltac:(by rewrite drop_drop) R' ltac:(lia) ltac:(unfold number; lia)
      (counters_at_next _ _ Hk1 C)) as (r' & Hr & E).
    rewrite (wrap_id _ _ Hk1), E, shown_cons, finished_cons by done. exists r'. split; [done|].
    simpl. rewrite number_cons, Eo.
    replace (k + (number (shown (replay_limit o) (k + 1) vs) + 1))
      with (k + 1 + number (shown (replay_limit o) (k + 1) vs)) by lia.
    by destruct (finished _ _ _ _).
Qed.
End ToolProofs.

(** The scan of the inspector as a fold. *)
Definition scan_all (s : scan) (vs : list WalRecordView) : scan :=
  fold_left (fun s v => scan_record (rv_header v) s) vs s.

Definition scan_line (s : scan) (offset : Z) : line :=
  InspectSummary (sc_count s) (sc_total_payload s)
    (if sc_count s =? 0 then 0 else sc_first_sequence s)
    (if sc_count s =? 0 then 0 else sc_last_sequence s) offset (sc_count s) 0.

(** A view whose header says how long its payload is. *)
Definition sized (v : WalRecordView) : Prop := payload_size (rv_header v) = span_size (rv_payload v).

Lemma parses_sized off tail vs s : parses off tail vs s -> Forall sized vs.
Proof.
  induction 1 as [|off tail e vs s P _ IH]; constructor; [|done].
  apply parse_record_bounds in P as (Hl & _ & _ & Hw). unfold sized, span_size, in_width in *.
  simpl. lia.
Qed.

Lemma parses_payload off tail vs s :
  parses off tail vs s -> payload_total vs + 40 * number vs <= Z.of_nat (length tail).
Proof.
  induction 1 as [|off tail e vs s P _ IH]; [unfold number; simpl; lia|].
  apply parse_record_bounds in P as (Hl & Hs & _). rewrite number_cons. simpl payload_total.
  rewrite length_drop in IH. unfold entry_size, span_size in *. lia.
Qed.

Lemma payload_total_nonneg vs : 0 <= payload_total vs.
Proof. induction vs; simpl; unfold span_size in *; lia. Qed.

Lemma number_nonneg vs : 0 <= number vs.
Proof. unfold number. lia. Qed.

Lemma last_sequence_cons v vs :
  last_sequence_of (v :: vs) = match vs with [] => sequence (rv_header v) | _ => last_sequence_of vs end.
Proof. by destruct vs. Qed.

Lemma scan_all_spec vs : forall s, Forall sized vs ->
  0 <= sc_count s -> 0 <= sc_total_payload s ->
  sc_count s + number vs < 2 ^ 64 -> sc_total_payload s + payload_total vs < 2 ^ 64 ->
  scan_all s vs = mkScan (sc_count s + number vs) (sc_total_payload s + payload_total vs)
    (if sc_count s =? 0 then match vs with [] => sc_first_sequence s | _ => first_sequence_of vs end
     else sc_first_sequence s)
    (match vs with [] => sc_last_sequence s | _ => last_sequence_of vs end).
Proof.
  induction vs as [|v vs IH]; intros [n t f l] Hz Hn Ht Hbn Hbt; cbn [sc_count sc_total_payload
    sc_first_sequence sc_last_sequence] in *.
  { unfold number. simpl. rewrite !Z.add_0_r. by destruct (n =? 0). }
  inversion Hz as [|? ? Hv Hvs]; subst. unfold sized in Hv. simpl in Hbt.
  rewrite number_cons in Hbn. pose proof (payload_total_nonneg vs). pose proof (number_nonneg vs).
  change (scan_all ?s (v :: vs)) with (scan_all (scan_record (rv_header v) s) vs).
  rewrite IH; unfold scan_record; cbn [sc_count sc_total_payload sc_first_sequence sc_last_sequence];
    rewrite ?Hv, ?(wrap_id 64 (n + 1)), ?(wrap_id 64 (t + span_size (rv_payload v)))
      by (unfold in_width, span_size in *; lia); try (unfold span_size in *; (done || lia)).
  rewrite number_cons, last_sequence_cons. destruct (Z.eqb_spec (n + 1) 0); [lia|].
  simpl. f_equal; lia.
Qed.

Section InspectProofs.
Context {W : Type} `{PosixLaws W}.

Lemma inspect_loop_spec o off tail vs stop :
  0 <= inspect_limit o -> parses off tail vs stop ->
  forall fuel r counters s (w : W) c,
  (length vs < fuel)%nat -> tail = drop off c -> reader_at r w c off ->
  0 <= sc_count s -> sc_count s + number vs < 2 ^ 64 -> counters_at (sc_count s) counters ->
  exists r', wr_file r' = wr_file r /\
  let seen := shown (inspect_limit o) (sc_count s) vs in
  let records := if inspect_verbose o then map VerboseLine seen else [] in
  let final := end_offset (Z.of_nat off) seen in
  inspect_loop fuel o r counters s w =
    Done (if finished (inspect_limit o) (sc_count s) vs stop
          then (0, records ++ [scan_line (scan_all s seen) final], r')
          else (1, records ++ [CorruptionLine final; ErrorLine stop], r')).
Proof.
  intros Hlim. induction 1 as [off tail st P|off tail e vs stop P _ IH];
    intros [|fuel] r ctr s w c Hf -> R Hk Hb C; try (simpl in *; lia); simpl inspect_loop;
    (destruct (more (inspect_limit o) (sc_count s)) eqn:M;
     [|exists r; split; [done|]; rewrite shown_none, finished_none by done; cbn;
       unfold inspect_summary, scan_line; destruct C as [-> ->];
       rewrite (ra_offset _ _ _ _ R); by destruct (inspect_verbose o)]);
    rewrite (reader_next_parse r w c off R), P.
  - exists r. split; [done|]. rewrite shown_nil, finished_nil by done. cbn.
    unfold inspect_summary, scan_line. destruct C as [-> ->].
    rewrite (ra_offset _ _ _ _ R). case_bool_decide; by destruct (inspect_verbose o).
  - destruct (reader_after _ _ _ _ _ R P) as [R' Eo]. rewrite number_cons in Hb.
    unfold number in Hb.
    assert (Hk1 : in_width 64 (sc_count s + 1)) by (unfold in_width; lia).
    assert (Ec : sc_count (scan_record e.1 s) = sc_count s + 1) by (by apply wrap_id).
    destruct (IH fuel _ (record_recovered_record ctr) (scan_record e.1 s) w c
      ltac:(simpl in *; lia) ltac:(by rewrite drop_drop) R' ltac:(lia) ltac:(unfold number; lia)
      ltac:(rewrite Ec; exact (counters_at_next _ _ Hk1 C))) as (r' & Hr & E).
    rewrite Ec in E. cbn [rv_header]. rewrite E, shown_cons, finished_cons by done.
    exists r'. split; [done|]. simpl. rewrite Eo.
    by destruct (finished _ _ _ _), (inspect_verbose o).
Qed.
End InspectProofs.

Section Files.
Context {W : Type} `{PosixLaws W}.

(** What a tool leaves behind: the files as they were and no descriptor of its own. *)
Definition untouched (w w' : W) : Prop :=
  os_files (os w') = os_files (os w) /\ os_fds (os w') = os_fds (os w).

(** Opening a file for reading, and closing it again. *)
Lemma reader_session path (w w1 : W) r :
  reader_open path w = (Value r, w1) ->
  exists c, os_files (os w) !! path = Some c /\ reader_at r w1 c 0 /\
    Z.of_nat (length c) < 2 ^ 64 /\ untouched w (mmap_destroy (wr_file r) w1).
Proof.
  unfold reader_open. pose proof (mmap_open_existing_spec path false w) as O.
  destruct (mmap_open_existing path false w) as [[f|s] w2]; [|done]. intros [= <- <-].
  destruct O as (c & Hc & O & Hp & _ & Hfd & _ & E). exists c.
  split_and!; [done|split; simpl; (done || lia)|destruct O; unfold in_width in *; lia|].
  pose proof (mmap_close_spec f w2 c O) as C. unfold mmap_destroy, untouched. simpl.
  destruct (mmap_close f w2) as [[st f'] w3]. destruct C as (_ & -> & -> & _).
  rewrite E. unfold opened_view. simpl. split; [by rewrite Hp, insert_id|by apply delete_fresh].
Qed.

(** A file has a reading that fits the fuel. *)
Lemma file_reading (c : list byte) :
  Z.of_nat (length c) < 2 ^ 64 ->
  exists vs stop, parses 0 c vs stop /\ (length vs < S (length c / 40))%nat /\
    number vs < 2 ^ 64 /\ payload_total vs < 2 ^ 64 /\ Forall sized vs.
Proof.
  intros Hc. destruct (parses_total _ c 0 (le_n _)) as (vs & stop & Hp).
  pose proof (parses_length _ _ _ _ Hp) as Hl. pose proof (parses_payload _ _ _ _ Hp) as Ht.
  pose proof (number_nonneg vs). pose proof (payload_total_nonneg vs).
  assert (length vs <= length c / 40)%nat by (apply Nat.div_le_lower_bound; lia).
  exists vs, stop. split_and!; [done|lia|lia|lia|]. by eapply parses_sized.
Qed.
End Files.

Lemma counters_at_init : counters_at 0 BrokerCounters_init.
Proof. done. Qed.

Lemma shown_take limit vs : exists k, shown limit 0 vs = take k vs.
Proof.
  unfold shown. destruct (limit =? 0); [exists (length vs); by rewrite take_ge|by eexists].
Qed.

Lemma take_totals k vs : number (take k vs) <= number vs /\ payload_total (take k vs) <= payload_total vs.
Proof.
  revert vs. induction k as [|k IH]; intros vs.
  - pose proof (number_nonneg vs). pose proof (payload_total_nonneg vs). by rewrite take_0.
  - destruct vs as [|v vs]; [done|]. cbn [take payload_total]. rewrite !number_cons.
    destruct (IH vs). lia.
Qed.

(** The scan of the records shown, from the initial scan. *)
Lemma scan_shown limit vs off :
  Forall sized vs -> number vs < 2 ^ 64 -> payload_total vs < 2 ^ 64 ->
  let seen := shown limit 0 vs in
  scan_line (scan_all scan_init seen) off =
    InspectSummary (number seen) (payload_total seen) (first_sequence_of seen)
      (last_sequence_of seen) off (number seen) 0.
Proof.
  intros Hs Hn Ht. destruct (shown_take limit vs) as [k ->]. destruct (take_totals k vs).
  cbv zeta. rewrite scan_all_spec; simpl; try lia; [|by apply Forall_take].
  unfold scan_line. cbn [sc_count sc_total_payload sc_first_sequence sc_last_sequence].
  destruct (take k vs) as [|v l]; [done|]. rewrite number_cons. pose proof (number_nonneg l).
  cbn [Z.eqb scan_init sc_count]. rewrite !Z.add_0_l. destruct (Z.eqb_spec (number l + 1) 0); [lia|done].
Qed.

(** ** Properties *)

(** C32. The replay tool tells the truth about a file.  Once its arguments parse
    and the log opens, [aether_replay] ends within one iteration per 40 bytes plus
    one; it prints, in order and with the preview asked for, exactly the records of
    the file up to the limit; it exits with 0 and the right totals when the limit
    was met or the log ended cleanly and with 1 and the reader's error otherwise;
    and it leaves every file as it was and no descriptor open. *)
Theorem replay_tool_reports (W : Type) (P : Posix W) (L : PosixLaws W)
    (argv : list string) (o : ReplayOptions) (r : WalReader) (w w1 : W) :
  parse_replay_args argv = Done (Value o) -> replay_help o = false ->
  reader_open (replay_wal_path o) w = (Value r, w1) ->
  exists c vs stop w2, os_files (os w) !! replay_wal_path o = Some c /\ parses 0 c vs stop /\
    replay_main (S (length c / 40)) argv w = Done (replay_report o vs stop, w2) /\ untouched w w2.
Proof.
  intros Ha Hh Ho. destruct (reader_session _ _ _ _ Ho) as (c & Hc & R & Hl & U).
  destruct (file_reading c Hl) as (vs & stop & Hp & Hf & Hn & _ & _).
  destruct (replay_loop_spec o _ _ _ _ (proj1 (replay_limit_parsed _ _ Ha)) Hp (S (length c / 40)) r
    BrokerCounters_init 0 w1 c Hf eq_refl R (Z.le_refl 0) Hn counters_at_init) as (r' & Hr & E).
  exists c, vs, stop, (mmap_destroy (wr_file r) w1). split_and!; [done|done| |done].
  unfold replay_main, replay_report. rewrite Ha, Hh, Ho, E, <- Hr. cbv zeta.
  rewrite !Z.add_0_l. by destruct (finished _ _ _ _).
Qed.

(** C33. The inspector's summary is the truth about a file.  Under the same
    conditions [aether_inspect_wal] terminates, counts the records of the file up to
    the limit, sums their payloads without overflow, names the first and the last
    sequence, and on corruption gives the offset of the first bad record and exits
    with 1; it modifies nothing. *)
Theorem inspect_tool_reports (W : Type) (P : Posix W) (L : PosixLaws W)
    (argv : list string) (o : InspectWalOptions) (r : WalReader) (w w1 : W) :
  parse_inspect_wal_args argv = Done (Value o) -> inspect_help o = false ->
  reader_open (inspect_wal_path o) w = (Value r, w1) ->
  exists c vs stop w2, os_files (os w) !! inspect_wal_path o = Some c /\ parses 0 c vs stop /\
    inspect_main (S (length c / 40)) argv w = Done (inspect_report o vs stop, w2) /\ untouched w w2.
Proof.
  intros Ha Hh Ho. destruct (reader_session _ _ _ _ Ho) as (c & Hc & R & Hl & U).
  destruct (file_reading c Hl) as (vs & stop & Hp & Hf & Hn & Ht & Hs).
  destruct (inspect_loop_spec o _ _ _ _ (proj1 (inspect_limit_parsed _ _ Ha)) Hp (S (length c / 40)) r
    BrokerCounters_init scan_init w1 c Hf eq_refl R (Z.le_refl 0) Hn counters_at_init)
    as (r' & Hr & E).
  exists c, vs, stop, (mmap_destroy (wr_file r) w1). split_and!; [done|done| |done].
  unfold inspect_main, inspect_report. rewrite Ha, Hh, Ho, E, <- Hr. cbv zeta.
  cbn [scan_init sc_count]. fold scan_init. rewrite scan_shown by done.
  by destruct (finished _ _ _ _).
Qed.

(** A log of two records and a damaged third, read with and without a limit. *)
Definition damaged : list byte := log_bytes toy_log ++ replicate 40 Byte.xa5.
Definition damaged_world : ToyOs.world :=
  ToyOs.set_view (mkOs {["a.wal" := damaged]} ∅ ∅) (ToyOs.boot []).
Definition replay_argv : list string := ["aether_replay"; "--wal=a.wal"; "--limit"; "1"].
Definition replay_opts : ReplayOptions := mkReplay false "a.wal" 1 32.
Definition inspect_argv : list string := ["aether_inspect_wal"; "--wal=a.wal"].
Definition inspect_opts : InspectWalOptions := mkInspect false "a.wal" 0 false.
Definition damaged_reader : WalReader :=
  mkReader (mkMmapFile 3 4096 (Z.of_nat (length damaged)) "a.wal" false) 0 0.

Lemma replay_tool_reports_witness :
  (exists out w2, replay_main 4 replay_argv damaged_world = Done (0, out, w2) /\
     length out = 2%nat) /\
  exists c vs stop w2, os_files (os damaged_world) !! "a.wal" = Some c /\ parses 0 c vs stop /\
    replay_main (S (length c / 40)) replay_argv damaged_world =
      Done (replay_report replay_opts vs stop, w2) /\ untouched damaged_world w2.
Proof.
  split; [eexists _, _; split; vm_compute; reflexivity|].
  apply (replay_tool_reports ToyOs.world ToyOs.posix ToyOs.posix_laws replay_argv replay_opts
    damaged_reader damaged_world (reader_open "a.wal" damaged_world).2);
    vm_compute; reflexivity.
Defined.

Lemma inspect_tool_reports_witness :
  (exists out w2, inspect_main 4 inspect_argv damaged_world = Done (1, out, w2) /\
     length out = 3%nat) /\
  exists c vs stop w2, os_files (os damaged_world) !! "a.wal" = Some c /\ parses 0 c vs stop /\
    inspect_main (S (length c / 40)) inspect_argv damaged_world =
      Done (inspect_report inspect_opts vs stop, w2) /\ untouched damaged_world w2.
Proof.
  split; [eexists _, _; split; vm_compute; reflexivity|].
  apply (inspect_tool_reports ToyOs.world ToyOs.posix ToyOs.posix_laws inspect_argv inspect_opts
    damaged_reader damaged_world (reader_open "a.wal" damaged_world).2);
    vm_compute; reflexivity.
Defined.
