(* ===== verification/PubSub.v ===== *)
(** * The publishing and subscribing tools

    apps/aether_pub.cpp and apps/aether_sub.cpp: the whole [main] of each, on the
    persistent broker and the in-memory broker.  Console output is a list of lines
    kept as data; the padding bytes of an [OrderEvent], which the language leaves
    open, are a parameter. *)

From Stdlib Require Import Ascii String.
From S2P Require Import Prelude Core Metrics Spsc Broker Posix MmapFile WalFormat Wal WalRecovery.
From S2P Require Import PersistentBroker CliArgs Histogram.
#[local] Open Scope string_scope.
#[local] Open Scope list_scope.
#[local] Open Scope Z_scope.

(** ** OrderEvent *)

(** A [w]-bit unsigned integer, and the conversions to 64 and 32 bits. *)
Definition uint (w : Z) : Type := dsig (in_width w).
Definition uval {w : Z} (u : uint w) : Z := proj1_sig u.
Definition to_u64 (z : Z) : uint 64 := dexist (wrap 64 z) (wrap_width 64 z ltac:(lia)).
Definition to_u32 (z : Z) : uint 32 := dexist (wrap 32 z) (wrap_width 32 z ltac:(lia)).

(** The object: its three members and the four bytes of padding behind them. *)
Record OrderEvent : Type := mkEvent {
  ev_id : uint 64; ev_price : uint 64 (** the binary64 encoding *);
  ev_quantity : uint 32; ev_padding : uint 32 }.

(** The encoding of a finite non-negative [double], normalised to 53 bits or subnormal. *)
Definition double_bits (d : double) : Z :=
  match d with
  | Finite m e => if m <? 2 ^ 52 then m else (e + 1075) * 2 ^ 52 + (m - 2 ^ 52)
  | Infinity negative => (if negative then 2 ^ 63 else 0) + 2047 * 2 ^ 52
  | NaN => 2047 * 2 ^ 52 + 2 ^ 51
  end.

(** 24 bytes in the order of declaration, little endian. *)
Definition event_bytes (e : OrderEvent) : list byte :=
  le_bytes 8 (uval (ev_id e)) ++ le_bytes 8 (uval (ev_price e)) ++
  le_bytes 4 (uval (ev_quantity e)) ++ le_bytes 4 (uval (ev_padding e)).
Definition event_of_bytes (bs : list byte) : OrderEvent :=
  mkEvent (to_u64 (le_value (slice 0 8 bs))) (to_u64 (le_value (slice 8 8 bs)))
    (to_u32 (le_value (slice 16 4 bs))) (to_u32 (le_value (slice 20 4 bs))).

Lemma to_u64_proj (u : uint 64) : to_u64 (uval u) = u.
Proof.
  apply dsig_eq. simpl. apply wrap_id. exact (bool_decide_unpack _ (proj2_sig u)).
Qed.
Lemma to_u32_proj (u : uint 32) : to_u32 (uval u) = u.
Proof.
  apply dsig_eq. simpl. apply wrap_id. exact (bool_decide_unpack _ (proj2_sig u)).
Qed.
Lemma uint_width w (u : uint w) : in_width w (uval u).
Proof. exact (bool_decide_unpack _ (proj2_sig u)). Qed.

Lemma event_bytes_slices e :
  slice 0 8 (event_bytes e) = le_bytes 8 (uval (ev_id e)) /\
  slice 8 8 (event_bytes e) = le_bytes 8 (uval (ev_price e)) /\
  slice 16 4 (event_bytes e) = le_bytes 4 (uval (ev_quantity e)) /\
  slice 20 4 (event_bytes e) = le_bytes 4 (uval (ev_padding e)).
Proof. by split_and!. Qed.

#[export, refine] Instance OrderEvent_copyable : TriviallyCopyable OrderEvent := {|
  sizeof_T := 24; object_payload := event_bytes; from_bytes := event_of_bytes |}.
Proof.
  - done.
  - by vm_compute.
  - done.
  - intros e. destruct (event_bytes_slices e) as (E1 & E2 & E3 & E4).
    unfold event_of_bytes. rewrite E1, E2, E3, E4.
    rewrite !le_value_bytes by (apply (uint_width 64) || apply (uint_width 32)).
    rewrite !to_u64_proj, !to_u32_proj. by destruct e.
Defined.

(** [OrderEvent event{}]. *)
Definition OrderEvent_default : OrderEvent := mkEvent (to_u64 0) (to_u64 0) (to_u32 0) (to_u32 0).

(** [make_event]: [padding i] is what the padding of the object happens to hold. *)
Definition make_event (padding : Z -> uint 32) (i : Z) : OrderEvent :=
  mkEvent (to_u64 (i ⊞ 1))
    (to_u64 (double_bits (double_add (round 100 1)
       (double_mul (double_of_u64 (i mod 100)) (round 1 4)))))
    (to_u32 (wrap 32 (1 + wrap 32 (i mod 1000)))) (padding i).

(** ** std::filesystem::path on POSIX *)

Fixpoint drop_while (p : ascii -> bool) (l : list ascii) : list ascii :=
  match l with [] => [] | c :: l' => if p c then drop_while p l' else l end.
Definition is_slash (c : ascii) : bool := Ascii.eqb c "/".

(** Everything before the last element, without the separators behind it. *)
Definition parent_path (path : string) : string :=
  let front := drop_while is_slash
                 (drop_while (fun c => negb (is_slash c)) (rev (list_ascii_of_string path))) in
  match front with
  | [] => if String.prefix "/" path then "/" else ""
  | _ => string_of_list_ascii (rev front)
  end.
Definition has_parent_path (path : string) : bool := negb (is_empty (parent_path path)).

(** What the tools print, and how they end: an exception that leaves [main] calls
    std::terminate. *)
Inductive report : Type :=
  | ToolError (s : Status)
  | ToolHelp
  | PubSummary (wal_path : string) (requested records_written published wal_records_written
      wal_bytes_written wal_flushes publish_failed_full wal_failures next_sequence offset
      remaining : Z)
  | SubBanner
  | EventLine (e : OrderEvent)
  | LocalSummary (produced consumed suppressed published consumed_metric publish_failed_full
      consume_failed_empty : Z)
  | WalSummary (replayed printed suppressed recovered failures : Z).
Inductive ending : Set := Exited (exit_code : Z) | Terminated.

Section Tools.
Context {W : Type} `{Posix W}.
Variable padding : Z -> uint 32.
(** [std::filesystem::create_directories]; [None] is an exception. *)
Variable create_directories : string -> W -> option W.

(** ** aether_pub *)

Local Abbreviation pub_state := (PersistentBrokerState (SpscRingBuffer OrderEvent)).

Fixpoint pub_loop (fuel : nat) (messages i : Z) (broker : pub_state) (w : W)
    : outcome (Status * pub_state * W) :=
  if i <? messages then
    match fuel with
    | O => OutOfFuel
    | S fuel =>
        match PersistentBroker.try_publish (Capacity:=65536) (make_event padding i) 0 broker w with
        | None => Undefined
        | Some (status, broker, w) =>
            if negb (is_ok status) then Done (status, broker, w)
            else pub_loop fuel messages (i ⊞ 1) broker w
        end
    end
  else Done (Status_ok, broker, w).

Definition pub_summary (options : PubOptions) (broker : pub_state) : report :=
  let metrics := PersistentBroker.metrics_snapshot broker in
  PubSummary (pub_wal_path options) (pub_messages options)
    (PersistentBroker.wal_records_written broker) (published metrics)
    (wal_records_written metrics) (wal_bytes_written metrics) (wal_flushes metrics)
    (publish_failed_full metrics) (wal_failures metrics)
    (PersistentBroker.wal_next_sequence broker) (PersistentBroker.wal_current_offset broker)
    (PersistentBroker.wal_remaining_space broker).

(** [main] after the directory exists. *)
Definition pub_run (fuel : nat) (options : PubOptions) (w : W) : outcome (ending * list report * W) :=
  let config := mkWalConfig (pub_wal_path options) (pub_wal_size_bytes options)
                  (pub_flush_on_commit options) in
  let '(status, broker, w) := PersistentBroker.open_wal (T:=OrderEvent) (Capacity:=65536) config
                                (PersistentBroker.init (T:=OrderEvent) (Capacity:=65536)) w in
  if negb (is_ok status)
  then Done (Exited 1, [ToolError status], PersistentBroker.destroy broker w)
  else
    match pub_loop fuel (pub_messages options) 0 broker w with
    | Done (status, broker, w) =>
        if negb (is_ok status)
        then Done (Exited 1, [ToolError status], PersistentBroker.destroy broker w)
        else
          let '(status, broker, w) := PersistentBroker.flush broker w in
          if negb (is_ok status)
          then Done (Exited 1, [ToolError status], PersistentBroker.destroy broker w)
          else Done (Exited 0, [pub_summary options broker], PersistentBroker.destroy broker w)
    | Undefined => Undefined
    | OutOfFuel => OutOfFuel
    end.

Definition pub_main (fuel : nat) (argv : list string) (w : W) : outcome (ending * list report * W) :=
  match parse_pub_args argv with
  | Done (Error s) => Done (Exited 2, [ToolError s], w)
  | Done (Value options) =>
      if pub_help options then Done (Exited 0, [ToolHelp], w)
      else if has_parent_path (pub_wal_path options) then
        match create_directories (parent_path (pub_wal_path options)) w with
        | None => Done (Terminated, [], w)
        | Some w => pub_run fuel options w
        end
      else pub_run fuel options w
  | Undefined => Undefined
  | OutOfFuel => OutOfFuel
  end.

(** ** aether_sub *)

Section Local.
Variable Capacity : Z.
Local Abbreviation sub_state := (BrokerState (SpscRingBuffer OrderEvent)).

Fixpoint publish_events (fuel : nat) (messages i : Z) (broker : sub_state)
    : outcome (Status * sub_state) :=
  if i <? messages then
    match fuel with
    | O => OutOfFuel
    | S fuel =>
        match Broker.try_publish (Capacity:=Capacity) (make_event padding i) broker with
        | None => Undefined
        | Some (status, broker) =>
            if negb (is_ok status) then Done (status, broker)
            else publish_events fuel messages (i ⊞ 1) broker
        end
    end
  else Done (Status_ok, broker).

Fixpoint consume_events (fuel : nat) (messages limit n : Z) (broker : sub_state)
    : outcome (Status * Z * list report * sub_state) :=
  if n <? messages then
    match fuel with
    | O => OutOfFuel
    | S fuel =>
        match Broker.try_consume (T:=OrderEvent) (Capacity:=Capacity) broker with
        | None => Undefined
        | Some (status, out, broker) =>
            if negb (is_ok status) then Done (status, n, [], broker)
            else
              let event := default OrderEvent_default out in
              match consume_events fuel messages limit (n ⊞ 1) broker with
              | Done (status, total, lines, broker) =>
                  Done (status, total,
                    (if n <? limit then [EventLine event] else []) ++ lines, broker)
              | Undefined => Undefined
              | OutOfFuel => OutOfFuel
              end
        end
    end
  else Done (Status_ok, n, [], broker).

Definition run_local (fuel : nat) (options : SubOptions) : outcome (Z * list report) :=
  match publish_events fuel (sub_messages options) 0 (Broker.init (Capacity:=Capacity)) with
  | Done (status, broker) =>
      if negb (is_ok status) then Done (1, [ToolError status])
      else
        match consume_events fuel (sub_messages options) (sub_limit options) 0 broker with
        | Done (status, total, lines, broker) =>
            if negb (is_ok status) then Done (1, lines ++ [ToolError status])
            else
              let suppressed := if total >? sub_limit options
                                then total ⊟ sub_limit options else 0 in
              let metrics := Broker.metrics_snapshot broker in
              Done (0, lines ++ [LocalSummary (sub_messages options) total suppressed
                (published metrics) (consumed metrics) (publish_failed_full metrics)
                (consume_failed_empty metrics)])
        | Undefined => Undefined
        | OutOfFuel => OutOfFuel
        end
  | Undefined => Undefined
  | OutOfFuel => OutOfFuel
  end.
End Local.

Definition dispatch_local (fuel : nat) (options : SubOptions) : outcome (Z * list report) :=
  if sub_capacity options =? 64 then run_local 64 fuel options
  else if sub_capacity options =? 256 then run_local 256 fuel options
  else if sub_capacity options =? 1024 then run_local 1024 fuel options
  else if sub_capacity options =? 4096 then run_local 4096 fuel options
  else if sub_capacity options =? 65536 then run_local 65536 fuel options
  else Done (2, []).

(** The lambda given to the replay: [seen] and the lines printed so far. *)
Definition print_visitor (limit : Z) (event : OrderEvent) (header : WalRecordHeader)
    (s : Z * list report) : Status * (Z * list report) :=
  (Status_ok, (s.1 ⊞ 1, if s.1 <? limit then s.2 ++ [EventLine event] else s.2)).

Definition sub_replay (fuel : nat) (options : SubOptions) (w : W)
    : outcome (Z * list report * W) :=
  match PersistentBroker.replay_with_metrics fuel (sub_wal_path options)
          (print_visitor (sub_limit options)) (0, []) BrokerCounters_init w with
  | Done (status, (seen, lines), counters, w) =>
      if negb (is_ok status) then Done (1, lines ++ [ToolError status], w)
      else
        let limit := sub_limit options in
        let suppressed := if seen >? limit then seen ⊟ limit else 0 in
        let metrics := snapshot counters in
        Done (0, lines ++ [WalSummary seen (if seen <? limit then seen else limit) suppressed
                (recovered_records metrics) (recovery_failures metrics)], w)
  | Undefined => Undefined
  | OutOfFuel => OutOfFuel
  end.

Definition sub_main (fuel : nat) (argv : list string) (w : W) : outcome (Z * list report * W) :=
  match parse_sub_args argv with
  | Done (Error s) => Done (2, [ToolError s], w)
  | Done (Value options) =>
      if sub_help options then Done (0, [ToolHelp], w)
      else if is_empty (sub_wal_path options) then
        match dispatch_local fuel options with
        | Done (c, lines) => Done (c, SubBanner :: lines, w)
        | Undefined => Undefined
        | OutOfFuel => OutOfFuel
        end
      else
        match sub_replay fuel options w with
        | Done (c, lines, w) => Done (c, SubBanner :: lines, w)
        | Undefined => Undefined
        | OutOfFuel => OutOfFuel
        end
  | Undefined => Undefined
  | OutOfFuel => OutOfFuel
  end.
End Tools.

(** ** The events the tools exchange *)

(** The [i]-th event with its exact price, [100 + (i mod 100) / 4]. *)
Definition order_event (padding : Z -> uint 32) (i : Z) : OrderEvent :=
  mkEvent (to_u64 (i + 1)) (to_u64 (double_bits (round (400 + i mod 100) 4)))
    (to_u32 (1 + i mod 1000)) (padding i).

(** [n] events, from the [i]-th on. *)
Definition events (padding : Z -> uint 32) (i : Z) (n : nat) : list OrderEvent :=
  map (fun k => order_event padding (i + Z.of_nat k)) (seq 0 n).

(** The floating-point computation of the price is exact. *)
Lemma price_exact r : 0 <= r < 100 ->
  double_add (round 100 1) (double_mul (double_of_u64 r) (round 1 4)) = round (400 + r) 4.
Proof.
  intros Hr. assert (E : forallb (fun k => let r := Z.of_nat k in
    match double_add (round 100 1) (double_mul (double_of_u64 r) (round 1 4)), round (400 + r) 4 with
    | Finite m e, Finite m' e' => (m =? m') && (e =? e') | _, _ => false end) (seq 0 100) = true)
    by (vm_compute; reflexivity).
  rewrite forallb_forall in E. specialize (E (Z.to_nat r)). rewrite in_seq in E.
  specialize (E ltac:(lia)). cbv zeta in E. rewrite Z2Nat.id in E by lia.
  destruct (double_add _ _), (round (400 + r) 4); try discriminate.
  apply andb_prop in E as [->%Z.eqb_eq ->%Z.eqb_eq]. done.
Qed.

Lemma make_event_exact padding i :
  0 <= i < 2 ^ 64 - 1 -> make_event padding i = order_event padding i.
Proof.
  intros Hi. unfold make_event, order_event.
  rewrite price_exact by (apply Z.mod_pos_bound; lia).
  pose proof (Z.mod_pos_bound i 1000 ltac:(lia)).
  f_equal; apply dsig_eq; simpl; rewrite ?(wrap_id 32 (i mod 1000)) by (unfold in_width; lia);
    by rewrite !wrap_id by (apply wrap_width; lia).
Qed.

Lemma events_S padding i n : events padding i (S n) = events padding i n ++ [order_event padding (i + Z.of_nat n)].
Proof. unfold events. by rewrite seq_S, map_app. Qed.

Lemma length_events padding i n : length (events padding i n) = n.
Proof. unfold events. by rewrite length_map, length_seq. Qed.

(** A log whose records carry events takes 64 bytes for each. *)
Lemma event_log_length es : forall log,
  map snd log = map event_bytes es -> length (log_bytes log) = (64 * length es)%nat.
Proof.
  induction es as [|e es IH]; intros [|x log]; try discriminate; [done|].
  cbn [map]. intros [= E1 E2]. rewrite log_bytes_cons, length_app, length_encode, (IH _ E2).
  unfold entry_size. rewrite E1. simpl length. lia.
Qed.

(** ** aether_pub *)

#[local] Arguments Z.mul : simpl never.
#[local] Arguments Z.add : simpl never.

Section PubProofs.
Context {W : Type} `{PosixLaws W}.
Variable padding : Z -> uint 32.
Local Abbreviation pub_state := (PersistentBrokerState (SpscRingBuffer OrderEvent)).

(** The counters after [n] publishes and [f] flushes. *)
Definition pub_metrics (n f : Z) : BrokerMetricsSnapshot :=
  mkSnapshot n 0 0 0 0 0 (64 * n) n f 0 0 0.

(** After [n] publishes: the queue and the log hold the first [n] events. *)
Definition pub_inv (path : string) (size : Z) (n : nat) (pb : pub_state) (w : W) : Prop :=
  exists log k, pb_rep 65536 pb w (events padding 0 n) log (replicate k Byte.x00) /\
    map snd log = map event_bytes (events padding 0 n) /\
    path_ (ww_file (pb_writer pb)) = path /\
    snapshot (pb_counters pb) = pub_metrics (Z.of_nat n) 0 /\
    64 * Z.of_nat n + Z.of_nat k = size.

Lemma pub_metrics_step c n : 0 <= n < 2 ^ 32 ->
  snapshot c = pub_metrics n 0 ->
  snapshot (record_published (record_wal_write 64 c)) = pub_metrics (n + 1) 0.
Proof.
  intros Hn E. destruct c. unfold snapshot, pub_metrics in *. simpl in E.
  injection E as -> -> -> -> -> -> -> -> -> -> -> ->.
  simpl. unfold increment. rewrite !wrap_id by (unfold in_width; lia). f_equal; lia.
Qed.

Lemma pub_step path size n pb w :
  pub_inv path size n pb w ->
  exists st pb' w',
    PersistentBroker.try_publish (Capacity:=65536) (make_event padding (Z.of_nat n)) 0 pb w
      = Some (st, pb', w') /\
    (is_ok st = true -> Z.of_nat n < 65536 /\ pub_inv path size (S n) pb' w').
Proof.
  intros (log & k & R & M & Hp & C & Hs).
  pose proof (pb_publish_spec (Capacity:=65536) (make_event padding (Z.of_nat n)) 0 pb w _ _ _
    ltac:(by vm_compute) R) as S.
  rewrite length_events in S. destruct (Z.leb_spec 65536 (Z.of_nat n)).
  { eexists _, _, _. split; [exact S|done]. }
  rewrite length_replicate in S. change (sizeof_T (T:=OrderEvent)) with 24 in S.
  destruct (Nat.ltb_spec k (40 + Z.to_nat 24)) as [Hk|Hk].
  { destruct S as [d S]. eexists _, _, _. split; [exact S|done]. }
  destruct S as (st & pb' & w' & S & ts & _ & Hfile & _ & S').
  exists st, pb', w'. split; [exact S|]. intros Hok. rewrite Hok in S'. split; [lia|].
  destruct S' as [R' C']. rewrite make_event_exact in R' by lia.
  exists (log ++ [message_entry (Z.of_nat (length log)) ts
    (pb_message (order_event padding (Z.of_nat n)) 0)]), (k - 64)%nat.
  rewrite events_S, Z.add_0_l. split_and!.
  - rewrite drop_replicate in R'. exact R'.
  - rewrite !map_app, M. reflexivity.
  - by rewrite Hfile.
  - rewrite C', Nat2Z.inj_succ. apply pub_metrics_step; [lia|exact C].
  - lia.
Qed.

(** The loop ends within the capacity, and succeeds only with every event out. *)
Lemma pub_loop_spec path size messages : messages < 2 ^ 64 -> forall fuel n pb w,
  pub_inv path size n pb w -> 65536 < Z.of_nat n + Z.of_nat fuel -> Z.of_nat n <= 65536 ->
  Z.of_nat n <= messages ->
  exists st pb' w', pub_loop padding fuel messages (Z.of_nat n) pb w = Done (st, pb', w') /\
    (is_ok st = true -> messages <= 65536 /\ pub_inv path size (Z.to_nat messages) pb' w').
Proof.
  intros Hm. induction fuel as [|fuel IH]; intros n pb w I Hf Hn Hnm; simpl;
    (destruct (Z.ltb_spec (Z.of_nat n) messages);
     [|eexists _, _, _; split; [done|]; intros _;
      replace (Z.to_nat messages) with n by lia; (split; [lia|done])]).
  { lia. }
  destruct (pub_step path size n pb w I) as (st & pb' & w' & -> & Hok).
  destruct (is_ok st) eqn:Est; simpl.
  - destruct (Hok eq_refl) as [Hlt I']. rewrite wrap_id by (unfold in_width; lia).
    replace (Z.of_nat n + 1) with (Z.of_nat (S n)) by lia. apply IH; [done|lia..].
  - eexists _, _, _. split; [done|]. by rewrite Est.
Qed.

(** What a run that exits with 0 leaves: the summary and the file. *)
Definition pub_done (o : PubOptions) (out : list report) (w : W) : Prop :=
  pub_messages o <= 65536 /\ 64 * pub_messages o <= pub_wal_size_bytes o /\
  out = [PubSummary (pub_wal_path o) (pub_messages o) (pub_messages o) (pub_messages o)
    (pub_messages o) (64 * pub_messages o) 1 0 0 (pub_messages o) (64 * pub_messages o)
    (pub_wal_size_bytes o - 64 * pub_messages o)] /\
  exists log k, os_files (os w) !! pub_wal_path o = Some (log_bytes log ++ replicate k Byte.x00) /\
    Forall entry_ok log /\
    map snd log = map event_bytes (events padding 0 (Z.to_nat (pub_messages o))) /\
    length (log_bytes log ++ replicate k Byte.x00) = Z.to_nat (pub_wal_size_bytes o).

Lemma pub_flush_done o pb w :
  0 <= pub_messages o <= 65536 ->
  pub_inv (pub_wal_path o) (pub_wal_size_bytes o) (Z.to_nat (pub_messages o)) pb w ->
  let '(st, pb', w') := PersistentBroker.flush pb w in
  is_ok st = true -> pub_done o [pub_summary o pb'] (PersistentBroker.destroy pb' w').
Proof.
  intros Hm (log & k & R & M & Hp & C & Hs). rewrite Z2Nat.id in * by lia.
  pose proof (pb_flush_spec pb w _ _ _ R) as F.
  destruct (PersistentBroker.flush pb w) as [[st pb'] w']. destruct F as (R' & Hw & _ & C').
  intros Hok. rewrite Hok in C'. pose proof (event_log_length _ _ M) as Hl.
  rewrite length_events in Hl.
  assert (Hlog : length log = Z.to_nat (pub_messages o)).
  { pose proof (f_equal length M) as E. by rewrite !length_map, length_events in E. }
  pose proof (pr_writer _ _ _ _ _ _ R') as RW.
  assert (Hmetrics : snapshot (pb_counters pb') = pub_metrics (pub_messages o) 1).
  { rewrite C'. destruct (pb_counters pb). unfold snapshot, pub_metrics in *. simpl in C.
    injection C as -> -> -> -> -> -> -> -> -> -> -> ->. done. }
  split_and!; [lia|lia| |].
  - unfold pub_summary, PersistentBroker.metrics_snapshot, PersistentBroker.wal_records_written,
      PersistentBroker.wal_next_sequence, PersistentBroker.wal_current_offset,
      PersistentBroker.wal_remaining_space.
    rewrite Hmetrics, (wp_written _ _ _ _ RW), (wp_sequence _ _ _ _ RW), (wp_offset _ _ _ _ RW),
      (remaining_space_spec _ _ _ _ RW), Hlog, Hl, length_replicate. simpl.
    rewrite !Z2Nat.id by lia. do 2 f_equal; lia.
  - exists log, k. split_and!; [|exact (wp_ok _ _ _ _ RW)|done|].
    + rewrite <- Hp, <- Hw. by apply (pb_destroy_file _ _ _ _ _ R').
    + rewrite length_app, length_replicate, Hl. lia.
Qed.

Lemma pub_run_spec o w :
  0 <= pub_messages o < 2 ^ 64 -> in_width 64 (pub_wal_size_bytes o) ->
  exists c out w', pub_run padding (Z.to_nat 65537) o w = Done (Exited c, out, w') /\
    (c = 0 -> pub_done o out w').
Proof.
  intros Hm Hs. unfold pub_run, PersistentBroker.open_wal.
  set (config := mkBrokerConfig _ _ _).
  pose proof (pb_open_spec (T:=OrderEvent) (Capacity:=65536) config w Hs) as O.
  destruct (PersistentBroker.open _ _ _) as [[st pb] w1].
  destruct (is_ok st) eqn:Est; cbn [negb]; [|by eexists _, _, _].
  destruct O as (R & Hp & _ & C). simpl in Hp.
  assert (I : pub_inv (pub_wal_path o) (pub_wal_size_bytes o) 0 pb w1).
  { exists [], (Z.to_nat (pub_wal_size_bytes o)). split_and!; try done; [by rewrite C|].
    unfold in_width in Hs. lia. }
  destruct (pub_loop_spec _ _ _ (proj2 Hm) (Z.to_nat 65537) 0 pb w1 I)
    as (st2 & pb2 & w2 & E & Hok); [lia..|]. change (Z.of_nat 0) with 0 in E. rewrite E.
  destruct (is_ok st2) eqn:Est2; cbn [negb]; [|by eexists _, _, _].
  destruct (Hok eq_refl) as [Hle I2]. pose proof (pub_flush_done o pb2 w2 ltac:(lia) I2) as F.
  destruct (PersistentBroker.flush pb2 w2) as [[st3 pb3] w3].
  destruct (is_ok st3); cbn [negb]; [|by eexists _, _, _].
  eexists _, _, _. split; [done|]. auto.
Qed.
End PubProofs.

(** ** aether_sub without a log *)

Lemma events_cons padding i n :
  events padding i (S n) = order_event padding i :: events padding (i + 1) n.
Proof.
  unfold events. cbn [seq map]. rewrite Z.add_0_r. f_equal. rewrite <- seq_shift, map_map.
  apply map_ext. intros k. f_equal. lia.
Qed.

Section SubProofs.
Variable padding : Z -> uint 32.
Variable Capacity : Z.
Context `{!CapacityOk Capacity} (Hcap : Capacity <= 65536).
Local Abbreviation sub_state := (BrokerState (SpscRingBuffer OrderEvent)).

Definition local_metrics (p c : Z) : BrokerMetricsSnapshot := mkSnapshot p c 0 0 0 0 0 0 0 0 0 0.

(** The queue holds [l]; [p] values were published and [c] consumed. *)
Definition sub_inv (l : list OrderEvent) (p c : Z) (b : sub_state) : Prop :=
  broker_rep Capacity b l /\ snapshot (counters_ b) = local_metrics p c.

Ltac step_metrics C :=
  match type of C with snapshot (counters_ ?b) = _ => destruct (counters_ b) end;
  unfold snapshot, local_metrics in *; simpl in C;
  injection C as -> -> -> -> -> -> -> -> -> -> -> ->; simpl; unfold increment;
  rewrite !wrap_id by (unfold in_width; lia); done.

Lemma sub_publish v l p c b : 0 <= p < 2 ^ 32 -> sub_inv l p c b ->
  exists b', Broker.try_publish (Capacity:=Capacity) v b =
    Some (if Capacity <=? Z.of_nat (length l) then mkStatus StatusCode.full "broker queue is full"
          else Status_ok, b') /\
    (Z.of_nat (length l) < Capacity -> sub_inv (l ++ [v]) (p + 1) c b').
Proof.
  intros Hp [R C]. destruct (try_publish_spec v b l R) as (b' & E & R' & _ & Hc). exists b'.
  destruct (Fifo_push_cases (Capacity:=Capacity) v l) as [[Hlt P]|[Hge P]];
    rewrite P in *; cbn [fst snd] in *;
    destruct (Z.leb_spec Capacity (Z.of_nat (length l))); try lia; (split; [done|]); intros ?.
  - split; [done|]. rewrite Hc. step_metrics C.
  - lia.
Qed.

Lemma sub_consume v l p c b : 0 <= c < 2 ^ 32 -> sub_inv (v :: l) p c b ->
  exists b', Broker.try_consume (Capacity:=Capacity) b = Some (Status_ok, Some v, b') /\
    sub_inv l p (c + 1) b'.
Proof.
  intros Hc [R C]. destruct (try_consume_spec b _ R) as (b' & E & R' & _ & Hc'). exists b'.
  split; [done|]. split; [done|]. rewrite Hc'. step_metrics C.
Qed.

Lemma publish_events_spec messages : messages < 2 ^ 64 -> forall fuel n b,
  sub_inv (events padding 0 n) (Z.of_nat n) 0 b ->
  Capacity < Z.of_nat n + Z.of_nat fuel -> Z.of_nat n <= Capacity -> Z.of_nat n <= messages ->
  exists b', publish_events padding Capacity fuel messages (Z.of_nat n) b =
    Done (if messages <=? Capacity then Status_ok
          else mkStatus StatusCode.full "broker queue is full", b') /\
    (messages <= Capacity -> sub_inv (events padding 0 (Z.to_nat messages)) messages 0 b').
Proof.
  intros Hm. induction fuel as [|fuel IH]; intros n b I Hf Hn Hnm; simpl;
    (destruct (Z.ltb_spec (Z.of_nat n) messages);
     [|exists b; assert (messages = Z.of_nat n) as -> by lia; rewrite Nat2Z.id;
       destruct (Z.leb_spec (Z.of_nat n) Capacity); [done|lia]]).
  { lia. }
  destruct (sub_publish (make_event padding (Z.of_nat n)) _ (Z.of_nat n) 0 b ltac:(lia) I) as (b' & -> & I').
  rewrite length_events in *. destruct (Z.leb_spec Capacity (Z.of_nat n)).
  - simpl. exists b'. destruct (Z.leb_spec messages Capacity); [lia|]. split; [done|lia].
  - simpl. rewrite wrap_id by (unfold in_width; lia).
    replace (Z.of_nat n + 1) with (Z.of_nat (S n)) by lia. apply IH; try lia.
    rewrite events_S, Z.add_0_l, Nat2Z.inj_succ, <- (make_event_exact padding (Z.of_nat n)) by lia.
    by apply I'.
Qed.

Lemma consume_events_spec messages limit : 0 <= messages <= 65536 -> 0 <= limit -> forall fuel n b,
  sub_inv (events padding n (Z.to_nat (messages - n))) messages n b ->
  messages < n + Z.of_nat fuel -> 0 <= n <= messages ->
  exists b', consume_events Capacity fuel messages limit n b =
    Done (Status_ok, messages,
      map EventLine (take (Z.to_nat (limit - n)) (events padding n (Z.to_nat (messages - n)))), b') /\
    sub_inv [] messages messages b'.
Proof.
  intros Hm Hl. induction fuel as [|fuel IH]; intros n b I Hf Hn; simpl;
    (destruct (Z.ltb_spec n messages);
     [|exists b; assert (n = messages) as -> by lia; rewrite Z.sub_diag in *;
       change (events padding messages (Z.to_nat 0)) with (@nil OrderEvent) in *; rewrite take_nil; done]).
  { lia. }
  assert (E : Z.to_nat (messages - n) = S (Z.to_nat (messages - (n + 1)))) by lia.
  rewrite E in *. rewrite events_cons in *.
  destruct (sub_consume _ _ messages n b ltac:(lia) I) as (b1 & -> & I1). simpl.
  rewrite wrap_id by (unfold in_width; lia).
  destruct (IH (n + 1) b1 I1) as (b' & -> & I'); [lia..|]. exists b'. split; [|done].
  destruct (Z.ltb_spec n limit).
  - replace (Z.to_nat (limit - n)) with (S (Z.to_nat (limit - (n + 1)))) by lia. done.
  - replace (Z.to_nat (limit - n)) with 0%nat by lia.
    by replace (Z.to_nat (limit - (n + 1))) with 0%nat by lia.
Qed.

(** The two outcomes of the local demonstration. *)
Definition local_report (o : SubOptions) : Z * list report :=
  let n := sub_messages o in
  let limit := sub_limit o in
  if n <=? Capacity
  then (0, map EventLine (take (Z.to_nat limit) (events padding 0 (Z.to_nat n))) ++
           [LocalSummary n n (Z.max 0 (n - limit)) n n 0 0])
  else (1, [ToolError (mkStatus StatusCode.full "broker queue is full")]).

Lemma run_local_spec o : in_width 64 (sub_messages o) -> in_width 64 (sub_limit o) ->
  run_local padding Capacity (Z.to_nat 65537) o = Done (local_report o).
Proof.
  intros [Hm0 Hm] [Hl0 Hl]. pose proof (capacity_ge2 (Capacity:=Capacity)). unfold run_local.
  destruct (publish_events_spec (sub_messages o) Hm (Z.to_nat 65537) 0
    (Broker.init (Capacity:=Capacity))) as (b & E & I); [|lia..|].
  { split; [apply broker_init_rep|done]. }
  change (Z.of_nat 0) with 0 in E. rewrite E. unfold local_report.
  destruct (Z.leb_spec (sub_messages o) Capacity) as [Hle|Hgt]; [|done].
  change (negb (is_ok Status_ok)) with false. cbv iota.
  destruct (consume_events_spec (sub_messages o) (sub_limit o) ltac:(lia) Hl0 (Z.to_nat 65537) 0 b)
    as (b' & E' & _ & C'); [rewrite Z.sub_0_r; auto|lia..|].
  rewrite E', !Z.sub_0_r. change (negb (is_ok Status_ok)) with false. cbv iota zeta.
  unfold Broker.metrics_snapshot. rewrite C', Z.gtb_ltb. unfold local_metrics. cbn [published consumed publish_failed_full consume_failed_empty].
  do 5 f_equal.
  destruct (Z.ltb_spec (sub_limit o) (sub_messages o)); [|lia].
  rewrite wrap_id; unfold in_width; lia.
Qed.
End SubProofs.

(** ** aether_sub with a log *)

Definition print_one (limit : Z) (event : OrderEvent) (s : Z * list report) : Z * list report :=
  (s.1 ⊞ 1, if s.1 <? limit then s.2 ++ [EventLine event] else s.2).

Lemma fold_print padding limit : forall k n lines, 0 <= n -> n + Z.of_nat k < 2 ^ 64 ->
  fold_left (fun s e => print_one limit e s) (events padding n k) (n, lines) =
    (n + Z.of_nat k, lines ++ map EventLine (take (Z.to_nat (limit - n)) (events padding n k))).
Proof.
  induction k as [|k IH]; intros n lines Hn Hb.
  { change (events padding n 0) with (@nil OrderEvent). rewrite take_nil, app_nil_r, Z.add_0_r. done. }
  rewrite events_cons. cbn [fold_left]. unfold print_one at 2. cbn [fst snd].
  rewrite wrap_id by (unfold in_width; lia). rewrite IH by lia. f_equal; [lia|].
  destruct (Z.ltb_spec n limit).
  - replace (Z.to_nat (limit - n)) with (S (Z.to_nat (limit - (n + 1)))) by lia.
    cbn [take map]. by rewrite <- app_assoc.
  - replace (Z.to_nat (limit - n)) with 0%nat by lia.
    by replace (Z.to_nat (limit - (n + 1))) with 0%nat by lia.
Qed.

Lemma iter_recovered n : Z.of_nat n < 2 ^ 64 ->
  Nat.iter n record_recovered_record BrokerCounters_init =
    mkCounters 0 0 0 0 0 0 0 0 0 0 (Z.of_nat n) 0.
Proof.
  induction n as [|n IH]; intros Hn; [done|]. simpl. rewrite IH by lia. simpl.
  unfold increment. rewrite wrap_id by (unfold in_width; lia). f_equal. lia.
Qed.

(** The report on a log of [n] events. *)
Definition wal_report (padding : Z -> uint 32) (n limit : Z) : list report :=
  map EventLine (take (Z.to_nat limit) (events padding 0 (Z.to_nat n))) ++
  [WalSummary n (Z.min n limit) (Z.max 0 (n - limit)) n 0].

Section ReplayProofs.
Context {W : Type} `{PosixLaws W}.
Variable padding : Z -> uint 32.

Lemma sub_replay_spec o p (w w' : W) out r :
  in_width 64 (pub_messages p) -> in_width 64 (sub_limit o) ->
  pub_done padding p out w -> sub_wal_path o = pub_wal_path p ->
  reader_open (sub_wal_path o) w = (Value r, w') ->
  exists w'', sub_replay (S (Z.to_nat (pub_wal_size_bytes p) / 40)) o w =
    Done (0, wal_report padding (pub_messages p) (sub_limit o), w'').
Proof.
  intros [Hm0 Hm] [Hl0 Hl] (Hmax & _ & _ & log & k & Hfile & Hok & M & Hlen) Hp Hr.
  rewrite <- Hp in Hfile. change event_bytes with (object_payload (T:=OrderEvent)) in M.
  destruct (replay_with_metrics_spec (print_one (sub_limit o)) (0, []) _ BrokerCounters_init
    w log k (events padding 0 (Z.to_nat (pub_messages p))) r w' Hfile Hok M Hr) as [w2 E].
  rewrite Hlen, fold_print, length_events, iter_recovered, !Z2Nat.id, Z.sub_0_r in E by lia.
  exists w2. unfold sub_replay. change (print_visitor (sub_limit o)) with
    (absorb (print_one (sub_limit o))). rewrite E.
  change (negb (is_ok Status_ok)) with false. cbv iota zeta.
  cbn [snapshot recovered_records recovery_failures recovered_records_ recovery_failures_].
  unfold wal_report. rewrite Z.add_0_l, app_nil_l, Z.gtb_ltb.
  assert ((if pub_messages p <? sub_limit o then pub_messages p else sub_limit o)
    = Z.min (pub_messages p) (sub_limit o)) as ->.
  { destruct (Z.ltb_spec (pub_messages p) (sub_limit o)); lia. }
  assert ((if sub_limit o <? pub_messages p then pub_messages p ⊟ sub_limit o else 0)
    = Z.max 0 (pub_messages p - sub_limit o)) as ->; [|done].
  destruct (Z.ltb_spec (sub_limit o) (pub_messages p)); [|lia].
  rewrite wrap_id; unfold in_width; lia.
Qed.

Lemma reader_open_path path (w w' : W) r : reader_open path w = (Value r, w') -> is_empty path = false.
Proof. destruct path; [|done]. unfold reader_open, mmap_open_existing. simpl. done. Qed.
End ReplayProofs.

(** ** Properties *)

(** C34. The publisher's outcomes.  Whatever its arguments and the failures of the
    system, [aether_pub] ends, within 65537 iterations of its loop.  If it publishes
    and exits with 0, then at most 65536 messages were requested (more can never
    succeed, as nothing consumes from its queue), they fit the log, the summary is
    exact, and the file holds one record for each event, followed by zeros. *)
Theorem pub_tool_outcomes (W : Type) (P : Posix W) (L : PosixLaws W) (padding : Z -> uint 32)
    (mkdir : string -> W -> option W) (argv : list string) (w : W) :
  exists e out w', pub_main padding mkdir (Z.to_nat 65537) argv w = Done (e, out, w') /\
    forall o, parse_pub_args argv = Done (Value o) -> pub_help o = false -> e = Exited 0 ->
      pub_done padding o out w'.
Proof.
  unfold pub_main.
  destruct (parse_args_total pub_body PubOptions_default argv pub_progress) as [[o|s] Ho];
    unfold parse_pub_args; rewrite Ho; [|by eexists _, _, _].
  destruct (pub_parsed argv o Ho) as [Hm Hs].
  assert (R : forall w, exists e out w', pub_run padding (Z.to_nat 65537) o w = Done (e, out, w') /\
    forall o', Done (Value o) = Done (Value o') -> pub_help o' = false -> e = Exited 0 ->
      pub_done padding o' out w').
  { intros w0. destruct (pub_run_spec padding o w0 Hm Hs) as (c & out & w' & E & D).
    eexists _, _, _. split; [exact E|]. intros o' [= <-] _ [= Hc]. by apply D. }
  destruct (pub_help o) eqn:Hh.
  { eexists _, _, _. split; [reflexivity|]. intros o' [= <-]. congruence. }
  destruct (has_parent_path _); [|apply R]. destruct (mkdir _ _); [apply R|].
  eexists _, _, _. split; [reflexivity|]. discriminate.
Qed.

(** C35. From publisher to subscriber.  When [aether_pub] exited with 0, a later
    [aether_sub] on the same file prints the first events up to its limit, with
    their exact identifiers, prices and quantities, reports as many events as were
    requested of the publisher, none lost and none failed, and exits with 0. *)
Theorem pub_sub_end_to_end (W : Type) (P : Posix W) (L : PosixLaws W) (padding : Z -> uint 32)
    (mkdir : string -> W -> option W) (pub_argv sub_argv : list string) (p : PubOptions)
    (s : SubOptions) (out : list report) (r : WalReader) (w w1 w2 : W) :
  parse_pub_args pub_argv = Done (Value p) -> pub_help p = false ->
  pub_main padding mkdir (Z.to_nat 65537) pub_argv w = Done (Exited 0, out, w1) ->
  parse_sub_args sub_argv = Done (Value s) -> sub_help s = false ->
  sub_wal_path s = pub_wal_path p -> reader_open (sub_wal_path s) w1 = (Value r, w2) ->
  exists w3, sub_main padding (S (Z.to_nat (pub_wal_size_bytes p) / 40)) sub_argv w1 =
    Done (0, SubBanner :: wal_report padding (pub_messages p) (sub_limit s), w3).
Proof.
  intros Hp Hph Hpub Hs Hsh Hpath Hr. destruct (pub_parsed _ _ Hp) as [Hm Hsz].
  destruct (sub_parsed _ _ Hs) as [_ Hl].
  assert (D : pub_done padding p out w1).
  { unfold pub_main in Hpub. rewrite Hp, Hph in Hpub.
    assert (R : forall w0, pub_run padding (Z.to_nat 65537) p w0 = Done (Exited 0, out, w1) ->
      pub_done padding p out w1).
    { intros w0 E0. destruct (pub_run_spec padding p w0 Hm Hsz) as (c & out' & w' & E & D).
      rewrite E in E0. injection E0 as -> -> ->. by apply D. }
    destruct (has_parent_path _); [|by apply (R w)]. destruct (mkdir _ _) as [w0|]; [|discriminate].
    by apply (R w0). }
  destruct (sub_replay_spec padding s p w1 w2 out r Hm Hl D Hpath Hr) as [w3 E].
  exists w3. unfold sub_main. by rewrite Hs, Hsh, (reader_open_path _ _ _ _ Hr), E.
Qed.

(** The local demonstration.  Without a log, accepted arguments make
    [aether_sub] publish and consume the requested number of events if they fit the
    chosen capacity, printing them up to the limit, with exact counters and exit
    code 0; otherwise it reports the full queue and exits with 1.  The fall-through
    of its dispatch is never taken. *)
Theorem sub_local_outcomes (W : Type) (P : Posix W) (padding : Z -> uint 32)
    (argv : list string) (o : SubOptions) (w : W) :
  parse_sub_args argv = Done (Value o) -> sub_help o = false -> sub_wal_path o = ""%string ->
  sub_main padding (Z.to_nat 65537) argv w =
    Done ((local_report padding (sub_capacity o) o).1,
          SubBanner :: (local_report padding (sub_capacity o) o).2, w).
Proof.
  intros Ho Hh Hp. destruct (sub_parsed _ _ Ho) as [Hm Hl].
  assert (D : dispatch_local padding (Z.to_nat 65537) o =
    Done (local_report padding (sub_capacity o) o)).
  { pose proof (sub_capacity_parsed _ _ Ho) as C. unfold sub_supported in C. unfold dispatch_local.
    destruct C as [<-|[<-|[<-|[<-|[<-|[]]]]]]; cbn [Z.eqb Pos.eqb];
      apply run_local_spec; (done || lia || typeclasses eauto). }
  unfold sub_main. rewrite Ho, Hh, Hp, D. cbn [is_empty]. by destruct (local_report _ _ _).
Qed.

(** Three messages into a small log on a system without failures. *)
Definition no_padding (i : Z) : uint 32 := to_u32 0.
Definition mkdir_ok (path : string) (w : ToyOs.world) : option ToyOs.world := Some w.
Definition pub_argv : list string := ["aether_pub"; "--wal=d/a.wal"; "--messages=3"; "--wal-size=300"]%string.
Definition pub_opts : PubOptions := mkPub false "d/a.wal" 3 300 false.
Definition sub_argv : list string := ["aether_sub"; "--wal=d/a.wal"; "--limit=2"]%string.
Definition sub_opts : SubOptions := mkSub false "d/a.wal" 10 2 1024.
Definition pub_result : option (ending * list report * ToyOs.world) :=
  match pub_main no_padding mkdir_ok (Z.to_nat 65537) pub_argv (ToyOs.boot []) with
  | Done r => Some r
  | _ => None
  end.
Definition pub_world : ToyOs.world := match pub_result with Some r => r.2 | None => ToyOs.boot [] end.
Definition pub_output : list report := match pub_result with Some r => r.1.2 | None => [] end.

Lemma pub_tool_outcomes_witness :
  exists e out w', pub_main no_padding mkdir_ok (Z.to_nat 65537) pub_argv (ToyOs.boot []) =
      Done (e, out, w') /\
    forall o, parse_pub_args pub_argv = Done (Value o) -> pub_help o = false -> e = Exited 0 ->
      pub_done no_padding o out w'.
Proof.
  exact (pub_tool_outcomes ToyOs.world ToyOs.posix ToyOs.posix_laws no_padding mkdir_ok pub_argv
    (ToyOs.boot [])).
Defined.

Definition sub_opened := reader_open "d/a.wal" pub_world.
Definition sub_reader : WalReader := mkReader (mkMmapFile 3 4096 300 "d/a.wal" false) 0 0.

Lemma pub_sub_end_to_end_witness :
  exists w3, sub_main no_padding (S (Z.to_nat 300 / 40)) sub_argv pub_world =
    Done (0, SubBanner :: wal_report no_padding 3 2, w3).
Proof.
  refine (pub_sub_end_to_end ToyOs.world ToyOs.posix ToyOs.posix_laws no_padding mkdir_ok pub_argv
    sub_argv pub_opts sub_opts pub_output sub_reader (ToyOs.boot []) pub_world sub_opened.2
    _ _ _ _ _ _ _).
  all: vm_compute; reflexivity.
Defined.

Lemma sub_local_outcomes_witness :
  sub_main no_padding (Z.to_nat 65537) ["aether_sub"; "--capacity=64"; "--messages=65"]%string
      (ToyOs.boot []) =
    Done (1, [SubBanner; ToolError (mkStatus StatusCode.full "broker queue is full")],
          ToyOs.boot []).
Proof.
  exact (sub_local_outcomes ToyOs.world ToyOs.posix no_padding
    ["aether_sub"; "--capacity=64"; "--messages=65"]%string (mkSub false "" 65 10 64) (ToyOs.boot [])
    eq_refl eq_refl eq_refl).
Defined.
