(* ===== verification/Utils.v ===== *)
(** * Thread and clock utilities

    utils/spin_wait.hpp, utils/thread_utils.hpp, utils/clock.hpp and
    utils/cpu_affinity.cpp (the Linux branches).  What a call does to the processor
    or the scheduler is recorded as an [action]; the number of hardware threads, the
    clock and pthread_setaffinity_np are parameters. *)

From stdpp Require Import gmap.
From S2P Require Import Prelude Core Histogram.
#[local] Open Scope Z_scope.

Inductive action : Set := CpuRelax | ThreadYield.

(** ** spin_wait.hpp *)

Module SpinWait.
Record t : Set := mk { pause_iterations_ : Z; yield_after_spin_ : bool; count_ : Z }.

Definition init (pause_iterations : Z) (yield_after_spin : bool) : t :=
  mk pause_iterations yield_after_spin 0.
Definition init_default : t :=
  init (qc_spin_pause_iterations QueueConfig_default) (qc_yield_after_spin QueueConfig_default).

Definition pause (s : t) : action * t :=
  (if (count_ s <? pause_iterations_ s) || negb (yield_after_spin_ s) then CpuRelax else ThreadYield,
   mk (pause_iterations_ s) (yield_after_spin_ s) (wrap 32 (count_ s + 1))).
Definition reset (s : t) : t := mk (pause_iterations_ s) (yield_after_spin_ s) 0.
Definition count (s : t) : Z := count_ s.

Fixpoint pauses (n : nat) (s : t) : list action * t :=
  match n with
  | O => ([], s)
  | S n => let '(a, s) := pause s in let '(l, s) := pauses n s in (a :: l, s)
  end.
End SpinWait.

(** ** thread_utils.hpp *)

Module ThreadUtils.
Record SpinWait : Set := mkSpinWait {
  counter_ : Z; pause_iterations_ : Z; yield_after_spin_ : bool }.

Definition init (pause_iterations : Z) (yield_after_spin : bool) : SpinWait :=
  mkSpinWait 0 pause_iterations yield_after_spin.

Definition wait (s : SpinWait) : action * SpinWait :=
  if counter_ s <? pause_iterations_ s
  then (CpuRelax, mkSpinWait (wrap 32 (counter_ s + 1)) (pause_iterations_ s) (yield_after_spin_ s))
  else (if yield_after_spin_ s then ThreadYield else CpuRelax, s).
Definition reset (s : SpinWait) : SpinWait :=
  mkSpinWait 0 (pause_iterations_ s) (yield_after_spin_ s).

Fixpoint waits (n : nat) (s : SpinWait) : list action * SpinWait :=
  match n with
  | O => ([], s)
  | S n => let '(a, s) := wait s in let '(l, s) := waits n s in (a :: l, s)
  end.

(** The loop that copies a name into [buffer]. *)
Fixpoint copy_name (name buffer : list byte) (i count : nat) : list byte :=
  match count with
  | O => buffer
  | S count => copy_name name (<[i := default Byte.x00 (name !! i)]> buffer) (S i) count
  end.

(** The buffer of [size] bytes that [set_current_thread_name] fills. *)
Definition thread_name_buffer (size : nat) (name : list byte) : list byte :=
  let buffer := replicate size Byte.x00 in
  let count := if (length name <? length buffer - 1)%nat then length name
               else (length buffer - 1)%nat in
  copy_name name buffer 0 count.
End ThreadUtils.

(** ** clock.hpp *)

Module Stopwatch.
Section Stopwatch.
Context {W : Type} (monotonic_time_ns : W -> Z * W).
Record t : Set := mk { start_ns_ : Z }.
Definition init (w : W) : t * W := let '(now, w) := monotonic_time_ns w in (mk now, w).
Definition reset (s : t) (w : W) : t * W := let '(now, w) := monotonic_time_ns w in (mk now, w).
Definition elapsed_ns (s : t) (w : W) : Z * W :=
  let '(now, w) := monotonic_time_ns w in (now ⊟ start_ns_ s, w).
Definition elapsed_seconds (s : t) (w : W) : double * W :=
  let '(ns, w) := elapsed_ns s w in (double_div (double_of_u64 ns) (round 1000000000 1), w).
End Stopwatch.
End Stopwatch.

(** ** cpu_affinity.cpp, on Linux *)

Module Affinity.
Record CpuAffinityInfo : Set := mkInfo { supported : bool; hardware_threads_ : Z; platform : string }.

Section Affinity.
Context {W : Type}.
(** [std::thread::hardware_concurrency()], 0 when unknown. *)
Variable hardware_concurrency : Z.
(** pthread_setaffinity_np on the calling thread: 0, or an error number. *)
Variable setaffinity : gset Z -> W -> Z * W.

Definition hardware_threads : Z := wrap 32 hardware_concurrency.
Definition valid_cpu_index (cpu_index : Z) : bool :=
  (hardware_threads =? 0) || (cpu_index <? hardware_threads).

Definition cpu_affinity_info : CpuAffinityInfo := mkInfo true hardware_threads "linux".
Definition cpu_affinity_supported : bool := supported cpu_affinity_info.

(** [CPU_SET]: a [cpu_set_t] has 1024 bits, and the macro ignores larger indices. *)
Definition CPU_SET (cpu : Z) (set : gset Z) : gset Z :=
  if cpu <? 1024 then {[cpu]} ∪ set else set.

Definition pin_current_thread_to_cpu (cpu_index : Z) (w : W) : Status * W :=
  if negb (valid_cpu_index cpu_index)
  then (mkStatus StatusCode.invalid_argument "cpu index exceeds hardware thread count", w)
  else
    let '(rc, w) := setaffinity (CPU_SET cpu_index ∅) w in
    if negb (rc =? 0) then (mkStatus StatusCode.io_error "pthread_setaffinity_np failed", w)
    else (Status_ok, w).

(** The loop of [clear_current_thread_affinity], [n] iterations from [cpu]. *)
Fixpoint set_all (n : nat) (cpu : Z) (set : gset Z) : gset Z :=
  match n with O => set | S n => set_all n (wrap 32 (cpu + 1)) (CPU_SET cpu set) end.

Definition clear_current_thread_affinity (w : W) : Status * W :=
  if hardware_threads =? 0 then (Status_ok, w)
  else
    let '(rc, w) := setaffinity (set_all (Z.to_nat hardware_threads) 0 ∅) w in
    if negb (rc =? 0) then (mkStatus StatusCode.io_error "pthread_setaffinity_np failed", w)
    else (Status_ok, w).
End Affinity.
End Affinity.

(** ** Facts *)

(** The [i]-th of [n] pauses of a [SpinWait] that has made [c] before. *)
Definition pause_action (p : Z) (y : bool) (i : Z) : action :=
  if (i mod 2 ^ 32 <? p) || negb y then CpuRelax else ThreadYield.

Lemma pauses_spec n : forall p y c, 0 <= c ->
  (SpinWait.pauses n (SpinWait.mk p y (c mod 2 ^ 32))).1 =
    map (fun k => pause_action p y (c + Z.of_nat k)) (seq 0 n).
Proof.
  induction n as [|n IH]; intros p y c Hc; [done|].
  cbn [SpinWait.pauses SpinWait.pause SpinWait.pause_iterations_ SpinWait.yield_after_spin_
    SpinWait.count_].
  assert (E : wrap 32 (c mod 2 ^ 32 + 1) = (c + 1) mod 2 ^ 32) by apply Zplus_mod_idemp_l.
  rewrite E. specialize (IH p y (c + 1) ltac:(lia)).
  destruct (SpinWait.pauses n _) as [l s]. cbn [fst seq map] in *. f_equal.
  - unfold pause_action. by rewrite Z.add_0_r.
  - rewrite IH, <- seq_shift, map_map. apply map_ext. intros k. f_equal. lia.
Qed.

Lemma waits_spec n : forall p y c, 0 <= p < 2 ^ 32 -> 0 <= c <= p ->
  (ThreadUtils.waits n (ThreadUtils.mkSpinWait c p y)).1 =
    map (fun k => if (c + Z.of_nat k <? p) || negb y then CpuRelax else ThreadYield) (seq 0 n).
Proof.
  induction n as [|n IH]; intros p y c Hp Hc; [done|].
  cbn [ThreadUtils.waits]. unfold ThreadUtils.wait.
  cbn [ThreadUtils.counter_ ThreadUtils.pause_iterations_ ThreadUtils.yield_after_spin_].
  destruct (Z.ltb_spec c p).
  - rewrite wrap_id by (unfold in_width; lia). specialize (IH p y (c + 1) Hp ltac:(lia)).
    destruct (ThreadUtils.waits n _) as [l s]. cbn [fst seq map] in *. rewrite Z.add_0_r.
    destruct (Z.ltb_spec c p); [|lia]. f_equal.
    rewrite IH, <- seq_shift, map_map. apply map_ext. intros k.
    by replace (c + 1 + Z.of_nat k) with (c + Z.of_nat (S k)) by lia.
  - assert (c = p) as -> by lia. specialize (IH p y p Hp ltac:(lia)).
    destruct (ThreadUtils.waits n _) as [l s]. cbn [fst seq map] in *. rewrite Z.add_0_r, Z.ltb_irrefl.
    f_equal; [by destruct y|]. rewrite IH, <- seq_shift, map_map. apply map_ext. intros k.
    destruct (Z.ltb_spec (p + Z.of_nat k) p), (Z.ltb_spec (p + Z.of_nat (S k)) p); (done || lia).
Qed.

Lemma copy_name_lookup name count : forall i buffer j,
  (i + count <= length buffer)%nat -> (j < length buffer)%nat ->
  ThreadUtils.copy_name name buffer i count !! j =
    if decide (i <= j < i + count)%nat then Some (default Byte.x00 (name !! j)) else buffer !! j.
Proof.
  induction count as [|count IH]; intros i buffer j Hb Hj; cbn [ThreadUtils.copy_name].
  { by rewrite decide_False by lia. }
  rewrite IH by (rewrite length_insert; lia).
  destruct (decide (i = j)) as [->|Hne].
  - rewrite decide_False, decide_True by lia. by rewrite list_lookup_insert_eq.
  - rewrite list_lookup_insert_ne by done.
    destruct (decide (S i <= j < S i + count)%nat); [by rewrite decide_True by lia|].
    by rewrite decide_False by lia.
Qed.

Lemma length_copy_name name count : forall i buffer,
  length (ThreadUtils.copy_name name buffer i count) = length buffer.
Proof. induction count; intros; cbn [ThreadUtils.copy_name]; [done|]. by rewrite IHcount, length_insert. Qed.

(** The buffer is a C string: a prefix of the name, as long as fits, and zeros. *)
Lemma thread_name_buffer_spec size name :
  (0 < size)%nat ->
  ThreadUtils.thread_name_buffer size name =
    take (size - 1) name ++ replicate (size - length (take (size - 1) name)) Byte.x00.
Proof.
  intros Hs. unfold ThreadUtils.thread_name_buffer. rewrite length_replicate.
  set (count := if (length name <? size - 1)%nat then _ else _).
  assert (Hc : count = length (take (size - 1) name)).
  { unfold count. rewrite length_take. destruct (Nat.ltb_spec (length name) (size - 1)); lia. }
  assert (Hb : (count <= size - 1)%nat) by (rewrite Hc, length_take; lia). rewrite <- Hc.
  apply list_eq_same_length with (n := size).
  - by rewrite length_app, length_replicate, <- Hc; lia.
  - by rewrite length_copy_name, length_replicate.
  - intros j x y Hj. rewrite copy_name_lookup by (rewrite length_replicate; lia).
    destruct (decide (0 <= j < 0 + count)%nat) as [Hd|Hd].
    + rewrite lookup_app_l by lia. rewrite lookup_take_lt by lia. intros [= <-] ->. done.
    + rewrite lookup_app_r by lia. rewrite !lookup_replicate. by intros [-> _] [-> _].
Qed.

Lemma set_all_elem n : forall cpu set x, 0 <= cpu -> cpu + Z.of_nat n < 2 ^ 32 ->
  x ∈ Affinity.set_all n cpu set <-> x ∈ set \/ (cpu <= x < cpu + Z.of_nat n /\ x < 1024).
Proof.
  induction n as [|n IH]; intros cpu set x Hc Hn; cbn [Affinity.set_all].
  { split; [by left|]. intros [?|?]; [done|lia]. }
  rewrite wrap_id by (unfold in_width; lia). rewrite IH by lia. unfold Affinity.CPU_SET.
  destruct (Z.ltb_spec cpu 1024); rewrite ?elem_of_union, ?elem_of_singleton.
  - split.
    + intros [[->|?]|[? ?]]; [right; lia|by left|right; lia].
    + intros [?|[? ?]]; [by left; right|].
      destruct (decide (x = cpu)); [by left; left|right; lia].
  - split; (intros [?|[? ?]]; [by left|right; lia]).
Qed.

(** ** Properties *)

(** The backoff schedules.  The [i]-th pause of a fresh SpinWait of
    spin_wait.hpp relaxes while [i] modulo 2^32 is below the configured number of
    iterations and yields afterwards, if yielding is enabled; the class of the same
    name in thread_utils.hpp follows the same schedule without the modulus.  So the
    two agree for the first 2^32 pauses, after which the first one starts over. *)
Theorem spin_wait_schedules (p : Z) (y : bool) (n : nat) :
  in_width 32 p ->
  (SpinWait.pauses n (SpinWait.init p y)).1 =
    map (fun i => pause_action p y (Z.of_nat i)) (seq 0 n) /\
  (ThreadUtils.waits n (ThreadUtils.init p y)).1 =
    map (fun i => if (Z.of_nat i <? p) || negb y then CpuRelax else ThreadYield) (seq 0 n) /\
  (Z.of_nat n <= 2 ^ 32 ->
   (SpinWait.pauses n (SpinWait.init p y)).1 = (ThreadUtils.waits n (ThreadUtils.init p y)).1) /\
  (0 < p -> y = true -> pause_action p y (2 ^ 32 - 1) = ThreadYield /\
   pause_action p y (2 ^ 32) = CpuRelax).
Proof.
  intros [Hp0 Hp]. pose proof (pauses_spec n p y 0 ltac:(lia)) as A.
  pose proof (waits_spec n p y 0 ltac:(lia) ltac:(lia)) as B.
  change (0 mod 2 ^ 32) with 0 in A. unfold SpinWait.init, ThreadUtils.init. rewrite A, B.
  split_and!; [done..| |].
  - intros Hn. apply map_ext_in. intros k Hk%in_seq. unfold pause_action.
    by rewrite Z.add_0_l, Z.mod_small by lia.
  - intros Hpos ->. unfold pause_action. rewrite Z.mod_small, Z_mod_same_full by lia.
    destruct (Z.ltb_spec (2 ^ 32 - 1) p), (Z.ltb_spec 0 p); (done || lia).
Qed.
