(* ===== verification/Platform.v ===== *)
(** * What depends on the platform

    detail/platform.hpp and every other conditional of the library as functions of the
    predefined macros: the processor hints of utils/spin_wait.hpp and
    utils/thread_utils.hpp, thread names, the affinity functions, and the Windows branch
    of io/mmap_file.cpp.  Then the memory layout that detail/cache_line.hpp gives to the
    two queues. *)

From stdpp Require Import gmap.
From S2P Require Import Prelude Core Posix MmapFile Spsc Utils.
#[local] Open Scope Z_scope.

(** ** platform.hpp *)

(** The macros the sources test, without their underscores. *)
Inductive macro : Set :=
  | clang | GNUC | MSC_VER | APPLE | MACH | linux | WIN32
  | aarch64 | M_ARM64 | arm | x86_64 | M_X64 | i386 | M_IX86.
#[export] Instance macro_eq_dec : EqDecision macro.
Proof. solve_decision. Defined.

Inductive inline_specifier : Set := MsvcForceInline | AlwaysInline | PlainInline.

(** What a processor hint does to the machine. *)
Inductive hint : Set := MmPause | YieldInstruction | CompilerBarrier | SignalFence | OsYield.

Section Platform.
(** Whether the compiler predefines a macro. *)
Variable defined : macro -> bool.

Definition compiler_clang : bool := defined clang.
Definition compiler_gcc : bool := defined GNUC && negb (defined clang).
Definition compiler_msvc : bool := defined MSC_VER.
Definition platform_macos : bool := defined APPLE && defined MACH.
Definition platform_linux : bool := defined linux.
Definition platform_windows : bool := defined WIN32.
Definition arch_arm64 : bool := defined aarch64 || defined M_ARM64.
Definition arch_x86_64 : bool := defined x86_64 || defined M_X64.

Definition AETHER_FORCE_INLINE : inline_specifier :=
  if defined MSC_VER then MsvcForceInline
  else if defined GNUC || defined clang then AlwaysInline
  else PlainInline.

(** The test of both headers for the x86 family. *)
Definition has_pause : bool := defined x86_64 || defined M_X64 || defined i386 || defined M_IX86.

(** [cpu_relax] of spin_wait.hpp. *)
Definition spin_wait_cpu_relax : hint :=
  if has_pause then MmPause
  else if defined aarch64 || defined arm || defined M_ARM64 then
    if defined GNUC || defined clang then YieldInstruction else SignalFence
  else SignalFence.

(** [cpu_relax] of thread_utils.hpp. *)
Definition thread_utils_cpu_relax : hint :=
  if has_pause then MmPause
  else if defined aarch64 || defined M_ARM64 then
    if defined GNUC || defined clang then YieldInstruction else OsYield
  else if defined GNUC || defined clang then CompilerBarrier
  else OsYield.

(** [set_current_thread_name]: what is passed to pthread_setname_np, if it is called. *)
Definition set_current_thread_name (name : list byte) : option (list byte) :=
  if defined linux then Some (ThreadUtils.thread_name_buffer 16 name)
  else if defined APPLE && defined MACH then Some (ThreadUtils.thread_name_buffer 64 name)
  else None.

(** *** cpu_affinity.cpp *)

Section Affinity.
Context {W : Type} (hardware_concurrency : Z) (setaffinity : gset Z -> W -> Z * W).

Definition cpu_affinity_info : Affinity.CpuAffinityInfo :=
  let threads := Affinity.hardware_threads hardware_concurrency in
  if defined linux then Affinity.mkInfo true threads "linux"
  else if defined APPLE then Affinity.mkInfo false threads "macos"
  else Affinity.mkInfo false threads "unsupported".
Definition cpu_affinity_supported : bool := Affinity.supported cpu_affinity_info.

Definition pin_current_thread_to_cpu (cpu_index : Z) (w : W) : Status * W :=
  if defined linux then Affinity.pin_current_thread_to_cpu hardware_concurrency setaffinity cpu_index w
  else if negb (Affinity.valid_cpu_index hardware_concurrency cpu_index)
  then (mkStatus StatusCode.invalid_argument "cpu index exceeds hardware thread count", w)
  else (Status_ok, w).

Definition clear_current_thread_affinity (w : W) : Status * W :=
  if defined linux then Affinity.clear_current_thread_affinity hardware_concurrency setaffinity w
  else (Status_ok, w).
End Affinity.
End Platform.

(** ** The Windows branch of mmap_file.cpp *)

Module MmapWindows.
Definition unsupported : Status := io_error "mmap file is only implemented for POSIX platforms".

Definition create (path : string) (size : Z) (options : bool) : Expected MmapFile :=
  if path_empty path then Expected_of_status invalid_path_status
  else if size =? 0 then Expected_of_status invalid_size_status
  else Expected_of_status unsupported.
Definition open_existing (path : string) (options : bool) : Expected MmapFile :=
  if path_empty path then Expected_of_status invalid_path_status
  else Expected_of_status unsupported.
Definition flush (f : MmapFile) : Status :=
  if negb (mmap_valid f) then mkStatus StatusCode.invalid_argument invalid_file_detail
  else unsupported.
Definition resize (new_size : Z) (f : MmapFile) : Status * MmapFile :=
  if new_size =? 0 then (invalid_size_status, f)
  else if negb (mmap_valid f)
  then (mkStatus StatusCode.invalid_argument invalid_file_detail, f)
  else (unsupported, f).
Definition close (f : MmapFile) : Status * MmapFile := (Status_ok, mmap_reset f).
Definition move_assign (this other : MmapFile) : MmapFile * MmapFile := mmap_move other.

(** The objects a program can hold: default-constructed ones and what calls make of them. *)
Inductive reachable : MmapFile -> Prop :=
  | reach_default : reachable MmapFile_default
  | reach_create path size options f : create path size options = Value f -> reachable f
  | reach_open path options f : open_existing path options = Value f -> reachable f
  | reach_resize n f : reachable f -> reachable (resize n f).2
  | reach_close f : reachable f -> reachable (close f).2
  | reach_move f : reachable f -> reachable (mmap_move f).1
  | reach_moved_from f : reachable f -> reachable (mmap_move f).2.
End MmapWindows.

(** ** cache_line.hpp: where the members of the queues lie *)

Definition cache_line_size : Z := 64.

(** Size and alignment of a type. *)
Record layout : Set := mkLayout { l_size : Z; l_align : Z }.

Definition align_up (a n : Z) : Z := (n + (a - 1)) / a * a.

(** [CachePadded<T>]: one member in a struct with [alignas(cache_line_size)]. *)
Definition CachePadded (t : layout) : layout :=
  let a := Z.max cache_line_size (l_align t) in mkLayout (align_up a (l_size t)) a.

(** Members follow each other, each at the next multiple of its alignment. *)
Fixpoint member_offsets (off : Z) (ms : list layout) : list Z :=
  match ms with
  | [] => []
  | m :: ms => let o := align_up (l_align m) off in o :: member_offsets (o + l_size m) ms
  end.
Definition struct_align (ms : list layout) : Z := foldr (fun m a => Z.max (l_align m) a) 1 ms.

Section Layout.
(** The element type, and the width of [std::atomic<std::size_t>] and [std::atomic<bool>]. *)
Context (T : layout) (Capacity : Z).
Definition slots : layout := mkLayout (Capacity * l_size T) (l_align T).
Definition atomic_size_t : layout := mkLayout 8 8.
Definition atomic_bool : layout := mkLayout 1 1.

(** buffer_, head_, tail_. *)
Definition SpscRingBuffer_members : list layout :=
  [slots; CachePadded atomic_size_t; CachePadded atomic_size_t].
(** buffer_, head_, tail_, active_reservation_. *)
Definition ZeroCopySpsc_members : list layout :=
  SpscRingBuffer_members ++ [CachePadded atomic_bool].
End Layout.

(** The cache lines that member [i] of an object at address [base] touches. *)
Definition on_line (base : Z) (ms : list layout) (i : nat) (line : Z) : Prop :=
  exists off m x, member_offsets 0 ms !! i = Some off /\ ms !! i = Some m /\
    0 <= x < l_size m /\ line = (base + off + x) / cache_line_size.

(** ** Facts *)

Lemma align_up_spec a n : 0 < a -> 0 <= n -> (a | align_up a n) /\ n <= align_up a n < n + a.
Proof.
  intros Ha Hn. unfold align_up. split; [by eexists|].
  pose proof (Z.div_mod (n + (a - 1)) a ltac:(lia)).
  pose proof (Z.mod_pos_bound (n + (a - 1)) a Ha). nia.
Qed.

Lemma pow2_max_divides k : 0 <= k -> (64 | Z.max (2 ^ k) 64).
Proof.
  intros Hk. destruct (Z.max_spec (2 ^ k) 64) as [[? ->]|[? ->]]; [done|].
  change 64 with (2 ^ 6) in *. apply Z.pow_le_mono_r_iff in H; [|lia..].
  exists (2 ^ (k - 6)). rewrite <- Z.pow_add_r by lia. f_equal. lia.
Qed.

Section Layouts.
Context (sz k Capacity base : Z) (Hsz : 0 < sz) (Hk : 0 <= k) (Hcap : 0 < Capacity).
Local Abbreviation T := (mkLayout sz (2 ^ k)).
Local Abbreviation h := (align_up 64 (Capacity * sz)).

Lemma zero_copy_members :
  ZeroCopySpsc_members T Capacity =
    [mkLayout (Capacity * sz) (2 ^ k); mkLayout 64 64; mkLayout 64 64; mkLayout 64 64].
Proof. reflexivity. Qed.

Lemma zero_copy_offsets :
  member_offsets 0 (ZeroCopySpsc_members T Capacity) = [0; h; h + 64; h + 64 + 64].
Proof.
  rewrite zero_copy_members. cbn [app member_offsets l_size l_align].
  assert (E0 : align_up (2 ^ k) 0 = 0).
  { unfold align_up. rewrite Z.div_small; [done|]. pose proof (Z.pow_pos_nonneg 2 k). lia. }
  assert (E : forall x, (64 | x) -> align_up 64 x = x).
  { intros x [y ->]. unfold align_up. rewrite Z.add_comm, Z.div_add by lia. done. }
  destruct (align_up_spec 64 (Capacity * sz)) as [D _]; [lia|nia|].
  rewrite E0, Z.add_0_l. set (x := h) in *.
  assert (D64 : (64 | x + 64)) by (by apply Z.divide_add_r; [|exists 1]).
  rewrite (E (x + 64)), (E (x + 64 + 64)); [done|by apply Z.divide_add_r; [|exists 1]|done].
Qed.

(** Members are on lines of their own. *)
Lemma zero_copy_lines i j line :
  (base mod struct_align (ZeroCopySpsc_members T Capacity) = 0) -> (i < j)%nat ->
  on_line base (ZeroCopySpsc_members T Capacity) i line ->
  ~ on_line base (ZeroCopySpsc_members T Capacity) j line.
Proof.
  intros Hb Hij (o1 & m1 & x & O1 & M1 & X & ->) (o2 & m2 & y & O2 & M2 & Y & E).
  rewrite zero_copy_offsets in O1, O2. rewrite zero_copy_members in M1, M2.
  assert (B : exists b, base = b * 64).
  { apply Z.mod_divide in Hb; [|pose proof (Z.pow_pos_nonneg 2 k); simpl; lia].
    destruct (pow2_max_divides k Hk) as [c Hc]. destruct Hb as [d Hd]. exists (d * c).
    rewrite Hd, <- Z.mul_assoc, <- Hc. done. }
  destruct B as [b ->]. unfold cache_line_size in E.
  destruct (align_up_spec 64 (Capacity * sz)) as [[c Hc] Hh]; [lia|nia|]. rewrite Hc in *.
  pose proof (Z.div_mod (b * 64 + o1 + x) 64 ltac:(lia)). pose proof (Z.mod_pos_bound (b * 64 + o1 + x) 64 ltac:(lia)).
  pose proof (Z.div_mod (b * 64 + o2 + y) 64 ltac:(lia)). pose proof (Z.mod_pos_bound (b * 64 + o2 + y) 64 ltac:(lia)).
  destruct i as [|[|[|i]]], j as [|[|[|[|j]]]]; simpl in *; try lia; try done; simplify_eq; simpl in *; lia.
Qed.
End Layouts.

(** The ring buffer is the zero-copy queue without its flag. *)
Lemma ring_on_line base T Capacity i line :
  on_line base (SpscRingBuffer_members T Capacity) i line ->
  on_line base (ZeroCopySpsc_members T Capacity) i line.
Proof.
  intros (o & m & x & O & M & X). exists o, m, x. split_and!; [|by apply lookup_app_l_Some|apply X..].
  destruct i as [|[|[|i]]]; done.
Qed.

Lemma mmap_windows_invalid f : MmapWindows.reachable f -> mmap_valid f = false.
Proof.
  induction 1 as [|path size o f E|path o f E|n f _ IH|f _ _|f _ IH|f _ _]; try done.
  - unfold MmapWindows.create in E. destruct (path_empty path); [done|]. by destruct (size =? 0).
  - unfold MmapWindows.open_existing in E. by destruct (path_empty path).
  - unfold MmapWindows.resize. rewrite IH. by destruct (n =? 0).
Qed.

(** ** Properties *)

(** C40. No false sharing.  Whatever the size, the (power of two) alignment and the
    number of the elements, in a queue object placed at an address its type allows
    no two of the members buffer_, head_, tail_ and active_reservation_ touch a common
    64-byte cache line, in either queue. *)
Theorem no_false_sharing (sz k Capacity base : Z) (CAP : CapacityOk Capacity) (i j : nat) (line : Z) :
  0 < sz -> 0 <= k -> i <> j ->
  let ring := SpscRingBuffer_members (mkLayout sz (2 ^ k)) Capacity in
  let zero_copy := ZeroCopySpsc_members (mkLayout sz (2 ^ k)) Capacity in
  (base mod struct_align ring = 0 -> ~ (on_line base ring i line /\ on_line base ring j line)) /\
  (base mod struct_align zero_copy = 0 ->
   ~ (on_line base zero_copy i line /\ on_line base zero_copy j line)).
Proof.
  intros Hsz Hk Hij ring zero_copy. pose proof (capacity_pos (Capacity:=Capacity)) as Hcap.
  assert (Z : base mod struct_align zero_copy = 0 ->
    ~ (on_line base zero_copy i line /\ on_line base zero_copy j line)).
  { intros Hb [H1 H2]. destruct (Nat.lt_total i j) as [?|[?|?]]; [|done|].
    - by eapply (zero_copy_lines sz k Capacity base Hsz Hk Hcap i j).
    - by eapply (zero_copy_lines sz k Capacity base Hsz Hk Hcap j i). }
  split; [|done]. intros Hb [H1 H2]. apply Z; [exact Hb|].
  split; by apply ring_on_line.
Qed.

Lemma no_false_sharing_witness :
  4096 mod struct_align (SpscRingBuffer_members (mkLayout 24 8) 4) = 0 /\
  member_offsets 0 (SpscRingBuffer_members (mkLayout 24 8) 4) = [0; 128; 192] /\
  ~ (on_line 4096 (SpscRingBuffer_members (mkLayout 24 8) 4) 0 65 /\
     on_line 4096 (SpscRingBuffer_members (mkLayout 24 8) 4) 1 65).
Proof.
  assert (C4 : CapacityOk 4) by (by split; vm_compute).
  split; [reflexivity|]. split; [reflexivity|].
  apply (proj1 (no_false_sharing 24 3 4 4096 C4 0 1 65 ltac:(lia) ltac:(lia) ltac:(lia))). reflexivity.
Defined.

(** The two functions named [cpu_relax] are the same hint exactly on x86 and on 64-bit
    ARM with GCC or Clang. *)
Theorem cpu_relax_agree (defined : macro -> bool) :
  spin_wait_cpu_relax defined = thread_utils_cpu_relax defined <->
  has_pause defined || (arch_arm64 defined && (compiler_gcc defined || compiler_clang defined)) = true.
Proof.
  unfold spin_wait_cpu_relax, thread_utils_cpu_relax, arch_arm64, compiler_gcc, compiler_clang.
  destruct (has_pause defined), (defined aarch64), (defined M_ARM64), (defined arm), (defined GNUC),
    (defined clang); split; done.
Qed.

(** Thread names.  Where a name is set at all, what is passed is a C string: the longest
    prefix of the name that fits with its terminator (15 bytes on Linux, 63 on macOS). *)
Theorem thread_name_prefix (defined : macro -> bool) (name : list byte) :
  match set_current_thread_name defined name with
  | Some buffer => exists n, (n = 15 \/ n = 63)%nat /\
      buffer = take n name ++ replicate (S n - length (take n name)) Byte.x00 /\
      last buffer = Some Byte.x00
  | None => platform_linux defined = false /\ platform_macos defined = false
  end.
Proof.
  unfold set_current_thread_name, platform_linux, platform_macos.
  assert (L : forall n, last (take n name ++ replicate (S n - length (take n name)) Byte.x00) = Some Byte.x00).
  { intros n. destruct (S n - length (take n name))%nat as [|m] eqn:E; [rewrite length_take in E; lia|].
    rewrite replicate_S_end, app_assoc. apply last_snoc. }
  destruct (defined linux); [|destruct (defined APPLE), (defined MACH); try done];
    rewrite thread_name_buffer_spec by lia; eexists; (split; [by (left + right)|]); split; try done; apply L.
Qed.

(** Pinning elsewhere than on Linux succeeds and does nothing, although
    [cpu_affinity_info] reports that it is not supported. *)
Theorem pin_not_linux {W} (defined : macro -> bool) (threads : Z) (set : gset Z -> W -> Z * W) cpu w :
  defined linux = false ->
  cpu_affinity_supported defined threads = false /\
  clear_current_thread_affinity defined threads set w = (Status_ok, w) /\
  pin_current_thread_to_cpu defined threads set cpu w =
    (if Affinity.valid_cpu_index threads cpu then Status_ok
     else mkStatus StatusCode.invalid_argument "cpu index exceeds hardware thread count", w).
Proof.
  intros E. unfold cpu_affinity_supported, cpu_affinity_info, clear_current_thread_affinity,
    pin_current_thread_to_cpu. rewrite E. split_and!; [by destruct (defined APPLE)|done|].
  by destruct (Affinity.valid_cpu_index threads cpu).
Qed.

(** On Windows every way to obtain a mapped file is an error, so that no object is ever
    valid, and flushing or resizing one is an error too. *)
Theorem mmap_windows_unsupported (path : string) (size new_size : Z) (o : bool) (f : MmapFile) :
  MmapWindows.reachable f ->
  (exists s, MmapWindows.create path size o = Error s /\ is_ok s = false) /\
  (exists s, MmapWindows.open_existing path o = Error s /\ is_ok s = false) /\
  mmap_valid f = false /\ is_ok (MmapWindows.flush f) = false /\
  is_ok (MmapWindows.resize new_size f).1 = false /\ MmapWindows.close f = (Status_ok, MmapFile_default).
Proof.
  intros E%mmap_windows_invalid. unfold MmapWindows.create, MmapWindows.open_existing,
    MmapWindows.flush, MmapWindows.resize. rewrite E.
  split_and!; [| |done|done|by destruct (new_size =? 0)|done].
  - destruct (path_empty path), (size =? 0); eexists; by split.
  - destruct (path_empty path); eexists; by split.
Qed.
