(* ===== verification/StressSpsc.v ===== *)
(** * The stress tool

    tools/stress_spsc.cpp: a producer thread pushes 0, 1, 2, ... through a ring buffer,
    a consumer thread checks that it receives exactly that, and [main] turns the
    verdict into the exit code.  The two threads run on the machine of
    SpscConcurrent.v; the loads of [failed] may return stale values, and after the
    joins [main] reads the latest ones. *)

From Stdlib Require Import String.
From stdpp Require Import list numbers.
From S2P Require Import Prelude Spsc SpscConcurrent TwoThreads Histogram Utils CliArgs.
#[local] Open Scope Z_scope.
#[local] Open Scope list_scope.

Module Stress.

(** ** Options *)

Record Options : Set := mkOptions { messages : Z; capacity : Z }.
Definition Options_default : Options := mkOptions 10000000 65536.

Inductive output : Set := Cout (s : string) | Cerr (s : string).

Definition print_help (program : string) : output :=
  Cout ("Usage: " ++ program ++ " [--messages N] [--capacity 64|256|1024|4096|65536]")%string.

(** [out] keeps its value unless a number was read. *)
Definition parse_u64 (text : string) (out : Z) : bool * Z :=
  match from_chars text with
  | (errc_ok, v, EmptyString) => (true, v)
  | (errc_ok, v, _) => (false, v)
  | _ => (false, out)
  end.

Inductive ParseResult : Set := ok | help | error.

Fixpoint parse_loop (program : string) (args : list string) (options : Options)
    : ParseResult * Options * list output :=
  match args with
  | [] => (ok, options, [])
  | arg :: rest =>
      if String.eqb arg "--help" then (help, options, [print_help program])
      else
        let unknown := (error, options, [Cerr ("unknown or incomplete argument: " ++ arg)%string]) in
        match rest with
        | [] => unknown
        | value :: rest =>
            if String.eqb arg "--messages" then
              let '(good, n) := parse_u64 value (messages options) in
              let options := mkOptions n (capacity options) in
              if negb good || (n =? 0) then (error, options, [Cerr "invalid --messages value"])
              else parse_loop program rest options
            else if String.eqb arg "--capacity" then
              let '(good, parsed) := parse_u64 value 0 in
              if negb good then (error, options, [Cerr "invalid --capacity value"])
              else parse_loop program rest (mkOptions (messages options) parsed)
            else unknown
        end
  end.

Definition parse_args (argv : list string) (options : Options) : ParseResult * Options * list output :=
  parse_loop (arg_at argv 0) (tail argv) options.

(** ** run_stress *)

Section RunStress.
Context (messages : Z).

(** The atomics of [run_stress].  A location written by one thread and read by the
    other keeps the history of its stores; the retry counters are only incremented
    and read after the joins. *)
Record shared : Set := mkShared {
  failed : list bool; consumed : list Z; push_retries : Z; pop_retries : Z }.
Definition shared_init : shared := mkShared [false] [0] 0 0.

(** A relaxed load of [failed] by a thread that has seen its store number [seen]. *)
Definition load_failed (k seen : nat) (g : shared) : option bool :=
  if (k <? seen)%nat then None else failed g !! k.

Inductive producer_at : Set := PrTest | PrPush | PrRetry | PrDone.
Record producer : Set := mkProducer {
  sp_value : Z; sp_spin : ThreadUtils.SpinWait; sp_seen : nat; sp_at : producer_at }.

Definition spin_init : ThreadUtils.SpinWait := ThreadUtils.init 64 true.
Definition producer_init : producer := mkProducer 0 spin_init 0 PrTest.

Definition producer_local (k : nat) (p : producer) (g : shared) : option (producer * shared) :=
  match sp_at p with
  | PrTest =>
      if sp_value p <? messages then
        f ← load_failed k (sp_seen p) g;
        Some (mkProducer (sp_value p) (sp_spin p) k (if f : bool then PrDone else PrPush), g)
      else Some (mkProducer (sp_value p) (sp_spin p) (sp_seen p) PrDone, g)
  | PrRetry =>
      Some (mkProducer (sp_value p) (ThreadUtils.wait (sp_spin p)).2 (sp_seen p) PrTest,
            mkShared (failed g) (consumed g) (push_retries g ⊞ 1) (pop_retries g))
  | PrPush | PrDone => None
  end.

Definition producer_code : thread_code shared Z bool producer :=
  mkCode
    (fun p => match sp_at p with PrPush => Some (sp_value p) | _ => None end)
    producer_local
    (fun pushed p =>
       if pushed : bool
       then mkProducer (sp_value p ⊞ 1) (ThreadUtils.reset (sp_spin p)) (sp_seen p) PrTest
       else mkProducer (sp_value p) (sp_spin p) (sp_seen p) PrRetry).

Inductive consumer_at : Set := CoTest | CoPop | CoCheck (value : Z) | CoRetry | CoDone.
Record consumer : Set := mkConsumer {
  sc_expected : Z; sc_spin : ThreadUtils.SpinWait; sc_seen : nat; sc_at : consumer_at }.
Definition consumer_init : consumer := mkConsumer 0 spin_init 0 CoTest.

Definition consumer_local (k : nat) (c : consumer) (g : shared) : option (consumer * shared) :=
  match sc_at c with
  | CoTest =>
      if sc_expected c <? messages then
        f ← load_failed k (sc_seen c) g;
        Some (mkConsumer (sc_expected c) (sc_spin c) k (if f : bool then CoDone else CoPop), g)
      else Some (mkConsumer (sc_expected c) (sc_spin c) (sc_seen c) CoDone, g)
  | CoCheck value =>
      if negb (value =? sc_expected c) then
        Some (mkConsumer (sc_expected c) (sc_spin c) (length (failed g)) CoDone,
              mkShared (failed g ++ [true]) (consumed g) (push_retries g) (pop_retries g))
      else
        let expected := sc_expected c ⊞ 1 in
        Some (mkConsumer expected (ThreadUtils.reset (sc_spin c)) (sc_seen c) CoTest,
              mkShared (failed g) (consumed g ++ [expected]) (push_retries g) (pop_retries g))
  | CoRetry =>
      Some (mkConsumer (sc_expected c) (ThreadUtils.wait (sc_spin c)).2 (sc_seen c) CoTest,
            mkShared (failed g) (consumed g) (push_retries g) (pop_retries g ⊞ 1))
  | CoPop | CoDone => None
  end.

Definition consumer_code : thread_code shared unit (option Z) consumer :=
  mkCode
    (fun c => match sc_at c with CoPop => Some tt | _ => None end)
    consumer_local
    (fun popped c =>
       mkConsumer (sc_expected c) (sc_spin c) (sc_seen c)
         (match popped with Some v => CoCheck v | None => CoRetry end)).

Definition producer_done (p : producer) : bool :=
  match sp_at p with PrDone => true | _ => false end.
Definition consumer_done (c : consumer) : bool :=
  match sc_at c with CoDone => true | _ => false end.

Abbreviation stress := (program (T:=Z) (G:=shared) (SP:=producer) (SC:=consumer)).

(** [queue.empty()] by a thread with view [V]. *)
Definition empty_at (kh kt : nat) (V : view) (q : state (T:=Z)) : option bool :=
  '(head, V1) ← load acquire Head kh (hist_head q) V;
  '(tail, _) ← load acquire Tail kt (hist_tail q) V1;
  Some (head =? tail).

(** The verdict, after both joins: [main] knows what either thread knew. *)
Definition passed (kh kt : nat) (r : stress) : option bool :=
  if default false (list.last (failed (pr_shared r))) then Some false
  else if negb (default 0 (list.last (consumed (pr_shared r))) =? messages) then Some false
  else empty_at kh kt (view_join (p_view (pr_queue r)) (c_view (pr_queue r))) (pr_queue r).

(** The report. *)
Record report : Set := mkReport {
  r_capacity : Z; r_messages : Z; r_elapsed_seconds : double; r_messages_per_second : double;
  r_push_retries : Z; r_pop_retries : Z; r_validation : bool }.

Definition positive (d : double) : bool :=
  match d with Finite m _ => 0 <? m | Infinity negative => negb negative | NaN => false end.

Definition stress_report (Capacity start_ns now_ns : Z) (g : shared) (passed : bool) : report :=
  let elapsed_ns := now_ns ⊟ start_ns in
  let seconds := double_div (double_of_u64 elapsed_ns) (round 1000000000 1) in
  mkReport Capacity messages seconds
    (if positive seconds then double_div (double_of_u64 messages) seconds else Finite 0 0)
    (push_retries g) (pop_retries g) passed.
End RunStress.

(** All executions of [run_stress<Capacity>(messages)] that return. *)
Definition stress_run (Capacity messages : Z) :=
  prun Capacity (producer_code messages) (consumer_code messages)
    (start Capacity shared_init producer_init consumer_init).
Definition run_stress (Capacity messages : Z) (result : bool) : Prop :=
  exists tr r kh kt, stress_run Capacity messages tr r /\
    producer_done (pr_prod r) && consumer_done (pr_cons r) = true /\
    passed messages kh kt r = Some result.

(** ** main *)

(** [main], given what the instance of [run_stress] it selects returns. *)
Definition stress_main (argv : list string) (result : bool) : Z * list output :=
  match parse_args argv Options_default with
  | (help, _, out) => (0, out)
  | (error, _, out) => (1, out)
  | (ok, options, out) =>
      match capacity options with
      | 64 | 256 | 1024 | 4096 | 65536 => (if result then 0 else 1, out)
      | _ => (1, out ++ [Cerr ("unsupported capacity: " ++ print_u64 (capacity options))%string; print_help (arg_at argv 0)])
      end
  end.

(** ** Correctness *)

Lemma seqZ_next n m v l : 0 <= n -> 0 <= m -> seqZ 0 m = (seqZ 0 n ++ [v]) ++ l -> v = n.
Proof.
  intros ? ? E.
  assert (L : seqZ 0 m !! length (seqZ 0 n) = Some v) by (rewrite E, <- app_assoc; by apply list_lookup_middle).
  rewrite length_seqZ in L. apply lookup_seqZ in L. lia.
Qed.

Section Correct.
Context {Capacity : Z} {CAP : CapacityOk Capacity} (messages : Z).
Implicit Types (tr : list (event (T:=Z))).
Abbreviation stress := (program (T:=Z) (G:=shared) (SP:=producer) (SC:=consumer)).

(** Values received, including the one not compared yet. *)
Definition received (c : consumer) : Z :=
  sc_expected c + match sc_at c with CoCheck _ => 1 | _ => 0 end.

Record stress_inv tr (r : stress) : Prop := {
  si_value : 0 <= sp_value (pr_prod r) <= messages;
  si_pushes : pushes tr = seqZ 0 (sp_value (pr_prod r));
  si_prod : match sp_at (pr_prod r) with
            | PrPush => sp_value (pr_prod r) < messages
            | PrDone => sp_value (pr_prod r) = messages
            | _ => True end;
  si_expected : 0 <= sc_expected (pr_cons r) <= messages;
  si_pops : pops tr = seqZ 0 (received (pr_cons r));
  si_cons : match sc_at (pr_cons r) with
            | CoPop => sc_expected (pr_cons r) < messages
            | CoCheck v => v = sc_expected (pr_cons r) /\ v < messages
            | CoDone => sc_expected (pr_cons r) = messages
            | _ => True end;
  si_seen : sp_seen (pr_prod r) = 0%nat /\ sc_seen (pr_cons r) = 0%nat;
  si_failed : failed (pr_shared r) = [false];
  si_consumed : list.last (consumed (pr_shared r)) = Some (sc_expected (pr_cons r));
  si_full : push_retries (pr_shared r) =
    wrap 64 (Z.of_nat (fulls tr) - match sp_at (pr_prod r) with PrRetry => 1 | _ => 0 end);
  si_empty : pop_retries (pr_shared r) =
    wrap 64 (Z.of_nat (empties tr) - match sc_at (pr_cons r) with CoRetry => 1 | _ => 0 end) }.

Context (MSG : in_width 64 messages).

Lemma stress_inv_init : stress_inv [] (start Capacity shared_init producer_init consumer_init).
Proof. destruct MSG. by split; simpl; try lia. Qed.

Lemma load_failed_false k seen g f :
  failed g = [false] -> load_failed k seen g = Some f -> f = false /\ k = 0%nat.
Proof.
  unfold load_failed. intros ->. case_match; [done|]. destruct k as [|k]; simpl; [by intros [= <-]|].
  by rewrite lookup_nil.
Qed.

Lemma stress_inv_producer tr r k p g :
  stress_inv tr r -> producer_local messages k (pr_prod r) (pr_shared r) = Some (p, g) ->
  stress_inv tr (mkProgram (pr_queue r) g p (pr_cons r)).
Proof.
  destruct r as [q sh [v sp se at'] c]. intros []. unfold producer_local. simpl in *.
  destruct at'; try done.
  - destruct (Z.ltb_spec v messages).
    + destruct (load_failed _ _ _) as [f|] eqn:E; simpl; [|done]. intros [= <- <-].
      destruct (load_failed_false _ _ _ _ si_failed0 E) as [-> ->].
      split; simpl in *; try done. split; [done|]. by destruct si_seen0.
    + intros [= <- <-]. split; simpl in *; try done. lia.
  - intros [= <- <-]. split; simpl in *; try done.
    rewrite si_full0, wrap_wrap_add_l. f_equal. lia.
Qed.

Lemma stress_inv_consumer tr r k c g :
  stress_inv tr r -> consumer_local messages k (pr_cons r) (pr_shared r) = Some (c, g) ->
  stress_inv tr (mkProgram (pr_queue r) g (pr_prod r) c).
Proof.
  destruct r as [q sh p [v sp se at']]. intros []. unfold consumer_local. unfold received in *. simpl in *.
  destruct at' as [| |value| |]; try done.
  - destruct (Z.ltb_spec v messages).
    + destruct (load_failed _ _ _) as [f|] eqn:E; simpl; [|done]. intros [= <- <-].
      destruct (load_failed_false _ _ _ _ si_failed0 E) as [-> ->].
      split; simpl in *; try done. split; [|done]. by destruct si_seen0.
    + intros [= <- <-]. split; simpl in *; try done. lia.
  - destruct si_cons0 as [-> ?]. rewrite Z.eqb_refl. simpl.
    rewrite (wrap_id 64 (v + 1)) by (destruct MSG; split; lia).
    intros [= <- <-]. split; unfold received; simpl in *; try done; try lia.
    + by rewrite Z.add_0_r.
    + by rewrite last_snoc.
  - intros [= <- <-]. split; simpl in *; try done.
    rewrite si_empty0, wrap_wrap_add_l. f_equal. lia.
Qed.

Lemma stress_inv_event tr r e r' l :
  stress_inv tr r -> turn_spec (producer_code messages) (consumer_code messages) r e r' ->
  pushes (tr ++ events e) = pops (tr ++ events e) ++ l -> stress_inv (tr ++ events e) r'.
Proof.
  intros I Ht. destruct Ht as [k p g _ Hl|v q Hc|v q Hc|v q Hc|k c g _ Hl|q Hc|v q Hc|q Hc];
    simpl; rewrite ?app_nil_r, ?pushes_snoc, ?pops_snoc; simpl; intros Hfifo.
  - exact (stress_inv_producer _ _ _ _ _ I Hl).
  - by destruct I.
  - destruct r as [q0 sh [n sp se at'] c], I; simpl in *. destruct at'; try done. injection Hc as <-.
    rewrite (wrap_id 64 (n + 1)) by (destruct MSG; split; lia).
    split; simpl; trace_simpl; try done; try lia.
    by rewrite si_pushes0, seqZ_snoc by lia.
  - destruct r as [q0 sh [n sp se at'] c], I; simpl in *. destruct at'; try done. injection Hc as <-.
    split; simpl; trace_simpl; try done; try lia.
    rewrite si_full0. f_equal. lia.
  - exact (stress_inv_consumer _ _ _ _ _ I Hl).
  - by destruct I.
  - destruct r as [q0 sh p [n sp se at']], I; unfold received in *; simpl in *. destruct at'; try done.
    assert (v = n) as ->.
    { rewrite app_nil_r, si_pushes0, si_pops0, Z.add_0_r in Hfifo. by apply seqZ_next in Hfifo; [|lia..]. }
    split; unfold received; simpl; trace_simpl; try done; try lia.
    by rewrite si_pops0, Z.add_0_r, seqZ_snoc by lia.
  - destruct r as [q0 sh p [n sp se at']], I; unfold received in *; simpl in *. destruct at'; try done.
    split; unfold received; simpl; trace_simpl; try done; try lia.
    rewrite si_empty0. f_equal. lia.
Qed.

Lemma stress_run_inv tr r : stress_run Capacity messages tr r -> stress_inv tr r.
Proof. apply (prun_invariant _ _ _ _ _ _ stress_inv stress_inv_init stress_inv_event). Qed.

Definition finished_run (r : stress) : bool := producer_done (pr_prod r) && consumer_done (pr_cons r).

(** After the joins the loads of [empty()] see the last stores. *)
Lemma empty_after_join tr (q : state (T:=Z)) kh kt b :
  exec Capacity tr q -> length (pushes tr) = length (pops tr) ->
  empty_at kh kt (view_join (p_view q) (c_view q)) q = Some b -> b = true.
Proof.
  intros (pushed & n & I & R)%exec_inv HL. pose proof (fifo_run_conserves _ _ _ _ R) as Hl%(f_equal length).
  pose proof (inv_content_bound _ _ _ I) as [Hn _]. simpl in Hl. rewrite length_app, length_drop in Hl.
  pose proof I as []. unfold empty_at.
  destruct (load _ Head _ _ _) as [[h V1]|] eqn:E1; simpl; [|done].
  destruct (load _ Tail _ _ _) as [[t V2]|] eqn:E2; simpl; [|done]. intros [= <-].
  apply load_inv in E1 as (? & m1 & L1 & -> & ->). apply load_inv in E2 as (Ht & m2 & L2 & -> & ->).
  destruct (inv_hh _ _ L1) as (-> & [] & _ & _), (inv_ht _ _ L2) as (-> & _).
  apply lookup_lt_Some in L1, L2. simpl in *. apply Z.eqb_eq. do 2 f_equal. lia.
Qed.

(** The freshest loads are possible. *)
Lemma empty_after_join_reads tr (q : state (T:=Z)) :
  exec Capacity tr q -> exists kh kt b, empty_at kh kt (view_join (p_view q) (c_view q)) q = Some b.
Proof.
  intros (pushed & n & I & R)%exec_inv. pose proof I as [].
  exists (length pushed), n. unfold empty_at.
  destruct (load_enabled acquire Head (length pushed) (hist_head q) (view_join (p_view q) (c_view q)))
    as [[h V] E1]; [simpl; lia..|]. rewrite E1. simpl.
  apply load_inv in E1 as (_ & m & L & _ & ->). destruct (inv_hh _ _ L) as (_ & [] & _ & _).
  edestruct (load_enabled acquire Tail n (hist_tail q)) as [[t V] E2]; [| |erewrite E2; simpl; eauto];
    simpl; lia.
Qed.

Lemma stress_finished tr r :
  stress_run Capacity messages tr r -> finished_run r = true ->
  pushes tr = seqZ 0 messages /\ pops tr = seqZ 0 messages /\
  push_retries (pr_shared r) = wrap 64 (Z.of_nat (fulls tr)) /\
  pop_retries (pr_shared r) = wrap 64 (Z.of_nat (empties tr)) /\
  forall kh kt, passed messages kh kt r =
    empty_at kh kt (view_join (p_view (pr_queue r)) (c_view (pr_queue r))) (pr_queue r).
Proof.
  intros []%stress_run_inv. unfold finished_run, producer_done, consumer_done.
  destruct r as [q sh [v sp se []] [n cp ce []]]; try done. intros _. unfold received in *. simpl in *. subst.
  split_and!; [done|by rewrite si_pops0, Z.add_0_r|by rewrite Z.sub_0_r in *..|].
  intros kh kt. unfold passed. simpl. by rewrite si_failed0, si_consumed0, Z.eqb_refl.
Qed.

Lemma stress_verdict tr r :
  stress_run Capacity messages tr r -> finished_run r = true ->
  (exists kh kt, passed messages kh kt r = Some true) /\
  forall kh kt, passed messages kh kt r <> Some false.
Proof.
  intros Hr Hf. destruct (stress_finished tr r Hr Hf) as (E1 & E2 & _ & _ & Hp).
  destruct (prun_queue _ _ _ _ _ _ _ _ Hr) as [Hq _].
  assert (HL : length (pushes tr) = length (pops tr)) by congruence. split.
  - destruct (empty_after_join_reads tr _ Hq) as (kh & kt & b & Hb).
    exists kh, kt. rewrite Hp, Hb. f_equal. by apply (empty_after_join tr _ kh kt b Hq HL).
  - intros kh kt. rewrite Hp. intros E. by apply (empty_after_join tr _ kh kt _ Hq HL) in E.
Qed.

#[export] Instance stress_loops :
  CountingLoops (Capacity:=Capacity) (P:=producer_code messages) (K:=consumer_code messages)
    (g0:=shared_init) (p0:=producer_init) (c0:=consumer_init) (Z.to_nat messages)
    (fun p => Z.to_nat (messages - sp_value p))
    (fun p => match sp_at p with PrRetry => 2 | PrTest => 1 | _ => 0 end)%nat producer_done
    (fun c => Z.to_nat (messages - received c))
    (fun c => match sc_at c with CoRetry | CoCheck _ => 2 | CoTest => 1 | _ => 0 end)%nat consumer_done.
Proof.
  split; intros tr r []%stress_run_inv; destruct r as [q sh [v sp se at1] [n cp ce at2]];
    unfold received, producer_done, consumer_done in *; simpl in *.
  - rewrite si_pushes0, si_pops0, !length_seqZ. destruct at2; lia.
  - intros Hc Hd. unfold producer_local, load_failed. simpl. destruct si_seen0 as [-> _].
    exists 0%nat. destruct at1; try done; [|eexists _, _; split; [done|simpl; lia]].
    rewrite si_failed0. simpl. destruct (v <? messages); eexists _, _; (split; [done|simpl; lia]).
  - intros Hc Hd. unfold consumer_local, load_failed. simpl. destruct si_seen0 as [_ ->].
    exists 0%nat. destruct at2 as [| |w| |]; try done.
    + rewrite si_failed0. simpl. destruct (n <? messages); eexists _, _; (split; [done|simpl; lia]).
    + destruct (negb _); eexists _, _; (split; [done|simpl; lia]).
    + eexists _, _. split; [done|simpl; lia].
  - intros Hd. destruct at1; try done. lia.
  - intros Hd. destruct at2; try done. lia.
  - intros [x Hx]. destruct at2; try done. lia.
Qed.
End Correct.

(** Numbers accepted on the command line fit their type. *)
Lemma stress_parse_u64_width text out n : parse_u64 text out = (true, n) -> in_width 64 n.
Proof.
  intros H. apply (CliArgs.parse_u64_width text). unfold parse_u64 in H. unfold CliArgs.parse_u64.
  destruct text as [|c s]; [done|]. cbn [is_empty orb].
  assert (starts_with_dash (String c s) = false) as ->.
  { destruct c as [[] [] [] [] [] [] [] []]; try done. }
  by destruct (from_chars (String c s)) as [[[] v] []]; simplify_eq.
Qed.

Lemma parse_loop_messages program : forall args o o' out,
  in_width 64 (messages o) /\ messages o <> 0 -> parse_loop program args o = (ok, o', out) ->
  in_width 64 (messages o') /\ messages o' <> 0.
Proof.
  fix IH 1. intros args o o' out H. destruct args as [|arg rest]; simpl; [by intros [= <- <-]|].
  case_match; [done|]. destruct rest as [|v rest]; [done|]. case_match.
  - destruct (parse_u64 v (messages o)) as [[] n] eqn:E; simpl; [|done].
    destruct (Z.eqb_spec n 0); [done|]. apply IH. simpl. split; [by eapply stress_parse_u64_width|done].
  - case_match; [|done]. destruct (parse_u64 v 0) as [[] n]; simpl; [|done]. by apply IH.
Qed.

Definition supported (o : Options) : bool := is_supported (capacity o) supported_capacities.

Lemma supported_ok c : In c supported_capacities -> CapacityOk c.
Proof. simpl. intros [<-|[<-|[<-|[<-|[<-|[]]]]]]; apply _. Qed.

Lemma stress_main_supported {A} (c : Z) (x y : A) :
  match c with 64 | 256 | 1024 | 4096 | 65536 => x | _ => y end
  = if is_supported c supported_capacities then x else y.
Proof.
  destruct (is_supported c supported_capacities) eqn:E.
  - apply is_supported_in in E. simpl in E. by repeat destruct E as [<-|E].
  - destruct c as [|c|c]; try done.
    do 17 (destruct c as [c|c|]; try done).
Qed.
End Stress.
Import Stress.

(** ** Properties *)

(** C36. The stress tool never reports a failure.  In every interleaving of the two
    threads no step is undefined.  Whatever the threads have done so far, however
    stale their loads were, a schedule exists that brings the run to its end: there is no
    deadlock between the full and the empty queue.  Once both have finished: the producer has
    pushed 0, 1, ..., [messages - 1], the consumer has received exactly these in
    this order, the printed retry counts are the numbers of calls that found the queue
    full or empty (modulo 2^64), and [passed] is true whichever stores the final loads
    may observe. *)
Theorem stress_validation_passes (Capacity : Z) (CAP : CapacityOk Capacity) (n : Z) tr r :
  in_width 64 n -> stress_run Capacity n tr r ->
  (forall t, do_turn Capacity (producer_code n) (consumer_code n) t r <> PUndefined) /\
  (exists ts tr' r', run_turns Capacity (producer_code n) (consumer_code n) ts tr r = Some (tr', r') /\
                     finished_run r' = true) /\
  (finished_run r = true ->
   pushes tr = seqZ 0 n /\ pops tr = seqZ 0 n /\
   push_retries (pr_shared r) = wrap 64 (Z.of_nat (fulls tr)) /\
   pop_retries (pr_shared r) = wrap 64 (Z.of_nat (empties tr)) /\
   (exists kh kt, passed n kh kt r = Some true) /\ forall kh kt, passed n kh kt r <> Some false).
Proof.
  intros Hn Hr. split; [intros t; by eapply do_turn_defined|].
  split; [pose proof (stress_loops (Capacity:=Capacity) n Hn); by apply loops_complete|]. intros Hf.
  destruct (stress_finished n Hn tr r Hr Hf) as (E1 & E2 & ? & ? & Hp).
  destruct (stress_verdict n Hn tr r Hr Hf) as [? ?]. by split_and!.
Qed.

(** One message through 64 slots: the consumer first finds the queue empty. *)
Definition sample_turns : list turn :=
  let p k := TurnP k in let c k := TurnC k in
  [c 0; c 0; c 0; c 0; c 0; p 0; p 0; p 0; p 0; p 0; p 0; p 0; c 0; c 0; c 0; c 0; c 1; c 0; c 0; c 0;
   c 0; p 0; c 0; c 0]%nat.
Definition stress_start : program (T:=Z) := start 64 shared_init producer_init consumer_init.
Definition sample_end : program (T:=Z) (G:=shared) (SP:=producer) (SC:=consumer) :=
  match run_turns 64 (producer_code 1) (consumer_code 1) sample_turns [] stress_start with
  | Some (_, r) => r | None => stress_start end.

Lemma sample_stress : stress_run 64 1 [PopEmpty; Pushed 0; Popped 0] sample_end.
Proof.
  apply (run_turns_prun _ _ _ _ sample_turns [] stress_start); [constructor|]. vm_compute. reflexivity.
Qed.

Lemma stress_validation_passes_witness :
  finished_run sample_end = true /\
  pop_retries (pr_shared sample_end) = wrap 64 (Z.of_nat (empties [PopEmpty; Pushed 0; Popped 0])) /\
  forall kh kt, passed 1 kh kt sample_end <> Some false.
Proof.
  assert (W : in_width 64 1) by (by vm_compute).
  assert (F : finished_run sample_end = true) by (by vm_compute).
  destruct (stress_validation_passes 64 CapacityOk_64 1 _ _ W sample_stress) as (_ & _ & H).
  destruct (H F) as (_ & _ & _ & E & _ & N). exact (conj F (conj E N)).
Defined.

(** The exit code.  [main] exits with 0 exactly when help was asked for or the
    options were accepted with a supported capacity: a run that was started never
    makes the tool fail. *)
Theorem stress_exit_code (argv : list string) (result : bool) :
  (forall o out, parse_args argv Options_default = (ok, o, out) -> supported o = true ->
     run_stress (capacity o) (messages o) result) ->
  ((stress_main argv result).1 = 0 <->
   exists p o out, parse_args argv Options_default = (p, o, out) /\
     (p = help \/ p = ok /\ supported o = true)).
Proof.
  intros Hrun. unfold stress_main. destruct (parse_args argv Options_default) as [[p o] out] eqn:E.
  destruct p; simpl.
  - rewrite stress_main_supported. fold (supported o). destruct (supported o) eqn:S; simpl.
    + destruct (Hrun o out eq_refl S) as (tr & r & kh & kt & Hr & Hf & Hp).
      assert (Hm : in_width 64 (messages o) /\ messages o <> 0) by (by eapply parse_loop_messages in E).
      pose proof (supported_ok _ (is_supported_in _ _ S)) as CAP.
      destruct (stress_verdict (messages o) (proj1 Hm) tr r Hr Hf) as [_ N]. destruct result; [|by destruct (N kh kt)].
      split; [|done]. intros _. eauto 7.
    + split; [done|]. intros (p & o' & out' & [= <- <- <-] & [?|[_ ?]]); congruence.
  - split; [|done]. intros _. eauto 6.
  - split; [done|]. intros (p & o' & out' & [= <- <- <-] & [?|[? _]]); done.
Qed.

Definition sample_argv : list string := ["stress_spsc"; "--messages"; "1"; "--capacity"; "64"]%string.

Lemma stress_exit_code_witness :
  (stress_main sample_argv true).1 = 0 <->
  exists p o out, parse_args sample_argv Options_default = (p, o, out) /\
    (p = help \/ p = ok /\ supported o = true).
Proof.
  apply (stress_exit_code sample_argv true). intros o out E _. vm_compute in E.
  injection E as <- <-. exists [PopEmpty; Pushed 0; Popped 0], sample_end, 1%nat, 1%nat.
  split; [exact sample_stress|]. split; vm_compute; reflexivity.
Defined.
