(* ===== verification/AetherBench.v ===== *)
(** * aether_bench

    apps/aether_bench.cpp: one thread publishes [messages] payloads through a [Broker],
    another consumes them, and the tool reports the counters.  The calls of the broker are taken
    apart: the validity check, the steps of the queue (SpscConcurrent.v) and the
    increment of a counter are separate steps, interleaved with the other thread. *)

From Stdlib Require Import String.
From stdpp Require Import list numbers.
From S2P Require Import Prelude Core Metrics Spsc SpscConcurrent TwoThreads Histogram Utils CliArgs.
#[local] Open Scope Z_scope.
#[local] Open Scope list_scope.

Module Bench.

(** ** run *)

(** [Payload<PayloadSize>] of message [i]: the first byte set, the others zero. *)
Definition payload_of (PayloadSize i : Z) : list byte :=
  <[0%nat := z2b (Z.land i 255)]> (replicate (Z.to_nat PayloadSize) Byte.x00).

Section Run.
Context (PayloadSize messages : Z).

(** The broker without its queue, and the retry counters. *)
Record shared : Set := mkShared {
  config_status : Status; counters : BrokerCounters; full_retries : Z; empty_retries : Z }.
Definition shared_init : shared := mkShared Status_ok BrokerCounters_init 0 0.
Definition bump (f : BrokerCounters -> BrokerCounters) (g : shared) : shared :=
  mkShared (config_status g) (f (counters g)) (full_retries g) (empty_retries g).

(** Program points of the producer: the loop test, [try_publish] (the validity check, the push,
    the counter) and what the loop does with the status. *)
Inductive producer_at : Set :=
  | BpTest | BpValid | BpPush | BpCount (pushed : bool) | BpStatus (status : Status) | BpDone.
Record producer : Set := mkProducer { bp_i : Z; bp_at : producer_at }.
Definition producer_init : producer := mkProducer 0 BpTest.

Definition full_status : Status := mkStatus StatusCode.full "broker queue is full".
Definition empty_status : Status := mkStatus StatusCode.empty "broker queue is empty".

Definition producer_local (k : nat) (p : producer) (g : shared) : option (producer * shared) :=
  let goto at' g := Some (mkProducer (bp_i p) at', g) in
  match bp_at p with
  | BpTest => goto (if bp_i p <? messages then BpValid else BpDone) g
  | BpValid =>
      if negb (is_ok (config_status g))
      then goto (BpStatus (config_status g)) (bump record_publish_failed_invalid g)
      else goto BpPush g
  | BpCount false => goto (BpStatus full_status) (bump record_publish_failed_full g)
  | BpCount true => goto (BpStatus Status_ok) (bump record_published g)
  | BpStatus status =>
      if is_ok status then Some (mkProducer (bp_i p ⊞ 1) BpTest, g)
      else if bool_decide (code status = StatusCode.full)
      then goto BpTest (mkShared (config_status g) (counters g) (full_retries g ⊞ 1) (empty_retries g))
      else goto BpTest g
  | BpPush | BpDone => None
  end.

Definition producer_code : thread_code shared (list byte) bool producer :=
  mkCode
    (fun p => match bp_at p with BpPush => Some (payload_of PayloadSize (bp_i p)) | _ => None end)
    producer_local
    (fun pushed p => mkProducer (bp_i p) (BpCount pushed)).

Inductive consumer_at : Set :=
  | BcTest | BcValid | BcPop | BcCount (popped : bool) | BcStatus (status : Status) | BcDone.
Record consumer : Set := mkConsumer { bc_i : Z; bc_payload : list byte; bc_at : consumer_at }.
Definition consumer_init : consumer :=
  mkConsumer 0 (replicate (Z.to_nat PayloadSize) Byte.x00) BcTest.

Definition consumer_local (k : nat) (c : consumer) (g : shared) : option (consumer * shared) :=
  let goto at' g := Some (mkConsumer (bc_i c) (bc_payload c) at', g) in
  match bc_at c with
  | BcTest => goto (if bc_i c <? messages then BcValid else BcDone) g
  | BcValid =>
      if negb (is_ok (config_status g))
      then goto (BcStatus (config_status g)) (bump record_consume_failed_invalid g)
      else goto BcPop g
  | BcCount false => goto (BcStatus empty_status) (bump record_consume_failed_empty g)
  | BcCount true => goto (BcStatus Status_ok) (bump record_consumed g)
  | BcStatus status =>
      if is_ok status then Some (mkConsumer (bc_i c ⊞ 1) (bc_payload c) BcTest, g)
      else if bool_decide (code status = StatusCode.empty)
      then goto BcTest (mkShared (config_status g) (counters g) (full_retries g) (empty_retries g ⊞ 1))
      else goto BcTest g
  | BcPop | BcDone => None
  end.

Definition consumer_code : thread_code shared unit (option (list byte)) consumer :=
  mkCode
    (fun c => match bc_at c with BcPop => Some tt | _ => None end)
    consumer_local
    (fun popped c =>
       mkConsumer (bc_i c) (default (bc_payload c) popped)
         (BcCount (match popped with Some _ => true | None => false end))).

Definition producer_done (p : producer) : bool := match bp_at p with BpDone => true | _ => false end.
Definition consumer_done (c : consumer) : bool := match bc_at c with BcDone => true | _ => false end.
End Run.

Abbreviation bench := (program (T:=list byte) (G:=shared) (SP:=producer) (SC:=consumer)).

(** Double division where the divisor can be zero. *)
Definition double_quot (a b : double) : double :=
  match b with
  | Finite 0 _ => match a with Finite 0 _ => NaN | _ => Infinity false end
  | _ => double_div a b
  end.

Record Result : Set := mkResult {
  elapsed_seconds : double; messages_per_second : double;
  result_full_retries : Z; result_empty_retries : Z; metrics : BrokerMetricsSnapshot }.

(** What [run] returns when both threads have been joined after [elapsed_ns]. *)
Definition run_result (messages elapsed_ns : Z) (r : bench) : Result :=
  let seconds := double_div (double_of_u64 elapsed_ns) (round 1000000000 1) in
  mkResult seconds (double_quot (double_of_u64 messages) seconds)
    (full_retries (pr_shared r)) (empty_retries (pr_shared r)) (snapshot (counters (pr_shared r))).

Definition bench_run (PayloadSize Capacity messages : Z) :=
  prun Capacity (producer_code PayloadSize messages) (consumer_code messages)
    (start Capacity shared_init producer_init (consumer_init PayloadSize)).
Definition finished_run (r : bench) : bool := producer_done (pr_prod r) && consumer_done (pr_cons r).

(** [run<PayloadSize, Capacity>(messages)] can return [result]. *)
Definition run (PayloadSize Capacity messages : Z) (result : Result) : Prop :=
  exists tr r elapsed_ns, bench_run PayloadSize Capacity messages tr r /\ finished_run r = true /\
    0 <= elapsed_ns /\ result = run_result messages elapsed_ns r.

(** ** Dispatch and main *)

Definition Result_default : Result :=
  mkResult (Finite 0 0) (Finite 0 0) 0 0 (mkSnapshot 0 0 0 0 0 0 0 0 0 0 0 0).

Definition dispatch_capacity (PayloadSize capacity messages : Z) (result : Result) : Prop :=
  match capacity with
  | 64 => run PayloadSize 64 messages result
  | 256 => run PayloadSize 256 messages result
  | 1024 => run PayloadSize 1024 messages result
  | 4096 => run PayloadSize 4096 messages result
  | 65536 => run PayloadSize 65536 messages result
  | _ => result = Result_default
  end.

Definition dispatch (options : BenchOptions) (result : Result) : Prop :=
  match bench_payload_size options with
  | 8 => dispatch_capacity 8 (bench_capacity options) (bench_messages options) result
  | 32 => dispatch_capacity 32 (bench_capacity options) (bench_messages options) result
  | 64 => dispatch_capacity 64 (bench_capacity options) (bench_messages options) result
  | 256 => dispatch_capacity 256 (bench_capacity options) (bench_messages options) result
  | 1024 => dispatch_capacity 1024 (bench_capacity options) (bench_messages options) result
  | _ => result = Result_default
  end.

Inductive field : Set := Number (n : Z) | Double (d : double).

(** The report, written to standard output and to the result file. *)
Definition report (options : BenchOptions) (result : Result) : list (string * field) :=
  [("messages"%string, Number (bench_messages options));
   ("payload size"%string, Number (bench_payload_size options));
   ("capacity"%string, Number (bench_capacity options));
   ("elapsed seconds"%string, Double (elapsed_seconds result));
   ("messages/sec"%string, Double (messages_per_second result));
   ("producer full retries"%string, Number (result_full_retries result));
   ("consumer empty retries"%string, Number (result_empty_retries result));
   ("metrics.published"%string, Number (published (metrics result)));
   ("metrics.consumed"%string, Number (consumed (metrics result)));
   ("metrics.publish_failed_full"%string, Number (publish_failed_full (metrics result)));
   ("metrics.consume_failed_empty"%string, Number (consume_failed_empty (metrics result)))].

(** What is written: nothing, the error on standard error, the help text, or the report on
    standard output and, where the stream on the result file is good, also there. *)
Inductive bench_output : Set :=
  | BenchNothing | BenchError (message : string) | BenchHelp (text : string)
  | BenchReport (fields : list (string * field)) (file_good : bool).

(** [return] from [main], or [std::terminate] after an exception that nothing catches. *)
Inductive bench_ending : Set := BenchExited (exit_code : Z) | BenchTerminated.

(** [main]: how it ends and what is written, for a possible run.  [create_directories] is
    the call of [std::filesystem] on the output directory; [false] is an exception. *)
Inductive bench_main (create_directories : string -> bool) (argv : list string) :
    bench_ending -> bench_output -> Prop :=
  | main_error status : parse_bench_args argv = Done (Error status) ->
      bench_main create_directories argv (BenchExited 2) (BenchError (message status))
  | main_help options : parse_bench_args argv = Done (Value options) -> bench_help options = true ->
      bench_main create_directories argv (BenchExited 0) (BenchHelp bench_help_text)
  | main_no_directory options result : parse_bench_args argv = Done (Value options) ->
      bench_help options = false -> dispatch options result ->
      create_directories (bench_output_dir options) = false ->
      bench_main create_directories argv BenchTerminated BenchNothing
  | main_run options result file_good : parse_bench_args argv = Done (Value options) ->
      bench_help options = false -> dispatch options result ->
      create_directories (bench_output_dir options) = true ->
      bench_main create_directories argv (BenchExited 0)
        (BenchReport (report options result) file_good).

(** ** Correctness *)

Section Correct.
Context {Capacity : Z} {CAP : CapacityOk Capacity} (PayloadSize messages : Z).
Implicit Types (tr : list (event (T:=list byte))).
Abbreviation bench := (program (T:=list byte) (G:=shared) (SP:=producer) (SC:=consumer)).

(** A successful call is counted by the broker, then by the loop; a failed one by the
    broker, then by the retry counter. *)
Definition p_uncounted (a : producer_at) : Z := match a with BpCount b => if b then 1 else 0 | _ => 0 end.
Definition p_unlooped (a : producer_at) : Z := match a with BpStatus s => if is_ok s then 1 else 0 | _ => 0 end.
Definition p_full_uncounted (a : producer_at) : Z := match a with BpCount b => if b then 0 else 1 | _ => 0 end.
Definition p_full_unlooped (a : producer_at) : Z := match a with BpStatus s => if is_ok s then 0 else 1 | _ => 0 end.
Definition c_uncounted (a : consumer_at) : Z := match a with BcCount b => if b then 1 else 0 | _ => 0 end.
Definition c_unlooped (a : consumer_at) : Z := match a with BcStatus s => if is_ok s then 1 else 0 | _ => 0 end.
Definition c_empty_uncounted (a : consumer_at) : Z := match a with BcCount b => if b then 0 else 1 | _ => 0 end.
Definition c_empty_unlooped (a : consumer_at) : Z := match a with BcStatus s => if is_ok s then 0 else 1 | _ => 0 end.

Record bench_inv tr (r : bench) : Prop := {
  bi_config : config_status (pr_shared r) = Status_ok;
  bi_i : 0 <= bp_i (pr_prod r) <= messages;
  bi_pushes : let a := bp_at (pr_prod r) in
    pushes tr = map (payload_of PayloadSize) (seqZ 0 (bp_i (pr_prod r) + (p_uncounted a + p_unlooped a)));
  bi_prod : match bp_at (pr_prod r) with
            | BpTest => True
            | BpDone => bp_i (pr_prod r) = messages
            | BpStatus s => bp_i (pr_prod r) < messages /\ (s = Status_ok \/ s = full_status)
            | _ => bp_i (pr_prod r) < messages end;
  bi_ci : 0 <= bc_i (pr_cons r) <= messages;
  bi_pops : let a := bc_at (pr_cons r) in
    Z.of_nat (length (pops tr)) = bc_i (pr_cons r) + (c_uncounted a + c_unlooped a);
  bi_cons : match bc_at (pr_cons r) with
            | BcTest => True
            | BcDone => bc_i (pr_cons r) = messages
            | BcStatus s => bc_i (pr_cons r) < messages /\ (s = Status_ok \/ s = empty_status)
            | _ => bc_i (pr_cons r) < messages end;
  bi_counters : let a := bp_at (pr_prod r) in let b := bc_at (pr_cons r) in
    counters (pr_shared r) =
      mkCounters (bp_i (pr_prod r) + p_unlooped a) (bc_i (pr_cons r) + c_unlooped b)
        (wrap 64 (Z.of_nat (fulls tr) - p_full_uncounted a))
        (wrap 64 (Z.of_nat (empties tr) - c_empty_uncounted b)) 0 0 0 0 0 0 0 0;
  bi_full : let a := bp_at (pr_prod r) in
    full_retries (pr_shared r) = wrap 64 (Z.of_nat (fulls tr) - (p_full_uncounted a + p_full_unlooped a));
  bi_empty : let b := bc_at (pr_cons r) in
    empty_retries (pr_shared r) = wrap 64 (Z.of_nat (empties tr) - (c_empty_uncounted b + c_empty_unlooped b)) }.

Context (MSG : in_width 64 messages).

Lemma bench_inv_init : bench_inv [] (start Capacity shared_init producer_init (consumer_init PayloadSize)).
Proof. destruct MSG. by split; simpl; try lia. Qed.

Lemma increment_wrap n d : increment (wrap 64 (n - d)) = wrap 64 (n - (d - 1)).
Proof. unfold increment. rewrite wrap_wrap_add_l. f_equal. lia. Qed.
Lemma increment_small n : 0 <= n < messages -> n ⊞ 1 = n + 1.
Proof. intros. apply wrap_id. destruct MSG. split; lia. Qed.

Lemma bench_inv_producer tr r k p g :
  bench_inv tr r -> producer_local messages k (pr_prod r) (pr_shared r) = Some (p, g) ->
  bench_inv tr (mkProgram (pr_queue r) g p (pr_cons r)).
Proof.
  destruct r as [q [cfg cs fr er] [i at'] c]. intros []. unfold producer_local, bump.
  simpl in *. subst cfg.
  destruct at' as [| | |b|s|]; try done.
  - destruct (Z.ltb_spec i messages); intros [= <- <-]; split; simpl in *; try done; lia.
  - intros [= <- <-]. by split.
  - destruct b; intros [= <- <-]; split; simpl in *; try done; try lia; auto.
    + rewrite bi_counters0. simpl. f_equal. unfold increment. rewrite Z.add_0_r, increment_small by lia. lia.
    + rewrite bi_counters0. simpl. f_equal. by rewrite increment_wrap.
  - destruct bi_prod0 as [Hi [-> | ->]]; intros [= <- <-]; simpl in *.
    + rewrite increment_small by lia. split; simpl in *; try done; try lia.
      * rewrite bi_pushes0. do 2 f_equal. lia.
      * rewrite bi_counters0. f_equal. lia.
    + split; simpl in *; try done. rewrite bi_full0. apply (increment_wrap _ 1).
Qed.

Lemma bench_inv_consumer tr r k c g :
  bench_inv tr r -> consumer_local messages k (pr_cons r) (pr_shared r) = Some (c, g) ->
  bench_inv tr (mkProgram (pr_queue r) g (pr_prod r) c).
Proof.
  destruct r as [q [cfg cs fr er] p [i pl at']]. intros []. unfold consumer_local, bump.
  simpl in *. subst cfg.
  destruct at' as [| | |b|s|]; try done.
  - destruct (Z.ltb_spec i messages); intros [= <- <-]; split; simpl in *; try done; lia.
  - intros [= <- <-]. by split.
  - destruct b; intros [= <- <-]; split; simpl in *; try done; try lia; auto.
    + rewrite bi_counters0. simpl. f_equal. unfold increment. rewrite Z.add_0_r, increment_small by lia. lia.
    + rewrite bi_counters0. simpl. f_equal. by rewrite increment_wrap.
  - destruct bi_cons0 as [Hi [-> | ->]]; intros [= <- <-]; simpl in *.
    + rewrite increment_small by lia. split; simpl in *; try done; try lia.
      rewrite bi_counters0. f_equal. lia.
    + split; simpl in *; try done. rewrite bi_empty0. apply (increment_wrap _ 1).
Qed.

Lemma bench_inv_event tr r e r' l :
  bench_inv tr r -> turn_spec (producer_code PayloadSize messages) (consumer_code messages) r e r' ->
  pushes (tr ++ events e) = pops (tr ++ events e) ++ l -> bench_inv (tr ++ events e) r'.
Proof.
  intros I Ht _. destruct Ht as [k p g _ Hl|v q Hc|v q Hc|v q Hc|k c g _ Hl|q Hc|v q Hc|q Hc];
    simpl; rewrite ?app_nil_r.
  - exact (bench_inv_producer _ _ _ _ _ I Hl).
  - by destruct I.
  - destruct r as [q0 sh [i at'] c], I; simpl in *. destruct at'; try done. injection Hc as <-.
    simpl in *. split; simpl; trace_simpl; try done; try lia.
    rewrite bi_pushes0, Z.add_0_r. rewrite seqZ_snoc, map_app by lia. done.
  - destruct r as [q0 sh [i at'] c], I; simpl in *. destruct at'; try done.
    simpl in *. split; simpl; trace_simpl; try done; try lia.
    + rewrite bi_counters0. f_equal. f_equal. lia.
    + rewrite bi_full0. f_equal. lia.
  - exact (bench_inv_consumer _ _ _ _ _ I Hl).
  - by destruct I.
  - destruct r as [q0 sh p [i pl at']], I; simpl in *. destruct at'; try done.
    simpl in *. split; simpl; trace_simpl; try done; try lia. rewrite length_app. simpl. lia.
  - destruct r as [q0 sh p [i pl at']], I; simpl in *. destruct at'; try done.
    simpl in *. split; simpl; trace_simpl; try done; try lia.
    + rewrite bi_counters0. f_equal. f_equal. lia.
    + rewrite bi_empty0. f_equal. lia.
Qed.

Lemma bench_run_inv tr r : bench_run PayloadSize Capacity messages tr r -> bench_inv tr r.
Proof. apply (prun_invariant _ _ _ _ _ _ bench_inv bench_inv_init bench_inv_event). Qed.

Lemma bench_finished tr r :
  bench_run PayloadSize Capacity messages tr r -> finished_run r = true ->
  pushes tr = map (payload_of PayloadSize) (seqZ 0 messages) /\ pops tr = pushes tr /\
  counters (pr_shared r) = mkCounters messages messages (wrap 64 (Z.of_nat (fulls tr)))
    (wrap 64 (Z.of_nat (empties tr))) 0 0 0 0 0 0 0 0 /\
  full_retries (pr_shared r) = wrap 64 (Z.of_nat (fulls tr)) /\
  empty_retries (pr_shared r) = wrap 64 (Z.of_nat (empties tr)).
Proof.
  intros Hr. destruct (prun_fifo _ _ _ _ _ _ _ _ Hr) as [l Hl]. apply bench_run_inv in Hr as [].
  unfold finished_run, producer_done, consumer_done.
  destruct r as [q sh [i []] [j pl []]]; try done. intros _. simpl in *. subst.
  rewrite ?Z.add_0_r, ?Z.sub_0_r in *. split_and!; try done.
  assert (HL : length (pushes tr) = Z.to_nat messages) by (by rewrite bi_pushes0, length_map, length_seqZ).
  rewrite Hl, length_app in HL. destruct l as [|x l]; [by rewrite Hl, app_nil_r|]. simpl in HL. lia.
Qed.

#[export] Instance bench_loops :
  CountingLoops (Capacity:=Capacity) (P:=producer_code PayloadSize messages) (K:=consumer_code messages)
    (g0:=shared_init) (p0:=producer_init) (c0:=consumer_init PayloadSize) (Z.to_nat messages)
    (fun p => Z.to_nat (messages - (bp_i p + (p_uncounted (bp_at p) + p_unlooped (bp_at p)))))
    (fun p => match bp_at p with BpCount _ => 4 | BpStatus _ => 3 | BpTest => 2 | BpValid => 1 | _ => 0 end)%nat
    producer_done
    (fun c => Z.to_nat (messages - (bc_i c + (c_uncounted (bc_at c) + c_unlooped (bc_at c)))))
    (fun c => match bc_at c with BcCount _ => 4 | BcStatus _ => 3 | BcTest => 2 | BcValid => 1 | _ => 0 end)%nat
    consumer_done.
Proof.
  split; intros tr r []%bench_run_inv; destruct r as [q sh [i at1] [j pl at2]];
    unfold producer_done, consumer_done in *; simpl in *.
  - rewrite bi_pushes0, length_map, length_seqZ. split.
    + destruct at1 as [| | |[]|s|]; simpl in *; try lia. destruct (is_ok s) eqn:E; rewrite ?E in bi_pops0; lia.
    + destruct at2 as [| | |[]|s|]; simpl in *; try lia. destruct (is_ok s) eqn:E; rewrite ?E in bi_pops0; lia.
  - intros Hc Hd. unfold producer_local. simpl. exists 0%nat. rewrite bi_config0.
    destruct at1 as [| | |[]|s|]; try done; [| | | |repeat case_match];
      eexists _, _; (split; [done|simpl; try lia]). destruct (i <? messages); simpl; lia.
  - intros Hc Hd. unfold consumer_local. simpl. exists 0%nat. rewrite bi_config0.
    destruct at2 as [| | |[]|s|]; try done; [| | | |repeat case_match];
      eexists _, _; (split; [done|simpl; try lia]). destruct (j <? messages); simpl; lia.
  - intros Hd. destruct at1; try done. simpl. lia.
  - intros Hd. destruct at2; try done. simpl. lia.
  - intros [x Hx]. destruct at2; try done. simpl. lia.
Qed.
End Correct.

Lemma bench_run_report PayloadSize Capacity (CAP : CapacityOk Capacity) n result :
  in_width 64 n -> run PayloadSize Capacity n result ->
  exists f e, in_width 64 f /\ in_width 64 e /\
    result_full_retries result = f /\ result_empty_retries result = e /\
    metrics result = mkSnapshot n n f e 0 0 0 0 0 0 0 0.
Proof.
  intros Hn (tr & r & ns & Hr & Hf & _ & ->).
  destruct (bench_finished PayloadSize n Hn tr r Hr Hf) as (_ & _ & Hc & Hfr & Her).
  exists (wrap 64 (Z.of_nat (fulls tr))), (wrap 64 (Z.of_nat (empties tr))).
  split_and!; [by apply wrap_width..|done|done|]. simpl. by rewrite Hc.
Qed.

(** Accepted options select an instance of [run]. *)
Lemma dispatch_run options result :
  bench_supported options -> dispatch options result ->
  CapacityOk (bench_capacity options) /\
  run (bench_payload_size options) (bench_capacity options) (bench_messages options) result.
Proof.
  intros [Hp Hc]. unfold dispatch, dispatch_capacity. simpl in Hp, Hc.
  destruct Hp as [<-|[<-|[<-|[<-|[<-|[]]]]]], Hc as [<-|[<-|[<-|[<-|[<-|[]]]]]];
    (split; [apply _|done]).
Qed.

(** Every instance has a run that ends. *)
Lemma run_possible PayloadSize Capacity (CAP : CapacityOk Capacity) n :
  in_width 64 n -> exists result, run PayloadSize Capacity n result.
Proof.
  intros Hn. pose proof (bench_loops (Capacity:=Capacity) PayloadSize n Hn) as L.
  destruct (loops_complete [] _ (prun_start _ _ _ _)) as (ts & tr & r & Hts & Hf).
  exists (run_result n 0 r), tr, r, 0. split_and!; [|done|lia|done].
  by apply (run_turns_prun _ _ _ _ _ _ _ _ _ (prun_start _ _ _ _) Hts).
Qed.

Lemma dispatch_possible options :
  bench_supported options -> in_width 64 (bench_messages options) -> exists result, dispatch options result.
Proof.
  intros [Hp Hc] Hn. unfold dispatch, dispatch_capacity. simpl in Hp, Hc.
  destruct Hp as [<-|[<-|[<-|[<-|[<-|[]]]]]], Hc as [<-|[<-|[<-|[<-|[<-|[]]]]]];
    (apply run_possible; [apply _|done]).
Qed.

Lemma bench_parsed argv o : parse_bench_args argv = Done (Value o) ->
  bench_supported o /\ in_width 64 (bench_messages o).
Proof.
  apply (arg_loop_invariant bench_body
    (fun o => bench_supported o /\ in_width 64 (bench_messages o))).
  - intros args i o1 o2 i' [Hs Hw] E. split; [by eapply bench_body_supported|].
    revert E. destruct o1. width_tac bench_body.
  - split; [split; simpl; auto 10|by vm_compute].
Qed.
End Bench.
Import Bench.

(** ** Properties *)


(** One message of 8 bytes through 64 slots. *)
Definition bench_argv : list string :=
  ["aether_bench"; "--messages"; "1"; "--payload-size=8"; "--capacity"; "64"]%string.
Definition bench_turns : list turn :=
  replicate 7 (TurnC 0) ++ replicate 11 (TurnP 0) ++ replicate 5 (TurnC 0) ++ [TurnC 1] ++
  replicate 7 (TurnC 0).
Definition bench_start : program (T:=list byte) :=
  start 64 shared_init producer_init (consumer_init 8).
Definition bench_end : program (T:=list byte) (G:=shared) (SP:=producer) (SC:=consumer) :=
  match run_turns 64 (producer_code 8 1) (consumer_code 1) bench_turns [] bench_start with
  | Some (_, r) => r | None => bench_start end.

Definition bench_trace : list (event (T:=list byte)) :=
  [PopEmpty; Pushed (payload_of 8 0); Popped (payload_of 8 0)].

Lemma sample_bench : bench_run 8 64 1 bench_trace bench_end.
Proof.
  apply (run_turns_prun _ _ _ _ bench_turns [] bench_start); [constructor|]. vm_compute. reflexivity.
Qed.

Lemma sample_main : bench_main (fun _ => true) bench_argv (BenchExited 0)
  (BenchReport (report (mkBench false 1 8 64 "benchmark-results") (run_result 1 1000 bench_end)) true).
Proof.
  apply main_run; [vm_compute; reflexivity|reflexivity| |reflexivity].
  exists bench_trace, bench_end, 1000. split; [exact sample_bench|].
  split; [vm_compute; reflexivity|]. split; [discriminate|reflexivity].
Qed.


(** aether_bench cannot get stuck: from every state that its threads can reach,
    however stale their loads, some schedule runs the benchmark to its end, and then
    the consumer has received the payloads in the order in which they were built. *)
Theorem bench_can_finish (PayloadSize Capacity : Z) (CAP : CapacityOk Capacity) (n : Z) tr r :
  in_width 64 n -> bench_run PayloadSize Capacity n tr r ->
  exists ts tr' r',
    run_turns Capacity (producer_code PayloadSize n) (consumer_code n) ts tr r = Some (tr', r') /\
    finished_run r' = true /\ pops tr' = map (payload_of PayloadSize) (seqZ 0 n).
Proof.
  intros Hn Hr. pose proof (bench_loops (Capacity:=Capacity) PayloadSize n Hn) as L.
  destruct (loops_complete tr r Hr) as (ts & tr' & r' & Hts & Hf). exists ts, tr', r'.
  split_and!; [done|done|]. pose proof (run_turns_prun _ _ _ _ _ _ _ _ _ Hr Hts) as Hr'.
  destruct (bench_finished PayloadSize n Hn tr' r' Hr' Hf) as (E1 & E2 & _). congruence.
Qed.

Lemma bench_can_finish_witness :
  exists ts tr' r', run_turns 64 (producer_code 8 1) (consumer_code 1) ts [] bench_start = Some (tr', r') /\
    finished_run r' = true /\ pops tr' = map (payload_of 8) (seqZ 0 1).
Proof.
  apply (bench_can_finish 8 64 CapacityOk_64 1 [] bench_start); [by vm_compute|constructor].
Defined.
