(* ===== verification/Console.v ===== *)
(** * The text the tools print

    Apps.v, PubSub.v and AetherBench.v keep console output as data; this file gives its
    text: the stream insertions of apps/*.cpp, with integers in decimal, [double] as the
    default format of a stream prints it (the %g format with six digits), paths quoted,
    and the name of the result file of aether_bench. *)

From Stdlib Require Import String Ascii.
From S2P Require Import Prelude Core Metrics Spsc WalFormat Wal CliArgs Histogram Apps PubSub.
From S2P Require Import AetherBench.
#[local] Open Scope list_scope.
#[local] Open Scope string_scope.
#[local] Open Scope Z_scope.

(** ** Formatting *)

Definition newline : string := String (ascii_of_nat 10) EmptyString.
Definition quote : ascii := ascii_of_nat 34.
Definition backslash : ascii := ascii_of_nat 92.

(** [os << label << value]. *)
Definition field (label : string) (n : Z) : string := label ++ print_u64 n.
(** [os << label << value << '\n']. *)
Definition row (label : string) (n : Z) : string := label ++ print_u64 n ++ newline.

(** [std::hex]: lower-case digits, none in front that are zero. *)
Definition hex_char (d : Z) : ascii := ascii_of_N (Z.to_N (if d <? 10 then 48 + d else 87 + d)).
Fixpoint print_hex (fuel : nat) (n : Z) (acc : string) : string :=
  match fuel with
  | O => acc
  | S fuel =>
      let acc := String (hex_char (n mod 16)) acc in
      if n <? 16 then acc else print_hex fuel (n / 16) acc
  end.

(** [n] in exactly [k] digits. *)
Fixpoint print_padded (k : nat) (n : Z) (acc : string) : string :=
  match k with
  | O => acc
  | S k => print_padded k (n / 10) (String (digit_char (n mod 10)) acc)
  end.

(** [std::quoted], as [operator<<] of a path uses it. *)
Fixpoint escape (s : string) : string :=
  match s with
  | EmptyString => EmptyString
  | String c s =>
      if Ascii.eqb c quote || Ascii.eqb c backslash then String backslash (String c (escape s))
      else String c (escape s)
  end.
Definition quoted (s : string) : string := String quote (escape s ++ String quote EmptyString).

(** *** Floating point *)

(** The number a binary64 encoding stands for, without its sign. *)
Definition double_of_bits (bits : Z) : double :=
  let fraction := bits mod 2 ^ 52 in
  let biased := bits / 2 ^ 52 mod 2 ^ 11 in
  if biased =? 2047 then (if fraction =? 0 then Infinity false else NaN)
  else if biased =? 0 then Finite fraction (-1074)
  else Finite (2 ^ 52 + fraction) (biased - 1075).
Definition negative_bits (bits : Z) : bool := Z.testbit bits 63.

Definition pow10 (x : Z) : Z := 10 ^ Z.max x 0.

(** The decimal exponent of [num/den]: the number lies in [10^x, 10^(x+1)). *)
Fixpoint exponent10 (fuel : nat) (num den : Z) : Z :=
  match fuel with
  | O => 0
  | S fuel =>
      if 10 * den <=? num then 1 + exponent10 fuel num (10 * den)
      else if num <? den then exponent10 fuel (10 * num) den - 1
      else 0
  end.

Definition strip_zeros (l : list ascii) : list ascii := rev (drop_while (Ascii.eqb (ascii_of_nat 48)) (rev l)).
(** [n / 10^k] with the zeros at the end removed. *)
Definition print_fraction (k : nat) (n : Z) : string :=
  match strip_zeros (list_ascii_of_string (print_padded k (n mod 10 ^ Z.of_nat k) EmptyString)) with
  | [] => print_u64 (n / 10 ^ Z.of_nat k)
  | l => print_u64 (n / 10 ^ Z.of_nat k) ++ "." ++ string_of_list_ascii l
  end.

(** Six significant digits [digits] of a number with decimal exponent [x]. *)
Definition print_digits6 (digits x : Z) : string :=
  if (-4 <=? x) && (x <? 6) then print_fraction (Z.to_nat (5 - x)) digits
  else print_fraction 5 digits ++ "e" ++ (if x <? 0 then "-" else "+") ++
       (if Z.abs x <? 100 then print_padded 2 (Z.abs x) EmptyString else print_u64 (Z.abs x)).

(** A [double] in the default format; 400 is more than the decimal exponent of any. *)
Definition print_double (d : double) : string :=
  match d with
  | NaN => "nan"
  | Infinity negative => if negative then "-inf" else "inf"
  | Finite m e =>
      if m =? 0 then "0"
      else
        let num := m * pow2 e in
        let den := pow2 (- e) in
        let x := exponent10 400 num den in
        let digits := div_even (num * pow10 (5 - x)) (den * pow10 (x - 5)) in
        if digits =? 1000000 then print_digits6 100000 (x + 1) else print_digits6 digits x
  end.
Definition print_price (bits : Z) : string :=
  (if negative_bits bits then "-" else "") ++ print_double (double_of_bits bits).

Example print_double_samples :
  map (fun p => print_double (round p.1 p.2)) [(1, 1); (1, 4); (2, 3); (1000000, 1); (123456789, 1); (1, 10000); (1, 100000); (9999995, 10)] =
  ["1"; "0.25"; "0.666667"; "1e+06"; "1.23457e+08"; "0.0001"; "1e-05"; "1e+06"].
Proof. vm_compute. reflexivity. Qed.

(** ** The tools *)

(** [print_error] of the five tools, on the error stream. *)
Definition print_error (status : Status) : string := "error: " ++ message status ++ newline.

(** [print_event] of aether_sub. *)
Definition print_event (e : OrderEvent) : string :=
  field "id=" (uval (ev_id e)) ++ " price=" ++ print_price (uval (ev_price e)) ++
  row " quantity=" (uval (ev_quantity e)).

Definition preview_text (preview : list Z) : string :=
  string_of_list_ascii (map (fun c => ascii_of_N (Z.to_N c)) preview).

(** The record lines of aether_replay and aether_inspect_wal. *)
Definition record_line (v : WalRecordView) (preview : list Z) : string :=
  let h := rv_header v in
  field "offset=" (rv_offset v) ++ field " sequence=" (sequence h) ++
  field " timestamp_ns=" (timestamp_ns h) ++ field " payload_size=" (payload_size h) ++
  field " flags=" (flags h) ++ field " checksum=" (checksum h) ++
  " preview=" ++ String quote (preview_text preview ++ String quote newline).
Definition verbose_line (v : WalRecordView) : string :=
  let h := rv_header v in
  field "record offset=" (rv_offset v) ++ field " sequence=" (sequence h) ++
  field " payload_size=" (payload_size h) ++ field " timestamp_ns=" (timestamp_ns h) ++
  field " flags=" (flags h) ++ row " checksum=" (checksum h).

(** What aether_replay and aether_inspect_wal write for a line; [help] is the tool's. *)
Definition line_text (help : string) (l : line) : string :=
  match l with
  | ErrorLine s => print_error s
  | HelpText => help
  | FormatLine magic version header_size =>
      "WAL format: magic=0x" ++ print_hex 16 magic EmptyString ++ field " version=" version ++
      row " header_size=" header_size
  | RecordLine v preview => record_line v preview
  | VerboseLine v => verbose_line v
  | CorruptionLine offset => row "scan ended with corruption/error at offset " offset
  | ReplaySummary records offset recovered failures =>
      field "summary: records replayed=" records ++ row " final offset=" offset ++
      row "metrics.recovered_records: " recovered ++ row "metrics.recovery_failures: " failures
  | InspectSummary count total first last offset recovered failures =>
      row "record count: " count ++ row "total payload bytes: " total ++
      row "first sequence: " first ++ row "last sequence: " last ++
      row "final reader offset: " offset ++ "scan ended cleanly: yes" ++ newline ++
      row "metrics.recovered_records: " recovered ++ row "metrics.recovery_failures: " failures
  end.

(** What aether_pub and aether_sub write. *)
Definition report_text (help : string) (r : PubSub.report) : string :=
  match r with
  | ToolError s => print_error s
  | ToolHelp => help
  | PubSummary wal_path requested records_written published wal_records_written
      wal_bytes_written wal_flushes publish_failed_full wal_failures next_sequence offset remaining =>
      "aether_pub wrote local demo OrderEvent records" ++ newline ++
      "wal path: " ++ quoted wal_path ++ newline ++
      row "messages requested: " requested ++ row "records written: " records_written ++
      row "metrics.published: " published ++ row "metrics.wal_records_written: " wal_records_written ++
      row "metrics.wal_bytes_written: " wal_bytes_written ++ row "metrics.wal_flushes: " wal_flushes ++
      row "metrics.publish_failed_full: " publish_failed_full ++ row "metrics.wal_failures: " wal_failures ++
      row "next sequence: " next_sequence ++ row "current WAL offset: " offset ++
      row "remaining WAL space: " remaining
  | SubBanner =>
      "Local demo subscriber: no networking and no remote/live broker subscription." ++ newline
  | EventLine e => print_event e
  | LocalSummary produced consumed suppressed published consumed_metric publish_failed_full
      consume_failed_empty =>
      field "summary: produced=" produced ++ field " consumed=" consumed ++ row " suppressed=" suppressed ++
      row "metrics.published: " published ++ row "metrics.consumed: " consumed_metric ++
      row "metrics.publish_failed_full: " publish_failed_full ++
      row "metrics.consume_failed_empty: " consume_failed_empty
  | WalSummary replayed printed suppressed recovered failures =>
      field "summary: replayed=" replayed ++ field " printed=" printed ++ row " suppressed=" suppressed ++
      row "metrics.recovered_records: " recovered ++ row "metrics.recovery_failures: " failures
  end.

(** *** aether_bench *)

(** The members of [std::tm] that the name of the result file uses; [tm_year] counts from
    1900 and [tm_mon] from 0. *)
Record tm : Set := mkTm { tm_year : Z; tm_mon : Z; tm_mday : Z; tm_hour : Z; tm_min : Z; tm_sec : Z }.
Definition two_digits (n : Z) : string := print_padded 2 n EmptyString.
(** [std::put_time] with the format %Y%m%d-%H%M%S, for years of four digits. *)
Definition put_time (t : tm) : string :=
  print_padded 4 (1900 + tm_year t) EmptyString ++ two_digits (tm_mon t + 1) ++ two_digits (tm_mday t) ++ "-" ++
  two_digits (tm_hour t) ++ two_digits (tm_min t) ++ two_digits (tm_sec t).

(** [dir / name] for a relative name. *)
Definition path_join (dir name : string) : string :=
  match rev (list_ascii_of_string dir) with
  | [] => name
  | c :: _ => if is_slash c then dir ++ name else dir ++ "/" ++ name
  end.
(** [result_path]: [t] is the local time. *)
Definition result_path (dir : string) (t : tm) : string := path_join dir ("cli-bench-" ++ put_time t ++ ".txt").

Definition field_text (f : AetherBench.Bench.field) : string :=
  match f with Bench.Number n => print_u64 n | Bench.Double d => print_double d end.
(** The lambda [write]. *)
Definition bench_report_text (fields : list (string * AetherBench.Bench.field)) : string :=
  "Aether-Stream CLI demo benchmark (not official performance data)" ++ newline ++
  String.concat EmptyString (map (fun '(label, f) => label ++ ": " ++ field_text f ++ newline) fields).
(** What is written to standard output, and to the result file where its stream is good. *)
Definition bench_text (options : BenchOptions) (t : tm) (out : Bench.bench_output) : string * option string :=
  match out with
  | Bench.BenchNothing | Bench.BenchError _ => (EmptyString, None)
  | Bench.BenchHelp text => (text, None)
  | Bench.BenchReport fields file_good =>
      (bench_report_text fields ++ "result file: " ++
         quoted (result_path (bench_output_dir options) t) ++ newline,
       if file_good then Some (bench_report_text fields) else None)
  end.

(** ** Facts *)

(** A text that starts with something other than a digit. *)
Definition stops (s : string) : Prop := match s with EmptyString => True | String c _ => digit c = None end.

Lemma append_cons c (a b : string) : String c a ++ b = String c (a ++ b).
Proof. reflexivity. Qed.
Lemma append_nil (b : string) : EmptyString ++ b = b.
Proof. reflexivity. Qed.
Lemma app_assoc_s (a b c : string) : (a ++ b) ++ c = a ++ b ++ c.
Proof. induction a as [|x a IH]; [done|]. by rewrite !append_cons, IH. Qed.
Lemma app_cancel (a s t : string) : a ++ s = a ++ t -> s = t.
Proof. apply (inj (String.app a)). Qed.

(** A number printed before a text that stops it can be read back: the scanner stops at
    the text with the value. *)
Fixpoint scan_number (s : string) (acc : Z) : Z * string :=
  match s with
  | EmptyString => (acc, s)
  | String c s' => match digit c with Some d => scan_number s' (10 * acc + d) | None => (acc, s) end
  end.

Lemma scan_number_print fuel : forall n acc,
  0 <= n < 10 ^ Z.of_nat fuel -> scan_number (print_digits fuel n acc) 0 = scan_number acc n.
Proof.
  induction fuel as [|fuel IH]; intros n acc Hn.
  { simpl in *. by replace n with 0 by lia. }
  pose proof (Z.mod_pos_bound n 10 ltac:(lia)). cbn [print_digits].
  assert (Hstep : forall a, scan_number (String (digit_char (n mod 10)) acc) a = scan_number acc (10 * a + n mod 10)).
  { intros a. cbn [scan_number]. by rewrite digit_digit_char by lia. }
  destruct (Z.ltb_spec n 10).
  - rewrite Hstep. f_equal. rewrite Z.mod_small by lia. lia.
  - rewrite IH, Hstep; [f_equal; pose proof (Z.div_mod n 10); lia|].
    replace (Z.of_nat (S fuel)) with (Z.of_nat fuel + 1) in Hn by lia.
    rewrite Z.pow_add_r in Hn by lia. split; [apply Z.div_pos; lia|]. apply Z.div_lt_upper_bound; lia.
Qed.
Lemma print_digits_app fuel : forall n acc s, print_digits fuel n acc ++ s = print_digits fuel n (acc ++ s).
Proof.
  induction fuel as [|fuel IH]; intros n acc s; simpl; [done|]. destruct (n <? 10); [done|]. by rewrite IH.
Qed.
Lemma scan_number_read n s : in_width 64 n -> stops s -> scan_number (print_u64 n ++ s) 0 = (n, s).
Proof.
  intros [H0 H1] Hs. unfold print_u64. rewrite print_digits_app, scan_number_print.
  - destruct s as [|c s]; simpl in *; [done|]. by rewrite Hs.
  - change (10 ^ Z.of_nat 20) with 100000000000000000000. lia.
Qed.

(** So a field of a line is determined by the line. *)
Lemma field_inj label n m s t :
  in_width 64 n -> in_width 64 m -> stops s -> stops t ->
  field label n ++ s = field label m ++ t -> n = m /\ s = t.
Proof.
  intros Hn Hm Hs Ht. unfold field. rewrite !app_assoc_s. intros E%app_cancel%(f_equal (fun x => scan_number x 0)).
  rewrite !scan_number_read in E by done. by injection E.
Qed.

(** Reading a quoted path back. *)
Fixpoint unescape (s : string) : string :=
  match s with
  | String c s' =>
      if Ascii.eqb c quote then EmptyString
      else if Ascii.eqb c backslash
      then match s' with String d s' => String d (unescape s') | EmptyString => EmptyString end
      else String c (unescape s')
  | EmptyString => EmptyString
  end.
Definition unquote (s : string) : string := match s with String _ s => unescape s | EmptyString => EmptyString end.
Lemma unescape_backslash c s : unescape (String backslash (String c s)) = String c (unescape s).
Proof. reflexivity. Qed.
Lemma unescape_escape s t : unescape (escape s ++ String quote t) = s.
Proof.
  induction s as [|c s IH]; [done|]. cbn [escape].
  destruct (Ascii.eqb_spec c quote) as [->|N1]; [cbn [orb]; by rewrite !append_cons, unescape_backslash, IH|].
  destruct (Ascii.eqb_spec c backslash) as [->|N2]; [cbn [orb]; by rewrite !append_cons, unescape_backslash, IH|].
  cbn [orb]. rewrite append_cons. cbn [unescape].
  rewrite (proj2 (Ascii.eqb_neq c quote)), (proj2 (Ascii.eqb_neq c backslash)) by done. by rewrite IH.
Qed.

(** Reading exactly [k] digits. *)
Fixpoint scan_fixed (k : nat) (s : string) (acc : Z) : Z * string :=
  match k, s with
  | S k, String c s => scan_fixed k s (10 * acc + default 0 (digit c))
  | _, _ => (acc, s)
  end.
Lemma scan_fixed_print k : forall j n acc, 0 <= n < 10 ^ Z.of_nat k ->
  scan_fixed (k + j) (print_padded k n acc) 0 = scan_fixed j acc n.
Proof.
  induction k as [|k IH]; intros j n acc Hn; simpl print_padded.
  { simpl in Hn. by replace n with 0 by lia. }
  pose proof (Z.mod_pos_bound n 10 ltac:(lia)). pose proof (Z.div_mod n 10 ltac:(lia)).
  rewrite Nat.add_succ_comm, IH.
  - cbn [scan_fixed]. rewrite digit_digit_char by lia. simpl default. f_equal. lia.
  - replace (Z.of_nat (S k)) with (Z.of_nat k + 1) in Hn by lia. rewrite Z.pow_add_r in Hn by lia.
    split; [apply Z.div_pos; lia|]. apply Z.div_lt_upper_bound; lia.
Qed.
Lemma print_padded_app k : forall n acc s, print_padded k n acc ++ s = print_padded k n (acc ++ s).
Proof. induction k as [|k IH]; intros n acc s; simpl; [done|]. by rewrite IH. Qed.
Lemma print_padded_inj k n m s t : 0 <= n < 10 ^ Z.of_nat k -> 0 <= m < 10 ^ Z.of_nat k ->
  print_padded k n EmptyString ++ s = print_padded k m EmptyString ++ t -> n = m /\ s = t.
Proof.
  intros Hn Hm E%(f_equal (fun x => scan_fixed (k + 0) x 0)).
  rewrite !print_padded_app, !append_nil, !scan_fixed_print in E by done. by injection E.
Qed.

(** A calendar time with a year of four digits; a minute may have a leap second. *)
Definition tm_ok (t : tm) : Prop :=
  0 <= 1900 + tm_year t < 10000 /\ 0 <= tm_mon t < 12 /\ 1 <= tm_mday t <= 31 /\
  0 <= tm_hour t < 24 /\ 0 <= tm_min t < 60 /\ 0 <= tm_sec t <= 60.

Lemma put_time_inj t u s s' : tm_ok t -> tm_ok u -> put_time t ++ s = put_time u ++ s' -> t = u.
Proof.
  intros (A1 & A2 & A3 & A4 & A5 & A6) (B1 & B2 & B3 & B4 & B5 & B6). unfold put_time, two_digits.
  rewrite !app_assoc_s. intros E.
  apply print_padded_inj in E as [E1 E]; [|simpl; lia..]. apply print_padded_inj in E as [E2 E]; [|simpl; lia..].
  apply print_padded_inj in E as [E3 E]; [|simpl; lia..]. apply app_cancel in E.
  apply print_padded_inj in E as [E4 E]; [|simpl; lia..]. apply print_padded_inj in E as [E5 E]; [|simpl; lia..].
  apply print_padded_inj in E as [E6 E]; [|simpl; lia..].
  destruct t, u; simpl in *. f_equal; lia.
Qed.

(** The price of [make_event] as text: quarters from 100 on. *)
Definition price_text (k : Z) : string :=
  print_u64 (100 + k / 4) ++
  (if k mod 4 =? 0 then EmptyString else if k mod 4 =? 1 then ".25" else if k mod 4 =? 2 then ".5" else ".75").
Lemma price_texts : forall k, 0 <= k < 100 ->
  print_price (wrap 64 (double_bits (double_add (round 100 1) (double_mul (double_of_u64 k) (round 1 4))))) = price_text k.
Proof.
  assert (H : Forall (fun k => print_price (wrap 64 (double_bits (double_add (round 100 1)
    (double_mul (double_of_u64 k) (round 1 4))))) = price_text k) (seqZ 0 100)).
  { apply (bool_decide_unpack _). vm_compute. exact I. }
  intros k Hk. apply (proj1 (Forall_forall _ _) H), list_elem_of_In, elem_of_seqZ. lia.
Qed.

(** ** Properties *)

(** The text of a record is faithful: the line that aether_replay prints for a record
    determines its offset and every field of its header, and paths are quoted so that they
    can be read back. *)
Theorem record_line_faithful (v w : WalRecordView) (p q : list Z) (path : string) :
  let fits (v : WalRecordView) := in_width 64 (rv_offset v) /\ in_width 64 (sequence (rv_header v)) /\
    in_width 64 (timestamp_ns (rv_header v)) /\ in_width 64 (payload_size (rv_header v)) /\
    in_width 64 (flags (rv_header v)) /\ in_width 64 (checksum (rv_header v)) in
  (fits v -> fits w -> record_line v p = record_line w q ->
   rv_offset v = rv_offset w /\ sequence (rv_header v) = sequence (rv_header w) /\
   timestamp_ns (rv_header v) = timestamp_ns (rv_header w) /\
   payload_size (rv_header v) = payload_size (rv_header w) /\
   flags (rv_header v) = flags (rv_header w) /\ checksum (rv_header v) = checksum (rv_header w)) /\
  unquote (quoted path) = path.
Proof.
  intros fits. split; [|apply unescape_escape].
  intros (A1 & A2 & A3 & A4 & A5 & A6) (B1 & B2 & B3 & B4 & B5 & B6) E. unfold record_line in E.
  do 6 (apply field_inj in E as [? E]; [|done..]). done.
Qed.

(** What aether_sub prints for the [i]-th event of aether_pub: its number, a price in
    quarters from 100 to 124.75, and a quantity from 1 to 1000. *)
Theorem event_line_text (padding : Z -> uint 32) (i : Z) (help : string) :
  report_text help (EventLine (make_event padding i)) =
    field "id=" (i ⊞ 1) ++ " price=" ++ price_text (i mod 100) ++ row " quantity=" (1 + i mod 1000).
Proof.
  unfold report_text, print_event, make_event. cbn [ev_id ev_price ev_quantity].
  assert (U : forall z, uval (to_u64 z) = wrap 64 z) by done. assert (V : forall z, uval (to_u32 z) = wrap 32 z) by done.
  rewrite !U, !V.
  pose proof (Z.mod_pos_bound i 100 ltac:(lia)). pose proof (Z.mod_pos_bound i 1000 ltac:(lia)).
  rewrite price_texts by done. rewrite (wrap_id 32 (i mod 1000)) by (split; lia).
  rewrite (wrap_id 32 (1 + _)) by (split; lia). rewrite (wrap_id 32 (1 + _)) by (split; lia).
  by rewrite (wrap_id 64 (i ⊞ 1)) by (by apply wrap_width).
Qed.

(** Runs of aether_bench that start in different seconds of the local time write to
    different files. *)
Theorem result_path_distinct (dir : string) (t u : tm) :
  tm_ok t -> tm_ok u -> result_path dir t = result_path dir u -> t = u.
Proof.
  intros Ht Hu. unfold result_path, path_join.
  assert (E : forall a : string, a ++ "cli-bench-" ++ put_time t ++ ".txt" = a ++ "cli-bench-" ++ put_time u ++ ".txt" -> t = u).
  { intros a H%app_cancel%app_cancel. by eapply put_time_inj. }
  destruct (rev (list_ascii_of_string dir)) as [|c l]; [exact (E EmptyString)|].
  destruct (is_slash c); [exact (E dir)|]. rewrite <- !app_assoc_s.
  rewrite !(app_assoc_s (dir ++ "/")). exact (E (dir ++ "/")).
Qed.
