(* ===== verification/Benchmarks.v ===== *)
(** * The benchmark programs

    benchmarks/: the transfer loops of bench_spsc_throughput.cpp, bench_payload_sizes.cpp
    and bench_spsc_latency.cpp, which are one program over different payloads, with the
    percentiles of the last one; and the iterations of bench_broker_end_to_end.cpp.  The
    harness (google-benchmark) is not modelled: a body returns the error it would pass to
    SkipWithError, or what it measured. *)

From Stdlib Require Import String.
From stdpp Require Import list numbers sorting.
From S2P Require Import Prelude Core Metrics Spsc SpscConcurrent TwoThreads Broker Histogram Utils StressSpsc.
From S2P Require Import Posix MmapFile WalFormat Wal WalRecovery PersistentBroker.
#[local] Open Scope Z_scope.
#[local] Open Scope list_scope.

(** ** The transfer loops *)

Module Transfer.
Section Transfer.
(** The payload type: its sequence number, how one is built (the clock reads [now]), and what
    the consumer records of one. *)
Context {T : Type} (sequence : T -> Z) (payload : Z -> Z -> T) (sample : Z -> T -> list Z).
Context (messages : Z).

(** The atomics.  Each is written by one thread and read after the joins. *)
Record shared : Set := mkShared {
  producer_retries : Z; consumer_retries : Z; order_valid : bool }.
Definition shared_init : shared := mkShared 0 0 true.

Inductive producer_at : Type := TpTest | TpPush (p : T) | TpRetry | TpDone.
Record producer : Type := mkProducer {
  tp_sequence : Z; tp_spin : ThreadUtils.SpinWait; tp_at : producer_at }.
Definition producer_init : producer := mkProducer 0 Stress.spin_init TpTest.

Definition producer_local (k : nat) (p : producer) (g : shared) : option (producer * shared) :=
  let goto at' := Some (mkProducer (tp_sequence p) (tp_spin p) at', g) in
  match tp_at p with
  | TpTest =>
      if tp_sequence p <? messages then goto (TpPush (payload (tp_sequence p) (wrap 64 (Z.of_nat k))))
      else goto TpDone
  | TpRetry =>
      Some (mkProducer (tp_sequence p) (ThreadUtils.wait (tp_spin p)).2 TpTest,
            mkShared (producer_retries g ⊞ 1) (consumer_retries g) (order_valid g))
  | TpPush _ | TpDone => None
  end.

Definition producer_code : thread_code shared T bool producer :=
  mkCode
    (fun p => match tp_at p with TpPush v => Some v | _ => None end)
    producer_local
    (fun pushed p =>
       if pushed : bool then mkProducer (tp_sequence p ⊞ 1) (ThreadUtils.reset (tp_spin p)) TpTest
       else mkProducer (tp_sequence p) (tp_spin p) TpRetry).

Inductive consumer_at : Type := TcTest | TcPop | TcCheck (p : T) | TcRetry | TcDone.
Record consumer : Type := mkConsumer {
  tc_expected : Z; tc_spin : ThreadUtils.SpinWait; tc_checksum : Z; tc_latencies : list Z;
  tc_at : consumer_at }.
Definition consumer_init : consumer := mkConsumer 0 Stress.spin_init 0 [] TcTest.

Definition consumer_local (k : nat) (c : consumer) (g : shared) : option (consumer * shared) :=
  let goto at' := Some (mkConsumer (tc_expected c) (tc_spin c) (tc_checksum c) (tc_latencies c) at', g) in
  match tc_at c with
  | TcTest => if tc_expected c <? messages then goto TcPop else goto TcDone
  | TcCheck p =>
      Some (mkConsumer (tc_expected c ⊞ 1) (ThreadUtils.reset (tc_spin c))
              (tc_checksum c ⊞ sequence p)
              (tc_latencies c ++ sample (wrap 64 (Z.of_nat k)) p) TcTest,
            mkShared (producer_retries g) (consumer_retries g)
              (if negb (sequence p =? tc_expected c) then false else order_valid g))
  | TcRetry =>
      Some (mkConsumer (tc_expected c) (ThreadUtils.wait (tc_spin c)).2 (tc_checksum c)
              (tc_latencies c) TcTest,
            mkShared (producer_retries g) (consumer_retries g ⊞ 1) (order_valid g))
  | TcPop | TcDone => None
  end.

Definition consumer_code : thread_code shared unit (option T) consumer :=
  mkCode
    (fun c => match tc_at c with TcPop => Some tt | _ => None end)
    consumer_local
    (fun popped c =>
       mkConsumer (tc_expected c) (tc_spin c) (tc_checksum c) (tc_latencies c)
         (match popped with Some p => TcCheck p | None => TcRetry end)).

Definition producer_done (p : producer) : bool := match tp_at p with TpDone => true | _ => false end.
Definition consumer_done (c : consumer) : bool := match tc_at c with TcDone => true | _ => false end.
End Transfer.
Arguments producer_at T : clear implicits.
Arguments producer T : clear implicits.
Arguments consumer_at T : clear implicits.
Arguments consumer T : clear implicits.

(** TransferStats, PayloadStats and LatencyStats. *)
Record Stats : Set := mkStats {
  checksum : Z; stat_producer_retries : Z; stat_consumer_retries : Z; stat_order_valid : bool }.
Definition stats_of {T} (r : program (T:=T) (G:=shared) (SP:=producer T) (SC:=consumer T)) : Stats :=
  mkStats (tc_checksum (pr_cons r)) (producer_retries (pr_shared r)) (consumer_retries (pr_shared r))
    (order_valid (pr_shared r)).

Definition transfer_run {T} (sequence : T -> Z) (payload : Z -> Z -> T) (sample : Z -> T -> list Z)
    (Capacity messages : Z) :=
  prun Capacity (producer_code payload messages) (consumer_code sequence sample messages)
    (start Capacity shared_init producer_init consumer_init).
Definition finished_run {T} (r : program (T:=T) (G:=shared) (SP:=producer T) (SC:=consumer T)) : bool :=
  producer_done (pr_prod r) && consumer_done (pr_cons r).

(** The payloads. *)
Definition ThroughputMessage : Set := Z.
Definition throughput_payload (seq now : Z) : ThroughputMessage := seq.

Record Payload : Set := mkPayload { pl_sequence : Z; pl_data : list byte }.
Definition sized_payload (Bytes seq now : Z) : Payload :=
  mkPayload seq (replicate (Z.to_nat (Bytes - 8)) Byte.x00).

Record TimestampedPayload : Set := mkTimestamped {
  ts_sequence : Z; ts_timestamp_ns : Z; ts_padding : list byte }.
Definition timestamped_payload (seq now : Z) : TimestampedPayload :=
  mkTimestamped seq now (replicate 48 Byte.x00).
Definition latency_sample (now : Z) (p : TimestampedPayload) : list Z := [now ⊟ ts_timestamp_ns p].

(** [run_transfer], [run_payload_transfer] and [run_latency_transfer]. *)
Definition run_transfer (Capacity messages : Z) :=
  transfer_run (T:=ThroughputMessage) id throughput_payload (fun _ _ => []) Capacity messages.
Definition run_payload_transfer (PayloadBytes Capacity messages : Z) :=
  transfer_run pl_sequence (sized_payload PayloadBytes) (fun _ _ => []) Capacity messages.
Definition run_latency_transfer (Capacity messages : Z) :=
  transfer_run ts_sequence timestamped_payload latency_sample Capacity messages.

(** [static_cast<std::size_t>(a)]; [None] where the conversion is undefined. *)
Definition trunc_to_size_t (a : double) : option Z :=
  match a with
  | Finite m e =>
      let c := m * pow2 e / pow2 (- e) in
      if (0 <=? c) && (c <=? u64_max) then Some c else None
  | _ => None
  end.

(** [percentile_ns]; [None] is undefined behaviour. *)
Definition percentile_ns (samples : list Z) (percentile : double) : option Z :=
  match samples with
  | [] => Some 0
  | _ =>
      index ← trunc_to_size_t (double_mul (double_div percentile (Finite 100 0))
                (double_of_u64 (Z.of_nat (length samples) - 1)));
      samples !! Z.to_nat index
  end.

(** What an iteration of the three benchmarks reports after its transfer: the error of
    SkipWithError, or the percentile counters p50, p95, p99, p999, min and max. *)
Definition throughput_iteration (stats : Stats) : option string :=
  if negb (stat_order_valid stats)
  then Some "SPSC throughput benchmark observed out-of-order messages"%string else None.
Definition payload_iteration (stats : Stats) : option string :=
  if negb (stat_order_valid stats)
  then Some "SPSC payload-size benchmark observed out-of-order messages"%string else None.
Definition latency_iteration (messages : Z) (stats : Stats) (latencies : list Z)
    : string + list (option Z) :=
  if negb (stat_order_valid stats) || negb (Z.of_nat (length latencies) =? messages)
  then inl "SPSC latency benchmark validation failed"%string
  else
    let sorted := merge_sort Z.le latencies in
    inr (map (percentile_ns sorted) [round 50 1; round 95 1; round 99 1; round 999 10] ++
         [head sorted; list.last sorted]).

(** *** Correctness *)

(** The sum of the first [n] sequence numbers. *)
Definition triangle (n : Z) : Z := n * (n - 1) / 2.

Lemma triangle_next n : triangle (n + 1) = triangle n + n.
Proof.
  unfold triangle. replace ((n + 1) * (n + 1 - 1)) with (n * (n - 1) + n * 2) by ring.
  by rewrite Z.div_add by lia.
Qed.

Section Correct.
Context {T : Type} (sequence : T -> Z) (payload : Z -> Z -> T) (sample : Z -> T -> list Z) (d : nat).
Context (SEQ : forall seq now, sequence (payload seq now) = seq).
Context (SMP : forall now p, length (sample now p) = d).
Context {Capacity : Z} {CAP : CapacityOk Capacity} (messages : Z) (MSG : in_width 64 messages).
Implicit Types (tr : list (event (T:=T))).
Abbreviation transfer := (program (T:=T) (G:=shared) (SP:=producer T) (SC:=consumer T)).
Abbreviation run := (transfer_run sequence payload sample Capacity messages).

(** Values received, including the one not compared yet. *)
Definition received (c : consumer T) : Z :=
  tc_expected c + match tc_at c with TcCheck _ => 1 | _ => 0 end.

Record transfer_inv tr (r : transfer) : Prop := {
  ti_sequence : 0 <= tp_sequence (pr_prod r) <= messages;
  ti_pushes : map sequence (pushes tr) = seqZ 0 (tp_sequence (pr_prod r));
  ti_prod : match tp_at (pr_prod r) with
            | TpPush v => tp_sequence (pr_prod r) < messages /\ sequence v = tp_sequence (pr_prod r)
            | TpDone => tp_sequence (pr_prod r) = messages
            | _ => True end;
  ti_expected : 0 <= tc_expected (pr_cons r) <= messages;
  ti_pops : map sequence (pops tr) = seqZ 0 (received (pr_cons r));
  ti_cons : match tc_at (pr_cons r) with
            | TcPop => tc_expected (pr_cons r) < messages
            | TcCheck v => sequence v = tc_expected (pr_cons r) /\ sequence v < messages
            | TcDone => tc_expected (pr_cons r) = messages
            | _ => True end;
  ti_checksum : tc_checksum (pr_cons r) = wrap 64 (triangle (tc_expected (pr_cons r)));
  ti_latencies : Z.of_nat (length (tc_latencies (pr_cons r))) = Z.of_nat d * tc_expected (pr_cons r);
  ti_order : order_valid (pr_shared r) = true;
  ti_full : producer_retries (pr_shared r) =
    wrap 64 (Z.of_nat (fulls tr) - match tp_at (pr_prod r) with TpRetry => 1 | _ => 0 end);
  ti_empty : consumer_retries (pr_shared r) =
    wrap 64 (Z.of_nat (empties tr) - match tc_at (pr_cons r) with TcRetry => 1 | _ => 0 end) }.

Lemma transfer_inv_init : transfer_inv [] (start Capacity shared_init producer_init consumer_init).
Proof. destruct MSG. by split; simpl; try lia. Qed.

Lemma transfer_inv_producer tr r k p g :
  transfer_inv tr r -> producer_local payload messages k (pr_prod r) (pr_shared r) = Some (p, g) ->
  transfer_inv tr (mkProgram (pr_queue r) g p (pr_cons r)).
Proof.
  destruct r as [q sh [v sp at'] c]. intros []. unfold producer_local. simpl in *.
  destruct at'; try done.
  - destruct (Z.ltb_spec v messages); intros [= <- <-]; split; simpl in *; try done. lia.
  - intros [= <- <-]. split; simpl in *; try done.
    rewrite ti_full0, wrap_wrap_add_l. f_equal. lia.
Qed.

Lemma transfer_inv_consumer tr r k c g :
  transfer_inv tr r -> consumer_local sequence sample messages k (pr_cons r) (pr_shared r) = Some (c, g) ->
  transfer_inv tr (mkProgram (pr_queue r) g (pr_prod r) c).
Proof.
  destruct r as [q sh p [v sp ck lat at']]. intros []. unfold consumer_local, received in *. simpl in *.
  destruct at' as [| |x| |]; try done.
  - destruct (Z.ltb_spec v messages); intros [= <- <-]; split; unfold received; simpl in *; try done. lia.
  - destruct ti_cons0 as [E ?]. rewrite E, Z.eqb_refl. simpl.
    rewrite (wrap_id 64 (v + 1)) by (destruct MSG; split; lia).
    intros [= <- <-]. split; unfold received; simpl in *; try done; try lia.
    + by rewrite Z.add_0_r.
    + rewrite ti_checksum0, wrap_wrap_add_l. by rewrite triangle_next.
    + rewrite length_app, SMP. lia.
  - intros [= <- <-]. split; unfold received; simpl in *; try done.
    rewrite ti_empty0, wrap_wrap_add_l. f_equal. lia.
Qed.

Lemma transfer_inv_event tr r e r' l :
  transfer_inv tr r ->
  turn_spec (producer_code payload messages) (consumer_code sequence sample messages) r e r' ->
  pushes (tr ++ events e) = pops (tr ++ events e) ++ l -> transfer_inv (tr ++ events e) r'.
Proof.
  intros I Ht. destruct Ht as [k p g _ Hl|v q Hc|v q Hc|v q Hc|k c g _ Hl|q Hc|v q Hc|q Hc];
    simpl; rewrite ?app_nil_r, ?pushes_snoc, ?pops_snoc; simpl; intros Hfifo.
  - exact (transfer_inv_producer _ _ _ _ _ I Hl).
  - by destruct I.
  - destruct r as [q0 sh [n sp at'] c], I; simpl in *. destruct at'; try done. injection Hc as <-.
    destruct ti_prod0 as [? Hv]. rewrite (wrap_id 64 (n + 1)) by (destruct MSG; split; lia).
    split; simpl; trace_simpl; try done; try lia.
    by rewrite map_app, ti_pushes0, seqZ_snoc, <- Hv by lia.
  - destruct r as [q0 sh [n sp at'] c], I; simpl in *. destruct at'; try done. injection Hc as <-.
    split; simpl; trace_simpl; try done; try lia.
    rewrite ti_full0. f_equal. lia.
  - exact (transfer_inv_consumer _ _ _ _ _ I Hl).
  - by destruct I.
  - destruct r as [q0 sh p [n sp ck lat at']], I; unfold received in *; simpl in *. destruct at'; try done.
    assert (sequence v = n) as Hv.
    { apply (f_equal (map sequence)) in Hfifo. rewrite app_nil_r, !map_app, ti_pushes0, ti_pops0 in Hfifo.
      rewrite Z.add_0_r in Hfifo. by apply Stress.seqZ_next in Hfifo; [|lia..]. }
    split; unfold received; simpl; trace_simpl; try done; try lia.
    by rewrite map_app, ti_pops0, Z.add_0_r, seqZ_snoc, <- Hv by lia.
  - destruct r as [q0 sh p [n sp ck lat at']], I; unfold received in *; simpl in *. destruct at'; try done.
    split; unfold received; simpl; trace_simpl; try done; try lia.
    rewrite ti_empty0. f_equal. lia.
Qed.

Lemma transfer_run_inv tr r : run tr r -> transfer_inv tr r.
Proof. apply (prun_invariant _ _ _ _ _ _ transfer_inv transfer_inv_init transfer_inv_event). Qed.

Lemma transfer_finished tr r :
  run tr r -> finished_run r = true ->
  stats_of r = mkStats (wrap 64 (triangle messages)) (wrap 64 (Z.of_nat (fulls tr)))
    (wrap 64 (Z.of_nat (empties tr))) true /\
  Z.of_nat (length (tc_latencies (pr_cons r))) = Z.of_nat d * messages.
Proof.
  intros []%transfer_run_inv. unfold finished_run, producer_done, consumer_done, stats_of.
  destruct r as [q sh [v sp []] [n cp ck lat []]]; try done. intros _. simpl in *. subst.
  rewrite Z.sub_0_r in *. by rewrite ti_order0, ti_full0, ti_empty0.
Qed.

#[export] Instance transfer_loops :
  CountingLoops (Capacity:=Capacity) (P:=producer_code payload messages)
    (K:=consumer_code sequence sample messages)
    (g0:=shared_init) (p0:=producer_init) (c0:=consumer_init) (Z.to_nat messages)
    (fun p => Z.to_nat (messages - tp_sequence p))
    (fun p => match tp_at p with TpRetry => 2 | TpTest => 1 | _ => 0 end)%nat producer_done
    (fun c => Z.to_nat (messages - received c))
    (fun c => match tc_at c with TcRetry | TcCheck _ => 2 | TcTest => 1 | _ => 0 end)%nat consumer_done.
Proof.
  split; intros tr r []%transfer_run_inv; destruct r as [q sh [v sp at1] [n cp ck lat at2]];
    unfold received, producer_done, consumer_done in *; simpl in *.
  - apply (f_equal length) in ti_pushes0, ti_pops0. rewrite length_map, length_seqZ in *.
    destruct at2; lia.
  - intros Hc Hd. unfold producer_local. simpl. exists 0%nat. destruct at1; try done.
    + destruct (v <? messages); eexists _, _; (split; [done|simpl; lia]).
    + eexists _, _; split; [done|simpl; lia].
  - intros Hc Hd. unfold consumer_local. simpl. exists 0%nat. destruct at2 as [| |w| |]; try done.
    + destruct (n <? messages); eexists _, _; (split; [done|simpl; lia]).
    + eexists _, _. split; [done|simpl; lia].
    + eexists _, _. split; [done|simpl; lia].
  - intros Hd. destruct at1; try done. lia.
  - intros Hd. destruct at2; try done. lia.
  - intros [x Hx]. destruct at2; try done. lia.
Qed.
End Correct.

(** *** Percentiles of the latency benchmark *)

Lemma trunc_spec m e n :
  e <= 0 -> 0 <= m -> m <= n * 2 ^ (- e) -> in_width 64 n ->
  exists c, trunc_to_size_t (Finite m e) = Some c /\ 0 <= c <= n.
Proof.
  intros He Hm Hn [Hn0 Hn1]. unfold trunc_to_size_t.
  assert (E1 : pow2 e = 1) by (unfold pow2; by replace (Z.max e 0) with 0 by lia).
  assert (E2 : pow2 (- e) = 2 ^ (- e)) by (unfold pow2; f_equal; lia).
  rewrite E1, E2, Z.mul_1_r. assert (Hp : 0 < 2 ^ (- e)) by (apply Z.pow_pos_nonneg; lia).
  assert (Hc : 0 <= m / 2 ^ (- e) <= n).
  { split; [by apply Z.div_pos|]. apply Z.div_le_upper_bound; lia. }
  eexists. split; [|exact Hc]. unfold u64_max.
  destruct (Z.leb_spec 0 (m / 2 ^ (- e))); [|lia]. by destruct (Z.leb_spec (m / 2 ^ (- e)) (2 ^ 64 - 1)); [|lia].
Qed.

(** The index stays inside the array. *)
Lemma percentile_ns_defined samples mp ep :
  double_le_int (Finite mp ep) 0 = false -> double_ge_int (Finite mp ep) 100 = false ->
  Z.of_nat (length samples) <= 2 ^ 53 -> is_Some (percentile_ns samples (Finite mp ep)).
Proof.
  intros H0 H1 Hn. unfold percentile_ns. destruct samples as [|x xs]; [by eexists|].
  set (l := x :: xs) in *. assert (Hl : (0 < length l)%nat) by (simpl; lia).
  assert (G : exists c, trunc_to_size_t (double_mul (double_div (Finite mp ep) (Finite 100 0))
    (double_of_u64 (Z.of_nat (length l) - 1))) = Some c /\ 0 <= c <= Z.of_nat (length l) - 1).
  { destruct (decide (Z.of_nat (length l) = 1)) as [E|E].
    - rewrite E. change (double_of_u64 (1 - 1)) with (Finite 0 0). simpl double_div.
      destruct (round _ _) as [m e| |] eqn:R;
        [|unfold round in R; by destruct (_ =? 0)|unfold round in R; by destruct (_ =? 0)].
      simpl. rewrite Z.mul_0_r, Z.mul_0_l. change (round 0 _) with (Finite 0 0). exists 0. split; [done|lia].
    - destruct (percentile_product mp ep (Z.of_nat (length l) - 1) H0 H1) as (m & e & -> & ? & ? & ?); [lia|].
      apply trunc_spec; try done. split; lia. }
  destruct G as (c & -> & Hc). simpl. apply lookup_lt_is_Some. lia.
Qed.

(** The counters of a finished latency transfer are all defined. *)
Lemma latency_iteration_defined messages stats latencies :
  stat_order_valid stats = true -> Z.of_nat (length latencies) = messages -> 0 < messages <= 2 ^ 53 ->
  exists counters, latency_iteration messages stats latencies = inr counters /\ Forall is_Some counters.
Proof.
  intros Ho Hlen Hm. unfold latency_iteration. rewrite Ho, Hlen, Z.eqb_refl. simpl negb. simpl orb.
  eexists. split; [reflexivity|].
  pose proof (merge_sort_Permutation Z.le latencies) as HP%Permutation_length.
  set (sorted := merge_sort Z.le latencies) in *.
  assert (HP' : Z.of_nat (length sorted) <= 2 ^ 53) by lia.
  repeat constructor; try (by apply percentile_ns_defined; [reflexivity|reflexivity|]).
  - destruct sorted; [simpl in *; lia|]. by eexists.
  - apply last_is_Some. intros E. rewrite E in HP. simpl in HP. lia.
Qed.
End Transfer.

(** ** bench_broker_end_to_end.cpp *)

Module EndToEnd.
Section EndToEnd.
(** [Payload64], built from its sequence number. *)
Context {T : Type} `{TriviallyCopyable T} (Payload64 : Z -> T) (Capacity : Z).

(** The loop of [benchmark_in_memory]: [messages] round trips from [sequence] on, and the
    status of the first call that fails. *)
Fixpoint memory_loop (messages : nat) (sequence : Z) (broker : BrokerState (SpscRingBuffer T))
    : option (option Status * BrokerState (SpscRingBuffer T)) :=
  match messages with
  | O => Some (None, broker)
  | S messages =>
      '(pub, broker) ← Broker.try_publish (Capacity:=Capacity) (Payload64 sequence) broker;
      if negb (is_ok pub) then Some (Some pub, broker)
      else
        '(con, _, broker) ← Broker.try_consume (Capacity:=Capacity) broker;
        if negb (is_ok con) then Some (Some con, broker)
        else memory_loop messages (sequence ⊞ 1) broker
  end.

(** One iteration of [benchmark_in_memory]. *)
Definition memory_iteration : option (option Status * BrokerMetricsSnapshot) :=
  '(error, broker) ← memory_loop 1024 0 (Broker.init (Capacity:=Capacity));
  Some (error, Broker.metrics_snapshot broker).

Context {W : Type} `{Posix W}.
(** std::filesystem::remove, which throws ([None]) when it fails. *)
Context (remove : string -> W -> option W).

Local Abbreviation pbroker := (PersistentBrokerState (SpscRingBuffer T)).

Fixpoint wal_loop (messages : nat) (sequence : Z) (broker : pbroker) (w : W)
    : option (option Status * pbroker * W) :=
  match messages with
  | O => Some (None, broker, w)
  | S messages =>
      '(pub, broker, w) ← PersistentBroker.try_publish (Capacity:=Capacity) (Payload64 sequence) 0 broker w;
      if negb (is_ok pub) then Some (Some pub, broker, w)
      else
        '(con, _, broker) ← PersistentBroker.try_consume (T:=T) (Capacity:=Capacity) broker;
        if negb (is_ok con) then Some (Some con, broker, w)
        else wal_loop messages (sequence ⊞ 1) broker w
  end.

(** What an iteration of [benchmark_wal] comes to: an exception, a broker that did not
    open, or the error of the loop, if any, with the metrics. *)
Inductive wal_result : Type :=
  | Thrown
  | NotOpen (open_status : Status)
  | Measured (error : option Status) (metrics : BrokerMetricsSnapshot).

Definition wal_iteration (path : string) (w : W) : option (wal_result * W) :=
  match remove path w with
  | None => Some (Thrown, w)
  | Some w =>
      let config := mkWalConfig path (256 * 1024 * 1024) false in
      let '(broker, w) := PersistentBroker.of_wal_config (T:=T) (Capacity:=Capacity) config w in
      if negb (PersistentBroker.valid broker)
      then Some (NotOpen (pb_open_status broker), PersistentBroker.destroy broker w)
      else
        '(error, broker, w) ← wal_loop 1024 0 broker w;
        let metrics := PersistentBroker.metrics_snapshot broker in
        match remove path w with
        | None => Some (Thrown, PersistentBroker.destroy broker w)
        | Some w => Some (Measured error metrics, PersistentBroker.destroy broker w)
        end
  end.
End EndToEnd.

Section Proofs.
Context {T : Type} `{TriviallyCopyable T} (Payload64 : Z -> T).
Context {Capacity : Z} {CAP : CapacityOk Capacity} {W : Type} `{PosixLaws W}.
Implicit Types (pb : PersistentBrokerState (SpscRingBuffer T)) (w : W).

Definition trip_counts (c : BrokerCounters) : BrokerCounters :=
  record_consumed (record_published (record_wal_write (40 + sizeof_T (T:=T)) c)).

Lemma wal_loop_spec n : forall seq pb w log tail,
  pb_rep Capacity pb w [] log tail -> ww_flush_on_append (pb_writer pb) = false ->
  (n * (40 + Z.to_nat (sizeof_T (T:=T))) <= length tail)%nat ->
  exists pb' w', wal_loop Payload64 Capacity n seq pb w = Some (None, pb', w') /\
    pb_counters pb' = Nat.iter n trip_counts (pb_counters pb).
Proof.
  induction n as [|n IH]; intros seq pb w log tail R Hfl Hlen; cbn [wal_loop].
  { by exists pb, w. }
  pose proof (capacity_ge2 (Capacity:=Capacity)).
  assert (Hw : in_width 32 0) by (split; lia).
  pose proof (pb_publish_spec (Payload64 seq) 0 pb w [] log tail Hw R) as P.
  destruct (Z.leb_spec Capacity (Z.of_nat (length (@nil T)))); [simpl in *; lia|].
  destruct (Nat.ltb_spec (length tail) (40 + Z.to_nat (sizeof_T (T:=T)))); [lia|].
  destruct P as (st & pb1 & w1 & -> & ts & He & _ & Hfl1 & P). simpl.
  destruct (is_ok st) eqn:E; [|destruct P as (_ & Hx & _); congruence]. destruct P as [R1 Hc1]. simpl.
  destruct (pb_consume_spec pb1 w1 _ _ _ R1) as (st2 & pb2 & -> & R2 & Hw2 & Hst2 & Hc2). simpl in *.
  rewrite (proj2 (is_ok_true st2) Hst2). simpl.
  destruct (IH (seq ⊞ 1) pb2 w1 _ _ R2) as (pb' & w' & E' & Hc').
  - by rewrite Hw2, Hfl1.
  - rewrite length_drop. unfold entry_size. cbn [message_entry snd mv_payload pb_message].
    pose proof (object_payload_size (Payload64 seq)) as Hs. unfold span_size in Hs. lia.
  - exists pb', w'. split; [done|]. rewrite Hc', Hc2, Hc1.
    exact (eq_sym (Nat.iter_succ_r n trip_counts (pb_counters pb))).
Qed.

(** [open] stores the status it returns. *)
Lemma open_status_stored config w :
  let '(st, pb, _) := PersistentBroker.open (T:=T) (Capacity:=Capacity) config
    (PersistentBroker.init (T:=T) (Capacity:=Capacity)) w in pb_open_status pb = st.
Proof.
  unfold PersistentBroker.open, PersistentBroker.assign_writer.
  repeat first [done | case_match]; simplify_eq; done.
Qed.

Lemma memory_loop_spec n : forall seq b,
  broker_rep Capacity b [] ->
  exists b', memory_loop Payload64 Capacity n seq b = Some (None, b') /\
    counters_ b' = Nat.iter n (fun c => record_consumed (record_published c)) (counters_ b).
Proof.
  induction n as [|n IH]; intros seq b R; cbn [memory_loop]; [by exists b|].
  pose proof (capacity_ge2 (Capacity:=Capacity)).
  destruct (try_publish_spec (Payload64 seq) b [] R) as (b1 & E1 & R1 & _ & C1).
  assert (Hp : Fifo.push Capacity (Payload64 seq) [] = (true, [Payload64 seq])).
  { destruct (Fifo_push_cases (Capacity:=Capacity) (Payload64 seq) []) as [[_ E]|[? _]]; [done|simpl in *; lia]. }
  rewrite Hp in *. rewrite E1. simpl.
  destruct (try_consume_spec b1 _ R1) as (b2 & -> & R2 & _ & C2). simpl in *.
  destruct (IH (seq ⊞ 1) b2 R2) as (b' & E' & C'). exists b'. split; [done|].
  rewrite C', C2, C1.
  exact (eq_sym (Nat.iter_succ_r n (fun c => record_consumed (record_published c)) (counters_ b))).
Qed.
End Proofs.
End EndToEnd.

(** ** Properties *)

(** C39. The transfer benchmarks validate.  For every payload type whose objects carry the
    sequence number they are built with, every capacity and every number of messages: no
    step of either thread is undefined in any interleaving; the transfer can always
    still finish; and when it has, [order_valid] holds, the checksum is the sum of
    the sequence numbers modulo 2^64, the retry counters count exactly the calls that
    found the queue full or empty, and one sample per message has been recorded: the
    errors of SkipWithError are never reached. *)
Theorem transfer_benchmarks_valid (T : Type) (sequence : T -> Z) (payload : Z -> Z -> T)
    (sample : Z -> T -> list Z) (d : nat) (Capacity : Z) (CAP : CapacityOk Capacity) (messages : Z)
    (tr : list (event (T:=T))) r :
  (forall seq now, sequence (payload seq now) = seq) -> (forall now p, length (sample now p) = d) ->
  in_width 64 messages -> Transfer.transfer_run sequence payload sample Capacity messages tr r ->
  (forall t, do_turn Capacity (Transfer.producer_code payload messages)
     (Transfer.consumer_code sequence sample messages) t r <> PUndefined) /\
  (exists ts tr' r', run_turns Capacity (Transfer.producer_code payload messages)
     (Transfer.consumer_code sequence sample messages) ts tr r = Some (tr', r') /\
     Transfer.finished_run r' = true) /\
  (Transfer.finished_run r = true ->
   Transfer.stats_of r = Transfer.mkStats (wrap 64 (Transfer.triangle messages))
     (wrap 64 (Z.of_nat (fulls tr))) (wrap 64 (Z.of_nat (empties tr))) true /\
   Z.of_nat (length (Transfer.tc_latencies (pr_cons r))) = Z.of_nat d * messages /\
   Transfer.throughput_iteration (Transfer.stats_of r) = None /\
   Transfer.payload_iteration (Transfer.stats_of r) = None /\
   (d = 1%nat -> 0 < messages <= 2 ^ 53 -> exists counters,
      Transfer.latency_iteration messages (Transfer.stats_of r)
        (Transfer.tc_latencies (pr_cons r)) = inr counters /\ Forall is_Some counters)).
Proof.
  intros SEQ SMP MSG Hr. split_and!.
  - intros t. exact (do_turn_defined _ _ _ _ _ _ _ _ t Hr).
  - exact (loops_complete (LOOPS:=Transfer.transfer_loops sequence payload sample d SEQ SMP messages MSG)
      tr r Hr).
  - intros Hf. destruct (Transfer.transfer_finished sequence payload sample d SEQ SMP messages MSG tr r Hr Hf)
      as [E L]. rewrite E. split_and!; try done.
    intros -> Hm. apply Transfer.latency_iteration_defined; [done|lia|done].
Qed.

Definition latency_turns : list turn :=
  [TurnP 5; TurnP 0; TurnP 0; TurnP 0; TurnP 0; TurnP 0; TurnP 0; TurnP 0;
   TurnC 0; TurnC 0; TurnC 0; TurnC 1; TurnC 0; TurnC 0; TurnC 0; TurnC 0; TurnC 12; TurnC 0]%nat.
Definition latency_start :=
  start (T:=Transfer.TimestampedPayload) 2 Transfer.shared_init
    (Transfer.producer_init (T:=Transfer.TimestampedPayload))
    (Transfer.consumer_init (T:=Transfer.TimestampedPayload)).
Definition latency_end := default ([], latency_start)
  (run_turns 2 (Transfer.producer_code Transfer.timestamped_payload 1)
     (Transfer.consumer_code Transfer.ts_sequence Transfer.latency_sample 1) latency_turns [] latency_start).

Lemma sample_latency_run : Transfer.run_latency_transfer 2 1 latency_end.1 latency_end.2.
Proof.
  apply (run_turns_prun _ _ _ _ latency_turns [] latency_start); [constructor|]. vm_compute. reflexivity.
Qed.

Lemma transfer_benchmarks_valid_witness :
  Transfer.finished_run latency_end.2 = true /\
  Transfer.tc_latencies (pr_cons latency_end.2) = [7] /\
  exists counters, Transfer.latency_iteration 1 (Transfer.stats_of latency_end.2)
    (Transfer.tc_latencies (pr_cons latency_end.2)) = inr counters /\ Forall is_Some counters.
Proof.
  split; [vm_compute; reflexivity|]. split; [vm_compute; reflexivity|].
  refine (proj2 (proj2 (proj2 (proj2 (proj2 (proj2 (transfer_benchmarks_valid Transfer.TimestampedPayload
    Transfer.ts_sequence Transfer.timestamped_payload Transfer.latency_sample 1 2 CapacityOk_2 1
    latency_end.1 latency_end.2 _ _ _ sample_latency_run)) _)))) _ _).
  - reflexivity.
  - reflexivity.
  - vm_compute. split; [discriminate|reflexivity].
  - vm_compute. reflexivity.
  - reflexivity.
  - lia.
Defined.

(** The end-to-end benchmarks measure what they say: an in-memory iteration makes exactly
    1024 round trips; a logged one fails only where the file system or the opening of
    the log does, and otherwise writes exactly 1024 records of 104 bytes, all of which fit the
    file: its loop never stops early. *)
Theorem end_to_end_exact (T : Type) (TC : TriviallyCopyable T) (Payload64 : Z -> T) (Capacity : Z)
    (CAP : CapacityOk Capacity) (W : Type) (P : Posix W) (L : PosixLaws W)
    (remove : string -> W -> option W) (path : string) (w : W) :
  sizeof_T (T:=T) = 64 ->
  EndToEnd.memory_iteration Payload64 Capacity =
    Some (None, mkSnapshot 1024 1024 0 0 0 0 0 0 0 0 0 0) /\
  exists result w', EndToEnd.wal_iteration Payload64 Capacity remove path w = Some (result, w') /\
    match result with
    | EndToEnd.Thrown => True
    | EndToEnd.NotOpen st => is_ok st = false
    | EndToEnd.Measured error metrics =>
        error = None /\ metrics = mkSnapshot 1024 1024 0 0 0 0 (1024 * 104) 1024 0 0 0 0
    end.
Proof.
  intros Hs. split.
  - unfold EndToEnd.memory_iteration.
    destruct (EndToEnd.memory_loop_spec Payload64 1024 0 _ (broker_init_rep (Capacity:=Capacity)))
      as (b' & -> & Hc). simpl. unfold Broker.metrics_snapshot. rewrite Hc. vm_compute. reflexivity.
  - unfold EndToEnd.wal_iteration. destruct (remove path w) as [w0|]; [|by eexists _, _].
    unfold PersistentBroker.of_wal_config, PersistentBroker.open_wal.
    set (config := mkBrokerConfig _ _ true).
    assert (Hn : in_width 64 (wc_file_size_bytes (bc_wal config))) by (vm_compute; split; discriminate || reflexivity).
    pose proof (pb_open_spec (Q:=SpscRingBuffer T) (T:=T) (Capacity:=Capacity) config w0 Hn) as O.
    pose proof (EndToEnd.open_status_stored (T:=T) (Capacity:=Capacity) config w0) as Hst.
    destruct (PersistentBroker.open config _ w0) as [[st pb] w1]. simpl in Hst.
    destruct (is_ok st) eqn:E.
    + destruct O as (R & _ & Hfl & Hc0). rewrite (pb_rep_valid _ _ _ _ _ R). cbn [negb].
      destruct (EndToEnd.wal_loop_spec Payload64 1024 0 pb w1 _ _ R Hfl) as (pb' & w' & -> & Hc).
      { rewrite length_replicate, Hs. apply Nat2Z.inj_le.
        rewrite Z2Nat.id by (vm_compute; discriminate). vm_compute. discriminate. }
      simpl. destruct (remove path w'); [|by eexists _, _]. eexists _, _. split; [reflexivity|].
      split; [done|]. unfold PersistentBroker.metrics_snapshot. rewrite Hc, Hc0.
      unfold EndToEnd.trip_counts. rewrite Hs. vm_compute. reflexivity.
    + destruct O as [Hv _]. rewrite Hv. cbn [negb]. eexists _, _. split; [reflexivity|]. by rewrite Hst.
Qed.
