(* ===== verification/MicroBenchmarks.v ===== *)
(** * The single-threaded benchmarks

    benchmarks/: bench_batch_publish.cpp, bench_zero_copy_spsc.cpp and
    bench_spin_wait.cpp.  A benchmark that makes its objects anew for each iteration of
    the harness is modelled by one iteration; the others by any number of them.  The
    result holds the error passed to SkipWithError, if any, and the number of items
    processed. *)

From Stdlib Require Import String.
From S2P Require Import Prelude Core Metrics Spsc ZeroCopy Broker Utils.
#[local] Open Scope string_scope.
#[local] Open Scope list_scope.
#[local] Open Scope Z_scope.

(** ** Operations *)

Module Micro.
Section Micro.
(** [Payload64{sequence, timestamp_ns}]. *)
Context {T : Type} (Payload64 : Z -> Z -> T) (Capacity : Z).

(** The loop of [broker_single] from [i] on. *)
Fixpoint single_loop (messages : nat) (i processed : Z) (broker : BrokerState (SpscRingBuffer T))
    : option (option string * Z) :=
  match messages with
  | O => Some (None, processed)
  | S messages =>
      '(pub, broker) ← Broker.try_publish (Capacity:=Capacity) (Payload64 i i) broker;
      if negb (is_ok pub) then Some (Some "publish failed", processed)
      else
        '(con, _, broker) ← Broker.try_consume (Capacity:=Capacity) broker;
        if negb (is_ok con) then Some (Some "consume failed", processed)
        else single_loop messages (i ⊞ 1) (processed ⊞ 1) broker
  end.
Definition broker_single (processed : Z) : option (option string * Z) :=
  single_loop 1024 0 processed (Broker.init (Capacity:=Capacity)).

(** The messages of a batch. *)
Definition fill (BatchSize : nat) (batch : Z) : list T :=
  map (fun i => Payload64 (wrap 64 (batch * Z.of_nat BatchSize + Z.of_nat i)) batch) (seq 0 BatchSize).

(** The loop of [batch_broker]; [out] is the array the batches are consumed into. *)
Fixpoint batch_loop (BatchSize batches : nat) (batch : Z) (out : list T) (processed : Z)
    (broker : BrokerState (SpscRingBuffer T)) : option (option string * list T * Z) :=
  match batches with
  | O => Some (None, out, processed)
  | S batches =>
      '(published, broker) ← BatchBroker.try_publish_batch (Capacity:=Capacity) (fill BatchSize batch) broker;
      if negb (published =? Z.of_nat BatchSize) then Some (Some "batch publish failed", out, processed)
      else
        '(consumed, out, broker) ← BatchBroker.try_consume_batch (Capacity:=Capacity) out broker;
        if negb (consumed =? Z.of_nat BatchSize) then Some (Some "batch consume failed", out, processed)
        else batch_loop BatchSize batches (batch ⊞ 1) out (processed ⊞ Z.of_nat BatchSize) broker
  end.
Definition batch_broker (BatchSize : nat) (out : list T) (processed : Z) :=
  batch_loop BatchSize (1024 / BatchSize) 0 out processed (BatchBroker.init (Capacity:=Capacity)).

(** [spsc_emplace], the queue living through all iterations. *)
Fixpoint spsc_emplace (iterations : nat) (processed : Z) (queue : SpscRingBuffer T)
    : option (option string * Z * SpscRingBuffer T) :=
  match iterations with
  | O => Some (None, processed, queue)
  | S iterations =>
      '(emplaced, queue) ← try_emplace Capacity id (Payload64 processed processed) queue;
      if negb emplaced then Some (Some "emplace failed", processed, queue)
      else
        '(out, queue) ← try_pop Capacity queue;
        match out with
        | None => Some (Some "pop failed", processed, queue)
        | Some _ => spsc_emplace iterations (processed ⊞ 1) queue
        end
  end.

(** [zero_copy]; the reservation of an iteration is destroyed where its scope ends. *)
Fixpoint zero_copy (iterations : nat) (processed : Z) (queue : ZeroCopySpsc T)
    : option (option string * Z * ZeroCopySpsc T) :=
  match iterations with
  | O => Some (None, processed, queue)
  | S iterations =>
      match ZeroCopy.try_reserve Capacity queue with
      | (None, queue) => Some (Some "reserve failed", processed, queue)
      | (Some reservation, queue) =>
          '(reservation, queue) ←
            ZeroCopy.construct (fun p => Payload64 p p) processed reservation queue;
          let '(committed, reservation, queue) := ZeroCopy.commit reservation queue in
          if negb committed then
            '(_, queue) ← ZeroCopy.cancel reservation queue;
            Some (Some "commit failed", processed, queue)
          else
            '(out, queue) ← ZeroCopy.try_consume Capacity queue;
            '(_, queue) ← ZeroCopy.cancel reservation queue;
            match out with
            | None => Some (Some "consume failed", processed, queue)
            | Some _ => zero_copy iterations (processed ⊞ 1) queue
            end
      end
  end.
End Micro.

(** bench_spin_wait.cpp: the actions of [iterations] iterations, and the count that an
    iteration reads last. *)
Definition BM_CpuRelax (iterations : nat) : list action := replicate iterations CpuRelax.
Definition BM_ThreadYield (iterations : nat) : list action := replicate iterations ThreadYield.
Definition BM_SpinWaitPause (iterations : nat) : list action * Z :=
  let '(actions, wait) := SpinWait.pauses iterations (SpinWait.init 1024 false) in
  (actions, SpinWait.count wait).
(** One iteration. *)
Definition BM_SpinWaitBackoff : list action * Z :=
  let '(actions, wait) := SpinWait.pauses 8 (SpinWait.init 4 true) in
  (actions, SpinWait.count wait).
End Micro.

(** ** Facts *)

Section Proofs.
Context {T : Type} (Payload64 : Z -> Z -> T) {Capacity : Z} {CAP : CapacityOk Capacity}.

(** A counter that has been incremented [n] times. *)
Lemma add_add_wrap a b c : (a ⊞ b) ⊞ c = a ⊞ (b + c).
Proof. rewrite wrap_wrap_add_l. f_equal. lia. Qed.

Lemma single_loop_spec n : forall i processed b,
  broker_rep Capacity b [] -> in_width 64 processed ->
  Micro.single_loop Payload64 Capacity n i processed b = Some (None, processed ⊞ Z.of_nat n).
Proof.
  induction n as [|n IH]; intros i processed b R Hp; cbn [Micro.single_loop].
  { by rewrite add_zero_width. }
  pose proof (capacity_ge2 (Capacity:=Capacity)).
  destruct (try_publish_spec (Payload64 i i) b [] R) as (b1 & E1 & R1 & _).
  assert (Hpush : Fifo.push Capacity (Payload64 i i) [] = (true, [Payload64 i i])).
  { unfold Fifo.push. destruct (Z.ltb_spec (Z.of_nat (length (@nil T))) Capacity); [done|simpl in *; lia]. }
  rewrite Hpush in *. rewrite E1. simpl.
  destruct (try_consume_spec b1 _ R1) as (b2 & -> & R2 & _). simpl in *.
  rewrite IH by (done || by apply wrap_width). rewrite add_add_wrap. do 3 f_equal. lia.
Qed.

Lemma fill_length n batch : length (Micro.fill Payload64 n batch) = n.
Proof. unfold Micro.fill. by rewrite length_map, length_seq. Qed.

Lemma batch_loop_spec size n : forall batch out processed b,
  (0 < size)%nat -> Z.of_nat size <= Capacity -> length out = size ->
  broker_rep Capacity b [] -> in_width 64 processed ->
  exists out', Micro.batch_loop Payload64 Capacity size n batch out processed b =
    Some (None, out', processed ⊞ Z.of_nat (n * size)) /\ length out' = size.
Proof.
  induction n as [|n IH]; intros batch out processed b Hs Hcap Hout R Hp; cbn [Micro.batch_loop].
  { exists out. by rewrite add_zero_width. }
  pose proof (capacity_width (Capacity:=Capacity)) as [_ ?].
  rewrite publish_batch_each by (rewrite fill_length; lia).
  destruct (publish_each_spec (Micro.fill Payload64 size batch) b [] R) as (b1 & E1 & R1 & _).
  rewrite fill_length, Nat.sub_0_r, Nat.min_l in E1, R1 by lia. rewrite E1. simpl.
  rewrite Z.eqb_refl. simpl. rewrite take_ge in R1 by (rewrite fill_length; lia). simpl in R1.
  destruct (consume_batch_spec out b1 _ CAP R1) as (b2 & E2 & R2 & _); [by destruct out; simpl in *; [lia|]|].
  rewrite fill_length, Hout, Nat.min_id in E2, R2. rewrite E2. simpl. rewrite Z.eqb_refl. simpl.
  rewrite drop_ge in R2 by (rewrite fill_length; lia).
  destruct (IH (batch ⊞ 1) (take size (Micro.fill Payload64 size batch) ++ drop size out)
    (processed ⊞ Z.of_nat size) b2) as (out' & -> & Hl); try done.
  - rewrite length_app, length_take, length_drop, fill_length. lia.
  - by apply wrap_width.
  - exists out'. split; [|done]. rewrite add_add_wrap. do 3 f_equal. lia.
Qed.

Lemma spsc_emplace_spec n : forall processed q,
  represents Capacity q ([] : list T) -> in_width 64 processed ->
  exists q', Micro.spsc_emplace Payload64 Capacity n processed q =
    Some (None, processed ⊞ Z.of_nat n, q') /\ represents Capacity q' [].
Proof.
  induction n as [|n IH]; intros processed q R Hp; cbn [Micro.spsc_emplace].
  { exists q. by rewrite add_zero_width. }
  pose proof (capacity_ge2 (Capacity:=Capacity)).
  destruct (try_emplace_spec id (Payload64 processed processed) q [] R) as (q1 & -> & R1).
  unfold Fifo.push in *. destruct (Z.ltb_spec (Z.of_nat (length (@nil T))) Capacity) as [_|Hf]; [|simpl in Hf; lia].
  simpl in *. destruct (try_pop_spec q1 _ R1) as (q2 & -> & R2). simpl in *.
  destruct (IH (processed ⊞ 1) q2 R2) as (q' & -> & R'); [by apply wrap_width|].
  exists q'. rewrite add_add_wrap. split; [|done]. do 4 f_equal. lia.
Qed.

(** One iteration of [zero_copy], as the calls of a client. *)
Lemma zero_copy_trip (v : T) q :
  zc_rep Capacity (mkClient q []) (mkSpec [] None 0) ->
  exists r q1 r1 q2 r2 q3 q4,
    ZeroCopy.try_reserve Capacity q = (Some r, q1) /\
    ZeroCopy.construct id v r q1 = Some (r1, q2) /\
    ZeroCopy.commit r1 q2 = (true, r2, q3) /\
    ZeroCopy.try_consume Capacity q3 = Some (Some v, q4) /\
    ZeroCopy.cancel r2 q4 = Some (r2, q4) /\
    zc_rep Capacity (mkClient q4 []) (mkSpec [] None 0).
Proof.
  intros R. pose proof (capacity_ge2 (Capacity:=Capacity)).
  destruct (zc_calls_simulate [ZcReserve; ZcConstruct 0 v; ZcCommit 0; ZcConsume] _ _
    [ZcReserved (Some 0%nat); ZcDone; ZcCommitted true; ZcConsumed (Some v)] (mkSpec [] None 1) R)
    as (c & E & R').
  { cbn -[Z.ltb]. rewrite (proj2 (Z.ltb_lt (Z.of_nat 0) Capacity)) by lia. reflexivity. }
  cbn in E. destruct (ZeroCopy.try_reserve Capacity q) as [[r|] q1] eqn:E1; cbn in E; [|by repeat case_match].
  destruct (ZeroCopy.construct id v r q1) as [[r1 q2]|] eqn:E2; cbn in E; [|done].
  destruct (ZeroCopy.commit r1 q2) as [[b r2] q3] eqn:E3; cbn in E.
  destruct (ZeroCopy.try_consume Capacity q3) as [[out q4]|] eqn:E4; cbn in E; [|done].
  simplify_eq. exists r, q1, r1, q2, r2, q3, q4. split_and!; try done.
  - apply cancel_dead. exact (zr_handles _ _ _ R' 0%nat r2 eq_refl).
  - destruct R'. by split.
Qed.

Lemma zero_copy_spec n : forall processed q,
  zc_rep Capacity (mkClient q []) (mkSpec [] None 0) -> in_width 64 processed ->
  exists q', Micro.zero_copy Payload64 Capacity n processed q =
    Some (None, processed ⊞ Z.of_nat n, q') /\ zc_rep Capacity (mkClient q' []) (mkSpec [] None 0).
Proof.
  induction n as [|n IH]; intros processed q R Hp; cbn [Micro.zero_copy].
  { exists q. by rewrite add_zero_width. }
  destruct (zero_copy_trip (Payload64 processed processed) q R)
    as (r & q1 & r1 & q2 & r2 & q3 & q4 & -> & E2 & E3 & E4 & E5 & R').
  change (ZeroCopy.construct (fun p => Payload64 p p) processed r q1)
    with (ZeroCopy.construct id (Payload64 processed processed) r q1).
  rewrite E2. simpl. rewrite E3. simpl. rewrite E4. simpl. rewrite E5. simpl.
  destruct (IH (processed ⊞ 1) q4 R') as (q' & -> & R''); [by apply wrap_width|].
  exists q'. rewrite add_add_wrap. split; [|done]. do 4 f_equal. lia.
Qed.
End Proofs.

(** ** Properties *)

(** The single-threaded benchmarks never skip: for every payload and capacity, an
    iteration over a broker makes 1024 round trips, batches of any size that fits the
    queue move all the 1024 messages that whole batches hold, and any number of
    iterations over one queue, whose counters wrap around, processes one item each and
    leaves the queue empty. *)
Theorem micro_benchmarks_exact (T : Type) (Payload64 : Z -> Z -> T) (Capacity : Z)
    (CAP : CapacityOk Capacity) (size n : nat) (out : list T) (processed : Z) :
  in_width 64 processed -> (0 < size)%nat -> Z.of_nat size <= Capacity -> length out = size ->
  Micro.broker_single Payload64 Capacity processed = Some (None, processed ⊞ 1024) /\
  (exists out', Micro.batch_broker Payload64 Capacity size out processed =
     Some (None, out', processed ⊞ Z.of_nat (1024 / size * size))) /\
  (exists q, Micro.spsc_emplace Payload64 Capacity n 0 (SpscRingBuffer_init Capacity) =
     Some (None, wrap 64 (Z.of_nat n), q) /\ ring_empty q = true) /\
  (exists q, Micro.zero_copy Payload64 Capacity n 0 (ZeroCopy.init Capacity) =
     Some (None, wrap 64 (Z.of_nat n), q) /\ ZeroCopy.empty q = true).
Proof.
  intros Hp Hs Hcap Hout. assert (H0 : in_width 64 0) by (by vm_compute). split_and!.
  - exact (single_loop_spec Payload64 1024 0 processed _ broker_init_rep Hp).
  - destruct (batch_loop_spec Payload64 size (1024 / size) 0 out processed _ Hs Hcap Hout
      (broker_init_rep (Q:=SpscRingBuffer T)) Hp) as (out' & E & _). by exists out'.
  - destruct (spsc_emplace_spec Payload64 n 0 _ (represents_init (T:=T)) H0) as (q & -> & R).
    exists q. split; [done|]. unfold ring_empty. rewrite Z.eqb_sym. exact (rep_head_eq_tail _ _ R).
  - destruct (zero_copy_spec Payload64 n 0 _ (zc_init_rep (T:=T)) H0) as (q & -> & R).
    exists q. split; [done|]. unfold ZeroCopy.empty. rewrite Z.eqb_sym.
    exact (rep_head_eq_tail _ _ (zr_content _ _ _ R)).
Qed.

Lemma pauses_never_yield p n : forall c, in_width 32 c ->
  SpinWait.pauses n (SpinWait.mk p false c) =
    (replicate n CpuRelax, SpinWait.mk p false (wrap 32 (c + Z.of_nat n))).
Proof.
  induction n as [|n IH]; intros c Hc; cbn [SpinWait.pauses replicate].
  { by rewrite Z.add_0_r, wrap_id. }
  unfold SpinWait.pause. cbn [SpinWait.count_ SpinWait.pause_iterations_ SpinWait.yield_after_spin_].
  rewrite orb_true_r, IH by (by apply wrap_width). rewrite wrap_wrap_add_l. do 3 f_equal. lia.
Qed.

(** The spin-wait benchmarks measure what their names say: the pausing one never
    yields, however long it runs, and the backoff one relaxes four times and then
    yields four times. *)
Theorem spin_wait_benchmarks (n : nat) :
  Micro.BM_SpinWaitPause n = (Micro.BM_CpuRelax n, wrap 32 (Z.of_nat n)) /\
  Micro.BM_SpinWaitBackoff = (Micro.BM_CpuRelax 4 ++ Micro.BM_ThreadYield 4, 8).
Proof.
  split; [|reflexivity]. unfold Micro.BM_SpinWaitPause, SpinWait.init.
  rewrite pauses_never_yield by (by vm_compute). reflexivity.
Qed.
