(* ===== verification/Examples.v ===== *)
(** * The example programs

    examples/*.cpp: each [main] on the models of the components it demonstrates.
    Console output is a list of lines kept as data.  The directory functions of
    std::filesystem and the padding bytes of an [OrderEvent] are parameters. *)

From Stdlib Require Import String.
From S2P Require Import Prelude Core Metrics Spsc Broker Posix MmapFile WalFormat Wal WalRecovery.
From S2P Require Import PersistentBroker CliArgs Histogram PubSub.
#[local] Open Scope list_scope.
#[local] Open Scope Z_scope.

Module Examples.

(** What the programs print. *)
Inductive line : Type :=
  | ErrorLine (text : string)
  | StatusLine (operation : string) (status : Status)
  | ConsumedInt (v : Z)
  | MessageSequence (s : Z)
  | ConsumedOrder (e : OrderEvent)
  | PublishedOrder (id : Z)
  | ReplayingFrom (path : string)
  | ReplayedOrder (sequence : Z) (e : OrderEvent)
  | WalLine (v : WalRecordView)
  | RecordCount (n : Z)
  | SmokeSucceeded (path : string)
  | Banner (text : string).

(** ** smoke.cpp and version.cpp *)

Definition version_major : Z := 0.
Definition version_minor : Z := 1.
Definition version_patch : Z := 0.
Definition version_string : string := "0.1.0".

Definition smoke_main : Z * list line := (0, [Banner ("Aether-Stream " ++ version_string)%string]).

(** ** basic_spsc.cpp *)

(** [!queue.try_push(1) || ...]: the first failure stops. *)
Fixpoint push_all {T} (vs : list T) (q : SpscRingBuffer T) : option (bool * SpscRingBuffer T) :=
  match vs with
  | [] => Some (true, q)
  | v :: vs => '(pushed, q) ← try_push 4 v q; if pushed : bool then push_all vs q else Some (false, q)
  end.

Fixpoint pop_each (expected : list Z) (q : SpscRingBuffer Z) : option (bool * list line) :=
  match expected with
  | [] => Some (true, [])
  | x :: xs =>
      '(out, q) ← try_pop 4 q;
      match out with
      | Some value =>
          if negb (value =? x) then Some (false, [ErrorLine "unexpected integer queue result"])
          else '(good, lines) ← pop_each xs q; Some (good, ConsumedInt value :: lines)
      | None => Some (false, [ErrorLine "unexpected integer queue result"])
      end
  end.

Definition basic_spsc_main : option (Z * list line) :=
  '(pushed, queue) ← push_all [1; 2; 3] (SpscRingBuffer_init 4);
  if negb pushed then Some (1, [ErrorLine "failed to push integer values"])
  else
    '(good, lines) ← pop_each [1; 2; 3] queue;
    if negb good then Some (1, lines)
    else
      let input_header := mkMessageHeader 42 1000 128 1 in
      let failure := Some (1, lines ++ [ErrorLine "unexpected MessageHeader queue result"]) in
      '(pushed, headers) ← push_all [input_header] (SpscRingBuffer_init 4);
      if negb pushed then failure
      else
        '(out, _) ← try_pop 4 headers;
        match out with
        | Some output_header =>
            if negb (mh_sequence output_header =? mh_sequence input_header) then failure
            else Some (0, lines ++ [MessageSequence (mh_sequence output_header)])
        | None => failure
        end.

(** ** broker_basic.cpp *)

(** [OrderEvent{id, price, quantity}]. *)
Definition order (id : Z) (price : double) (quantity : Z) (padding : uint 32) : OrderEvent :=
  mkEvent (to_u64 id) (to_u64 (double_bits price)) (to_u32 quantity) padding.

Definition broker_basic_main (padding : uint 32) : option (Z * list line) :=
  let broker := Broker.init (Q:=SpscRingBuffer OrderEvent) (Capacity:=64) in
  '(publish_status, broker) ← Broker.try_publish (Capacity:=64) (order 1 (round 405 4) 10 padding) broker;
  if negb (is_ok publish_status) then Some (1, [StatusLine "publish" publish_status])
  else
    '(consume_status, out, _) ← Broker.try_consume (Capacity:=64) broker;
    if negb (is_ok consume_status) then Some (1, [StatusLine "consume" consume_status])
    else Some (0, [ConsumedOrder (default OrderEvent_default out)]).

Section Files.
Context {W : Type} `{Posix W}.
(** [std::filesystem::create_directories] and [remove]; [None] is an exception (or an error code). *)
Variable create_directories : string -> W -> option W.
Variable remove : string -> W -> option W.

(** ** mmap_smoke.cpp *)

Definition smoke_path : string := "data/mmap_smoke.mmap".
Definition marker : list byte := list_byte_of_string "Aether-Stream mmap smoke record".

Definition mmap_smoke_main (w : W) : Z * list line * W :=
  match create_directories "data" w with
  | None => (1, [ErrorLine "failed to create data directory"], w)
  | Some w =>
      let '(create_result, w) := mmap_create smoke_path 4096 true w in
      match create_result with
      | Error s => (1, [StatusLine "create mmap file" s], w)
      | Value file =>
          let w := mem_store (data_ file) 0 marker w in
          let '(flushed, w) := mmap_flush file w in
          if negb (is_ok flushed)
          then (1, [ErrorLine "failed to flush mmap file"], mmap_destroy file w)
          else
            let '(closed, file, w) := mmap_close file w in
            if negb (is_ok closed)
            then (1, [ErrorLine "failed to close mmap file"], mmap_destroy file w)
            else
              let '(reopen_result, w) := mmap_open_existing smoke_path true w in
              match reopen_result with
              | Error s => (1, [StatusLine "reopen mmap file" s], mmap_destroy file w)
              | Value reopened =>
                  let '(code, out) :=
                    if negb (bool_decide (take (length marker) (mmap_bytes reopened w) = marker))
                    then (1, ErrorLine "mmap smoke marker did not persist")
                    else (0, SmokeSucceeded smoke_path) in
                  (code, [out], mmap_destroy file (mmap_destroy reopened w))
              end
      end
  end.

(** ** wal_replay.cpp *)

Definition wal_path : string := "data/wal_replay.wal".
Definition samples : list string := ["alpha"; "bravo"; "charlie"]%string.

Definition bytes_from (text : string) : list byte := list_byte_of_string text.

Definition sample_message (sample : string) : MessageView :=
  let payload := bytes_from sample in
  mkMessageView (mkMessageHeader 0 0 (wrap 32 (span_size payload)) 0) payload.

(** The loop of appends stops at the first error. *)
Fixpoint append_samples (samples : list string) (writer : WalWriter) (w : W) : Status * WalWriter * W :=
  match samples with
  | [] => (Status_ok, writer, w)
  | sample :: samples =>
      let '(status, writer, w) := append (sample_message sample) writer w in
      if negb (is_ok status) then (status, writer, w) else append_samples samples writer w
  end.

(** The replay callback: prints the record and counts it. *)
Definition print_record (v : WalRecordView) (s : list line * Z) : Status * (list line * Z) :=
  (Status_ok, (s.1 ++ [WalLine v], s.2 ⊞ 1)).

Definition wal_replay_main (fuel : nat) (w : W) : outcome (ending * list line * W) :=
  match create_directories "data" w with
  | None => Done (Terminated, [], w)
  | Some w =>
      let '(writer_result, w) := writer_create_path wal_path (64 * 1024) false w in
      match writer_result with
      | Error s => Done (Exited 1, [StatusLine "create wal writer" s], w)
      | Value writer =>
          let '(status, writer, w) := append_samples samples writer w in
          if negb (is_ok status)
          then Done (Exited 1, [StatusLine "append wal record" status], mmap_destroy (ww_file writer) w)
          else
            let '(flush_status, w) := writer_flush writer w in
            let w := mmap_destroy (ww_file writer) w in
            if negb (is_ok flush_status)
            then Done (Exited 1, [StatusLine "flush wal writer" flush_status], w)
            else
              let '(reader_result, w) := reader_open wal_path w in
              match reader_result with
              | Error s => Done (Exited 1, [StatusLine "open wal reader" s], w)
              | Value reader =>
                  match replay fuel print_record ([], 0) reader w with
                  | Done (replay_status, (lines, count), reader) =>
                      let w := mmap_destroy (wr_file reader) w in
                      if negb (is_ok replay_status)
                      then Done (Exited 1, lines ++ [StatusLine "replay wal" replay_status], w)
                      else Done (Exited 0, lines ++ [RecordCount count], w)
                  | Undefined => Undefined
                  | OutOfFuel => OutOfFuel
                  end
              end
      end
  end.

(** ** persistent_broker.cpp *)

Local Abbreviation broker_state := (PersistentBrokerState (SpscRingBuffer OrderEvent)).

Fixpoint publish_orders (orders : list OrderEvent) (broker : broker_state) (w : W)
    : option (Status * list line * broker_state * W) :=
  match orders with
  | [] => Some (Status_ok, [], broker, w)
  | o :: orders =>
      '(status, broker, w) ← PersistentBroker.try_publish (Capacity:=64) o 0 broker w;
      if negb (is_ok status) then Some (status, [StatusLine "publish" status], broker, w)
      else
        '(status, lines, broker, w) ← publish_orders orders broker w;
        Some (status, PublishedOrder (uval (ev_id o)) :: lines, broker, w)
  end.

Fixpoint consume_orders (n : nat) (broker : broker_state) : option (Status * list line * broker_state) :=
  match n with
  | O => Some (Status_ok, [], broker)
  | S n =>
      '(status, out, broker) ← PersistentBroker.try_consume (Capacity:=64) broker;
      if negb (is_ok status) then Some (status, [StatusLine "consume" status], broker)
      else
        '(status, lines, broker) ← consume_orders n broker;
        Some (status, ConsumedOrder (default OrderEvent_default out) :: lines, broker)
  end.

Definition print_order (o : OrderEvent) (header : WalRecordHeader) (lines : list line)
    : Status * list line := (Status_ok, lines ++ [ReplayedOrder (sequence header) o]).

(** The block that owns the broker: [None] when it ends with the broker destroyed
    and the program going on. *)
Definition persistent_block (path : string) (orders : list OrderEvent) (w : W)
    : option (option Z * list line * W) :=
  let '(broker, w) := PersistentBroker.of_wal_config (T:=OrderEvent) (Capacity:=64)
                        (mkWalConfig path 4096 false) w in
  if negb (PersistentBroker.valid broker)
  then Some (Some 1, [StatusLine "open" (pb_open_status broker)], PersistentBroker.destroy broker w)
  else
    '(status, out1, broker, w) ← publish_orders orders broker w;
    if negb (is_ok status) then Some (Some 1, out1, PersistentBroker.destroy broker w)
    else
      '(status, out2, broker) ← consume_orders 2 broker;
      if negb (is_ok status) then Some (Some 1, out1 ++ out2, PersistentBroker.destroy broker w)
      else
        let '(flush_status, broker, w) := PersistentBroker.flush broker w in
        if negb (is_ok flush_status)
        then Some (Some 1, out1 ++ out2 ++ [StatusLine "flush" flush_status],
                   PersistentBroker.destroy broker w)
        else Some (None, out1 ++ out2, PersistentBroker.destroy broker w).

(** [main]; [path] is below std::filesystem::temp_directory_path(). *)
Definition persistent_broker_main (fuel : nat) (path : string) (p1 p2 : uint 32) (w : W)
    : outcome (ending * list line * W) :=
  match remove path w with
  | None => Done (Terminated, [], w)
  | Some w =>
      match persistent_block path [order 1 (round 405 4) 10 p1; order 2 (round 205 2) 20 p2] w with
      | None => Undefined
      | Some (Some code, out, w) => Done (Exited code, out, w)
      | Some (None, out, w) =>
          match PersistentBroker.replay_path (T:=OrderEvent) fuel path print_order [] w with
          | Done (replay_status, lines, w) =>
              let '(code, lines) :=
                if negb (is_ok replay_status) then (1, lines ++ [StatusLine "replay" replay_status])
                else (0, lines) in
              match remove path w with
              | None => Done (Terminated, out ++ ReplayingFrom path :: lines, w)
              | Some w => Done (Exited code, out ++ ReplayingFrom path :: lines, w)
              end
          | Undefined => Undefined
          | OutOfFuel => OutOfFuel
          end
      end
  end.
End Files.

(** ** Proofs *)

Section Proofs.
Context {W : Type} `{PosixLaws W}.

Lemma marker_length : length marker = 31%nat.
Proof. reflexivity. Qed.

Lemma mmap_smoke_outcomes create_directories (w : W) :
  let '(code, out, w') := mmap_smoke_main create_directories w in
  (code = 1 /\ exists l, out = [l] /\ l <> ErrorLine "mmap smoke marker did not persist") \/
  (code = 0 /\ out = [SmokeSucceeded smoke_path] /\
   os_files (os w') !! smoke_path = Some (marker ++ replicate 4065 Byte.x00)).
Proof.
  unfold mmap_smoke_main. destruct (create_directories _ w) as [w0|]; [|by left; eauto].
  pose proof (mmap_create_spec smoke_path 4096 true w0 ltac:(by vm_compute)) as C.
  destruct (mmap_create _ _ _ _) as [[f|s] w1]; [|by left; eauto].
  destruct C as (O & Hp & Hs & _).
  destruct (owns_store f w1 _ 0 marker O) as [O1 E1]; [rewrite length_replicate, marker_length; lia|].
  set (w2 := mem_store _ _ _ _) in *.
  assert (Hc : splice 0 marker (replicate (Z.to_nat 4096) Byte.x00) = marker ++ replicate 4065 Byte.x00).
  { unfold splice. simpl take. rewrite drop_replicate, marker_length. done. }
  rewrite Hc in O1. pose proof (mmap_flush_view f w2) as E2.
  destruct (mmap_flush f w2) as [st w3]. simpl in E2. apply (owns_view _ _ w3) in O1; [|done].
  destruct (negb (is_ok st)); [by left; eauto|].
  pose proof (mmap_close_spec f w3 _ O1) as C3. destruct (mmap_close f w3) as [[st' f'] w4].
  destruct C3 as (-> & F4 & _). destruct (negb (is_ok st')); [by left; eauto|].
  assert (D : forall w, mmap_destroy MmapFile_default w = w) by done.
  pose proof (mmap_open_existing_spec smoke_path true w4) as O5.
  destruct (mmap_open_existing _ _ w4) as [[f5|s] w5]; [|by left; eauto].
  destruct O5 as (c & Hfile & O5 & Hp5 & _). rewrite D.
  rewrite F4, <- Hp, (own_file _ _ _ O1) in Hfile.
  assert (c = marker ++ replicate 4065 Byte.x00) as -> by congruence. clear Hfile.
  rewrite (owns_bytes _ _ _ O5), take_app_length, bool_decide_eq_true_2 by done. simpl. right.
  split_and!; [done..|]. pose proof (mmap_close_spec f5 w5 _ O5) as C6. unfold mmap_destroy.
  destruct (mmap_close f5 w5) as [[? ?] w6]. destruct C6 as (_ & -> & _).
  rewrite <- Hp5. apply (own_file _ _ _ O5).
Qed.

(** *** wal_replay *)

(** The records of the samples, numbered from [k], with the given timestamps. *)
Fixpoint sample_entries (k : nat) (ss : list string) (tss : list Z) : list entry :=
  match ss, tss with
  | s :: ss, ts :: tss => message_entry (Z.of_nat k) ts (sample_message s) :: sample_entries (S k) ss tss
  | _, _ => []
  end.

Definition short (s : string) : Prop := (length (bytes_from s) <= 100)%nat.

Lemma append_samples_spec ss : forall wr (w : W) log n,
  Forall short ss -> writer_rep wr w log (replicate n Byte.x00) ->
  (140 * length ss <= n)%nat -> ww_flush_on_append wr = false ->
  let '(st, wr', w') := append_samples ss wr w in
  st = Status_ok /\ ww_file wr' = ww_file wr /\ exists tss n', length tss = length ss /\
    writer_rep wr' w' (log ++ sample_entries (length log) ss tss) (replicate n' Byte.x00).
Proof.
  induction ss as [|s ss IH]; intros wr w log n Hs R Hn Hfl; simpl.
  { split_and!; [done..|]. exists [], n. by rewrite app_nil_r. }
  inversion Hs as [|? ? Hs1 Hs2]; subst. unfold short in Hs1.
  pose proof (append_guards (sample_message s) wr w log _ R) as G.
  assert (Hacc : message_accepted (sample_message s) = true).
  { unfold message_accepted, sample_message. cbn [mv_header mh_payload_size mv_payload].
    unfold span_size. rewrite wrap_id by (split; lia). rewrite Z.eqb_refl. simpl. apply Z.leb_le.
    unfold max_payload_size, u32_max. lia. }
  pose proof (append_spec (sample_message s) wr w log _ ltac:(by vm_compute) R) as A.
  rewrite Hacc in A. cbn [negb] in A. rewrite length_replicate in A.
  cbn [mv_payload sample_message] in A. simpl in Hn.
  destruct (Nat.ltb_spec n (40 + length (bytes_from s))); [lia|]. clear G.
  destruct (append _ _ _) as [[st wr1] w1]. destruct A as (ts & He & _ & _ & Hf & Hfl1 & A).
  destruct (is_ok st) eqn:Est; [|destruct A as (_ & ? & _); congruence]. simpl negb. cbv iota.
  rewrite drop_replicate in A. unfold entry_size in A. cbn [snd message_entry mv_payload sample_message] in A.
  pose proof (IH wr1 w1 _ _ Hs2 A ltac:(lia) ltac:(congruence)) as B.
  destruct (append_samples ss wr1 w1) as [[st2 wr2] w2]. destruct B as (-> & Hf2 & tss & n' & Hl & B).
  split_and!; [done|congruence|]. exists (ts :: tss), n'. split; [simpl; lia|].
  rewrite length_app, Nat.add_1_r, <- app_assoc in B. exact B.
Qed.

Lemma visit_print vs d : forall acc k, 0 <= k -> k + Z.of_nat (length vs) < 2 ^ 64 ->
  visit_all print_record (acc, k) vs (mkStatus StatusCode.empty d)
  = (Status_ok, (acc ++ map WalLine vs, k + Z.of_nat (length vs))).
Proof.
  induction vs as [|v vs IH]; intros acc k Hk0 Hk; simpl.
  { rewrite app_nil_r, Z.add_0_r. done. }
  simpl in Hk. rewrite wrap_id by (split; lia). rewrite IH by lia. rewrite <- app_assoc. simpl.
  do 2 f_equal. lia.
Qed.

(** What a successful replay prints. *)
Definition replay_lines (tss : list Z) : list line :=
  map WalLine (views 0 (sample_entries 0 samples tss)) ++ [RecordCount 3].

Definition wal_fuel : nat := S (Z.to_nat (64 * 1024) / 40).

(** How wal_replay can end. *)
Definition replay_ending (r : outcome (ending * list line * W)) : Prop :=
  exists e out w', r = Done (e, out, w') /\
  ((e = Terminated /\ out = []) \/
   (e = Exited 1 /\ exists op st, out = [StatusLine op st] /\ is_ok st = false /\
      In op ["create wal writer"; "flush wal writer"; "open wal reader"]%string) \/
   (e = Exited 0 /\ exists t0 t1 t2, out = replay_lines [t0; t1; t2])).

Lemma replay_ending_error op st w :
  In op ["create wal writer"; "flush wal writer"; "open wal reader"]%string -> is_ok st = false ->
  replay_ending (Done (Exited 1, [StatusLine op st], w)).
Proof. intros ? ?. eexists _, _, _. split; [done|]. right. left. eauto 6. Qed.

(** Reading the file back. *)
Lemma replay_samples (w : W) t0 t1 t2 n r w' :
  let log := sample_entries 0 samples [t0; t1; t2] in
  Forall entry_ok log -> length (log_bytes log ++ replicate n Byte.x00) = Z.to_nat (64 * 1024) ->
  os_files (os w) !! wal_path = Some (log_bytes log ++ replicate n Byte.x00) ->
  reader_open wal_path w = (Value r, w') ->
  exists r', replay wal_fuel print_record ([], 0) r w' =
    Done (Status_ok, (map WalLine (views 0 log), 3), r').
Proof.
  intros log Hok Hlen Hf Hr. apply reader_open_spec in Hr as (c & Hc & RA).
  assert (c = log_bytes log ++ replicate n Byte.x00) as -> by congruence.
  pose proof (parses_zero_tail log n Hok) as Hp. pose proof (parses_length _ _ _ _ Hp) as Hl.
  pose proof (Nat.div_le_lower_bound _ 40 _ ltac:(lia) Hl) as Hd.
  unfold wal_fuel. rewrite <- Hlen.
  destruct (replay_parses print_record _ _ _ _ Hp _ ([], 0) r w' _ (proj2 (Nat.lt_succ_r _ _) Hd)
    eq_refl RA) as (r' & _ & _ & E).
  exists r'. rewrite E, visit_print; [done|lia|]. rewrite length_views. simpl. lia.
Qed.

Lemma wal_replay_outcomes create_directories (w : W) :
  replay_ending (wal_replay_main create_directories wal_fuel w).
Proof.
  unfold wal_replay_main. destruct (create_directories _ w) as [w0|].
  2: { eexists _, _, _. split; [done|]. by left. }
  pose proof (writer_create_path_spec wal_path (64 * 1024) false w0 ltac:(by vm_compute)) as C.
  destruct (writer_create_path _ _ _ w0) as [[wr|s] w1].
  2: { apply replay_ending_error; [simpl; auto|by destruct C]. }
  destruct C as (R & Hp & Hfl & _).
  pose proof (append_samples_spec samples wr w1 [] _
    ltac:(repeat constructor; unfold short; simpl; lia) R ltac:(simpl length; lia) Hfl) as A.
  destruct (append_samples samples wr w1) as [[st wr2] w2].
  destruct A as (-> & Hfile & tss & n & Hl & R2). simpl negb. cbv iota.
  destruct tss as [|t0 [|t1 [|t2 [|]]]]; try done. simpl app in R2. simpl length in R2.
  pose proof (writer_flush_view wr2 w2) as E3. pose proof (writer_flush_code wr2 w2 _ _ R2) as C3.
  destruct (writer_flush wr2 w2) as [st3 w3]. simpl in E3, C3.
  apply (writer_rep_view _ _ w3) in R2; [|done].
  destruct (is_ok st3) eqn:Est3; simpl negb; cbv iota.
  2: { apply replay_ending_error; [simpl; auto|done]. }
  pose proof (writer_destroy_file _ _ _ _ R2) as D. rewrite Hfile, Hp in D. rewrite Hfile.
  destruct (reader_open wal_path _) as [[r|s] w4] eqn:Er.
  2: { apply replay_ending_error; [simpl; auto 6|]. unfold reader_open in Er.
       destruct (mmap_open_existing _ _ _) as [[]]; [done|]. injection Er as <- _. apply normalize_not_ok. }
  assert (Hlen : length (log_bytes (sample_entries 0 samples [t0; t1; t2]) ++ replicate n Byte.x00)
    = Z.to_nat (64 * 1024)).
  { pose proof (own_size _ _ _ (wp_owns _ _ _ _ R2)) as S2.
    pose proof (own_size _ _ _ (wp_owns _ _ _ _ R)) as S1. rewrite Hfile in S2.
    change (log_bytes [] ++ ?x) with x in S1. rewrite length_replicate in S1.
    apply Nat2Z.inj. etransitivity; [symmetry; exact S2|exact S1]. }
  destruct (replay_samples _ t0 t1 t2 n r w4 (wp_ok _ _ _ _ R2) Hlen D Er) as [r' ->].
  eexists _, _, _. split; [done|]. right. right. split; [done|]. by exists t0, t1, t2.
Qed.

(** *** persistent_broker *)

Local Abbreviation broker_state := (PersistentBrokerState (SpscRingBuffer OrderEvent)).
Local Abbreviation rep := (pb_rep (T:=OrderEvent) 64).

Lemma publish_one o (pb : broker_state) (w : W) l log n :
  rep pb w l log (replicate n Byte.x00) -> (length l < 64)%nat -> (64 <= n)%nat ->
  ww_flush_on_append (pb_writer pb) = false ->
  exists st pb' w' ts,
    PersistentBroker.try_publish (Capacity:=64) o 0 pb w = Some (st, pb', w') /\ is_ok st = true /\
    ww_file (pb_writer pb') = ww_file (pb_writer pb) /\ ww_flush_on_append (pb_writer pb') = false /\
    rep pb' w' (l ++ [o]) (log ++ [message_entry (Z.of_nat (length log)) ts (pb_message o 0)])
      (replicate (n - 64) Byte.x00).
Proof.
  intros R Hl Hn Hfl.
  pose proof (pb_publish_spec (Capacity:=64) o 0 pb w _ _ _ ltac:(by vm_compute) R) as S.
  destruct (Z.leb_spec 64 (Z.of_nat (length l))); [lia|]. rewrite length_replicate in S.
  change (sizeof_T (T:=OrderEvent)) with 24 in S.
  destruct (Nat.ltb_spec n (40 + Z.to_nat 24)); [lia|].
  destruct S as (st & pb' & w' & S & ts & _ & Hfile & Hfl' & S').
  destruct (is_ok st) eqn:Est; [|destruct S' as (_ & ? & _); congruence].
  exists st, pb', w', ts. rewrite drop_replicate in S'. split_and!; try done; [congruence|].
  destruct S' as [R' _]. exact R'.
Qed.

Lemma consume_one o (pb : broker_state) (w : W) l log tail :
  rep pb w (o :: l) log tail ->
  exists st pb', PersistentBroker.try_consume (Capacity:=64) pb = Some (st, Some o, pb') /\
    is_ok st = true /\ pb_writer pb' = pb_writer pb /\ rep pb' w l log tail.
Proof.
  intros R. destruct (pb_consume_spec (Capacity:=64) pb w _ _ _ R) as (st & pb' & E & R' & Hw & Hc & _).
  exists st, pb'. split_and!; [exact E| |exact Hw|exact R']. unfold is_ok. by rewrite Hc.
Qed.

(** What the block prints when nothing fails. *)
Definition block_lines (o1 o2 : OrderEvent) : list line :=
  [PublishedOrder (uval (ev_id o1)); PublishedOrder (uval (ev_id o2)); ConsumedOrder o1; ConsumedOrder o2].

Definition order_log (o1 o2 : OrderEvent) (t1 t2 : Z) : list entry :=
  [message_entry 0 t1 (pb_message o1 0); message_entry 1 t2 (pb_message o2 0)].

(** The status that [open] returns is the one it keeps. *)
Lemma open_keeps_status config (pb0 : broker_state) (w : W) st pb w' :
  PersistentBroker.open (T:=OrderEvent) (Capacity:=64) config pb0 w = (st, pb, w') ->
  pb_open_status pb = st.
Proof.
  unfold PersistentBroker.open. repeat (case_match; simplify_eq; try done).
  all: intros; simplify_eq; done.
Qed.

(** How the block can end. *)
Definition block_ending path o1 o2 (r : option (option Z * list line * W)) : Prop :=
  exists c out w', r = Some (c, out, w') /\
  ((c = Some 1 /\ exists st, is_ok st = false /\
      (out = [StatusLine "open" st] \/ out = block_lines o1 o2 ++ [StatusLine "flush" st])) \/
   (c = None /\ out = block_lines o1 o2 /\ exists t1 t2 n, Forall entry_ok (order_log o1 o2 t1 t2) /\
      os_files (os w') !! path = Some (log_bytes (order_log o1 o2 t1 t2) ++ replicate n Byte.x00) /\
      length (log_bytes (order_log o1 o2 t1 t2) ++ replicate n Byte.x00) = Z.to_nat 4096)).

Lemma persistent_block_outcomes path o1 o2 (w : W) :
  block_ending path o1 o2 (persistent_block path [o1; o2] w).
Proof.
  unfold persistent_block, PersistentBroker.of_wal_config, PersistentBroker.open_wal.
  pose proof (pb_open_spec (T:=OrderEvent) (Q:=SpscRingBuffer OrderEvent) (Capacity:=64)
    (mkBrokerConfig (mkQueueConfig 64 (qc_spin_pause_iterations (bc_queue BrokerConfig_default))
       (qc_yield_after_spin (bc_queue BrokerConfig_default))) (mkWalConfig path 4096 false) true) w
    ltac:(by vm_compute)) as O.
  destruct (PersistentBroker.open _ _ w) as [[st0 pb] w1] eqn:Eo. destruct (is_ok st0) eqn:E0.
  2: { destruct O as [V _]. rewrite V. simpl. eexists _, _, _. split; [done|]. left. split; [done|].
       exists (pb_open_status pb). split; [|by left]. by rewrite (open_keeps_status _ _ _ _ _ _ Eo). }
  destruct O as (R0 & Hp & Hfl & _). rewrite (pb_rep_valid _ _ _ _ _ R0). simpl negb. cbv iota.
  simpl wc_file_size_bytes in R0. simpl in Hp, Hfl.
  destruct (publish_one o1 pb w1 _ _ _ R0 ltac:(simpl; lia) ltac:(lia) Hfl)
    as (st1 & pb1 & w2 & t1 & S1 & E1 & F1 & Fl1 & R1).
  destruct (publish_one o2 pb1 w2 _ _ _ R1 ltac:(simpl; lia) ltac:(lia) Fl1)
    as (st2 & pb2 & w3 & t2 & S2 & E2 & F2 & _ & R2).
  destruct (consume_one _ _ _ _ _ _ R2) as (st3 & pb3 & S3 & E3 & F3 & R3).
  destruct (consume_one _ _ _ _ _ _ R3) as (st4 & pb4 & S4 & E4 & F4 & R4).
  cbn [publish_orders consume_orders]. rewrite S1. simpl. rewrite E1. simpl.
  rewrite S2. simpl. rewrite E2. simpl. rewrite S3. simpl. rewrite E3. simpl. rewrite S4. simpl.
  rewrite E4. simpl.
  pose proof (pb_flush_spec (Capacity:=64) pb4 w3 _ _ _ R4) as F.
  destruct (PersistentBroker.flush pb4 w3) as [[st5 pb5] w4]. destruct F as (R5 & F5 & _).
  destruct (is_ok st5) eqn:E5; simpl.
  2: { eexists _, _, _. split; [done|]. left. eauto 6. }
  eexists _, _, _. split; [done|]. right. split; [done|]. split; [done|]. exists t1, t2, (Z.to_nat 4096 - 64 - 64)%nat.
  change (pb_rep (T:=OrderEvent) 64 pb5 w4 [] (order_log o1 o2 t1 t2)
    (replicate (Z.to_nat 4096 - 64 - 64) Byte.x00)) in R5.
  assert (Hf : ww_file (pb_writer pb5) = ww_file (pb_writer pb)) by congruence.
  split; [|split].
  - apply (wp_ok _ _ _ _ (pr_writer _ _ _ _ _ _ R5)).
  - pose proof (pb_destroy_file _ _ _ _ _ R5) as D. rewrite Hf, Hp in D. exact D.
  - pose proof (own_size _ _ _ (wp_owns _ _ _ _ (pr_writer _ _ _ _ _ _ R5))) as S5.
    pose proof (own_size _ _ _ (wp_owns _ _ _ _ (pr_writer _ _ _ _ _ _ R0))) as S0. rewrite Hf in S5.
    change (log_bytes [] ++ ?x) with x in S0. rewrite length_replicate in S0.
    apply Nat2Z.inj. etransitivity; [symmetry; exact S5|exact S0].
Qed.

Definition persistent_fuel : nat := S (Z.to_nat 4096 / 40).

(** The typed replay of the two records. *)
Lemma replay_orders path o1 o2 t1 t2 n (w : W) r w1 :
  let c := log_bytes (order_log o1 o2 t1 t2) ++ replicate n Byte.x00 in
  Forall entry_ok (order_log o1 o2 t1 t2) -> os_files (os w) !! path = Some c ->
  length c = Z.to_nat 4096 -> reader_open path w = (Value r, w1) ->
  exists w', PersistentBroker.replay_path (T:=OrderEvent) persistent_fuel path print_order [] w =
    Done (Status_ok, [ReplayedOrder 0 o1; ReplayedOrder 1 o2], w').
Proof.
  intros c Hok Hf Hlen Hr. subst c. unfold PersistentBroker.replay_path, PersistentBroker.replay_with_metrics.
  rewrite Hr. apply reader_open_spec in Hr as (c' & Hc & RA). assert (c' = log_bytes (order_log o1 o2 t1 t2) ++ replicate n Byte.x00) as -> by congruence.
  pose proof (parses_zero_tail (order_log o1 o2 t1 t2) n Hok) as Hp.
  pose proof (parses_length _ _ _ _ Hp) as Hl.
  pose proof (Nat.div_le_lower_bound _ 40 _ ltac:(lia) Hl) as Hd.
  unfold persistent_fuel. rewrite <- Hlen.
  destruct (replay_parses (PersistentBroker.typed_visitor print_order) _ _ _ _ Hp _
    ([], BrokerCounters_init, false) r w1 _ (proj2 (Nat.lt_succ_r _ _) Hd) eq_refl RA)
    as (r' & _ & _ & ->).
  unfold order_log. cbn [views visit_all]. unfold PersistentBroker.typed_visitor.
  cbn [rv_payload rv_header fst snd message_entry mv_payload pb_message].
  rewrite !object_payload_size, Z.eqb_refl, !from_object_payload. cbn.
  by eexists.
Qed.

(** How persistent_broker can end. *)
Definition persistent_ending path o1 o2 (r : outcome (ending * list line * W)) : Prop :=
  exists e out w', r = Done (e, out, w') /\
  ((e = Terminated /\ out = []) \/
   (e = Exited 1 /\ exists st, is_ok st = false /\
      (out = [StatusLine "open" st] \/ out = block_lines o1 o2 ++ [StatusLine "flush" st])) \/
   (e <> Exited 0 /\ exists st, is_ok st = false /\
      out = block_lines o1 o2 ++ [ReplayingFrom path; StatusLine "replay" st]) \/
   (e <> Exited 1 /\
      out = block_lines o1 o2 ++ [ReplayingFrom path; ReplayedOrder 0 o1; ReplayedOrder 1 o2])).

Lemma persistent_outcomes remove path p1 p2 (w : W) :
  persistent_ending path (order 1 (round 405 4) 10 p1) (order 2 (round 205 2) 20 p2)
    (persistent_broker_main remove persistent_fuel path p1 p2 w).
Proof.
  unfold persistent_broker_main. destruct (remove path w) as [w0|].
  2: { eexists _, _, _. split; [done|]. by left. }
  generalize (order 1 (round 405 4) 10 p1) (order 2 (round 205 2) 20 p2). intros o1 o2.
  destruct (persistent_block_outcomes path o1 o2 w0) as (c & out & w1 & -> & [[-> H1]|(-> & -> & H1)]).
  { eexists _, _, _. split; [done|]. right. by left. }
  destruct H1 as (t1 & t2 & n & Hok & Hf & Hlen).
  destruct (reader_open path w1) as [[r|s] w2] eqn:Er.
  - destruct (replay_orders path o1 o2 t1 t2 n w1 r w2 Hok Hf Hlen Er) as [w3 ->]. simpl.
    destruct (remove path w3); (eexists _, _, _; split; [done|]; do 3 right; by split).
  - unfold PersistentBroker.replay_path, PersistentBroker.replay_with_metrics. rewrite Er.
    assert (Hs : is_ok s = false).
    { unfold reader_open in Er. destruct (mmap_open_existing _ _ _) as [[]]; [done|].
      injection Er as <- _. apply normalize_not_ok. }
    rewrite Hs. simpl.
    destruct (remove path w2); (eexists _, _, _; split; [done|]; right; right; left; split; [done|]; eauto).
Qed.
End Proofs.
End Examples.
Import Examples.

(** ** Properties *)

(** The examples without files.  smoke prints the version, which is the one its
    three numbers give; basic_spsc prints 1, 2, 3 and the sequence number 42;
    broker_basic prints the order it published; all exit with 0. *)
Theorem queue_examples_output :
  smoke_main = (0, [Banner ("Aether-Stream " ++ print_u64 version_major ++ "." ++
    print_u64 version_minor ++ "." ++ print_u64 version_patch)%string]) /\
  basic_spsc_main = Some (0, [ConsumedInt 1; ConsumedInt 2; ConsumedInt 3; MessageSequence 42]) /\
  forall padding, broker_basic_main padding = Some (0, [ConsumedOrder (order 1 (round 405 4) 10 padding)]).
Proof. by split_and!. Qed.

(** The file examples on any system.  mmap_smoke never finds its marker missing:
    it stops with 1 at the call that failed, or the file holds the marker followed by zeros.
    wal_replay always ends, and an append or the replay itself never fails: it stops because a file
    could not be created, flushed or opened, or prints exactly the three samples
    with sequence numbers 0, 1 and 2 and their offsets.  persistent_broker never
    fails to publish or to consume: unless a file operation fails, it consumes its two
    orders in order and recovers exactly these from the log. *)
Theorem file_examples_outcomes (W : Type) (P : Posix W) (L : PosixLaws W)
    (create_directories remove : string -> W -> option W) (path : string) (p1 p2 : uint 32) (w : W) :
  (let '(exit, out, w') := mmap_smoke_main create_directories w in
   (exit = 1 /\ exists l, out = [l] /\ l <> ErrorLine "mmap smoke marker did not persist") \/
   (exit = 0 /\ out = [SmokeSucceeded smoke_path] /\
    os_files (os w') !! smoke_path = Some (marker ++ replicate 4065 Byte.x00))) /\
  replay_ending (wal_replay_main create_directories wal_fuel w) /\
  persistent_ending path (order 1 (round 405 4) 10 p1) (order 2 (round 205 2) 20 p2)
    (persistent_broker_main remove persistent_fuel path p1 p2 w).
Proof. split_and!; [apply mmap_smoke_outcomes|apply wal_replay_outcomes|apply persistent_outcomes]. Qed.

(** On a system where nothing fails the successful endings are reached. *)
Definition printed {W} (r : outcome (ending * list line * W)) : option (ending * list line) :=
  match r with Done (e, out, _) => Some (e, out) | _ => None end.
Definition quiet (path : string) (w : ToyOs.world) : option ToyOs.world := Some w.

Example mmap_smoke_succeeds :
  (mmap_smoke_main quiet (ToyOs.boot [])).1 = (0, [SmokeSucceeded smoke_path]).
Proof. vm_compute. reflexivity. Qed.

Example persistent_broker_succeeds :
  let o1 := order 1 (round 405 4) 10 (to_u32 0) in let o2 := order 2 (round 205 2) 20 (to_u32 0) in
  printed (persistent_broker_main quiet persistent_fuel "/tmp/x.wal" (to_u32 0) (to_u32 0) (ToyOs.boot []))
  = Some (Exited 0, block_lines o1 o2 ++ [ReplayingFrom "/tmp/x.wal"; ReplayedOrder 0 o1; ReplayedOrder 1 o2]).
Proof. vm_compute. reflexivity. Qed.

Example wal_replay_succeeds :
  exists ts, printed (wal_replay_main quiet wal_fuel (ToyOs.boot [])) = Some (Exited 0, replay_lines ts).
Proof. exists [1; 2; 3]. vm_compute. reflexivity. Qed.
