(* ===== verification/ExpectedResults.v ===== *)
(** * What an [Expected] may hold

    expected.hpp is the result type of every fallible constructor and parser of the
    library.  This file says, for each operation that returns one and without any law of the
    operating system or of the mapped memory, what a value in it is and which error is returned
    when: the well-formedness that the callers of a mapped file, a log writer, a log reader, a
    record, a decoded header, a message and parsed options rely on. *)

From Stdlib Require Import String.
From S2P Require Import Prelude Core Posix MmapFile WalFormat Wal WalRecovery CliArgs AetherBench.
#[local] Open Scope Z_scope.

(** A result: what its value satisfies, and what its error satisfies. *)
Definition result_is {T} (good : T -> Prop) (bad : Status -> Prop) (e : Expected T) : Prop :=
  match e with Value v => good v | Error s => bad s end.
Definition has_code (c : StatusCode.t) (s : Status) : Prop := code s = c.

(** ** Specifications *)

(** A file mapped by [create] or [open_existing] with these options. *)
Definition mapped_file (path : string) (options : bool) (f : MmapFile) : Prop :=
  path <> EmptyString /\ path_ f = path /\ flush_on_destroy f = options.

(** A configuration that [WalWriter::create] accepts. *)
Definition log_config (config : WalConfig) : Prop :=
  wc_path config <> EmptyString /\ wal_record_header_size <= wc_file_size_bytes config <= u64_max.

(** A writer at the start of a log of the configured size. *)
Definition fresh_writer (config : WalConfig) (wr : WalWriter) : Prop :=
  mapped_file (wc_path config) true (ww_file wr) /\ size_ (ww_file wr) = wc_file_size_bytes config /\
  ww_current_offset wr = 0 /\ ww_next_sequence wr = 0 /\ ww_records_written wr = 0 /\
  ww_flush_on_append wr = wc_flush_on_commit config.

(** The members of a reader hold values of their widths. *)
Definition reader_widths (r : WalReader) : Prop :=
  in_width 64 (size_ (wr_file r)) /\ in_width 64 (wr_current_offset r) /\ in_width 64 (wr_records_read r).

Definition fresh_reader (path : string) (r : WalReader) : Prop :=
  mapped_file path false (wr_file r) /\ wr_current_offset r = 0 /\ wr_records_read r = 0 /\ reader_widths r.

(** The header that stands at an offset of the mapped bytes. *)
Definition header_at (bytes : list byte) (offset : Z) (h : WalRecordHeader) : Prop :=
  deserialize_header (slice (Z.to_nat offset) (Z.to_nat wal_record_header_size) bytes) = Value h.
Definition payload_at (bytes : list byte) (offset : Z) (h : WalRecordHeader) : list byte :=
  slice (Z.to_nat (offset + wal_record_header_size)) (Z.to_nat (payload_size h)) bytes.

(** The three header fields that are the same in every record. *)
Definition record_shape (h : WalRecordHeader) : Prop :=
  magic h = wal_record_magic /\ version h = wal_format_version /\ header_size h = wal_record_header_size.

(** A verified record of a file of [size] bytes at [offset]. *)
Definition verified_record (bytes : list byte) (size offset : Z) (v : WalRecordView) : Prop :=
  let h := rv_header v in
  header_at bytes offset h /\ header_widths h /\ record_shape h /\
  offset + wal_record_header_size + payload_size h <= size /\
  rv_payload v = payload_at bytes offset h /\ rv_offset v = offset /\
  checksum h = compute_record_checksum h (rv_payload v).

(** Why [next] returns no record. *)
Definition no_record (bytes : list byte) (size offset : Z) (valid : bool) (s : Status) : Prop :=
  match code s with
  | StatusCode.invalid_argument => valid = false
  | StatusCode.empty =>
      valid = true /\
      (size < offset + wal_record_header_size \/
       span_size (slice (Z.to_nat offset) (Z.to_nat wal_record_header_size) bytes) < wal_record_header_size \/
       is_zero_filled (slice (Z.to_nat offset) (Z.to_nat (size - offset)) bytes) = true \/
       exists h, header_at bytes offset h /\ record_shape h /\
         size < offset + wal_record_header_size + payload_size h)
  | StatusCode.corrupted_record =>
      valid = true /\ exists h, header_at bytes offset h /\
      (~ record_shape h \/
       offset + wal_record_header_size + payload_size h <= size /\
       checksum h <> compute_record_checksum h (payload_at bytes offset h))
  | _ => False
  end.

(** ** The operations meet them *)

Lemma path_empty_spec path : path_empty path = false <-> path <> EmptyString.
Proof. by destruct path. Qed.

Section Operations.
Context {W : Type} `{Posix W}.
Implicit Types (w : W).

(** Why [open_existing] fails: an empty path, a file that [fstat] reports as empty, or a call
    of the operating system. *)
Definition open_error (path : string) w (s : Status) : Prop :=
  let '(fd, w1) := sys_open path O_RDWR w in
  has_code (if path_empty path then StatusCode.invalid_argument
            else if fd =? -1 then StatusCode.io_error
            else match (sys_fstat_size fd w1).1 with
                 | Some n => if n <=? 0 then StatusCode.invalid_argument else StatusCode.io_error
                 | None => StatusCode.io_error
                 end) s.

Ltac operation_tac :=
  repeat match goal with
  | |- context [match ?x with _ => _ end] => destruct x eqn:?
  end; cbn [fst result_is]; try done.

Lemma mmap_create_result path size opt w :
  result_is (fun f => mapped_file path opt f /\ size_ f = size /\ size <> 0)
    (has_code (if path_empty path || (size =? 0) then StatusCode.invalid_argument else StatusCode.io_error))
    (mmap_create path size opt w).1.
Proof.
  unfold mmap_create. destruct (path_empty path) eqn:Ep; [done|].
  destruct (Z.eqb_spec size 0); [done|]. simpl orb. operation_tac.
  apply path_empty_spec in Ep. by split_and!.
Qed.

Lemma mmap_open_existing_result path opt w :
  result_is (fun f => mapped_file path opt f /\ in_width 64 (size_ f)) (open_error path w)
    (mmap_open_existing path opt w).1.
Proof.
  unfold mmap_open_existing, open_error. destruct (sys_open path O_RDWR w) as [fd w1].
  destruct (path_empty path) eqn:Ep; [done|]. apply path_empty_spec in Ep.
  destruct (fd =? -1); [done|]. destruct (sys_fstat_size fd w1) as [[n|] w2]; cbn [fst].
  - destruct (n <=? 0); operation_tac. split; [by split_and!|]. by apply wrap_width.
  - operation_tac.
Qed.

(** The constructor from a status keeps an error. *)
Lemma has_code_normalize c s : c <> StatusCode.ok -> has_code c s -> has_code c (normalize_expected_error s).
Proof.
  intros Hc Hs. unfold has_code, normalize_expected_error, is_ok in *. by rewrite bool_decide_false by congruence.
Qed.

Lemma writer_create_result config w :
  result_is (fun wr => log_config config /\ fresh_writer config wr)
    (fun s => ~ log_config config /\ code s = StatusCode.invalid_argument \/
       log_config config /\ code s = StatusCode.io_error)
    (writer_create config w).1.
Proof.
  unfold writer_create, WalConfig_validate, writer_create_path, log_config, fits_size_t.
  destruct (path_empty (wc_path config)) eqn:Ep.
  { left. split; [|done]. intros [Hp%path_empty_spec _]. congruence. }
  pose proof (proj1 (path_empty_spec _) Ep) as Hp.
  destruct (Z.eqb_spec (wc_file_size_bytes config) 0) as [E0|E0].
  { left. split; [|done]. intros [_ Hs]. rewrite E0 in Hs. by destruct Hs. }
  cbn [is_ok negb]. change (is_ok Status_ok) with true. cbn [negb].
  destruct (Z.ltb_spec (wc_file_size_bytes config) wal_record_header_size); [left; split; [lia|done]|].
  destruct (Z.leb_spec (wc_file_size_bytes config) u64_max); cbn [negb]; [|left; split; [lia|done]].
  pose proof (mmap_create_result (wc_path config) (wc_file_size_bytes config) true w) as R.
  destruct (mmap_create _ _ _ w) as [[f|s] w']; simpl in R |- *.
  - destruct R as (Hm & Hs & _). by split_and!.
  - right. split; [done|]. rewrite Ep in R. destruct (Z.eqb_spec (wc_file_size_bytes config) 0); [done|].
    by apply (has_code_normalize StatusCode.io_error).
Qed.

Lemma reader_open_result path w :
  result_is (fresh_reader path) (open_error path w) (reader_open path w).1.
Proof.
  unfold reader_open. pose proof (mmap_open_existing_result path false w) as R.
  destruct (mmap_open_existing path false w) as [[f|s] w']; simpl in R |- *.
  - destruct R as [Hm Hs]. unfold fresh_reader, reader_widths. simpl. by split_and!.
  - revert R. unfold open_error. destruct (sys_open path O_RDWR w) as [fd w1].
    apply has_code_normalize. by repeat case_match.
Qed.

(** With a 32-bit payload size the shape check looks at the three constant fields only. *)
Lemma record_shape_spec h : header_widths h ->
  is_ok (validate_header_shape h) = true /\ record_shape h \/
  is_ok (validate_header_shape h) = false /\ code (validate_header_shape h) = StatusCode.corrupted_record /\
    ~ record_shape h.
Proof.
  intros (_ & _ & _ & [_ Hp] & _). unfold validate_header_shape, record_shape.
  destruct (Z.eqb_spec (magic h) wal_record_magic); cbn [negb]; [|by right; split_and!; [..|intros (? & ? & ?)]].
  destruct (Z.eqb_spec (version h) wal_format_version); cbn [negb]; [|by right; split_and!; [..|intros (? & ? & ?)]].
  destruct (Z.eqb_spec (header_size h) wal_record_header_size); cbn [negb]; [|by right; split_and!; [..|intros (? & ? & ?)]].
  rewrite Z.gtb_ltb. destruct (Z.ltb_spec max_payload_size (payload_size h)); [|by left].
  unfold max_payload_size, u32_max in *. lia.
Qed.

(** The slices of the tail are slices of the mapped bytes. *)
Lemma tail_header (bytes : list byte) off n :
  wal_record_header_size <= n ->
  take (Z.to_nat wal_record_header_size) (slice off (Z.to_nat n) bytes) =
  slice off (Z.to_nat wal_record_header_size) bytes.
Proof. intros Hn. unfold slice. rewrite take_take. f_equal. lia. Qed.

Lemma tail_payload (bytes : list byte) off n k :
  0 <= off -> 0 <= k -> wal_record_header_size + k <= n ->
  slice (Z.to_nat wal_record_header_size) (Z.to_nat k) (slice (Z.to_nat off) (Z.to_nat n) bytes) =
  slice (Z.to_nat (off + wal_record_header_size)) (Z.to_nat k) bytes.
Proof.
  unfold wal_record_header_size. intros Ho Hk Hn. unfold slice.
  rewrite skipn_firstn_comm, drop_drop, take_take. f_equal; [lia|]. f_equal. lia.
Qed.

(** The reader stays where it is and the code tells why. *)
Ltac stays := split; [done|]; split; [|done]; split; [done|].

(** [next] returns the verified record at the offset and moves behind it, or says why there
    is none and stays. *)
Lemma reader_next_result r w : reader_widths r ->
  let bytes := mmap_bytes (wr_file r) w in
  let size := size_ (wr_file r) in
  let offset := wr_current_offset r in
  reader_widths (reader_next r w).2 /\
  result_is (fun v => verified_record bytes size offset v /\
      (reader_next r w).2 = mkReader (wr_file r)
        (offset + wal_record_header_size + payload_size (rv_header v)) (wr_records_read r ⊞ 1))
    (fun s => no_record bytes size offset (reader_valid r) s /\ (reader_next r w).2 = r)
    (reader_next r w).1.
Proof.
  intros Hr. pose proof Hr as ([Hs0 Hs1] & [Ho0 Ho1] & Hn). cbv zeta. unfold reader_next.
  destruct (reader_valid r) eqn:Ev; cbn [negb]; [|done].
  rewrite Z.geb_leb. destruct (Z.leb_spec (size_ (wr_file r)) (wr_current_offset r)) as [Hend|Hend].
  { stays. left. unfold wal_record_header_size. lia. }
  cbv zeta. rewrite (wrap_id 64 (_ - _)) by (split; lia).
  set (bytes := mmap_bytes (wr_file r) w). set (off := wr_current_offset r) in *.
  set (size := size_ (wr_file r)) in *. unfold fits_size_t.
  destruct (Z.leb_spec off u64_max); [|unfold u64_max in *; lia].
  destruct (Z.leb_spec (size - off) u64_max); [cbn [negb orb]|unfold u64_max in *; lia].
  destruct (Z.ltb_spec (size - off) wal_record_header_size) as [Hshort|Hlong].
  { destruct (is_zero_filled _); stays; left; lia. }
  rewrite tail_header by done.
  destruct (deserialize_header (slice _ _ bytes)) as [h|s] eqn:Eh.
  2:{ revert Eh. unfold deserialize_header. destruct (Z.ltb_spec (span_size (slice (Z.to_nat off)
        (Z.to_nat wal_record_header_size) bytes)) wal_record_header_size); [|done].
      intros [= <-]. stays. by right; left. }
  pose proof (deserialize_widths _ _ Eh) as Hw.
  destruct ((magic h =? 0) && is_zero_filled _) eqn:Ez.
  { apply andb_true_iff in Ez as [_ Ez]. stays. by right; right; left. }
  destruct (record_shape_spec h Hw) as [[-> Hshape]|(-> & Hc & Hshape)]; cbn [negb].
  2:{ split; [done|]. split; [|done]. unfold no_record. simpl.
      rewrite (has_code_normalize StatusCode.corrupted_record) by done. split; [done|]. by exists h; split; [|left]. }
  clear Ez. pose proof Hw as (_ & _ & _ & [Hp0 Hp1] & _). destruct Hshape as (Hm & Hv & Hh).
  assert (Et : record_total_size h = wal_record_header_size + payload_size h).
  { unfold record_total_size. rewrite Hh. apply wrap_id. unfold wal_record_header_size. split; lia. }
  rewrite Et, Hh, Z.gtb_ltb. destruct (Z.ltb_spec (wal_record_header_size + payload_size h) wal_record_header_size);
    [unfold wal_record_header_size in *; lia|cbn [orb]].
  destruct (Z.ltb_spec (size - off) (wal_record_header_size + payload_size h)) as [Hout|Hin].
  { stays. right; right; right. exists h. split_and!; [done..|lia]. }
  destruct (Z.leb_spec (wal_record_header_size + payload_size h) u64_max); [cbn [negb]|unfold u64_max in *; lia].
  rewrite tail_payload by lia. unfold validate_record_checksum. fold (payload_at bytes off h).
  destruct (Z.eqb_spec (checksum h) (compute_record_checksum h (payload_at bytes off h))) as [Ec|Ec]; cbn [negb].
  2:{ stays. exists h. split; [done|]. right. split; [lia|done]. }
  cbn [snd fst result_is]. rewrite wrap_id by (unfold wal_record_header_size in *; split; lia). split.
  { unfold reader_widths. simpl. split_and!; [done..| |by apply wrap_width].
    unfold wal_record_header_size in *. split; lia. }
  rewrite Z.add_assoc. split; [|done]. unfold verified_record. simpl. split_and!; try done. lia.
Qed.
End Operations.

(** A header is decoded from any 40 bytes, into fields of their widths. *)
Lemma deserialize_header_result bytes :
  result_is (fun h => wal_record_header_size <= span_size bytes /\ header_widths h)
    (fun s => span_size bytes < wal_record_header_size /\ code s = StatusCode.empty)
    (deserialize_header bytes).
Proof.
  destruct (deserialize_header bytes) as [h|s] eqn:E; simpl.
  - split; [|by eapply deserialize_widths]. revert E. unfold deserialize_header.
    by destruct (Z.ltb_spec (span_size bytes) wal_record_header_size).
  - revert E. unfold deserialize_header.
    destruct (Z.ltb_spec (span_size bytes) wal_record_header_size); [|done]. by intros [= <-].
Qed.

Lemma make_message_view_result sequence timestamp_ns payload flags :
  result_is (fun m => span_size payload <= max_payload_size /\ mv_payload m = payload /\
      mv_header m = mkMessageHeader sequence timestamp_ns (span_size payload) flags /\
      validate_message_view m = Status_ok)
    (fun s => max_payload_size < span_size payload /\ code s = StatusCode.invalid_argument)
    (make_message_view sequence timestamp_ns payload flags).
Proof.
  unfold make_message_view, validate_message_view, payload_size_fits.
  destruct (Z.leb_spec (span_size payload) max_payload_size); simpl; [|done].
  unfold span_size, max_payload_size, u32_max in *. rewrite wrap_id by (split; lia).
  by rewrite Z.eqb_refl.
Qed.

(** ** Parsers *)

Definition rejects {T} : Expected T -> Prop := result_is (fun _ => True) (has_code StatusCode.invalid_argument).

Lemma invalid_rejects {T} detail : rejects (invalid (T:=T) detail).
Proof. done. Qed.
Lemma bind_rejects {A B} (e : Expected A) (k : A -> Expected B) :
  rejects e -> (forall a, rejects (k a)) -> rejects (expected_bind e k).
Proof.
  intros He Hk. destruct e as [a|s]; [apply Hk|]. by apply (has_code_normalize StatusCode.invalid_argument).
Qed.
Lemma parse_u64_rejects text : rejects (parse_u64 text).
Proof. unfold parse_u64. by repeat case_match. Qed.
Lemma parse_size_rejects text : rejects (parse_size text).
Proof. apply bind_rejects; [apply parse_u64_rejects|]. intros n. by case_match. Qed.
Lemma cursor_value_rejects args i : rejects (cursor_value args i).
Proof. unfold cursor_value. by repeat case_match. Qed.

(** A body only fails with [invalid_argument]. *)
Ltac rejects_tac body :=
  intros args i []; unfold body;
  repeat match goal with
  | |- rejects (if ?b then _ else _) => destruct b
  | |- rejects (expected_bind _ _) => apply bind_rejects; [|intros ?]
  end; eauto using parse_u64_rejects, parse_size_rejects, cursor_value_rejects, invalid_rejects; done.

(** A parser returns options that satisfy [good] or [invalid_argument]. *)
Definition parses_to {Opts} (good : Opts -> Prop) (parsed : outcome (Expected Opts)) : Prop :=
  exists e, parsed = Done e /\ result_is good (has_code StatusCode.invalid_argument) e.

Lemma arg_loop_rejects {Opts} (body : list string -> nat -> Opts -> Expected (Opts * nat)) :
  (forall args i o, rejects (body args i o)) ->
  forall fuel args i o e, arg_loop body fuel args i o = Done e -> rejects e.
Proof.
  intros Hb. induction fuel as [|fuel IH]; intros args i o e; simpl; destruct (_ <? _)%nat; try done;
    try by intros [= <-].
  pose proof (Hb args i o) as R. destruct (body args i o) as [[o1 i1]|s]; [apply IH|]. intros [= <-].
  by apply (has_code_normalize StatusCode.invalid_argument).
Qed.

Lemma parse_args_result {Opts} (body : list string -> nat -> Opts -> Expected (Opts * nat)) init
    (good : Opts -> Prop) argv :
  body_progress body -> (forall args i o, rejects (body args i o)) ->
  (forall o, parse_args body init argv = Done (Value o) -> good o) ->
  parses_to good (parse_args body init argv).
Proof.
  intros Hp Hb Hg. destruct (parse_args_total body init argv Hp) as [e E]. exists e. split; [done|].
  pose proof (arg_loop_rejects body Hb _ _ _ _ _ E) as R. destruct e as [o|s]; [by apply Hg|done].
Qed.

Lemma bench_rejects args i o : rejects (bench_body args i o).
Proof. revert args i o. rejects_tac bench_body. Qed.
Lemma pub_rejects args i o : rejects (pub_body args i o).
Proof. revert args i o. rejects_tac pub_body. Qed.
Lemma sub_rejects args i o : rejects (sub_body args i o).
Proof. revert args i o. rejects_tac sub_body. Qed.
Lemma replay_rejects args i o : rejects (replay_body args i o).
Proof. revert args i o. rejects_tac replay_body. Qed.
Lemma inspect_rejects args i o : rejects (inspect_body args i o).
Proof. revert args i o. rejects_tac inspect_body. Qed.

(** ** Properties *)

(** C38. What every fallible operation returns.  On every operating system and memory, lawful
    or not.  [MmapFile::create] returns a file with the given path, options and non-zero size,
    and otherwise [invalid_argument] for an empty path or a zero size and [io_error] for a
    failed call; [open_existing] a file with the given path and options, or the error
    that the first failing call calls for.  [WalWriter::create] accepts exactly the
    non-empty paths and sizes of at least a header and returns a writer at offset and
    sequence 0; [WalReader::open] a reader at offset 0.  [next] on any
    reader returns a record only if its header, decoded at the offset, has the constant
    fields, the record ends inside the file, the payload is the bytes behind the header, and
    the CRC of the two is the stored checksum; it then moves behind the record, and otherwise
    stays and reports [invalid_argument] for an invalid reader, [empty] for an end, zeros or a
    record that sticks out, [corrupted_record] for a wrong constant field or checksum.  [deserialize_header]
    accepts exactly 40 bytes or more, with fields of their widths; [make_message_view] exactly
    payloads of 32-bit size, in a message that passes its validation.  The five
    parsers return for every command line, options of their widths and of a compiled instance,
    or [invalid_argument]. *)
Theorem expected_results_typed (W : Type) (P : Posix W) (w : W) :
  (forall path size opt,
     result_is (fun f => mapped_file path opt f /\ size_ f = size /\ size <> 0)
       (has_code (if path_empty path || (size =? 0) then StatusCode.invalid_argument else StatusCode.io_error))
       (mmap_create path size opt w).1) /\
  (forall path opt,
     result_is (fun f => mapped_file path opt f /\ in_width 64 (size_ f)) (open_error path w)
       (mmap_open_existing path opt w).1) /\
  (forall config,
     result_is (fun wr => log_config config /\ fresh_writer config wr)
       (fun s => ~ log_config config /\ code s = StatusCode.invalid_argument \/
          log_config config /\ code s = StatusCode.io_error)
       (writer_create config w).1) /\
  (forall path, result_is (fresh_reader path) (open_error path w) (reader_open path w).1) /\
  (forall r, reader_widths r ->
     let bytes := mmap_bytes (wr_file r) w in
     let size := size_ (wr_file r) in
     let offset := wr_current_offset r in
     reader_widths (reader_next r w).2 /\
     result_is (fun v => verified_record bytes size offset v /\
         (reader_next r w).2 = mkReader (wr_file r)
           (offset + wal_record_header_size + payload_size (rv_header v)) (wr_records_read r ⊞ 1))
       (fun s => no_record bytes size offset (reader_valid r) s /\ (reader_next r w).2 = r)
       (reader_next r w).1) /\
  (forall bytes,
     result_is (fun h => wal_record_header_size <= span_size bytes /\ header_widths h)
       (fun s => span_size bytes < wal_record_header_size /\ code s = StatusCode.empty)
       (deserialize_header bytes)) /\
  (forall sequence timestamp_ns payload flags,
     result_is (fun m => span_size payload <= max_payload_size /\ mv_payload m = payload /\
         mv_header m = mkMessageHeader sequence timestamp_ns (span_size payload) flags /\
         validate_message_view m = Status_ok)
       (fun s => max_payload_size < span_size payload /\ code s = StatusCode.invalid_argument)
       (make_message_view sequence timestamp_ns payload flags)) /\
  (forall argv,
     parses_to (fun o => bench_supported o /\ in_width 64 (bench_messages o)) (parse_bench_args argv) /\
     parses_to (fun o => in_width 64 (pub_messages o) /\ in_width 64 (pub_wal_size_bytes o))
       (parse_pub_args argv) /\
     parses_to (fun o => sub_supported o /\ in_width 64 (sub_messages o) /\ in_width 64 (sub_limit o))
       (parse_sub_args argv) /\
     parses_to (fun o => in_width 64 (replay_limit o)) (parse_replay_args argv) /\
     parses_to (fun o => in_width 64 (inspect_limit o)) (parse_inspect_wal_args argv)).
Proof.
  split; [intros; apply mmap_create_result|]. split; [intros; apply mmap_open_existing_result|].
  split; [intros; apply writer_create_result|]. split; [intros; apply reader_open_result|].
  split; [intros; by apply reader_next_result|]. split; [apply deserialize_header_result|].
  split; [intros; apply make_message_view_result|]. intros argv. split_and!; apply parse_args_result.
  - exact bench_progress.
  - exact bench_rejects.
  - apply Bench.bench_parsed.
  - exact pub_progress.
  - exact pub_rejects.
  - apply pub_parsed.
  - exact sub_progress.
  - exact sub_rejects.
  - intros o E. split; [by eapply sub_capacity_parsed|by eapply sub_parsed].
  - exact replay_progress.
  - exact replay_rejects.
  - apply replay_limit_parsed.
  - exact inspect_progress.
  - exact inspect_rejects.
  - apply inspect_limit_parsed.
Qed.

(** Reading the first record of a log that holds two. *)
Lemma expected_results_typed_witness :
  reader_widths toy_opened_reader /\
  exists v, (reader_next toy_opened_reader toy_opened.2).1 = Value v /\
    verified_record (mmap_bytes (wr_file toy_opened_reader) toy_opened.2) 128 0 v /\
    payload_size (rv_header v) > 0.
Proof.
  assert (Hw : reader_widths toy_opened_reader) by (split_and!; vm_compute; split; (discriminate || reflexivity)).
  split; [exact Hw|].
  destruct (expected_results_typed ToyOs.world ToyOs.posix toy_opened.2) as (_ & _ & _ & _ & H & _).
  destruct (H toy_opened_reader Hw) as [_ R].
  destruct (reader_next toy_opened_reader toy_opened.2) as [[v|s] r'] eqn:E; [|vm_compute in E; discriminate].
  exists v. split; [reflexivity|]. split; [exact (proj1 R)|]. vm_compute in E. injection E as <- _. reflexivity.
Defined.
