(* ===== verification/UnitTests.v ===== *)
(** * The unit tests of the repository

    The programs of tests/*.cpp run on the model.  Each sequential test is the same sequence
    of calls and checks, on the definitions of the other files, with the concrete operating
    system [ToyOs] under the tests that use files; its theorem says that the program ends
    with exit code 0.  The two tests that start threads (test_spsc_concurrent.cpp and
    test_spsc_stress.cpp) run the loops of stress_spsc.cpp, the model of which StressSpsc.v has;
    they pass in every interleaving.  Not repeated are the checks on layout
    ([sizeof], [static_assert]), on the state of an object that was moved from, and the removal
    of the files that a test leaves behind. *)

From S2P Require Import Prelude Core Metrics Spsc ZeroCopy Broker WalFormat Posix MmapFile Wal PersistentBroker.
From S2P Require Import CliArgs Histogram Apps PubSub StressSpsc Examples.
#[local] Open Scope list_scope.
#[local] Open Scope Z_scope.

(** ** Test programs *)

(** A program that counts the checks that fail; [None] is undefined behaviour or an early return
    with exit code 1. *)
Definition test (A : Type) : Type := Z -> option (A * Z).
#[export] Instance test_ret : MRet test := fun A a failures => Some (a, failures).
#[export] Instance test_bind : MBind test := fun A B f m failures =>
  match m failures with Some (a, failures) => f a failures | None => None end.

(** [failures += check(condition, ...)]. *)
Definition expect (condition : bool) : test unit :=
  fun failures => Some (tt, if condition then failures else failures + 1).
(** A call that may be undefined, and the value of an [Expected] without which the test returns. *)
Definition run {A} (o : option A) : test A := fun failures => a ← o; Some (a, failures).
Definition need {A} (e : Expected A) : test A := run (value e).
Definition finished {A} (o : outcome A) : test A := run (match o with Done a => Some a | _ => None end).
Definition exit_code (t : test unit) : option Z :=
  '(_, failures) ← t 0; Some (if failures =? 0 then 0 else 1).

Fixpoint for_each {A S : Type} (body : A -> S -> test S) (l : list A) (s : S) : test S :=
  match l with
  | [] => mret s
  | a :: l => s ← body a s; for_each body l s
  end.
Definition has_code (s : Status) (c : StatusCode.t) : bool := bool_decide (code s = c).
Definition text_eq (a b : string) : bool := String.eqb a b.
Definition bytes_of_text (s : string) : list byte := String.list_byte_of_string s.
Definition numbers (from : Z) (n : nat) : list Z := map (fun k => from + Z.of_nat k) (seq 0 n).

(** ** test_status.cpp, test_message.cpp, test_version.cpp *)

Definition test_status : test unit :=
  let default_status := mkStatus StatusCode.ok EmptyString in
  let full_status := mkStatus StatusCode.full EmptyString in
  let custom_status := mkStatus StatusCode.io_error "custom detail" in
  let another_full_status := mkStatus StatusCode.full EmptyString in
  let value_result := Value 42 in
  let error_result := Expected_of_status (T:=Z) (mkStatus StatusCode.empty EmptyString) in
  let void_error := ExpectedVoid_of_status (mkStatus StatusCode.out_of_space EmptyString) in
  expect (is_ok default_status);;
  expect (is_ok Status_ok);;
  expect (negb (is_ok full_status));;
  expect (text_eq (status_code_name StatusCode.full) "full");;
  expect (negb (text_eq (status_code_message StatusCode.empty) EmptyString));;
  expect (text_eq (message custom_status) "custom detail");;
  expect (Status_eqb full_status another_full_status);;
  expect (negb (Status_eqb full_status custom_status));;
  expect (has_value value_result);;
  v ← need value_result;
  expect (v =? 42);;
  expect (negb (has_value error_result));;
  expect (has_code (status error_result) StatusCode.empty);;
  expect (ExpectedVoid_has_value Status_ok);;
  expect (negb (ExpectedVoid_has_value void_error));;
  expect (has_code void_error StatusCode.out_of_space);;
  mret tt.

Definition test_message : test unit :=
  let header := mkMessageHeader 0 0 0 0 in
  let empty_message := mkMessageView header [] in
  let payload := [Byte.x01; Byte.x02; Byte.x03; Byte.x04] in
  let result := make_message_view 7 12345 payload 10 in
  expect (mh_payload_size (mv_header empty_message) =? 0);;
  expect (span_size (mv_payload empty_message) =? 0);;
  expect (span_size payload =? 4);;
  expect (has_value result);;
  message ← need result;
  expect (mh_sequence (mv_header message) =? 7);;
  expect (mh_timestamp_ns (mv_header message) =? 12345);;
  expect (mh_payload_size (mv_header message) =? 4);;
  expect (mh_flags (mv_header message) =? 10);;
  expect (bool_decide (mv_payload message = payload));;
  expect (is_ok (validate_message_view message));;
  let bad_header := mkMessageHeader 7 12345 3 10 in
  let bad_message := mkMessageView bad_header (mv_payload message) in
  expect (has_code (validate_message_view bad_message) StatusCode.invalid_argument);;
  expect (payload_size_fits 0);;
  expect (payload_size_fits max_payload_size);;
  mret tt.

Definition test_version : test unit :=
  expect (Examples.version_major =? 0);;
  expect (Examples.version_minor =? 1);;
  expect (Examples.version_patch =? 0);;
  expect (text_eq Examples.version_string "0.1.0");;
  expect (negb (text_eq Examples.version_string EmptyString));;
  mret tt.

(** ** test_counters.cpp *)

Definition all_zero (s : BrokerMetricsSnapshot) : bool :=
  (published s =? 0) && (consumed s =? 0) && (publish_failed_full s =? 0) &&
  (consume_failed_empty s =? 0) && (publish_failed_invalid s =? 0) && (consume_failed_invalid s =? 0) &&
  (wal_bytes_written s =? 0) && (wal_records_written s =? 0) && (wal_flushes s =? 0) &&
  (wal_failures s =? 0) && (recovered_records s =? 0) && (recovery_failures s =? 0).

Definition test_counters : test unit :=
  let counters := BrokerCounters_init in
  expect (all_zero (snapshot counters));;
  let counters := record_published counters in
  let counters := record_consumed counters in
  let counters := record_publish_failed_full counters in
  let counters := record_consume_failed_empty counters in
  let counters := record_publish_failed_invalid counters in
  let counters := record_consume_failed_invalid counters in
  let counters := record_wal_write 40 counters in
  let counters := record_wal_write 2 counters in
  let counters := record_wal_flush counters in
  let counters := record_wal_failure counters in
  let counters := record_recovered_record counters in
  let counters := record_recovery_failure counters in
  let snap := snapshot counters in
  expect (published snap =? 1);;
  expect (consumed snap =? 1);;
  expect (publish_failed_full snap =? 1);;
  expect (consume_failed_empty snap =? 1);;
  expect (publish_failed_invalid snap =? 1);;
  expect (consume_failed_invalid snap =? 1);;
  expect (wal_records_written snap =? 2);;
  expect (wal_bytes_written snap =? 42);;
  expect (wal_flushes snap =? 1);;
  expect (wal_failures snap =? 1);;
  expect (recovered_records snap =? 1);;
  expect (recovery_failures snap =? 1);;
  let counters := record_published counters in
  expect (published snap =? 1);;
  let counters := counters_reset counters in
  expect (all_zero (snapshot counters));;
  mret tt.

(** ** test_latency_histogram.cpp *)

(** A [double] literal with an integral value. *)
Definition double_of_int (n : Z) : double := Finite n 0.
(** [h.percentile(p) == expected], for an integer [p]. *)
Definition percentile_is (p : Z) (h : LatencyHistogram) (expected : Z) : test unit :=
  x ← run (Histogram.percentile (double_of_int p) h);
  expect (x =? expected);;
  mret tt.
Definition quantiles_are (h : LatencyHistogram) (expected : list Z) : test unit :=
  p50 ← run (Histogram.p50 h);
  p95 ← run (Histogram.p95 h);
  p99 ← run (Histogram.p99 h);
  p999 ← run (Histogram.p999 h);
  expect (bool_decide (take (length expected) [p50; p95; p99; p999] = expected));;
  mret tt.
Definition mean_is (h : LatencyHistogram) (n : Z) : bool := double_le_int (Histogram.mean h) n && double_ge_int (Histogram.mean h) n.
Definition record_all (l : list Z) (h : LatencyHistogram) : LatencyHistogram := fold_left (fun h v => Histogram.record v h) l h.

Definition test_latency_histogram : test unit :=
  let h := Histogram.init in
  expect (Histogram.empty h && (Histogram.count h =? 0));;
  expect ((Histogram.min h =? 0) && (Histogram.max h =? 0) && mean_is h 0);;
  quantiles_are h [0; 0; 0; 0];;
  let h := Histogram.record 123 h in
  expect ((Histogram.count h =? 1) && (Histogram.min h =? 123) && (Histogram.max h =? 123));;
  expect (mean_is h 123);;
  quantiles_are h [123; 123; 123; 123];;
  let h := record_all [10; 20; 30; 40; 50] (Histogram.clear h) in
  expect ((Histogram.min h =? 10) && (Histogram.max h =? 50) && mean_is h 30);;
  quantiles_are h [30; 50; 50];;
  let h := record_all [100; 10; 50; 20] (Histogram.clear h) in
  percentile_is 50 h 20;;
  percentile_is 75 h 50;;
  percentile_is (-10) h 10;;
  percentile_is 0 h 10;;
  percentile_is 100 h 100;;
  percentile_is 150 h 100;;
  let h := Histogram.clear h in
  expect (Histogram.empty h && (Histogram.count h =? 0));;
  let h := Histogram.reserve 100 h in
  expect (Histogram.empty h && (Histogram.count h =? 0));;
  mret tt.

(** ** test_spsc_basic.cpp, test_spsc_move_only.cpp, test_spsc_wraparound.cpp *)

(** [check(queue.try_push(v))], and [check(queue.try_pop(out))] with [check(out == expected)]. *)
Definition push_ok {T} (Capacity : Z) (v : T) (queue : SpscRingBuffer T) : test (SpscRingBuffer T) :=
  '(pushed, queue) ← run (try_push Capacity v queue);
  expect pushed;;
  mret queue.
Definition pop_is {T} `{EqDecision T} (Capacity : Z) (expected : T) (queue : SpscRingBuffer T) : test (SpscRingBuffer T) :=
  '(out, queue) ← run (try_pop Capacity queue);
  expect (bool_decide (is_Some out));;
  expect (bool_decide (out = Some expected));;
  mret queue.
Definition push_full {T} (Capacity : Z) (v : T) (queue : SpscRingBuffer T) : test (SpscRingBuffer T) :=
  '(pushed, queue) ← run (try_push Capacity v queue);
  expect (negb pushed);;
  mret queue.

#[local] Instance MessageHeader_dec : EqDecision MessageHeader.
Proof. solve_decision. Defined.

Definition test_spsc_basic : test unit :=
  let queue := SpscRingBuffer_init (T:=Z) 4 in
  expect (ring_empty queue);;
  expect (negb (ring_full 4 queue));;
  expect (ring_capacity 4 =? 4);;
  expect (size_approx queue =? 0);;
  '(out, queue) ← run (try_pop 4 queue);
  expect (bool_decide (out = None));;
  queue ← push_ok 4 42 queue;
  expect (negb (ring_empty queue));;
  queue ← pop_is 4 42 queue;
  expect (ring_empty queue);;
  queue ← for_each (push_ok 4) [0; 1; 2; 3] queue;
  expect (ring_full 4 queue);;
  queue ← push_full 4 99 queue;
  queue ← for_each (pop_is 4) [0; 1; 2; 3] queue;
  expect (ring_empty queue);;
  small_queue ← push_ok 2 7 (SpscRingBuffer_init 2);
  small_queue ← push_ok 2 8 small_queue;
  small_queue ← push_full 2 9 small_queue;
  small_queue ← pop_is 2 7 small_queue;
  small_queue ← pop_is 2 8 small_queue;
  let header := mkMessageHeader 123 456 789 10 in
  header_queue ← push_ok 4 header (SpscRingBuffer_init 4);
  header_queue ← pop_is 4 header header_queue;
  mret tt.

(** [MoveOnlyPayload], with its constructor from an integer. *)
Record MoveOnlyPayload : Set := mkMoveOnly { mo_value : Z }.
#[local] Instance MoveOnlyPayload_dec : EqDecision MoveOnlyPayload.
Proof. solve_decision. Defined.
Definition emplace_is (Capacity : Z) (expected : bool) (v : Z) (queue : SpscRingBuffer MoveOnlyPayload)
    : test (SpscRingBuffer MoveOnlyPayload) :=
  '(pushed, queue) ← run (try_emplace Capacity mkMoveOnly v queue);
  expect (Bool.eqb pushed expected);;
  mret queue.

(** A [std::unique_ptr<int>] is the integer it points to. *)
Definition test_spsc_move_only : test unit :=
  ptr_queue ← push_ok 4 42 (SpscRingBuffer_init 4);
  ptr_queue ← pop_is 4 42 ptr_queue;
  ptr_queue ← for_each (push_ok 4) [0; 1; 2; 3] ptr_queue;
  ptr_queue ← push_full 4 99 ptr_queue;
  ptr_queue ← for_each (pop_is 4) [0; 1; 2; 3] ptr_queue;
  payload_queue ← emplace_is 4 true 7 (SpscRingBuffer_init 4);
  payload_queue ← push_ok 4 (mkMoveOnly 8) payload_queue;
  payload_queue ← pop_is 4 (mkMoveOnly 7) payload_queue;
  payload_queue ← pop_is 4 (mkMoveOnly 8) payload_queue;
  payload_queue ← for_each (emplace_is 4 true) (numbers 10 4) payload_queue;
  payload_queue ← emplace_is 4 false 14 payload_queue;
  payload_queue ← for_each (fun v => pop_is 4 (mkMoveOnly v)) (numbers 10 4) payload_queue;
  mret tt.

(** The program has 1000 cycles and 10000 rounds. *)
Definition test_spsc_wraparound (cycles rounds : nat) : test unit :=
  queue ← for_each (fun cycle queue =>
      queue ← for_each (push_ok 8) (numbers (cycle * 8) 8) queue;
      for_each (pop_is 8) (numbers (cycle * 8) 8) queue)
    (numbers 0 cycles) (SpscRingBuffer_init 8);
  interleaved ← for_each (push_ok 8) (numbers 1 4) (SpscRingBuffer_init 8);
  interleaved ← for_each (pop_is 8) (numbers 1 2) interleaved;
  interleaved ← for_each (push_ok 8) (numbers 5 4) interleaved;
  interleaved ← for_each (pop_is 8) [3; 4; 5; 6; 7; 8] interleaved;
  rolling ← for_each (fun v queue => queue ← push_ok 8 v queue; pop_is 8 v queue)
    (numbers 0 rounds) (SpscRingBuffer_init 8);
  mret tt.

(** ** test_spsc_concurrent.cpp, test_spsc_stress.cpp *)

Definition test_backpressure : test unit :=
  queue ← for_each (push_ok 4) [0; 1; 2; 3] (SpscRingBuffer_init 4);
  expect (ring_full 4 queue);;
  queue ← push_full 4 4 queue;
  queue ← pop_is 4 0 queue;
  queue ← push_ok 4 4 queue;
  queue ← for_each (pop_is 4) [1; 2; 3; 4] queue;
  expect (ring_empty queue);;
  mret tt.

(** The transfer between two threads, and whether its three checks hold; test_ordered_transfer
    counts no retries. *)
Definition message_count : Z := 1000000.
Definition ordered_transfer (passed : bool) : Prop := Stress.run_stress 1024 message_count passed.
Definition run_case (Capacity : Z) (passed : bool) : Prop := Stress.run_stress Capacity message_count passed.
Definition stress_cases : list Z := [64; 256; 1024; 65536].

(** ** test_broker.cpp *)

Section BrokerTests.
Context {T : Type} `{EqDecision T} (Capacity : Z).
(** [check(broker.try_publish(v).code() == c)] and the like; [code] ok is [is_ok]. *)
Definition publish_is (c : StatusCode.t) (v : T) (b : BrokerState (SpscRingBuffer T))
    : test (BrokerState (SpscRingBuffer T)) :=
  '(s, b) ← run (Broker.try_publish (Capacity:=Capacity) v b);
  expect (has_code s c);;
  mret b.
Definition consume_is (expected : T) (b : BrokerState (SpscRingBuffer T))
    : test (BrokerState (SpscRingBuffer T)) :=
  '(s, out, b) ← run (Broker.try_consume (Capacity:=Capacity) b);
  expect (is_ok s);;
  expect (bool_decide (out = Some expected));;
  mret b.
Definition consume_fails (c : StatusCode.t) (b : BrokerState (SpscRingBuffer T))
    : test (BrokerState (SpscRingBuffer T)) :=
  '(s, _, b) ← run (Broker.try_consume (Capacity:=Capacity) b);
  expect (has_code s c);;
  mret b.
Definition new_broker : BrokerState (SpscRingBuffer T) := Broker.init (Capacity:=Capacity).
End BrokerTests.

Definition config_8 : QueueConfig :=
  mkQueueConfig 8 (qc_spin_pause_iterations QueueConfig_default) (qc_yield_after_spin QueueConfig_default).

Definition test_broker : test unit :=
  let broker := new_broker (T:=Z) 4 in
  let metrics b := Broker.metrics_snapshot (Q:=SpscRingBuffer Z) b in
  expect (Broker.empty (Capacity:=4) broker);;
  expect ((published (metrics broker) =? 0) && (consumed (metrics broker) =? 0));;
  broker ← consume_fails 4 StatusCode.empty broker;
  expect (consume_failed_empty (metrics broker) =? 1);;
  broker ← publish_is 4 StatusCode.ok 42 broker;
  expect (published (metrics broker) =? 1);;
  broker ← consume_is 4 42 broker;
  expect (consumed (metrics broker) =? 1);;
  let broker := Broker.reset_metrics broker in
  expect ((published (metrics broker) =? 0) && (consume_failed_empty (metrics broker) =? 0));;
  small_broker ← publish_is 2 StatusCode.ok 1 (new_broker 2);
  small_broker ← publish_is 2 StatusCode.ok 2 small_broker;
  small_broker ← publish_is 2 StatusCode.full 3 small_broker;
  expect (publish_failed_full (metrics small_broker) =? 1);;
  ordered_broker ← for_each (publish_is 1024 StatusCode.ok) (numbers 0 1000) (new_broker 1024);
  ordered_broker ← for_each (consume_is 1024) (numbers 0 1000) ordered_broker;
  (* [EmplacedEvent]: the identifier and twice the value *)
  '(s, emplace_broker) ← run (Broker.try_emplace (Capacity:=8) (fun a : Z * Z => a) (7, 25) (new_broker 8));
  expect (is_ok s);;
  emplace_broker ← consume_is 8 (7, 25) emplace_broker;
  move_broker ← publish_is 4 StatusCode.ok 42 (new_broker 4);
  move_broker ← consume_is 4 42 move_broker;
  let valid_broker := Broker.of_config (Q:=SpscRingBuffer Z) (Capacity:=8) config_8 in
  let invalid_broker := Broker.of_config (Q:=SpscRingBuffer Z) (Capacity:=4) config_8 in
  expect (Broker.valid valid_broker);;
  expect (negb (Broker.valid invalid_broker));;
  expect (has_code (Broker.config_status invalid_broker) StatusCode.invalid_argument);;
  invalid_broker ← publish_is 4 StatusCode.invalid_argument 1 invalid_broker;
  invalid_broker ← consume_fails 4 StatusCode.invalid_argument invalid_broker;
  expect ((publish_failed_invalid (metrics invalid_broker) =? 1) &&
          (consume_failed_invalid (metrics invalid_broker) =? 1));;
  expect (text_eq (broker_durability_mode_name BrokerDurabilityMode.in_memory) "in_memory");;
  mret tt.

(** ** test_batch_broker.cpp *)

Section BatchTests.
Context (Capacity : Z).
Definition publish_batch_is (expected : Z) (messages : list Z) (b : BrokerState (SpscRingBuffer Z))
    : test (BrokerState (SpscRingBuffer Z)) :=
  '(n, b) ← run (BatchBroker.try_publish_batch (Capacity:=Capacity) messages b);
  expect (n =? expected);;
  mret b.
Definition consume_batch_is (expected : Z) (out : list Z) (b : BrokerState (SpscRingBuffer Z))
    : test (list Z * BrokerState (SpscRingBuffer Z)) :=
  '(n, out, b) ← run (BatchBroker.try_consume_batch (Capacity:=Capacity) out b);
  expect (n =? expected);;
  mret (out, b).
End BatchTests.

Definition test_batch_broker : test unit :=
  let metrics b := BatchBroker.metrics_snapshot (Q:=SpscRingBuffer Z) b in
  let broker := BatchBroker.init (Q:=SpscRingBuffer Z) (Capacity:=8) in
  expect (BatchBroker.empty (Capacity:=8) broker);;
  expect ((published (metrics broker) =? 0) && (consumed (metrics broker) =? 0));;
  let input := [1; 2; 3; 4] in
  broker ← publish_batch_is 8 4 input broker;
  '(output, broker) ← consume_batch_is 8 4 [0; 0; 0; 0] broker;
  expect (bool_decide (output = input));;
  small ← publish_batch_is 4 4 [1; 2; 3; 4; 5; 6] (BatchBroker.init (Capacity:=4));
  expect (BatchBroker.full (Capacity:=4) small);;
  expect (publish_failed_full (metrics small) =? 1);;
  small ← publish_batch_is 4 0 [7; 8] small;
  expect (publish_failed_full (metrics small) =? 2);;
  '(large_out, small) ← consume_batch_is 4 4 (replicate 8 0) small;
  '(large_out, small) ← consume_batch_is 4 0 large_out small;
  expect (consume_failed_empty (metrics small) =? 1);;
  let small := BatchBroker.reset_metrics small in
  small ← publish_batch_is 4 0 [] small;
  '(_, small) ← consume_batch_is 4 0 [] small;
  expect ((publish_failed_full (metrics small) =? 0) && (consume_failed_empty (metrics small) =? 0));;
  let invalid := BatchBroker.of_config (Q:=SpscRingBuffer Z) (Capacity:=4) config_8 in
  expect (negb (BatchBroker.valid invalid));;
  invalid ← publish_batch_is 4 0 input invalid;
  '(_, invalid) ← consume_batch_is 4 0 output invalid;
  expect ((publish_failed_invalid (metrics invalid) =? 1) && (consume_failed_invalid (metrics invalid) =? 1));;
  '(s, broker) ← run (BatchBroker.try_publish (Capacity:=8) 42 broker);
  expect (is_ok s);;
  '(s, v, broker) ← run (BatchBroker.try_consume (Capacity:=8) broker);
  expect (is_ok s && bool_decide (v = Some 42));;
  '(s, move_broker) ← run (BatchBroker.try_publish (Capacity:=4) 9 (BatchBroker.init (Capacity:=4)));
  expect (is_ok s);;
  '(s, moved, _) ← run (BatchBroker.try_consume (Capacity:=4) move_broker);
  expect (is_ok s && bool_decide (moved = Some 9));;
  ordered ← publish_batch_is 1024 1000 (numbers 0 1000) (BatchBroker.init (Capacity:=1024));
  '(out, _) ← consume_batch_is 1024 1000 (replicate 1000 0) ordered;
  expect (bool_decide (out = numbers 0 1000));;
  mret tt.

(** ** test_zero_copy_spsc.cpp *)

(** [queue.try_reserve()] dereferenced, [reservation->construct(v)] and [reservation->commit()]. *)
Definition reserve {T} (Capacity : Z) (queue : ZeroCopySpsc T) : test (Reservation * ZeroCopySpsc T) :=
  let '(r, queue) := ZeroCopy.try_reserve Capacity queue in
  r ← run r;
  mret (r, queue).
Definition construct {T} (v : T) (r : Reservation) (queue : ZeroCopySpsc T) : test (Reservation * ZeroCopySpsc T) :=
  run (ZeroCopy.construct (fun v => v) v r queue).
(** The body of the loops that fill a queue; the reservation is destroyed at its end. *)
Definition reserve_commit {T} (Capacity : Z) (v : T) (queue : ZeroCopySpsc T) : test (ZeroCopySpsc T) :=
  '(r, queue) ← reserve Capacity queue;
  '(r, queue) ← construct v r queue;
  let '(committed, r, queue) := ZeroCopy.commit r queue in
  expect committed;;
  run (ZeroCopy.destroy_reservation r queue).
Definition consumed_is {T} `{EqDecision T} (Capacity : Z) (expected : T) (queue : ZeroCopySpsc T) : test (ZeroCopySpsc T) :=
  '(out, queue) ← run (ZeroCopy.try_consume Capacity queue);
  expect (bool_decide (out = Some expected));;
  mret queue.

Definition test_zero_copy_spsc : test unit :=
  let queue := ZeroCopy.init (T:=Z) 4 in
  expect (ZeroCopy.empty queue && negb (ZeroCopy.full 4 queue));;
  '(reservation, queue) ← reserve 4 queue;
  '(reservation, queue) ← construct 42 reservation queue;
  expect (r_constructed reservation);;
  let '(committed, reservation, queue) := ZeroCopy.commit reservation queue in
  expect committed;;
  queue ← consumed_is 4 42 queue;
  '(no_construct, queue) ← reserve 4 queue;
  let '(committed, no_construct, queue) := ZeroCopy.commit no_construct queue in
  expect (negb committed);;
  expect (ZeroCopy.empty queue);;
  '(no_construct, queue) ← run (ZeroCopy.cancel no_construct queue);
  '(cancelled, queue) ← reserve 4 queue;
  '(cancelled, queue) ← construct 7 cancelled queue;
  '(cancelled, queue) ← run (ZeroCopy.cancel cancelled queue);
  expect (ZeroCopy.empty queue);;
  '(auto_cancel, queue) ← reserve 4 queue;
  '(auto_cancel, queue) ← construct 8 auto_cancel queue;
  queue ← run (ZeroCopy.destroy_reservation auto_cancel queue);
  expect (ZeroCopy.empty queue);;
  '(active, queue) ← reserve 4 queue;
  let '(second, queue) := ZeroCopy.try_reserve 4 queue in
  expect (bool_decide (second = None));;
  '(active, queue) ← run (ZeroCopy.cancel active queue);
  ordered ← for_each (reserve_commit 1024) (numbers 0 1000) (ZeroCopy.init 1024);
  ordered ← for_each (consumed_is 1024) (numbers 0 1000) ordered;
  wrap ← for_each (fun cycle wrap =>
      '(r, wrap) ← reserve 4 wrap;
      '(r, wrap) ← construct cycle r wrap;
      let '(_, r, wrap) := ZeroCopy.commit r wrap in
      wrap ← consumed_is 4 cycle wrap;
      run (ZeroCopy.destroy_reservation r wrap))
    (numbers 0 200) (ZeroCopy.init 4);
  full ← for_each (reserve_commit 4) (numbers 0 4) (ZeroCopy.init 4);
  expect (ZeroCopy.full 4 full);;
  let '(r, full) := ZeroCopy.try_reserve 4 full in
  expect (bool_decide (r = None));;
  move_queue ← reserve_commit 4 123 (ZeroCopy.init 4);
  move_queue ← consumed_is 4 123 move_queue;
  for_each (fun r queue => run (ZeroCopy.destroy_reservation r queue))
    [active; cancelled; no_construct; reservation] queue;;
  mret tt.

(** ** test_cli_args.cpp *)

Section CliTests.
Context {O : Type} (parse : list string -> outcome (Expected O)).
Definition parsed_is (ok : O -> bool) (args : list string) : test unit :=
  r ← finished (parse args);
  options ← need r;
  expect (ok options).
Definition check_invalid (args : list string) : test unit :=
  r ← finished (parse args);
  expect (negb (has_value r));;
  expect (has_code (status r) StatusCode.invalid_argument).
End CliTests.

Definition test_cli_args : test unit :=
  parsed_is parse_bench_args bench_help ["aether_bench"; "--help"];;
  parsed_is parse_pub_args pub_help ["aether_pub"; "-h"];;
  parsed_is parse_sub_args sub_help ["aether_sub"; "--help"];;
  parsed_is parse_replay_args replay_help ["aether_replay"; "-h"];;
  parsed_is parse_inspect_wal_args inspect_help ["aether_inspect_wal"; "--help"];;
  parsed_is parse_bench_args (fun o => (bench_messages o =? 1000000) && (bench_payload_size o =? 64) &&
    (bench_capacity o =? 65536) && text_eq (bench_output_dir o) "benchmark-results") ["aether_bench"];;
  parsed_is parse_pub_args (fun o => text_eq (pub_wal_path o) "data/sample.wal" && (pub_messages o =? 1000) &&
    (pub_wal_size_bytes o =? 64 * 1024 * 1024) && negb (pub_flush_on_commit o)) ["aether_pub"];;
  parsed_is parse_sub_args (fun o => (sub_messages o =? 10) && (sub_limit o =? 10) &&
    (sub_capacity o =? 1024) && text_eq (sub_wal_path o) EmptyString) ["aether_sub"];;
  parsed_is parse_replay_args (fun o => text_eq (replay_wal_path o) "data/sample.wal" && (replay_limit o =? 0) &&
    (replay_payload_preview_bytes o =? 32)) ["aether_replay"];;
  parsed_is parse_inspect_wal_args (fun o => text_eq (inspect_wal_path o) "data/sample.wal" && (inspect_limit o =? 0) &&
    negb (inspect_verbose o)) ["aether_inspect_wal"];;
  parsed_is parse_bench_args (fun o => (bench_messages o =? 42) && (bench_payload_size o =? 256) &&
    (bench_capacity o =? 4096) && text_eq (bench_output_dir o) "out")
    ["aether_bench"; "--messages"; "42"; "--payload-size=256"; "--capacity"; "4096"; "--output-dir=out"];;
  parsed_is parse_pub_args (fun o => text_eq (pub_wal_path o) "x.wal" && (pub_messages o =? 11) &&
    (pub_wal_size_bytes o =? 4096) && pub_flush_on_commit o)
    ["aether_pub"; "--wal"; "x.wal"; "--messages=11"; "--wal-size"; "4096"; "--flush-on-commit"];;
  parsed_is parse_sub_args (fun o => text_eq (sub_wal_path o) "demo.wal" && (sub_limit o =? 3) &&
    (sub_messages o =? 9) && (sub_capacity o =? 64))
    ["aether_sub"; "--wal=demo.wal"; "--limit"; "3"; "--messages=9"; "--capacity"; "64"];;
  parsed_is parse_replay_args (fun o => (replay_payload_preview_bytes o =? 8) && (replay_limit o =? 2) &&
    text_eq (replay_wal_path o) "r.wal")
    ["aether_replay"; "--payload-preview-bytes=8"; "--limit"; "2"; "--wal"; "r.wal"];;
  parsed_is parse_inspect_wal_args (fun o => inspect_verbose o && (inspect_limit o =? 5) &&
    text_eq (inspect_wal_path o) "i.wal") ["aether_inspect_wal"; "--verbose"; "--limit=5"; "--wal"; "i.wal"];;
  check_invalid parse_bench_args ["aether_bench"; "--unknown"];;
  check_invalid parse_bench_args ["aether_bench"; "--messages"];;
  check_invalid parse_bench_args ["aether_bench"; "--messages"; "abc"];;
  check_invalid parse_bench_args ["aether_bench"; "--messages"; "-1"];;
  check_invalid parse_bench_args ["aether_bench"; "--payload-size"; "7"];;
  check_invalid parse_sub_args ["aether_sub"; "--capacity"; "123"];;
  expect (negb (existsb (text_eq EmptyString)
    [bench_help_text; pub_help_text; sub_help_text; replay_help_text; inspect_wal_help_text])).

(** ** test_wal_record.cpp *)

Definition test_wal_record : test unit :=
  let header := mkHeader wal_record_magic wal_format_version wal_record_header_size 5 42 1000
    (Z.of_N 0x12345678) (Z.of_N 0xABCDEF00) in
  let bytes := serialize_header header in
  expect (wal_record_header_size =? 40);;
  expect (span_size bytes =? 40);;
  expect (bool_decide (take 4 bytes = bytes_of_text "AWAL"));;
  expect (wal_format_version =? 1);;
  expect (bool_decide (take 4 (drop 12 bytes) = replicate 4 Byte.x00));;
  decoded ← need (deserialize_header bytes);
  expect (bool_decide (decoded = header));;
  let corrupted h := has_code (validate_header_shape h) StatusCode.corrupted_record in
  let shape magic version header_size := mkHeader magic version header_size 5 42 1000
    (checksum header) (flags header) in
  expect (corrupted (shape 1 wal_format_version wal_record_header_size));;
  expect (corrupted (shape wal_record_magic 2 wal_record_header_size));;
  expect (corrupted (shape wal_record_magic wal_format_version 39));;
  let header := set_checksum (compute_record_checksum header (bytes_of_text "hello")) header in
  expect (validate_record_checksum header (bytes_of_text "hello"));;
  expect (negb (validate_record_checksum header (bytes_of_text "Hello"))).

(** ** Tests that use files *)

(** The directory holds no files at the start; [w] is what the operating system holds. *)
Definition start : ToyOs.world := ToyOs.boot [].
Implicit Types w : ToyOs.world.

(** A file written and read through a stream of the test. *)
Definition write_file (path : string) (content : list byte) w : ToyOs.world :=
  ToyOs.set_view (set_file path content (ToyOs.view w)) w.
Definition read_file (path : string) w : test (list byte) := run (os_files (ToyOs.view w) !! path).

(** *** test_mmap_file.cpp *)

Definition write_marker (file : MmapFile) (offset : nat) (marker : string) w : ToyOs.world :=
  mem_store (data_ file) offset (bytes_of_text marker) w.
Definition marker_matches (file : MmapFile) (offset : nat) (marker : string) w : bool :=
  let bytes := bytes_of_text marker in
  bool_decide (take (length bytes) (drop offset (mmap_bytes file w)) = bytes).

Definition test_mmap_file : test unit :=
  let w := start in
  let path := "test.mmap" in
  let destructor_path := "test_destructor.mmap" in
  let '(empty_path_result, w) := mmap_create EmptyString 4096 true w in
  expect (negb (has_value empty_path_result));;
  expect (has_code (status empty_path_result) StatusCode.invalid_argument);;
  let '(zero_size_result, w) := mmap_create path 0 true w in
  expect (negb (has_value zero_size_result));;
  expect (has_code (status zero_size_result) StatusCode.invalid_argument);;
  let '(create_result, w) := mmap_create path 4096 true w in
  file ← need create_result;
  expect (mmap_valid file);;
  expect (mmap_size file =? 4096);;
  expect (negb (mmap_data file =? 0));;
  expect (span_size (mmap_bytes file w) =? 4096);;
  let marker := "Aether mmap persistence marker" in
  let w := write_marker file 0 marker w in
  let '(s, w) := mmap_flush file w in
  expect (is_ok s);;
  let '(s, file, w) := mmap_close file w in
  expect (is_ok s);;
  expect (negb (mmap_valid file));;
  let '(reopen_result, w) := mmap_open_existing path true w in
  reopened ← need reopen_result;
  expect (marker_matches reopened 0 marker w);;
  let '(moved, reopened) := mmap_move reopened in
  expect (negb (mmap_valid reopened));;
  expect (mmap_valid moved);;
  expect (marker_matches moved 0 marker w);;
  let prefix := "resize prefix" in
  let w := write_marker moved 64 prefix w in
  let '(s, moved, w) := mmap_resize 8192 moved w in
  expect (is_ok s);;
  expect (mmap_size moved =? 8192);;
  expect (marker_matches moved 64 prefix w);;
  let w := write_marker moved (Z.to_nat 5000) "new region marker" w in
  let '(s, w) := mmap_flush moved w in
  expect (is_ok s);;
  let '(s, moved, w) := mmap_close moved w in
  expect (is_ok s);;
  let destructor_marker := "destructor flush marker" in
  let '(destructor_result, w) := mmap_create destructor_path 4096 true w in
  destructor_file ← need destructor_result;
  let w := write_marker destructor_file 128 destructor_marker w in
  let w := mmap_destroy destructor_file w in
  let '(destructor_reopen_result, w) := mmap_open_existing destructor_path true w in
  destructor_reopened ← need destructor_reopen_result;
  expect (marker_matches destructor_reopened 128 destructor_marker w);;
  let '(s, destructor_reopened, w) := mmap_close destructor_reopened w in
  expect (is_ok s).

(** *** test_wal_writer.cpp *)

(** [message] of the two tests of the log. *)
Definition record_message (payload : list byte) (flags : Z) : MessageView :=
  mkMessageView (mkMessageHeader 0 0 (wrap 32 (span_size payload)) flags) payload.

Definition test_wal_writer : test unit :=
  let w := start in
  let path := "writer.wal" in
  let config := mkWalConfig EmptyString (wc_file_size_bytes WalConfig_default) (wc_flush_on_commit WalConfig_default) in
  let '(r, w) := writer_create config w in
  expect (negb (has_value r));;
  let '(r, w) := writer_create_path path 0 false w in
  expect (negb (has_value r));;
  let '(r, w) := writer_create_path path (wal_record_header_size - 1) false w in
  expect (negb (has_value r));;
  let '(writer_result, w) := writer_create_path path 256 false w in
  writer ← need writer_result;
  expect (writer_valid writer);;
  let '(s, writer, w) := append (record_message (bytes_of_text "alpha") 0) writer w in
  expect (is_ok s);;
  expect (writer_current_offset writer =? wal_record_header_size + 5);;
  expect (writer_records_written writer =? 1);;
  expect (writer_next_sequence writer =? 1);;
  expect (remaining_space writer =? 256 - writer_current_offset writer);;
  let '(s, writer, w) := append (record_message (bytes_of_text "two") 0) writer w in
  expect (is_ok s);;
  let '(s, writer, w) := append (record_message (bytes_of_text "two") 0) writer w in
  expect (is_ok s);;
  expect (writer_next_sequence writer =? 3);;
  let '(s, writer, w) := append (record_message (replicate 200 Byte.x00) 0) writer w in
  expect (has_code s StatusCode.out_of_space);;
  let '(s, w) := writer_flush writer w in
  expect (is_ok s);;
  let '(zero_writer_result, w) := writer_create_path "writer_zero.wal" 128 false w in
  zero_writer ← need zero_writer_result;
  let '(s, zero_writer, w) := append (record_message [] 0) zero_writer w in
  expect (is_ok s);;
  expect (writer_current_offset zero_writer =? wal_record_header_size).

(** *** test_wal_reader.cpp *)

(** Appends the texts with flags counting from 0x10. *)
Definition append_all (texts : list string) (writer : WalWriter) w : test (WalWriter * ToyOs.world) :=
  '(_, writer, w) ← for_each (fun text '(flags, writer, w) =>
      let '(s, writer, w) := append (record_message (bytes_of_text text) flags) writer w in
      expect (is_ok s);;
      mret (flags + 1, writer, w))
    texts (16, writer, w);
  mret (writer, w).
(** The loop that reads them back. *)
Definition read_all (texts : list string) (reader : WalReader) w : test WalReader :=
  '(_, reader) ← for_each (fun text '(i, reader) =>
      let '(record, reader) := reader_next reader w in
      expect (has_value record);;
      v ← need record;
      expect (sequence (rv_header v) =? i);;
      expect (bool_decide (rv_payload v = bytes_of_text text));;
      expect (flags (rv_header v) =? 16 + i);;
      mret (i + 1, reader))
    texts (0, reader);
  mret reader.
Definition write_payload_record (path : string) (payload : list byte) w : test ToyOs.world :=
  let '(writer_result, w) := writer_create_path path 256 false w in
  writer ← need writer_result;
  let '(_, writer, w) := append (record_message payload 0) writer w in
  let '(_, w) := writer_flush writer w in
  mret (mmap_destroy (ww_file writer) w).
(** Opens the file and reads one record, which fails as told. *)
Definition first_fails (path : string) (c : StatusCode.t) (with_detail : option string) w : test ToyOs.world :=
  let '(reader_result, w) := reader_open path w in
  reader ← need reader_result;
  let '(record, reader) := reader_next reader w in
  expect (negb (has_value record) && has_code (status record) c &&
    match with_detail with Some d => text_eq (detail (status record)) d | None => true end);;
  mret (mmap_destroy (wr_file reader) w).
(** A visitor that counts the records. *)
Definition count_records (s : Status) (_ : WalRecordView) (visited : Z) : Status * Z := (s, visited + 1).
(** Enough fuel for a file of 4096 bytes: one iteration per 40 bytes and one more. *)
Definition fuel_4096 : nat := 104.

Definition test_wal_reader : test unit :=
  let w := start in
  let texts := ["alpha"; "bravo"; "charlie"] in
  let '(writer_result, w) := writer_create_path "reader.wal" 4096 false w in
  writer ← need writer_result;
  '(writer, w) ← append_all texts writer w;
  let '(s, w) := writer_flush writer w in
  expect (is_ok s);;
  let w := mmap_destroy (ww_file writer) w in
  let '(reader_result, w) := reader_open "reader.wal" w in
  reader ← need reader_result;
  reader ← read_all texts reader w;
  let '(eof, reader) := reader_next reader w in
  expect (negb (has_value eof) && has_code (status eof) StatusCode.empty);;
  let '(s, reader) := reader_reset reader in
  expect (is_ok s);;
  let '(first_again, reader) := reader_next reader w in
  v ← need first_again;
  expect (sequence (rv_header v) =? 0);;
  let '(s, reader) := reader_reset reader in
  expect (is_ok s);;
  '(s, visited, reader) ← finished (replay fuel_4096 (count_records Status_ok) 0 reader w);
  expect (is_ok s);;
  expect (visited =? 3);;
  let '(s, reader) := reader_reset reader in
  expect (is_ok s);;
  let stop := mkStatus StatusCode.invalid_argument "visitor stop" in
  '(replay_status, visited, reader) ← finished (replay fuel_4096 (count_records stop) 0 reader w);
  expect (has_code replay_status StatusCode.invalid_argument);;
  expect (visited =? 1);;
  w ← write_payload_record "corrupt.wal" (bytes_of_text "payload") w;
  content ← read_file "corrupt.wal" w;
  flipped ← run (content !! 40%nat);
  let flip := z2b (Z.lxor (b2z flipped) 1) in
  let w := write_file "corrupt.wal" (<[40%nat := flip]> content) w in
  w ← first_fails "corrupt.wal" StatusCode.corrupted_record None w;
  let w := write_file "partial_header.wal" (bytes_of_text "AWAL") w in
  w ← first_fails "partial_header.wal" StatusCode.empty (Some "partial wal record") w;
  let header := mkHeader wal_record_magic wal_format_version wal_record_header_size 10 0 0 0 0 in
  let header := set_checksum (compute_record_checksum header []) header in
  let w := write_file "partial_payload.wal" (serialize_header header ++ bytes_of_text "abc") w in
  w ← first_fails "partial_payload.wal" StatusCode.empty (Some "partial wal record") w;
  mret tt.

(** *** test_persistent_broker.cpp *)

(** [OrderEvent{id, price, quantity}], the price in quarters; the padding is anything. *)
Definition test_order (id quarters quantity : Z) : OrderEvent :=
  mkEvent (to_u64 id) (to_u64 (double_bits (round quarters 4))) (to_u32 quantity) (to_u32 0).
(** The prices compared are the same encodings: none is zero or a NaN. *)
Definition same_event (a b : OrderEvent) : bool :=
  (uval (ev_id a) =? uval (ev_id b)) && (uval (ev_price a) =? uval (ev_price b)) &&
  (uval (ev_quantity a) =? uval (ev_quantity b)).
Definition expected : list OrderEvent := [test_order 1 405 10; test_order 2 410 20; test_order 3 415 30].

Section PersistentTests.
Context (Capacity : Z).
Definition open_broker (path : string) (size : Z) (flush_on_commit : bool) w
    : PersistentBrokerState (SpscRingBuffer OrderEvent) * ToyOs.world :=
  PersistentBroker.of_wal_config (T:=OrderEvent) (Capacity:=Capacity) (mkWalConfig path size flush_on_commit) w.
Definition durable_publish_is (c : StatusCode.t) (e : OrderEvent) (flags : Z)
    (b : PersistentBrokerState (SpscRingBuffer OrderEvent)) w
    : test (PersistentBrokerState (SpscRingBuffer OrderEvent) * ToyOs.world) :=
  '(s, b, w) ← run (PersistentBroker.try_publish (Capacity:=Capacity) e flags b w);
  expect (has_code s c);;
  mret (b, w).
End PersistentTests.

Definition test_unopened : test unit :=
  let w := start in
  let broker := PersistentBroker.init (Q:=SpscRingBuffer OrderEvent) (Capacity:=8) in
  expect (negb (PersistentBroker.valid broker));;
  '(broker, w) ← durable_publish_is 8 StatusCode.invalid_argument (test_order 1 40 3) 0 broker w;
  expect (publish_failed_invalid (PersistentBroker.metrics_snapshot broker) =? 1);;
  let '(broker, w) := open_broker 8 EmptyString (wc_file_size_bytes WalConfig_default) false w in
  expect (negb (PersistentBroker.valid broker));;
  expect (has_code (PersistentBroker.open_status broker) StatusCode.invalid_argument);;
  let too_small := wal_record_header_size + sizeof_T (T:=OrderEvent) - 1 in
  let '(broker, w) := open_broker 8 "too-small.wal" too_small false w in
  expect (negb (PersistentBroker.valid broker));;
  expect (has_code (PersistentBroker.open_status broker) StatusCode.invalid_argument).

(** The broker that writes main.wal, up to its destruction. *)
Definition test_main_wal w : test ToyOs.world :=
  let '(broker, w) := open_broker 8 "main.wal" 4096 false w in
  let metrics b := PersistentBroker.metrics_snapshot (Q:=SpscRingBuffer OrderEvent) b in
  expect (PersistentBroker.valid broker);;
  '(broker, w) ← durable_publish_is 8 StatusCode.ok (test_order 1 405 10) 10 broker w;
  expect ((published (metrics broker) =? 1) && (wal_records_written (metrics broker) =? 1) &&
          (0 <? wal_bytes_written (metrics broker)));;
  expect (PersistentBroker.wal_records_written broker =? 1);;
  expect (PersistentBroker.wal_next_sequence broker =? 1);;
  '(broker, w) ← durable_publish_is 8 StatusCode.ok (test_order 2 410 20) 11 broker w;
  '(broker, w) ← durable_publish_is 8 StatusCode.ok (test_order 3 415 30) 12 broker w;
  expect (PersistentBroker.wal_records_written broker =? 3);;
  expect (PersistentBroker.wal_next_sequence broker =? 3);;
  broker ← for_each (fun wanted broker =>
      '(s, out, broker) ← run (PersistentBroker.try_consume (Capacity:=8) broker);
      expect (is_ok s);;
      expect (match out with Some e => same_event e wanted | None => false end);;
      mret broker)
    expected broker;
  '(s, _, broker) ← run (PersistentBroker.try_consume (Capacity:=8) broker);
  expect (has_code s StatusCode.empty);;
  expect ((consumed (metrics broker) =? 3) && (consume_failed_empty (metrics broker) =? 1));;
  let '(s, broker, w) := PersistentBroker.flush broker w in
  expect (is_ok s);;
  expect (wal_flushes (metrics broker) =? 1);;
  mret (PersistentBroker.destroy broker w).

(** Its records, read back one by one. *)
Definition test_main_records w : test ToyOs.world :=
  let '(reader_result, w) := reader_open "main.wal" w in
  reader ← need reader_result;
  '(_, reader) ← for_each (fun wanted '(index, reader) =>
      let '(record, reader) := reader_next reader w in
      expect (has_value record);;
      v ← need record;
      expect (sequence (rv_header v) =? index);;
      expect (span_size (rv_payload v) =? sizeof_T (T:=OrderEvent));;
      expect (same_event (from_bytes (rv_payload v)) wanted);;
      expect (flags (rv_header v) =? 10 + index);;
      mret (index + 1, reader))
    expected (0, reader);
  let '(eof, reader) := reader_next reader w in
  expect (has_code (status eof) StatusCode.empty);;
  mret (mmap_destroy (wr_file reader) w).

(** Visitors: one that counts and returns [s], and one that also compares the events. *)
Definition count_events (s : Status) (_ : OrderEvent) (_ : WalRecordHeader) (visited : Z) : Status * Z :=
  (s, visited + 1).
Definition compare_events (e : OrderEvent) (h : WalRecordHeader) (st : Z * bool) : Status * (Z * bool) :=
  let same := match expected !! Z.to_nat (sequence h) with Some x => same_event e x | None => false end in
  (Status_ok, (st.1 + 1, st.2 && same)).

Definition test_typed_replay w : test ToyOs.world :=
  '(s, visited, counters, w) ← finished (PersistentBroker.replay_with_metrics fuel_4096 "main.wal"
    (count_events Status_ok) 0 BrokerCounters_init w);
  expect (is_ok s);;
  expect (visited =? 3);;
  expect (recovered_records (snapshot counters) =? 3);;
  '(s, (visited, same), w) ← finished (PersistentBroker.replay_path fuel_4096 "main.wal" compare_events (0, true) w);
  expect same;;
  expect (is_ok s);;
  expect (visited =? 3);;
  let stop := mkStatus StatusCode.invalid_argument "stop replay" in
  '(s, visited, w) ← finished (PersistentBroker.replay_path fuel_4096 "main.wal" (count_events stop) 0 w);
  expect (has_code s StatusCode.invalid_argument);;
  expect (visited =? 1);;
  mret w.

Definition test_full_queue w : test ToyOs.world :=
  let '(broker, w) := open_broker 2 "full.wal" 4096 (wc_flush_on_commit WalConfig_default) w in
  expect (PersistentBroker.valid broker);;
  '(broker, w) ← durable_publish_is 2 StatusCode.ok (test_order 1 405 10) 0 broker w;
  '(broker, w) ← durable_publish_is 2 StatusCode.ok (test_order 2 410 20) 0 broker w;
  '(broker, w) ← durable_publish_is 2 StatusCode.full (test_order 3 415 30) 0 broker w;
  let metrics := PersistentBroker.metrics_snapshot broker in
  expect ((publish_failed_full metrics =? 1) && (wal_records_written metrics =? 2));;
  let '(s, broker, w) := PersistentBroker.flush broker w in
  expect (is_ok s);;
  let w := PersistentBroker.destroy broker w in
  '(s, records, w) ← finished (PersistentBroker.replay_path fuel_4096 "full.wal" (count_events Status_ok) 0 w);
  expect (is_ok s);;
  expect (records =? 2);;
  mret w.

Definition test_persistent_broker : test unit :=
  test_unopened;;
  w ← test_main_wal start;
  w ← test_main_records w;
  w ← test_typed_replay w;
  w ← test_full_queue w;
  mret tt.

(** ** Programs whose checks all hold *)

(** [t] ends without a failure, with a result in [P]. *)
Definition ends {A} (t : test A) (P : A -> Prop) : Prop := forall n, exists a, t n = Some (a, n) /\ P a.

Lemma ends_bind {A B} (t : test A) (f : A -> test B) (P : A -> Prop) (R : B -> Prop) :
  ends t P -> (forall a, P a -> ends (f a) R) -> ends (t ≫= f) R.
Proof. intros Ht Hf n. destruct (Ht n) as (a & E & Ha). unfold mbind, test_bind. rewrite E. by apply Hf. Qed.

(** A loop: [I] relates what is left of the list to the state. *)
Lemma ends_for_each {A S} (body : A -> S -> test S) (I : list A -> S -> Prop) l : forall s,
  (forall a l s, I (a :: l) s -> ends (body a s) (I l)) -> I l s -> ends (for_each body l s) (I []).
Proof.
  induction l as [|a l IH]; intros s Hb Hs; [by intros n; exists s|].
  eapply ends_bind; [by apply Hb|]. intros s' Hs'. by apply IH.
Qed.

Section RingTests.
Context {T : Type} `{EqDecision T} (Capacity : Z) `{!CapacityOk Capacity}.
Abbreviation holds q l := (q_represents (SpscQueue:=SpscRingBuffer_queue T Capacity) q l).

Lemma ends_push v q l : holds q l -> Z.of_nat (length l) < Capacity ->
  ends (push_ok Capacity v q) (fun q => holds q (l ++ [v])).
Proof.
  intros Hq Hl n. destruct (q_law_push q l v Hq) as (q' & E & Hq'). simpl in E. unfold Fifo.push in *.
  destruct (Z.ltb_spec (Z.of_nat (length l)) Capacity) as [_|?]; [|lia].
  exists q'. split; [|done]. cbv [push_ok mbind test_bind run option_bind]. by rewrite E.
Qed.
Lemma ends_pop v q l : holds q (v :: l) -> ends (pop_is Capacity v q) (fun q => holds q l).
Proof.
  intros Hq n. destruct (q_law_pop q (v :: l) Hq) as (q' & E & Hq'). simpl in E, Hq'.
  exists q'. split; [|done]. cbv [pop_is mbind test_bind run option_bind]. rewrite E.
  unfold expect. by rewrite !bool_decide_true by done.
Qed.
Lemma ends_push_all vs q l : holds q l -> Z.of_nat (length l + length vs) <= Capacity ->
  ends (for_each (push_ok Capacity) vs q) (fun q => holds q (l ++ vs)).
Proof.
  intros Hq Hl n.
  destruct (ends_for_each (push_ok Capacity) (fun rest q => exists front, vs = front ++ rest /\ holds q (l ++ front))
    vs q) with (n := n) as (q' & E & front & -> & Hq').
  - intros v rest q' (front & -> & Hq') m. rewrite !length_app in Hl. simpl in Hl.
    destruct (ends_push v q' (l ++ front)) with (n := m) as (q2 & E2 & H2); [done|rewrite length_app; lia|].
    exists q2. split; [done|]. exists (front ++ [v]).
    split; [by rewrite <- app_assoc|by rewrite app_assoc].
  - exists []. split; [done|]. by rewrite app_nil_r.
  - exists q'. split; [done|]. by rewrite app_nil_r.
Qed.
Lemma ends_pop_all vs q l : holds q (vs ++ l) -> ends (for_each (pop_is Capacity) vs q) (fun q => holds q l).
Proof.
  intros Hq. apply (ends_for_each _ (fun rest q => holds q (rest ++ l))); [|done].
  intros v rest q'. apply ends_pop.
Qed.
End RingTests.

#[export] Instance CapacityOk_8 : CapacityOk 8.
Proof. by split; vm_compute. Qed.

(** The loops of test_spsc_wraparound.cpp pass however often they run. *)
Theorem test_spsc_wraparound_passes (cycles rounds : nat) : exit_code (test_spsc_wraparound cycles rounds) = Some 0.
Proof.
  assert (E : ends (test_spsc_wraparound cycles rounds) (fun _ => True)).
  { pose proof (q_law_init (Q:=SpscRingBuffer Z) (T:=Z) (cap:=8)) as Hinit. simpl in Hinit.
    eapply ends_bind; [apply (ends_for_each _ (fun _ q => represents 8 q [])); [|done]|].
    { intros c _ q Hq. eapply ends_bind; [by apply (ends_push_all 8 _ q [])|]. intros q' Hq'.
      apply (ends_pop_all 8 _ q' []). by rewrite app_nil_r. }
    intros _ _. eapply ends_bind; [by apply (ends_push_all 8 _ _ [])|]. intros q1 H1.
    eapply ends_bind; [by apply (ends_pop_all 8 _ q1 [3; 4])|]. intros q2 H2.
    eapply ends_bind; [by apply (ends_push_all 8 _ q2 [3; 4])|]. intros q3 H3.
    eapply ends_bind; [by apply (ends_pop_all 8 _ q3 [])|]. intros _ _.
    eapply ends_bind; [apply (ends_for_each _ (fun _ q => represents 8 q [])); [|done]|by intros; intros n; exists tt].
    intros v _ q Hq. eapply ends_bind; [by apply (ends_push 8 v q [])|]. intros q' Hq'. by apply ends_pop. }
  unfold exit_code. destruct (E 0) as ([] & -> & _). done.
Qed.

Example test_status_passes : exit_code test_status = Some 0.
Proof. vm_compute. reflexivity. Qed.
Example test_message_passes : exit_code test_message = Some 0.
Proof. vm_compute. reflexivity. Qed.
Example test_version_passes : exit_code test_version = Some 0.
Proof. vm_compute. reflexivity. Qed.
Example test_counters_passes : exit_code test_counters = Some 0.
Proof. vm_compute. reflexivity. Qed.
Example test_latency_histogram_passes : exit_code test_latency_histogram = Some 0.
Proof. vm_compute. reflexivity. Qed.
Example test_spsc_basic_passes : exit_code test_spsc_basic = Some 0.
Proof. vm_compute. reflexivity. Qed.
Example test_spsc_move_only_passes : exit_code test_spsc_move_only = Some 0.
Proof. vm_compute. reflexivity. Qed.
Example test_broker_passes : exit_code test_broker = Some 0.
Proof. vm_compute. reflexivity. Qed.
Example test_batch_broker_passes : exit_code test_batch_broker = Some 0.
Proof. vm_compute. reflexivity. Qed.
Example test_zero_copy_spsc_passes : exit_code test_zero_copy_spsc = Some 0.
Proof. vm_compute. reflexivity. Qed.
Example test_cli_args_passes : exit_code test_cli_args = Some 0.
Proof. vm_compute. reflexivity. Qed.
Example test_wal_record_passes : exit_code test_wal_record = Some 0.
Proof. vm_compute. reflexivity. Qed.
Example test_mmap_file_passes : exit_code test_mmap_file = Some 0.
Proof. vm_compute. reflexivity. Qed.
Example test_wal_writer_passes : exit_code test_wal_writer = Some 0.
Proof. vm_compute. reflexivity. Qed.
Example test_wal_reader_passes : exit_code test_wal_reader = Some 0.
Proof. vm_compute. reflexivity. Qed.
Example test_persistent_broker_passes : exit_code test_persistent_broker = Some 0.
Proof. vm_compute. reflexivity. Qed.
Example test_backpressure_passes : exit_code test_backpressure = Some 0.
Proof. vm_compute. reflexivity. Qed.

(** The transfers between two threads pass, whatever the interleaving and the memory order allow. *)
Theorem threaded_tests_pass (Capacity : Z) (passed : bool) :
  (ordered_transfer passed -> passed = true) /\
  (In Capacity stress_cases -> run_case Capacity passed -> passed = true).
Proof.
  assert (H : forall c, In c supported_capacities -> Stress.run_stress c message_count passed -> passed = true).
  { intros c Hc (tr & r & kh & kt & Hr & Hf & Hp). pose proof (Stress.supported_ok c Hc) as CAP.
    destruct (Stress.stress_verdict message_count ltac:(by vm_compute) tr r Hr Hf) as [_ N].
    destruct passed; [done|]. by destruct (N kh kt). }
  split; [|intros Hc]; apply H; simpl in *; tauto.
Qed.
